(* ===== verification/_CoqProject ===== *)
-Q . S2P
Prelude.v
Config.v
VectorClock.v
ClGroup.v
LocalCLTable.v
FlushUtils.v
ClTracker.v
TrackerSystem.v
SpmcQueue.v
SpmcSystem.v
ExtentPool.v
LogManager.v
LogSystem.v
CacheInfo.v
Actions.v
Invariant.v
Logic.v
ActionSpecs.v
ThreadOps.v
Runtime.v
Release.v
Acquire.v
CacheAgent.v
Coherence.v
Pool.v
RangeStore.v
Progress.v
CxlSync.v
Handover.v
AtomicOps.v
SharedLock.v
BarrierSystem.v
SharedMutexSystem.v
InstrumentLib.v
CxlMalloc.v
Microbench.v
NumaUtils.v
Startup.v
BenchMain.v
CxlObjects.v
McsLock.v
UniqueLock.v
ClhLock.v
