(* ===== verification/Prelude.v ===== *)
(** * RACoherence: a verification library

    RACoherence keeps a shared memory coherent in software. Each node (a process
    on its own host) caches lines of a region without hardware coherence; a small
    region with it holds the metadata. A thread records the lines it stores to in
    a local table; a release writes them back and publishes a log of them, and an
    acquire waits until its node has consumed the logs the acquired clock covers
    and has invalidated their lines. These files model the program ([src/]) and
    prove that protocol, its data structures and its locks correct.

    ** The files and what they model

    - Prelude: machine words, bit and list lemmas, tactics and hint bases.
    - Config: the macros of [include/config.hpp], as the class [Config].
    - VectorClock, ClGroup, LocalCLTable, FlushUtils, ClTracker: the headers of
      those names in [include/]. They are pure functions on the state the code
      keeps; a loop that is not bounded by its data has fuel.
    - TrackerSystem: the calls of ClTracker interleaved at every access, with the
      tables and leaves on a heap, the compare-and-exchange that creates them and
      the destructor that frees them.
    - SpmcQueue, SpmcSystem: [include/spmcQueue.hpp], the calls one at a time, with
      the contract [FifoQueue] that LogManager is proved against, and the calls
      interleaved at every access.
    - ExtentPool: [include/extentPool.hpp]. CxlMalloc: [include/cxlMalloc.hpp] and
      [src/cxlMalloc.cpp].
    - LogManager, CacheInfo: the log of a node and what a node has consumed of the
      others ([include/logManager.hpp], [include/cacheInfo.hpp]). LogSystem: the
      calls of LogManager interleaved at every access.
    - Actions: the machine. A [world] is all nodes; an action is one call of
      LogManager or CacheInfo, a mutex operation, a flush or a memory access; a
      program is a tree of actions, run by [exec] with the actions of any other
      threads between its own. [act_do] is an action as the code performs it;
      [act_step], on which the proofs are, also crashes at an action that would
      break the protocol. Pool: the threads of all nodes, with their programs, on
      [act_do]; what holds with the checks holds there ([pool_adequate]).
    - ThreadOps, Runtime, CacheAgent, CxlSync, InstrumentLib: the programs over the
      machine: [include/threadOps.hpp], [include/runtime.hpp] and
      [src/runtime.cpp], [src/cacheAgent.cpp], [include/cxlSync.hpp],
      [src/instrumentLib.cpp].
    - AtomicOps: the operations of [CXLAtomic] split at the lock of the location,
      so that threads can share one. BarrierSystem, SharedMutexSystem: the threads
      of a [CXLBarrier] and of a [CXLSharedMutex], with their programs between the
      accesses to the shared object run by the machine.
    - CxlObjects: the allocation functions of [src/cxlMalloc.cpp], the constructors
      and destructors of the classes of [include/cxlSync.hpp], over a library given
      by its laws ([AllocLib]), and [CXLRelaxedAtomic].
    - SharedLock, McsLock, UniqueLock, ClhLock: [include/mcsLock.hpp] and
      [include/clhLock.hpp], step systems with one access to shared memory per
      step; the reader-writer locks are over the class [Lock] of the two, the
      scoped owner is over the calls of McsLock.
    - Startup: the processes of the nodes, from [rac_init] to [rac_shutdown]
      ([src/runtime.cpp], [include/globalMeta.hpp]), around any user program: every
      system call and every access to the shared object is a step. BenchMain: [main]
      and the workers of [src/benchMain.cpp] as that user program.
    - Microbench, NumaUtils: [include/microbench.hpp], [src/microbench.cpp],
      [include/numaUtils.hpp].
    - Coherence, Pool, Handover, Progress: the theorems of the protocol.
    - Invariant, Logic, ActionSpecs, Release, Acquire, RangeStore: the proof of the
      protocol: the world invariant that every action keeps, triples that hold
      under any interleaving, and the triples of the operations.

    ** What the theorems show

    - The protocol (Coherence, Handover): a line stored to before a release has
      been written back, published and invalidated at the node of any later acquire
      that covers the release, whatever other threads do; with the clock carried by
      the release itself, a mutex and other threads' critical sections, a release
      sequence of an atomic, thread creation, thread join. No operation fails an
      assertion or uses a log it does not own, and a node's clock counts only
      positions whose lines it has invalidated (Pool). RangeStore and InstrumentLib say the
      same of range stores and library calls, for the lines the code marks.
    - The objects threads share: what is stored before [wait] is visible to every
      thread that leaves the barrier in that round, in every round, and a barrier
      that all have called does not block (BarrierSystem); what a writer stores is
      visible to every later holder of a shared mutex, while readers write its clock
      at the same time (SharedMutexSystem). [atomic_op_split] ties the parts of an
      atomic operation to the whole one of CxlSync.
    - Termination (Progress): a thread that runs alone returns from a release when
      its node has a free log, from an acquire when what it waits for is published.
      The fuel these need is in the statements.
    - Start-up: a process that returns from [rac_init] finds the memory, the log
      managers and the root barrier set up, and has its own thread id; after a call
      of [wait] of the root barrier all nodes are set up; while nothing fails,
      some process can go on until all have left [rac_init]; a later process does not make the pools again (Startup). The benchmark
      uses its pool only while it exists (BenchMain).
    - Memory: the objects of [cxlSync.hpp] that allocate, or are given a block, own
      disjoint blocks of the coherent arena and give them all back; those put into
      other memory cannot be destroyed; what the program allocates is instrumented
      exactly if it is in the non-coherent arena (CxlObjects).
    - The structures: the table of dirty lines covers what was inserted, and its
      words are well typed while ranges are of at most [GROUP_LEN_MAX] groups; the packed words keep their fields and their iterators
      visit their lines; the tracker is a set of lines; under concurrency its marks,
      tests and clears are atomic, the calls that flush are split at their flushes and
      leaves, and no leaf leaks or is lost; a mark stays until its line is flushed, as
      long as only range calls clear, within 2^39 bytes; [memmove] moves; the range
      flushes flush the lines of the range; logs are conserved, and none is reused
      while a subscriber has still to read it, whether calls are atomic (LogManager) or accesses are
      (LogSystem); the free-log ring is a bounded queue, linearizable
      under concurrency, with a wait-free producer; the extents of the pool and the
      regions of the memory layout are disjoint.
    - The locks: mutual exclusion, accesses to allocated nodes only, first come
      first served, no starvation for MCSLock; mutual exclusion for CLHLock; a
      writer excludes readers for the shared locks.
    - What the code does not do: the theorems in the last part of the files about
      lines a range drops, counters and positions that wrap around, a scan of
      [strcpy] that never ends, a freed node that CLHLock::try_lock reads, a mark
      that [invalidate_if_dirty] loses to a race, a process that attaches too early
      or to the object of a dead run, a barrier destroyed in use, an object that
      frees memory it was given, and others.
      They state the behaviour of the code as it is.

    ** Builds, bounds and fuel

    The theorems about the protocol are for builds with [EAGER_INVALIDATE]
    ([EagerBuild]), and those about accesses and releases also for the default of
    the other macros ([DirectBuild]); [default_config] is such a build. The definitions have
    every branch of the preprocessor. Addresses have 48 bits, positions of a log 32
    bits: a run of the machine stops when they would wrap, and
    [perform_gc_asserts_at_wrap] says what the code does then. Positions of the
    free-log ring are 64-bit words; its theorems are for up to 2^62 enqueues. A
    program that runs out of fuel is [Stopped], which the safety theorems allow and
    the theorems of Progress exclude.

    ** Not modelled

    - The order of memory accesses is sequentially consistent: the weaker orders of
      [std::atomic] have no effect. What an atomic section of an object's lock does
      is one step for the other users of the object.
    - The processor: a flush is an event; caches and the memory are not state.
    - In LogManager and in the machine, [take_head], [consume_head] and
      [get_new_log] with its collection are single steps and [produce_tail] is two.
      LogSystem has every access as a step, with subscriptions that do not change
      and a node with at least one subscriber; what can go wrong without one is
      [unsubscribed_gc_duplicates_log], what can with a late subscription
      [subscribe_in_flight_duplicates_log].
    - System calls and third-party code: mmap, NUMA binding, pthreads, dlsym,
      mimalloc, jemalloc; the theorems that need something of them have it as a
      parameter, or, in Startup, their results as choices of a step.
    - Code without effect on the protocol: [Monitor] of utils.hpp (a wrapper of
      [std::shared_mutex] that nothing uses), statistics and logging, getters,
      declarations, and [include/clh_rwlock.hpp], which only declares functions.
    - The theorems of the protocol for builds that invalidate lazily: there an
      acquire only marks lines, and what a load sees depends on the accesses being
      instrumented one by one. The definitions have these builds; the tracker they
      use has its theorems in TrackerSystem. *)
From Stdlib Require Export ZArith Lia Btauto.
From stdpp Require Export prelude numbers gmap sets list.

#[export] Set Default Goal Selector "!".

Declare Scope word_scope.
Delimit Scope word_scope with word.
#[global] Open Scope Z_scope.

(** ** Machine words

    A [w]-bit unsigned integer is a [Z] in [0, 2^w); every C++ operation that
    can leave that range wraps explicitly. *)

Definition wrap (w z : Z) : Z := z mod 2 ^ w.
Abbreviation wrap32 := (wrap 32).
Abbreviation wrap64 := (wrap 64).

Definition in_word (w z : Z) : Prop := 0 ≤ z < 2 ^ w.
Abbreviation u32 := (in_word 32).
Abbreviation u64 := (in_word 64).

#[export] Instance in_word_dec w z : Decision (in_word w z).
Proof. unfold in_word. apply _. Defined.

Definition add64 (a b : Z) : Z := wrap64 (a + b).
Definition sub64 (a b : Z) : Z := wrap64 (a - b).
Definition add32 (a b : Z) : Z := wrap32 (a + b).
Definition sub32 (a b : Z) : Z := wrap32 (a - b).
Definition shl64 (a n : Z) : Z := wrap64 (Z.shiftl a n).
Definition shr64 (a n : Z) : Z := Z.shiftr a n.
Definition not64 (a : Z) : Z := wrap64 (Z.lnot a).
Definition neg64 (a : Z) : Z := wrap64 (- a).

(** Reinterpretation of a 64-bit word as [intptr_t] (two's complement). *)
Definition signed64 (a : Z) : Z :=
  if a <? 2 ^ 63 then a else a - 2 ^ 64.

Infix "+w" := add64 (at level 50, left associativity) : word_scope.
Infix "-w" := sub64 (at level 50, left associativity) : word_scope.
Infix "<<w" := shl64 (at level 40, left associativity) : word_scope.
Infix ">>w" := shr64 (at level 40, left associativity) : word_scope.
Infix "&w" := Z.land (at level 45, left associativity) : word_scope.
Infix "|w" := Z.lor (at level 51, left associativity) : word_scope.

Create HintDb words.
Create Rewrite HintDb words.
Create Rewrite HintDb bits.

Lemma pow2_pos n : 0 ≤ n → 0 < 2 ^ n.
Proof. intros. apply Z.pow_pos_nonneg; lia. Qed.

Lemma wrap_range w z : 0 ≤ w → in_word w (wrap w z).
Proof. intros. unfold in_word, wrap. apply Z.mod_pos_bound, pow2_pos; lia. Qed.

Lemma wrap_small w z : in_word w z → wrap w z = z.
Proof. unfold in_word, wrap. apply Z.mod_small. Qed.

Lemma wrap_wrap w z : wrap w (wrap w z) = wrap w z.
Proof. unfold wrap. apply Zmod_mod. Qed.

Lemma wrap_add_l w a b : wrap w (wrap w a + b) = wrap w (a + b).
Proof. unfold wrap. apply Zplus_mod_idemp_l. Qed.

Lemma wrap_add_r w a b : wrap w (a + wrap w b) = wrap w (a + b).
Proof. unfold wrap. apply Zplus_mod_idemp_r. Qed.

Lemma wrap_sub_l w a b : wrap w (wrap w a - b) = wrap w (a - b).
Proof. unfold wrap. apply Zminus_mod_idemp_l. Qed.

Lemma in_word_0 w : 0 ≤ w → in_word w 0.
Proof. intros. split; [lia | by apply pow2_pos]. Qed.

Lemma in_word_mono w v z : w ≤ v → in_word w z → in_word v z.
Proof.
  intros Hwv [H0 H1]. split; [done|].
  destruct (Z.le_gt_cases 0 w) as [Hw|Hw].
  - pose proof (Z.pow_le_mono_r 2 w v). lia.
  - rewrite (Z.pow_neg_r 2 w) in H1 by lia. lia.
Qed.

#[export] Hint Resolve wrap_range in_word_0 pow2_pos : words.
#[export] Hint Rewrite wrap_wrap wrap_add_l wrap_add_r wrap_sub_l : words.

(** ** Bits *)

Lemma testbit_high w z i : in_word w z → w ≤ i → Z.testbit z i = false.
Proof.
  intros [H0 H1] Hi.
  destruct (Z.le_gt_cases 0 w) as [Hw|Hw].
  - rewrite <- (Z.mod_small z (2 ^ w)) by done. apply Z.mod_pow2_bits_high. lia.
  - rewrite (Z.pow_neg_r 2 w) in H1 by lia. lia.
Qed.

Lemma in_word_bits w z :
  0 ≤ w → 0 ≤ z → (∀ i, w ≤ i → Z.testbit z i = false) → in_word w z.
Proof.
  intros Hw Hz Hbits. split; [done|].
  assert (z = z mod 2 ^ w) as ->.
  { apply Z.bits_inj'. intros i Hi. destruct (Z.lt_ge_cases i w).
    - by rewrite Z.mod_pow2_bits_low by lia.
    - rewrite Z.mod_pow2_bits_high by lia. by apply Hbits. }
  apply Z.mod_pos_bound. by apply pow2_pos.
Qed.

Lemma testbit_wrap w z i :
  0 ≤ w → Z.testbit (wrap w z) i = (i <? w) && Z.testbit z i.
Proof.
  intros Hw. unfold wrap. destruct (Z.ltb_spec i w).
  - by rewrite Z.mod_pow2_bits_low by lia.
  - by rewrite Z.mod_pow2_bits_high by lia.
Qed.

Lemma testbit_shiftl a n i :
  0 ≤ i → Z.testbit (Z.shiftl a n) i = Z.testbit a (i - n).
Proof. intros. by apply Z.shiftl_spec. Qed.

Lemma testbit_ones_ltb n i :
  0 ≤ n → 0 ≤ i → Z.testbit (Z.ones n) i = (i <? n).
Proof.
  intros Hn Hi. destruct (Z.ltb_spec i n).
  - by apply Z.ones_spec_low.
  - by apply Z.ones_spec_high.
Qed.

Lemma testbit_pow2 n i : 0 ≤ n → Z.testbit (2 ^ n) i = (n =? i).
Proof. intros. by apply Z.pow2_bits_eqb. Qed.

(** [lor] and [+] agree on words with no common bit. *)
Lemma lor_disjoint_add a b : Z.land a b = 0 → Z.lor a b = a + b.
Proof. intros H. rewrite <- Z.lxor_lor by done. symmetry. by apply Z.add_nocarry_lxor. Qed.

(** A low field below a shifted high field. *)
Lemma land_low_shiftl n a b :
  0 ≤ n → in_word n a → Z.land a (Z.shiftl b n) = 0.
Proof.
  intros Hn Ha. apply Z.bits_inj'. intros i Hi.
  rewrite Z.land_spec, testbit_shiftl, Z.bits_0 by lia.
  destruct (Z.lt_ge_cases i n).
  - by rewrite (Z.testbit_neg_r b), andb_false_r by lia.
  - by rewrite (testbit_high n a) by (done || lia).
Qed.

Lemma lor_shiftl_add n a b :
  0 ≤ n → in_word n a → Z.lor a (Z.shiftl b n) = a + b * 2 ^ n.
Proof.
  intros. rewrite lor_disjoint_add by by apply land_low_shiftl.
  by rewrite Z.shiftl_mul_pow2.
Qed.

Lemma in_word_lor w a b : 0 ≤ w → in_word w a → in_word w b → in_word w (Z.lor a b).
Proof.
  intros Hw Ha Hb. apply in_word_bits; [done|apply Z.lor_nonneg; destruct Ha, Hb; lia|].
  intros i Hi. by rewrite Z.lor_spec, (testbit_high w a), (testbit_high w b).
Qed.

Lemma in_word_land w a b : 0 ≤ w → in_word w a → 0 ≤ b → in_word w (Z.land a b).
Proof.
  intros Hw Ha Hb. apply in_word_bits; [done|apply Z.land_nonneg; by right|].
  intros i Hi. by rewrite Z.land_spec, (testbit_high w a).
Qed.

Lemma lor_ge_l a b : 0 ≤ a → 0 ≤ b → a ≤ Z.lor a b.
Proof.
  intros Ha Hb.
  assert (Z.lor a b = a + Z.ldiff b a) as ->.
  { rewrite <- lor_disjoint_add.
    - apply Z.bits_inj'. intros i Hi. rewrite !Z.lor_spec, Z.ldiff_spec. btauto.
    - apply Z.bits_inj'. intros i Hi. rewrite Z.land_spec, Z.ldiff_spec, Z.bits_0. btauto. }
  assert (0 ≤ Z.ldiff b a); [|lia]. apply Z.ldiff_nonneg. by left.
Qed.

(** The rewrite base that turns [Z.testbit] of an operator into a boolean
    expression over the operands' bits, and the tactic that uses it. *)
#[export] Hint Rewrite Z.land_spec Z.lor_spec Z.lxor_spec Z.ldiff_spec Z.bits_0 : bits.
#[export] Hint Rewrite Z.shiftr_spec testbit_shiftl Z.lnot_spec testbit_ones_ltb
  testbit_pow2 testbit_wrap using lia : bits.

Ltac split_ltb :=
  repeat match goal with
  | |- context [?a <? ?b] =>
      destruct (Z.ltb_spec a b); cbn [andb orb negb xorb]; try lia
  | |- context [?a <=? ?b] =>
      destruct (Z.leb_spec a b); cbn [andb orb negb xorb]; try lia
  | |- context [?a =? ?b] =>
      destruct (Z.eqb_spec a b); cbn [andb orb negb xorb]; try lia
  end.

Ltac bit_blast :=
  apply Z.bits_inj'; let i := fresh "i" in intros i ?; autorewrite with bits;
  split_ltb; rewrite ?andb_false_r, ?andb_true_r, ?orb_false_r, ?orb_true_r;
  try done; try btauto.

(** Clearing the low bits rounds down. *)
Lemma align_down_pow2 k x : 0 ≤ k ≤ 64 → in_word 64 x → Z.land x (not64 (Z.ones k)) = 2 ^ k * (x / 2 ^ k).
Proof.
  intros Hk Hx. replace (2 ^ k * (x / 2 ^ k)) with (Z.shiftl (Z.shiftr x k) k)
    by (rewrite Z.shiftl_mul_pow2, Z.shiftr_div_pow2; lia).
  apply Z.bits_inj'. intros i Hi. unfold not64. autorewrite with bits.
  destruct (Z.lt_ge_cases i k); [rewrite (Z.testbit_neg_r _ (i - k)) by lia|
    rewrite Z.shiftr_spec by lia; replace (i - k + k) with i by lia];
  destruct (Z.ltb_spec i k), (Z.ltb_spec i 64); try lia; cbn; rewrite ?andb_false_r, ?andb_true_r;
  rewrite ?(testbit_high 64 x) by done; done.
Qed.

(** The conditional expression the sources write for a maximum. *)
Lemma ltb_max a b : (if b <? a then a else b) = Z.max a b.
Proof. destruct (Z.ltb_spec b a); lia. Qed.

(** ** Lists *)

Lemma filter_none {A} (P : A → Prop) `{∀ x, Decision (P x)} (l : list A) :
  (∀ x, x ∈ l → ¬ P x) → filter P l = [].
Proof.
  induction l as [|x l IH]; intros Hl; [done|].
  rewrite filter_cons_False by (apply Hl; left). apply IH. intros y Hy. apply Hl. by right.
Qed.

Lemma filter_ext_in {A} (P Q : A → Prop) `{∀ x, Decision (P x), ∀ x, Decision (Q x)}
    (l : list A) :
  (∀ x, x ∈ l → P x ↔ Q x) → filter P l = filter Q l.
Proof.
  induction l as [|x l IH]; intros Hl; [done|].
  rewrite !filter_cons, IH by (intros; apply Hl; by right).
  specialize (Hl x (list_elem_of_here _ _)). repeat case_decide; naive_solver.
Qed.

(** Linear arithmetic with division and remainder by constants. *)
Ltac divlia := Z.to_euclidean_division_equations; lia.

Lemma existsb_lookup {A} (f : A → bool) (l : list A) :
  existsb f l = true ↔ ∃ i x, l !! i = Some x ∧ f x = true.
Proof.
  rewrite existsb_exists. setoid_rewrite <- list_elem_of_In.
  setoid_rewrite list_elem_of_lookup. naive_solver.
Qed.

(** Overwriting one element changes a disjunction over the list by what the
    element contributes. *)
Lemma existsb_insert {A} (f : A → bool) (l : list A) i old new (Q : Prop) :
  l !! i = Some old → (f new = true ↔ f old = true ∨ Q) →
  existsb f (<[i := new]> l) = true ↔ existsb f l = true ∨ Q.
Proof.
  intros Hi Hf. pose proof (lookup_lt_Some _ _ _ Hi).
  rewrite !existsb_lookup. split.
  - intros (j & x & Hj & Hx). destruct (decide (i = j)) as [<-|].
    + rewrite list_lookup_insert_eq in Hj by done. naive_solver.
    + rewrite list_lookup_insert_ne in Hj by done. naive_solver.
  - assert (f new = true → ∃ j x, <[i := new]> l !! j = Some x ∧ f x = true) as Hnew.
    { intros. exists i, new. by rewrite list_lookup_insert_eq. }
    intros [(j & x & Hj & Hx)|HQ]; [|by apply Hnew, Hf; right].
    destruct (decide (i = j)) as [<-|]; [apply Hnew, Hf; naive_solver|].
    exists j, x. by rewrite list_lookup_insert_ne.
Qed.

Lemma existsb_insert_sub {A} (f : A → bool) (l : list A) i old new (Q : Prop) :
  l !! i = Some old → (f old = true ∨ Q → f new = true) →
  existsb f l = true ∨ Q → existsb f (<[i := new]> l) = true.
Proof.
  intros Hi Hf. pose proof (lookup_lt_Some _ _ _ Hi). rewrite !existsb_lookup.
  assert (f new = true → ∃ j x, <[i := new]> l !! j = Some x ∧ f x = true) as Hnew.
  { intros. exists i, new. by rewrite list_lookup_insert_eq. }
  intros [(j & x & Hj & Hx)|HQ]; [|by apply Hnew, Hf; right].
  destruct (decide (i = j)) as [<-|]; [apply Hnew, Hf; naive_solver|].
  exists j, x. by rewrite list_lookup_insert_ne.
Qed.

(** ** Queues *)

Section queues.
Context {A : Type}.
Implicit Types (q : list A) (a b h x : A).

(** [b] is right behind [a] in the queue. *)
Definition follows q a b : Prop := ∃ q1 q2, q = q1 ++ a :: b :: q2.

Lemma follows_elem q a b : follows q a b → a ∈ q ∧ b ∈ q.
Proof. intros (q1 & q2 & ->). rewrite !elem_of_app, !elem_of_cons. auto. Qed.

Lemma follows_cons q h a b : follows (h :: q) a b ↔ (a = h ∧ head q = Some b) ∨ follows q a b.
Proof.
  split.
  - intros ([|h' q1] & q2 & [= -> ->]); [by left|right; by exists q1, q2].
  - intros [[-> Hb]|(q1 & q2 & ->)]; [|by exists (h :: q1), q2].
    destruct q as [|b' q]; [done|]. injection Hb as ->. by exists [], q.
Qed.

Lemma head_elem q a : head q = Some a → a ∈ q.
Proof. destruct q; [done|]. intros [= ->]. by left. Qed.

Lemma follows_nil a b : ¬ follows [] a b.
Proof. by intros ([|] & ? & ?). Qed.

Lemma follows_snoc q x a b : follows (q ++ [x]) a b ↔ follows q a b ∨ (last q = Some a ∧ b = x).
Proof.
  induction q as [|h q IH]; cbn [app].
  - rewrite follows_cons. pose proof (follows_nil a b). cbn. naive_solver.
  - rewrite !follows_cons, IH. destruct q as [|h' q]; cbn [head app].
    + cbn. pose proof (follows_nil a b). naive_solver.
    + rewrite last_cons_cons. tauto.
Qed.

Lemma follows_inj_r q a b b' : NoDup q → follows q a b → follows q a b' → b = b'.
Proof.
  induction q as [|h q IH]; intros Hnd; rewrite ?follows_cons; [by intros ?%follows_nil|].
  apply NoDup_cons in Hnd as [Hh Hnd]. intros [[Ha H1]|H1] [[Ha' H2]|H2]; subst; [congruence| | |by auto].
  - by destruct Hh; apply follows_elem in H2 as [? ?].
  - by destruct Hh; apply follows_elem in H1 as [? ?].
Qed.

Lemma follows_not_head q a b : NoDup q → follows q a b → head q ≠ Some b.
Proof.
  destruct q as [|h q]; intros Hnd; rewrite ?follows_cons; [by intros ?%follows_nil|]. apply NoDup_cons in Hnd as [Hh _].
  intros [[-> H]|H] [= ->]; [by destruct Hh; apply head_elem|]. by destruct Hh; apply follows_elem in H as [? ?].
Qed.

Lemma follows_inj_l q a a' b : NoDup q → follows q a b → follows q a' b → a = a'.
Proof.
  induction q as [|h q IH]; intros Hnd; rewrite ?follows_cons; [by intros ?%follows_nil|].
  apply NoDup_cons in Hnd as [Hh Hnd]. intros [[Ha H1]|H1] [[Ha' H2]|H2]; subst; [done| | |by auto].
  - by destruct (follows_not_head _ _ _ Hnd H2).
  - by destruct (follows_not_head _ _ _ Hnd H1).
Qed.

Lemma follows_not_last q a b : NoDup q → follows q a b → last q ≠ Some a.
Proof.
  intros Hnd (q1 & q2 & ->). rewrite last_app, last_cons_cons. apply NoDup_app in Hnd as (_ & _ & Hnd).
  apply NoDup_cons in Hnd as [Ha _]. destruct (last (b :: q2)) eqn:E; [|by apply last_None in E].
  apply last_Some in E as [q' E]. intros [= ->]. destruct Ha. rewrite E. set_solver.
Qed.

Lemma follows_irrefl q a : NoDup q → ¬ follows q a a.
Proof.
  intros Hnd (q1 & q2 & ->). apply NoDup_app in Hnd as (_ & _ & Hnd). apply NoDup_cons in Hnd as [[] _]. by left.
Qed.

(** A member behind the head follows another. *)
Lemma head_not_last q a : head q = Some a → last q ≠ Some a → ∃ b, follows q a b.
Proof.
  destruct q as [|h [|b q]]; [done|cbn; congruence|]. intros [= ->] _. exists b. rewrite follows_cons. by left.
Qed.
End queues.
