(* ===== verification/Config.v ===== *)
(** Config: the compile-time configuration of [include/config.hpp].

    The plain constants are definitions; every macro the file guards with
    [#ifndef] (so a build can override it) is a field of the class [Config], and
    the side conditions its comments state are the class [ConfigOk]. The values
    the file itself gives are [default_config]. *)
From S2P Require Import Prelude.

Definition PAGE_SIZE : Z := 2 ^ 12.
Definition CACHE_LINE_SIZE : Z := 64.
Definition CACHE_LINE_SHIFT : Z := 6.
Definition CACHE_LINE_MASK : Z := CACHE_LINE_SIZE - 1.
Definition VIRTUAL_ADDRESS_BITS : Z := 48.
Definition CXL_HC_START : Z := 2 ^ (VIRTUAL_ADDRESS_BITS - 1).
Definition CXL_NHC_START : Z := Z.shiftl 3 (VIRTUAL_ADDRESS_BITS - 2).
Definition WBINVD_THRESHOLD : Z := Z.shiftl 2 18.

Class Config := {
  CL_EXPAND_SHIFT : Z;
  NODE_COUNT : nat;
  CONSUME_HELPING : bool;
  LOCATION_CLOCK_MERGE : bool;
  PROTOCOL_OFF : bool;
  NO_FLUSH : bool;
  EAGER_WRITEBACK : bool;
  EAGER_INVALIDATE : bool;
  LOCAL_CL_TABLE : bool;
  DELAY_PUBLISH : bool;
  LOCAL_CL_TABLE_BUFFER : bool;
  INLINE_CACHING : bool;
  LOCAL_CL_TABLE_SIZE : nat;
  LOCAL_CL_TABLE_SEARCH_ITERS : nat;
  LOG_ENTRY_TOTAL : nat;
  LOG_SIZE : nat;
}.

Section derived.
Context `{cfg : Config}.

Definition CL_EXPAND_FACTOR : Z := 2 ^ CL_EXPAND_SHIFT.
Definition VIRTUAL_CL_SIZE : Z := CACHE_LINE_SIZE * CL_EXPAND_FACTOR.
Definition VIRTUAL_CL_SHIFT : Z := CACHE_LINE_SHIFT + CL_EXPAND_SHIFT.
Definition VIRTUAL_CL_MASK : Z := VIRTUAL_CL_SIZE - 1.
Definition LOG_COUNT : nat := LOG_ENTRY_TOTAL `div` LOG_SIZE.
End derived.

(** What the comments of [config.hpp] ask of an overriding build. *)
Class ConfigOk (cfg : Config) : Prop := {
  expand_range : 0 ≤ CL_EXPAND_SHIFT ≤ 5;
  node_count_pos : (0 < NODE_COUNT)%nat;
  node_count_u32 : Z.of_nat NODE_COUNT < 2 ^ 31;
  table_size_pow2 :
    ∃ k : nat, (k ≤ 16)%nat ∧ Z.of_nat LOCAL_CL_TABLE_SIZE = 2 ^ Z.of_nat k;
  search_iters_pos : (0 < LOCAL_CL_TABLE_SEARCH_ITERS)%nat;
  search_iters_le : (LOCAL_CL_TABLE_SEARCH_ITERS ≤ LOCAL_CL_TABLE_SIZE)%nat;
  log_holds_table : (LOCAL_CL_TABLE_SIZE ≤ LOG_SIZE)%nat;
  log_count_pow2 :
    ∃ k : nat, (1 ≤ k ≤ 16)%nat ∧ Z.of_nat LOG_COUNT = 2 ^ Z.of_nat k;
}.

(** The options under which consumers invalidate what a log names: the default
    ones. *)
Class EagerBuild (cfg : Config) : Prop := {
  eb_flush : NO_FLUSH = false;
  eb_table : LOCAL_CL_TABLE = true;
  eb_eager : EAGER_INVALIDATE = true;
}.

(** The options under which a release publishes one log at once and writes back
    in that pass: the default ones. *)
Class DirectBuild (cfg : Config) : Prop := {
  db_delay : DELAY_PUBLISH = false;
  db_writeback : EAGER_WRITEBACK = false;
  db_buffer : LOCAL_CL_TABLE_BUFFER = false;
  db_protocol : PROTOCOL_OFF = false;
}.

(** The values of [config.hpp] when nothing is overridden. *)
Definition default_config : Config := {|
  CL_EXPAND_SHIFT := 0;
  NODE_COUNT := 8;
  CONSUME_HELPING := true;
  LOCATION_CLOCK_MERGE := false;
  PROTOCOL_OFF := false;
  NO_FLUSH := false;
  EAGER_WRITEBACK := false;
  EAGER_INVALIDATE := true;
  LOCAL_CL_TABLE := true;
  DELAY_PUBLISH := false;
  LOCAL_CL_TABLE_BUFFER := false;
  INLINE_CACHING := true;
  LOCAL_CL_TABLE_SIZE := 64;
  LOCAL_CL_TABLE_SEARCH_ITERS := 5;
  LOG_ENTRY_TOTAL := 64 * 64;
  LOG_SIZE := 64;
|}.

Lemma default_config_ok : ConfigOk default_config.
Proof.
  constructor; simpl; try lia.
  - exists 6%nat. split; [lia|done].
  - exists 6%nat. split; [lia|]. vm_compute. done.
Qed.
#[export] Existing Instance default_config_ok.

(** A small configuration, for examples that are evaluated: two nodes, two logs
    of two entries. *)
Definition small_config : Config := {|
  CL_EXPAND_SHIFT := 0;
  NODE_COUNT := 2;
  CONSUME_HELPING := true;
  LOCATION_CLOCK_MERGE := false;
  PROTOCOL_OFF := false;
  NO_FLUSH := false;
  EAGER_WRITEBACK := false;
  EAGER_INVALIDATE := true;
  LOCAL_CL_TABLE := true;
  DELAY_PUBLISH := false;
  LOCAL_CL_TABLE_BUFFER := false;
  INLINE_CACHING := true;
  LOCAL_CL_TABLE_SIZE := 2;
  LOCAL_CL_TABLE_SEARCH_ITERS := 2;
  LOG_ENTRY_TOTAL := 4;
  LOG_SIZE := 2;
|}.

Lemma small_config_ok : ConfigOk small_config.
Proof.
  constructor; simpl; try lia.
  - exists 1%nat. split; [lia|done].
  - exists 1%nat. split; [lia|]. vm_compute. done.
Qed.

Lemma default_eager : EagerBuild default_config.
Proof. by constructor. Qed.
Lemma default_direct : DirectBuild default_config.
Proof. by constructor. Qed.
Lemma small_eager : EagerBuild small_config.
Proof. by constructor. Qed.
Lemma small_direct : DirectBuild small_config.
Proof. by constructor. Qed.
