(* ===== verification/VectorClock.v ===== *)
(** VectorClock: [include/vectorClock.hpp].

    A clock is the array [vc] of [NODE_COUNT] 32-bit counters, a list here.
    [vc_leq] is the happens-before order the comparison operators decide; the
    class [LogicalClock] is what the thread and location clocks rely on. *)
From S2P Require Import Prelude Config.

Abbreviation vclock := (list Z).

(** ** The order a clock stands for, and the promise made to its clients *)

Definition vc_leq (a b : vclock) : Prop := Forall2 Z.le a b.

(** A type of timestamps with an order and a least upper bound. *)
Class LogicalClock (T : Type) (valid : T → Prop) (leq : T → T → Prop)
    (join : T → T → T) : Prop := {
  lc_order :: PartialOrder leq;
  lc_join_valid a b : valid a → valid b → valid (join a b);
  lc_join_l a b : valid a → valid b → leq a (join a b);
  lc_join_r a b : valid a → valid b → leq b (join a b);
  lc_join_least a b c : leq a c → leq b c → leq (join a b) c;
}.

Section vector_clock.
Context `{cfg : Config}.

(** The array invariant: [NODE_COUNT] entries, each an [unsigned]. *)
Definition vc_wf (v : vclock) : Prop := length v = NODE_COUNT ∧ Forall u32 v.

(** [clock_t vc[NODE_COUNT] = {}] *)
Definition vc_init : vclock := replicate NODE_COUNT 0.

(** [operator[]] *)
Definition vc_get (v : vclock) (i : nat) : Z := default 0 (v !! i).

Definition tick (index : nat) (v : vclock) : vclock :=
  if bool_decide (index < NODE_COUNT)%nat
  then <[index := add32 (vc_get v index) 1]> v else v.

(** [assign] writes without a bounds test; the callers pass a node id. *)
Definition assign (index : nat) (clk_val : Z) (v : vclock) : vclock :=
  <[index := clk_val]> v.

Definition merge (other v : vclock) : vclock :=
  zip_with (λ x y, if y <? x then x else y) v other.

(** The loop of [operator<], with its flag [strictly_less]. *)
Fixpoint vc_lt_loop (strictly_less : bool) (v other : vclock) : bool :=
  match v, other with
  | x :: v', y :: other' =>
      if y <? x then false
      else vc_lt_loop (if x <? y then true else strictly_less) v' other'
  | _, _ => strictly_less
  end.
Definition vc_lt (v other : vclock) : bool := vc_lt_loop false v other.

(** The loop of [operator<=]. *)
Fixpoint vc_le (v other : vclock) : bool :=
  match v, other with
  | x :: v', y :: other' => if y <? x then false else vc_le v' other'
  | _, _ => true
  end.

(** ** Facts *)

Implicit Types (u v w : vclock) (i : nat).

#[export] Instance vc_leq_partial_order : PartialOrder vc_leq.
Proof.
  unfold vc_leq. repeat split.
  - intros v. induction v; constructor; [lia|done].
  - intros u v w H. revert w. induction H; intros w Hw; inversion Hw; subst;
      constructor; [lia|naive_solver].
  - intros u v H. induction H; intros H'; inversion H'; subst; [done|].
    f_equal; [lia|naive_solver].
Qed.

Lemma vc_leq_get u v i : vc_leq u v → vc_get u i ≤ vc_get v i.
Proof.
  intros H. unfold vc_get.
  destruct (u !! i) as [x|] eqn:Hu.
  - by destruct (Forall2_lookup_l _ _ _ _ _ H Hu) as (y & -> & ?).
  - apply lookup_ge_None in Hu. rewrite (Forall2_length _ _ _ H) in Hu.
    apply lookup_ge_None in Hu. by rewrite Hu.
Qed.

Lemma vc_leq_alt u v :
  length u = length v → (∀ i, vc_get u i ≤ vc_get v i) → vc_leq u v.
Proof.
  intros Hlen H. apply Forall2_same_length_lookup_2; [done|].
  intros i x y Hx Hy. specialize (H i). unfold vc_get in H.
  by rewrite Hx, Hy in H.
Qed.

Lemma vc_le_leq u v : length u = length v → vc_le u v = true ↔ vc_leq u v.
Proof.
  revert v. induction u as [|x u IH]; intros [|y v] Hlen; simplify_eq/=.
  - split; [intros _; constructor|done].
  - destruct (Z.ltb_spec y x).
    + split; [done|]. intros H'. inversion H'; lia.
    + rewrite IH by done. clear IH. unfold vc_leq. rewrite Forall2_cons. naive_solver.
Qed.

Lemma vc_lt_loop_spec s u v :
  length u = length v →
  vc_lt_loop s u v = true ↔ vc_leq u v ∧ (s = true ∨ u ≠ v).
Proof.
  revert s v. induction u as [|x u IH]; intros s [|y v] Hlen; simplify_eq/=.
  - split; [intros ->; split; [constructor|by left]|naive_solver].
  - unfold vc_leq. rewrite Forall2_cons. destruct (Z.ltb_spec y x).
    + split; [done|]. lia.
    + rewrite IH by done. clear IH. unfold vc_leq. destruct (Z.ltb_spec x y).
      * split; [|naive_solver]. intros [? _]. split; [split; [lia|done]|].
        right. intros [=]. lia.
      * assert (x = y) as -> by lia. split.
        { intros [? [?|Hne]]; (split; [split; [lia|done]|]); [by left|].
          right. congruence. }
        intros [[??] [?|Hne]]; (split; [done|]); [by left|].
        right. by intros ->.
Qed.

Lemma length_merge u v : length u = length v → length (merge u v) = length v.
Proof. intros. unfold merge. rewrite length_zip_with. lia. Qed.

Lemma vc_get_merge u v i :
  length u = length v → vc_get (merge u v) i = Z.max (vc_get u i) (vc_get v i).
Proof.
  intros Hlen. unfold vc_get, merge. rewrite lookup_zip_with.
  destruct (v !! i) as [y|] eqn:Hv.
  - assert (is_Some (u !! i)) as [x ->].
    { apply lookup_lt_is_Some. rewrite Hlen. by eapply lookup_lt_Some. }
    simpl. destruct (Z.ltb_spec x y); lia.
  - apply lookup_ge_None in Hv. rewrite <- Hlen in Hv.
    apply lookup_ge_None in Hv. by rewrite Hv.
Qed.

Lemma vc_wf_init : vc_wf vc_init.
Proof.
  split; [apply length_replicate|]. apply Forall_replicate. split; [lia|done].
Qed.

Lemma vc_wf_assign i x v : vc_wf v → u32 x → vc_wf (assign i x v).
Proof.
  intros [??] ?. split; [unfold assign; by rewrite length_insert|].
  by apply Forall_insert.
Qed.

Lemma vc_wf_merge u v : vc_wf u → vc_wf v → vc_wf (merge u v).
Proof.
  intros [Hu Fu] [Hv Fv].
  assert (length u = length v) as Hlen by congruence.
  split; [by rewrite length_merge|].
  apply Forall_lookup. intros i z. unfold merge. rewrite lookup_zip_with_Some.
  intros (x & y & -> & Hx & Hy). rewrite Forall_lookup in Fu, Fv.
  case_match; eauto.
Qed.

Lemma vc_get_assign i j x v :
  vc_wf v → (i < NODE_COUNT)%nat →
  vc_get (assign i x v) j = if decide (i = j) then x else vc_get v j.
Proof.
  intros [Hlen _] Hi. unfold vc_get, assign. case_decide; subst.
  - by rewrite list_lookup_insert_eq by by rewrite Hlen.
  - by rewrite list_lookup_insert_ne.
Qed.

Lemma vc_get_init i : vc_get vc_init i = 0.
Proof.
  unfold vc_get, vc_init.
  destruct (replicate _ _ !! i) as [x|] eqn:H; [|done].
  apply lookup_replicate in H as [-> _]. done.
Qed.

Lemma vc_get_u32 v i : vc_wf v → u32 (vc_get v i).
Proof.
  intros [_ F]. unfold vc_get.
  destruct (v !! i) as [x|] eqn:H; [|by apply in_word_0].
  by eapply Forall_lookup_1 in F.
Qed.

#[export] Instance vector_clock_logical :
  LogicalClock vclock vc_wf vc_leq merge.
Proof.
  constructor.
  - apply _.
  - intros. by apply vc_wf_merge.
  - intros a b [Ha _] [Hb _].
    apply vc_leq_alt; [rewrite length_merge; congruence|].
    intros i. rewrite vc_get_merge by congruence. lia.
  - intros a b [Ha _] [Hb _].
    apply vc_leq_alt; [rewrite length_merge; congruence|].
    intros i. rewrite vc_get_merge by congruence. lia.
  - intros a b c Hac Hbc.
    pose proof (Forall2_length _ _ _ Hac). pose proof (Forall2_length _ _ _ Hbc).
    apply vc_leq_alt; [rewrite length_merge; congruence|].
    intros i. rewrite vc_get_merge by congruence.
    pose proof (vc_leq_get _ _ i Hac). pose proof (vc_leq_get _ _ i Hbc). lia.
Qed.
End vector_clock.

#[export] Hint Resolve vc_wf_init vc_wf_assign vc_wf_merge vc_get_u32 : words.

(** ** Properties *)

(** [merge] computes the least upper bound of two clocks in the order that
    [operator<=] decides: the result is a clock, both arguments are at or below
    it, and it is at or below every common upper bound. *)
Theorem merge_least_upper_bound `{cfg : Config} (u v : vclock) :
  vc_wf u → vc_wf v →
  vc_wf (merge u v) ∧
  vc_le u (merge u v) = true ∧ vc_le v (merge u v) = true ∧
  (∀ w, vc_wf w → vc_le u w = true → vc_le v w = true → vc_le (merge u v) w = true).
Proof.
  intros Hu Hv.
  pose proof (lc_join_valid u v Hu Hv) as Hm.
  pose proof (lc_join_l u v Hu Hv). pose proof (lc_join_r u v Hu Hv).
  destruct Hu as [Lu _], Hv as [Lv _].
  pose proof (proj1 Hm) as Lm.
  split_and!; [done|apply vc_le_leq; [congruence|done]..|].
  intros w [Lw _]. rewrite !vc_le_leq by congruence.
  apply lc_join_least.
Qed.

Lemma merge_least_upper_bound_witness :
  let u := [3; 0; 0; 7; 0; 0; 0; 1] in
  let v := [1; 2; 0; 9; 0; 0; 0; 0] in
  let cfg := default_config in
  merge u v = [3; 2; 0; 9; 0; 0; 0; 1] ∧ vc_le u (merge u v) = true.
Proof.
  intros u v cfg. split; [reflexivity|].
  apply (merge_least_upper_bound (cfg := cfg) u v);
    (split; [reflexivity|apply (bool_decide_unpack _); vm_compute; exact I]).
Defined.

(** [operator<] is the strict part of [operator<=]: on clocks it holds
    exactly when [<=] holds and the clocks differ, so it is irreflexive and
    transitive and two clocks below each other are equal. *)
Theorem operator_lt_strict_part `{cfg : Config} (u v : vclock) :
  vc_wf u → vc_wf v →
  (vc_lt u v = true ↔ vc_le u v = true ∧ u ≠ v) ∧
  (vc_le u v = true → vc_le v u = true → u = v).
Proof.
  intros [Lu _] [Lv _]. unfold vc_lt.
  rewrite vc_lt_loop_spec, !vc_le_leq by congruence. split; [naive_solver|].
  intros. by apply (anti_symm vc_leq).
Qed.

Lemma operator_lt_strict_part_witness :
  let cfg := default_config in
  let u := [1; 2; 0; 9; 0; 0; 0; 0] in
  let v := [1; 2; 1; 9; 0; 0; 0; 0] in
  vc_lt u v = true ∧ vc_lt u u = false ∧ u ≠ v.
Proof.
  intros cfg u v. split; [reflexivity|]. split; [reflexivity|].
  apply (operator_lt_strict_part (cfg := cfg) u v);
    try (split; [reflexivity|apply (bool_decide_unpack _); vm_compute; exact I]).
  reflexivity.
Defined.
