(* ===== verification/ClGroup.v ===== *)
(** ClGroup: [include/clGroup.hpp], the packed representation of a group of
    cache lines.

    A [cl_group_t] is a 64-bit word: a length-based one (top bit set) stands for
    a run of 16-line groups, a mask-based one for the lines of a 16-bit mask
    inside one group. [covers] is the set of line numbers a word stands for;
    the range classes are iterated as the range-for loops do. *)
From S2P Require Import Prelude Config.
#[local] Open Scope word_scope.

(** ** Definitions *)

Section cl_group.
Context `{cfg : Config}.

Definition TYPE_MASK : Z := 1 <<w 63.
Definition GROUP_SIZE_SHIFT : Z := 4.
Definition GROUP_SIZE : Z := 1 <<w GROUP_SIZE_SHIFT.
Definition FULL_MASK : Z := (1 <<w GROUP_SIZE) -w 1.
Definition GROUP_SHIFT : Z := VIRTUAL_CL_SHIFT + GROUP_SIZE_SHIFT.
Definition GROUP_MASK : Z := (1 <<w GROUP_SHIFT) -w 1.
Definition GROUP_INDEX_SHIFT : Z := VIRTUAL_ADDRESS_BITS - GROUP_SHIFT.
Definition GROUP_INDEX_MASK : Z := (1 <<w GROUP_INDEX_SHIFT) -w 1.
Definition GROUP_SIZE_MASK : Z := GROUP_SIZE -w 1.
Definition GROUP_LEN_MAX : Z := (1 <<w (63 - GROUP_INDEX_SHIFT)) -w 1.

Definition is_length_based (cg : Z) : bool := negb (cg &w TYPE_MASK =? 0).
Definition get_length (cg : Z) : Z := (cg &w not64 TYPE_MASK) >>w GROUP_INDEX_SHIFT.
Definition get_index (cg : Z) : Z := cg &w GROUP_INDEX_MASK.
Definition get_ptr (cg : Z) : Z := (cg &w GROUP_INDEX_MASK) <<w GROUP_SHIFT.
Definition get_mask16 (cg : Z) : Z := cg >>w GROUP_INDEX_SHIFT.

(** [uint8_t diff = cg & 2; return GROUP_SIZE_SHIFT * diff;] *)
Definition get_mask16_to_64_shift (cg : Z) : Z := GROUP_SIZE_SHIFT * (cg &w 2).

Definition try_coalesce (index1 index2 len1 len2 : Z) : Z :=
  let end1 := index1 +w len1 in
  let end2 := index2 +w len2 in
  if (index2 <? end1) || (index1 <? end2) then
    let new_index := if index2 <? index1 then index1 else index2 in
    let new_len := (if end2 <? end1 then end1 else end2) -w new_index in
    (new_index |w (new_len <<w GROUP_INDEX_SHIFT)) |w TYPE_MASK
  else 0.

(** The two word formats, as [insert_length] and [insert_mask] build them. *)
Definition length_entry (index length : Z) : Z :=
  (index |w (length <<w GROUP_INDEX_SHIFT)) |w TYPE_MASK.
Definition mask_entry (index mask : Z) : Z := index |w (mask <<w GROUP_INDEX_SHIFT).

(** [LengthCLRange::iterator] *)
Record length_iter := LengthIter { li_ptr : Z; li_length : Z }.
Definition length_iter_deref (it : length_iter) : Z :=
  li_ptr it +w (li_length it <<w GROUP_SHIFT).
Definition length_iter_next (it : length_iter) : length_iter :=
  LengthIter (li_ptr it) (li_length it +w 1).
Definition length_iter_ne (it other : length_iter) : bool :=
  negb (li_ptr it =? li_ptr other) || negb (li_length it =? li_length other).

(** [__builtin_ctzl], defined on non-zero words: the lowest set bit. *)
Fixpoint pos_ctz (p : positive) : Z :=
  match p with xO q => 1 + pos_ctz q | _ => 0 end.
Definition ctz (m : Z) : Z := match m with Zpos p => pos_ctz p | _ => 0 end.

(** [MaskCLRange::iterator] *)
Record mask_iter := MaskIter { mi_ptr : Z; mi_mask : Z }.
Definition mask_iter_deref (it : mask_iter) : Z :=
  mi_ptr it +w (ctz (mi_mask it) <<w VIRTUAL_CL_SHIFT).
Definition mask_iter_next (it : mask_iter) : mask_iter :=
  let m := mi_mask it &w neg64 (mi_mask it) in
  MaskIter (mi_ptr it) (Z.lxor (mi_mask it) m).
Definition mask_iter_ne (it other : mask_iter) : bool :=
  negb (mi_ptr it =? mi_ptr other) || negb (mi_mask it =? mi_mask other).

(** A range-for loop: the dereferenced values, in order; [None] when the end
    is not reached within the fuel. *)
Fixpoint range_for {I} (ne : I → I → bool) (deref : I → Z) (next : I → I)
    (fuel : nat) (it stop : I) : option (list Z) :=
  if ne it stop then
    match fuel with
    | O => None
    | S fuel' => cons (deref it) <$> range_for ne deref next fuel' (next it) stop
    end
  else Some [].

(** [for (auto a : LengthCLRange(cg))] *)
Definition length_cl_range (cg : Z) : option (list Z) :=
  range_for length_iter_ne length_iter_deref length_iter_next
    (Z.to_nat (get_length cg)) (LengthIter (get_ptr cg) 0)
    (LengthIter (get_ptr cg) (get_length cg)).

(** [for (auto a : MaskCLRange(ptr, mask))] *)
Definition mask_cl_range (ptr mask : Z) : option (list Z) :=
  range_for mask_iter_ne mask_iter_deref mask_iter_next 64
    (MaskIter ptr mask) (MaskIter ptr 0).

(** [process_cl_group]: the calls of [f], in order. *)
Definition process_cl_group (cg : Z) : option (list (Z * Z)) :=
  if is_length_based cg
  then map (λ a, (a, FULL_MASK)) <$> length_cl_range cg
  else Some [(get_ptr cg, get_mask16 cg)].

(** The line numbers (in units of [VIRTUAL_CL_SIZE]) a word stands for. *)
Definition covers (cg l : Z) : bool :=
  if is_length_based cg
  then (get_index cg <=? l / GROUP_SIZE) && (l / GROUP_SIZE <? get_index cg + get_length cg)
  else (l / GROUP_SIZE =? get_index cg) && Z.testbit (get_mask16 cg) (l mod GROUP_SIZE).

(** A well-formed non-empty word of either format. *)
Definition length_wf (cg : Z) : Prop :=
  ∃ idx len, cg = length_entry idx len ∧
    in_word GROUP_INDEX_SHIFT idx ∧ 0 < len ≤ GROUP_LEN_MAX.
Definition mask_wf (cg : Z) : Prop :=
  ∃ idx mask, cg = mask_entry idx mask ∧
    in_word GROUP_INDEX_SHIFT idx ∧ in_word 16 mask ∧ mask ≠ 0.
End cl_group.

(** ** Lemmas: constants and the two formats *)

Section facts.
Context `{cfg : Config} {ok : ConfigOk cfg}.
Implicit Types (cg idx len mask l : Z).

Lemma group_index_shift_range : 33 ≤ GROUP_INDEX_SHIFT ≤ 38.
Proof.
  pose proof expand_range. unfold GROUP_INDEX_SHIFT, GROUP_SHIFT, VIRTUAL_CL_SHIFT.
  unfold VIRTUAL_ADDRESS_BITS, CACHE_LINE_SHIFT, GROUP_SIZE_SHIFT. lia.
Qed.

Lemma one_shl64 n : 0 ≤ n < 64 → 1 <<w n = 2 ^ n.
Proof.
  intros. unfold shl64. rewrite Z.shiftl_1_l. apply wrap_small. split; [lia|].
  apply Z.pow_lt_mono_r; lia.
Qed.

Lemma low_mask_ones n : 0 ≤ n < 64 → (1 <<w n) -w 1 = Z.ones n.
Proof.
  intros. rewrite one_shl64 by done. unfold sub64.
  pose proof (pow2_pos n). pose proof (Z.pow_lt_mono_r 2 n 64).
  rewrite wrap_small by (split; lia). rewrite Z.ones_equiv. lia.
Qed.

Lemma TYPE_MASK_eq : TYPE_MASK = 2 ^ 63.
Proof. done. Qed.
Lemma GROUP_SIZE_eq : GROUP_SIZE = 16.
Proof. done. Qed.
Lemma FULL_MASK_eq : FULL_MASK = Z.ones 16.
Proof. done. Qed.
Lemma GROUP_INDEX_MASK_eq : GROUP_INDEX_MASK = Z.ones GROUP_INDEX_SHIFT.
Proof. pose proof group_index_shift_range. apply low_mask_ones. lia. Qed.
Lemma GROUP_LEN_MAX_eq : GROUP_LEN_MAX = Z.ones (63 - GROUP_INDEX_SHIFT).
Proof. pose proof group_index_shift_range. apply low_mask_ones. lia. Qed.

Lemma len_max_word len : 0 ≤ len ≤ GROUP_LEN_MAX → in_word (63 - GROUP_INDEX_SHIFT) len.
Proof. rewrite GROUP_LEN_MAX_eq, Z.ones_equiv. split; lia. Qed.

Lemma shl64_fits a n w :
  0 ≤ n → in_word w a → w + n ≤ 64 → a <<w n = Z.shiftl a n.
Proof.
  intros Hn [H0 H1] Hw. unfold shl64. apply wrap_small.
  rewrite Z.shiftl_mul_pow2 by done. pose proof (pow2_pos n Hn). split; [nia|].
  destruct (Z.le_gt_cases 0 w); [|rewrite Z.pow_neg_r in H1 by lia; lia].
  apply Z.lt_le_trans with (2 ^ w * 2 ^ n); [nia|].
  rewrite <- Z.pow_add_r by lia. apply Z.pow_le_mono_r; lia.
Qed.

Lemma length_entry_bits idx len i :
  in_word GROUP_INDEX_SHIFT idx → 0 ≤ len ≤ GROUP_LEN_MAX → 0 ≤ i →
  Z.testbit (length_entry idx len) i =
    (Z.testbit idx i || Z.testbit len (i - GROUP_INDEX_SHIFT)) || (63 =? i).
Proof.
  intros Hidx Hlen Hi. pose proof group_index_shift_range.
  apply len_max_word in Hlen. unfold length_entry.
  rewrite (shl64_fits _ _ (63 - GROUP_INDEX_SHIFT)), TYPE_MASK_eq by (done || lia).
  by autorewrite with bits.
Qed.

Lemma mask_entry_bits idx mask i :
  in_word GROUP_INDEX_SHIFT idx → in_word 16 mask → 0 ≤ i →
  Z.testbit (mask_entry idx mask) i =
    Z.testbit idx i || Z.testbit mask (i - GROUP_INDEX_SHIFT).
Proof.
  intros Hidx Hm Hi. pose proof group_index_shift_range. unfold mask_entry.
  rewrite (shl64_fits _ _ 16) by (done || lia). by autorewrite with bits.
Qed.

Lemma is_length_based_bit cg : is_length_based cg = Z.testbit cg 63.
Proof.
  unfold is_length_based. rewrite TYPE_MASK_eq. destruct (Z.testbit cg 63) eqn:E.
  - apply negb_true_iff, Z.eqb_neq. intros H.
    apply (f_equal (λ z, Z.testbit z 63)) in H.
    rewrite Z.land_spec, E, Z.bits_0 in H. done.
  - apply negb_false_iff, Z.eqb_eq. bit_blast. subst. by rewrite E.
Qed.

Lemma length_entry_fields idx len :
  in_word GROUP_INDEX_SHIFT idx → 0 ≤ len ≤ GROUP_LEN_MAX →
  is_length_based (length_entry idx len) = true ∧
  get_index (length_entry idx len) = idx ∧
  get_length (length_entry idx len) = len.
Proof.
  intros Hidx Hlen. pose proof group_index_shift_range.
  pose proof (len_max_word _ Hlen) as Hw. split_and!.
  - rewrite is_length_based_bit, length_entry_bits by (done || lia). by rewrite orb_true_r.
  - unfold get_index. rewrite GROUP_INDEX_MASK_eq. bit_blast.
    + rewrite length_entry_bits by done.
      rewrite (Z.testbit_neg_r len) by lia.
      destruct (Z.eqb_spec 63 i); [lia|]. by rewrite !orb_false_r.
    + by rewrite (testbit_high _ idx) by (done || lia).
  - unfold get_length, shr64, not64. rewrite TYPE_MASK_eq.
    bit_blast; try by rewrite (testbit_high _ len) by (done || lia).
    rewrite length_entry_bits by (done || lia).
    rewrite (testbit_high _ idx) by (done || lia).
    destruct (Z.eqb_spec 63 (i + GROUP_INDEX_SHIFT)); [lia|].
    rewrite orb_false_r, orb_false_l. f_equal. lia.
Qed.

Lemma mask_entry_fields idx mask :
  in_word GROUP_INDEX_SHIFT idx → in_word 16 mask →
  is_length_based (mask_entry idx mask) = false ∧
  get_index (mask_entry idx mask) = idx ∧
  get_mask16 (mask_entry idx mask) = mask.
Proof.
  intros Hidx Hm. pose proof group_index_shift_range. split_and!.
  - rewrite is_length_based_bit, mask_entry_bits by (done || lia).
    rewrite (testbit_high _ idx), (testbit_high _ mask) by (done || lia). done.
  - unfold get_index. rewrite GROUP_INDEX_MASK_eq. bit_blast.
    + rewrite mask_entry_bits by done. rewrite (Z.testbit_neg_r mask) by lia.
      by rewrite orb_false_r.
    + by rewrite (testbit_high _ idx) by (done || lia).
  - unfold get_mask16, shr64. bit_blast. rewrite mask_entry_bits by (done || lia).
    rewrite (testbit_high _ idx) by (done || lia). rewrite orb_false_l. f_equal. lia.
Qed.
End facts.

(** ** Lemmas: the lowest set bit and the two loops *)

(** The positions of the set bits of a 64-bit word, in ascending order. *)
Definition set_bits (m : Z) : list Z := filter (λ i, Z.testbit m i) (seqZ 0 64).

Lemma elem_of_set_bits m i : u64 m → i ∈ set_bits m ↔ Z.testbit m i = true.
Proof.
  intros Hm. unfold set_bits. rewrite list_elem_of_filter, elem_of_seqZ, Is_true_true.
  split; [naive_solver|]. intros H. split; [done|].
  destruct (Z.lt_ge_cases i 0); [by rewrite Z.testbit_neg_r in H|].
  destruct (Z.lt_ge_cases i 64); [lia|]. by rewrite (testbit_high 64) in H.
Qed.

Lemma ctz_factor m : 0 < m → ∃ q, 0 ≤ q ∧ 0 ≤ ctz m ∧ m = (2 * q + 1) * 2 ^ ctz m.
Proof.
  destruct m as [|p|]; try lia. intros _. cbn [ctz].
  induction p as [p _|p IH|]; cbn [pos_ctz].
  - exists (Zpos p). lia.
  - destruct IH as (q & Hq & Hc & IH). exists q. split_and!; [lia..|].
    rewrite Z.pow_add_r by lia. rewrite (Pos2Z.inj_xO p), IH at 1. lia.
  - exists 0. lia.
Qed.

Lemma ctz_bits m i :
  0 < m → 0 ≤ i → i ≤ ctz m → Z.testbit m i = (i =? ctz m).
Proof.
  intros Hm Hi Hle. destruct (ctz_factor m Hm) as (q & Hq & Hc & Heq).
  rewrite Heq at 1. rewrite Z.mul_pow2_bits by done.
  destruct (Z.eqb_spec i (ctz m)) as [->|].
  - rewrite Z.sub_diag. apply Z.testbit_odd_0.
  - apply Z.testbit_neg_r. lia.
Qed.

Lemma ctz_lt_64 m : u64 m → m ≠ 0 → 0 ≤ ctz m < 64.
Proof.
  intros Hm Hne. assert (0 < m) as Hpos by (destruct Hm; lia).
  destruct (ctz_factor m Hpos) as (q & _ & Hc & _). split; [done|].
  destruct (Z.lt_ge_cases (ctz m) 64); [done|].
  assert (Z.testbit m (ctz m) = false) as Hf by by apply (testbit_high 64).
  by rewrite (ctz_bits m), Z.eqb_refl in Hf by lia.
Qed.

(** The bits of [m - 1]: below the lowest set bit of [m] they are set. *)
Lemma pred_bits m i :
  0 < m → 0 ≤ i →
  Z.testbit (m - 1) i =
    if i <? ctz m then true else if i =? ctz m then false else Z.testbit m i.
Proof.
  intros Hm Hi. destruct (ctz_factor m Hm) as (q & Hq & Hc & Heq).
  assert (m - 1 = Z.lor (Z.ones (ctz m)) (Z.shiftl q (ctz m + 1))) as ->.
  { rewrite lor_disjoint_add.
    - rewrite Z.shiftl_mul_pow2, Z.pow_add_r, Z.ones_equiv by lia.
      rewrite Heq at 1. lia.
    - apply (land_low_shiftl (ctz m + 1)); [lia|].
      rewrite Z.ones_equiv. pose proof (Z.pow_lt_mono_r 2 (ctz m) (ctz m + 1)).
      pose proof (pow2_pos (ctz m)). split; lia. }
  autorewrite with bits.
  destruct (Z.ltb_spec i (ctz m)), (Z.eqb_spec i (ctz m)); cbn [orb]; try done; try lia.
  - apply Z.testbit_neg_r. lia.
  - rewrite Heq at 2. rewrite Z.mul_pow2_bits by done.
    rewrite <- (Z.succ_pred (i - ctz m)), Z.testbit_odd_succ by lia. f_equal. lia.
Qed.

(** [m & -m] isolates the lowest set bit. *)
Lemma lowest_bit m : u64 m → m ≠ 0 → m &w neg64 m = 2 ^ ctz m.
Proof.
  intros Hm Hne. assert (0 < m) as Hpos by (destruct Hm; lia).
  pose proof (ctz_lt_64 m Hm Hne) as Hc.
  unfold neg64. apply Z.bits_inj'. intros i Hi. autorewrite with bits.
  rewrite Z.bits_opp, <- Z.sub_1_r, pred_bits by done. rewrite (Z.eqb_sym (ctz m)).
  destruct (Z.ltb_spec i (ctz m)), (Z.eqb_spec i (ctz m)) as [Heq|]; try lia.
  - subst i. rewrite (ctz_bits m), Z.eqb_refl by lia. by destruct (Z.ltb_spec (ctz m) 64); [|lia].
  - destruct (Z.testbit m i); [by rewrite andb_false_r|done].
Qed.

Lemma clear_lowest_bit m i :
  u64 m → m ≠ 0 → 0 ≤ i →
  Z.testbit (Z.lxor m (m &w neg64 m)) i = Z.testbit m i && negb (i =? ctz m).
Proof.
  intros Hm Hne Hi. pose proof (ctz_lt_64 m Hm Hne).
  rewrite lowest_bit by done. autorewrite with bits. rewrite (Z.eqb_sym i).
  destruct (Z.eqb_spec (ctz m) i) as [<-|].
  - rewrite (ctz_bits m), Z.eqb_refl by (destruct Hm; lia). done.
  - by rewrite xorb_false_r, andb_true_r.
Qed.

(** [m & (m - 1)] clears the lowest set bit, like [m ^ (m & -m)]. *)
Lemma clear_lowest_bit_alt m :
  u64 m → m ≠ 0 → m &w (m -w 1) = Z.lxor m (m &w neg64 m).
Proof.
  intros Hm Hne. assert (0 < m) as Hpos by (destruct Hm; lia).
  apply Z.bits_inj'. intros i Hi. rewrite clear_lowest_bit, Z.land_spec by done.
  unfold sub64. rewrite wrap_small by (destruct Hm; split; lia). rewrite pred_bits by done.
  destruct (Z.ltb_spec i (ctz m)), (Z.eqb_spec i (ctz m)); cbn [negb]; try lia.
  all: by destruct (Z.testbit m i).
Qed.

Lemma clear_lowest_bit_u64 m : u64 m → m ≠ 0 → u64 (Z.lxor m (m &w neg64 m)).
Proof.
  intros Hm Hne. apply in_word_bits; [done|..].
  - apply Z.lxor_nonneg. rewrite Z.land_nonneg. destruct Hm. naive_solver lia.
  - intros i Hi. rewrite clear_lowest_bit by (done || lia).
    by rewrite (testbit_high 64 m).
Qed.

Lemma set_bits_step m :
  u64 m → m ≠ 0 → set_bits m = ctz m :: set_bits (Z.lxor m (m &w neg64 m)).
Proof.
  intros Hm Hne. pose proof (ctz_lt_64 m Hm Hne) as Hc. unfold set_bits.
  assert (seqZ 0 64 = seqZ 0 (ctz m) ++ ctz m :: seqZ (ctz m + 1) (63 - ctz m)) as ->.
  { replace 64 with (ctz m + (64 - ctz m)) by lia. rewrite seqZ_app by lia. f_equal.
    rewrite seqZ_cons, Z.add_0_l by lia. f_equal. f_equal; lia. }
  assert (Z.testbit m (ctz m) = true) as Hset.
  { rewrite ctz_bits, Z.eqb_refl by (destruct Hm; lia). done. }
  rewrite !filter_app, !filter_cons.
  rewrite decide_True by by rewrite Is_true_true.
  rewrite decide_False.
  2: { rewrite clear_lowest_bit, Z.eqb_refl, andb_false_r by (done || lia). by intros []. }
  assert (∀ x, x ∈ seqZ 0 (ctz m) → 0 ≤ x < ctz m) as Hlow
    by (intros x Hx; apply elem_of_seqZ in Hx; lia).
  rewrite 2!(filter_none _ (seqZ 0 (ctz m))); [apply (f_equal (cons (ctz m)))|..].
  - apply filter_ext_in. intros x Hx. apply elem_of_seqZ in Hx.
    rewrite clear_lowest_bit by (done || lia).
    destruct (Z.eqb_spec x (ctz m)); [lia|]. by rewrite andb_true_r.
  - intros x Hx. apply Hlow in Hx.
    rewrite clear_lowest_bit, (ctz_bits m) by (destruct Hm; done || lia).
    destruct (Z.eqb_spec x (ctz m)); [lia|]. by intros [].
  - intros x Hx. apply Hlow in Hx. rewrite (ctz_bits m) by (destruct Hm; lia).
    destruct (Z.eqb_spec x (ctz m)); [lia|]. by intros [].
Qed.

Section ranges.
Context `{cfg : Config} {ok : ConfigOk cfg}.
Implicit Types (cg idx len mask ptr l : Z).

Lemma mask_range_loop ptr fuel mask :
  u64 mask → (length (set_bits mask) ≤ fuel)%nat →
  range_for mask_iter_ne mask_iter_deref mask_iter_next fuel
    (MaskIter ptr mask) (MaskIter ptr 0) =
  Some (map (λ p, ptr +w (p <<w VIRTUAL_CL_SHIFT)) (set_bits mask)).
Proof.
  revert mask. induction fuel as [|fuel IH]; intros mask Hm Hlen;
    (destruct (Z.eqb_spec mask 0) as [->|Hne];
     [by cbn [range_for]; unfold mask_iter_ne; cbn; rewrite Z.eqb_refl|]).
  - rewrite set_bits_step in Hlen by done. simpl in Hlen. lia.
  - rewrite (set_bits_step mask) in * by done. cbn [range_for].
    unfold mask_iter_ne at 1. cbn [mi_ptr mi_mask].
    rewrite Z.eqb_refl, (proj2 (Z.eqb_neq _ _) Hne). cbn [negb orb].
    unfold mask_iter_next at 2. cbn [mi_ptr mi_mask].
    rewrite IH; [done|by apply clear_lowest_bit_u64|simpl in Hlen; lia].
Qed.

Lemma length_set_bits mask : (length (set_bits mask) ≤ 64)%nat.
Proof.
  unfold set_bits. etrans; [apply length_filter|]. by rewrite length_seqZ.
Qed.

Lemma mask_cl_range_spec ptr mask :
  u64 mask →
  mask_cl_range ptr mask =
    Some (map (λ p, ptr +w (p <<w VIRTUAL_CL_SHIFT)) (set_bits mask)).
Proof. intros. apply mask_range_loop; [done|apply length_set_bits]. Qed.

Lemma length_range_loop ptr fuel k n :
  0 ≤ k → 0 ≤ n → k + n < 2 ^ 64 → (Z.to_nat n ≤ fuel)%nat →
  range_for length_iter_ne length_iter_deref length_iter_next fuel
    (LengthIter ptr k) (LengthIter ptr (k + n)) =
  Some (map (λ j, ptr +w (j <<w GROUP_SHIFT)) (seqZ k n)).
Proof.
  revert k n. induction fuel as [|fuel IH]; intros k n Hk Hn Hmax Hfuel;
    (destruct (Z.eqb_spec n 0) as [->|Hne];
     [rewrite Z.add_0_r; cbn [range_for]; unfold length_iter_ne; cbn;
      by rewrite !Z.eqb_refl|]); [lia|].
  cbn [range_for]. unfold length_iter_ne at 1. cbn [li_ptr li_length].
  rewrite Z.eqb_refl, (proj2 (Z.eqb_neq k (k + n))) by lia. cbn [negb orb].
  unfold length_iter_next at 2. cbn [li_ptr li_length].
  assert (k +w 1 = k + 1) as -> by (apply wrap_small; split; lia).
  replace (k + n) with (k + 1 + (n - 1)) by lia. rewrite IH by lia.
  rewrite (seqZ_cons k n), Z.add_1_r by lia. simpl.
  by replace (n - 1) with (Z.pred n) by lia.
Qed.

Lemma length_cl_range_spec cg :
  0 ≤ get_length cg < 2 ^ 64 →
  length_cl_range cg =
    Some (map (λ j, get_ptr cg +w (j <<w GROUP_SHIFT)) (seqZ 0 (get_length cg))).
Proof. intros. unfold length_cl_range. by apply (length_range_loop _ _ 0); lia. Qed.

Lemma group_bytes : 2 ^ GROUP_SHIFT = 2 ^ GROUP_SIZE_SHIFT * VIRTUAL_CL_SIZE.
Proof.
  pose proof expand_range.
  unfold GROUP_SHIFT, VIRTUAL_CL_SHIFT, VIRTUAL_CL_SIZE, CL_EXPAND_FACTOR,
    CACHE_LINE_SHIFT, GROUP_SIZE_SHIFT, CACHE_LINE_SIZE.
  rewrite !Z.pow_add_r by lia. lia.
Qed.

Lemma virtual_cl_size_eq : VIRTUAL_CL_SIZE = 2 ^ VIRTUAL_CL_SHIFT.
Proof.
  pose proof expand_range.
  unfold VIRTUAL_CL_SHIFT, VIRTUAL_CL_SIZE, CL_EXPAND_FACTOR, CACHE_LINE_SHIFT,
    CACHE_LINE_SIZE. rewrite Z.pow_add_r by lia. lia.
Qed.

Lemma virtual_cl_size_range : 64 ≤ VIRTUAL_CL_SIZE ≤ 2048.
Proof.
  pose proof expand_range. unfold VIRTUAL_CL_SIZE, CL_EXPAND_FACTOR, CACHE_LINE_SIZE.
  pose proof (Z.pow_le_mono_r 2 0 CL_EXPAND_SHIFT).
  pose proof (Z.pow_le_mono_r 2 CL_EXPAND_SHIFT 5). lia.
Qed.

Lemma index_bytes idx :
  in_word GROUP_INDEX_SHIFT idx → 0 ≤ idx * 2 ^ GROUP_SHIFT < 2 ^ 48.
Proof.
  intros [H0 H1]. pose proof group_index_shift_range as Hgis.
  assert (GROUP_SHIFT = 48 - GROUP_INDEX_SHIFT) as Hgs
    by (unfold GROUP_INDEX_SHIFT, VIRTUAL_ADDRESS_BITS; lia).
  pose proof (pow2_pos GROUP_SHIFT). split; [nia|].
  replace (2 ^ 48) with (2 ^ GROUP_INDEX_SHIFT * 2 ^ GROUP_SHIFT); [nia|].
  rewrite <- Z.pow_add_r by lia. f_equal. lia.
Qed.

Lemma group_shift_range : 10 ≤ GROUP_SHIFT ≤ 15.
Proof.
  pose proof group_index_shift_range as H. unfold GROUP_INDEX_SHIFT, VIRTUAL_ADDRESS_BITS in H.
  lia.
Qed.

Lemma shl64_group idx :
  0 ≤ idx < 2 ^ 39 → idx <<w GROUP_SHIFT = idx * 2 ^ GROUP_SHIFT.
Proof.
  intros. pose proof group_shift_range.
  rewrite (shl64_fits _ _ 39), Z.shiftl_mul_pow2 by (done || lia). done.
Qed.

Lemma get_ptr_eq cg :
  in_word GROUP_INDEX_SHIFT (get_index cg) → get_ptr cg = get_index cg * 2 ^ GROUP_SHIFT.
Proof.
  intros [H0 H1]. unfold get_ptr. fold (get_index cg). apply shl64_group.
  pose proof group_index_shift_range.
  pose proof (Z.pow_lt_mono_r 2 GROUP_INDEX_SHIFT 39). lia.
Qed.

Lemma covers_length idx len l :
  in_word GROUP_INDEX_SHIFT idx → 0 ≤ len ≤ GROUP_LEN_MAX →
  covers (length_entry idx len) l = true ↔ idx ≤ l / 16 < idx + len.
Proof.
  intros Hi Hl. unfold covers. rewrite GROUP_SIZE_eq.
  destruct (length_entry_fields idx len Hi Hl) as (-> & -> & ->).
  rewrite andb_true_iff, Z.leb_le, Z.ltb_lt. done.
Qed.

Lemma covers_mask idx mask l :
  in_word GROUP_INDEX_SHIFT idx → in_word 16 mask →
  covers (mask_entry idx mask) l = true ↔
    l / 16 = idx ∧ Z.testbit mask (l mod 16) = true.
Proof.
  intros Hi Hl. unfold covers. rewrite GROUP_SIZE_eq.
  destruct (mask_entry_fields idx mask Hi Hl) as (-> & -> & ->).
  by rewrite andb_true_iff, Z.eqb_eq.
Qed.

(** [GROUP_LEN_MAX] groups fit an address without wrapping. *)
Lemma len_max_bound : GROUP_LEN_MAX < 2 ^ 30.
Proof.
  rewrite GROUP_LEN_MAX_eq, Z.ones_equiv. pose proof group_index_shift_range.
  pose proof (Z.pow_le_mono_r 2 (63 - GROUP_INDEX_SHIFT) 30). lia.
Qed.
End ranges.


Section range_addresses.
Context `{cfg : Config} {ok : ConfigOk cfg}.
Implicit Types (cg idx len mask l : Z).

Lemma mask_addr idx p :
  in_word GROUP_INDEX_SHIFT idx → 0 ≤ p < 16 →
  (idx * 2 ^ GROUP_SHIFT) +w (p <<w VIRTUAL_CL_SHIFT) = (idx * 16 + p) * VIRTUAL_CL_SIZE.
Proof.
  intros Hi Hp. pose proof virtual_cl_size_range. pose proof (index_bytes idx Hi).
  assert (0 ≤ VIRTUAL_CL_SHIFT ≤ 11)
    by (pose proof expand_range; unfold VIRTUAL_CL_SHIFT, CACHE_LINE_SHIFT; lia).
  rewrite (shl64_fits _ _ 4), Z.shiftl_mul_pow2, <- virtual_cl_size_eq by (done || lia).
  unfold add64. rewrite wrap_small; rewrite group_bytes in *; unfold GROUP_SIZE_SHIFT in *.
  - lia.
  - split; nia.
Qed.

Lemma group_addr idx j :
  in_word GROUP_INDEX_SHIFT idx → 0 ≤ j < 2 ^ 30 →
  (idx * 2 ^ GROUP_SHIFT) +w (j <<w GROUP_SHIFT) = (idx + j) * 2 ^ GROUP_SHIFT.
Proof.
  intros Hi Hj. pose proof (index_bytes idx Hi). pose proof group_shift_range.
  rewrite shl64_group by lia. unfold add64.
  pose proof (Z.pow_le_mono_r 2 GROUP_SHIFT 15).
  rewrite wrap_small; [lia|]. split; nia.
Qed.

Lemma set_bits_word w mask p :
  0 ≤ w ≤ 64 → in_word w mask → p ∈ set_bits mask ↔ 0 ≤ p < w ∧ Z.testbit mask p = true.
Proof.
  intros Hw Hm. rewrite elem_of_set_bits by (by eapply in_word_mono; [|done]; lia).
  split; [|tauto]. intros H. split; [|done].
  destruct (Z.lt_ge_cases p 0); [by rewrite Z.testbit_neg_r in H|].
  destruct (Z.lt_ge_cases p w); [lia|]. by rewrite (testbit_high w) in H.
Qed.

Lemma mask_range_addrs idx mask :
  in_word GROUP_INDEX_SHIFT idx → in_word 16 mask →
  mask_cl_range (get_ptr (mask_entry idx mask)) (get_mask16 (mask_entry idx mask)) =
    Some (map (λ p, (idx * 16 + p) * VIRTUAL_CL_SIZE) (set_bits mask)).
Proof.
  intros Hi Hm. destruct (mask_entry_fields idx mask Hi Hm) as (_ & Hidx & ->).
  rewrite get_ptr_eq, Hidx by by rewrite Hidx.
  rewrite mask_cl_range_spec by (by eapply in_word_mono; [|done]; lia). f_equal.
  apply map_ext_in. intros p Hp%list_elem_of_In. apply mask_addr; [done|].
  apply (set_bits_word 16) in Hp; [lia|lia|done].
Qed.

Lemma length_range_addrs idx len :
  in_word GROUP_INDEX_SHIFT idx → 0 ≤ len ≤ GROUP_LEN_MAX →
  length_cl_range (length_entry idx len) =
    Some (map (λ g, g * 2 ^ GROUP_SHIFT) (seqZ idx len)).
Proof.
  intros Hi Hl. pose proof len_max_bound.
  destruct (length_entry_fields idx len Hi Hl) as (_ & Hidx & Hlen).
  rewrite length_cl_range_spec, get_ptr_eq by (rewrite ?Hidx, ?Hlen; done || lia).
  rewrite Hidx, Hlen. f_equal.
  replace (seqZ idx len) with (Z.add idx <$> seqZ 0 len)
    by (rewrite fmap_add_seqZ; f_equal; lia).
  change (Z.add idx <$> ?l) with (map (Z.add idx) l). rewrite map_map. apply map_ext_in.
  intros j Hj%list_elem_of_In%elem_of_seqZ. apply group_addr; [done|lia].
Qed.

Lemma covers_nonneg cg l : length_wf cg ∨ mask_wf cg → covers cg l = true → 0 ≤ l.
Proof.
  intros [(idx & len & -> & Hi & Hl)|(idx & mask & -> & Hi & Hm & _)].
  - rewrite covers_length by (done || lia). destruct Hi as [? _]. intros. divlia.
  - rewrite covers_mask by done. destruct Hi as [? _]. intros [? _]. divlia.
Qed.

Lemma line_div_mod l g p : 0 ≤ p < 16 → l / 16 = g ∧ l mod 16 = p ↔ l = g * 16 + p.
Proof. intros. divlia. Qed.
End range_addresses.

(** ** Properties *)

(** C37: the packed encoding is lossless: for every group index that fits the
    index field, a length up to [GROUP_LEN_MAX] and a 16-bit mask are read back
    unchanged by the accessors, and the type bit tells the formats apart. *)
Theorem cl_group_roundtrip `{cfg : Config} (ok : ConfigOk cfg) (idx len mask : Z) :
  in_word GROUP_INDEX_SHIFT idx → 0 ≤ len ≤ GROUP_LEN_MAX → in_word 16 mask →
  (is_length_based (length_entry idx len) = true ∧
   get_index (length_entry idx len) = idx ∧ get_length (length_entry idx len) = len) ∧
  (is_length_based (mask_entry idx mask) = false ∧
   get_index (mask_entry idx mask) = idx ∧ get_mask16 (mask_entry idx mask) = mask).
Proof.
  intros. split; [by apply length_entry_fields|by apply mask_entry_fields].
Qed.

Lemma cl_group_roundtrip_witness :
  let cfg := default_config in
  get_index (length_entry 12345 1000) = 12345 ∧ get_length (length_entry 12345 1000) = 1000 ∧
  get_mask16 (mask_entry 12345 0xbeef) = 0xbeef.
Proof.
  intros cfg.
  destruct (cl_group_roundtrip default_config_ok 12345 1000 0xbeef)
    as [(_ & Hi & Hl) (_ & _ & Hm)]; [split; vm_compute; congruence..|].
  split; [exact Hi|]. split; [exact Hl|exact Hm].
Defined.

(** [process_cl_group] terminates and hands its callback exactly the lines
    the word stands for: a line is covered by the word iff some call names the
    start address of its group together with a mask holding the line's bit. *)
Theorem process_cl_group_covers `{cfg : Config} (ok : ConfigOk cfg) (cg : Z) :
  length_wf cg ∨ mask_wf cg →
  ∃ calls, process_cl_group cg = Some calls ∧
    ∀ l, covers cg l = true ↔
      ∃ m, (l / GROUP_SIZE * 2 ^ GROUP_SHIFT, m) ∈ calls ∧
           Z.testbit m (l mod GROUP_SIZE) = true.
Proof.
  rewrite GROUP_SIZE_eq. pose proof group_shift_range.
  pose proof (pow2_pos GROUP_SHIFT).
  intros [(idx & len & -> & Hi & Hl)|(idx & mask & -> & Hi & Hm & _)].
  - destruct (length_entry_fields idx len) as (Hb & _ & _); [done|lia|].
    unfold process_cl_group. rewrite Hb, length_range_addrs by (done || lia).
    eexists. split; [done|]. intros l. rewrite covers_length by (done || lia).
    setoid_rewrite list_elem_of_In. setoid_rewrite in_map_iff.
    setoid_rewrite in_map_iff. setoid_rewrite <- list_elem_of_In.
    setoid_rewrite elem_of_seqZ. rewrite FULL_MASK_eq.
    split.
    + intros Hr. exists (Z.ones 16). split; [by eauto|].
      pose proof (Z.mod_pos_bound l 16). rewrite testbit_ones_ltb by lia.
      apply Z.ltb_lt. lia.
    + intros (m & (a & [= ?] & (g & ? & ?)) & _). subst. assert (g = l / 16) by nia. lia.
  - destruct (mask_entry_fields idx mask Hi Hm) as (Hb & Hx & Hmask).
    unfold process_cl_group. rewrite Hb, get_ptr_eq, Hx, Hmask by by rewrite Hx.
    eexists. split; [done|]. intros l. rewrite covers_mask by done.
    setoid_rewrite list_elem_of_singleton. split.
    + intros [<- ?]. eauto.
    + intros (m & [= Heq ->] & ?). split; [|done]. nia.
Qed.

Lemma process_cl_group_covers_witness :
  let cfg := default_config in
  ∃ calls, process_cl_group (length_entry 7 2) = Some calls ∧
    (covers (length_entry 7 2) 130 = true ↔
      ∃ m, (130 / GROUP_SIZE * 2 ^ GROUP_SHIFT, m) ∈ calls ∧
           Z.testbit m (130 mod GROUP_SIZE) = true).
Proof.
  intros cfg.
  destruct (process_cl_group_covers default_config_ok (length_entry 7 2)) as (calls & H & Hc).
  - left. exists 7, 2. split; [reflexivity|]. split; split; vm_compute; congruence.
  - exists calls. split; [exact H|apply Hc].
Defined.

(** The range-for loop over [MaskCLRange] terminates and visits each line
    of a mask word once: the addresses it yields are, without repetition, the
    start addresses of exactly the lines the word covers. *)
Theorem mask_range_visits_lines_once `{cfg : Config} (ok : ConfigOk cfg) (cg : Z) :
  mask_wf cg →
  ∃ addrs, mask_cl_range (get_ptr cg) (get_mask16 cg) = Some addrs ∧ NoDup addrs ∧
    ∀ a, a ∈ addrs ↔ ∃ l, covers cg l = true ∧ a = l * VIRTUAL_CL_SIZE.
Proof.
  intros (idx & mask & -> & Hi & Hm & _). rewrite mask_range_addrs by done.
  pose proof virtual_cl_size_range. eexists. split; [done|]. split.
  - apply NoDup_fmap_2_strong.
    + intros x y _ _ Hxy. apply Z.mul_cancel_r in Hxy; lia.
    + apply NoDup_filter, NoDup_seqZ.
  - intros a. setoid_rewrite covers_mask; [|done..].
    change (map ?f ?l) with (f <$> l) at 1. rewrite list_elem_of_fmap.
    setoid_rewrite (set_bits_word 16); [|lia|done]. split.
    + intros (p & -> & Hp & Hbit). exists (idx * 16 + p). split; [|done].
      destruct (proj2 (line_div_mod (idx * 16 + p) idx p Hp)) as [? ->]; done.
    + intros (l & [<- Hbit] & ->). exists (l mod 16).
      pose proof (Z.mod_pos_bound l 16). pose proof (Z.div_mod l 16).
      split; [f_equal; lia|]. split; [lia|done].
Qed.

Lemma mask_range_visits_lines_once_witness :
  let cfg := default_config in
  ∃ addrs, mask_cl_range (get_ptr (mask_entry 5 0x8003)) (get_mask16 (mask_entry 5 0x8003))
             = Some addrs ∧ NoDup addrs ∧ (95 * VIRTUAL_CL_SIZE) ∈ addrs.
Proof.
  intros cfg.
  destruct (mask_range_visits_lines_once default_config_ok (mask_entry 5 0x8003))
    as (addrs & H & Hnd & Hin).
  - exists 5, 0x8003. split; [reflexivity|].
    split; [split; vm_compute; congruence|]. split; [split; vm_compute; congruence|lia].
  - exists addrs. split; [exact H|]. split; [exact Hnd|]. apply Hin.
    exists 95. split; [vm_compute; reflexivity|reflexivity].
Defined.

(** What [try_coalesce] computes: it never refuses two non-empty ranges,
    also disjoint ones, and the range it returns starts at the larger of the
    two starts and ends at the larger of the two ends. *)
Theorem try_coalesce_spec `{cfg : Config} (ok : ConfigOk cfg) (i1 i2 n1 n2 : Z) :
  in_word GROUP_INDEX_SHIFT i1 → in_word GROUP_INDEX_SHIFT i2 →
  0 < n1 ≤ GROUP_LEN_MAX → 0 < n2 ≤ GROUP_LEN_MAX →
  let cg := try_coalesce i1 i2 n1 n2 in
  length_wf cg ∧
  ∀ l, covers cg l = true ↔ Z.max i1 i2 ≤ l / GROUP_SIZE < Z.max (i1 + n1) (i2 + n2).
Proof.
  intros H1 H2 Hn1 Hn2 cg. pose proof group_index_shift_range. pose proof len_max_bound.
  pose proof (Z.pow_le_mono_r 2 GROUP_INDEX_SHIFT 38).
  assert (in_word 64 i1 ∧ in_word 64 i2) as [Hw1 Hw2]
    by (split; (eapply in_word_mono; [|done]); lia).
  destruct H1 as [? H1'], H2 as [? H2'].
  assert (cg = length_entry (Z.max i1 i2) (Z.max (i1 + n1) (i2 + n2) - Z.max i1 i2)) as ->.
  { unfold cg, try_coalesce, add64.
    rewrite (wrap_small 64 (i1 + n1)), (wrap_small 64 (i2 + n2)) by (split; lia).
    rewrite !ltb_max. unfold sub64. rewrite wrap_small by (split; lia).
    by destruct (Z.ltb_spec i2 (i1 + n1)), (Z.ltb_spec i1 (i2 + n2)); try lia. }
  split.
  - eexists _, _. split; [done|]. split; [split; lia|lia].
  - intros l. rewrite GROUP_SIZE_eq, covers_length by (try split; lia). lia.
Qed.

Lemma try_coalesce_spec_witness :
  let cfg := default_config in
  let cg := try_coalesce 0 10 4 4 in
  covers cg 160 = true ∧ covers cg 0 = false.
Proof.
  intros cfg cg.
  destruct (try_coalesce_spec default_config_ok 0 10 4 4) as [_ H];
    [split; vm_compute; congruence..|].
  split; [apply H; vm_compute; split; congruence|].
  destruct (covers cg 0) eqn:E; [|reflexivity].
  apply H in E. vm_compute in E. destruct E as [E _]. congruence.
Defined.
