(* ===== verification/LocalCLTable.v ===== *)
(** LocalCLTable: [include/localCLTable.hpp], the per-thread set of dirty cache
    lines that a release turns into a log.

    The state is the array [table] (0 is an empty slot), the counter of
    length-based entries and the optional coalescing buffer. Every operation
    returns the C++ result (true: full) with the new state. [table_covers] is
    the set of line numbers the table stands for. *)
From S2P Require Import Prelude Config ClGroup.
#[local] Open Scope word_scope.

(** ** Definitions *)

(** [struct EntryBuffer] *)
Record EntryBuffer := MkEntryBuffer { eb_cl_addr : Z; eb_len : Z }.

(** [EntryBuffer::insert]: true when [cl_ptr] cannot be merged. *)
Definition buffer_insert (cl_ptr : Z) (b : EntryBuffer) : bool * EntryBuffer :=
  let cl_addr := eb_cl_addr b in
  let len := eb_len b in
  if cl_ptr =? cl_addr +w len then (false, MkEntryBuffer cl_addr (len +w 1))
  else if (cl_addr <=? cl_ptr) && (cl_ptr <? cl_addr +w len) then (false, b)
  else if len =? 0 then (false, MkEntryBuffer cl_ptr 1)
  else (true, b).

Record LocalCLTable := MkLocalCLTable {
  table : list Z;
  length_entry_count : Z;
  buffer : EntryBuffer;
}.

Section local_cl_table.
Context `{cfg : Config}.

Definition GROUP_LEN_MIN : Z := 4.

(** The member initialisers. *)
Definition table_init : LocalCLTable :=
  MkLocalCLTable (replicate LOCAL_CL_TABLE_SIZE 0) 0 (MkEntryBuffer 0 0).

Definition set_table (t : LocalCLTable) (tab : list Z) : LocalCLTable :=
  MkLocalCLTable tab (length_entry_count t) (buffer t).
Definition set_buffer (t : LocalCLTable) (b : EntryBuffer) : LocalCLTable :=
  MkLocalCLTable (table t) (length_entry_count t) b.

(** [table[i]] *)
Definition slot (tab : list Z) (i : nat) : Z := default 0 (tab !! i).

(** The scan of [insert_length]: its local variables and loop body. *)
Record scan := MkScan { sc_table : list Z; sc_entry : Z; sc_pos : option nat }.

Definition claim_pos (i : nat) (pos : option nat) : option nat :=
  match pos with None => Some i | Some _ => pos end.

Definition insert_length_body (group_index length : Z) (s : scan) (i : nat) : scan :=
  let val := slot (sc_table s) i in
  let val_index := get_index val in
  if val =? 0 then MkScan (sc_table s) (sc_entry s) (claim_pos i (sc_pos s))
  else if is_length_based val then
    let val_length := get_length val in
    let new_entry := try_coalesce val_index group_index val_length length in
    if negb (new_entry =? 0)
    then MkScan (<[i := 0]> (sc_table s)) new_entry (claim_pos i (sc_pos s))
    else s
  else if (group_index <=? val_index) && (val_index <? group_index +w length)
  then MkScan (<[i := 0]> (sc_table s)) (sc_entry s) (claim_pos i (sc_pos s))
  else s.

(** The scan over the table. *)
Definition insert_length_scan (group_index length : Z) (s : scan) : scan :=
  foldl (insert_length_body group_index length) s (seq 0 LOCAL_CL_TABLE_SIZE).

Definition insert_length (group_index length : Z) (t : LocalCLTable) :
    bool * LocalCLTable :=
  let entry := (group_index |w (length <<w GROUP_INDEX_SHIFT)) |w TYPE_MASK in
  let s := insert_length_scan group_index length (MkScan (table t) entry None) in
  match sc_pos s with
  | Some p =>
      (false, MkLocalCLTable (<[p := sc_entry s]> (sc_table s))
                (length_entry_count t + 1) (buffer t))
  | None => (true, set_table t (sc_table s))
  end.

(** [(group_index + i) & (LOCAL_CL_TABLE_SIZE - 1)] *)
Definition table_index (group_index : Z) (i : nat) : nat :=
  Z.to_nat ((group_index +w Z.of_nat i) &w (Z.of_nat LOCAL_CL_TABLE_SIZE - 1)).

(** The probe loop of [insert_mask] from probe [i], [n] probes left. *)
Fixpoint insert_mask_from (i n : nat) (group_index mask : Z) (t : LocalCLTable) :
    bool * LocalCLTable :=
  match n with
  | O => (true, t)
  | S n' =>
      let ti := table_index group_index i in
      let value := slot (table t) ti in
      let value := if negb (value =? 0) then value else group_index in
      if value &w GROUP_INDEX_MASK =? group_index
      then (false, set_table t
              (<[ti := value |w (mask <<w GROUP_INDEX_SHIFT)]> (table t)))
      else insert_mask_from (S i) n' group_index mask t
  end.

Definition insert_mask (group_index mask : Z) (t : LocalCLTable) : bool * LocalCLTable :=
  insert_mask_from 0 LOCAL_CL_TABLE_SEARCH_ITERS group_index mask t.

(** The [for] loop of [range_insert] over [n] whole groups: the first group
    that did not fit, if any. *)
Fixpoint insert_groups (n : nat) (begin_index : Z) (t : LocalCLTable) :
    option Z * LocalCLTable :=
  match n with
  | O => (None, t)
  | S n' =>
      let '(full, t') := insert_mask begin_index FULL_MASK t in
      if full then (Some begin_index, t')
      else insert_groups n' (begin_index +w 1) t'
  end.

(** The [while(len)] loop of [range_insert]. *)
Fixpoint insert_lengths (fuel : nat) (begin_index len : Z) (t : LocalCLTable) :
    option (option Z * LocalCLTable) :=
  if len =? 0 then Some (None, t) else
  match fuel with
  | O => None
  | S fuel' =>
      let l := len &w GROUP_LEN_MAX in
      let '(full, t') := insert_length begin_index l t in
      if full then Some (Some begin_index, t')
      else insert_lengths fuel' (begin_index +w l) (len -w l) t'
  end.

(** The tail of [range_insert], once both ends are on group boundaries. *)
Definition range_insert_groups (fuel : nat) (begin stop : Z) (t : LocalCLTable) :
    option (bool * Z * Z * LocalCLTable) :=
  let begin_index := begin >>w GROUP_SIZE_SHIFT in
  let end_index := stop >>w GROUP_SIZE_SHIFT in
  let len := end_index -w begin_index in
  '(stuck, t') ←
    (if len <? GROUP_LEN_MIN
     then Some (insert_groups (Z.to_nat (end_index - begin_index)) begin_index t)
     else insert_lengths fuel begin_index len t);
  match stuck with
  | Some bi => Some (true, bi <<w GROUP_SIZE_SHIFT, stop, t')
  | None => Some (false, stop, stop, t')
  end.

(** [if (end_pos) {...}] and the tail. *)
Definition range_insert_end (fuel : nat) (begin stop : Z) (t : LocalCLTable) :
    option (bool * Z * Z * LocalCLTable) :=
  let end_index := stop >>w GROUP_SIZE_SHIFT in
  let end_pos := stop &w GROUP_SIZE_MASK in
  if negb (end_pos =? 0) then
    let '(full, t') := insert_mask end_index (1 <<w end_pos) t in
    if full then Some (true, begin, stop, t')
    else range_insert_groups fuel begin (stop -w end_pos) t'
  else range_insert_groups fuel begin stop t.

(** [range_insert]: the result with the final values of the two reference
    parameters. *)
Definition range_insert (fuel : nat) (begin stop : Z) (t : LocalCLTable) :
    option (bool * Z * Z * LocalCLTable) :=
  let end_index := stop >>w GROUP_SIZE_SHIFT in
  let begin_pos := begin &w GROUP_SIZE_MASK in
  let end_pos := stop &w GROUP_SIZE_MASK in
  if negb (begin_pos =? 0) then
    let begin_index := begin >>w GROUP_SIZE_SHIFT in
    let begin_mask := (FULL_MASK <<w begin_pos) &w FULL_MASK in
    if begin_index =? end_index then
      let end_mask := 1 <<w end_pos in
      let '(full, t') := insert_mask begin_index (begin_mask &w end_mask) t in
      if full then Some (true, begin, stop, t') else Some (false, stop, stop, t')
    else
      let '(full, t') := insert_mask begin_index begin_mask t in
      if full then Some (true, begin, stop, t')
      else range_insert_end fuel (begin +w (GROUP_SIZE -w begin_pos)) stop t'
  else range_insert_end fuel begin stop t.

Definition dump_buffer_to_table (fuel : nat) (t : LocalCLTable) :
    option (bool * LocalCLTable) :=
  let stop := eb_cl_addr (buffer t) +w eb_len (buffer t) in
  '(ret, cl_addr, stop', t') ← range_insert fuel (eb_cl_addr (buffer t)) stop t;
  Some (ret, set_buffer t' (MkEntryBuffer cl_addr (stop' -w cl_addr))).

(** [insert], both preprocessor branches. *)
Definition insert (fuel : nat) (cl_addr : Z) (t : LocalCLTable) :
    option (bool * LocalCLTable) :=
  if LOCAL_CL_TABLE_BUFFER then
    let '(rejected, b) := buffer_insert cl_addr (buffer t) in
    if rejected then
      '(full, t') ← dump_buffer_to_table fuel t;
      if (full : bool) then Some (true, t')
      else Some (false, set_buffer t' (buffer_insert cl_addr (buffer t')).2)
    else Some (false, set_buffer t b)
  else
    let index := cl_addr >>w GROUP_SIZE_SHIFT in
    let pos := cl_addr &w GROUP_SIZE_MASK in
    Some (insert_mask index (1 <<w pos) t).

Definition get_length_entry_count (t : LocalCLTable) : Z := length_entry_count t.

(** The range-for over [begin()], [end()]: the slots in order. *)
Definition table_entries (t : LocalCLTable) : list Z := table t.

Definition clear_table (t : LocalCLTable) : LocalCLTable :=
  MkLocalCLTable (replicate (length (table t)) 0) 0 (buffer t).

(** The set of lines a table stands for, and its invariant. *)
Definition table_covers (t : LocalCLTable) (l : Z) : bool :=
  existsb (λ e, covers e l) (table t).
Definition entry_wf (e : Z) : Prop := e = 0 ∨ length_wf e ∨ mask_wf e.
Definition table_wf (t : LocalCLTable) : Prop :=
  length (table t) = LOCAL_CL_TABLE_SIZE ∧ Forall entry_wf (table t).
(** No length-based entry: what single-line inserts maintain. *)
Definition mask_only (t : LocalCLTable) : Prop :=
  length (table t) = LOCAL_CL_TABLE_SIZE ∧ Forall (λ e, e = 0 ∨ mask_wf e) (table t).
End local_cl_table.

(** ** Lemmas: one slot *)

Section slot_facts.
Context `{cfg : Config} {ok : ConfigOk cfg}.
Implicit Types (t : LocalCLTable) (g mask l e : Z).

Definition in_mask (g mask l : Z) : Prop := l / 16 = g ∧ Z.testbit mask (l mod 16) = true.

Lemma table_index_lt g i : (table_index g i < LOCAL_CL_TABLE_SIZE)%nat.
Proof.
  destruct table_size_pow2 as (k & _ & Hk). unfold table_index.
  replace (Z.of_nat LOCAL_CL_TABLE_SIZE - 1) with (Z.ones (Z.of_nat k))
    by (rewrite Z.ones_equiv; lia).
  rewrite Z.land_ones by lia.
  pose proof (Z.mod_pos_bound (g +w Z.of_nat i) (2 ^ Z.of_nat k)).
  pose proof (pow2_pos (Z.of_nat k)). lia.
Qed.

Lemma mask_shl mask : in_word 16 mask → mask <<w GROUP_INDEX_SHIFT = Z.shiftl mask GROUP_INDEX_SHIFT.
Proof. intros. pose proof group_index_shift_range. apply (shl64_fits _ _ 16); (done || lia). Qed.

Lemma mask_or g m1 m2 :
  in_word 16 m1 → in_word 16 m2 →
  (mask_entry g m1 |w (m2 <<w GROUP_INDEX_SHIFT)) = mask_entry g (Z.lor m1 m2).
Proof.
  intros H1 H2. unfold mask_entry. rewrite !mask_shl; [|by apply in_word_lor|done..].
  rewrite Z.shiftl_lor. by rewrite Z.lor_assoc.
Qed.

Lemma length_or g n m :
  0 ≤ n ≤ GROUP_LEN_MAX → in_word 16 m →
  (length_entry g n |w (m <<w GROUP_INDEX_SHIFT)) = length_entry g (Z.lor n m) ∧
  n ≤ Z.lor n m ≤ GROUP_LEN_MAX.
Proof.
  intros Hn Hm. pose proof group_index_shift_range.
  pose proof (len_max_word n Hn) as Hnw.
  assert (in_word (63 - GROUP_INDEX_SHIFT) (Z.lor n m)) as Hw.
  { apply in_word_lor; [lia|done|]. eapply in_word_mono; [|done]. lia. }
  unfold length_entry. rewrite (mask_shl m) by done.
  rewrite !(shl64_fits _ _ (63 - GROUP_INDEX_SHIFT)) by (done || lia).
  split.
  - rewrite Z.shiftl_lor. bit_blast.
  - rewrite GROUP_LEN_MAX_eq, Z.ones_equiv. destruct Hw as [_ Hw].
    split; [|lia]. apply lor_ge_l; [lia|destruct Hm; lia].
Qed.

Lemma covers_0 l : covers 0 l = false.
Proof.
  unfold covers. change (is_length_based 0) with false. cbv iota.
  unfold get_mask16, shr64. by rewrite Z.shiftr_0_l, Z.bits_0, andb_false_r.
Qed.

Lemma mask_entry_nonzero g mask :
  in_word GROUP_INDEX_SHIFT g → in_word 16 mask → mask ≠ 0 → mask_entry g mask ≠ 0.
Proof.
  intros Hg Hm Hne H0. destruct (mask_entry_fields g mask Hg Hm) as (_ & _ & Hf).
  rewrite H0 in Hf. by unfold get_mask16, shr64 in Hf; rewrite Z.shiftr_0_l in Hf.
Qed.

Lemma length_wf_nonzero e : length_wf e → e ≠ 0.
Proof.
  intros (idx & len & -> & Hi & Hl) H0.
  destruct (length_entry_fields idx len) as (Hb & _ & _); [done|lia|].
  by rewrite H0 in Hb.
Qed.

(** The value a successful probe stores, from the old slot content. *)
Definition probe_value (old g : Z) : Z := if negb (old =? 0) then old else g.

Lemma probe_mask old g mask :
  in_word GROUP_INDEX_SHIFT g → in_word 16 mask → mask ≠ 0 →
  old = 0 ∨ mask_wf old →
  get_index (probe_value old g) = g →
  let new := probe_value old g |w (mask <<w GROUP_INDEX_SHIFT) in
  mask_wf new ∧ ∀ l, covers new l = true ↔ covers old l = true ∨ in_mask g mask l.
Proof.
  intros Hg Hm Hne Hold Hidx new.
  assert (∃ m, (old = 0 ∧ m = 0 ∨ old = mask_entry g m) ∧ in_word 16 m ∧
               probe_value old g = mask_entry g m) as (m & Hcase & Hmw & Hv).
  { unfold probe_value in *. destruct Hold as [->|(i & m & -> & Hi & Hmw & Hmne)].
    - exists 0. split; [by left; split|]. split; [by apply in_word_0|].
      unfold mask_entry. rewrite mask_shl by by apply in_word_0.
      by rewrite Z.shiftl_0_l, Z.lor_0_r.
    - rewrite (proj2 (Z.eqb_neq _ 0)) in * by by apply mask_entry_nonzero.
      destruct (mask_entry_fields i m Hi Hmw) as (_ & Hgi & _).
      cbn [negb] in *. rewrite Hgi in Hidx. subst i. exists m. eauto. }
  assert (new = mask_entry g (Z.lor m mask)) as -> by (unfold new; rewrite Hv; by apply mask_or).
  pose proof (in_word_lor 16 m mask ltac:(lia) Hmw Hm) as Hor. split.
  - eexists _, _. split; [done|]. split_and!; [done..|].
    intros H0. apply Z.lor_eq_0_iff in H0. tauto.
  - intros l. rewrite covers_mask, Z.lor_spec, orb_true_iff by done. unfold in_mask.
    destruct Hcase as [[-> ->]| ->].
    + rewrite covers_0, Z.bits_0. naive_solver.
    + rewrite covers_mask by done. naive_solver.
Qed.

Lemma probe_length old g mask :
  in_word GROUP_INDEX_SHIFT g → in_word 16 mask → length_wf old →
  get_index (probe_value old g) = g →
  let new := probe_value old g |w (mask <<w GROUP_INDEX_SHIFT) in
  length_wf new ∧ ∀ l, covers old l = true ∨ in_mask g mask l → covers new l = true.
Proof.
  intros Hg Hm Hold. assert (probe_value old g = old) as ->.
  { unfold probe_value. by rewrite (proj2 (Z.eqb_neq old 0)) by by apply length_wf_nonzero. }
  intros Hidx new.
  destruct Hold as (i & n & -> & Hi & Hn).
  destruct (length_entry_fields i n) as (_ & Hgi & _); [done|lia|].
  rewrite Hgi in Hidx. subst i.
  destruct (length_or g n mask) as [Heq Hle]; [lia|done|].
  unfold new. rewrite Heq. split.
  - eexists _, _. split; [done|]. split; [done|lia].
  - intros l. rewrite !covers_length by (done || lia). unfold in_mask. lia.
Qed.
End slot_facts.

(** ** Lemmas: probing and the table as a set *)

Section table_facts.
Context `{cfg : Config} {ok : ConfigOk cfg}.
Implicit Types (t : LocalCLTable) (g mask l e : Z).

Lemma slot_lookup tab i : (i < length tab)%nat → tab !! i = Some (slot tab i).
Proof. intros [x Hx]%lookup_lt_is_Some. unfold slot. by rewrite Hx. Qed.

Lemma mask_only_wf t : mask_only t → table_wf t.
Proof.
  intros [Hlen Hall]. split; [done|]. eapply Forall_impl; [done|].
  unfold entry_wf. naive_solver.
Qed.

Lemma mask_only_slot t i : mask_only t → slot (table t) i = 0 ∨ mask_wf (slot (table t) i).
Proof.
  intros [_ Hall]. unfold slot. destruct (table t !! i) eqn:Hi; [|by left].
  by eapply Forall_lookup_1 in Hi; [|done].
Qed.

Lemma table_wf_slot t i : table_wf t → entry_wf (slot (table t) i).
Proof.
  intros [_ Hall]. unfold slot. destruct (table t !! i) eqn:Hi; [|by left].
  by eapply Forall_lookup_1 in Hi; [|done].
Qed.

Lemma mask_only_init : mask_only table_init.
Proof.
  split; [apply length_replicate|]. apply Forall_replicate. by left.
Qed.

Lemma mask_only_clear t : table_wf t → mask_only (clear_table t).
Proof.
  intros [Hlen _]. split; [by cbn; rewrite length_replicate|].
  cbn. apply Forall_replicate. by left.
Qed.

Lemma table_covers_clear t l : table_covers (clear_table t) l = false.
Proof.
  apply not_true_iff_false. unfold table_covers. rewrite existsb_lookup.
  intros (i & x & Hi & Hx). cbn in Hi. apply lookup_replicate in Hi as [-> _].
  by rewrite covers_0 in Hx.
Qed.

Lemma table_covers_init l : table_covers table_init l = false.
Proof.
  apply not_true_iff_false. unfold table_covers. rewrite existsb_lookup.
  intros (i & x & Hi & Hx). apply lookup_replicate in Hi as [-> _].
  by rewrite covers_0 in Hx.
Qed.

(** A probe that leaves the slot alone found another group there. *)
Definition slot_taken (t : LocalCLTable) (g : Z) (i : nat) : Prop :=
  let s := slot (table t) (table_index g i) in s ≠ 0 ∧ get_index s ≠ g.

Lemma insert_mask_from_spec i n g mask t :
  in_word GROUP_INDEX_SHIFT g → in_word 16 mask → mask ≠ 0 → table_wf t →
  let '(full, t') := insert_mask_from i n g mask t in
  if full then t' = t ∧ ∀ j, (i ≤ j < i + n)%nat → slot_taken t g j
  else table_wf t' ∧
    (∀ l, table_covers t l = true ∨ in_mask g mask l → table_covers t' l = true) ∧
    (mask_only t → mask_only t' ∧
      ∀ l, table_covers t' l = true ↔ table_covers t l = true ∨ in_mask g mask l).
Proof.
  intros Hg Hm Hne Hwf. revert i.
  induction n as [|n IH]; intros i; cbn [insert_mask_from]; [split; [done|lia]|].
  set (ti := table_index g i).
  pose proof (table_index_lt g i) as Hti. fold ti in Hti.
  fold (probe_value (slot (table t) ti) g). fold (get_index (probe_value (slot (table t) ti) g)).
  destruct (Z.eqb_spec (get_index (probe_value (slot (table t) ti) g)) g) as [Hidx|Hidx].
  - assert (table t !! ti = Some (slot (table t) ti)) as Hlk
      by (apply slot_lookup; by destruct Hwf as [-> _]).
    split_and!.
    + destruct Hwf as [Hlen Hall]. split; [by cbn; rewrite length_insert|].
      apply Forall_insert; [done|].
      destruct (table_wf_slot t ti (conj Hlen Hall)) as [H0|[Hl|Hmk]].
      * right; right. by apply probe_mask; auto.
      * right; left. by apply probe_length.
      * right; right. by apply probe_mask; auto.
    + intros l. unfold table_covers. cbn [table set_table].
      apply existsb_insert_sub with (slot (table t) ti); [done|].
      destruct (table_wf_slot t ti Hwf) as [H0|[Hl|Hmk]].
      * by apply probe_mask; auto.
      * by apply probe_length.
      * by apply probe_mask; auto.
    + intros Hmo. destruct (probe_mask _ g mask Hg Hm Hne (mask_only_slot t ti Hmo) Hidx)
        as [Hnew Hcov]. split.
      * destruct Hmo as [Hlen Hall]. split; [by cbn; rewrite length_insert|].
        apply Forall_insert; auto.
      * intros l. by apply existsb_insert with (slot (table t) ti).
  - specialize (IH (S i)). destruct (insert_mask_from (S i) n g mask t) as [[] t'];
      [|done]. destruct IH as [-> IH]. split; [done|]. intros j Hj.
    destruct (decide (j = i)) as [->|]; [|apply IH; lia].
    unfold slot_taken. fold ti. unfold probe_value in Hidx.
    destruct (Z.eqb_spec (slot (table t) ti) 0) as [H0|H0]; [|done].
    exfalso. apply Hidx. cbn [negb]. unfold get_index. pose proof group_index_shift_range.
    rewrite GROUP_INDEX_MASK_eq, Z.land_ones by lia. by apply Z.mod_small.
Qed.

Lemma insert_mask_spec g mask t :
  in_word GROUP_INDEX_SHIFT g → in_word 16 mask → mask ≠ 0 → table_wf t →
  let '(full, t') := insert_mask g mask t in
  if full then t' = t ∧ ∀ j, (j < LOCAL_CL_TABLE_SEARCH_ITERS)%nat → slot_taken t g j
  else table_wf t' ∧
    (∀ l, table_covers t l = true ∨ in_mask g mask l → table_covers t' l = true) ∧
    (mask_only t → mask_only t' ∧
      ∀ l, table_covers t' l = true ↔ table_covers t l = true ∨ in_mask g mask l).
Proof.
  intros Hg Hm Hne Hwf. unfold insert_mask.
  pose proof (insert_mask_from_spec 0 LOCAL_CL_TABLE_SEARCH_ITERS g mask t Hg Hm Hne Hwf) as H.
  destruct (insert_mask_from _ _ _ _ _) as [[] t']; [|done].
  destruct H as [-> H]. split; [done|]. intros j Hj. apply H. lia.
Qed.

(** A slot is always free in an empty table. *)
Lemma insert_mask_clear g mask t :
  in_word GROUP_INDEX_SHIFT g → in_word 16 mask → mask ≠ 0 → table_wf t →
  (insert_mask g mask (clear_table t)).1 = false.
Proof.
  intros Hg Hm Hne Hwf. pose proof search_iters_pos as Hit.
  pose proof (insert_mask_spec g mask (clear_table t) Hg Hm Hne
    (mask_only_wf _ (mask_only_clear t Hwf))) as H.
  destruct (insert_mask _ _ _) as [[] t']; [|done].
  destruct H as [_ H]. destruct (H 0%nat Hit) as [Hs _]. exfalso. apply Hs.
  unfold slot. cbn. destruct (replicate _ _ !! _) eqn:E; [|done].
  by apply lookup_replicate in E as [-> _].
Qed.

(** The line number [cl] as [insert] decomposes it. *)
Lemma insert_args cl :
  in_word (GROUP_INDEX_SHIFT + 4) cl →
  in_word GROUP_INDEX_SHIFT (cl >>w GROUP_SIZE_SHIFT) ∧
  in_word 16 (1 <<w (cl &w GROUP_SIZE_MASK)) ∧ 1 <<w (cl &w GROUP_SIZE_MASK) ≠ 0 ∧
  ∀ l, in_mask (cl >>w GROUP_SIZE_SHIFT) (1 <<w (cl &w GROUP_SIZE_MASK)) l ↔ l = cl.
Proof.
  intros [H0 H1]. pose proof group_index_shift_range.
  change (cl &w GROUP_SIZE_MASK) with (Z.land cl (Z.ones 4)).
  rewrite Z.land_ones by lia. change (2 ^ 4) with 16.
  unfold shr64. rewrite Z.shiftr_div_pow2 by (unfold GROUP_SIZE_SHIFT; lia).
  change (2 ^ GROUP_SIZE_SHIFT) with 16. pose proof (Z.mod_pos_bound cl 16).
  rewrite one_shl64 by lia. rewrite Z.pow_add_r in H1 by lia.
  pose proof (Z.pow_lt_mono_r 2 (cl mod 16) 16). pose proof (pow2_pos (cl mod 16)).
  split_and!; [split; divlia|split; lia|lia|].
  intros l. unfold in_mask. rewrite testbit_pow2, Z.eqb_eq by lia. divlia.
Qed.
End table_facts.

(** ** Lemmas: whole groups and ranges *)

Section range_facts.
Context `{cfg : Config} {ok : ConfigOk cfg}.
Implicit Types (t : LocalCLTable) (g len l e : Z).

Definition groups (g n l : Z) : Prop := g ≤ l / 16 < g + n.

Lemma in_mask_full g l : in_mask g FULL_MASK l ↔ l / 16 = g.
Proof.
  unfold in_mask. rewrite FULL_MASK_eq. pose proof (Z.mod_pos_bound l 16).
  rewrite testbit_ones_ltb, Z.ltb_lt by lia. split; [tauto|]. intros. split; [done|lia].
Qed.

Lemma full_mask_word : in_word 16 FULL_MASK ∧ FULL_MASK ≠ 0.
Proof. split; [split; vm_compute; congruence|done]. Qed.

Lemma insert_groups_spec n g t :
  mask_only t → 0 ≤ g → g + Z.of_nat n ≤ 2 ^ GROUP_INDEX_SHIFT →
  let '(stuck, t') := insert_groups n g t in
  mask_only t' ∧
  match stuck with
  | None => ∀ l, table_covers t' l = true ↔ table_covers t l = true ∨ groups g (Z.of_nat n) l
  | Some bi => g ≤ bi < g + Z.of_nat n ∧
      ∀ l, table_covers t' l = true ↔ table_covers t l = true ∨ groups g (bi - g) l
  end.
Proof.
  revert g t. induction n as [|n IH]; intros g t Hmo Hg Hmax; cbn [insert_groups].
  - split; [done|]. intros l. unfold groups. split; [by left|].
    intros [?|?]; [done|lia].
  - destruct full_mask_word as [Hw Hne]. pose proof group_index_shift_range.
    pose proof (Z.pow_le_mono_r 2 GROUP_INDEX_SHIFT 38).
    pose proof (insert_mask_spec g FULL_MASK t ltac:(split; lia) Hw Hne
      (mask_only_wf t Hmo)) as H1.
    destruct (insert_mask g FULL_MASK t) as [[] t1].
    + destruct H1 as [-> _]. split; [done|]. split; [lia|].
      intros l. unfold groups. split; [by left|]. intros [?|?]; [done|lia].
    + destruct H1 as (_ & _ & H1). destruct (H1 Hmo) as [Hmo1 Hcov1].
      assert (g +w 1 = g + 1) as -> by (apply wrap_small; split; lia).
      specialize (IH (g + 1) t1 Hmo1 ltac:(lia) ltac:(lia)).
      assert (∀ l, table_covers t1 l = true ↔ table_covers t l = true ∨ l / 16 = g) as Hc
        by (intros l; by rewrite Hcov1, in_mask_full).
      destruct (insert_groups n (g + 1) t1) as [[bi|] t2]; destruct IH as [Hmo2 IH];
        (split; [done|]).
      * destruct IH as [Hbi IH]. split; [lia|]. intros l. rewrite IH, Hc.
        clear -Hbi. unfold groups. destruct (table_covers t l); intuition lia.
      * intros l. rewrite IH, Hc. clear. unfold groups.
        destruct (table_covers t l); intuition lia.
Qed.

(** Mask entries inside the inserted range are dropped by the scan. *)
Definition killed (g len e : Z) : Prop := e ≠ 0 ∧ g ≤ get_index e < g + len.
#[local] Instance killed_dec g len e : Decision (killed g len e).
Proof. unfold killed. apply _. Defined.

Definition scan_inv (t : LocalCLTable) (g len entry : Z) (n : nat) (s : scan) : Prop :=
  sc_entry s = entry ∧ length (sc_table s) = length (table t) ∧
  (∀ j e, table t !! j = Some e →
     sc_table s !! j = Some (if decide ((j < n)%nat ∧ killed g len e) then 0 else e)) ∧
  match sc_pos s with
  | None => ∀ j e, (j < n)%nat → table t !! j = Some e → e ≠ 0 ∧ ¬ killed g len e
  | Some p => (p < n)%nat ∧ sc_table s !! p = Some 0
  end.

(** One step of the scan seen on the table alone. *)
Lemma scan_table_upd t g len n (tab tab' : list Z) e :
  (∀ j x, table t !! j = Some x →
     tab !! j = Some (if decide ((j < n)%nat ∧ killed g len x) then 0 else x)) →
  table t !! n = Some e →
  (∀ j, j ≠ n → tab' !! j = tab !! j) →
  tab' !! n = Some (if decide (killed g len e) then 0 else e) →
  ∀ j x, table t !! j = Some x →
    tab' !! j = Some (if decide ((j < S n)%nat ∧ killed g len x) then 0 else x).
Proof.
  intros Htab Hlk Hother Hat j x Hj. destruct (decide (j = n)) as [->|Hjn].
  - rewrite Hlk in Hj. injection Hj as <-. rewrite Hat. repeat case_decide; naive_solver lia.
  - rewrite (Hother j Hjn), (Htab _ _ Hj). repeat case_decide; naive_solver lia.
Qed.

(** The branch the scan takes on a table of mask entries. *)
Lemma insert_length_body_mask g len s n :
  0 ≤ g → 0 ≤ len → g + len < 2 ^ 64 →
  slot (sc_table s) n = 0 ∨ mask_wf (slot (sc_table s) n) →
  insert_length_body g len s n =
    if decide (slot (sc_table s) n = 0)
    then MkScan (sc_table s) (sc_entry s) (claim_pos n (sc_pos s))
    else if decide (killed g len (slot (sc_table s) n))
    then MkScan (<[n := 0]> (sc_table s)) (sc_entry s) (claim_pos n (sc_pos s))
    else s.
Proof.
  intros Hg Hlen Hmax Hmk. unfold insert_length_body. set (e := slot (sc_table s) n) in *.
  assert (g +w len = g + len) as -> by (apply wrap_small; split; lia).
  destruct (Z.eqb_spec e 0) as [H0|H0], (decide (e = 0)); try done.
  destruct Hmk as [|(i & m & He & ?& ?& ?)]; [done|].
  assert (is_length_based e = false) as -> by (rewrite He; by apply mask_entry_fields).
  unfold killed. destruct (Z.leb_spec g (get_index e)), (Z.ltb_spec (get_index e) (g + len));
    cbn [andb]; case_decide; naive_solver lia.
Qed.

Lemma scan_step t g len entry n s :
  mask_only t → 0 ≤ g → 0 ≤ len → g + len < 2 ^ 64 → (n < LOCAL_CL_TABLE_SIZE)%nat →
  scan_inv t g len entry n s → scan_inv t g len entry (S n) (insert_length_body g len s n).
Proof.
  intros Hmo Hg Hlen Hmax Hn (He & Hl & Htab & Hpos).
  pose proof Hmo as [Hsize _].
  pose proof (slot_lookup (table t) n ltac:(lia)) as Hlk.
  pose proof (mask_only_slot t n Hmo) as Hmk.
  set (e := slot (table t) n) in *.
  assert (sc_table s !! n = Some e) as Hs by (rewrite (Htab _ _ Hlk), decide_False by lia; done).
  assert (slot (sc_table s) n = e) as Hslot by (unfold slot; by rewrite Hs).
  rewrite insert_length_body_mask, Hslot by (rewrite ?Hslot; done).
  pose proof (scan_table_upd t g len n (sc_table s)) as Hupd.
  destruct (decide (e = 0)) as [H0|H0]; [|destruct (decide (killed g len e)) as [Hk|Hk]].
  - split_and!; cbn; [done|done|apply (Hupd _ e); try done|].
    { rewrite Hs, H0. by rewrite decide_False by by intros []. }
    destruct (sc_pos s) as [p|]; cbn; [destruct Hpos; split; [lia|done]|].
    split; [lia|congruence].
  - assert (<[n:=0]> (sc_table s) !! n = Some 0) by (apply list_lookup_insert_eq; lia).
    split_and!; cbn; [done|by rewrite length_insert|apply (Hupd _ e); try done|].
    { intros j Hj. by rewrite list_lookup_insert_ne. }
    { by rewrite decide_True. }
    destruct (sc_pos s) as [p|]; cbn; [|split; [lia|done]]. destruct Hpos as [Hp Hp0].
    split; [lia|]. by rewrite list_lookup_insert_ne by lia.
  - split_and!; [done|done|apply (Hupd _ e); try done|].
    { by rewrite decide_False. }
    destruct (sc_pos s) as [p|]; [destruct Hpos; split; [lia|done]|].
    intros j x Hj Hx. destruct (decide (j = n)) as [->|]; [|apply (Hpos j); [lia|done]].
    rewrite Hlk in Hx. injection Hx as <-. done.
Qed.

Lemma scan_all t g len entry :
  mask_only t → 0 ≤ g → 0 ≤ len → g + len < 2 ^ 64 →
  scan_inv t g len entry LOCAL_CL_TABLE_SIZE
    (insert_length_scan g len (MkScan (table t) entry None)).
Proof.
  intros Hmo Hg Hlen Hmax. unfold insert_length_scan.
  assert (∀ n, (n ≤ LOCAL_CL_TABLE_SIZE)%nat →
    scan_inv t g len entry n
      (foldl (insert_length_body g len) (MkScan (table t) entry None) (seq 0 n))) as H;
    [|by apply H].
  induction n as [|n IH]; intros Hn.
  - split_and!; cbn; [done|done| |lia]. intros j e Hj. by rewrite decide_False by lia.
  - rewrite seq_S, foldl_app. cbn. apply scan_step; [done..|lia|]. apply IH. lia.
Qed.

Lemma mask_wf_covers_group e l : mask_wf e → covers e l = true → l / 16 = get_index e.
Proof.
  intros (i & m & -> & Hi & Hm & _). rewrite covers_mask by done.
  destruct (mask_entry_fields i m Hi Hm) as (_ & -> & _). by intros [? _].
Qed.

Lemma insert_length_spec g len t :
  mask_only t → in_word GROUP_INDEX_SHIFT g → 0 < len ≤ GROUP_LEN_MAX →
  let '(full, t') := insert_length g len t in
  if full then t' = t
  else table_wf t' ∧ ∀ l, table_covers t' l = true ↔ table_covers t l = true ∨ groups g len l.
Proof.
  intros Hmo Hg Hlen. pose proof len_max_bound. pose proof group_index_shift_range.
  pose proof (Z.pow_le_mono_r 2 GROUP_INDEX_SHIFT 38). destruct Hmo as [Hsize Hall].
  pose proof (scan_all t g len (length_entry g len) (conj Hsize Hall)) as Hscan.
  unfold insert_length. fold (length_entry g len).
  destruct (insert_length_scan _ _ _) as [tab entry pos].
  destruct Hscan as (He & Hl & Htab & Hpos); [destruct Hg; lia..|]. cbn in *. subst entry.
  destruct pos as [p|]; cbn.
  - destruct Hpos as [Hp Hp0]. split.
    { split; cbn; [rewrite length_insert; lia|]. apply Forall_insert; [|right; left; exists g, len; split_and!; done || lia].
      apply Forall_lookup. intros j x Hx. destruct (lookup_lt_is_Some_2 (table t) j) as [e Hte].
      { rewrite <- Hl. by eapply lookup_lt_Some. }
      rewrite (Htab _ _ Hte) in Hx. injection Hx as <-. case_decide; [by left|].
      destruct (Forall_lookup_1 _ _ _ _ Hall Hte) as [?|?]; [by left|by right; right]. }
    intros l. unfold table_covers at 1. cbn.
    rewrite (existsb_insert _ _ _ 0 _ (groups g len l)); [|done|].
    2: { rewrite covers_length, covers_0 by (done || lia). unfold groups. naive_solver. }
    unfold table_covers. rewrite !existsb_lookup. split.
    + intros [(j & x & Hj & Hx)|?]; [left|by right].
      destruct (lookup_lt_is_Some_2 (table t) j) as [e Hte].
      { rewrite <- Hl. by eapply lookup_lt_Some. }
      rewrite (Htab _ _ Hte) in Hj. case_decide; simplify_eq; [|by eauto].
      by rewrite covers_0 in Hx.
    + intros [(j & e & Hj & Hx)|?]; [|by right].
      destruct (decide ((j < LOCAL_CL_TABLE_SIZE)%nat ∧ killed g len e)) as [[_ Hk]|Hk].
      * right. destruct (Forall_lookup_1 _ _ _ _ Hall Hj) as [|Hwf]; [by destruct Hk|].
        unfold groups. rewrite (mask_wf_covers_group e) by done. apply Hk.
      * left. exists j, e. by rewrite (Htab _ _ Hj), decide_False.
  - unfold set_table. destruct t as [tab0 c b]. cbn in *. f_equal.
    apply list_eq_same_length with (length tab0); [done|done|].
    intros j x y _ Hx Hy. rewrite (Htab _ _ Hy) in Hx.
    destruct (Hpos j y) as [_ Hnk]; [apply lookup_lt_Some in Hy; lia|done|].
    rewrite decide_False in Hx by tauto. congruence.
Qed.

Lemma insert_lengths_spec fuel g len t :
  mask_only t → in_word GROUP_INDEX_SHIFT g → 0 < len ≤ GROUP_LEN_MAX →
  ∃ stuck t', insert_lengths (S fuel) g len t = Some (stuck, t') ∧
  match stuck with
  | None => table_wf t' ∧ ∀ l, table_covers t' l = true ↔ table_covers t l = true ∨ groups g len l
  | Some bi => bi = g ∧ t' = t
  end.
Proof.
  intros Hmo Hg Hlen. cbn [insert_lengths].
  rewrite (proj2 (Z.eqb_neq len 0)) by lia.
  assert (len &w GROUP_LEN_MAX = len) as ->.
  { pose proof group_index_shift_range.
    rewrite GROUP_LEN_MAX_eq, Z.land_ones, Z.mod_small; [done|apply len_max_word; lia|lia]. }
  pose proof (insert_length_spec g len t Hmo Hg Hlen) as H.
  destruct (insert_length g len t) as [[] t']; [by exists (Some g), t'|].
  exists None, t'. split; [|done]. unfold sub64. rewrite Z.sub_diag. by destruct fuel.
Qed.
End range_facts.

(** ** Lemmas: [range_insert] *)

Section range_insert_facts.
Context `{cfg : Config} {ok : ConfigOk cfg}.
Implicit Types (t : LocalCLTable) (b e l : Z).

(** The lines [range_insert b e] marks: whole groups before the group of [e],
    and of that last group the line [e] alone. *)
Definition marks (b e l : Z) : Prop := b ≤ l < 16 * (e / 16) ∨ (l = e ∧ e mod 16 ≠ 0).

Definition line_in_range (l : Z) : Prop := in_word (GROUP_INDEX_SHIFT + 4) l.

Lemma line_bounds l : line_in_range l → 0 ≤ l < 16 * 2 ^ GROUP_INDEX_SHIFT.
Proof.
  intros [H0 H1]. pose proof group_index_shift_range. rewrite Z.pow_add_r in H1 by lia. lia.
Qed.

Lemma line_in_range_intro l e : line_in_range e → 0 ≤ l ≤ e → line_in_range l.
Proof. unfold line_in_range, in_word. lia. Qed.

Lemma shr_group l : l >>w GROUP_SIZE_SHIFT = l / 16.
Proof. unfold shr64, GROUP_SIZE_SHIFT. by rewrite Z.shiftr_div_pow2. Qed.

Lemma land_group l : l &w GROUP_SIZE_MASK = l mod 16.
Proof. change GROUP_SIZE_MASK with (Z.ones 4). by rewrite Z.land_ones. Qed.

Lemma bit_nonzero m i : Z.testbit m i = true → m ≠ 0.
Proof. intros H ->. by rewrite Z.bits_0 in H. Qed.

Lemma line_group l : line_in_range l → in_word GROUP_INDEX_SHIFT (l / 16).
Proof. intros H%line_bounds. split; divlia. Qed.

Lemma begin_mask_spec b :
  let m := (FULL_MASK <<w (b mod 16)) &w FULL_MASK in
  in_word 16 m ∧ (∀ i, 0 ≤ i → Z.testbit m i = (b mod 16 <=? i) && (i <? 16)).
Proof.
  intros m. pose proof (Z.mod_pos_bound b 16). unfold m. rewrite FULL_MASK_eq.
  assert (∀ i, 0 ≤ i → Z.testbit (Z.land (Z.ones 16 <<w (b mod 16)) (Z.ones 16)) i =
            (b mod 16 <=? i) && (i <? 16)) as Hbits.
  { intros i Hi. unfold shl64. autorewrite with bits.
    destruct (Z.leb_spec (b mod 16) i).
    - rewrite testbit_ones_ltb by lia. split_ltb; done.
    - rewrite Z.testbit_neg_r by lia. by rewrite andb_false_r. }
  split; [|done]. rewrite Z.land_comm.
  apply in_word_land; [lia|split; vm_compute; congruence|apply wrap_range; lia].
Qed.

Lemma end_mask_spec e :
  let m := 1 <<w (e mod 16) in
  in_word 16 m ∧ m ≠ 0 ∧ ∀ l, in_mask (e / 16) m l ↔ l = e.
Proof.
  intros m. pose proof (Z.mod_pos_bound e 16). unfold m. rewrite one_shl64 by lia.
  pose proof (Z.pow_lt_mono_r 2 (e mod 16) 16). pose proof (pow2_pos (e mod 16)).
  split_and!; [split; lia|lia|]. intros l. unfold in_mask.
  rewrite testbit_pow2, Z.eqb_eq by lia. divlia.
Qed.

(** Both ends on a group boundary. *)
Lemma range_groups_spec fuel b e t :
  mask_only t → line_in_range b → line_in_range e → b mod 16 = 0 → e mod 16 = 0 →
  b ≤ e → (e - b) / 16 ≤ GROUP_LEN_MAX →
  ∃ full b' e' t', range_insert_groups (S fuel) b e t = Some (full, b', e', t') ∧
    (full = true → mask_only t' ∧ line_in_range b' ∧ line_in_range e' ∧ b ≤ b' ≤ e' ∧ e' ≤ e) ∧ table_wf t' ∧
    ∀ l, table_covers t' l = true ∨ (full = true ∧ marks b' e' l) ↔
         table_covers t l = true ∨ marks b e l.
Proof.
  intros Hmo Hb He Hbm Hem Hle Hlen. pose proof (line_bounds b Hb). pose proof (line_bounds e He).
  pose proof group_index_shift_range. pose proof (Z.pow_le_mono_r 2 GROUP_INDEX_SHIFT 38).
  unfold range_insert_groups. rewrite !shr_group.
  assert (e / 16 -w b / 16 = e / 16 - b / 16) as -> by (apply wrap_small; split; divlia).
  assert (∀ g, 0 ≤ g → g ≤ e / 16 → g <<w GROUP_SIZE_SHIFT = 16 * g) as Hshl.
  { intros g ??. unfold GROUP_SIZE_SHIFT.
    rewrite (shl64_fits g 4 39); [|lia|split; divlia|lia].
    rewrite Z.shiftl_mul_pow2; lia. }
  destruct (Z.ltb_spec (e / 16 - b / 16) GROUP_LEN_MIN) as [Hs|Hl]; cbn [mbind option_bind].
  - pose proof (insert_groups_spec (Z.to_nat (e / 16 - b / 16)) (b / 16) t Hmo) as Hg.
    rewrite Z2Nat.id in Hg by divlia. specialize (Hg ltac:(divlia) ltac:(divlia)).
    destruct (insert_groups _ _ _) as [[bi|] t']; destruct Hg as [Hmo' Hg].
    + destruct Hg as [Hbi Hcov]. eexists _, _, _, _. split; [done|]. rewrite Hshl by divlia.
      split; [intros _; split_and!; [done|apply line_in_range_intro with e; [done|divlia]|done|divlia..|lia]|].
      split; [by apply mask_only_wf|]. intros l. rewrite Hcov. unfold marks, groups. destruct (table_covers t l); intuition divlia.
    + eexists _, _, _, _. split; [done|]. split; [done|]. split; [by apply mask_only_wf|].
      intros l. rewrite Hg. unfold marks, groups. destruct (table_covers t l); intuition divlia.
  - destruct (insert_lengths_spec fuel (b / 16) (e / 16 - b / 16) t Hmo) as (stuck & t' & -> & Hg);
      [by apply line_group|unfold GROUP_LEN_MIN in Hl; divlia|]. cbn [mbind option_bind].
    destruct stuck as [bi|].
    + destruct Hg as [-> ->]. eexists _, _, _, _. split; [done|].
      rewrite Hshl by divlia.
      split; [intros _; split_and!; [done|apply line_in_range_intro with e; [done|divlia]|done|divlia..|lia]|].
      split; [by apply mask_only_wf|]. intros l. unfold marks. destruct (table_covers t l); intuition divlia.
    + destruct Hg as [Hwf Hg]. eexists _, _, _, _. split; [done|]. split; [done|]. split; [done|].
      intros l. rewrite Hg. unfold marks, groups. destruct (table_covers t l); intuition divlia.
Qed.

(** What one call promises: the call returns; a full table leaves a smaller
    range whose marks, with the new table, make up the old table and marks. *)
Definition range_result (b e : Z) (t : LocalCLTable)
    (r : option (bool * Z * Z * LocalCLTable)) : Prop :=
  ∃ full b' e' t', r = Some (full, b', e', t') ∧
    (full = true → mask_only t' ∧ line_in_range b' ∧ line_in_range e' ∧ b ≤ b' ≤ e' ∧ e' ≤ e) ∧ table_wf t' ∧
    ∀ l, table_covers t' l = true ∨ (full = true ∧ marks b' e' l) ↔
         table_covers t l = true ∨ marks b e l.

(** A full table stops the call with nothing changed. *)
Lemma range_result_full b e t :
  mask_only t → line_in_range b → line_in_range e → b ≤ e →
  range_result b e t (Some (true, b, e, t)).
Proof.
  intros. eexists _, _, _, _. split; [done|]. split; [intros _; split_and!; done || lia|].
  split; [by apply mask_only_wf|]. intros l. naive_solver.
Qed.

(** A result for the rest of a range, after a part of its marks is stored. *)
Lemma range_result_after b e t b1 e1 t1 r :
  range_result b1 e1 t1 r → b ≤ b1 → e1 ≤ e →
  (∀ l, table_covers t1 l = true ∨ marks b1 e1 l ↔ table_covers t l = true ∨ marks b e l) →
  range_result b e t r.
Proof.
  intros (full & b' & e' & t' & -> & Hfull & Hwf & Hcov) Hb He Hm.
  eexists _, _, _, _. split; [done|]. split; [|split; [done|]].
  - intros Hf. destruct (Hfull Hf) as (?&?&?&?&?). split_and!; done || lia.
  - intros l. by rewrite Hcov, Hm.
Qed.

Lemma range_insert_end_spec fuel b e t :
  mask_only t → line_in_range b → line_in_range e → b mod 16 = 0 → b ≤ e →
  e / 16 - b / 16 ≤ GROUP_LEN_MAX →
  range_result b e t (range_insert_end (S fuel) b e t).
Proof.
  intros Hmo Hb He Hbm Hle Hlen. unfold range_insert_end. rewrite land_group, shr_group.
  pose proof (line_bounds e He). pose proof group_index_shift_range.
  pose proof (Z.pow_le_mono_r 2 GROUP_INDEX_SHIFT 38).
  destruct (Z.eqb_spec (e mod 16) 0) as [Hem|Hem]; cbn [negb].
  - destruct (range_groups_spec fuel b e t) as (full & b' & e' & t' & -> & Hf & Hc);
      try done; [divlia|]. eexists _, _, _, _. done.
  - destruct (end_mask_spec e) as (Hw & Hne & Hin).
    pose proof (insert_mask_spec (e / 16) _ t (line_group e He) Hw Hne (mask_only_wf t Hmo)) as Hs.
    destruct (insert_mask _ _ t) as [[] t1].
    + destruct Hs as [-> _]. by apply range_result_full.
    + destruct Hs as (_ & _ & Hs). destruct (Hs Hmo) as [Hmo1 Hcov1].
      assert (e -w e mod 16 = 16 * (e / 16)) as -> by (unfold sub64; rewrite wrap_small; [|split]; divlia).
      apply range_result_after with b (16 * (e / 16)) t1; [|done|divlia|].
      * destruct (range_groups_spec fuel b (16 * (e / 16)) t1)
          as (full & b' & e' & t' & -> & Hf & Hc); try done;
          [apply line_in_range_intro with e; [done|]|..]; try divlia.
        eexists _, _, _, _. done.
      * intros l. rewrite Hcov1, Hin. unfold marks.
        destruct (table_covers t l); intuition divlia.
Qed.

Lemma begin_end_mask b e :
  b / 16 = e / 16 → b ≤ e →
  ((FULL_MASK <<w (b mod 16)) &w FULL_MASK) &w (1 <<w (e mod 16)) = 1 <<w (e mod 16).
Proof.
  intros Hg Hle. destruct (begin_mask_spec b) as [_ Hbits].
  pose proof (Z.mod_pos_bound e 16). rewrite one_shl64 by lia.
  apply Z.bits_inj'. intros i Hi. rewrite Z.land_spec, Hbits, testbit_pow2 by lia.
  destruct (Z.eqb_spec (e mod 16) i) as [<-|]; [|by rewrite andb_false_r].
  destruct (Z.leb_spec (b mod 16) (e mod 16)); [|divlia].
  destruct (Z.ltb_spec (e mod 16) 16); [done|lia].
Qed.

Lemma range_insert_spec fuel b e t :
  mask_only t → line_in_range b → line_in_range e → b ≤ e →
  (e - b) / 16 ≤ GROUP_LEN_MAX →
  range_result b e t (range_insert (S fuel) b e t).
Proof.
  intros Hmo Hb He Hle Hlen. unfold range_insert. rewrite !land_group, !shr_group.
  pose proof (line_bounds e He). pose proof (line_bounds b Hb). pose proof group_index_shift_range.
  pose proof (Z.pow_le_mono_r 2 GROUP_INDEX_SHIFT 38).
  destruct (Z.eqb_spec (b mod 16) 0) as [Hbm|Hbm]; cbn [negb].
  { apply range_insert_end_spec; try done. divlia. }
  destruct (Z.eqb_spec (b / 16) (e / 16)) as [Hg|Hg].
  - rewrite begin_end_mask by done. destruct (end_mask_spec e) as (Hw & Hne & Hin).
    rewrite Hg.
    pose proof (insert_mask_spec (e / 16) _ t (line_group e He) Hw Hne (mask_only_wf t Hmo)) as Hs.
    destruct (insert_mask _ _ t) as [[] t1].
    + destruct Hs as [-> _]. by apply range_result_full.
    + destruct Hs as (_ & _ & Hs). destruct (Hs Hmo) as [Hmo1 Hcov1].
      eexists _, _, _, _. split; [done|]. split; [done|]. split; [by apply mask_only_wf|].
      intros l. rewrite Hcov1, Hin. unfold marks.
      destruct (table_covers t l); intuition divlia.
  - destruct (begin_mask_spec b) as [Hw Hbits].
    assert (∀ l, in_mask (b / 16) ((FULL_MASK <<w (b mod 16)) &w FULL_MASK) l ↔
                 b ≤ l < 16 * (b / 16) + 16) as Hin.
    { intros l. unfold in_mask. pose proof (Z.mod_pos_bound l 16).
      rewrite Hbits, andb_true_iff, Z.leb_le, Z.ltb_lt by lia. divlia. }
    assert ((FULL_MASK <<w (b mod 16)) &w FULL_MASK ≠ 0) as Hne.
    { apply (bit_nonzero _ (b mod 16)). pose proof (Z.mod_pos_bound b 16).
      rewrite Hbits, Z.leb_refl by lia. apply Z.ltb_lt. lia. }
    pose proof (insert_mask_spec (b / 16) _ t (line_group b Hb) Hw Hne (mask_only_wf t Hmo)) as Hs.
    destruct (insert_mask _ _ t) as [[] t1].
    + destruct Hs as [-> _]. by apply range_result_full.
    + destruct Hs as (_ & _ & Hs). destruct (Hs Hmo) as [Hmo1 Hcov1].
      assert (b +w (GROUP_SIZE -w b mod 16) = 16 * (b / 16 + 1)) as ->.
      { rewrite GROUP_SIZE_eq. unfold sub64, add64. rewrite wrap_add_r, wrap_small; [|split]; divlia. }
      apply range_result_after with (16 * (b / 16 + 1)) e t1; [|divlia|done|].
      * apply range_insert_end_spec; try done;
          [apply line_in_range_intro with e; [done|]|..]; divlia.
      * intros l. rewrite Hcov1, Hin. unfold marks.
        destruct (table_covers t l); intuition divlia.
Qed.

(** The [while(len)] loop does not finish on a run that is a multiple of
    [GROUP_LEN_MAX + 1]: the masked length of its iterations is 0. *)
Lemma insert_lengths_stuck fuel g k t r :
  0 < k < 2 ^ 34 →
  insert_lengths fuel g (k * (GROUP_LEN_MAX + 1)) t = Some r → r.1 ≠ None.
Proof.
  intros Hk. pose proof group_index_shift_range.
  assert (GROUP_LEN_MAX + 1 = 2 ^ (63 - GROUP_INDEX_SHIFT)) as Hmax
    by (rewrite GROUP_LEN_MAX_eq, Z.ones_equiv; lia).
  pose proof (pow2_pos (63 - GROUP_INDEX_SHIFT)).
  assert ((k * (GROUP_LEN_MAX + 1)) &w GROUP_LEN_MAX = 0) as Hland.
  { rewrite Hmax, GROUP_LEN_MAX_eq, Z.land_ones, Z.mod_mul by lia. done. }
  assert (0 < k * (GROUP_LEN_MAX + 1) < 2 ^ 64) as Hrange.
  { rewrite Hmax. pose proof (Z.pow_le_mono_r 2 (63 - GROUP_INDEX_SHIFT) 30).
    change (2 ^ 64) with (2 ^ 34 * 2 ^ 30). nia. }
  revert g t. induction fuel as [|fuel IH]; intros g t; cbn [insert_lengths];
    rewrite (proj2 (Z.eqb_neq _ 0)) by lia; [done|].
  rewrite Hland. destruct (insert_length g 0 t) as [[] t'].
  - by intros [= <-].
  - unfold sub64. rewrite Z.sub_0_r, wrap_small by (split; lia). apply IH.
Qed.
End range_insert_facts.

(** ** Lemmas: any well-formed table stays well formed *)

Section wf_facts.
Context `{cfg : Config} {ok : ConfigOk cfg}.
Implicit Types (t : LocalCLTable) (g len b e : Z).

(** The scan keeps the words typed, whatever runs it coalesces. *)
Definition scan_wf (s : scan) : Prop :=
  length (sc_table s) = LOCAL_CL_TABLE_SIZE ∧ Forall entry_wf (sc_table s) ∧
  length_wf (sc_entry s).

Lemma insert_length_body_wf g len s i :
  in_word GROUP_INDEX_SHIFT g → 0 < len ≤ GROUP_LEN_MAX →
  scan_wf s → scan_wf (insert_length_body g len s i).
Proof.
  intros Hg Hlen (Hl & Hall & He). unfold insert_length_body.
  assert (entry_wf (slot (sc_table s) i)) as Hv.
  { unfold slot. destruct (sc_table s !! i) eqn:E; [by eapply Forall_lookup_1|by left]. }
  assert (∀ en pos, length_wf en → scan_wf (MkScan (<[i := 0]> (sc_table s)) en pos)) as Hset.
  { intros. split_and!; cbn; [by rewrite length_insert|apply Forall_insert; [done|by left]|done]. }
  destruct (Z.eqb_spec (slot (sc_table s) i) 0) as [|Hne]; [done|].
  destruct Hv as [|[(idx & n & -> & Hi & Hn)|(idx & m & -> & Hi & Hm & _)]]; [done| |].
  - destruct (length_entry_fields idx n) as (-> & -> & ->); [done|lia|].
    case_match; [|done]. apply Hset. by apply try_coalesce_spec.
  - destruct (mask_entry_fields idx m) as (-> & -> & _); [done..|]. case_match; [by apply Hset|done].
Qed.

Lemma insert_length_wf g len t :
  in_word GROUP_INDEX_SHIFT g → 0 < len ≤ GROUP_LEN_MAX →
  table_wf t → table_wf (insert_length g len t).2.
Proof.
  intros Hg Hlen [Hl Hall]. unfold insert_length. fold (length_entry g len).
  assert (scan_wf (insert_length_scan g len (MkScan (table t) (length_entry g len) None)))
    as (Hl' & Hall' & He).
  { unfold insert_length_scan. generalize (seq 0 LOCAL_CL_TABLE_SIZE). intros js.
    assert (scan_wf (MkScan (table t) (length_entry g len) None)) as Hs
      by (split_and!; [done..|by exists g, len]).
    revert Hs. generalize (MkScan (table t) (length_entry g len) None).
    induction js as [|j js IH]; intros s Hs; [done|]. by apply IH, insert_length_body_wf. }
  destruct (sc_pos _); [|done]. split; cbn; [by rewrite length_insert|].
  apply Forall_insert; [done|]. right; by left.
Qed.

Lemma insert_mask_wf g mask t :
  in_word GROUP_INDEX_SHIFT g → in_word 16 mask → mask ≠ 0 →
  table_wf t → table_wf (insert_mask g mask t).2.
Proof.
  intros Hg Hm Hne Hwf. pose proof (insert_mask_spec g mask t Hg Hm Hne Hwf) as H.
  destruct (insert_mask g mask t) as [[] t']; [by destruct H as [-> _]|apply H].
Qed.

Lemma insert_groups_wf n g t :
  table_wf t → 0 ≤ g → g + Z.of_nat n ≤ 2 ^ GROUP_INDEX_SHIFT → table_wf (insert_groups n g t).2.
Proof.
  pose proof group_index_shift_range. pose proof (Z.pow_le_mono_r 2 GROUP_INDEX_SHIFT 38).
  destruct full_mask_word as [Hw Hne].
  revert g t. induction n as [|n IH]; intros g t Hwf Hg Hmax; cbn [insert_groups]; [done|].
  pose proof (insert_mask_wf g FULL_MASK t ltac:(split; lia) Hw Hne Hwf) as H1.
  destruct (insert_mask g FULL_MASK t) as [[] t1]; [done|].
  assert (g +w 1 = g + 1) as -> by (apply wrap_small; split; lia). apply IH; [done|lia..].
Qed.

Lemma insert_lengths_wf fuel g len t r :
  table_wf t → in_word GROUP_INDEX_SHIFT g → 0 ≤ len ≤ GROUP_LEN_MAX →
  insert_lengths fuel g len t = Some r → table_wf r.2.
Proof.
  intros Hwf Hg Hlen. destruct fuel as [|fuel]; cbn [insert_lengths];
    destruct (Z.eqb_spec len 0); [by intros [= <-]|done|by intros [= <-]|].
  assert (len &w GROUP_LEN_MAX = len) as ->.
  { pose proof group_index_shift_range.
    rewrite GROUP_LEN_MAX_eq, Z.land_ones, Z.mod_small; [done|by apply len_max_word|lia]. }
  pose proof (insert_length_wf g len t Hg ltac:(lia) Hwf) as H.
  destruct (insert_length g len t) as [[] t']; [by intros [= <-]|].
  unfold sub64. rewrite Z.sub_diag. destruct fuel; by intros [= <-].
Qed.

Lemma range_insert_groups_wf fuel b e t full b' e' t' :
  table_wf t → line_in_range b → line_in_range e → b / 16 ≤ e / 16 →
  e / 16 - b / 16 ≤ GROUP_LEN_MAX →
  range_insert_groups fuel b e t = Some (full, b', e', t') → table_wf t'.
Proof.
  intros Hwf Hb He Hle Hlen. pose proof (line_group b Hb) as Hgb. pose proof (line_group e He) as Hge.
  pose proof group_index_shift_range. pose proof (Z.pow_le_mono_r 2 GROUP_INDEX_SHIFT 38).
  destruct Hgb, Hge. unfold range_insert_groups. rewrite !shr_group.
  assert (e / 16 -w b / 16 = e / 16 - b / 16) as -> by (apply wrap_small; split; lia).
  case_match.
  - pose proof (insert_groups_wf (Z.to_nat (e / 16 - b / 16)) (b / 16) t Hwf ltac:(done) ltac:(lia)) as Hg.
    destruct (insert_groups _ _ _) as [[] t1]; cbn [mbind option_bind]; by intros [= <- <- <- <-].
  - destruct (insert_lengths _ _ _ _) as [[stuck t1]|] eqn:E; [|done]. cbn [mbind option_bind].
    apply insert_lengths_wf in E; [|done|split; lia|lia].
    destruct stuck; by intros [= <- <- <- <-].
Qed.

Lemma range_insert_end_wf fuel b e t full b' e' t' :
  table_wf t → line_in_range b → line_in_range e → b / 16 ≤ e / 16 →
  e / 16 - b / 16 ≤ GROUP_LEN_MAX →
  range_insert_end fuel b e t = Some (full, b', e', t') → table_wf t'.
Proof.
  intros Hwf Hb He Hle Hlen. unfold range_insert_end. rewrite land_group, shr_group.
  pose proof (line_bounds e He). pose proof group_index_shift_range.
  pose proof (Z.pow_le_mono_r 2 GROUP_INDEX_SHIFT 38).
  destruct (Z.eqb_spec (e mod 16) 0) as [Hem|Hem]; cbn [negb].
  { by apply range_insert_groups_wf. }
  destruct (end_mask_spec e) as (Hw & Hne & _).
  pose proof (insert_mask_wf (e / 16) _ t (line_group e He) Hw Hne Hwf) as Hs.
  destruct (insert_mask _ _ t) as [[] t1]; [by intros [= <- <- <- <-]|].
  assert (e -w e mod 16 = 16 * (e / 16)) as -> by (unfold sub64; rewrite wrap_small; [|split]; divlia).
  apply range_insert_groups_wf; [done|done|apply line_in_range_intro with e; [done|]|..]; divlia.
Qed.

Lemma range_insert_wf fuel b e t full b' e' t' :
  table_wf t → line_in_range b → line_in_range e → b ≤ e →
  (e - b) / 16 ≤ GROUP_LEN_MAX →
  range_insert fuel b e t = Some (full, b', e', t') → table_wf t'.
Proof.
  intros Hwf Hb He Hle Hlen. unfold range_insert. rewrite !land_group, !shr_group.
  pose proof (line_bounds e He). pose proof (line_bounds b Hb). pose proof group_index_shift_range.
  pose proof (Z.pow_le_mono_r 2 GROUP_INDEX_SHIFT 38).
  destruct (Z.eqb_spec (b mod 16) 0) as [Hbm|Hbm]; cbn [negb].
  { apply range_insert_end_wf; [done..| |]; divlia. }
  destruct (Z.eqb_spec (b / 16) (e / 16)) as [Hg|Hg].
  - rewrite begin_end_mask by done. destruct (end_mask_spec e) as (Hw & Hne & _). rewrite Hg.
    pose proof (insert_mask_wf (e / 16) _ t (line_group e He) Hw Hne Hwf) as Hs.
    destruct (insert_mask _ _ t) as [[] t1]; by intros [= <- <- <- <-].
  - destruct (begin_mask_spec b) as [Hw Hbits].
    assert ((FULL_MASK <<w (b mod 16)) &w FULL_MASK ≠ 0) as Hne.
    { apply (bit_nonzero _ (b mod 16)). pose proof (Z.mod_pos_bound b 16).
      rewrite Hbits, Z.leb_refl by lia. apply Z.ltb_lt. lia. }
    pose proof (insert_mask_wf (b / 16) _ t (line_group b Hb) Hw Hne Hwf) as Hs.
    destruct (insert_mask _ _ t) as [[] t1]; [by intros [= <- <- <- <-]|].
    assert (b +w (GROUP_SIZE -w b mod 16) = 16 * (b / 16 + 1)) as ->.
    { rewrite GROUP_SIZE_eq. unfold sub64, add64. rewrite wrap_add_r, wrap_small; [|split]; divlia. }
    apply range_insert_end_wf; [done|apply line_in_range_intro with e; [done|]|done|..]; divlia.
Qed.
End wf_facts.

(** ** Properties *)

(** C29: a single-line [insert] into a well-formed table never loses a dirty
    line: when it returns false the table is well formed and covers every line
    it covered before and the inserted one, and nothing else if the table had
    mask entries only; when it returns true the table is unchanged and every
    probed slot belongs to another group. *)
Theorem insert_records_line `{cfg : Config} (ok : ConfigOk cfg) (t : LocalCLTable)
    (fuel : nat) (cl : Z) :
  LOCAL_CL_TABLE_BUFFER = false → table_wf t → in_word (GROUP_INDEX_SHIFT + 4) cl →
  ∃ full t', insert fuel cl t = Some (full, t') ∧
    if (full : bool)
    then t' = t ∧ ∀ j, (j < LOCAL_CL_TABLE_SEARCH_ITERS)%nat →
                       slot_taken t (cl / GROUP_SIZE) j
    else table_wf t' ∧
      (∀ l, table_covers t l = true ∨ l = cl → table_covers t' l = true) ∧
      (mask_only t → mask_only t' ∧
        ∀ l, table_covers t' l = true ↔ table_covers t l = true ∨ l = cl).
Proof.
  intros Hbuf Hwf Hcl. unfold insert. rewrite Hbuf.
  destruct (insert_args cl Hcl) as (Hg & Hm & Hne & Hiff).
  pose proof (insert_mask_spec _ _ t Hg Hm Hne Hwf) as Hspec.
  destruct (insert_mask _ _ t) as [full t']. eexists _, _. split; [done|].
  rewrite GROUP_SIZE_eq. change 16 with (2 ^ 4). rewrite <- Z.shiftr_div_pow2 by lia.
  destruct full; [done|]. by setoid_rewrite Hiff in Hspec.
Qed.

Lemma insert_records_line_witness :
  let cfg := default_config in
  ∃ t', insert 0 1000 table_init = Some (false, t') ∧ table_covers t' 1000 = true.
Proof.
  intros cfg.
  destruct (insert_records_line default_config_ok table_init 0 1000)
    as (full & t' & Hi & Hr); [reflexivity|apply mask_only_wf, mask_only_init|
    split; vm_compute; congruence|].
  destruct full; [vm_compute in Hi; discriminate|].
  exists t'. split; [exact Hi|]. apply (proj1 (proj2 Hr)). right. reflexivity.
Defined.

(** C30: one call of [range_insert] on a table of mask entries and a range of at
    most [GROUP_LEN_MAX] groups returns, and marks exactly the lines [marks]
    names: every line from [begin] up to the last group boundary at or below
    [end], and the line [end] itself when it is not on a boundary. When it
    reports a full table, the range left in its reference parameters, together
    with the table, stands for the same lines, so the caller can clear the
    table and retry; the table is well formed in both cases. *)
Theorem range_insert_marks `{cfg : Config} (ok : ConfigOk cfg) (fuel : nat) (b e : Z)
    (t : LocalCLTable) :
  mask_only t → line_in_range b → line_in_range e → b ≤ e →
  (e - b) / GROUP_SIZE ≤ GROUP_LEN_MAX →
  ∃ full b' e' t', range_insert (S fuel) b e t = Some (full, b', e', t') ∧
    (full = true → mask_only t' ∧ line_in_range b' ∧ line_in_range e' ∧ b ≤ b' ≤ e' ∧ e' ≤ e) ∧ table_wf t' ∧
    ∀ l, table_covers t' l = true ∨ (full = true ∧ marks b' e' l) ↔
         table_covers t l = true ∨ marks b e l.
Proof. intros. by apply range_insert_spec. Qed.

Lemma range_insert_marks_witness :
  let cfg := default_config in
  ∃ b' e' t', range_insert 1 3 37 table_init = Some (false, b', e', t') ∧
    table_covers t' 3 = true ∧ table_covers t' 37 = true.
Proof.
  intros cfg.
  destruct (range_insert_marks default_config_ok 0 3 37 table_init)
    as (full & b' & e' & t' & H & _ & _ & Hc);
    [apply mask_only_init|split; vm_compute; congruence|split; vm_compute; congruence|
     lia|vm_compute; congruence|].
  destruct full; [vm_compute in H; discriminate|]. exists b', e', t'. split; [exact H|].
  split; [destruct (proj2 (Hc 3)) as [?|[? _]]|destruct (proj2 (Hc 37)) as [?|[? _]]];
    try assumption; try discriminate; right; unfold marks; vm_compute.
  - left. split; congruence.
  - right. split; [reflexivity|congruence].
Defined.

(** The life of a table in the build without the coalescing buffer: line
    inserts, clearing, and range inserts of at most [GROUP_LEN_MAX] whole groups,
    on a table of any contents. The code tests neither end nor length of a range;
    what a longer one does is [range_insert_stores_empty_run]. *)
Inductive table_use `{cfg : Config} : LocalCLTable → Prop :=
  | use_init : table_use table_init
  | use_insert t t' fuel cl full :
      table_use t → line_in_range cl → insert fuel cl t = Some (full, t') → table_use t'
  | use_range t t' fuel b e b' e' full :
      table_use t → line_in_range b → line_in_range e → b ≤ e → (e - b) / GROUP_SIZE ≤ GROUP_LEN_MAX →
      range_insert fuel b e t = Some (full, b', e', t') → table_use t'
  | use_clear t : table_use t → table_use (clear_table t).

(** The two types of a word of the log. *)
Definition word_typed `{cfg : Config} (e : Z) : Prop :=
  u64 e ∧ in_word GROUP_INDEX_SHIFT (get_index e) ∧
  if is_length_based e then 0 < get_length e ≤ GROUP_LEN_MAX else in_word 16 (get_mask16 e) ∧ get_mask16 e ≠ 0.

Lemma entry_wf_typed `{cfg : Config} {ok : ConfigOk cfg} e : entry_wf e → e = 0 ∨ word_typed e.
Proof.
  pose proof group_index_shift_range.
  assert (∀ idx, in_word GROUP_INDEX_SHIFT idx → u64 idx) as Hidx by (intros; by apply (in_word_mono GROUP_INDEX_SHIFT); [lia|]).
  assert (∀ a n, u64 (a <<w n)) as Hshl by (intros; by apply wrap_range).
  intros [->|[(idx & len & -> & Hi & Hl)|(idx & mask & -> & Hi & Hm & H0)]]; [by left|right..]; split.
  - unfold length_entry. rewrite TYPE_MASK_eq. apply in_word_lor; [lia| |split; lia]. by apply in_word_lor; [lia|apply Hidx|].
  - destruct (length_entry_fields idx len) as (-> & -> & ->); [done|lia|done].
  - unfold mask_entry. by apply in_word_lor; [lia|apply Hidx|].
  - by destruct (mask_entry_fields idx mask) as (-> & -> & ->).
Qed.

Lemma table_use_wf `{cfg : Config} {ok : ConfigOk cfg} t : LOCAL_CL_TABLE_BUFFER = false → table_use t → table_wf t.
Proof.
  intros Hbuf. induction 1 as [|t t' fuel cl full _ IH Hcl Hi|t t' fuel b e b' e' full _ IH Hb He Hbe Hlen Hr|t _ IH].
  - apply mask_only_wf, mask_only_init.
  - unfold insert in Hi. rewrite Hbuf in Hi. injection Hi as Hi.
    destruct (insert_args cl Hcl) as (Hg & Hm & Hne & _). pose proof (insert_mask_wf _ _ t Hg Hm Hne IH) as Hs.
    by rewrite Hi in Hs.
  - rewrite GROUP_SIZE_eq in Hlen. exact (range_insert_wf fuel b e t full b' e' t' IH Hb He Hbe Hlen Hr).
  - by apply mask_only_wf, mask_only_clear.
Qed.

(** C31: the words of a table are well typed, for a bounded use of it: in the
    build without [LOCAL_CL_TABLE_BUFFER], after any sequence of line inserts,
    [clear_table] calls and range inserts (on tables of any contents, runs
    included, whether they complete or stop on a full table) of lines of the
    address space with [begin <= end] and at most [GROUP_LEN_MAX] whole groups
    between them, every word is 0 or a 64-bit word of one of the two types: a run
    of groups with a length between 1 and [GROUP_LEN_MAX], also when runs were
    coalesced, or a mask of one group with a line in it; its group is within the
    address space. Without the bound on the range it is false, see
    [range_insert_stores_empty_run]. *)
Theorem table_words_typed `{cfg : Config} (ok : ConfigOk cfg) (t : LocalCLTable) (e : Z) :
  LOCAL_CL_TABLE_BUFFER = false → table_use t → e ∈ table_entries t → e = 0 ∨ word_typed e.
Proof.
  intros Hbuf Hu Hin. apply entry_wf_typed. destruct (table_use_wf t Hbuf Hu) as [_ Hall].
  by eapply Forall_forall in Hall.
Qed.

Lemma table_words_typed_witness :
  let cfg := default_config in
  ∃ t e, range_insert 1 3 37 table_init = Some (false, 32, 32, t) ∧ e ∈ table_entries t ∧ (e = 0 ∨ word_typed e).
Proof.
  intros cfg. destruct (range_insert 1 3 37 table_init) as [[[[full b'] e'] t]|] eqn:E; [|vm_compute in E; discriminate].
  destruct (table_entries t) as [|x es] eqn:Et; [vm_compute in E; injection E as _ _ _ <-; vm_compute in Et; discriminate|].
  exists t, x. split; [vm_compute in E |- *; congruence|]. split; [rewrite Et; left|].
  apply (table_words_typed default_config_ok t x); [reflexivity| |rewrite Et; left].
  apply (use_range table_init t 1 3 37 b' e' full); [apply use_init|split; vm_compute; congruence
    |split; vm_compute; congruence|lia|vm_compute; congruence|exact E].
Defined.

(** The bound on the range in [table_use] is needed: on [GROUP_LEN_MAX + 1] whole
    groups the length loop stores a run of length 0, whatever fuel it has. *)
Theorem range_insert_stores_empty_run :
  let cfg := default_config in
  let len := GROUP_LEN_MAX &w (GROUP_LEN_MAX + 1) in
  let t := (insert_length 0 len table_init).2 in
  ¬ word_typed (length_entry 0 len) ∧ length_entry 0 len ∈ table_entries t ∧
  ∀ fuel, insert_lengths (S fuel) 0 (GROUP_LEN_MAX + 1) table_init
          = insert_lengths fuel 0 (GROUP_LEN_MAX + 1) t.
Proof.
  intros cfg len t. split; [|split].
  - intros (_ & _ & H). revert H. vm_compute. intros [H _]. discriminate.
  - unfold table_entries. apply (list_elem_of_lookup_2 _ 0). vm_compute. reflexivity.
  - intros fuel. cbn [insert_lengths]. reflexivity.
Qed.

(** The lines of the last, partial group are dropped: for a range that ends
    inside a group, a completed [range_insert] into an empty table leaves
    every line strictly between the last group boundary and [end] uncovered,
    although [begin, end) contains it. *)
Theorem range_insert_drops_tail `{cfg : Config} (ok : ConfigOk cfg) (fuel : nat) (b e l : Z)
    (t' : LocalCLTable) :
  line_in_range b → line_in_range e → b ≤ l < e → (e - b) / GROUP_SIZE ≤ GROUP_LEN_MAX →
  l / GROUP_SIZE = e / GROUP_SIZE →
  (∃ e', range_insert (S fuel) b e table_init = Some (false, e', e', t')) →
  table_covers t' l = false.
Proof.
  rewrite GROUP_SIZE_eq. intros Hb He Hl Hlen Hg Hr.
  destruct (range_insert_spec fuel b e table_init mask_only_init Hb He ltac:(lia) Hlen)
    as (full & b' & e' & t2 & Heq & _ & _ & Hc).
  assert (full = false ∧ t2 = t') as [-> ->]
    by (destruct Hr as [e2 Hr]; rewrite Hr in Heq; by injection Heq).
  apply not_true_iff_false. intros Ht. specialize (Hc l). rewrite table_covers_init in Hc.
  destruct Hc as [[|Hm] _]; [by left|done|]. unfold marks in Hm. divlia.
Qed.

Lemma range_insert_drops_tail_witness :
  let cfg := default_config in
  ∃ t', range_insert 1 0 4 table_init = Some (false, 0, 0, t') ∧ table_covers t' 2 = false.
Proof.
  intros cfg. eexists. split; [vm_compute; reflexivity|].
  apply (range_insert_drops_tail default_config_ok 0 0 4 2);
    [split; vm_compute; congruence|split; vm_compute; congruence|lia|vm_compute; congruence|
     reflexivity|exists 0; vm_compute; reflexivity].
Defined.

(** On a range of more than [GROUP_LEN_MAX] whole groups, a multiple of
    [GROUP_LEN_MAX + 1] of them, no amount of fuel lets [range_insert] report
    completion: its length loop masks the run length to 0 and never advances. *)
Theorem range_insert_long_diverges `{cfg : Config} (ok : ConfigOk cfg) (fuel : nat)
    (b k : Z) (t : LocalCLTable) :
  let e := b + 16 * (k * (GROUP_LEN_MAX + 1)) in
  line_in_range b → line_in_range e → b mod GROUP_SIZE = 0 → 0 < k →
  ∀ b' e' t', range_insert fuel b e t ≠ Some (false, b', e', t').
Proof.
  rewrite GROUP_SIZE_eq. intros e Hb He Hbm Hk b' e' t'.
  pose proof (line_bounds b Hb). pose proof (line_bounds e He).
  pose proof group_index_shift_range. pose proof (Z.pow_le_mono_r 2 GROUP_INDEX_SHIFT 38).
  assert (2 ^ 25 ≤ GROUP_LEN_MAX + 1) as Hmax.
  { rewrite GROUP_LEN_MAX_eq, Z.ones_equiv.
    pose proof (Z.pow_le_mono_r 2 25 (63 - GROUP_INDEX_SHIFT)). lia. }
  assert (e mod 16 = 0) as Hem by (unfold e; divlia).
  assert (e / 16 - b / 16 = k * (GROUP_LEN_MAX + 1)) as Hlen by (unfold e; divlia).
  unfold range_insert. rewrite !land_group, Hbm. cbn [negb Z.eqb].
  unfold range_insert_end. rewrite land_group, Hem. cbn [negb Z.eqb].
  unfold range_insert_groups. rewrite !shr_group.
  assert (e / 16 -w b / 16 = k * (GROUP_LEN_MAX + 1)) as ->
    by (rewrite <- Hlen; apply wrap_small; split; divlia).
  destruct (Z.ltb_spec (k * (GROUP_LEN_MAX + 1)) GROUP_LEN_MIN); [unfold GROUP_LEN_MIN in *; nia|].
  destruct (insert_lengths fuel (b / 16) (k * (GROUP_LEN_MAX + 1)) t) as [[stuck t2]|] eqn:E; [|done].
  apply insert_lengths_stuck in E; [|nia]. cbn [mbind option_bind].
  by destruct stuck.
Qed.

Lemma range_insert_long_diverges_witness :
  let cfg := default_config in
  ¬ ∃ b' e' t', range_insert 70 0 (2 ^ 29) table_init = Some (false, b', e', t').
Proof.
  intros cfg (b' & e' & t' & H). revert H.
  exact (range_insert_long_diverges default_config_ok 70 0 1 table_init
    ltac:(split; vm_compute; congruence) ltac:(split; vm_compute; congruence)
    eq_refl ltac:(lia) b' e' t').
Defined.
