(* ===== verification/FlushUtils.v ===== *)
(** FlushUtils: [include/flushUtils.hpp].

    The inline assembly is modelled by the events it issues: a function that
    flushes returns the list of its events in order. What a processor does with
    an event is not modelled; the time-stamp busy waits (their latency constant
    is 0) issue no event. *)
From Stdlib Require Import Sorted.
From S2P Require Import Prelude Config ClGroup.
#[local] Open Scope word_scope.

(** ** Events *)

Inductive event :=
  | Writeback (addr : Z)    (** clwb *)
  | Invalidate (addr : Z)   (** clflushopt *)
  | WritebackFence          (** sfence *)
  | InvalidateFence         (** mfence *)
  | WbInvd.                 (** the whole cache, through [/proc/wbinvd] *)

Abbreviation trace := (list event).

#[export] Instance event_eq_dec : EqDecision event.
Proof. solve_decision. Defined.

(** ** Definitions *)

(** The conversion of a [size_t] argument to the parameter type [int]. *)
Definition to_int (n : Z) : Z :=
  let w := wrap32 n in if w <? 2 ^ 31 then w else w - 2 ^ 32.

Section flush_utils.
Context `{cfg : Config}.

Definition do_writeback (ptr : Z) : trace := if NO_FLUSH then [] else [Writeback ptr].
Definition do_invalidate (ptr : Z) : trace := if NO_FLUSH then [] else [Invalidate ptr].
Definition writeback_fence : trace := if NO_FLUSH then [] else [WritebackFence].
Definition invalidate_fence : trace := if NO_FLUSH then [] else [InvalidateFence].
Definition wbinvd : trace := if NO_FLUSH then [] else [WbInvd].

(** The loop [for (; ptr < stop; ptr += CACHE_LINE_SIZE)] of the two range
    functions: the addresses visited. *)
Fixpoint line_loop (fuel : nat) (ptr stop : Z) : option (list Z) :=
  if ptr <? stop then
    match fuel with
    | O => None
    | S fuel' => cons ptr <$> line_loop fuel' (ptr +w CACHE_LINE_SIZE) stop
    end
  else Some [].

(** [do_range_writeback(char *data, int len)], called with a [size_t] [n]. *)
Definition do_range_writeback (fuel : nat) (data n : Z) : option trace :=
  if NO_FLUSH then Some []
  else mjoin ∘ fmap do_writeback <$>
         line_loop fuel (data &w not64 CACHE_LINE_MASK) (data +w to_int n).

Definition do_range_invalidate (fuel : nat) (data n : Z) : option trace :=
  if NO_FLUSH then Some []
  else mjoin ∘ fmap do_invalidate <$>
         line_loop fuel (data &w not64 CACHE_LINE_MASK) (data +w to_int n).
End flush_utils.

(** ** Lemmas *)

Lemma line_loop_spec fuel k stop :
  0 ≤ k → stop ≤ 2 ^ 63 → 64 * k ≤ stop + 64 → stop - 64 * k ≤ 64 * Z.of_nat fuel →
  line_loop fuel (64 * k) stop = Some (map (Z.mul 64) (seqZ k ((stop - 64 * k + 63) / 64))).
Proof.
  revert k. induction fuel as [|fuel IH]; intros k Hk Hstop Hle Hfuel; cbn [line_loop].
  - destruct (Z.ltb_spec (64 * k) stop); [lia|].
    rewrite seqZ_nil by divlia. done.
  - destruct (Z.ltb_spec (64 * k) stop).
    + assert (64 * k +w CACHE_LINE_SIZE = 64 * (k + 1)) as ->.
      { unfold add64, CACHE_LINE_SIZE. rewrite wrap_small; [lia|split; lia]. }
      rewrite IH by lia. rewrite (seqZ_cons k) by divlia.
      replace (Z.pred ((stop - 64 * k + 63) / 64)) with ((stop - 64 * (k + 1) + 63) / 64) by divlia.
      done.
    + rewrite seqZ_nil by divlia. done.
Qed.

Lemma align_down data : u64 data → data &w not64 CACHE_LINE_MASK = 64 * (data / 64).
Proof. intros. by apply (align_down_pow2 6). Qed.

Lemma to_int_small n : 0 ≤ n < 2 ^ 31 → to_int n = n.
Proof.
  intros. unfold to_int. rewrite wrap_small by (split; lia).
  by destruct (Z.ltb_spec n (2 ^ 31)); [|lia].
Qed.

(** The 64-byte line numbers that the bytes [data, data + n) meet, ascending. *)
Definition lines_of (data n : Z) : list Z := seqZ (data / 64) ((data + n - 1) / 64 - data / 64 + 1).

Lemma elem_of_lines_of data n k :
  0 < n → k ∈ lines_of data n ↔ ∃ a, data ≤ a < data + n ∧ k = a / 64.
Proof.
  intros Hn. unfold lines_of. rewrite elem_of_seqZ. split.
  - intros Hk. destruct (Z.le_gt_cases data (64 * k)).
    + exists (64 * k). divlia.
    + exists data. divlia.
  - intros (a & Ha & ->). divlia.
Qed.

(** The two range loops visit the lines of the range, each once, ascending. *)
Lemma range_loop_lines fuel data n :
  u64 data → 0 < n < 2 ^ 31 → data + n ≤ 2 ^ 63 → n / 64 + 2 ≤ Z.of_nat fuel →
  line_loop fuel (data &w not64 CACHE_LINE_MASK) (data +w to_int n) =
    Some (map (Z.mul 64) (lines_of data n)).
Proof.
  intros Hd Hn Hle Hfuel. rewrite align_down, to_int_small by (done || lia).
  destruct Hd. unfold add64. rewrite wrap_small by (split; lia).
  rewrite line_loop_spec by divlia. unfold lines_of. do 3 f_equal. divlia.
Qed.

(** A length of 2^31 bytes or more becomes a negative [int]: nothing is visited. *)
Lemma range_loop_narrowed fuel data n :
  u64 data → 2 ^ 31 ≤ n ≤ 2 ^ 32 - 64 → 2 ^ 31 ≤ data →
  line_loop fuel (data &w not64 CACHE_LINE_MASK) (data +w to_int n) = Some [].
Proof.
  intros Hd Hn Hle. rewrite align_down by done. unfold to_int.
  rewrite wrap_small by (split; lia). destruct (Z.ltb_spec n (2 ^ 31)); [lia|].
  destruct Hd. unfold add64. rewrite wrap_small by (split; lia).
  destruct fuel; cbn [line_loop]; destruct (Z.ltb_spec (64 * (data / 64)) (data + (n - 2 ^ 32)));
    done || divlia.
Qed.

Lemma mjoin_singletons {A B} (f : A → B) (l : list A) : mjoin ((λ x, [f x]) <$> l) = map f l.
Proof. induction l as [|x l IH]; [done|]. cbn. by rewrite <- IH. Qed.

Lemma sorted_seqZ m n : StronglySorted Z.lt (seqZ m n).
Proof.
  destruct (Z.lt_ge_cases n 0); [rewrite seqZ_nil by lia; constructor|].
  rewrite <- (Z2Nat.id n) by lia. generalize (Z.to_nat n) as k. intros k. revert m.
  induction k as [|k IH]; intros m; [rewrite seqZ_nil by lia; constructor|].
  rewrite seqZ_cons by lia. replace (Z.pred (Z.of_nat (S k))) with (Z.of_nat k) by lia.
  constructor; [apply IH|]. apply Forall_forall. intros x. rewrite elem_of_seqZ. lia.
Qed.

(** ** Properties *)

(** For a non-empty byte range shorter than 2^31 bytes both range flushes
    return, and issue one flush for exactly the cache lines that contain a byte
    of the range, each line once and in ascending order. *)
Theorem do_range_flushes_exactly_its_lines `{cfg : Config} (fuel : nat) (data n : Z) :
  NO_FLUSH = false → u64 data → 0 < n < 2 ^ 31 → data + n ≤ 2 ^ 63 →
  n / 64 + 2 ≤ Z.of_nat fuel →
  ∃ ks, do_range_writeback fuel data n = Some (map (λ k, Writeback (64 * k)) ks) ∧
        do_range_invalidate fuel data n = Some (map (λ k, Invalidate (64 * k)) ks) ∧
        NoDup ks ∧ Sorted Z.lt ks ∧
        ∀ k, k ∈ ks ↔ ∃ a, data ≤ a < data + n ∧ k = a / 64.
Proof.
  intros Hnf Hd Hn Hle Hfuel. exists (lines_of data n).
  unfold do_range_writeback, do_range_invalidate, do_writeback, do_invalidate.
  rewrite Hnf, range_loop_lines by done. cbn. rewrite !mjoin_singletons, !map_map.
  split_and!; [done..|apply NoDup_seqZ| |intros; apply elem_of_lines_of; lia].
  apply StronglySorted_Sorted, sorted_seqZ.
Qed.

Lemma do_range_flushes_exactly_its_lines_witness :
  let cfg := default_config in
  ∃ ks, do_range_writeback 5 100 130 = Some (map (λ k, Writeback (64 * k)) ks) ∧
        map (λ k, Writeback (64 * k)) [1; 2; 3] = map (λ k, Writeback (64 * k)) ks.
Proof.
  intros cfg.
  destruct (do_range_flushes_exactly_its_lines (cfg := cfg) 5 100 130) as (ks & Hw & _);
    [reflexivity|split; vm_compute; congruence|lia|lia|vm_compute; congruence|].
  exists ks. split; [exact Hw|]. vm_compute in Hw. injection Hw as Hw. exact Hw.
Defined.

(** A range of 2^31 bytes or more (up to 64 bytes below 2^32) is not
    flushed at all: the [size_t] length becomes a negative [int], so the loop
    condition fails at once and neither function issues a single flush. *)
Theorem do_range_long_flushes_nothing `{cfg : Config} (fuel : nat) (data n : Z) :
  u64 data → 2 ^ 31 ≤ data → 2 ^ 31 ≤ n ≤ 2 ^ 32 - 64 →
  do_range_writeback fuel data n = Some [] ∧ do_range_invalidate fuel data n = Some [].
Proof.
  intros. unfold do_range_writeback, do_range_invalidate.
  rewrite range_loop_narrowed by done. by destruct NO_FLUSH.
Qed.

Lemma do_range_long_flushes_nothing_witness :
  let cfg := default_config in
  do_range_writeback 10 CXL_NHC_START (2 ^ 31) = Some [].
Proof.
  intros cfg. apply (do_range_long_flushes_nothing (cfg := cfg) 10 CXL_NHC_START (2 ^ 31));
    [split; vm_compute; congruence|vm_compute; congruence|lia].
Defined.
