(* ===== verification/ClTracker.v ===== *)
(** ClTracker: [include/clTracker.hpp], the set of lines a node has learnt to be
    stale but has not invalidated yet.

    The two-level table of 64-bit leaves is a finite map of finite maps; a null
    pointer is an absent key. Each operation is one step: the compare-and-swap
    loser's branch of [get_or_create_leaf] ends in the table its winner made, the
    state the model has. [dirty] is the abstraction: the line numbers whose bit
    is set. *)
From S2P Require Import Prelude Config ClGroup FlushUtils.
#[local] Open Scope word_scope.

(** ** Definitions *)

Definition LEAF_BITS : Z := 6.
Definition L1_BITS : Z := 19.
Definition L2_BITS : Z := 8.
Definition LEAF_ENTRIES : Z := 1 <<w LEAF_BITS.
Definition L1_ENTRIES : Z := 1 <<w L1_BITS.
Definition L2_ENTRIES : Z := 1 <<w L2_BITS.

(** [CacheLineTableLeaf] is its [dirty_mask]; the two [_with_mask] operations
    also return the previous value. *)
Definition leaf_mark_dirty_with_mask (mask d : Z) : Z * Z := (d, d |w mask).
Definition leaf_mark_dirty (line d : Z) : Z := d |w (1 <<w line).
Definition leaf_is_dirty (line d : Z) : bool := negb (d &w (1 <<w line) =? 0).
Definition leaf_clear_dirty_with_mask (mask d : Z) : Z * Z := (d, d &w not64 mask).
Definition leaf_clear_dirty (line d : Z) : Z := d &w not64 (1 <<w line).

(** [l1]: the tables [CacheLineTableL2] that exist, each with its leaves. *)
Abbreviation CacheLineTracker := (gmap Z (gmap Z Z)).

Definition find_leaf (l1_idx l2_idx : Z) (t : CacheLineTracker) : option Z :=
  l2 ← t !! l1_idx; l2 !! l2_idx.
Definition put_leaf (l1_idx l2_idx d : Z) (t : CacheLineTracker) : CacheLineTracker :=
  <[l1_idx := <[l2_idx := d]> (default ∅ (t !! l1_idx))]> t.

Definition get_or_create_leaf (l1_idx l2_idx : Z) (t : CacheLineTracker) : Z * CacheLineTracker :=
  let t := match t !! l1_idx with Some _ => t | None => <[l1_idx := ∅]> t end in
  match find_leaf l1_idx l2_idx t with
  | Some leaf => (leaf, t)
  | None => (0, put_leaf l1_idx l2_idx 0 t)
  end.

Section tracker.
Context `{cfg : Config}.

Definition split_va (va : Z) : Z * Z * Z :=
  let line := (va >>w VIRTUAL_CL_SHIFT) &w (LEAF_ENTRIES -w 1) in
  let shift2 := VIRTUAL_CL_SHIFT + LEAF_BITS in
  let l2 := (va >>w shift2) &w (L2_ENTRIES -w 1) in
  let shift1 := shift2 + L2_BITS in
  let l1 := (va >>w shift1) &w (L1_ENTRIES -w 1) in
  (l1, l2, line).

Definition mark_dirty (va : Z) (t : CacheLineTracker) : CacheLineTracker :=
  let '(l1_idx, l2_idx, line) := split_va va in
  let '(leaf, t) := get_or_create_leaf l1_idx l2_idx t in
  put_leaf l1_idx l2_idx (leaf_mark_dirty line leaf) t.

Definition mark_dirty_with_mask (va mask : Z) (t : CacheLineTracker) : CacheLineTracker :=
  let '(l1_idx, l2_idx, line) := split_va va in
  let '(leaf, t) := get_or_create_leaf l1_idx l2_idx t in
  put_leaf l1_idx l2_idx (leaf_mark_dirty_with_mask mask leaf).2 t.

Definition is_dirty (va : Z) (t : CacheLineTracker) : bool :=
  let '(l1_idx, l2_idx, line) := split_va va in
  match t !! l1_idx with
  | None => false
  | Some l2 =>
      match l2 !! l2_idx with
      | Some leaf => leaf_is_dirty line leaf
      | None => false
      end
  end.

Definition invalidate_if_dirty (va : Z) (t : CacheLineTracker) : bool * trace * CacheLineTracker :=
  let '(l1_idx, l2_idx, line) := split_va va in
  match t !! l1_idx with
  | None => (false, [], t)
  | Some l2 =>
      match l2 !! l2_idx with
      | Some leaf =>
          if leaf_is_dirty line leaf
          then (true, do_invalidate va ++ invalidate_fence,
                put_leaf l1_idx l2_idx (leaf_clear_dirty line leaf) t)
          else (false, [], t)
      | None => (false, [], t)
      end
  end.

Definition clear_dirty (va : Z) (t : CacheLineTracker) : CacheLineTracker :=
  let '(l1_idx, l2_idx, line) := split_va va in
  match t !! l1_idx with
  | None => t
  | Some l2 =>
      match l2 !! l2_idx with
      | Some leaf => put_leaf l1_idx l2_idx (leaf_clear_dirty line leaf) t
      | None => t
      end
  end.

(** The [while (bits)] loop of [invalidate_range_if_dirty]. *)
Fixpoint invalidate_bits (fuel : nat) (base bits : Z) : option trace :=
  if bits =? 0 then Some []
  else match fuel with
  | O => None
  | S fuel' =>
      let line_va := base +w wrap64 (ctz bits * VIRTUAL_CL_SIZE) in
      app (do_invalidate line_va) <$> invalidate_bits fuel' base (bits &w (bits -w 1))
  end.

Definition leaf_shift : Z := VIRTUAL_CL_SHIFT + LEAF_BITS.
Definition next_leaf (addr : Z) : Z := ((addr >>w leaf_shift) +w 1) <<w leaf_shift.

(** The mask of the lines of one leaf that a pass of the loop clears. *)
Definition range_mask (addr line_idx stop : Z) : Z :=
  let start_line := line_idx in
  let end_line :=
    if stop <? next_leaf addr
    then (stop >>w LEAF_BITS) &w (LEAF_ENTRIES -w 1) else LEAF_ENTRIES in
  if end_line =? LEAF_ENTRIES then not64 0 <<w start_line
  else ((1 <<w end_line) -w 1) &w not64 ((1 <<w start_line) -w 1).

(** The [while (addr < end)] loop. *)
Fixpoint invalidate_range_loop (fuel : nat) (addr stop : Z) (any_dirty : bool) (t : CacheLineTracker)
    : option (bool * trace * CacheLineTracker) :=
  if addr <? stop then
    match fuel with
    | O => None
    | S fuel' =>
        let '(l1_idx, l2_idx, line_idx) := split_va addr in
        match t !! l1_idx with
        | None => invalidate_range_loop fuel' (next_leaf addr) stop any_dirty t
        | Some l2 =>
            match l2 !! l2_idx with
            | None => invalidate_range_loop fuel' (next_leaf addr) stop any_dirty t
            | Some leaf =>
                let mask := range_mask addr line_idx stop in
                let '(prev, leaf) := leaf_clear_dirty_with_mask mask leaf in
                let t := put_leaf l1_idx l2_idx leaf t in
                let was_dirty := prev &w mask in
                flushes ← (if was_dirty =? 0 then Some [] else
                  invalidate_bits 64 (addr &w not64 ((1 <<w leaf_shift) -w 1)) was_dirty);
                '(r, tr, t) ← invalidate_range_loop fuel' (next_leaf addr) stop
                                (any_dirty || negb (was_dirty =? 0)) t;
                Some (r, flushes ++ tr, t)
            end
        end
    end
  else Some (any_dirty, [], t).

Definition invalidate_range_if_dirty (fuel : nat) (begin stop : Z) (t : CacheLineTracker)
    : option (bool * trace * CacheLineTracker) :=
  invalidate_range_loop fuel (begin &w not64 VIRTUAL_CL_MASK) stop false t.
End tracker.

(** ** The abstraction *)

(** The slot of a line number, and whether its bit is set. *)
Definition l1_of (n : Z) : Z := (n / 2 ^ 14) mod 2 ^ 19.
Definition l2_of (n : Z) : Z := (n / 2 ^ 6) mod 2 ^ 8.
Definition dirty (t : CacheLineTracker) (n : Z) : bool :=
  Z.testbit (default 0 (find_leaf (l1_of n) (l2_of n) t)) (n mod 64).

(** Line numbers that share a bit: the table keeps 33 bits of them. *)
Definition aliases (n m : Z) : Prop := n mod 2 ^ 33 = m mod 2 ^ 33.

(** Every leaf is a 64-bit word. *)
Definition tracker_wf (t : CacheLineTracker) : Prop :=
  ∀ l1 l2 d, find_leaf l1 l2 t = Some d → u64 d.

Section tracker_abs.
Context `{cfg : Config}.
Definition line_no (va : Z) : Z := va / VIRTUAL_CL_SIZE.
End tracker_abs.

(** ** Lemmas: the table *)

Lemma find_put_leaf l1 l2 m1 m2 d t :
  find_leaf m1 m2 (put_leaf l1 l2 d t) =
    if decide (l1 = m1 ∧ l2 = m2) then Some d else find_leaf m1 m2 t.
Proof.
  unfold find_leaf, put_leaf. destruct (decide (l1 = m1)) as [<-|].
  - rewrite lookup_insert_eq. cbn. destruct (decide (l2 = m2)) as [<-|].
    + rewrite lookup_insert_eq, decide_True by done. done.
    + rewrite lookup_insert_ne, decide_False by naive_solver.
      destruct (t !! l1); [done|]. cbn. apply lookup_empty.
  - rewrite lookup_insert_ne, decide_False by naive_solver. done.
Qed.

Lemma get_or_create_leaf_spec l1 l2 t :
  let '(leaf, t') := get_or_create_leaf l1 l2 t in
  leaf = default 0 (find_leaf l1 l2 t) ∧
  ∀ d, ∀ m1 m2, find_leaf m1 m2 (put_leaf l1 l2 d t') = find_leaf m1 m2 (put_leaf l1 l2 d t).
Proof.
  unfold get_or_create_leaf. set (t0 := match t !! l1 with Some _ => t | None => <[l1 := ∅]> t end).
  assert (∀ m1 m2, find_leaf m1 m2 t0 = find_leaf m1 m2 t) as Ht.
  { intros m1 m2. unfold t0. destruct (t !! l1) eqn:E; [done|]. unfold find_leaf.
    destruct (decide (l1 = m1)) as [<-|]; [|by rewrite lookup_insert_ne].
    rewrite lookup_insert_eq, E. cbn. apply lookup_empty. }
  destruct (find_leaf l1 l2 t0) as [d0|] eqn:E; rewrite Ht in E; rewrite E; (split; [done|]);
    intros d m1 m2; rewrite ?find_put_leaf, Ht; by repeat case_decide.
Qed.

Lemma slot_eq n m : l1_of n = l1_of m ∧ l2_of n = l2_of m ↔ (n / 64) mod 2 ^ 27 = (m / 64) mod 2 ^ 27.
Proof. unfold l1_of, l2_of. split; divlia. Qed.

Lemma aliases_split n m :
  aliases n m ↔ (n / 64) mod 2 ^ 27 = (m / 64) mod 2 ^ 27 ∧ n mod 64 = m mod 64.
Proof. unfold aliases. split; divlia. Qed.

(** A tracker that has leaf [d] in the slot of [n] and is [t] elsewhere. *)
Lemma dirty_put n m d t t' :
  (∀ m1 m2, find_leaf m1 m2 t' = find_leaf m1 m2 (put_leaf (l1_of n) (l2_of n) d t)) →
  dirty t' m = if decide ((n / 64) mod 2 ^ 27 = (m / 64) mod 2 ^ 27)
               then Z.testbit d (m mod 64) else dirty t m.
Proof.
  intros Ht. unfold dirty. rewrite Ht, find_put_leaf.
  pose proof (slot_eq n m). repeat case_decide; naive_solver.
Qed.

Lemma dirty_alias t n m : aliases n m → dirty t n = dirty t m.
Proof.
  rewrite aliases_split, <- slot_eq. intros [[H1 H2] H3]. unfold dirty. by rewrite H1, H2, H3.
Qed.

Lemma tracker_wf_empty : tracker_wf ∅.
Proof. intros l1 l2 d. unfold find_leaf. by rewrite lookup_empty. Qed.

Lemma tracker_wf_put l1 l2 d t t' :
  (∀ m1 m2, find_leaf m1 m2 t' = find_leaf m1 m2 (put_leaf l1 l2 d t)) →
  tracker_wf t → u64 d → tracker_wf t'.
Proof.
  intros Ht Hwf Hd m1 m2 e. rewrite Ht, find_put_leaf. case_decide; [naive_solver|apply Hwf].
Qed.

Lemma dirty_empty n : dirty ∅ n = false.
Proof. unfold dirty, find_leaf. rewrite lookup_empty. apply Z.testbit_0_l. Qed.

Lemma leaf_u64 l1 l2 t : tracker_wf t → u64 (default 0 (find_leaf l1 l2 t)).
Proof.
  intros Hwf. destruct (find_leaf l1 l2 t) as [d|] eqn:E; [by eapply Hwf|by apply in_word_0].
Qed.

(** ** Lemmas: leaves *)

Lemma leaf_mark_bit line d i :
  0 ≤ line < 64 → 0 ≤ i → Z.testbit (leaf_mark_dirty line d) i = Z.testbit d i || (line =? i).
Proof. intros. unfold leaf_mark_dirty. rewrite one_shl64 by lia. by autorewrite with bits. Qed.

Lemma not64_bit m i : 0 ≤ i → Z.testbit (not64 m) i = (i <? 64) && negb (Z.testbit m i).
Proof. intros. unfold not64. by autorewrite with bits. Qed.

Lemma leaf_clear_bit line d i :
  0 ≤ line < 64 → u64 d → 0 ≤ i →
  Z.testbit (leaf_clear_dirty line d) i = Z.testbit d i && negb (line =? i).
Proof.
  intros Hl Hd Hi. unfold leaf_clear_dirty. rewrite Z.land_spec, not64_bit, one_shl64, testbit_pow2 by lia.
  destruct (Z.ltb_spec i 64); [done|]. by rewrite (testbit_high 64 d) by (done || lia).
Qed.

Lemma leaf_is_dirty_bit line d : 0 ≤ line < 64 → leaf_is_dirty line d = Z.testbit d line.
Proof.
  intros. unfold leaf_is_dirty. rewrite one_shl64 by lia.
  destruct (Z.eqb_spec (d &w 2 ^ line) 0) as [E|E]; cbn [negb].
  - apply (f_equal (λ z, Z.testbit z line)) in E.
    by rewrite Z.land_spec, testbit_pow2, Z.eqb_refl, andb_true_r, Z.bits_0 in E by lia.
  - destruct (Z.testbit d line) eqn:E2; [done|]. destruct E. bit_blast. subst. by rewrite E2.
Qed.

Lemma leaf_mark_u64 line d : 0 ≤ line < 64 → u64 d → u64 (leaf_mark_dirty line d).
Proof.
  intros. unfold leaf_mark_dirty. apply in_word_lor; [lia|done|]. apply wrap_range. lia.
Qed.
Lemma land_not64_u64 m d : u64 d → u64 (d &w not64 m).
Proof. intros. apply in_word_land; [lia|done|]. apply (wrap_range 64). lia. Qed.
#[export] Hint Resolve leaf_u64 leaf_mark_u64 land_not64_u64 tracker_wf_empty : words.

(** ** Lemmas: addresses *)

Section ops.
Context `{cfg : Config} {ok : ConfigOk cfg}.
Implicit Types (va n m : Z) (t : CacheLineTracker).

Lemma virtual_cl_shift_range : 6 ≤ VIRTUAL_CL_SHIFT ≤ 11.
Proof. pose proof expand_range. unfold VIRTUAL_CL_SHIFT, CACHE_LINE_SHIFT. lia. Qed.

Lemma virtual_cl_size_pow2 : VIRTUAL_CL_SIZE = 2 ^ VIRTUAL_CL_SHIFT.
Proof.
  unfold VIRTUAL_CL_SIZE, VIRTUAL_CL_SHIFT, CL_EXPAND_FACTOR, CACHE_LINE_SHIFT, CACHE_LINE_SIZE.
  pose proof expand_range. rewrite Z.pow_add_r by lia. done.
Qed.

Lemma line_no_shiftr va : line_no va = Z.shiftr va VIRTUAL_CL_SHIFT.
Proof.
  pose proof virtual_cl_shift_range. unfold line_no. rewrite virtual_cl_size_pow2.
  by rewrite Z.shiftr_div_pow2 by lia.
Qed.

Lemma land_low_mod k a : 0 ≤ k < 64 → a &w ((1 <<w k) -w 1) = a mod 2 ^ k.
Proof. intros. rewrite low_mask_ones, Z.land_ones by lia. done. Qed.

Lemma split_va_spec va :
  split_va va = (l1_of (line_no va), l2_of (line_no va), line_no va mod 64).
Proof.
  pose proof virtual_cl_shift_range. unfold split_va, l1_of, l2_of, LEAF_ENTRIES, L1_ENTRIES, L2_ENTRIES.
  rewrite line_no_shiftr, !land_low_mod by (unfold LEAF_BITS, L1_BITS, L2_BITS; lia). unfold shr64.
  rewrite <- !Z.shiftr_div_pow2, !Z.shiftr_shiftr by lia.
  unfold LEAF_BITS, L1_BITS, L2_BITS.
  by replace (VIRTUAL_CL_SHIFT + 6 + 8) with (VIRTUAL_CL_SHIFT + 14) by lia.
Qed.

Lemma line_mod_range n : 0 ≤ n mod 64 < 64.
Proof. apply Z.mod_pos_bound. lia. Qed.

(** ** Lemmas: the operations *)

Lemma mark_with_mask_spec va mask t n :
  u64 mask →
  dirty (mark_dirty_with_mask va mask t) n =
    dirty t n || (bool_decide ((line_no va / 64) mod 2 ^ 27 = (n / 64) mod 2 ^ 27) && Z.testbit mask (n mod 64)).
Proof.
  intros Hm. unfold mark_dirty_with_mask. rewrite split_va_spec.
  pose proof (get_or_create_leaf_spec (l1_of (line_no va)) (l2_of (line_no va)) t) as Hg.
  destruct (get_or_create_leaf _ _ t) as [leaf t1]. destruct Hg as [-> Hg].
  rewrite (dirty_put (line_no va) n _ t) by apply Hg.
  case_decide as Hs.
  - rewrite bool_decide_true by done. cbn [leaf_mark_dirty_with_mask snd andb]. rewrite Z.lor_spec. f_equal.
    unfold dirty. apply slot_eq in Hs as [-> ->]. done.
  - rewrite bool_decide_false by done. by rewrite orb_false_r.
Qed.

Lemma mark_spec va t n :
  dirty (mark_dirty va t) n = true ↔ dirty t n = true ∨ aliases n (line_no va).
Proof.
  unfold mark_dirty. rewrite split_va_spec.
  pose proof (get_or_create_leaf_spec (l1_of (line_no va)) (l2_of (line_no va)) t) as Hg.
  destruct (get_or_create_leaf _ _ t) as [leaf t1]. destruct Hg as [-> Hg].
  rewrite (dirty_put (line_no va) n _ t), aliases_split by apply Hg.
  pose proof (line_mod_range n). pose proof (line_mod_range (line_no va)).
  case_decide as Hs; [|naive_solver].
  rewrite leaf_mark_bit, orb_true_iff, Z.eqb_eq by lia.
  unfold dirty. apply slot_eq in Hs as Hs2. destruct Hs2 as [-> ->]. naive_solver.
Qed.

Lemma mark_wf va t : tracker_wf t → tracker_wf (mark_dirty va t).
Proof.
  intros Hwf. unfold mark_dirty. rewrite split_va_spec.
  pose proof (get_or_create_leaf_spec (l1_of (line_no va)) (l2_of (line_no va)) t) as Hg.
  destruct (get_or_create_leaf _ _ t) as [leaf t1]. destruct Hg as [-> Hg].
  eapply tracker_wf_put; [apply Hg|done|]. pose proof (line_mod_range (line_no va)). auto with words.
Qed.

Lemma mark_with_mask_wf va mask t : u64 mask → tracker_wf t → tracker_wf (mark_dirty_with_mask va mask t).
Proof.
  intros Hm Hwf. unfold mark_dirty_with_mask. rewrite split_va_spec.
  pose proof (get_or_create_leaf_spec (l1_of (line_no va)) (l2_of (line_no va)) t) as Hg.
  destruct (get_or_create_leaf _ _ t) as [leaf t1]. destruct Hg as [-> Hg].
  eapply tracker_wf_put; [apply Hg|done|]. apply in_word_lor; auto with words. lia.
Qed.

Lemma is_dirty_spec va t : is_dirty va t = dirty t (line_no va).
Proof.
  unfold is_dirty. rewrite split_va_spec. unfold dirty, find_leaf.
  destruct (t !! _) as [l2|]; cbn [mbind option_bind default]; [|by rewrite Z.testbit_0_l].
  destruct (l2 !! _) as [leaf|]; [|by rewrite Z.testbit_0_l].
  apply leaf_is_dirty_bit, line_mod_range.
Qed.

(** Clearing one bit of a leaf that exists. *)
Lemma clear_leaf_spec va t leaf :
  tracker_wf t → find_leaf (l1_of (line_no va)) (l2_of (line_no va)) t = Some leaf →
  let t' := put_leaf (l1_of (line_no va)) (l2_of (line_no va))
              (leaf_clear_dirty (line_no va mod 64) leaf) t in
  tracker_wf t' ∧ ∀ n, dirty t' n = true ↔ dirty t n = true ∧ ¬ aliases n (line_no va).
Proof.
  intros Hwf Hf t'. pose proof (Hwf _ _ _ Hf) as Hl. split.
  { eapply tracker_wf_put; [done..|]. by apply land_not64_u64. }
  intros n. rewrite (dirty_put (line_no va) n (leaf_clear_dirty (line_no va mod 64) leaf) t) by done.
  rewrite aliases_split. pose proof (line_mod_range n). pose proof (line_mod_range (line_no va)).
  case_decide as Hs; [|naive_solver].
  rewrite leaf_clear_bit, andb_true_iff, negb_true_iff, Z.eqb_neq by (done || lia).
  unfold dirty. apply slot_eq in Hs as Hs2. destruct Hs2 as [<- <-]. rewrite Hf. naive_solver.
Qed.

Lemma clean_line_alias t n m : dirty t m = false → dirty t n = true → ¬ aliases n m.
Proof. intros Hm Hn Ha. rewrite (dirty_alias _ _ _ Ha) in Hn. congruence. Qed.

Lemma clear_spec va t :
  tracker_wf t →
  tracker_wf (clear_dirty va t) ∧
  ∀ n, dirty (clear_dirty va t) n = true ↔ dirty t n = true ∧ ¬ aliases n (line_no va).
Proof.
  intros Hwf. unfold clear_dirty. rewrite split_va_spec.
  destruct (find_leaf (l1_of (line_no va)) (l2_of (line_no va)) t) as [leaf|] eqn:E.
  - pose proof (clear_leaf_spec va t leaf Hwf E) as Hs. unfold find_leaf in E.
    destruct (t !! _) as [l2|]; [|done]. cbn in E. by rewrite E.
  - assert (dirty t (line_no va) = false) as Hd by (unfold dirty; rewrite E; apply Z.testbit_0_l).
    pose proof (clean_line_alias t) as Hc. unfold find_leaf in E.
    destruct (t !! _) as [l2|]; cbn in E; rewrite ?E; (split; [done|]); naive_solver.
Qed.

Lemma invalidate_if_dirty_spec va t :
  tracker_wf t →
  invalidate_if_dirty va t =
    (dirty t (line_no va),
     if dirty t (line_no va) then do_invalidate va ++ invalidate_fence else [],
     if dirty t (line_no va) then clear_dirty va t else t).
Proof.
  intros Hwf. unfold invalidate_if_dirty, clear_dirty. rewrite split_va_spec. unfold dirty, find_leaf.
  destruct (t !! _) as [l2|]; cbn [mbind option_bind default]; [|by rewrite Z.testbit_0_l].
  destruct (l2 !! _) as [leaf|]; cbn [default]; [|by rewrite Z.testbit_0_l].
  pose proof (line_mod_range (line_no va)).
  unfold id. rewrite leaf_is_dirty_bit by lia. by destruct (Z.testbit leaf _).
Qed.
End ops.
#[export] Hint Resolve mark_wf mark_with_mask_wf : words.

(** ** Lemmas: the range loop *)

Section range.
Context `{cfg : Config} {ok : ConfigOk cfg} (flushing : NO_FLUSH = false).
Implicit Types (addr stop n k : Z) (t : CacheLineTracker).

Lemma invalidate_bits_spec fuel base bits :
  u64 bits → (length (set_bits bits) ≤ fuel)%nat → 0 ≤ base → base + 64 * VIRTUAL_CL_SIZE < 2 ^ 64 →
  ∃ tr, invalidate_bits fuel base bits = Some tr ∧
    ∀ ev, ev ∈ tr ↔ ∃ i, Z.testbit bits i = true ∧ ev = Invalidate (base + i * VIRTUAL_CL_SIZE).
Proof.
  revert bits. induction fuel as [|fuel IH]; intros bits Hb Hlen Hbase Hmax; cbn [invalidate_bits].
  all: destruct (Z.eqb_spec bits 0) as [->|Hne].
  1, 3: eexists; split; [done|]; intros ev; split; [by intros ?%not_elem_of_nil|];
    intros (i & Hi & _); by rewrite Z.bits_0 in Hi.
  { rewrite set_bits_step in Hlen by done. cbn in Hlen. lia. }
  pose proof (ctz_lt_64 bits Hb Hne) as Hc. pose proof virtual_cl_shift_range.
  pose proof (pow2_pos VIRTUAL_CL_SHIFT). rewrite virtual_cl_size_pow2 in *.
  rewrite set_bits_step in Hlen by done. cbn in Hlen.
  rewrite clear_lowest_bit_alt by done.
  destruct (IH (Z.lxor bits (bits &w neg64 bits))) as (tr & -> & Htr);
    [by apply clear_lowest_bit_u64|lia|done|done|].
  unfold do_invalidate, add64. rewrite flushing. cbn [fmap option_fmap option_map app].
  rewrite (wrap_small _ (ctz bits * _)), wrap_small by (split; nia).
  eexists. split; [done|]. intros ev. rewrite elem_of_cons, Htr. split.
  - intros [->|(i & Hi & ->)].
    + exists (ctz bits). split; [|done]. rewrite ctz_bits, Z.eqb_refl by (destruct Hb; lia). done.
    + exists i. split; [|done]. destruct (Z.lt_ge_cases i 0); [by rewrite Z.testbit_neg_r in Hi|].
      rewrite clear_lowest_bit in Hi by done. by apply andb_prop in Hi as [].
  - intros (i & Hi & ->). destruct (decide (i = ctz bits)) as [->|Hd]; [by left|].
    right. exists i. split; [|done]. destruct (Z.lt_ge_cases i 0); [by rewrite Z.testbit_neg_r in Hi|].
    rewrite clear_lowest_bit, Hi by done. by apply negb_true_iff, Z.eqb_neq.
Qed.

Context (shift0 : CL_EXPAND_SHIFT = 0).

Lemma leaf_shift_12 : leaf_shift = 12.
Proof. unfold leaf_shift, VIRTUAL_CL_SHIFT. rewrite shift0. done. Qed.
Lemma virtual_cl_size_64 : VIRTUAL_CL_SIZE = 64.
Proof. unfold VIRTUAL_CL_SIZE, CL_EXPAND_FACTOR. rewrite shift0. done. Qed.

Lemma next_leaf_spec a : 0 ≤ a < 2 ^ 42 → next_leaf (64 * a) = 64 * (64 * (a / 64) + 64).
Proof.
  intros Ha. unfold next_leaf, shr64, add64. rewrite leaf_shift_12.
  rewrite Z.shiftr_div_pow2, wrap_small by (lia || (split; divlia)).
  rewrite (shl64_fits _ _ 52) by (lia || (split; divlia)).
  rewrite Z.shiftl_mul_pow2 by lia. divlia.
Qed.

Lemma range_mask_u64 addr line stop : u64 (range_mask addr line stop).
Proof.
  unfold range_mask. case_match; [apply wrap_range; lia|].
  apply in_word_land; [lia|apply wrap_range; lia|]. apply (wrap_range 64). lia.
Qed.

Lemma range_mask_bit a stop i :
  0 ≤ a → 64 * a < stop → stop ≤ 2 ^ 48 → 0 ≤ i < 64 →
  Z.testbit (range_mask (64 * a) (a mod 64) stop) i =
    (a mod 64 <=? i) && (64 * (a / 64) + i <? stop / 64).
Proof.
  intros Ha Hlt Hmax Hi. unfold range_mask. rewrite next_leaf_spec by lia.
  pose proof (line_mod_range a).
  destruct (Z.ltb_spec stop (64 * (64 * (a / 64) + 64))) as [Hs|Hs].
  - assert ((stop >>w LEAF_BITS) &w (LEAF_ENTRIES -w 1) = stop / 64 - 64 * (a / 64)) as ->.
    { unfold LEAF_ENTRIES. rewrite land_low_mod by (unfold LEAF_BITS; lia). unfold shr64, LEAF_BITS.
      rewrite Z.shiftr_div_pow2 by lia. divlia. }
    destruct (Z.eqb_spec (stop / 64 - 64 * (a / 64)) LEAF_ENTRIES) as [E|E].
    { unfold LEAF_ENTRIES, LEAF_BITS in E. change (1 <<w 6) with 64 in E. divlia. }
    rewrite !low_mask_ones, Z.land_spec, not64_bit, !testbit_ones_ltb by divlia.
    split_ltb; done || divlia.
  - rewrite Z.eqb_refl. unfold shl64. rewrite testbit_wrap, testbit_shiftl by lia.
    destruct (Z.leb_spec (a mod 64) i).
    + rewrite not64_bit, Z.bits_0 by lia. split_ltb; done || divlia.
    + rewrite Z.testbit_neg_r by lia. by rewrite andb_false_r.
Qed.

(** The first address of the leaf of [addr]. *)
Lemma leaf_base addr : 0 ≤ addr < 2 ^ 64 → addr &w not64 ((1 <<w leaf_shift) -w 1) = 4096 * (addr / 4096).
Proof.
  intros Ha. rewrite leaf_shift_12, low_mask_ones by lia.
  apply Z.bits_inj'. intros i Hi. rewrite Z.land_spec, not64_bit, testbit_ones_ltb by lia.
  replace (4096 * (addr / 4096)) with (Z.shiftl (Z.shiftr addr 12) 12)
    by (rewrite Z.shiftl_mul_pow2, Z.shiftr_div_pow2 by lia; divlia).
  rewrite testbit_shiftl by lia. destruct (Z.ltb_spec i 12).
  - rewrite (Z.testbit_neg_r _ (i - 12)), !andb_false_r by lia. done.
  - rewrite Z.shiftr_spec by lia. replace (i - 12 + 12) with i by lia.
    destruct (Z.ltb_spec i 64); [by rewrite andb_true_r|]. by rewrite (testbit_high 64) by (lia || split; lia).
Qed.

(** The lines one pass handles: those of the range in the leaf of [a]. *)
Definition pass_line (a stop k : Z) : Prop := a ≤ k < stop / 64 ∧ k / 64 = a / 64.

Lemma pass_line_bit a stop k :
  0 ≤ a → 64 * a < stop → stop ≤ 2 ^ 48 → k / 64 = a / 64 →
  Z.testbit (range_mask (64 * a) (a mod 64) stop) (k mod 64) = true ↔ pass_line a stop k.
Proof.
  intros. unfold pass_line. pose proof (line_mod_range k).
  rewrite range_mask_bit, andb_true_iff, Z.leb_le, Z.ltb_lt by done. divlia.
Qed.

(** What a pass does to the table. *)
Lemma pass_dirty a stop t leaf n :
  0 ≤ a → 64 * a < stop → stop ≤ 2 ^ 48 → tracker_wf t →
  find_leaf (l1_of a) (l2_of a) t = Some leaf →
  dirty (put_leaf (l1_of a) (l2_of a)
           (leaf &w not64 (range_mask (64 * a) (a mod 64) stop)) t) n = true ↔
  dirty t n = true ∧ ¬ ∃ k, pass_line a stop k ∧ aliases n k.
Proof.
  intros Ha Hlt Hmax Hwf Hf. rewrite (dirty_put a n _ t) by done. pose proof (line_mod_range n).
  case_decide as Hs.
  - rewrite Z.land_spec, not64_bit by lia. pose proof (Z.ltb_spec (n mod 64) 64) as Hlt64.
    inversion Hlt64; [|lia]. cbn [andb]. unfold dirty.
    destruct (proj2 (slot_eq a n) Hs) as [E1 E2]. rewrite <- E1, <- E2, Hf. cbn [default].
    unfold id. rewrite andb_true_iff, negb_true_iff, <- not_true_iff_false.
    replace (n mod 64) with ((64 * (a / 64) + n mod 64) mod 64) at 2 by divlia.
    rewrite pass_line_bit by (done || divlia).
    split; intros [? Hn]; (split; [done|]).
    + intros (k & Hk & Hal). apply Hn. apply aliases_split in Hal as [_ Hal].
      replace (64 * (a / 64) + n mod 64) with k; [done|]. destruct Hk. divlia.
    + intros Hp. apply Hn. eexists. split; [apply Hp|]. apply aliases_split. split; divlia.
  - split; [|naive_solver]. intros Hd. split; [done|]. intros (k & [_ Hk] & Hal).
    apply aliases_split in Hal as [Hal _]. rewrite Hk in Hal. congruence.
Qed.

(** The flushes of a pass. *)
Lemma pass_flushes a stop t leaf :
  0 ≤ a → 64 * a < stop → stop ≤ 2 ^ 48 → tracker_wf t →
  find_leaf (l1_of a) (l2_of a) t = Some leaf →
  let was := leaf &w range_mask (64 * a) (a mod 64) stop in
  ∃ tr, (if was =? 0 then Some [] else
           invalidate_bits 64 ((64 * a) &w not64 ((1 <<w leaf_shift) -w 1)) was) = Some tr ∧
    (negb (was =? 0) = true ↔ ∃ k, pass_line a stop k ∧ dirty t k = true) ∧
    ∀ ev, ev ∈ tr ↔ ∃ k, pass_line a stop k ∧ dirty t k = true ∧ ev = Invalidate (64 * k).
Proof.
  intros Ha Hlt Hmax Hwf Hf was. pose proof (Hwf _ _ _ Hf) as Hl.
  assert (u64 was) as Hw by (apply in_word_land; [lia|done|]; apply range_mask_u64).
  assert (∀ k, k / 64 = a / 64 → Z.testbit was (k mod 64) = true ↔ pass_line a stop k ∧ dirty t k = true) as Hbit.
  { intros k Hk. unfold was. rewrite Z.land_spec, andb_true_iff, pass_line_bit by done.
    unfold dirty. destruct (proj2 (slot_eq a k)) as [E1 E2]; [by rewrite Hk|].
    rewrite <- E1, <- E2, Hf. cbn. naive_solver. }
  assert (∀ i, Z.testbit was i = true → ∃ k, k / 64 = a / 64 ∧ i = k mod 64) as Hin.
  { intros i Hi. exists (64 * (a / 64) + i).
    destruct (Z.lt_ge_cases i 0); [by rewrite Z.testbit_neg_r in Hi|].
    destruct (Z.lt_ge_cases i 64); [divlia|]. by rewrite (testbit_high 64) in Hi by done. }
  assert ((64 * a) &w not64 ((1 <<w leaf_shift) -w 1) = 4096 * (a / 64)) as Hbase by (rewrite leaf_base by lia; divlia).
  destruct (Z.eqb_spec was 0) as [E|E].
  - exists []. split; [done|]. rewrite E in Hbit. setoid_rewrite Z.bits_0 in Hbit.
    assert (∀ k, pass_line a stop k → dirty t k ≠ true) as Hno.
    { intros k Hk Hd. destruct (Hbit k); [apply Hk|]. naive_solver. }
    split; [naive_solver|]. intros ev. split; [by intros ?%not_elem_of_nil|naive_solver].
  - destruct (invalidate_bits_spec 64 (4096 * (a / 64)) was) as (tr & Htr & Hev);
      [done|apply length_set_bits|divlia|rewrite virtual_cl_size_64; divlia|].
    exists tr. rewrite Hbase, Htr. split; [done|]. split.
    + split; [|done]. intros _.
      assert (Z.testbit was (ctz was) = true) as Hc.
      { pose proof (ctz_lt_64 was Hw E). rewrite ctz_bits, Z.eqb_refl by (destruct Hw; lia). done. }
      destruct (Hin _ Hc) as (k & Hk & Ek). rewrite Ek in Hc. exists k. by apply Hbit.
    + intros ev. rewrite Hev, virtual_cl_size_64. split.
      * intros (i & Hi & ->). destruct (Hin i Hi) as (k & Hk & ->). exists k.
        apply Hbit in Hi as [??]; [|done]. split_and!; [done..|]. f_equal. divlia.
      * intros (k & Hp & Hd & ->). exists (k mod 64).
        split; [apply Hbit; [apply Hp|done]|]. f_equal. destruct Hp. divlia.
Qed.

(** What the loop promises from line [a] on. *)
Definition range_post (a stop : Z) (any : bool) t (res : option (bool * trace * CacheLineTracker)) : Prop :=
  ∃ r tr t', res = Some (r, tr, t') ∧ tracker_wf t' ∧
    (r = true ↔ any = true ∨ ∃ k, a ≤ k < stop / 64 ∧ dirty t k = true) ∧
    (∀ ev, ev ∈ tr ↔ ∃ k, a ≤ k < stop / 64 ∧ dirty t k = true ∧ ev = Invalidate (64 * k)) ∧
    (∀ n, dirty t' n = true ↔ dirty t n = true ∧ ¬ ∃ k, a ≤ k < stop / 64 ∧ aliases n k).

Lemma range_lines_split a stop :
  64 * a < stop → ∀ k,
  a ≤ k < stop / 64 ↔ pass_line a stop k ∨ 64 * (a / 64) + 64 ≤ k < stop / 64.
Proof. intros. unfold pass_line. divlia. Qed.

Lemma range_post_done a stop any t :
  stop ≤ 64 * a → tracker_wf t → range_post a stop any t (Some (any, [], t)).
Proof.
  intros Hle Hwf. assert (∀ k, ¬ (a ≤ k < stop / 64)) as Hno by (intros; divlia).
  eexists _, _, _. split; [done|]. split; [done|]. split_and!.
  - split; [by left|]. intros [?|(k & ?%Hno & _)]; done.
  - intros ev. split; [by intros ?%not_elem_of_nil|]. by intros (k & ?%Hno & _).
  - intros n. split; [|by intros []]. intros. split; [done|]. by intros (k & ?%Hno & _).
Qed.

(** A pass over a leaf that does not exist. *)
Lemma range_post_skip a stop any t res :
  64 * a < stop → find_leaf (l1_of a) (l2_of a) t = None →
  range_post (64 * (a / 64) + 64) stop any t res → range_post a stop any t res.
Proof.
  intros Hlt Hf (r & tr & t' & -> & Hwf & Hr & Htr & Hd).
  assert (∀ n k, pass_line a stop k → aliases n k → dirty t n = true → False) as Hno.
  { intros n k [_ Hk] Hal. rewrite (dirty_alias _ _ _ Hal). unfold dirty.
    destruct (proj2 (slot_eq a k)) as [<- <-]; [by rewrite Hk|]. rewrite Hf. cbn. by rewrite Z.bits_0. }
  assert (∀ k, pass_line a stop k → dirty t k = true → False) as Hno2 by (intros; by eapply Hno).
  eexists _, _, _. split; [done|]. split; [done|]. setoid_rewrite (range_lines_split a stop Hlt).
  rewrite Hr. setoid_rewrite Htr. setoid_rewrite Hd. split_and!.
  - split; [intros [?|(k & ? & ?)]|intros [?|(k & [?|?] & ?)]]; eauto; exfalso; eauto.
  - intros ev. split; [intros (k & ? & ? & ?)|intros (k & [?|?] & ? & ?)]; eauto 6; exfalso; eauto.
  - intros n. split; intros [? Hn]; (split; [done|]); [|intros (k & ? & ?); eauto].
    intros (k & [?|?] & ?); eauto.
Qed.

Lemma range_post_pass a stop any any1 t t1 tr res :
  64 * a < stop → stop - 64 * a ≤ 2 ^ 39 →
  (any1 = true ↔ ∃ k, pass_line a stop k ∧ dirty t k = true) →
  (∀ ev, ev ∈ tr ↔ ∃ k, pass_line a stop k ∧ dirty t k = true ∧ ev = Invalidate (64 * k)) →
  (∀ n, dirty t1 n = true ↔ dirty t n = true ∧ ¬ ∃ k, pass_line a stop k ∧ aliases n k) →
  range_post (64 * (a / 64) + 64) stop (any || any1) t1 res →
  range_post a stop any t (res ≫= λ '(r, tr', t'), Some (r, tr ++ tr', t')).
Proof.
  intros Hlt Hwin Hany Htr1 Hd1 (r & tr' & t' & -> & Hwf & Hr & Htr & Hd).
  assert (∀ k, 64 * (a / 64) + 64 ≤ k < stop / 64 → dirty t1 k = true ↔ dirty t k = true) as Hlater.
  { intros k Hk. rewrite Hd1. split; [naive_solver|]. intros ?. split; [done|].
    intros (j & Hj & Hal). unfold pass_line, aliases in *. divlia. }
  eexists _, _, _. split; [done|]. split; [done|].
  setoid_rewrite (range_lines_split a stop Hlt). split_and!.
  - rewrite Hr, orb_true_iff, Hany. split.
    + intros [[?|(k & ? & ?)]|(k & ? & ?%Hlater)]; eauto.
    + intros [?|(k & [?|?] & ?)]; [eauto..|]. right. exists k. rewrite Hlater; eauto.
  - intros ev. rewrite elem_of_app, Htr1, Htr. split.
    + intros [(k & ? & ? & ?)|(k & ? & ?%Hlater & ?)]; eauto 6.
    + intros (k & [?|?] & ? & ?); [eauto 6|]. right. exists k. rewrite Hlater; eauto.
  - intros n. rewrite Hd, Hd1. split.
    + intros [[? Hn1] Hn2]. split; [done|]. intros (k & [?|?] & ?); eauto.
    + intros [? Hn]. split; [split; [done|]|]; intros (k & ? & ?); eauto.
Qed.

Lemma range_loop_spec fuel a stop any t :
  tracker_wf t → 0 ≤ a → stop ≤ 2 ^ 48 → stop - 64 * a ≤ 2 ^ 39 →
  stop / 4096 - a / 64 + 1 ≤ Z.of_nat fuel → a < 2 ^ 42 + 64 →
  range_post a stop any t (invalidate_range_loop fuel (64 * a) stop any t).
Proof.
  revert a any t. induction fuel as [|fuel IH]; intros a any t Hwf Ha Hmax Hwin Hfuel Ha2;
    cbn [invalidate_range_loop]; destruct (Z.ltb_spec (64 * a) stop) as [Hlt|Hge]; try divlia;
    try by apply range_post_done.
  rewrite split_va_spec. assert (line_no (64 * a) = a) as -> by (unfold line_no; rewrite virtual_cl_size_64; divlia).
  rewrite next_leaf_spec by divlia.
  destruct (find_leaf (l1_of a) (l2_of a) t) as [leaf|] eqn:Hf.
  - pose proof (pass_flushes a stop t leaf Ha Hlt Hmax Hwf Hf) as (tr & Htr & Hany & Hev).
    pose proof (pass_dirty a stop t leaf) as Hd. unfold find_leaf in Hf.
    destruct (t !! l1_of a) as [l2|] eqn:E1; [|done]. cbn in Hf. rewrite Hf.
    cbn [leaf_clear_dirty_with_mask]. rewrite Htr. cbn [mbind option_bind].
    eapply range_post_pass; [done..| |].
    + intros n. apply Hd; try done. unfold find_leaf. by rewrite E1.
    + apply IH; try divlia. eapply tracker_wf_put; [done..|]. apply land_not64_u64.
      eapply (Hwf (l1_of a) (l2_of a)). unfold find_leaf. by rewrite E1.
  - apply range_post_skip; [done..|]. unfold find_leaf in Hf.
    destruct (t !! l1_of a) as [l2|] eqn:E1; [cbn in Hf; rewrite Hf|]; apply IH; try done; divlia.
Qed.
End range.

(** ** Properties *)

(** The abstract tracker: a set of line numbers below 2^33. *)
Definition tracks (t : CacheLineTracker) (S : gset Z) : Prop :=
  tracker_wf t ∧ ∀ n, dirty t n = true ↔ n mod 2 ^ 33 ∈ S.

(** The tracker implements a set of line numbers taken modulo 2^33. From the
    empty table on, marking an address adds its line, clearing removes it,
    [is_dirty] is membership, and [invalidate_if_dirty] issues the invalidation
    and its fence exactly when the line is a member, and then removes it. *)
Theorem tracker_refines_line_set `{cfg : Config} (ok : ConfigOk cfg) (va : Z)
    (t : CacheLineTracker) (S : gset Z) :
  tracks t S →
  let n := line_no va mod 2 ^ 33 in
  tracks ∅ ∅ ∧
  tracks (mark_dirty va t) ({[n]} ∪ S) ∧
  tracks (clear_dirty va t) (S ∖ {[n]}) ∧
  is_dirty va t = bool_decide (n ∈ S) ∧
  ∃ t', invalidate_if_dirty va t =
          (bool_decide (n ∈ S),
           if decide (n ∈ S) then do_invalidate va ++ invalidate_fence else [], t') ∧
        tracks t' (S ∖ {[n]}).
Proof.
  intros [Hwf Ht] n.
  assert (dirty t (line_no va) = bool_decide (n ∈ S)) as Hd.
  { apply eq_true_iff_eq. by rewrite bool_decide_eq_true, Ht. }
  assert (tracks (clear_dirty va t) (S ∖ {[n]})) as Hc.
  { destruct (clear_spec va t Hwf) as [Hwf' Hc]. split; [done|].
    intros m. rewrite Hc, Ht. unfold aliases. set_solver. }
  split_and!; [split; [apply tracker_wf_empty|]| |done|by rewrite is_dirty_spec|].
  - intros m. rewrite dirty_empty. set_solver.
  - split; [by apply mark_wf|]. intros m. rewrite mark_spec, Ht. unfold aliases. set_solver.
  - rewrite invalidate_if_dirty_spec, Hd by done.
    case_bool_decide; [rewrite decide_True by done|rewrite decide_False by done];
      eexists; (split; [reflexivity|]); [done|].
    split; [done|]. intros m. rewrite Ht. clearbody n. set_solver.
Qed.

Lemma tracker_refines_line_set_witness :
  let cfg := default_config in
  is_dirty 6400 (mark_dirty 6410 ∅) = true ∧ is_dirty 6400 (clear_dirty 6400 ∅) = false ∧
  tracks (mark_dirty 6410 ∅) ({[line_no 6410 mod 2 ^ 33]} ∪ ∅).
Proof.
  intros cfg. split; [reflexivity|]. split; [reflexivity|].
  destruct (tracker_refines_line_set default_config_ok 6410 ∅ ∅) as (_ & H & _).
  - split; [apply tracker_wf_empty|]. intros m. rewrite dirty_empty. split; [discriminate|].
    intros H%not_elem_of_empty. destruct H.
  - exact H.
Defined.

(** [invalidate_range_if_dirty] returns, and on a window of at most 2^39
    bytes it invalidates exactly the dirty lines [k] with [begin/64 <= k <
    end/64], clears exactly those, and reports whether there was one. *)
Theorem invalidate_range_exact `{cfg : Config} (ok : ConfigOk cfg) (fuel : nat)
    (begin stop : Z) (t : CacheLineTracker) :
  NO_FLUSH = false → CL_EXPAND_SHIFT = 0 → tracker_wf t →
  u64 begin → begin ≤ stop ≤ 2 ^ 48 → stop - begin < 2 ^ 39 - 64 →
  stop / 4096 - begin / 4096 + 1 ≤ Z.of_nat fuel →
  ∃ r tr t', invalidate_range_if_dirty fuel begin stop t = Some (r, tr, t') ∧ tracker_wf t' ∧
    (r = true ↔ ∃ k, begin / 64 ≤ k < stop / 64 ∧ dirty t k = true) ∧
    (∀ ev, ev ∈ tr ↔ ∃ k, begin / 64 ≤ k < stop / 64 ∧ dirty t k = true ∧ ev = Invalidate (64 * k)) ∧
    (∀ n, dirty t' n = true ↔ dirty t n = true ∧ ¬ ∃ k, begin / 64 ≤ k < stop / 64 ∧ aliases n k).
Proof.
  intros Hnf H0 Hwf Hb Hle Hwin Hfuel. unfold invalidate_range_if_dirty, VIRTUAL_CL_MASK.
  rewrite (virtual_cl_size_64 H0). change (64 - 1) with CACHE_LINE_MASK. rewrite align_down by done.
  destruct (range_loop_spec Hnf H0 fuel (begin / 64) stop false t)
    as (r & tr & t' & Heq & Hwf' & Hr & Hrest); [done|destruct Hb; divlia..|].
  eexists _, _, _. split; [done|]. split; [done|]. rewrite Hr. split; [|done]. naive_solver.
Qed.

Lemma invalidate_range_exact_witness :
  let cfg := default_config in
  let t := mark_dirty 4160 (mark_dirty 128 ∅) in
  ∃ r tr t', invalidate_range_if_dirty 3 100 4224 t = Some (r, tr, t') ∧
    tr = [Invalidate 128; Invalidate 4160] ∧ (r = true ↔ ∃ k, 1 ≤ k < 66 ∧ dirty t k = true).
Proof.
  intros cfg t.
  destruct (invalidate_range_exact default_config_ok 3 100 4224 t) as (r & tr & t' & H & _ & Hr & _);
    [reflexivity|reflexivity|apply mark_wf, mark_wf, tracker_wf_empty|split; vm_compute; congruence|
     split; vm_compute; congruence|vm_compute; congruence|vm_compute; congruence|].
  exists r, tr, t'. split; [exact H|]. split; [|exact Hr]. vm_compute in H. injection H as _ Htr _.
  symmetry. exact Htr.
Defined.

(** When [end] is not on a line boundary, [invalidate_range_if_dirty]
    leaves the line of [end] stale: that line holds bytes of [begin, end), yet
    it stays dirty and is not invalidated. *)
Theorem invalidate_range_misses_last_line `{cfg : Config} (ok : ConfigOk cfg) (fuel : nat)
    (begin stop : Z) (t t' : CacheLineTracker) (r : bool) (tr : trace) :
  NO_FLUSH = false → CL_EXPAND_SHIFT = 0 → tracker_wf t →
  u64 begin → begin < stop ≤ 2 ^ 48 → stop - begin < 2 ^ 39 - 64 → stop mod 64 ≠ 0 →
  dirty t (stop / 64) = true →
  stop / 4096 - begin / 4096 + 1 ≤ Z.of_nat fuel →
  invalidate_range_if_dirty fuel begin stop t = Some (r, tr, t') →
  (stop - 1) / 64 = stop / 64 ∧ dirty t' (stop / 64) = true ∧ Invalidate (64 * (stop / 64)) ∉ tr.
Proof.
  intros Hnf H0 Hwf Hb Hle Hwin Hmod Hd Hfuel Heq. revert Heq.
  unfold invalidate_range_if_dirty, VIRTUAL_CL_MASK.
  rewrite (virtual_cl_size_64 H0). change (64 - 1) with CACHE_LINE_MASK. rewrite align_down by done.
  destruct (range_loop_spec Hnf H0 fuel (begin / 64) stop false t)
    as (r2 & tr2 & t2 & -> & _ & _ & Htr & Hd2); [done|destruct Hb; divlia..|].
  intros [= -> -> ->]. split_and!; [divlia| |].
  - rewrite Hd2. split; [done|]. intros (k & Hk & Hal). unfold aliases in Hal. destruct Hb. divlia.
  - rewrite Htr. intros (k & Hk & _ & [=]). divlia.
Qed.

Lemma invalidate_range_misses_last_line_witness :
  let cfg := default_config in
  ∃ r tr t', invalidate_range_if_dirty 2 64 72 (mark_dirty 64 ∅) = Some (r, tr, t') ∧
    dirty t' 1 = true ∧ Invalidate 64 ∉ tr.
Proof.
  intros cfg. eexists _, _, _. split; [vm_compute; reflexivity|].
  apply (invalidate_range_misses_last_line default_config_ok 2 64 72 (mark_dirty 64 ∅) _ false);
    [reflexivity|reflexivity|apply mark_wf, tracker_wf_empty|split; vm_compute; congruence|
     split; vm_compute; congruence|vm_compute; congruence|vm_compute; congruence|
     vm_compute; reflexivity|vm_compute; congruence|vm_compute; reflexivity].
Defined.
