(* ===== verification/TrackerSystem.v ===== *)
(** TrackerSystem: the threads of a node that share a [CacheLineTracker]
    ([include/clTracker.hpp]).

    The tables and the leaves are on a heap; a step is one access to a shared
    atomic, an allocation, a [delete] or a flush, sequentially consistent. The
    loser's branch of [get_or_create_leaf] is there with its [delete]. The
    specification is a system of the operations of ClTracker: marks, tests and
    clears are one step each; the two calls that flush are split, at their flushes
    and, for the range call, at the leaves. *)
From S2P Require Import Prelude Config ClGroup FlushUtils ClTracker.
#[local] Open Scope word_scope.

(** ** Definitions *)

(** The array [l1], the tables [CacheLineTableL2] and the leaves on the heap, by
    their addresses; a null pointer is an absent key. *)
Record tracker_mem := mkMem { tm_l1 : gmap Z nat; tm_l2 : gmap nat (gmap Z nat); tm_leaf : gmap nat Z }.

(** The calls; [CRange] is [invalidate_range_if_dirty] at [addr] of its loop. *)
Inductive tcall :=
  | CMark (va : Z) | CMarkMask (va mask : Z) | CIsDirty (va : Z) | CInvalidate (va : Z) | CClear (va : Z)
  | CRange (addr stop : Z) (any_dirty : bool).
Inductive tresult := TVoid | TBool (b : bool).

(** Where a thread is: the access it is about to make. *)
Inductive tpc :=
  | PIdle
  | PLoadL2 (c : tcall) | PNewL2 (c : tcall) | PCasL2 (c : tcall) (new_l2 : nat) | PDeleteL2 (c : tcall) (new_l2 : nat) | PReloadL2 (c : tcall)
  | PLoadLeaf (c : tcall) (l2 : nat) | PNewLeaf (c : tcall) (l2 : nat) | PCasLeaf (c : tcall) (l2 new_leaf : nat)
  | PDeleteLeaf (c : tcall) (l2 new_leaf : nat) | PReloadLeaf (c : tcall) (l2 : nat)
  | PAccess (c : tcall) (leaf : nat)
  | PFlushLine (va : Z) (leaf : nat) | PClearLine (va : Z) (leaf : nat)
  | PFlushBits (addr stop : Z) (any_dirty : bool) (bits : Z)
  | PReturn (r : tresult).

Section system.
Context `{cfg : Config}.
Implicit Types (m : tracker_mem) (c : tcall) (pc : tpc) (new : nat).

Definition call_va c : Z :=
  match c with CMark va | CMarkMask va _ | CIsDirty va | CInvalidate va | CClear va | CRange va _ _ => va end.
Definition l1_idx c : Z := (split_va (call_va c)).1.1.
Definition l2_idx c : Z := (split_va (call_va c)).1.2.
Definition line c : Z := (split_va (call_va c)).2.
(** It calls [get_or_create_leaf]. *)
Definition creates c : bool := match c with CMark _ | CMarkMask _ _ => true | _ => false end.
(** A null pointer on the way. *)
Definition not_found c : tpc :=
  match c with
  | CIsDirty _ | CInvalidate _ => PReturn (TBool false)
  | CRange addr stop any_dirty => PLoadL2 (CRange (next_leaf addr) stop any_dirty)
  | _ => PReturn TVoid
  end.
(** The start of a pass of the range loop tests its condition. *)
Definition enter c : option tpc :=
  match c with CRange addr stop any_dirty => if addr <? stop then None else Some (PReturn (TBool any_dirty)) | _ => None end.

Definition set_l1 i p m : tracker_mem := mkMem (<[i := p]> (tm_l1 m)) (tm_l2 m) (tm_leaf m).
Definition set_l2 p (t : gmap Z nat) m : tracker_mem := mkMem (tm_l1 m) (<[p := t]> (tm_l2 m)) (tm_leaf m).
Definition set_leaf q d m : tracker_mem := mkMem (tm_l1 m) (tm_l2 m) (<[q := d]> (tm_leaf m)).
Definition delete_l2 p m : tracker_mem := mkMem (tm_l1 m) (delete p (tm_l2 m)) (tm_leaf m).
Definition delete_leaf q m : tracker_mem := mkMem (tm_l1 m) (tm_l2 m) (delete q (tm_leaf m)).

(** The access of a call to its leaf, which holds [d]: the new mask, and what
    follows. *)
Definition leaf_access c leaf d : Z * tpc :=
  match c with
  | CMark va => (leaf_mark_dirty (line c) d, PReturn TVoid)
  | CMarkMask va mask => ((leaf_mark_dirty_with_mask mask d).2, PReturn TVoid)
  | CIsDirty va => (d, PReturn (TBool (leaf_is_dirty (line c) d)))
  | CInvalidate va => (d, if leaf_is_dirty (line c) d then PFlushLine va leaf else PReturn (TBool false))
  | CClear va => (leaf_clear_dirty (line c) d, PReturn TVoid)
  | CRange addr stop any_dirty =>
      let mask := range_mask addr (line c) stop in
      let '(prev, d) := leaf_clear_dirty_with_mask mask d in
      let was_dirty := prev &w mask in
      (d, PFlushBits addr stop (any_dirty || negb (was_dirty =? 0)) was_dirty)
  end.

(** One step; [new] is the address an allocation returns. [None]: it follows a null
    pointer or uses an object that is not there. *)
Definition advance new pc m : option (tpc * tracker_mem * trace) :=
  let goto pc := Some (pc, m, []) in
  match pc with
  | PIdle | PReturn _ => goto pc
  | PLoadL2 c =>
      match enter c with
      | Some pc => goto pc
      | None =>
          match tm_l1 m !! l1_idx c with
          | Some l2 => goto (PLoadLeaf c l2)
          | None => goto (if creates c then PNewL2 c else not_found c)
          end
      end
  | PNewL2 c => Some (PCasL2 c new, set_l2 new ∅ m, [])
  | PCasL2 c new_l2 =>
      match tm_l1 m !! l1_idx c with
      | None => Some (PLoadLeaf c new_l2, set_l1 (l1_idx c) new_l2 m, [])
      | Some _ => goto (PDeleteL2 c new_l2)
      end
  | PDeleteL2 c new_l2 => _ ← tm_l2 m !! new_l2; Some (PReloadL2 c, delete_l2 new_l2 m, [])
  | PReloadL2 c => l2 ← tm_l1 m !! l1_idx c; goto (PLoadLeaf c l2)
  | PLoadLeaf c l2 =>
      t ← tm_l2 m !! l2;
      match t !! l2_idx c with
      | Some leaf => goto (PAccess c leaf)
      | None => goto (if creates c then PNewLeaf c l2 else not_found c)
      end
  | PNewLeaf c l2 => Some (PCasLeaf c l2 new, set_leaf new 0 m, [])
  | PCasLeaf c l2 new_leaf =>
      t ← tm_l2 m !! l2;
      match t !! l2_idx c with
      | None => Some (PAccess c new_leaf, set_l2 l2 (<[l2_idx c := new_leaf]> t) m, [])
      | Some _ => goto (PDeleteLeaf c l2 new_leaf)
      end
  | PDeleteLeaf c l2 new_leaf => _ ← tm_leaf m !! new_leaf; Some (PReloadLeaf c l2, delete_leaf new_leaf m, [])
  | PReloadLeaf c l2 => t ← tm_l2 m !! l2; leaf ← t !! l2_idx c; goto (PAccess c leaf)
  | PAccess c leaf => d ← tm_leaf m !! leaf; let '(d, pc) := leaf_access c leaf d in Some (pc, set_leaf leaf d m, [])
  | PFlushLine va leaf => Some (PClearLine va leaf, m, do_invalidate va ++ invalidate_fence)
  | PClearLine va leaf =>
      d ← tm_leaf m !! leaf; Some (PReturn (TBool true), set_leaf leaf (leaf_clear_dirty (split_va va).2 d) m, [])
  | PFlushBits addr stop any_dirty bits =>
      if bits =? 0 then goto (PLoadL2 (CRange (next_leaf addr) stop any_dirty))
      else
        let line_va := (addr &w not64 ((1 <<w leaf_shift) -w 1)) +w wrap64 (ctz bits * VIRTUAL_CL_SIZE) in
        Some (PFlushBits addr stop any_dirty (bits &w (bits -w 1)), m, do_invalidate line_va)
  end.

(** The calls of the interface. *)
Definition initial_call c : bool := match c with CRange addr stop any_dirty => (addr &w VIRTUAL_CL_MASK =? 0) && negb any_dirty | _ => true end.
Definition tcall_ok c : Prop :=
  match c with CMarkMask _ mask => u64 mask | CRange addr stop _ => 0 ≤ addr ∧ stop ≤ 2 ^ 48 | _ => True end.

(** *** The system *)

Record tracker_sys := mkTS { ts_mem : tracker_mem; ts_pcs : list tpc }.
Inductive tlabel := LCall (c : tcall) | LReturn (r : tresult) | LFlush (tr : trace).

Inductive tracker_step : tracker_sys → nat → list tlabel → tracker_sys → Prop :=
  | tr_call a c m pcs :
      pcs !! a = Some PIdle → initial_call c = true → tcall_ok c →
      tracker_step (mkTS m pcs) a [LCall c] (mkTS m (<[a := PLoadL2 c]> pcs))
  | tr_advance a new pc pc' m m' tr pcs :
      pcs !! a = Some pc → pc ≠ PIdle → (∀ r, pc ≠ PReturn r) → tm_l2 m !! new = None → tm_leaf m !! new = None →
      advance new pc m = Some (pc', m', tr) →
      tracker_step (mkTS m pcs) a (match tr with [] => [] | _ => [LFlush tr] end) (mkTS m' (<[a := pc']> pcs))
  | tr_return a r m pcs :
      pcs !! a = Some (PReturn r) → tracker_step (mkTS m pcs) a [LReturn r] (mkTS m (<[a := PIdle]> pcs)).

(** The runs of a labelled system, with what each thread does. *)
Inductive runs {S} (step : S → nat → list tlabel → S → Prop) : S → list (nat * tlabel) → S → Prop :=
  | runs_nil s : runs step s [] s
  | runs_cons s a ls s1 tr s2 : step s a ls s1 → runs step s1 tr s2 → runs step s (map (pair a) ls ++ tr) s2.

Definition tracker_init n : tracker_sys := mkTS (mkMem ∅ ∅ ∅) (replicate n PIdle).

(** The destructor: [delete] of a null pointer does nothing, of an object that is
    not there it is an error, [None]. *)
Definition destroy_leaf (q : option nat) m : option tracker_mem :=
  match q with Some q => _ ← tm_leaf m !! q; Some (delete_leaf q m) | None => Some m end.
Definition destroy_table m (i : Z) : option tracker_mem :=
  match tm_l1 m !! i with
  | Some p =>
      t ← tm_l2 m !! p;
      m ← foldl (λ om j, m ← om; destroy_leaf (t !! j) m) (Some m) (seqZ 0 L2_ENTRIES);
      Some (delete_l2 p m)
  | None => Some m
  end.
Definition destroy m : option tracker_mem := foldl (λ om i, m ← om; destroy_table m i) (Some m) (seqZ 0 L1_ENTRIES).

(** *** The specification *)

Inductive tspec :=
  | SIdle | SCalled (c : tcall)
  | SFlushLine (va : Z) | SClearLine (va : Z)
  | SFlushBits (addr stop : Z) (any_dirty : bool) (bits : Z)
  | SReturn (r : tresult).
Record spec_sys := mkSS { ss_tracker : CacheLineTracker; ss_threads : list tspec }.

(** A pass of the range loop, without its flushes. *)
Definition range_pass addr stop (t : CacheLineTracker) : Z * CacheLineTracker :=
  let '(l1, l2, line_idx) := split_va addr in
  match find_leaf l1 l2 t with
  | Some leaf => let mask := range_mask addr line_idx stop in
                 let '(prev, d) := leaf_clear_dirty_with_mask mask leaf in (prev &w mask, put_leaf l1 l2 d t)
  | None => (0, t)
  end.

(** What a call does in one step: the operation of ClTracker, or its part before the
    first flush. *)
Definition commit c (t : CacheLineTracker) : tspec * CacheLineTracker :=
  match c with
  | CMark va => (SReturn TVoid, mark_dirty va t)
  | CMarkMask va mask => (SReturn TVoid, mark_dirty_with_mask va mask t)
  | CIsDirty va => (SReturn (TBool (is_dirty va t)), t)
  | CInvalidate va => (if is_dirty va t then SFlushLine va else SReturn (TBool false), t)
  | CClear va => (SReturn TVoid, clear_dirty va t)
  | CRange addr stop any_dirty =>
      if addr <? stop then
        let '(was_dirty, t) := range_pass addr stop t in
        (SFlushBits addr stop (any_dirty || negb (was_dirty =? 0)) was_dirty, t)
      else (SReturn (TBool any_dirty), t)
  end.
Definition next_bits addr stop any_dirty (bits : Z) : tspec * trace :=
  if bits =? 0 then (SCalled (CRange (next_leaf addr) stop any_dirty), [])
  else (SFlushBits addr stop any_dirty (bits &w (bits -w 1)),
        do_invalidate ((addr &w not64 ((1 <<w leaf_shift) -w 1)) +w wrap64 (ctz bits * VIRTUAL_CL_SIZE))).

(** The steps after the call: [invalidate_if_dirty] is three of them, the range call
    one per leaf and one per flush. *)
Definition spec_advance (x : tspec) (t : CacheLineTracker) : option (tspec * CacheLineTracker * trace) :=
  match x with
  | SIdle | SReturn _ => None
  | SCalled c => let '(x, t) := commit c t in Some (x, t, [])
  | SFlushLine va => Some (SClearLine va, t, do_invalidate va ++ invalidate_fence)
  | SClearLine va => Some (SReturn (TBool true), clear_dirty va t, [])
  | SFlushBits addr stop any_dirty bits => let '(x, tr) := next_bits addr stop any_dirty bits in Some (x, t, tr)
  end.
Inductive spec_step : spec_sys → nat → list tlabel → spec_sys → Prop :=
  | sp_call a c t xs :
      xs !! a = Some SIdle → initial_call c = true → tcall_ok c → spec_step (mkSS t xs) a [LCall c] (mkSS t (<[a := SCalled c]> xs))
  | sp_advance a x x' t t' tr xs :
      xs !! a = Some x → spec_advance x t = Some (x', t', tr) →
      spec_step (mkSS t xs) a (match tr with [] => [] | _ => [LFlush tr] end) (mkSS t' (<[a := x']> xs))
  | sp_return a r t xs :
      xs !! a = Some (SReturn r) → spec_step (mkSS t xs) a [LReturn r] (mkSS t (<[a := SIdle]> xs)).
Definition spec_init n : spec_sys := mkSS ∅ (replicate n SIdle).
End system.

#[local] Arguments l1_idx : simpl never.
#[local] Arguments l2_idx : simpl never.
#[local] Arguments line : simpl never.
#[local] Arguments split_va : simpl never.

(** ** The invariant *)

Section invariant.
Context `{cfg : Config}.
Implicit Types (m : tracker_mem) (c : tcall) (pc : tpc) (a b p q : nat) (i j : Z) (s : tracker_sys) (x : nat + nat).

(** The leaf of a slot, and its mask; no leaf is a mask of 0. *)
Definition slot_leaf m i j : option nat := p ← tm_l1 m !! i; t ← tm_l2 m !! p; t !! j.
Definition mem_word m i j : Z := default 0 (q ← slot_leaf m i j; tm_leaf m !! q).

(** An object of the heap, a table or a leaf: it is there; it is there and has not
    been written; it is reachable from [l1]. *)
Definition live m x : Prop := match x with inl p => is_Some (tm_l2 m !! p) | inr q => is_Some (tm_leaf m !! q) end.
Definition fresh_object m x : Prop := match x with inl p => tm_l2 m !! p = Some ∅ | inr q => tm_leaf m !! q = Some 0 end.
Definition published m x : Prop := match x with inl p => ∃ i, tm_l1 m !! i = Some p | inr q => ∃ i j, slot_leaf m i j = Some q end.

(** The object a thread has allocated and not published. *)
Definition private pc : option (nat + nat) :=
  match pc with
  | PCasL2 _ p | PDeleteL2 _ p => Some (inl p)
  | PCasLeaf _ _ q | PDeleteLeaf _ _ q => Some (inr q)
  | _ => None
  end.
(** What a thread knows of the tables. *)
Definition knows m pc : Prop :=
  let at_l2 c l2 := tm_l1 m !! l1_idx c = Some l2 in
  let at_leaf va leaf := slot_leaf m (split_va va).1.1 (split_va va).1.2 = Some leaf in
  match pc with
  | PDeleteL2 c _ | PReloadL2 c => ∃ l2, at_l2 c l2
  | PLoadLeaf c l2 | PNewLeaf c l2 | PCasLeaf c l2 _ => at_l2 c l2
  | PDeleteLeaf c l2 _ | PReloadLeaf c l2 => at_l2 c l2 ∧ ∃ leaf, at_leaf (call_va c) leaf
  | PAccess c leaf => at_leaf (call_va c) leaf
  | PFlushLine va leaf | PClearLine va leaf => at_leaf va leaf
  | _ => True
  end.
(** The calls in progress are those of the interface. *)
Definition pc_call pc : option tcall :=
  match pc with
  | PLoadL2 c | PNewL2 c | PCasL2 c _ | PDeleteL2 c _ | PReloadL2 c | PLoadLeaf c _ | PNewLeaf c _ | PCasLeaf c _ _
  | PDeleteLeaf c _ _ | PReloadLeaf c _ | PAccess c _ => Some c
  | _ => None
  end.

Record mem_ok m : Prop := {
  mo_live x : published m x → live m x;
  mo_l1 i i' p : tm_l1 m !! i = Some p → tm_l1 m !! i' = Some p → i = i';
  mo_slot i j i' j' q : slot_leaf m i j = Some q → slot_leaf m i' j' = Some q → i = i' ∧ j = j';
}.
Record tracker_inv s : Prop := {
  ti_mem : mem_ok (ts_mem s);
  ti_private a pc x : ts_pcs s !! a = Some pc → private pc = Some x → fresh_object (ts_mem s) x ∧ ¬ published (ts_mem s) x;
  ti_apart a b pc pc' x : ts_pcs s !! a = Some pc → ts_pcs s !! b = Some pc' → private pc = Some x → private pc' = Some x → a = b;
  ti_knows a pc : ts_pcs s !! a = Some pc → knows (ts_mem s) pc;
  ti_reached x : live (ts_mem s) x → published (ts_mem s) x ∨ ∃ a pc, ts_pcs s !! a = Some pc ∧ private pc = Some x;
}.

(** Nothing reachable goes away. *)
Definition extends m m' : Prop :=
  (∀ i p, tm_l1 m !! i = Some p → tm_l1 m' !! i = Some p) ∧ (∀ i j q, slot_leaf m i j = Some q → slot_leaf m' i j = Some q).
Lemma extends_refl m : extends m m.
Proof. done. Qed.
Lemma knows_extends m m' pc : extends m m' → knows m pc → knows m' pc.
Proof. intros [H1 H2]. destruct pc; cbn; try done; naive_solver. Qed.

(** A step of thread [a], by what it does to the memory: the objects that appear in
    [m'] are its private one, or published. *)
Lemma tracker_step_inv m m' pcs a pc pc' :
  tracker_inv (mkTS m pcs) → pcs !! a = Some pc → extends m m' → mem_ok m' → knows m' pc' →
  (∀ b pcb x, b ≠ a → pcs !! b = Some pcb → private pcb = Some x →
     fresh_object m' x ∧ ¬ published m' x ∧ private pc' ≠ Some x) →
  (∀ x, private pc' = Some x → fresh_object m' x ∧ ¬ published m' x) →
  (∀ x, live m' x → published m' x ∨ private pc' = Some x ∨ (live m x ∧ private pc ≠ Some x)) →
  (∀ x, published m x → published m' x) →
  tracker_inv (mkTS m' (<[a := pc']> pcs)).
Proof.
  intros Hi Ha Hext Hm Hk Hoth Hown Hlive Hpub. pose proof (lookup_lt_Some _ _ _ Ha) as Hlt.
  constructor; cbn [ts_mem ts_pcs]; [done| | | |].
  - intros b pcb x [(<- & <- & _)|[Hne Hb]]%list_lookup_insert_Some Hx; [by apply Hown|].
    destruct (Hoth b pcb x) as (? & ? & _); done.
  - intros b b' pcb pcb' x [(<- & <- & _)|[Hne Hb]]%list_lookup_insert_Some [(<- & <- & _)|[Hne' Hb']]%list_lookup_insert_Some Hx Hx';
      [done|by destruct (Hoth b' pcb' x) as (_ & _ & ?)|by destruct (Hoth b pcb x) as (_ & _ & ?)|by eapply (ti_apart _ Hi)].
  - intros b pcb [(<- & <- & _)|[Hne Hb]]%list_lookup_insert_Some; [done|].
    eapply knows_extends; [exact Hext|]. by apply (ti_knows _ Hi b).
  - intros x [?|[?|[Hx Hn]]]%Hlive; [by left|right; exists a, pc'; split; [by apply list_lookup_insert_eq|done]|].
    destruct (ti_reached _ Hi x Hx) as [?|(b & pcb & Hb & Hpb)]; [left; by apply Hpub|]. right. exists b, pcb. split; [|done].
    cbn [ts_pcs] in Hb. rewrite list_lookup_insert_ne; [done|]. intros <-. congruence.
Qed.

(** *** What the operations do to the slots *)

Lemma slot_set_l2 m p (t : gmap Z nat) i j :
  slot_leaf (set_l2 p t m) i j = if decide (tm_l1 m !! i = Some p) then t !! j else slot_leaf m i j.
Proof.
  unfold slot_leaf. cbn. destruct (tm_l1 m !! i) as [p'|]; cbn; [|done].
  destruct (decide (p' = p)) as [->|Hne]; [by rewrite lookup_insert_eq, decide_True|].
  rewrite lookup_insert_ne by done. rewrite decide_False by congruence. done.
Qed.
Lemma slot_delete_l2 m p i j : ¬ published m (inl p) → slot_leaf (delete_l2 p m) i j = slot_leaf m i j.
Proof.
  intros Hp. unfold slot_leaf. cbn. destruct (tm_l1 m !! i) as [p'|] eqn:E; cbn; [|done].
  rewrite lookup_delete_ne; [done|]. intros ->. apply Hp. by exists i.
Qed.
Lemma slot_set_l1 m i p i' j' :
  tm_l1 m !! i = None → tm_l2 m !! p = Some ∅ → slot_leaf (set_l1 i p m) i' j' = slot_leaf m i' j'.
Proof.
  intros Hi Hp. unfold slot_leaf. cbn. destruct (decide (i = i')) as [<-|Hne]; [|by rewrite lookup_insert_ne].
  rewrite lookup_insert_eq, Hi. cbn. by rewrite Hp.
Qed.

(** The same tables reach the same objects. *)
Lemma same_published m m' x : tm_l1 m' = tm_l1 m → (∀ i j, slot_leaf m' i j = slot_leaf m i j) → published m' x ↔ published m x.
Proof. intros H1 H2. destruct x; cbn; rewrite ?H1; [done|]. by setoid_rewrite H2. Qed.
Lemma same_extends m m' : tm_l1 m' = tm_l1 m → (∀ i j, slot_leaf m' i j = slot_leaf m i j) → extends m m'.
Proof. intros H1 H2. split; intros *; [by rewrite H1|by rewrite H2]. Qed.
Lemma same_mem_ok m m' :
  tm_l1 m' = tm_l1 m → (∀ i j, slot_leaf m' i j = slot_leaf m i j) → (∀ x, published m x → live m x → live m' x) → mem_ok m → mem_ok m'.
Proof.
  intros H1 H2 Hl [Ha Hb Hc]. constructor.
  - intros x Hx. rewrite same_published in Hx by done. apply Hl; [done|by apply Ha].
  - intros i i' p. rewrite H1. apply Hb.
  - intros i j i' j' q. rewrite !H2. apply Hc.
Qed.

(** *** The steps *)

Lemma tracker_goto m pcs a pc pc' :
  tracker_inv (mkTS m pcs) → pcs !! a = Some pc → knows m pc' → private pc' = private pc → tracker_inv (mkTS m (<[a := pc']> pcs)).
Proof.
  intros Hi Ha Hk Hp. eapply tracker_step_inv; [exact Hi|exact Ha|apply extends_refl|apply (ti_mem _ Hi)|exact Hk| | | |done].
  - intros b pcb x Hne Hb Hx. destruct (ti_private _ Hi b pcb x Hb Hx). split; [done|]. split; [done|].
    intros Hx'. rewrite Hp in Hx'. by destruct (Hne (ti_apart _ Hi _ _ _ _ _ Hb Ha Hx Hx')).
  - intros x Hx. rewrite Hp in Hx. exact (ti_private _ Hi a pc x Ha Hx).
  - intros x Hx. rewrite Hp. destruct (ti_reached _ Hi x Hx) as [?|_]; [by left|].
    destruct (private pc) as [y|] eqn:E; [|by right; right]. destruct (decide (x = y)) as [<-|]; [by right; left|].
    right. right. split; [done|congruence].
Qed.

(** The objects of the others are not touched by a step that changes [x] only. *)
Lemma tracker_object m m' pcs a pc pc' x0 :
  tracker_inv (mkTS m pcs) → pcs !! a = Some pc → tm_l1 m' = tm_l1 m → (∀ i j, slot_leaf m' i j = slot_leaf m i j) → knows m pc' →
  (∀ x, x ≠ x0 → (live m' x ↔ live m x) ∧ (fresh_object m x → fresh_object m' x)) → ¬ published m x0 →
  (private pc' = Some x0 ∧ private pc = None ∧ ¬ live m x0 ∧ fresh_object m' x0 ∨ private pc' = None ∧ private pc = Some x0 ∧ ¬ live m' x0) →
  tracker_inv (mkTS m' (<[a := pc']> pcs)).
Proof.
  intros Hi Ha H1 H2 Hk Hx Hpub Hcase. pose proof (same_published m m') as Hp.
  assert (∀ x, private pc = Some x → x = x0) as Hpc by (intros x E; destruct Hcase as [(_ & E' & _)|(_ & E' & _)]; congruence).
  assert (∀ b pcb x, b ≠ a → pcs !! b = Some pcb → private pcb = Some x → x ≠ x0) as Hother.
  { intros b pcb x Hne Hb Hpx ->. destruct (ti_private _ Hi b pcb x0 Hb Hpx) as [Hf _]. destruct Hcase as [(_ & _ & Hl & _)|(_ & E & _)].
    - apply Hl. destruct x0; by eexists.
    - by destruct (Hne (ti_apart _ Hi _ _ _ _ _ Hb Ha Hpx E)). }
  eapply tracker_step_inv; [exact Hi|exact Ha|by apply same_extends| | | | | |].
  - eapply same_mem_ok; [done|done| |apply (ti_mem _ Hi)]. intros x Hpx Hlx. apply Hx; [|done]. by intros ->.
  - eapply knows_extends; [by apply same_extends|done].
  - intros b pcb x Hne Hb Hpx. pose proof (Hother b pcb x Hne Hb Hpx) as Hn. destruct (ti_private _ Hi b pcb x Hb Hpx) as [Hf Hnp].
    split; [by apply Hx|]. split; [by rewrite Hp|]. destruct Hcase as [(-> & _)|(-> & _)]; congruence.
  - intros x Hpx. destruct Hcase as [(E & _ & _ & Hf)|(E & _)]; [|congruence]. rewrite E in Hpx. injection Hpx as <-.
    split; [done|]. by rewrite Hp.
  - intros x Hlx. destruct (decide (x = x0)) as [->|Hn].
    + destruct Hcase as [(E & _)|(_ & _ & Hl)]; [by right; left|done].
    + right. right. split; [by apply Hx|]. intros E. by apply Hn, Hpc.
  - intros x. by rewrite Hp.
Qed.

Lemma tracker_write m pcs a pc pc' q d i j :
  tracker_inv (mkTS m pcs) → pcs !! a = Some pc → slot_leaf m i j = Some q → knows m pc' → private pc = None → private pc' = None →
  tracker_inv (mkTS (set_leaf q d m) (<[a := pc']> pcs)).
Proof.
  intros Hi Ha Hq Hk Hp Hp'. assert (published m (inr q)) as Hpub by (by exists i, j).
  assert (∀ x, live (set_leaf q d m) x ↔ live m x) as Hlive.
  { intros [p|q']; cbn; [done|]. destruct (decide (q = q')) as [<-|]; [|by rewrite lookup_insert_ne].
    rewrite lookup_insert_eq. split; [|by eexists]. intros _. exact (mo_live _ (ti_mem _ Hi) (inr q) Hpub). }
  eapply tracker_step_inv; [exact Hi|exact Ha|by apply same_extends| |by apply (knows_extends m); [apply same_extends|]| | | |].
  - apply (same_mem_ok m); [done|done| |apply (ti_mem _ Hi)]. intros x _. apply Hlive.
  - intros b pcb x Hne Hb Hx. destruct (ti_private _ Hi b pcb x Hb Hx) as [Hf Hn]. split; [|split; [|congruence]].
    + destruct x as [p|q']; [done|]. cbn. rewrite lookup_insert_ne; [done|]. by intros <-.
    + by rewrite same_published.
  - intros x Hx. congruence.
  - intros x Hx. right. right. split; [by apply Hlive|congruence].
  - intros x. by rewrite same_published.
Qed.

Lemma tracker_publish_l2 m pcs a c p :
  tracker_inv (mkTS m pcs) → pcs !! a = Some (PCasL2 c p) → tm_l1 m !! l1_idx c = None →
  tracker_inv (mkTS (set_l1 (l1_idx c) p m) (<[a := PLoadLeaf c p]> pcs)).
Proof.
  intros Hi Ha Hn. set (i := l1_idx c) in *. destruct (ti_private _ Hi a _ _ Ha eq_refl) as [Hp Hunp]. cbn in Hp.
  assert (∀ i' j', slot_leaf (set_l1 i p m) i' j' = slot_leaf m i' j') as Hslot by (intros; by apply slot_set_l1).
  assert (∀ x, published (set_l1 i p m) x ↔ published m x ∨ x = inl p) as Hpub.
  { intros [p'|q]; cbn [published]; [|setoid_rewrite Hslot; naive_solver]. cbn. setoid_rewrite lookup_insert_Some. split.
    - intros (i' & [[_ ->]|[_ ?]]); [by right|left; by exists i'].
    - intros [[i' Hi']|[= ->]]; [|exists i; by left]. exists i'. right. split; [|done]. intros <-. congruence. }
  eapply tracker_step_inv; [exact Hi|exact Ha| | |cbn; by rewrite lookup_insert_eq| |done| |].
  - split; [|intros *; by rewrite Hslot]. intros i' p' H. cbn. rewrite lookup_insert_ne; [done|]. intros <-. congruence.
  - constructor.
    + intros x [H| ->]%Hpub; [exact (mo_live _ (ti_mem _ Hi) x H)|by eexists].
    + intros i1 i2 p'. cbn. rewrite !lookup_insert_Some. intros [[<- <-]|[Hn1 H1]] [[<- H2]|[Hn2 H2]]; [done| | |].
      * destruct Hunp. by exists i2.
      * subst p'. destruct Hunp. by exists i1.
      * by eapply (mo_l1 _ (ti_mem _ Hi)).
    + intros *. rewrite !Hslot. apply (mo_slot _ (ti_mem _ Hi)).
  - intros b pcb x Hne Hb Hx. destruct (ti_private _ Hi b pcb x Hb Hx) as [Hf Hnp]. split; [done|]. split; [|done].
    rewrite Hpub. intros [?| ->]; [done|]. by apply Hne, (ti_apart _ Hi _ _ _ _ _ Hb Ha Hx).
  - intros x Hx. destruct (decide (x = inl p)) as [->|Hxp]; [left; apply Hpub; by right|]. right. right. split; [done|]. cbn. congruence.
  - intros x Hx. apply Hpub. by left.
Qed.

Lemma tracker_publish_leaf m pcs a c l2 q t :
  tracker_inv (mkTS m pcs) → pcs !! a = Some (PCasLeaf c l2 q) → tm_l2 m !! l2 = Some t → t !! l2_idx c = None →
  tracker_inv (mkTS (set_l2 l2 (<[l2_idx c := q]> t) m) (<[a := PAccess c q]> pcs)).
Proof.
  intros Hi Ha Ht Hn. set (m' := set_l2 l2 _ m). pose proof (ti_knows _ Hi a _ Ha) as Hk. cbn in Hk.
  destruct (ti_private _ Hi a _ _ Ha eq_refl) as [Hq Hunp]. cbn in Hq.
  assert (∀ i j, slot_leaf m' i j = if decide (i = l1_idx c ∧ j = l2_idx c) then Some q else slot_leaf m i j) as Hslot.
  { intros i j. unfold m'. rewrite slot_set_l2. destruct (decide (tm_l1 m !! i = Some l2)) as [E|E].
    - assert (i = l1_idx c) as -> by (by eapply (mo_l1 _ (ti_mem _ Hi))).
      assert (slot_leaf m (l1_idx c) j = t !! j) as -> by (unfold slot_leaf; rewrite E; cbn; by rewrite Ht).
      destruct (decide (j = l2_idx c)) as [->|]; [rewrite lookup_insert_eq, decide_True by done; done|].
      rewrite lookup_insert_ne, decide_False by naive_solver. done.
    - rewrite decide_False; [done|]. intros [-> _]. done. }
  assert (slot_leaf m (l1_idx c) (l2_idx c) = None) as Hnone by (unfold slot_leaf; cbn in Hk; rewrite Hk; cbn; rewrite Ht; done).
  assert (∀ x, published m' x ↔ published m x ∨ x = inr q) as Hpub.
  { intros [p|q']; cbn; [naive_solver|]. setoid_rewrite Hslot. split.
    - intros (i & j & H). case_decide; [injection H as ->; by right|left; by exists i, j].
    - intros [(i & j & H)|[= ->]]; [|exists (l1_idx c), (l2_idx c); by rewrite decide_True]. exists i, j. rewrite decide_False; [done|].
      intros [-> ->]. congruence. }
  assert (∀ x, live m' x ↔ live m x) as Hlive.
  { intros [p|q']; [|done]. cbn. destruct (decide (l2 = p)) as [<-|]; [rewrite lookup_insert_eq, Ht; split; by eexists|by rewrite lookup_insert_ne]. }
  eapply tracker_step_inv; [exact Hi|exact Ha| | |cbn; rewrite Hslot; by rewrite decide_True| |done| |].
  - split; [done|]. intros i j q' H. rewrite Hslot, decide_False; [done|]. intros [-> ->]. congruence.
  - constructor; [|apply (mo_l1 _ (ti_mem _ Hi))|].
    + intros x Hx. apply Hlive. apply Hpub in Hx as [H| ->]; [exact (mo_live _ (ti_mem _ Hi) x H)|by eexists].
    + intros i j i' j' q'. rewrite !Hslot. repeat case_decide; intros H1 H2; simplify_eq.
      * naive_solver.
      * destruct Hunp. by exists i', j'.
      * destruct Hunp. by exists i, j.
      * by eapply (mo_slot _ (ti_mem _ Hi)).
  - intros b pcb x Hne Hb Hx. destruct (ti_private _ Hi b pcb x Hb Hx) as [Hf Hnp]. split; [|split; [|done]].
    + destruct x as [p|]; [|done]. cbn. rewrite lookup_insert_ne; [done|]. intros <-. apply Hnp. by exists (l1_idx c).
    + rewrite Hpub. intros [?| ->]; [done|]. by apply Hne, (ti_apart _ Hi _ _ _ _ _ Hb Ha Hx).
  - intros x Hx. destruct (decide (x = inr q)) as [->|Hxq]; [left; apply Hpub; by right|]. right. right.
    split; [by apply Hlive|]. cbn. congruence.
  - intros x Hx. apply Hpub. by left.
Qed.

(** *** All steps *)

Lemma slot_read m i j q l2 : slot_leaf m i j = Some q → tm_l1 m !! i = Some l2 → ∃ t, tm_l2 m !! l2 = Some t ∧ t !! j = Some q.
Proof. unfold slot_leaf. intros H E. rewrite E in H. cbn in H. destruct (tm_l2 m !! l2) as [t|]; [|done]. eauto. Qed.
Lemma slot_make m i j l2 t : tm_l1 m !! i = Some l2 → tm_l2 m !! l2 = Some t → slot_leaf m i j = t !! j.
Proof. unfold slot_leaf. intros -> H. cbn. by rewrite H. Qed.
Lemma slot_live m i j q : mem_ok m → slot_leaf m i j = Some q → ∃ d, tm_leaf m !! q = Some d.
Proof. intros Hm Hq. apply (mo_live _ Hm (inr q)). by exists i, j. Qed.
Lemma table_live m i l2 : mem_ok m → tm_l1 m !! i = Some l2 → ∃ t, tm_l2 m !! l2 = Some t.
Proof. intros Hm Hi. apply (mo_live _ Hm (inl l2)). by exists i. Qed.

Lemma knows_not_found m c : knows m (not_found c) ∧ private (not_found c) = None.
Proof. by destruct c. Qed.
Lemma knows_access m c leaf d :
  slot_leaf m (l1_idx c) (l2_idx c) = Some leaf → knows m (leaf_access c leaf d).2 ∧ private (leaf_access c leaf d).2 = None.
Proof. intros H. destruct c; cbn; try done. by destruct (leaf_is_dirty _ d). Qed.
Lemma goto_cases m c (f : tcall → tpc) : knows m (f c) → private (f c) = None →
  knows m (if creates c then f c else not_found c) ∧ private (if creates c then f c else not_found c) = None.
Proof. intros. destruct (creates c); [done|apply knows_not_found]. Qed.

Ltac step_to := do 3 eexists; split; [reflexivity|].

Lemma advance_l2 m pcs a pc new :
  tracker_inv (mkTS m pcs) → pcs !! a = Some pc → tm_l2 m !! new = None →
  match pc with PLoadL2 _ | PNewL2 _ | PCasL2 _ _ | PDeleteL2 _ _ | PReloadL2 _ => True | _ => False end →
  ∃ pc' m' tr, advance new pc m = Some (pc', m', tr) ∧ tracker_inv (mkTS m' (<[a := pc']> pcs)).
Proof.
  intros Hi Ha Hnew Hpc. pose proof (ti_knows _ Hi a _ Ha) as Hk. cbn [ts_mem] in Hk.
  destruct pc as [|c|c|c p|c p|c| | | | | | | | | |]; try done; cbn [advance].
  - unfold enter. destruct (match c with CRange _ _ _ => _ | _ => _ end) as [pc'|] eqn:Een.
    + step_to. destruct c; try done. case_match; [done|]. injection Een as <-. by eapply tracker_goto.
    + destruct (tm_l1 m !! l1_idx c) as [l2|] eqn:E; step_to; [by eapply tracker_goto|].
      destruct (goto_cases m c PNewL2) as [Hk' Hp']; [done..|]. by eapply tracker_goto.
  - step_to. apply (tracker_object m _ pcs a _ _ (inl new) Hi Ha); try done.
    + intros i j. rewrite slot_set_l2, decide_False; [done|]. intros E. destruct (table_live _ _ _ (ti_mem _ Hi) E). cbn in *. congruence.
    + intros [p|q] Hne; [|done]. cbn. rewrite lookup_insert_ne by congruence. done.
    + intros [i E]. destruct (table_live _ _ _ (ti_mem _ Hi) E). cbn in *. congruence.
    + left. cbn. rewrite Hnew, lookup_insert_eq. split_and!; try done; apply is_Some_None.
  - destruct (tm_l1 m !! l1_idx c) as [l2|] eqn:E; step_to; [|by apply tracker_publish_l2].
    eapply tracker_goto; [exact Hi|exact Ha| |done]. by exists l2.
  - destruct (ti_private _ Hi a _ _ Ha eq_refl) as [Hp Hunp]. cbn in Hp. rewrite Hp. cbn [mbind option_bind]. step_to.
    assert (∀ i j, slot_leaf (delete_l2 p m) i j = slot_leaf m i j) as Hsl by (intros; by apply slot_delete_l2).
    apply (tracker_object m _ pcs a _ _ (inl p) Hi Ha); try done.
    + intros [p'|q] Hne; [|done]. cbn. rewrite lookup_delete_ne by congruence. done.
    + right. cbn. rewrite lookup_delete_eq. split_and!; try done; apply is_Some_None.
  - destruct Hk as [l2 Hl2]. rewrite Hl2. cbn [mbind option_bind]. step_to. by eapply tracker_goto.
Qed.

Lemma advance_leaf m pcs a pc new :
  tracker_inv (mkTS m pcs) → pcs !! a = Some pc → tm_leaf m !! new = None →
  match pc with PLoadLeaf _ _ | PNewLeaf _ _ | PCasLeaf _ _ _ | PDeleteLeaf _ _ _ | PReloadLeaf _ _ => True | _ => False end →
  ∃ pc' m' tr, advance new pc m = Some (pc', m', tr) ∧ tracker_inv (mkTS m' (<[a := pc']> pcs)).
Proof.
  intros Hi Ha Hnew Hpc. pose proof (ti_knows _ Hi a _ Ha) as Hk. pose proof (ti_mem _ Hi) as Hm. cbn [ts_mem] in *.
  destruct pc as [| | | | | |c l2|c l2|c l2 q|c l2 q|c l2| | | | |]; try done; cbn [advance]; cbn in Hk.
  - destruct (table_live _ _ _ Hm Hk) as [t Ht]. rewrite Ht. cbn [mbind option_bind].
    destruct (t !! l2_idx c) as [q|] eqn:E; step_to.
    + eapply tracker_goto; [exact Hi|exact Ha| |done]. cbn. change (slot_leaf m (l1_idx c) (l2_idx c) = Some q). by rewrite (slot_make _ _ _ _ _ Hk Ht).
    + destruct (goto_cases m c (λ c, PNewLeaf c l2)) as [Hk' Hp']; [done..|]. by eapply tracker_goto.
  - step_to. apply (tracker_object m _ pcs a _ _ (inr new) Hi Ha); try done.
    + intros [p|q] Hne; [done|]. cbn. rewrite lookup_insert_ne by congruence. done.
    + intros (i & j & E). destruct (slot_live _ _ _ _ Hm E). congruence.
    + left. cbn. rewrite Hnew, lookup_insert_eq. split_and!; try done; apply is_Some_None.
  - destruct (table_live _ _ _ Hm Hk) as [t Ht]. rewrite Ht. cbn [mbind option_bind].
    destruct (t !! l2_idx c) as [q'|] eqn:E; step_to; [|by apply tracker_publish_leaf].
    eapply tracker_goto; [exact Hi|exact Ha| |done]. split; [done|]. exists q'. by rewrite (slot_make _ _ _ _ _ Hk Ht).
  - destruct (ti_private _ Hi a _ _ Ha eq_refl) as [Hp Hunp]. cbn in Hp. rewrite Hp. cbn [mbind option_bind]. step_to.
    apply (tracker_object m _ pcs a _ _ (inr q) Hi Ha); try done.
    + intros [p'|q'] Hne; [done|]. cbn. rewrite lookup_delete_ne by congruence. done.
    + right. cbn. rewrite lookup_delete_eq. split_and!; try done; apply is_Some_None.
  - destruct Hk as [Hl2 [q Hq]]. destruct (slot_read _ _ _ _ _ Hq Hl2) as (t & Ht & Hj). rewrite Ht. cbn [mbind option_bind].
    change (split_va (call_va c)).1.2 with (l2_idx c) in Hj. rewrite Hj. cbn [mbind option_bind]. step_to. by eapply tracker_goto.
Qed.

Lemma tracker_advance m pcs a pc new :
  tracker_inv (mkTS m pcs) → pcs !! a = Some pc → tm_l2 m !! new = None → tm_leaf m !! new = None →
  ∃ pc' m' tr, advance new pc m = Some (pc', m', tr) ∧ tracker_inv (mkTS m' (<[a := pc']> pcs)).
Proof.
  intros Hi Ha Hn1 Hn2. pose proof (ti_knows _ Hi a _ Ha) as Hk. cbn [ts_mem] in Hk. pose proof (ti_mem _ Hi) as Hm. cbn [ts_mem] in Hm.
  destruct pc as [|c|c|c p|c p|c|c l2|c l2|c l2 q|c l2 q|c l2|c q|va q|va q|addr stop any bits|r];
    try (by apply advance_l2); try (by apply advance_leaf); cbn [advance].
  - step_to. by eapply tracker_goto.
  - destruct (slot_live _ _ _ _ Hm Hk) as [d Hd]. rewrite Hd. cbn [mbind option_bind].
    destruct (knows_access m c q d Hk) as [Hk' Hp']. destruct (leaf_access c q d) as [d' pc'] eqn:E. step_to.
    by eapply tracker_write.
  - step_to. by eapply tracker_goto.
  - destruct (slot_live _ _ _ _ Hm Hk) as [d Hd]. rewrite Hd. cbn [mbind option_bind]. step_to. by eapply tracker_write.
  - destruct (bits =? 0); step_to; by eapply tracker_goto.
  - step_to. by eapply tracker_goto.
Qed.
End invariant.

(** ** The simulation *)

Section simulation.
Context `{cfg : Config}.
Implicit Types (m : tracker_mem) (c : tcall) (pc : tpc) (a b p q : nat) (i j d : Z) (s : tracker_sys) (t : CacheLineTracker).

Definition word t i j : Z := default 0 (find_leaf i j t).
Definition spec_of pc : tspec :=
  match pc with
  | PIdle => SIdle
  | PLoadL2 c | PNewL2 c | PCasL2 c _ | PDeleteL2 c _ | PReloadL2 c | PLoadLeaf c _ | PNewLeaf c _ | PCasLeaf c _ _
  | PDeleteLeaf c _ _ | PReloadLeaf c _ | PAccess c _ => SCalled c
  | PFlushLine va _ => SFlushLine va
  | PClearLine va _ => SClearLine va
  | PFlushBits addr stop any_dirty bits => SFlushBits addr stop any_dirty bits
  | PReturn r => SReturn r
  end.
(** Past the test of the range loop. *)
Definition entered pc : Prop := match pc with PLoadL2 _ => True | _ => ∀ c, pc_call pc = Some c → enter c = None end.

Record sim s (t : spec_sys) : Prop := {
  sm_inv : tracker_inv s;
  sm_threads : ss_threads t = map spec_of (ts_pcs s);
  sm_words i j : mem_word (ts_mem s) i j = word (ss_tracker t) i j;
  sm_entered a pc : ts_pcs s !! a = Some pc → entered pc;
}.

(** *** Words *)

Lemma word_put i j d t t' i' j' :
  (∀ x y, find_leaf x y t' = find_leaf x y (put_leaf i j d t)) → word t' i' j' = if decide (i = i' ∧ j = j') then d else word t i' j'.
Proof. intros H. unfold word. rewrite H, find_put_leaf. by case_decide. Qed.

(** A call commits as its access does to the word of its slot. *)
Lemma word_mark va mask t i j :
  word (mark_dirty_with_mask va mask t) i j =
    if decide ((split_va va).1.1 = i ∧ (split_va va).1.2 = j) then word t i j |w mask else word t i j.
Proof.
  unfold mark_dirty_with_mask. destruct (split_va va) as [[l1 l2] ln]. cbn [fst snd].
  pose proof (get_or_create_leaf_spec l1 l2 t) as Hg. destruct (get_or_create_leaf l1 l2 t) as [leaf t1]. destruct Hg as [-> Hg].
  rewrite (word_put l1 l2 _ t) by apply Hg. case_decide as H; [|done]. destruct H as [<- <-]. done.
Qed.
Lemma mark_is_mask va t : mark_dirty va t = mark_dirty_with_mask va (1 <<w (split_va va).2) t.
Proof. unfold mark_dirty, mark_dirty_with_mask. destruct (split_va va) as [[l1 l2] ln]. by destruct (get_or_create_leaf l1 l2 t). Qed.
Lemma word_clear va t i j :
  word (clear_dirty va t) i j =
    if decide ((split_va va).1.1 = i ∧ (split_va va).1.2 = j) then leaf_clear_dirty (split_va va).2 (word t i j) else word t i j.
Proof.
  assert (clear_dirty va t = match find_leaf (split_va va).1.1 (split_va va).1.2 t with
    | Some leaf => put_leaf (split_va va).1.1 (split_va va).1.2 (leaf_clear_dirty (split_va va).2 leaf) t | None => t end) as ->.
  { unfold clear_dirty, find_leaf. destruct (split_va va) as [[l1 l2] ln]. cbn [fst snd]. destruct (t !! l1) as [u|]; [|done]. cbn.
    by destruct (u !! l2). }
  destruct (find_leaf _ _ t) as [leaf|] eqn:E.
  - rewrite (word_put (split_va va).1.1 (split_va va).1.2 (leaf_clear_dirty (split_va va).2 leaf) t) by done.
    case_decide as H; [|done]. destruct H as [<- <-]. unfold word. by rewrite E.
  - case_decide as H; [|done]. destruct H as [<- <-]. unfold word. rewrite E. done.
Qed.
Lemma is_dirty_word va t : is_dirty va t = leaf_is_dirty (split_va va).2 (word t (split_va va).1.1 (split_va va).1.2).
Proof.
  unfold is_dirty, word, find_leaf. destruct (split_va va) as [[l1 l2] ln]. cbn [fst snd].
  destruct (t !! l1) as [u|]; [|done]. cbn. by destruct (u !! l2).
Qed.
Lemma range_pass_word addr stop t i j :
  let sp := split_va addr in let d := word t sp.1.1 sp.1.2 in let mask := range_mask addr sp.2 stop in
  (range_pass addr stop t).1 = d &w mask ∧
  word (range_pass addr stop t).2 i j = if decide (sp.1.1 = i ∧ sp.1.2 = j) then d &w not64 mask else word t i j.
Proof.
  unfold range_pass. destruct (split_va addr) as [[l1 l2] ln]. cbn [fst snd].
  assert (word t l1 l2 = default 0 (find_leaf l1 l2 t)) as -> by done.
  destruct (find_leaf l1 l2 t) as [leaf|] eqn:E; cbn [default leaf_clear_dirty_with_mask fst snd]; (split; [done|]).
  - by rewrite (word_put l1 l2 (leaf &w not64 (range_mask addr ln stop)) t).
  - case_decide as H; [|done]. destruct H as [<- <-]. unfold word. rewrite E. done.
Qed.

Lemma commit_access c t leaf i j :
  enter c = None →
  let d := word t (l1_idx c) (l2_idx c) in
  (commit c t).1 = spec_of (leaf_access c leaf d).2 ∧
  word (commit c t).2 i j = if decide (l1_idx c = i ∧ l2_idx c = j) then (leaf_access c leaf d).1 else word t i j.
Proof.
  intros Hen d. unfold l1_idx, l2_idx, line in *.
  assert (∀ x y, word t i j = if decide (x = i ∧ y = j) then word t x y else word t i j) as Hsame
    by (intros x y; case_decide as H; [by destruct H as [-> ->]|done]).
  destruct c as [va|va mask|va|va|va|addr stop any]; cbn [commit leaf_access fst snd spec_of call_va] in *; unfold line; cbn [call_va].
  - split; [done|]. rewrite mark_is_mask, word_mark. case_decide as H; [|done]. destruct H as [<- <-]. done.
  - split; [done|]. rewrite word_mark. case_decide as H; [|done]. destruct H as [<- <-]. done.
  - split; [|apply Hsame]. by rewrite is_dirty_word.
  - rewrite is_dirty_word. fold d. split; [|apply Hsame]. by destruct (leaf_is_dirty (split_va va).2 d).
  - split; [done|]. rewrite word_clear. case_decide as H; [|done]. destruct H as [<- <-]. done.
  - cbn in Hen. destruct (addr <? stop); [|done]. destruct (range_pass_word addr stop t i j) as [H1 H2].
    destruct (range_pass addr stop t) as [was t']. cbn [fst snd] in *. subst was. split; [done|exact H2].
Qed.

(** *** Memories with the same words *)

Lemma mem_word_same m m' :
  (∀ i j, slot_leaf m' i j = slot_leaf m i j) → (∀ i j q, slot_leaf m i j = Some q → tm_leaf m' !! q = tm_leaf m !! q) →
  ∀ i j, mem_word m' i j = mem_word m i j.
Proof.
  intros H1 H2 i j. unfold mem_word. rewrite H1. destruct (slot_leaf m i j) as [q|] eqn:E; [|done]. cbn. by erewrite H2.
Qed.
Lemma mem_word_set m i j q d i' j' :
  mem_ok m → slot_leaf m i j = Some q → mem_word (set_leaf q d m) i' j' = if decide (i = i' ∧ j = j') then d else mem_word m i' j'.
Proof.
  intros Hm Hq. unfold mem_word. change (slot_leaf (set_leaf q d m) i' j') with (slot_leaf m i' j').
  destruct (decide (i = i' ∧ j = j')) as [[<- <-]|Hn]; [rewrite Hq; cbn; by rewrite lookup_insert_eq|].
  destruct (slot_leaf m i' j') as [q'|] eqn:E; [|done]. cbn. rewrite lookup_insert_ne; [done|]. intros <-.
  apply Hn. by eapply mo_slot.
Qed.
Lemma mem_word_at m i j q d : slot_leaf m i j = Some q → tm_leaf m !! q = Some d → mem_word m i j = d.
Proof. unfold mem_word. intros -> H. cbn. by rewrite H. Qed.

(** *** What a step of a thread is in the specification *)

Definition flush_label (tr : trace) : list tlabel := match tr with [] => [] | _ => [LFlush tr] end.
Inductive spec_path : tspec → CacheLineTracker → list tlabel → tspec → CacheLineTracker → Prop :=
  | path_nil x t : spec_path x t [] x t
  | path_cons x t x1 t1 tr ls x2 t2 :
      spec_advance x t = Some (x1, t1, tr) → spec_path x1 t1 ls x2 t2 → spec_path x t (flush_label tr ++ ls) x2 t2.
Lemma path_one x t x' t' tr : spec_advance x t = Some (x', t', tr) → spec_path x t (flush_label tr) x' t'.
Proof. intros H. rewrite <- (app_nil_r (flush_label tr)). by eapply path_cons, path_nil. Qed.

Lemma path_app x t ls y u ls' z v : spec_path x t ls y u → spec_path y u ls' z v → spec_path x t (ls ++ ls') z v.
Proof. induction 1 as [|x t x1 t1 tr ls x2 t2 Hs _ IH]; [done|]. intros H. rewrite <- app_assoc. eapply path_cons; [done|]. by apply IH. Qed.

Lemma commit_path c t leaf :
  enter c = None → let d := word t (l1_idx c) (l2_idx c) in
  ∃ t', spec_path (SCalled c) t [] (spec_of (leaf_access c leaf d).2) t' ∧
    ∀ i j, word t' i j = if decide (l1_idx c = i ∧ l2_idx c = j) then (leaf_access c leaf d).1 else word t i j.
Proof.
  intros Hen d. exists (commit c t).2. split; [|intros i j; by apply commit_access].
  destruct (commit_access c t leaf 0 0 Hen) as [H _]. fold d in H. rewrite <- H.
  apply (path_one (SCalled c) t (commit c t).1 (commit c t).2 []). cbn. by destruct (commit c t).
Qed.

Lemma not_found_path c t :
  enter c = None → creates c = false → word t (l1_idx c) (l2_idx c) = 0 →
  ∃ t', spec_path (SCalled c) t [] (spec_of (not_found c)) t' ∧ ∀ i j, word t' i j = word t i j.
Proof.
  intros Hen Hcr H0. destruct (commit_path c t 0 Hen) as (t' & Hp & Hw). cbn zeta in *. rewrite H0 in *.
  assert ((leaf_access c 0 0).1 = 0) as Hd by (destruct c; done). rewrite Hd in Hw.
  exists t'. split.
  - destruct c as [va|va mask|va|va|va|addr stop any]; try done. cbn in Hp. rewrite orb_false_r in Hp.
    apply (path_app _ _ _ _ _ [] _ _ Hp). by apply (path_one _ t' _ t' []).
  - intros i j. rewrite Hw. case_decide as H; [|done]. by destruct H as [<- <-].
Qed.

Lemma entered_access c leaf d : entered (leaf_access c leaf d).2.
Proof. destruct c; cbn; try done. by destruct (leaf_is_dirty _ d). Qed.
Lemma entered_not_found c : entered (not_found c).
Proof. by destruct c. Qed.
Lemma entered_call c pc : enter c = None → pc_call pc = Some c → entered pc.
Proof. intros H E. destruct pc; try done; intros c' E'; congruence. Qed.

Lemma silent_path pc pc' m m' t :
  (∀ i j, mem_word m i j = word t i j) → spec_of pc' = spec_of pc → (∀ i j, mem_word m' i j = mem_word m i j) → entered pc' →
  ∃ t', spec_path (spec_of pc) t [] (spec_of pc') t' ∧ (∀ i j, mem_word m' i j = word t' i j) ∧ entered pc'.
Proof. intros Ht -> Hm He. exists t. split; [apply path_nil|]. split; [|done]. intros i j. by rewrite Hm. Qed.
Lemma lost_path m pc c t :
  (∀ i j, mem_word m i j = word t i j) → spec_of pc = SCalled c → enter c = None → creates c = false → slot_leaf m (l1_idx c) (l2_idx c) = None →
  ∃ t', spec_path (spec_of pc) t [] (spec_of (not_found c)) t' ∧ (∀ i j, mem_word m i j = word t' i j) ∧ entered (not_found c).
Proof.
  intros Ht Hpc Hen Hcr Hn. destruct (not_found_path c t Hen Hcr) as (t' & Hp & Hw).
  { rewrite <- Ht. unfold mem_word. by rewrite Hn. }
  exists t'. rewrite Hpc. split; [done|]. split; [|apply entered_not_found]. intros i j. by rewrite Hw.
Qed.

(** The steps on the way to the leaf change no word. *)
Lemma advance_walk m pcs a pc pc' m' tr new t :
  tracker_inv (mkTS m pcs) → pcs !! a = Some pc → entered pc → tm_l2 m !! new = None → tm_leaf m !! new = None →
  (∀ i j, mem_word m i j = word t i j) → advance new pc m = Some (pc', m', tr) →
  match pc with PIdle | PAccess _ _ | PFlushLine _ _ | PClearLine _ _ | PFlushBits _ _ _ _ | PReturn _ => False | _ => True end →
  ∃ t', spec_path (spec_of pc) t (flush_label tr) (spec_of pc') t' ∧ (∀ i j, mem_word m' i j = word t' i j) ∧ entered pc'.
Proof.
  intros Hi Ha Hen Hn1 Hn2 Ht Hadv Hpc. pose proof (ti_knows _ Hi a _ Ha) as Hk. pose proof (ti_mem _ Hi) as Hm.
  pose proof (ti_private _ Hi a pc) as Hpriv. cbn [ts_mem ts_pcs] in *.
  destruct pc as [|c|c|c p|c p|c|c l2|c l2|c l2 q|c l2 q|c l2| | | | |]; try done; cbn [advance] in Hadv; cbv zeta in Hadv; cbn in Hk;
    try (specialize (Hen c eq_refl) as Hen').
  - destruct (enter c) as [pc0|] eqn:Een.
    + injection Hadv as <- <- <-. destruct c as [| | | | |addr stop any]; try done. cbn in Een.
      destruct (addr <? stop) eqn:Elt; [done|]. injection Een as <-. exists t. split; [|done]. apply (path_one _ t _ t []). cbn. by rewrite Elt.
    + destruct (tm_l1 m !! l1_idx c) as [l2|] eqn:E; injection Hadv as <- <- <-; [by apply (silent_path _ _ m); try done; apply (entered_call c)|].
      destruct (creates c) eqn:Ecr; [by apply (silent_path _ _ m); try done; apply (entered_call c)|]. apply lost_path; try done. unfold slot_leaf. by rewrite E.
  - injection Hadv as <- <- <-. apply (silent_path _ _ m); try done. apply mem_word_same; [|done]. intros i j.
    rewrite slot_set_l2, decide_False; [done|]. intros E. destruct (table_live _ _ _ Hm E). congruence.
  - destruct (Hpriv _ Ha eq_refl) as [Hp _]. cbn in Hp.
    destruct (tm_l1 m !! l1_idx c) as [l2|] eqn:E; injection Hadv as <- <- <-; [by apply (silent_path _ _ m)|].
    apply (silent_path _ _ m); try done. apply mem_word_same; [|done]. intros i j. by apply slot_set_l1.
  - destruct (Hpriv _ Ha eq_refl) as [Hp Hunp]. cbn in Hp. rewrite Hp in Hadv. injection Hadv as <- <- <-.
    apply (silent_path _ _ m); try done. apply mem_word_same; [|done]. intros i j. by apply slot_delete_l2.
  - destruct Hk as [l2 Hl2]. rewrite Hl2 in Hadv. injection Hadv as <- <- <-. by apply (silent_path _ _ m).
  - destruct (table_live _ _ _ Hm Hk) as [u Hu]. rewrite Hu in Hadv. cbn in Hadv.
    destruct (u !! l2_idx c) as [q|] eqn:E; injection Hadv as <- <- <-; [by apply (silent_path _ _ m)|].
    destruct (creates c) eqn:Ecr; [by apply (silent_path _ _ m)|]. apply lost_path; try done. by rewrite (slot_make _ _ _ _ _ Hk Hu).
  - injection Hadv as <- <- <-. apply (silent_path _ _ m); try done. apply mem_word_same; [done|]. intros i j q Hq.
    cbn. rewrite lookup_insert_ne; [done|]. intros <-. destruct (slot_live _ _ _ _ Hm Hq). congruence.
  - destruct (Hpriv _ Ha eq_refl) as [Hp Hunp]. cbn in Hp. destruct (table_live _ _ _ Hm Hk) as [u Hu]. rewrite Hu in Hadv. cbn in Hadv.
    destruct (u !! l2_idx c) as [q'|] eqn:E; injection Hadv as <- <- <-; [by apply (silent_path _ _ m)|].
    apply (silent_path _ _ m); try done. intros i j. unfold mem_word. rewrite slot_set_l2. case_decide as Hd; [|done].
    rewrite (slot_make m i j l2 u) by done. change (tm_leaf (set_l2 _ _ m)) with (tm_leaf m).
    destruct (decide (j = l2_idx c)) as [->|]; [|by rewrite lookup_insert_ne]. rewrite lookup_insert_eq, E. cbn. by rewrite Hp.
  - destruct (Hpriv _ Ha eq_refl) as [Hp Hunp]. cbn in Hp. rewrite Hp in Hadv. injection Hadv as <- <- <-.
    apply (silent_path _ _ m); try done. apply mem_word_same; [done|]. intros i j q' Hq. cbn. rewrite lookup_delete_ne; [done|].
    intros <-. apply Hunp. by exists i, j.
  - destruct Hk as [Hl2 [q Hq]]. destruct (slot_read _ _ _ _ _ Hq Hl2) as (u & Hu & Hj). rewrite Hu in Hadv. cbn in Hadv.
    change (split_va (call_va c)).1.2 with (l2_idx c) in Hj. rewrite Hj in Hadv. injection Hadv as <- <- <-. by apply (silent_path _ _ m).
Qed.

Lemma advance_sim m pcs a pc pc' m' tr new t :
  tracker_inv (mkTS m pcs) → pcs !! a = Some pc → entered pc → tm_l2 m !! new = None → tm_leaf m !! new = None →
  pc ≠ PIdle → (∀ r, pc ≠ PReturn r) → (∀ i j, mem_word m i j = word t i j) → advance new pc m = Some (pc', m', tr) →
  ∃ t', spec_path (spec_of pc) t (flush_label tr) (spec_of pc') t' ∧ (∀ i j, mem_word m' i j = word t' i j) ∧ entered pc'.
Proof.
  intros Hi Ha Hen Hn1 Hn2 Hne Hnr Ht Hadv. pose proof (ti_knows _ Hi a _ Ha) as Hk. pose proof (ti_mem _ Hi) as Hm. cbn [ts_mem] in *.
  destruct pc as [|c|c|c p|c p|c|c l2|c l2|c l2 q|c l2 q|c l2|c q|va q|va q|addr stop any bits|r];
    try (by eapply advance_walk); cbn [advance] in Hadv; cbv zeta in Hadv; cbn in Hk; [ | | | |by destruct (Hnr r)].
  - destruct (slot_live _ _ _ _ Hm Hk) as [d Hd]. rewrite Hd in Hadv. cbn in Hadv. pose proof (mem_word_at _ _ _ _ _ Hk Hd) as Hwd.
    destruct (commit_path c t q (Hen c eq_refl)) as (t' & Hp & Hw). cbn zeta in *. rewrite <- Ht in *.
    change (slot_leaf m (l1_idx c) (l2_idx c) = Some q) in Hk. change (mem_word m (l1_idx c) (l2_idx c) = d) in Hwd. rewrite Hwd in *.
    pose proof (entered_access c q d) as Hea. destruct (leaf_access c q d) as [d' pc1] eqn:E. injection Hadv as <- <- <-.
    exists t'. split; [done|]. split; [|done]. intros i j. rewrite (mem_word_set _ _ _ _ _ _ _ Hm Hk), Hw. case_decide; [done|apply Ht].
  - injection Hadv as <- <- <-. exists t. split; [by apply path_one|]. done.
  - destruct (slot_live _ _ _ _ Hm Hk) as [d Hd]. rewrite Hd in Hadv. cbn in Hadv. pose proof (mem_word_at _ _ _ _ _ Hk Hd) as Hwd.
    injection Hadv as <- <- <-. exists (clear_dirty va t). split; [by apply (path_one _ t _ (clear_dirty va t) [])|]. split; [|done].
    intros i j. rewrite (mem_word_set _ _ _ _ _ _ _ Hm Hk), word_clear. case_decide as H; [|apply Ht]. destruct H as [<- <-]. by rewrite <- Ht, Hwd.
  - assert (spec_advance (SFlushBits addr stop any bits) t =
      Some ((next_bits addr stop any bits).1, t, (next_bits addr stop any bits).2)) as Hs by (cbn; by destruct (next_bits _ _ _ _)).
    apply path_one in Hs. exists t. unfold next_bits in Hs. destruct (bits =? 0); injection Hadv as <- <- <-; done.
Qed.

(** *** Runs *)

Lemma runs_app {S} (step : S → nat → list tlabel → S → Prop) (x y z : S) l1 l2 :
  runs step x l1 y → runs step y l2 z → runs step x (l1 ++ l2) z.
Proof. induction 1 as [|x a ls x' tr y Hs _ IH]; [done|]. intros H. rewrite <- app_assoc. eapply runs_cons; [done|]. by apply IH. Qed.
Lemma runs_one {S} (step : S → nat → list tlabel → S → Prop) (x y : S) a ls : step x a ls y → runs step x (map (pair a) ls) y.
Proof. intros H. rewrite <- (app_nil_r (map _ _)). by eapply runs_cons, runs_nil. Qed.

Lemma path_runs x t ls x' t' : spec_path x t ls x' t' → ∀ a xs, xs !! a = Some x →
  runs spec_step (mkSS t xs) (map (pair a) ls) (mkSS t' (<[a := x']> xs)).
Proof.
  induction 1 as [x t|x t x1 t1 tr ls x2 t2 Hs _ IH]; intros a xs Ha; [rewrite list_insert_id by done; apply runs_nil|].
  rewrite map_app. eapply runs_cons; [by eapply sp_advance|].
  assert (<[a:=x2]> xs = <[a:=x2]> (<[a:=x1]> xs)) as -> by (by rewrite list_insert_insert_eq).
  apply IH. apply list_lookup_insert_eq. by eapply lookup_lt_Some.
Qed.

Lemma spec_lookup pcs a pc : pcs !! a = Some pc → map spec_of pcs !! a = Some (spec_of pc).
Proof. intros H. by rewrite list_lookup_fmap, H. Qed.

Lemma sim_step s a ls s' (t : spec_sys) : tracker_step s a ls s' → sim s t → ∃ u : spec_sys, runs spec_step t (map (pair a) ls) u ∧ sim s' u.
Proof.
  intros Hs [Hi Hth Hw Hen]. destruct t as [t xs]. cbn [ss_threads ss_tracker] in *. subst xs.
  destruct Hs as [a c m pcs Ha Hc Hok|a new pc pc' m m' tr pcs Ha Hne Hnr Hn1 Hn2 Hadv|a r m pcs Ha]; cbn [ts_mem ts_pcs] in *.
  - exists (mkSS t (map spec_of (<[a := PLoadL2 c]> pcs))). split.
    + rewrite list_fmap_insert. apply runs_one, sp_call; [by apply spec_lookup in Ha|done..].
    + constructor; cbn [ts_mem ts_pcs]; [by eapply tracker_goto|done|done|].
      intros b pcb [(<- & <- & _)|[_ Hb]]%list_lookup_insert_Some; [done|by eapply Hen].
  - destruct (advance_sim m pcs a pc pc' m' tr new t Hi Ha (Hen _ _ Ha) Hn1 Hn2 Hne Hnr Hw Hadv) as (t' & Hp & Hw' & He').
    destruct (tracker_advance m pcs a pc new Hi Ha Hn1 Hn2) as (pc1 & m1 & tr1 & Hadv' & Hi'). rewrite Hadv in Hadv'. injection Hadv' as <- <- <-.
    exists (mkSS t' (map spec_of (<[a := pc']> pcs))). split.
    + rewrite list_fmap_insert. change (match tr with [] => [] | _ => [LFlush tr] end) with (flush_label tr).
      by apply (path_runs (spec_of pc)), spec_lookup.
    + constructor; cbn [ts_mem ts_pcs]; [done|done|done|].
      intros b pcb [(<- & <- & _)|[_ Hb]]%list_lookup_insert_Some; [done|by eapply Hen].
  - exists (mkSS t (map spec_of (<[a := PIdle]> pcs))). split.
    + rewrite list_fmap_insert. apply runs_one, (sp_return a r); by apply spec_lookup in Ha.
    + constructor; cbn [ts_mem ts_pcs]; [by eapply tracker_goto|done|done|].
      intros b pcb [(<- & <- & _)|[_ Hb]]%list_lookup_insert_Some; [done|by eapply Hen].
Qed.

Lemma init_sim n : sim (tracker_init n) (spec_init n).
Proof.
  assert (∀ a pc, replicate n PIdle !! a = Some pc → pc = PIdle) as Hidle by (intros a pc [-> _]%lookup_replicate_1; done).
  constructor; cbn [tracker_init spec_init ts_mem ts_pcs ss_tracker ss_threads].
  - constructor; cbn [tracker_init ts_mem ts_pcs].
    + constructor.
      * intros [p|q]; [intros [i H]|intros (i & j & H)]; discriminate H.
      * intros i i' p H. discriminate H.
      * intros i j i' j' q H. discriminate H.
    + intros a pc x H%Hidle. by subst.
    + intros a b pc pc' x H%Hidle. by subst.
    + intros a pc H%Hidle. by subst.
    + intros [p|q] [? H]; discriminate H.
  - unfold spec_init. symmetry. apply fmap_replicate.
  - done.
  - intros a pc H%Hidle. by subst.
Qed.

Lemma sim_runs s ls s' : runs tracker_step s ls s' → ∀ t : spec_sys, sim s t → ∃ u : spec_sys, runs spec_step t ls u ∧ sim s' u.
Proof.
  induction 1 as [s|s a ls s1 tr s2 Hs _ IH]; intros t Ht; [exists t; split; [apply runs_nil|done]|].
  destruct (sim_step _ _ _ _ _ Hs Ht) as (t1 & H1 & Ht1). destruct (IH t1 Ht1) as (t2 & H2 & Ht2).
  exists t2. split; [by eapply runs_app|done].
Qed.
End simulation.

(** ** The destructor *)

Section destructor.
Context `{cfg : Config}.
Implicit Types (m : tracker_mem) (i j : Z) (p q : nat).

Lemma destroy_leaves m (t : gmap Z nat) (js : list Z) :
  NoDup js → (∀ j q, j ∈ js → t !! j = Some q → is_Some (tm_leaf m !! q)) → (∀ j j' q, t !! j = Some q → t !! j' = Some q → j = j') →
  ∃ h, foldl (λ om j, m ← om; destroy_leaf (t !! j) m) (Some m) js = Some (mkMem (tm_l1 m) (tm_l2 m) h) ∧
    ∀ q, (is_Some (h !! q) ↔ is_Some (tm_leaf m !! q) ∧ ∀ j, j ∈ js → t !! j ≠ Some q).
Proof.
  revert m. induction js as [|j js IH]; intros m Hnd Hl Hinj.
  { exists (tm_leaf m). split; [by destruct m|]. intros q. split; [|tauto]. intros H. split; [done|]. by intros j ?%not_elem_of_nil. }
  apply NoDup_cons in Hnd as [Hj Hnd]. cbn [foldl mbind option_bind].
  destruct (t !! j) as [q0|] eqn:E.
  - destruct (Hl j q0) as [d Hd]; [by left|done|]. cbn [destroy_leaf]. rewrite Hd. cbn [mbind option_bind].
    destruct (IH (delete_leaf q0 m)) as (h & Hf & Hh); [done| |done|].
    { intros j' q Hj' Hq. cbn. rewrite lookup_delete_ne; [apply (Hl j'); [by right|done]|]. intros <-. apply Hj. by rewrite (Hinj j j' q0). }
    exists h. split; [exact Hf|]. intros q. rewrite Hh. cbn. destruct (decide (q0 = q)) as [<-|Hne].
    + rewrite lookup_delete_eq. split; [by intros [[? ?] _]|]. intros [_ H]. destruct (H j); [by left|done].
    + rewrite lookup_delete_ne by done. setoid_rewrite elem_of_cons. split; intros [H1 H2]; (split; [done|]); [|by eauto].
      intros j' [->|Hj'] Hq; [congruence|by apply (H2 j')].
  - cbn [destroy_leaf]. destruct (IH m) as (h & Hf & Hh); [done| |done|]; [intros j' q Hj'; apply Hl; by right|].
    exists h. split; [exact Hf|]. intros q. rewrite Hh. setoid_rewrite elem_of_cons. split; intros [H1 H2]; (split; [done|]); [|by eauto].
    intros j' [->|Hj'] Hq; [congruence|by apply (H2 j')].
Qed.

(** The slots of the tables still to come. *)
Record still_ok (idxs : list Z) m : Prop := {
  st_table i p : i ∈ idxs → tm_l1 m !! i = Some p → is_Some (tm_l2 m !! p);
  st_leaf i j q : i ∈ idxs → slot_leaf m i j = Some q → is_Some (tm_leaf m !! q);
  st_l1 i i' p : i ∈ idxs → i' ∈ idxs → tm_l1 m !! i = Some p → tm_l1 m !! i' = Some p → i = i';
  st_slot i j i' j' q : i ∈ idxs → i' ∈ idxs → slot_leaf m i j = Some q → slot_leaf m i' j' = Some q → i = i' ∧ j = j';
}.

Lemma destroy_tables m (idxs : list Z) :
  NoDup idxs → still_ok idxs m →
  ∃ m', foldl (λ om i, m ← om; destroy_table m i) (Some m) idxs = Some m' ∧
    (∀ p, is_Some (tm_l2 m' !! p) → is_Some (tm_l2 m !! p) ∧ ∀ i, i ∈ idxs → tm_l1 m !! i ≠ Some p) ∧
    (∀ q, is_Some (tm_leaf m' !! q) → is_Some (tm_leaf m !! q) ∧
       ∀ i j, i ∈ idxs → 0 ≤ j < L2_ENTRIES → slot_leaf m i j ≠ Some q).
Proof.
  revert m. induction idxs as [|i idxs IH]; intros m Hnd Hst.
  { exists m. split; [done|]. split; intros x Hx; (split; [done|]); [by intros i ?%not_elem_of_nil|by intros i j ?%not_elem_of_nil]. }
  apply NoDup_cons in Hnd as [Hi Hnd]. cbn [foldl mbind option_bind]. unfold destroy_table at 2.
  destruct (tm_l1 m !! i) as [p0|] eqn:E.
  - destruct (st_table _ _ Hst i p0) as [t Ht]; [by left|done|]. rewrite Ht. cbn [mbind option_bind].
    assert (∀ j, slot_leaf m i j = t !! j) as Hsl by (intros j; by apply (slot_make m i j p0)).
    destruct (destroy_leaves m t (seqZ 0 L2_ENTRIES)) as (h & -> & Hh);
      [apply NoDup_seqZ|intros j q _ Hq; apply (st_leaf _ _ Hst i j); [by left|by rewrite Hsl]| |].
    { intros j j' q H1 H2. rewrite <- Hsl in H1, H2. by eapply (st_slot _ _ Hst i j i j'); [left|left| |]. }
    cbn [mbind option_bind]. set (m1 := delete_l2 p0 (mkMem (tm_l1 m) (tm_l2 m) h)).
    assert (∀ i' p, i' ∈ idxs → tm_l1 m !! i' = Some p → p ≠ p0) as Hother.
    { intros i' p Hi' Hp ->. apply Hi. rewrite (st_l1 _ _ Hst i i' p0); [done|by left|by right|done|done]. }
    assert (∀ i' j, i' ∈ idxs → slot_leaf m1 i' j = slot_leaf m i' j) as Hsl1.
    { intros i' j Hi'. unfold slot_leaf, m1. cbn. destruct (tm_l1 m !! i') as [p|] eqn:Ep; [|done]. cbn.
      rewrite lookup_delete_ne; [done|]. intros <-. by apply (Hother i' p0). }
    destruct (IH m1 Hnd) as (m' & Hf & H1 & H2).
    { constructor.
      - intros i' p Hi' Hp. cbn. rewrite lookup_delete_ne; [apply (st_table _ _ Hst i'); [by right|done]|]. intros <-. by apply (Hother i' p0).
      - intros i' j q Hi' Hq. rewrite Hsl1 in Hq by done. cbn. apply Hh. split; [apply (st_leaf _ _ Hst i' j); [by right|done]|].
        intros j' _ Hq'. rewrite <- Hsl in Hq'. apply Hi. destruct (st_slot _ _ Hst i j' i' j q) as [-> _]; [by left|by right|done..].
      - intros i1 i2 p H1 H2. apply (st_l1 _ _ Hst); by right.
      - intros i1 j1 i2 j2 q H1 H2. rewrite !Hsl1 by done. apply (st_slot _ _ Hst); by right. }
    exists m'. split; [exact Hf|]. split.
    + intros p [Hp Hn]%H1. cbn in Hp. destruct (decide (p0 = p)) as [<-|Hne]; [by rewrite lookup_delete_eq in Hp; destruct Hp|].
      rewrite lookup_delete_ne in Hp by done. split; [done|]. intros i' [->|Hi']%elem_of_cons; [congruence|by apply Hn].
    + intros q [Hq Hn]%H2. apply Hh in Hq as [Hq Hnj]. split; [done|]. intros i' j [->|Hi']%elem_of_cons Hj; [|rewrite <- Hsl1 by done; by apply Hn].
      rewrite Hsl. apply Hnj, elem_of_seqZ. lia.
  - destruct (IH m Hnd) as (m' & Hf & H1 & H2).
    { destruct Hst as [Ha Hb Hc Hd]. constructor; intros *; intros; [eapply Ha|eapply Hb|eapply Hc|eapply Hd]; try done; by right. }
    exists m'. split; [exact Hf|]. split.
    + intros p [Hp Hn]%H1. split; [done|]. intros i' [->|Hi']%elem_of_cons; [congruence|by apply Hn].
    + intros q [Hq Hn]%H2. split; [done|]. intros i' j [->|Hi']%elem_of_cons Hj; [unfold slot_leaf; by rewrite E|by apply Hn].
Qed.

(** The indices are those of the arrays. *)
Definition keys_ok m : Prop :=
  (∀ i p, tm_l1 m !! i = Some p → 0 ≤ i < L1_ENTRIES) ∧ (∀ p t j q, tm_l2 m !! p = Some t → t !! j = Some q → 0 ≤ j < L2_ENTRIES).
Context (ok : ConfigOk cfg).
Lemma idx_range c : 0 ≤ l1_idx c < L1_ENTRIES ∧ 0 ≤ l2_idx c < L2_ENTRIES.
Proof.
  unfold l1_idx, l2_idx. rewrite split_va_spec. cbn [fst snd]. unfold l1_of, l2_of.
  change L1_ENTRIES with (2 ^ 19). change L2_ENTRIES with (2 ^ 8). split; apply Z.mod_pos_bound; lia.
Qed.
Lemma keys_set_l2 p (t : gmap Z nat) m : keys_ok m → (∀ j q, t !! j = Some q → 0 ≤ j < L2_ENTRIES) → keys_ok (set_l2 p t m).
Proof. intros [H1 H2] Ht. split; [done|]. intros p' t' j q H. cbn in H. apply lookup_insert_Some in H as [[<- <-]|[_ H]]; [apply Ht|by apply (H2 p')]. Qed.
Lemma advance_keys new pc m pc' m' tr : keys_ok m → advance new pc m = Some (pc', m', tr) → keys_ok m'.
Proof.
  intros [H1 H2] H. destruct pc as [|c|c|c p|c p|c|c l2|c l2|c l2 q|c l2 q|c l2|c q|va q|va q|addr stop any bits|r]; cbn [advance] in H; cbv zeta in H;
    try (by injection H as <- <- <-).
  - destruct (enter c); [by injection H as <- <- <-|]. by destruct (tm_l1 m !! l1_idx c); injection H as <- <- <-.
  - injection H as <- <- <-. apply keys_set_l2; [done|]. intros j q. by rewrite lookup_empty.
  - destruct (tm_l1 m !! l1_idx c); injection H as <- <- <-; [done|]. split; [|done].
    intros i p' Hi. cbn in Hi. apply lookup_insert_Some in Hi as [[<- <-]|[_ Hi]]; [apply idx_range|by eapply H1].
  - destruct (tm_l2 m !! p); [|done]. injection H as <- <- <-. split; [done|].
    intros p' t j q Hp. cbn in Hp. apply lookup_delete_Some in Hp as [_ Hp]. by eapply H2.
  - destruct (tm_l1 m !! l1_idx c); [|done]. by injection H as <- <- <-.
  - destruct (tm_l2 m !! l2) as [t|]; [|done]. cbn in H. by destruct (t !! l2_idx c); injection H as <- <- <-.
  - destruct (tm_l2 m !! l2) as [t|] eqn:E; [|done]. cbn in H. destruct (t !! l2_idx c); injection H as <- <- <-; [done|].
    apply keys_set_l2; [done|]. intros j q' [[<- <-]|[_ Hj]]%lookup_insert_Some; [apply idx_range|by eapply H2].
  - destruct (tm_leaf m !! q); [|done]. by injection H as <- <- <-.
  - destruct (tm_l2 m !! l2) as [t|]; [|done]. cbn in H. destruct (t !! l2_idx c); [|done]. by injection H as <- <- <-.
  - destruct (tm_leaf m !! q) as [d|]; [|done]. cbn in H. destruct (leaf_access c q d). by injection H as <- <- <-.
  - destruct (tm_leaf m !! q) as [d|]; [|done]. by injection H as <- <- <-.
  - by destruct (bits =? 0); injection H as <- <- <-.
Qed.
Lemma runs_keys s ls s' : runs tracker_step s ls s' → keys_ok (ts_mem s) → keys_ok (ts_mem s').
Proof.
  induction 1 as [|s a ls s1 tr s2 Hs _ IH]; [done|]. intros Hk. apply IH.
  destruct Hs; cbn [ts_mem] in *; [done| |done]. by eapply advance_keys.
Qed.
Lemma idle_still_ok m : mem_ok m → still_ok (seqZ 0 L1_ENTRIES) m.
Proof.
  intros [H1 H2 H3]. constructor.
  - intros i p _ Hp. apply (H1 (inl p)). by exists i.
  - intros i j q _ Hq. apply (H1 (inr q)). by exists i, j.
  - intros i i' p _ _. apply H2.
  - intros i j i' j' q _ _. apply H3.
Qed.
End destructor.

(** ** The promise of a mark *)

Section promise.
Context `{cfg : Config} (ok : ConfigOk cfg) (flushing : NO_FLUSH = false) (shift0 : CL_EXPAND_SHIFT = 0).
Implicit Types (c : tcall) (a b : nat) (i j d n : Z) (t : CacheLineTracker) (x : tspec) (u : spec_sys).

Definition mem_dirty (m : tracker_mem) n : bool := Z.testbit (mem_word m (l1_of n) (l2_of n)) (n mod 64).
(** The addresses the index of the tracker tells apart: 2^27 leaves of 2^12 bytes. *)
Definition window (base addr stop : Z) : Prop := base ≤ addr ∧ stop ≤ base + 2 ^ 39.
Definition line_in_window (base n : Z) : Prop := 0 ≤ base ∧ base mod 4096 = 0 ∧ base ≤ 64 * n < base + 2 ^ 39.
(** Not one of the two calls that clear the bit of one line; the range calls stay
    within the window. *)
Definition range_or_mark base c : Prop :=
  match c with CInvalidate _ | CClear _ => False | CRange addr stop _ => window base addr stop | _ => True end.
Definition gentle base x : Prop :=
  match x with
  | SCalled c => range_or_mark base c
  | SFlushLine _ | SClearLine _ => False
  | SFlushBits addr stop _ _ => window base addr stop
  | _ => True
  end.
(** The thread is about to flush this line: it is in the leaf of its address and
    its bit is among those to flush. *)
Definition about_to_flush n x : Prop :=
  match x with
  | SFlushBits addr _ _ bits => line_no addr / 64 = n / 64 ∧ Z.testbit bits (n mod 64) = true
  | _ => False
  end.
(** An address of this line has been flushed. *)
Definition flushed n (ls : list (nat * tlabel)) : Prop :=
  ∃ a va, (a, LFlush (do_invalidate va)) ∈ ls ∧ line_no va = n.
Definition promised n u : Prop := dirty (ss_tracker u) n = true ∨ ∃ a x, ss_threads u !! a = Some x ∧ about_to_flush n x.

Definition range_call_ok x : Prop :=
  match x with
  | SCalled c => tcall_ok c
  | SFlushBits addr stop _ bits => 0 ≤ addr < stop ∧ stop ≤ 2 ^ 48 ∧ u64 bits
  | _ => True
  end.
Record spec_ok u : Prop := {
  so_wf : tracker_wf (ss_tracker u);
  so_threads a x : ss_threads u !! a = Some x → range_call_ok x;
}.

Lemma next_leaf_nonneg addr : 0 ≤ next_leaf addr.
Proof. unfold next_leaf, shl64. apply (wrap_range 64). lia. Qed.
Lemma next_leaf_ge addr : 0 ≤ addr < 2 ^ 48 → addr ≤ next_leaf addr.
Proof.
  intros Ha. unfold next_leaf, shr64, add64. rewrite (leaf_shift_12 shift0).
  rewrite Z.shiftr_div_pow2, wrap_small by (lia || (split; divlia)).
  rewrite (shl64_fits _ _ 52) by (lia || (split; divlia)). rewrite Z.shiftl_mul_pow2 by lia. divlia.
Qed.
(** In the window a leaf is that of its index only. *)
Lemma window_leaf base n addr stop :
  line_in_window base n → window base addr stop → addr < stop →
  l1_of (line_no addr) = l1_of n → l2_of (line_no addr) = l2_of n → line_no addr / 64 = n / 64.
Proof.
  intros (H0 & Hb & Hn) [Ha Hs] Hlt H1 H2. pose proof (proj1 (slot_eq (line_no addr) n) (conj H1 H2)) as Heq.
  unfold line_no in *. rewrite (virtual_cl_size_64 shift0) in *. divlia.
Qed.
Lemma range_pass_wf addr stop t : tracker_wf t → tracker_wf (range_pass addr stop t).2 ∧ u64 (range_pass addr stop t).1.
Proof.
  intros Hwf. unfold range_pass. destruct (split_va addr) as [[l1 l2] ln]. destruct (find_leaf l1 l2 t) as [leaf|] eqn:E; cbn.
  - pose proof (Hwf _ _ _ E). split; [|apply in_word_land; [lia|done|apply range_mask_u64]].
    eapply tracker_wf_put; [done..|]. by apply land_not64_u64.
  - split; [done|]. by apply in_word_0.
Qed.
Lemma commit_ok c t : tcall_ok c → tracker_wf t → range_call_ok (commit c t).1 ∧ tracker_wf (commit c t).2.
Proof.
  intros Hc Hwf. destruct c as [va|va mask|va|va|va|addr stop any]; cbn [commit fst snd range_call_ok]; auto with words.
  - by destruct (is_dirty va t).
  - split; [done|]. by apply clear_spec.
  - destruct (Z.ltb_spec addr stop); [|done]. destruct (range_pass_wf addr stop t Hwf) as [H1 H2].
    destruct (range_pass addr stop t) as [was t']. cbn in *. split; [split; [lia|]; tauto|done].
Qed.
Lemma spec_step_ok u a ls u' : spec_step u a ls u' → spec_ok u → spec_ok u'.
Proof.
  intros Hs [Hwf Hth]. destruct Hs as [a c t xs Ha Hi Hc|a x x' t t' tr xs Ha Hadv|a r t xs Ha]; cbn [ss_tracker ss_threads] in *.
  - constructor; [done|]. intros b y [(<- & <- & _)|[_ Hb]]%list_lookup_insert_Some; [done|by eapply Hth].
  - pose proof (Hth a x Ha) as Hx. assert (range_call_ok x' ∧ tracker_wf t') as [Hx' Hwf'].
    { destruct x as [|c|va|va|addr stop any bits|r]; cbn in Hadv; try done.
      - pose proof (commit_ok c t Hx Hwf) as H. destruct (commit c t) as [y t1]. by injection Hadv as <- <- <-.
      - by injection Hadv as <- <- <-.
      - injection Hadv as <- <- <-. split; [done|]. by apply clear_spec.
      - unfold next_bits in Hadv. destruct (Z.eqb_spec bits 0) as [|Hne]; injection Hadv as <- <- <-; (split; [|done]).
        + destruct Hx. split; [apply next_leaf_nonneg|tauto].
        + destruct Hx as (? & ? & ?). split; [done|]. split; [done|]. rewrite clear_lowest_bit_alt by done. by apply clear_lowest_bit_u64. }
    constructor; [done|]. intros b y [(<- & <- & _)|[_ Hb]]%list_lookup_insert_Some; [done|by eapply Hth].
  - constructor; [done|]. intros b y [(<- & <- & _)|[_ Hb]]%list_lookup_insert_Some; [done|by eapply Hth].
Qed.

(** A commit of such a call keeps the promise. *)
Lemma dirty_word t n : dirty t n = Z.testbit (word t (l1_of n) (l2_of n)) (n mod 64).
Proof. done. Qed.
Lemma commit_promise base c t n : line_in_window base n → range_or_mark base c → tcall_ok c → dirty t n = true → dirty (commit c t).2 n = true ∨ about_to_flush n (commit c t).1.
Proof.
  intros Hw Hr Hc Hd. destruct c as [va|va mask|va|va|va|addr stop any]; try done; cbn [commit snd fst].
  - left. apply mark_spec. by left.
  - left. rewrite mark_with_mask_spec by done. by rewrite Hd.
  - by left.
  - destruct (Z.ltb_spec addr stop) as [Hlt|]; [|by left]. pose proof (window_leaf base n addr stop Hw Hr Hlt) as Hleaf.
    destruct (range_pass_word addr stop t (l1_of n) (l2_of n)) as [H1 H2].
    pose proof (line_mod_range n). rewrite dirty_word in Hd |- *. destruct (range_pass addr stop t) as [was t']. cbn [fst snd] in *. rewrite H2. clear H2.
    unfold about_to_flush. subst was. rewrite split_va_spec. cbn [fst snd]. generalize (line_no addr mod 64). intros ln.
    case_decide as Hsl; [|by left]. destruct Hsl as [E1 E2]. rewrite E1, E2, !Z.land_spec, not64_bit, Hd by lia.
    replace (n mod 64 <? 64) with true by (symmetry; apply Z.ltb_lt; lia). destruct (Z.testbit (range_mask addr ln stop) (n mod 64)); auto.
Qed.

(** The flush of the lowest bit. *)
Lemma flush_line addr bits n :
  0 ≤ addr < 2 ^ 48 → u64 bits → bits ≠ 0 → about_to_flush n (SFlushBits addr 0 false bits) →
  let va := (addr &w not64 ((1 <<w leaf_shift) -w 1)) +w wrap64 (ctz bits * VIRTUAL_CL_SIZE) in
  line_no va = n ∨ about_to_flush n (SFlushBits addr 0 false (bits &w (bits -w 1))).
Proof.
  intros Ha Hb Hne Hab va. pose proof (line_mod_range n). unfold about_to_flush in *.
  destruct Hab as (Hleaf & Hbit). rewrite clear_lowest_bit_alt, clear_lowest_bit by (done || lia). rewrite Hbit.
  destruct (Z.eqb_spec (n mod 64) (ctz bits)) as [E|]; [left|by right].
  pose proof (ctz_lt_64 bits Hb Hne).
  assert (va = 4096 * (addr / 4096) + 64 * ctz bits) as Hva.
  { unfold va, add64. rewrite (leaf_base shift0) by lia. rewrite (virtual_cl_size_64 shift0).
    rewrite (wrap_small _ (ctz bits * 64)) by (split; lia). rewrite wrap_small by (split; divlia). lia. }
  rewrite Hva. unfold line_no in *. rewrite (virtual_cl_size_64 shift0) in *. divlia.
Qed.

(** What thread [a] does keeps the promise, or flushes the line. *)
Lemma promise_advance base n x x' t t' tr :
  line_in_window base n → gentle base x → range_call_ok x → spec_advance x t = Some (x', t', tr) →
  (dirty t n = true → dirty t' n = true ∨ about_to_flush n x') ∧
  (about_to_flush n x → about_to_flush n x' ∨ ∃ va, flush_label tr = [LFlush (do_invalidate va)] ∧ line_no va = n) ∧
  gentle base x'.
Proof.
  intros Hw Hg Hok Hadv. destruct x as [|c|va|va|addr stop any bits|r]; cbn in Hadv; try done.
  - pose proof (commit_promise base c t n Hw Hg Hok) as Hp. destruct (commit c t) as [y t1] eqn:E. injection Hadv as <- <- <-.
    split; [done|]. split; [done|]. destruct c as [| | | | |addr stop any]; cbn in E; try done; try by injection E as <- <-.
    destruct (addr <? stop); [|by injection E as <- <-]. destruct (range_pass addr stop t). by injection E as <- <-.
  - unfold next_bits in Hadv. destruct Hok as (Ha & Hs & Hb).
    destruct (Z.eqb_spec bits 0) as [->|Hne]; injection Hadv as <- <- <-; (split; [by left|]);
      [pose proof (next_leaf_ge addr ltac:(lia)) as Hnext; split; [|destruct Hg; split; lia]|split; [|done]].
    + intros H. unfold about_to_flush in H. destruct H as (_ & H). by rewrite Z.bits_0 in H.
    + intros H. destruct (flush_line addr bits n) as [Hal|Hab]; [lia|done|done|done| |by left].
      right. eexists. split; [|exact Hal]. unfold do_invalidate. by rewrite flushing.
Qed.

Lemma promise_step base n u a ls u' :
  line_in_window base n → spec_step u a ls u' → spec_ok u → (∀ b x, ss_threads u !! b = Some x → gentle base x) →
  (∀ c, LCall c ∈ ls → range_or_mark base c) →
  (promised n u → promised n u' ∨ flushed n (map (pair a) ls)) ∧ (∀ b x, ss_threads u' !! b = Some x → gentle base x).
Proof.
  intros Hw Hs Hok Hg Hc. destruct Hs as [a c t xs Ha Hi Hcok|a x x' t t' tr xs Ha Hadv|a r t xs Ha]; cbn [ss_tracker ss_threads] in *.
  - split.
    + intros [Hd|(b & y & Hb & Hy)]; left; [by left|right]. exists b, y. cbn [ss_threads] in *. rewrite list_lookup_insert_ne; [done|]. intros <-. by simplify_eq.
    + intros b y [(<- & <- & _)|[_ Hb]]%list_lookup_insert_Some; [apply Hc; by left|by eapply Hg].
  - destruct (promise_advance base n x x' t t' tr Hw (Hg _ _ Ha) (so_threads _ Hok a x Ha) Hadv) as (Hd & Hab & Hgx).
    pose proof (lookup_lt_Some _ _ _ Ha) as Hlt. split.
    + intros [Hdt|(b & y & Hb & Hy)]; cbn [ss_tracker ss_threads] in *.
      * left. destruct (Hd Hdt) as [?|Hx]; [by left|]. right. exists a, x'. cbn [ss_threads]. by rewrite list_lookup_insert_eq.
      * destruct (decide (a = b)) as [<-|Hne]; [|left; right; exists b, y; cbn [ss_threads]; by rewrite list_lookup_insert_ne].
        assert (y = x) as -> by congruence. destruct (Hab Hy) as [Hx|(va & Hva & Hal)].
        { left. right. exists a, x'. cbn [ss_threads]. by rewrite list_lookup_insert_eq. }
        right. exists a, va. split; [|done]. change (match tr with [] => [] | _ => [LFlush tr] end) with (flush_label tr). rewrite Hva. by left.
    + intros b y [(<- & <- & _)|[_ Hb]]%list_lookup_insert_Some; [done|by eapply Hg].
  - split.
    + intros [Hd|(b & y & Hb & Hy)]; left; [by left|right]. exists b, y. cbn [ss_threads] in *. rewrite list_lookup_insert_ne; [done|]. intros <-. by simplify_eq.
    + intros b y [(<- & <- & _)|[_ Hb]]%list_lookup_insert_Some; [done|by eapply Hg].
Qed.

Lemma flushed_app n l1 l2 : flushed n l1 ∨ flushed n l2 → flushed n (l1 ++ l2).
Proof. intros [(a & va & H & ?)|(a & va & H & ?)]; exists a, va; rewrite elem_of_app; auto. Qed.

Lemma promise_runs base n u ls u' :
  line_in_window base n → runs spec_step u ls u' → spec_ok u → (∀ b x, ss_threads u !! b = Some x → gentle base x) →
  (∀ a c, (a, LCall c) ∈ ls → range_or_mark base c) →
  promised n u → promised n u' ∨ flushed n ls.
Proof.
  intros Hw. induction 1 as [u|u a ls u1 tr u2 Hs _ IH]; intros Hok Hg Hc Hp; [by left|].
  destruct (promise_step base n u a ls u1 Hw Hs Hok Hg) as [H1 Hg1].
  { intros c Hin. apply (Hc a). apply elem_of_app. left. by apply list_elem_of_fmap_2. }
  destruct (H1 Hp) as [Hp1|Hf]; [|right; apply flushed_app; by left].
  destruct (IH (spec_step_ok _ _ _ _ Hs Hok) Hg1) as [?|Hf]; [|done|by left|right; apply flushed_app; by right].
  intros b c Hin. apply (Hc b). apply elem_of_app. by right.
Qed.
Lemma spec_runs_ok u ls u' : runs spec_step u ls u' → spec_ok u → spec_ok u'.
Proof. induction 1 as [|u a ls u1 tr u2 Hs _ IH]; [done|]. intros Hok. apply IH. by eapply spec_step_ok. Qed.
Lemma spec_init_ok (k : nat) : spec_ok (spec_init k).
Proof. constructor; [apply tracker_wf_empty|]. by intros a x [-> _]%lookup_replicate_1. Qed.
End promise.

(** ** Properties *)

(** C32: a [CacheLineTracker] that threads share refines the tracker of ClTracker,
    with the two calls that flush split into parts. For a run of any number of
    threads, at the granularity of accesses and with tables and leaves created by
    compare-and-exchange, there is a run of the specification with the same calls,
    results and flushes of each thread in the same order; every thread is then at
    the same place of its call, and the masks are those of the specification. There
    [mark_dirty], [mark_dirty_with_mask], [is_dirty] and [clear_dirty] are one atomic
    step each; [invalidate_if_dirty] is a test, a flush and a clear, three steps, and
    [invalidate_range_if_dirty] one step per leaf (the fetch_and of its mask, or the
    skip of a leaf that is not there) and one per flush. So these two are not claimed
    to be atomic, and they are not: see [invalidate_if_dirty_loses_mark] and
    [range_hides_stale_line]. *)
Theorem tracker_refines_split_calls `{cfg : Config} (n : nat) (ls : list (nat * tlabel)) (s : tracker_sys) :
  runs tracker_step (tracker_init n) ls s →
  ∃ u, runs spec_step (spec_init n) ls u ∧ ss_threads u = map spec_of (ts_pcs s) ∧
    ∀ l1 l2, mem_word (ts_mem s) l1 l2 = word (ss_tracker u) l1 l2.
Proof.
  intros Hr. destruct (sim_runs _ _ _ Hr _ (init_sim n)) as (u & Hu & [_ H1 H2 _]). by exists u.
Qed.

(** C34: the creation of tables and leaves is safe. In no run does a thread follow a
    null pointer or use an object that another one has deleted; every object of the
    heap is reachable from [l1] or is the one a thread has allocated and will
    publish or delete, so nothing leaks once no thread is in a call. *)
Theorem tracker_memory_safe `{cfg : Config} (n : nat) (ls : list (nat * tlabel)) (s : tracker_sys) :
  runs tracker_step (tracker_init n) ls s →
  (∀ a pc new, ts_pcs s !! a = Some pc → tm_l2 (ts_mem s) !! new = None → tm_leaf (ts_mem s) !! new = None →
     is_Some (advance new pc (ts_mem s))) ∧
  (∀ x, live (ts_mem s) x → published (ts_mem s) x ∨ ∃ a pc, ts_pcs s !! a = Some pc ∧ private pc = Some x) ∧
  ((∀ a pc, ts_pcs s !! a = Some pc → pc = PIdle) → ∀ x, live (ts_mem s) x ↔ published (ts_mem s) x).
Proof.
  intros Hr. destruct (sim_runs _ _ _ Hr _ (init_sim n)) as (u & _ & [Hi _ _ _]). destruct s as [m pcs]. split; [|split].
  - intros a pc new Ha H1 H2. cbn [ts_mem]. destruct (tracker_advance m pcs a pc new Hi Ha H1 H2) as (pc' & m' & tr & -> & _). by eexists.
  - apply (ti_reached _ Hi).
  - intros Hidle x. split; [|apply (mo_live _ (ti_mem _ Hi))]. intros Hx.
    destruct (ti_reached _ Hi x Hx) as [?|(a & pc & Ha & Hp)]; [done|]. apply Hidle in Ha. by subst.
Qed.

(** The destructor of a tracker no thread uses deletes every table and every leaf,
    each once. *)
Theorem destructor_frees_all `{cfg : Config} (ok : ConfigOk cfg) (n : nat) (ls : list (nat * tlabel)) (s : tracker_sys) :
  runs tracker_step (tracker_init n) ls s → (∀ a pc, ts_pcs s !! a = Some pc → pc = PIdle) →
  ∃ m, destroy (ts_mem s) = Some m ∧ tm_l2 m = ∅ ∧ tm_leaf m = ∅.
Proof.
  intros Hr Hidle. destruct (sim_runs _ _ _ Hr _ (init_sim n)) as (u & _ & [Hi _ _ _]). pose proof (ti_mem _ Hi) as Hm.
  assert (keys_ok (ts_mem s)) as [Hk1 Hk2] by (eapply (runs_keys ok); [exact Hr|by split]).
  assert (∀ x, live (ts_mem s) x → published (ts_mem s) x) as Hpub.
  { intros x Hx. destruct (ti_reached _ Hi x Hx) as [?|(a & pc & Ha & Hp)]; [done|]. apply Hidle in Ha. by subst. }
  destruct (destroy_tables (ts_mem s) (seqZ 0 L1_ENTRIES)) as (m & Hf & H1 & H2); [apply NoDup_seqZ|by apply idle_still_ok|].
  exists m. split; [exact Hf|]. split; apply map_empty; intros x; apply eq_None_not_Some; intros Hx.
  - apply H1 in Hx as [Hx Hn]. destruct (Hpub (inl x) Hx) as [i Hi']. apply (Hn i); [|done]. apply elem_of_seqZ. specialize (Hk1 i x Hi'). lia.
  - apply H2 in Hx as [Hx Hn]. destruct (Hpub (inr x) Hx) as (i & j & Hq). pose proof Hq as Hs. unfold slot_leaf in Hs.
    destruct (tm_l1 (ts_mem s) !! i) as [p|] eqn:E; [|done]. cbn in Hs. destruct (tm_l2 (ts_mem s) !! p) as [t|] eqn:Et; [|done].
    apply (Hn i j); [|by eapply Hk2|done]. apply elem_of_seqZ. specialize (Hk1 i p E). lia.
Qed.

(** C33: a mark is kept until its line is invalidated. A line that is marked at some
    moment is, at any later one, still marked, or about to be flushed by a thread
    in [invalidate_range_if_dirty] that has taken the mark, or an address of this
    very line has been flushed in between. It holds in builds that flush
    ([NO_FLUSH] is false) with virtual lines of one cache line ([CL_EXPAND_SHIFT] is
    0, where the mask the range call computes is that of its range); for runs of
    [mark_dirty], [mark_dirty_with_mask], [is_dirty] and the range call, not of
    [invalidate_if_dirty] and [clear_dirty], see [invalidate_if_dirty_loses_mark];
    and where the line and the range calls are within one window of 2^39 bytes from
    a leaf boundary, [base]: the index of the tracker drops the address bits above,
    so a range call 2^39 bytes away would take the mark and flush its own line. *)
Theorem mark_kept_until_flushed `{cfg : Config} (ok : ConfigOk cfg) (n : nat) (base l : Z) (ls0 ls : list (nat * tlabel)) (s0 s : tracker_sys) :
  NO_FLUSH = false → CL_EXPAND_SHIFT = 0 → line_in_window base l →
  runs tracker_step (tracker_init n) ls0 s0 → runs tracker_step s0 ls s →
  (∀ a pc, ts_pcs s0 !! a = Some pc → gentle base (spec_of pc)) → (∀ a c, (a, LCall c) ∈ ls → range_or_mark base c) →
  mem_dirty (ts_mem s0) l = true →
  mem_dirty (ts_mem s) l = true ∨ (∃ a pc, ts_pcs s !! a = Some pc ∧ about_to_flush l (spec_of pc)) ∨ flushed l ls.
Proof.
  intros Hnf H0 Hwin Hr0 Hr Hg Hc Hd. destruct (sim_runs _ _ _ Hr0 _ (init_sim n)) as (u0 & Hu0 & Hs0).
  destruct (sim_runs _ _ _ Hr _ Hs0) as (u & Hu & [_ Hth Hw _]). destruct Hs0 as [_ Hth0 Hw0 _].
  destruct (promise_runs ok Hnf H0 base l u0 ls u Hwin Hu) as [[Hd'|(a & x & Ha & Hx)]|Hf].
  - by eapply spec_runs_ok, spec_init_ok.
  - intros b x. rewrite Hth0, list_lookup_fmap. destruct (ts_pcs s0 !! b) as [pc|] eqn:E; [|done]. intros [= <-]. by eapply Hg.
  - exact Hc.
  - left. rewrite dirty_word, <- Hw0. exact Hd.
  - left. unfold mem_dirty. by rewrite Hw.
  - right. left. rewrite Hth, list_lookup_fmap in Ha. destruct (ts_pcs s !! a) as [pc|] eqn:E; [|done]. injection Ha as <-.
    by exists a, pc.
  - by right; right.
Qed.

(** ** Runs *)

(** A schedule: who calls, who makes a step, with the address an allocation gets. *)
Inductive tracker_choice := DoCall (a : nat) (c : tcall) | DoStep (a new : nat) | DoReturn (a : nat).
Definition who (x : tracker_choice) : nat := match x with DoCall a _ | DoStep a _ | DoReturn a => a end.

Section runner.
Context `{cfg : Config}.

Definition tracker_do (x : tracker_choice) (s : tracker_sys) : option (list tlabel * tracker_sys) :=
  pc ← ts_pcs s !! who x;
  match x, pc with
  | DoCall a c, PIdle => if initial_call c then Some ([LCall c], mkTS (ts_mem s) (<[a := PLoadL2 c]> (ts_pcs s))) else None
  | DoReturn a, PReturn r => Some ([LReturn r], mkTS (ts_mem s) (<[a := PIdle]> (ts_pcs s)))
  | DoStep _ _, (PIdle | PReturn _) => None
  | DoStep a new, pc =>
      match tm_l2 (ts_mem s) !! new, tm_leaf (ts_mem s) !! new with
      | None, None => '(pc, m, tr) ← advance new pc (ts_mem s); Some (flush_label tr, mkTS m (<[a := pc]> (ts_pcs s)))
      | _, _ => None
      end
  | _, _ => None
  end.
Fixpoint tracker_run (xs : list tracker_choice) (s : tracker_sys) : option (list (nat * tlabel) * tracker_sys) :=
  match xs with
  | [] => Some ([], s)
  | x :: xs => '(ls, s) ← tracker_do x s; '(tr, s) ← tracker_run xs s; Some (map (pair (who x)) ls ++ tr, s)
  end.

Lemma tracker_do_step x s ls s' :
  (match x with DoCall _ c => tcall_ok c | _ => True end) → tracker_do x s = Some (ls, s') → tracker_step s (who x) ls s'.
Proof.
  intros Hok H. destruct s as [m pcs]. unfold tracker_do in H. cbn [ts_pcs ts_mem] in H.
  destruct (pcs !! who x) as [pc|] eqn:Ha; [|done]. cbn [mbind option_bind] in H. destruct x as [a c|a new|a]; cbn [who] in *.
  - destruct pc; try done. destruct (initial_call c) eqn:Ei; [|done]. injection H as <- <-. by apply tr_call.
  - assert (pc ≠ PIdle ∧ ∀ r, pc ≠ PReturn r) as [Hi Hr] by (by destruct pc).
    assert ((match tm_l2 m !! new, tm_leaf m !! new with
      | None, None => '(pc, m, tr) ← advance new pc m; Some (flush_label tr, mkTS m (<[a := pc]> pcs)) | _, _ => None end) = Some (ls, s')) as H'
      by (destruct pc; done). clear H.
    destruct (tm_l2 m !! new) eqn:E1; [done|]. destruct (tm_leaf m !! new) eqn:E2; [done|].
    destruct (advance new pc m) as [[[pc' m'] tr]|] eqn:E; [|done]. injection H' as <- <-. by eapply tr_advance.
  - destruct pc; try done. injection H as <- <-. by apply tr_return.
Qed.
Lemma tracker_run_runs xs s ls s' :
  Forall (λ x, match x with DoCall _ c => tcall_ok c | _ => True end) xs → tracker_run xs s = Some (ls, s') → runs tracker_step s ls s'.
Proof.
  revert s ls. induction xs as [|x xs IH]; intros s ls Hok H; cbn in H; [injection H as <- <-; apply runs_nil|].
  inversion Hok as [|? ? Hx Hxs]; subst. destruct (tracker_do x s) as [[l1 s1]|] eqn:E1; [|done]. cbn in H.
  destruct (tracker_run xs s1) as [[l2 s2]|] eqn:E2; [|done]. injection H as <- <-.
  eapply runs_cons; [by apply tracker_do_step|by apply IH].
Qed.
End runner.

(** ** Examples *)

Section examples.
Let cfg : Config := default_config.
#[local] Existing Instance cfg.
#[local] Existing Instance default_config_ok.

Definition steps (a k : nat) : list tracker_choice := replicate k (DoStep a 0).
(** A call by thread [a] that finds its leaf. *)
Definition call_found (a : nat) (c : tcall) : list tracker_choice := DoCall a c :: steps a 3 ++ [DoReturn a].
(** Two threads mark two lines of a leaf that does not exist; the second one loses
    both races. *)
Definition ex_creation : list tracker_choice :=
  [DoCall 0 (CMark 6400); DoCall 1 (CMark 6464); DoStep 0 0; DoStep 1 0; DoStep 0 1; DoStep 1 2; DoStep 0 0; DoStep 1 0; DoStep 1 0;
   DoStep 1 0; DoStep 0 0; DoStep 1 0; DoStep 0 3; DoStep 1 4; DoStep 0 0; DoStep 1 0; DoStep 1 0; DoStep 1 0; DoStep 0 0; DoStep 1 0;
   DoReturn 0; DoReturn 1].
(** A range call up to its first flush. *)
Definition ex_range_call : list tracker_choice := DoCall 1 (CRange 6400 8192 false) :: steps 1 4.
(** [invalidate_if_dirty] after its flush, and a new mark of its line. *)
Definition ex_lost : list tracker_choice := ex_creation ++ DoCall 1 (CInvalidate 6400) :: steps 1 4 ++ call_found 0 (CMark 6400).

Definition ex_run2 (xs ys : list tracker_choice) (f : list (nat * tlabel) → tracker_sys → list (nat * tlabel) → tracker_sys → bool) : bool :=
  match tracker_run xs (tracker_init 2) with
  | Some (ls0, s0) => match tracker_run ys s0 with Some (ls, s) => f ls0 s0 ls s | None => false end
  | None => false
  end.
Definition ys_ok (xs : list tracker_choice) : Prop := Forall (λ x, match x with DoCall _ c => tcall_ok c | _ => True end) xs.
Lemma ex_run2_spec xs ys f : ys_ok xs → ys_ok ys → ex_run2 xs ys f = true →
  ∃ ls0 s0 ls s, runs tracker_step (tracker_init 2) ls0 s0 ∧ runs tracker_step s0 ls s ∧ f ls0 s0 ls s = true.
Proof.
  intros Hx Hy H. unfold ex_run2 in H. destruct (tracker_run xs _) as [[ls0 s0]|] eqn:E0; [|done].
  destruct (tracker_run ys s0) as [[ls s]|] eqn:E; [|done]. exists ls0, s0, ls, s.
  split; [exact (tracker_run_runs _ _ _ _ Hx E0)|]. split; [exact (tracker_run_runs _ _ _ _ Hy E)|done].
Qed.
Lemma ex_ok : ys_ok ex_creation ∧ ys_ok ex_range_call ∧ ys_ok ex_lost.
Proof. unfold ys_ok. split_and!; repeat constructor; vm_compute; congruence. Qed.

Definition idle (s : tracker_sys) : bool := forallb (λ pc, match pc with PIdle => true | _ => false end) (ts_pcs s).
Definition no_flush (ls : list (nat * tlabel)) : bool := forallb (λ l, match l.2 with LFlush _ => false | _ => true end) ls.
Lemma no_flush_spec ls n : no_flush ls = true → ¬ flushed n ls.
Proof.
  intros H (a & va & Hin & _). unfold no_flush in H. rewrite forallb_forall in H. apply list_elem_of_In in Hin.
  specialize (H _ Hin). done.
Qed.
Lemma idle_spec s a pc : idle s = true → ts_pcs s !! a = Some pc → pc = PIdle.
Proof.
  unfold idle. rewrite forallb_forall. intros H Ha. apply list_elem_of_lookup_2, list_elem_of_In in Ha. specialize (H _ Ha). by destruct pc.
Qed.

(** *** Races *)

(** A mark is lost. [invalidate_if_dirty] clears the bit after it has invalidated
    the line, whatever happened in between: a mark made there, which asks for a
    further invalidation, is gone, and no flush follows it. *)
Theorem invalidate_if_dirty_loses_mark :
  ∃ ls0 s0 ls s, runs tracker_step (tracker_init 2) ls0 s0 ∧ last ls0 = Some (0%nat, LReturn TVoid) ∧ mem_dirty (ts_mem s0) 100 = true ∧
    runs tracker_step s0 ls s ∧ idle s = true ∧ mem_dirty (ts_mem s) 100 = false ∧ ¬ flushed 100 ls.
Proof.
  destruct (ex_run2_spec ex_lost [DoStep 1 0; DoReturn 1] (λ ls0 s0 ls s,
    match last ls0 with Some (0%nat, LReturn TVoid) => true | _ => false end && mem_dirty (ts_mem s0) 100 && idle s &&
    negb (mem_dirty (ts_mem s) 100) && no_flush ls)) as (ls0 & s0 & ls & s & H0 & H1 & Hf).
  { apply ex_ok. }
  { by repeat constructor. }
  { vm_compute. reflexivity. }
  apply andb_prop in Hf as [Hf Hn%(no_flush_spec _ 100)]. apply andb_prop in Hf as [Hf Hd%negb_true_iff].
  apply andb_prop in Hf as [Hf Hi]. apply andb_prop in Hf as [Hl Hd0].
  exists ls0, s0, ls, s. split_and!; try done. by destruct (last ls0) as [[[] [|[]|]]|].
Qed.

(** A line is reported clean before it has been invalidated. [invalidate_range_if_dirty]
    clears the bits of a leaf before it flushes the lines: another thread's
    [invalidate_if_dirty] returns false in between, and what it loads next may be
    the stale line. *)
Theorem range_hides_stale_line :
  ∃ ls0 s0 ls s, runs tracker_step (tracker_init 2) ls0 s0 ∧ mem_dirty (ts_mem s0) 100 = true ∧
    runs tracker_step s0 ls s ∧ last ls = Some (0%nat, LReturn (TBool false)) ∧ ¬ flushed 100 ls.
Proof.
  destruct (ex_run2_spec ex_creation (DoCall 1 (CRange 6400 8192 false) :: steps 1 3 ++ call_found 0 (CInvalidate 6400)) (λ ls0 s0 ls s,
    match last ls with Some (0%nat, LReturn (TBool false)) => true | _ => false end && mem_dirty (ts_mem s0) 100 && no_flush ls))
    as (ls0 & s0 & ls & s & H0 & H1 & Hf).
  { apply ex_ok. }
  { repeat constructor; vm_compute; congruence. }
  { vm_compute. reflexivity. }
  apply andb_prop in Hf as [Hf Hn%(no_flush_spec _ 100)]. apply andb_prop in Hf as [Hl Hd0].
  exists ls0, s0, ls, s. split_and!; try done. by destruct (last ls) as [[[] [|[|[]]|]]|].
Qed.

(** *** Witnesses *)

Lemma tracker_refines_split_calls_witness :
  ∃ ls u, runs spec_step (spec_init 2) ls u ∧ word (ss_tracker u) 0 1 = Z.shiftl 3 36.
Proof.
  destruct (ex_run2_spec ex_creation [] (λ ls0 s0 ls s, mem_word (ts_mem s0) 0 1 =? Z.shiftl 3 36)) as (ls & s & _ & _ & Hr & _ & Hf).
  { apply ex_ok. }
  { constructor. }
  { vm_compute. reflexivity. }
  destruct (tracker_refines_split_calls 2 ls s Hr) as (u & Hu & _ & Hw). exists ls, u. split; [exact Hu|]. rewrite <- Hw. by apply Z.eqb_eq.
Defined.

Lemma tracker_memory_safe_witness :
  ∃ ls s, runs tracker_step (tracker_init 2) ls s ∧ size (tm_leaf (ts_mem s)) = 1%nat ∧ ∀ x, live (ts_mem s) x ↔ published (ts_mem s) x.
Proof.
  destruct (ex_run2_spec ex_creation [] (λ ls0 s0 ls s, (size (tm_leaf (ts_mem s0)) =? 1)%nat && idle s0)) as (ls & s & _ & _ & Hr & _ & Hf).
  { apply ex_ok. }
  { constructor. }
  { vm_compute. reflexivity. }
  apply andb_prop in Hf as [Hs Hi]. exists ls, s. split; [exact Hr|]. split; [by apply Nat.eqb_eq|].
  apply (tracker_memory_safe 2 ls s Hr). intros a pc. by apply idle_spec.
Defined.

Lemma mark_kept_until_flushed_witness :
  ∃ ls0 s0 ls s, mem_dirty (ts_mem s0) 100 = true ∧ mem_dirty (ts_mem s) 100 = false ∧ runs tracker_step (tracker_init 2) ls0 s0 ∧
    runs tracker_step s0 ls s ∧
    (mem_dirty (ts_mem s) 100 = true ∨ (∃ a pc, ts_pcs s !! a = Some pc ∧ about_to_flush 100 (spec_of pc)) ∨ flushed 100 ls).
Proof.
  set (harmless := λ ls : list (nat * tlabel), forallb (λ l, match l.2 with
    | LCall (CInvalidate _ | CClear _) => false
    | LCall (CRange addr stop _) => (0 <=? addr) && (stop <=? 2 ^ 39) | _ => true end) ls).
  destruct (ex_run2_spec ex_creation ex_range_call (λ ls0 s0 ls s,
    mem_dirty (ts_mem s0) 100 && negb (mem_dirty (ts_mem s) 100) && idle s0 && harmless ls)) as (ls0 & s0 & ls & s & H0 & H1 & Hf).
  { apply ex_ok. }
  { apply ex_ok. }
  { vm_compute. reflexivity. }
  apply andb_prop in Hf as [Hf Hh]. apply andb_prop in Hf as [Hf Hi]. apply andb_prop in Hf as [Hd Hd'%negb_true_iff].
  exists ls0, s0, ls, s. split; [exact Hd|]. split; [exact Hd'|]. split; [exact H0|]. split; [exact H1|].
  apply (mark_kept_until_flushed default_config_ok 2 0 100 ls0 ls s0 s eq_refl eq_refl); [|exact H0|exact H1| | |exact Hd].
  - repeat split; lia.
  - intros a pc Ha. apply (idle_spec _ _ _ Hi) in Ha. by subst.
  - intros a c Hin. unfold harmless in Hh. rewrite forallb_forall in Hh. apply list_elem_of_In in Hin. specialize (Hh _ Hin).
    destruct c; try done. apply andb_prop in Hh as [H2%Z.leb_le H3%Z.leb_le]. by split.
Defined.
End examples.
