(* ===== verification/SpmcQueue.v ===== *)
(** SpmcQueue: [include/spmcQueue.hpp], the bounded queue of free logs.

    [spmc_bounded_queue] is the ring with its sequence numbers, as the code
    updates it; [FifoQueue] is the contract its clients use: a first-in
    first-out queue of bounded capacity. The calls run one at a time here, as in
    the steps of LogManager; SpmcSystem interleaves them. *)
From S2P Require Import Prelude.
#[local] Open Scope word_scope.

(** ** The contract *)

(** [q_repr q l e]: the queue holds [l], oldest first, and [e] enqueues have
    succeeded so far; the operations return [None] when they do not terminate. *)
Class FifoQueue (Q T : Type) (capacity : nat) := {
  q_new : Q;
  q_enqueue : T → Q → option (bool * Q);
  q_dequeue : Q → option (option T * Q);
  q_repr : Q → list T → Z → Prop;
  q_new_spec : q_repr q_new [] 0;
  q_enqueue_spec q l e x :
    q_repr q l e → e < 2 ^ 62 → (length l < capacity)%nat →
    ∃ q', q_enqueue x q = Some (true, q') ∧ q_repr q' (l ++ [x]) (e + 1);
  q_enqueue_full q l e x :
    q_repr q l e → e < 2 ^ 62 → length l = capacity → q_enqueue x q = Some (false, q);
  q_dequeue_spec q l e x :
    q_repr q (x :: l) e → e < 2 ^ 62 →
    ∃ q', q_dequeue q = Some (Some x, q') ∧ q_repr q' l e;
  q_dequeue_empty q e :
    q_repr q [] e → e < 2 ^ 62 → q_dequeue q = Some (None, q);
  q_repr_length q l e : q_repr q l e → (length l ≤ capacity)%nat ∧ Z.of_nat (length l) ≤ e;
}.

(** ** Definitions *)

Section spmc.
Context {T : Type} (size : nat).

(** [cell_t]; the data of a cell that was never written is [None]. *)
Record cell_t := Cell { sequence_ : Z; data_ : option T }.

Record spmc_bounded_queue := Queue {
  buffer_ : list cell_t;
  enqueue_pos_ : Z;
  dequeue_pos_ : Z;
}.

Definition buffer_mask_ : Z := Z.of_nat size - 1.

(** The constructor. *)
Definition spmc_new : spmc_bounded_queue :=
  Queue (map (λ i, Cell (Z.of_nat i) None) (seq 0 size)) 0 0.

Definition cell_index (pos : Z) : nat := Z.to_nat (pos &w buffer_mask_).
Definition cell_at (q : spmc_bounded_queue) (pos : Z) : cell_t :=
  default (Cell 0 None) (buffer_ q !! cell_index pos).

(** [(intptr_t)seq - (intptr_t)pos] *)
Definition dif (seq pos : Z) : Z := signed64 seq - signed64 pos.

Definition store_cell (pos : Z) (c : cell_t) (q : spmc_bounded_queue) : spmc_bounded_queue :=
  Queue (<[cell_index pos := c]> (buffer_ q)) (enqueue_pos_ q) (dequeue_pos_ q).

(** One call of [enqueue], not interleaved with others; the [for] loop takes
    the reloaded position around, [None] is a loop that does not end. *)
Fixpoint enqueue_loop (fuel : nat) (data : T) (pos : Z) (q : spmc_bounded_queue)
    : option (bool * spmc_bounded_queue) :=
  match fuel with
  | O => None
  | S fuel' =>
      let d := dif (sequence_ (cell_at q pos)) pos in
      if d =? 0 then
        let q := Queue (buffer_ q) (pos +w 1) (dequeue_pos_ q) in
        Some (true, store_cell pos (Cell (pos +w 1) (Some data)) q)
      else if d <? 0 then Some (false, q)
      else enqueue_loop fuel' data (enqueue_pos_ q) q
  end.
Definition enqueue (data : T) (q : spmc_bounded_queue) : option (bool * spmc_bounded_queue) :=
  enqueue_loop 1 data (enqueue_pos_ q) q.

Fixpoint dequeue_loop (fuel : nat) (pos : Z) (q : spmc_bounded_queue)
    : option (option T * spmc_bounded_queue) :=
  match fuel with
  | O => None
  | S fuel' =>
      let c := cell_at q pos in
      let d := dif (sequence_ c) (pos +w 1) in
      if d =? 0 then
        if dequeue_pos_ q =? pos then
          let q := Queue (buffer_ q) (enqueue_pos_ q) (pos +w 1) in
          data ← data_ c;
          Some (Some data, store_cell pos (Cell (pos +w buffer_mask_ +w 1) (data_ c)) q)
        else dequeue_loop fuel' (dequeue_pos_ q) q
      else if d <? 0 then Some (None, q)
      else dequeue_loop fuel' (dequeue_pos_ q) q
  end.
Definition dequeue (q : spmc_bounded_queue) : option (option T * spmc_bounded_queue) :=
  dequeue_loop 1 (dequeue_pos_ q) q.

(** The ring invariant, with the contents [l] and the number [e] of enqueues. *)
Record ring (q : spmc_bounded_queue) (l : list T) (e : Z) : Prop := {
  ring_size : length (buffer_ q) = size;
  ring_enqueue_pos : enqueue_pos_ q = e;
  ring_dequeue_pos : dequeue_pos_ q = e - Z.of_nat (length l);
  ring_bounds : (length l ≤ size)%nat ∧ Z.of_nat (length l) ≤ e;
  ring_full i x : l !! i = Some x →
    let p := e - Z.of_nat (length l) + Z.of_nat i in
    buffer_ q !! Z.to_nat (p mod Z.of_nat size) = Some (Cell (p + 1) (Some x));
  ring_free p : e ≤ p < e - Z.of_nat (length l) + Z.of_nat size →
    ∃ d, buffer_ q !! Z.to_nat (p mod Z.of_nat size) = Some (Cell p d);
}.
End spmc.
Arguments Cell {T}.
Arguments Queue {T}.

(** ** Lemmas *)

Lemma dif_small a b : 0 ≤ a < 2 ^ 63 → 0 ≤ b < 2 ^ 63 → dif a b = a - b.
Proof. intros. unfold dif, signed64. split_ltb. Qed.

Section ring.
Context {T : Type} (size : nat) (k : nat) (Hk : (k ≤ 32)%nat)
  (Hsize : Z.of_nat size = 2 ^ Z.of_nat k) (Hsize2 : (2 ≤ size)%nat).
Implicit Types (q : @spmc_bounded_queue T) (l : list T) (e p : Z).

Lemma size_bound : 2 ≤ Z.of_nat size ≤ 2 ^ 32.
Proof.
  split; [lia|]. rewrite Hsize.
  apply Z.pow_le_mono_r; lia.
Qed.

Lemma cell_index_mod p : cell_index size p = Z.to_nat (p mod Z.of_nat size).
Proof.
  unfold cell_index, buffer_mask_. rewrite Hsize, <- Z.land_ones, Z.ones_equiv by lia.
  by rewrite Z.sub_1_r.
Qed.

Lemma mod_same_slot p p' :
  Z.to_nat (p mod Z.of_nat size) = Z.to_nat (p' mod Z.of_nat size) → Z.abs (p - p') < Z.of_nat size → p = p'.
Proof.
  pose proof size_bound as Hs. intros Hp Hlt. apply (f_equal Z.of_nat) in Hp.
  rewrite !Z2Nat.id in Hp by (apply Z.mod_pos_bound; lia).
  assert ((p - p') mod Z.of_nat size = 0) as H0 by (rewrite Zminus_mod, Hp, Z.sub_diag; apply Z.mod_0_l; lia).
  apply Z.mod_divide in H0 as [c Hc]; [|lia].
  destruct (Z.lt_trichotomy c 0) as [|[->|]]; nia.
Qed.

Lemma slot_lt p : (Z.to_nat (p mod Z.of_nat size) < size)%nat.
Proof. pose proof size_bound. pose proof (Z.mod_pos_bound p (Z.of_nat size)). lia. Qed.

Lemma ring_new : ring (T := T) size (spmc_new size) [] 0.
Proof.
  constructor; try done; cbn [buffer_ spmc_new length].
  - by rewrite length_map, length_seq.
  - split; lia.
  - intros p Hp. exists None. rewrite Z.mod_small by lia.
    rewrite list_lookup_fmap, lookup_seq_lt by lia. cbn. f_equal. f_equal. lia.
Qed.

(** The cell the producer and the consumer find at their positions. *)
Lemma ring_front q l e x : ring size q (x :: l) e → cell_at size q (dequeue_pos_ q) = Cell (dequeue_pos_ q + 1) (Some x).
Proof.
  intros [Hb He Hd [??] Hfull _]. unfold cell_at. rewrite cell_index_mod, Hd.
  specialize (Hfull 0%nat x eq_refl). cbn zeta in Hfull.
  rewrite Z.add_0_r in Hfull. by rewrite Hfull.
Qed.

Lemma ring_back q l e :
  ring size q l e → (length l < size)%nat → ∃ d, cell_at size q e = Cell e d.
Proof.
  intros [Hb He Hd [??] _ Hfree] Hlt. unfold cell_at. rewrite cell_index_mod.
  destruct (Hfree e) as [d ->]; [lia|]. by exists d.
Qed.

Lemma ring_enqueue q l e x :
  ring size q l e → e < 2 ^ 62 → (length l < size)%nat →
  ∃ q', enqueue size x q = Some (true, q') ∧ ring size q' (l ++ [x]) (e + 1).
Proof.
  intros Hr Hmax Hlt. destruct (ring_back q l e Hr Hlt) as [d0 Hc]. pose proof size_bound.
  destruct Hr as [Hb He Hd [Hl1 Hl2] Hfull Hfree].
  unfold enqueue, enqueue_loop. rewrite He, Hc. cbn [sequence_].
  rewrite dif_small, Z.sub_diag, Z.eqb_refl by lia.
  eexists. split; [done|]. unfold add64. rewrite wrap_small by (split; lia).
  assert (∀ p, p ≠ e → Z.abs (p - e) < Z.of_nat size →
    <[cell_index size e := Cell (e + 1) (Some x)]> (buffer_ q) !! Z.to_nat (p mod Z.of_nat size) =
    buffer_ q !! Z.to_nat (p mod Z.of_nat size)) as Hother.
  { intros p Hne Hp. rewrite cell_index_mod. apply list_lookup_insert_ne.
    intros Heq. apply Hne. symmetry. apply mod_same_slot; [done|lia]. }
  constructor; cbn [buffer_ enqueue_pos_ dequeue_pos_ store_cell]; rewrite ?length_app; cbn [length].
  - by rewrite length_insert.
  - done.
  - lia.
  - lia.
  - intros i y Hi. set (p := e + 1 - _ + _). destruct (decide (i < length l)%nat).
    + rewrite lookup_app_l in Hi by done. specialize (Hfull i y Hi). cbn zeta in Hfull.
      assert (p = e - Z.of_nat (length l) + Z.of_nat i) as -> by lia.
      rewrite Hother by lia. done.
    + apply lookup_lt_Some in Hi as Hi2. rewrite length_app in Hi2. cbn [length] in Hi2.
      assert (i = length l) as -> by lia. rewrite list_lookup_middle in Hi by done.
      injection Hi as ->. assert (p = e) as -> by lia. rewrite cell_index_mod.
      apply list_lookup_insert_eq. rewrite Hb. apply slot_lt.
  - intros p Hp. rewrite Hother by lia. apply Hfree. lia.
Qed.

Lemma ring_enqueue_full q l e x :
  ring size q l e → e < 2 ^ 62 → length l = size → enqueue size x q = Some (false, q).
Proof.
  intros Hr Hmax Hlen. pose proof size_bound.
  destruct l as [|y l]; [cbn in Hlen; lia|]. pose proof (ring_front _ _ _ _ Hr) as Hc.
  destruct Hr as [Hb He Hd [Hl1 Hl2] _ _]. rewrite Hlen in *.
  assert (cell_at size q e = Cell (e - Z.of_nat size + 1) (Some y)) as Hce.
  { rewrite Hd in Hc. rewrite <- Hc. unfold cell_at. rewrite !cell_index_mod. do 3 f_equal.
    rewrite Zminus_mod, Z.mod_same, Z.sub_0_r, Zmod_mod by lia. done. }
  unfold enqueue, enqueue_loop. rewrite He, Hce. cbn [sequence_].
  rewrite dif_small by lia. by split_ltb.
Qed.

Lemma ring_dequeue q l e x :
  ring size q (x :: l) e → e < 2 ^ 62 →
  ∃ q', dequeue size q = Some (Some x, q') ∧ ring size q' l e.
Proof.
  intros Hr Hmax. pose proof (ring_front _ _ _ _ Hr) as Hc. pose proof size_bound.
  destruct Hr as [Hb He Hd [Hl1 Hl2] Hfull Hfree]. cbn [length] in *.
  unfold dequeue, dequeue_loop. rewrite Hc. cbn [sequence_ data_].
  set (d := dequeue_pos_ q) in *.
  assert (d +w 1 = d + 1) as Hw by (unfold add64; rewrite wrap_small; [done|split; lia]).
  rewrite Hw, dif_small, Z.sub_diag, !Z.eqb_refl by lia. cbn [mbind option_bind].
  eexists. split; [done|].
  assert (d +w buffer_mask_ size +w 1 = d + Z.of_nat size) as ->.
  { unfold add64, buffer_mask_. rewrite wrap_add_l, wrap_small; [lia|split; lia]. }
  assert (∀ p, p ≠ d → Z.abs (p - d) < Z.of_nat size →
    <[cell_index size d := Cell (d + Z.of_nat size) (Some x)]> (buffer_ q) !! Z.to_nat (p mod Z.of_nat size) =
    buffer_ q !! Z.to_nat (p mod Z.of_nat size)) as Hother.
  { intros p Hne Hp. rewrite cell_index_mod. apply list_lookup_insert_ne.
    intros Heq. apply Hne. symmetry. apply mod_same_slot; [done|lia]. }
  constructor; cbn [buffer_ enqueue_pos_ dequeue_pos_ store_cell].
  - by rewrite length_insert.
  - done.
  - lia.
  - lia.
  - intros i y Hi. pose proof (lookup_lt_Some _ _ _ Hi).
    specialize (Hfull (S i) y Hi). cbn zeta in *.
    rewrite Hother by lia. rewrite <- Hd in Hfull.
    replace (e - Z.of_nat (length l) + Z.of_nat i) with (d + Z.of_nat (S i)) by lia. done.
  - intros p Hp. destruct (decide (p = d + Z.of_nat size)) as [->|].
    + exists (Some x). rewrite cell_index_mod, <- Zplus_mod_idemp_r, Z.mod_same, Z.add_0_r by lia.
      apply list_lookup_insert_eq. rewrite Hb. apply slot_lt.
    + rewrite Hother by lia. apply Hfree. lia.
Qed.

Lemma ring_dequeue_empty q e :
  ring size q [] e → e < 2 ^ 62 → dequeue size q = Some (None, q).
Proof.
  intros Hr Hmax. pose proof size_bound. destruct (ring_back q [] e Hr) as [d0 Hc]; [cbn; lia|].
  destruct Hr as [Hb He Hd [Hl1 Hl2] _ _]. cbn [length] in *. rewrite Z.sub_0_r in Hd.
  unfold dequeue, dequeue_loop. rewrite Hd, Hc. cbn [sequence_].
  assert (e +w 1 = e + 1) as -> by (unfold add64; rewrite wrap_small; [done|split; lia]).
  rewrite dif_small by lia. by split_ltb.
Qed.

End ring.

(** The capacities the constructor's assertion allows. *)
Definition ring_capacity (size : nat) : Prop :=
  (2 ≤ size)%nat ∧ ∃ k : nat, (k ≤ 32)%nat ∧ Z.of_nat size = 2 ^ Z.of_nat k.

#[export] Instance spmc_fifo {T} (size : nat) (H : ring_capacity size) :
  FifoQueue (@spmc_bounded_queue T) T size.
Proof.
  refine {| q_new := spmc_new size; q_enqueue := enqueue size; q_dequeue := dequeue size; q_repr := ring size |};
    destruct H as (H2 & k & Hk & Hs).
  - by eapply ring_new.
  - by eapply ring_enqueue.
  - by eapply ring_enqueue_full.
  - by eapply ring_dequeue.
  - by eapply ring_dequeue_empty.
  - intros q l e Hr. by apply ring_bounds in Hr.
Defined.

(** ** Histories of calls *)

Inductive queue_op (T : Type) := Enqueue (x : T) | Dequeue.
Arguments Enqueue {T}.
Arguments Dequeue {T}.

Section histories.
Context {Q T : Type} {capacity : nat}.
Context (enq : T → Q → option (bool * Q)) (deq : Q → option (option T * Q)).

(** The results of a sequence of calls: [Some x] a dequeued element, [None] a
    refused call, [Some] of the argument a successful enqueue. *)
Fixpoint run_calls (ops : list (queue_op T)) (q : Q) : option (list (option T)) :=
  match ops with
  | [] => Some []
  | Enqueue x :: ops =>
      '(ok, q) ← enq x q; cons (if ok : bool then Some x else None) <$> run_calls ops q
  | Dequeue :: ops => '(r, q) ← deq q; cons r <$> run_calls ops q
  end.

(** The same on a list bounded by the capacity. *)
Fixpoint run_spec (ops : list (queue_op T)) (l : list T) : list (option T) :=
  match ops with
  | [] => []
  | Enqueue x :: ops =>
      if decide (length l < capacity)%nat then Some x :: run_spec ops (l ++ [x])
      else None :: run_spec ops l
  | Dequeue :: ops =>
      match l with x :: l => Some x :: run_spec ops l | [] => None :: run_spec ops [] end
  end.
End histories.

Lemma run_calls_spec `{!FifoQueue Q T capacity} ops q l e :
  q_repr q l e → e + Z.of_nat (length ops) ≤ 2 ^ 62 →
  run_calls q_enqueue q_dequeue ops q = Some (run_spec (capacity := capacity) ops l).
Proof.
  revert q l e. induction ops as [|[x|] ops IH]; intros q l e Hq Hlen; [done| |];
    cbn [run_calls run_spec length] in *.
  - case_decide as Hl.
    + destruct (q_enqueue_spec q l e x Hq) as (q' & -> & Hq'); [lia|done|].
      cbn [mbind option_bind]. by rewrite (IH _ _ _ Hq') by lia.
    + pose proof (q_repr_length q l e Hq). rewrite (q_enqueue_full q l e) by (done || lia).
      cbn [mbind option_bind]. by rewrite (IH _ _ _ Hq) by lia.
  - destruct l as [|x l].
    + rewrite (q_dequeue_empty q e) by (done || lia). cbn [mbind option_bind]. by rewrite (IH _ _ _ Hq) by lia.
    + destruct (q_dequeue_spec q l e x Hq) as (q' & -> & Hq'); [lia|].
      cbn [mbind option_bind]. by rewrite (IH _ _ _ Hq') by lia.
Qed.

(** ** Properties *)

(** The ring is a bounded first-in first-out queue: for a capacity that is a
    power of two, any sequence of at most 2^62 calls on a new queue returns
    from every call, with the results the same calls have on a list; an
    enqueue is refused exactly when the list has [size] elements, a dequeue
    exactly when it is empty. *)
Theorem spmc_queue_is_fifo {T} (size k : nat) (ops : list (queue_op T)) :
  (1 ≤ k ≤ 32)%nat → Z.of_nat size = 2 ^ Z.of_nat k → Z.of_nat (length ops) ≤ 2 ^ 62 →
  run_calls (enqueue size) (dequeue size) ops (spmc_new size) =
    Some (run_spec (capacity := size) ops []).
Proof.
  intros Hk Hsize Hlen.
  assert (ring_capacity size) as H.
  { split; [|exists k; split; [lia|done]]. pose proof (Z.pow_le_mono_r 2 1 (Z.of_nat k)). lia. }
  pose (spmc_fifo (T := T) size H) as I.
  apply (run_calls_spec (FifoQueue0 := I) ops (spmc_new size) [] 0); [|lia].
  apply (q_new_spec (FifoQueue := I)).
Qed.

Lemma spmc_queue_is_fifo_witness :
  run_calls (enqueue 2) (dequeue 2) [Enqueue 5; Enqueue 6; Enqueue 7; Dequeue; Enqueue 8; Dequeue; Dequeue; Dequeue]
    (spmc_new 2) = Some [Some 5; Some 6; None; Some 5; Some 8; Some 6; Some 8; None].
Proof.
  apply (spmc_queue_is_fifo 2 1 [Enqueue 5; Enqueue 6; Enqueue 7; Dequeue; Enqueue 8; Dequeue; Dequeue; Dequeue]);
    [lia|reflexivity|vm_compute; congruence].
Defined.
