(* ===== verification/SpmcSystem.v ===== *)
(** SpmcSystem: [include/spmcQueue.hpp] under concurrency. One producer and any
    number of consumers call the ring of SpmcQueue at the same time; a step is one
    access to a shared location (a position, a sequence number, the data of a
    cell), in sequentially consistent order. The collection of LogManager is the
    producer, under its mutex; the consumers are the threads that take a log.

    [atomic_queue] is the contract: calls that take effect in one step between
    their call and their return. The system refines it, and the producer is
    wait-free. *)
From S2P Require Import Prelude SpmcQueue.
#[local] Open Scope word_scope.

(** ** Definitions *)

(** Where a call is: the next access it makes, or its result. *)
Inductive prod_pc (T : Type) :=
  | PLoadPos (data : T) | PLoadSeq (data : T) (pos : Z)
  | PStorePos (data : T) (pos : Z) | PStoreData (data : T) (pos : Z) | PStoreSeq (data : T) (pos : Z)
  | PDone (data : T) (ok : bool).
Inductive cons_pc (T : Type) :=
  | CLoadPos | CLoadSeq (pos : Z) | CExchange (pos : Z)
  | CReadData (pos : Z) | CStoreSeq (pos : Z) (data : T)
  | CDone (result : option T).
Arguments PLoadPos {T}. Arguments PLoadSeq {T}. Arguments PStorePos {T}.
Arguments PStoreData {T}. Arguments PStoreSeq {T}. Arguments PDone {T}.
Arguments CLoadPos {T}. Arguments CLoadSeq {T}. Arguments CExchange {T}.
Arguments CReadData {T}. Arguments CStoreSeq {T}. Arguments CDone {T}.

Inductive queue_event (T : Type) :=
  | EnqCall (x : T) | EnqRet (ok : bool) | DeqCall (c : nat) | DeqRet (c : nat) (r : option T).
Arguments EnqCall {T}. Arguments EnqRet {T}. Arguments DeqCall {T}. Arguments DeqRet {T}.

Section system.
Context {T : Type} (size : nat).
Abbreviation queue := (@spmc_bounded_queue T).

Definition set_enqueue_pos v (q : queue) : queue := Queue (buffer_ q) v (dequeue_pos_ q).
Definition set_dequeue_pos v (q : queue) : queue := Queue (buffer_ q) (enqueue_pos_ q) v.
Definition set_data pos v (q : queue) : queue := store_cell size pos (Cell (sequence_ (cell_at size q pos)) v) q.
Definition set_sequence pos v (q : queue) : queue := store_cell size pos (Cell v (data_ (cell_at size q pos))) q.

(** The next access of [enqueue]; the last result is the element that gets the
    position taken, if one is. *)
Definition prod_advance (pc : prod_pc T) (q : queue) : prod_pc T * queue * list T :=
  match pc with
  | PLoadPos x => (PLoadSeq x (enqueue_pos_ q), q, [])
  | PLoadSeq x pos =>
      let d := dif (sequence_ (cell_at size q pos)) pos in
      (if d =? 0 then PStorePos x pos else if d <? 0 then PDone x false else PLoadPos x, q, [])
  | PStorePos x pos => (PStoreData x pos, set_enqueue_pos (pos +w 1) q, [x])
  | PStoreData x pos => (PStoreSeq x pos, set_data pos (Some x) q, [])
  | PStoreSeq x pos => (PDone x true, set_sequence pos (pos +w 1) q, [])
  | PDone x ok => (PDone x ok, q, [])
  end.

(** The next access of [dequeue]; a weak exchange may fail without a reason
    ([spurious]). [None] is a read of a cell that was never written. *)
Definition cons_advance (spurious : bool) (pc : cons_pc T) (q : queue) : option (cons_pc T * queue) :=
  match pc with
  | CLoadPos => Some (CLoadSeq (dequeue_pos_ q), q)
  | CLoadSeq pos =>
      let d := dif (sequence_ (cell_at size q pos)) (pos +w 1) in
      Some (if d =? 0 then CExchange pos else if d <? 0 then CDone None else CLoadPos, q)
  | CExchange pos =>
      if (dequeue_pos_ q =? pos) && negb spurious
      then Some (CReadData pos, set_dequeue_pos (pos +w 1) q)
      else Some (CLoadSeq (dequeue_pos_ q), q)
  | CReadData pos => x ← data_ (cell_at size q pos); Some (CStoreSeq pos x, q)
  | CStoreSeq pos x => Some (CDone (Some x), set_sequence pos (pos +w buffer_mask_ size +w 1) q)
  | CDone r => Some (CDone r, q)
  end.

(** The queue, the calls in progress and a ghost: the elements in the order of
    their positions. *)
Record spmc_system := mkSys {
  sys_queue : queue;
  sys_prod : option (prod_pc T);
  sys_cons : gmap nat (cons_pc T);
  sys_pushed : list T;
}.
Definition sys_init : spmc_system := mkSys (spmc_new size) None ∅ [].

(** Who acts: the producer or a consumer. *)
Inductive spmc_step : option nat → option (queue_event T) → spmc_system → spmc_system → Prop :=
  | sys_enq_call x q m g : spmc_step None (Some (EnqCall x)) (mkSys q None m g) (mkSys q (Some (PLoadPos x)) m g)
  | sys_enq pc pc' q q' m g g' :
      (∀ x ok, pc ≠ PDone x ok) → prod_advance pc q = (pc', q', g') →
      spmc_step None None (mkSys q (Some pc) m g) (mkSys q' (Some pc') m (g ++ g'))
  | sys_enq_ret x ok q m g :
      spmc_step None (Some (EnqRet ok)) (mkSys q (Some (PDone x ok)) m g) (mkSys q None m g)
  | sys_deq_call c q p m g :
      m !! c = None → spmc_step (Some c) (Some (DeqCall c)) (mkSys q p m g) (mkSys q p (<[c := CLoadPos]> m) g)
  | sys_deq c spurious pc pc' q q' p m g :
      m !! c = Some pc → (∀ r, pc ≠ CDone r) → cons_advance spurious pc q = Some (pc', q') →
      spmc_step (Some c) None (mkSys q p m g) (mkSys q' p (<[c := pc']> m) g)
  | sys_deq_ret c r q p m g :
      m !! c = Some (CDone r) → spmc_step (Some c) (Some (DeqRet c r)) (mkSys q p m g) (mkSys q p (delete c m) g).

Definition sys_next s s' : Prop := ∃ a ev, spmc_step a ev s s'.
Definition sys_reachable s : Prop := rtc sys_next sys_init s.
Definition sys_visible ev s s' : Prop := ∃ a, spmc_step a ev s s'.

(** [n] accesses of the call of [enqueue] in progress, among any steps of the
    consumers. *)
Inductive during_enqueue (s : spmc_system) : nat → spmc_system → Prop :=
  | during_start : during_enqueue s 0 s
  | during_consumer n c ev s1 s2 : during_enqueue s n s1 → spmc_step (Some c) ev s1 s2 → during_enqueue s n s2
  | during_producer n s1 s2 : during_enqueue s n s1 → spmc_step None None s1 s2 → during_enqueue s (S n) s2.

(** ** The contract *)

(** The visible events of an execution. *)
Inductive execution {S E : Type} (step : option E → S → S → Prop) (s : S) : list E → S → Prop :=
  | execution_nil : execution step s [] s
  | execution_snoc l ev s1 s2 : execution step s l s1 → step ev s1 s2 → execution step s (l ++ option_list ev) s2.

(** The calls of an atomic queue: an enqueue with its argument, each with its
    result once it has taken effect. *)
Record atomic_queue := mkAtomic {
  aq_items : list T;
  aq_enq : option (T * option bool);
  aq_deq : gmap nat (option (option T));
}.
Definition atomic_init : atomic_queue := mkAtomic [] None ∅.
(** An enqueue may be refused when the queue is full, and also while a dequeue
    that has taken effect has not returned: the cell is not free yet. *)
Inductive atomic_step : option (queue_event T) → atomic_queue → atomic_queue → Prop :=
  | at_enq_call x l m : atomic_step (Some (EnqCall x)) (mkAtomic l None m) (mkAtomic l (Some (x, None)) m)
  | at_enq x l m :
      (length l < size)%nat → atomic_step None (mkAtomic l (Some (x, None)) m) (mkAtomic (l ++ [x]) (Some (x, Some true)) m)
  | at_enq_full x l m :
      length l = size ∨ (∃ c y, m !! c = Some (Some (Some y))) →
      atomic_step None (mkAtomic l (Some (x, None)) m) (mkAtomic l (Some (x, Some false)) m)
  | at_enq_ret x ok l m : atomic_step (Some (EnqRet ok)) (mkAtomic l (Some (x, Some ok)) m) (mkAtomic l None m)
  | at_deq_call c l p m : m !! c = None → atomic_step (Some (DeqCall c)) (mkAtomic l p m) (mkAtomic l p (<[c := None]> m))
  | at_deq c x l p m :
      m !! c = Some None → atomic_step None (mkAtomic (x :: l) p m) (mkAtomic l p (<[c := Some (Some x)]> m))
  | at_deq_empty c p m :
      m !! c = Some None → atomic_step None (mkAtomic [] p m) (mkAtomic [] p (<[c := Some None]> m))
  | at_deq_ret c r l p m :
      m !! c = Some (Some r) → atomic_step (Some (DeqRet c r)) (mkAtomic l p m) (mkAtomic l p (delete c m)).

(** The positions before [published_pos] hold their element. *)
Definition writing (p : option (prod_pc T)) : bool :=
  match p with Some (PStoreData _ _) | Some (PStoreSeq _ _) => true | _ => false end.
Definition published_pos s : Z := Z.of_nat (length (sys_pushed s)) - Z.b2z (writing (sys_prod s)).
Definition items s : list T :=
  drop (Z.to_nat (dequeue_pos_ (sys_queue s))) (take (Z.to_nat (published_pos s)) (sys_pushed s)).
(** A call has taken effect when it stores the sequence number, when it wins the
    exchange, or when it loads a sequence number that makes it give up. *)
Definition prod_call (pc : prod_pc T) : T * option bool :=
  match pc with
  | PLoadPos x | PLoadSeq x _ | PStorePos x _ | PStoreData x _ | PStoreSeq x _ => (x, None)
  | PDone x ok => (x, Some ok)
  end.
Definition cons_call (g : list T) (pc : cons_pc T) : option (option T) :=
  match pc with
  | CLoadPos | CLoadSeq _ | CExchange _ => None
  | CReadData pos => Some (g !! Z.to_nat pos)
  | CStoreSeq _ x => Some (Some x)
  | CDone r => Some r
  end.
Definition sys_abs s : atomic_queue :=
  mkAtomic (items s) (prod_call <$> sys_prod s) (cons_call (sys_pushed s) <$> sys_cons s).

(** ** The invariant *)

Definition claim_of (pc : cons_pc T) : option Z :=
  match pc with CReadData pos | CStoreSeq pos _ => Some pos | _ => None end.
Definition claim_at (m : gmap nat (cons_pc T)) (c : nat) : option Z := m !! c ≫= claim_of.
Definition claimed (m : gmap nat (cons_pc T)) (p : Z) : Prop := ∃ c, claim_at m c = Some p.

(** The cell of the position [p]: being written, full until its consumer frees
    it, or free for the position one round later. *)
Inductive cell_ok s (p : Z) (c : cell_t) : Prop :=
  | cell_writing :
      p = published_pos s → p < Z.of_nat (length (sys_pushed s)) → sequence_ c = p →
      (∀ x pos, sys_prod s = Some (PStoreSeq x pos) → data_ c = Some x) → cell_ok s p c
  | cell_full :
      0 ≤ p < published_pos s → dequeue_pos_ (sys_queue s) ≤ p ∨ claimed (sys_cons s) p →
      sequence_ c = p + 1 → data_ c = sys_pushed s !! Z.to_nat p → cell_ok s p c
  | cell_free :
      p < dequeue_pos_ (sys_queue s) → ¬ claimed (sys_cons s) p → sequence_ c = p + Z.of_nat size → cell_ok s p c.

Definition prod_ok s (pc : prod_pc T) : Prop :=
  let e := Z.of_nat (length (sys_pushed s)) in
  match pc with
  | PLoadSeq _ pos => pos = e
  | PStorePos _ pos =>
      pos = e ∧ e - Z.of_nat size < dequeue_pos_ (sys_queue s) ∧ ¬ claimed (sys_cons s) (e - Z.of_nat size)
  | PStoreData x pos | PStoreSeq x pos => pos = e - 1 ∧ last (sys_pushed s) = Some x
  | _ => True
  end.
Definition cons_ok s (pc : cons_pc T) : Prop :=
  let d := dequeue_pos_ (sys_queue s) in
  match pc with
  | CLoadSeq pos => 0 ≤ pos ≤ d
  | CExchange pos => 0 ≤ pos ≤ d ∧ pos < published_pos s
  | CReadData pos => Z.max 0 (Z.of_nat (length (sys_pushed s)) - Z.of_nat size) ≤ pos < d
  | CStoreSeq pos x =>
      Z.max 0 (Z.of_nat (length (sys_pushed s)) - Z.of_nat size) ≤ pos < d ∧ sys_pushed s !! Z.to_nat pos = Some x
  | _ => True
  end.

Record sys_inv s : Prop := {
  inv_length : length (buffer_ (sys_queue s)) = size;
  inv_enqueue_pos : enqueue_pos_ (sys_queue s) = Z.of_nat (length (sys_pushed s));
  inv_dequeue_pos : 0 ≤ dequeue_pos_ (sys_queue s) ≤ published_pos s ∧
    Z.of_nat (length (sys_pushed s)) - dequeue_pos_ (sys_queue s) ≤ Z.of_nat size;
  inv_prod pc : sys_prod s = Some pc → prod_ok s pc;
  inv_cons c pc : sys_cons s !! c = Some pc → cons_ok s pc;
  inv_claims c c' p : claim_at (sys_cons s) c = Some p → claim_at (sys_cons s) c' = Some p → c = c';
  inv_cells p : Z.of_nat (length (sys_pushed s)) - Z.of_nat size ≤ p < Z.of_nat (length (sys_pushed s)) →
    cell_ok s p (cell_at size (sys_queue s) p);
}.
End system.
Arguments spmc_system : clear implicits.

(** ** The invariant is kept *)

Section preserved.
Context {T : Type} (size : nat) (k : nat) (Hk : (k ≤ 32)%nat)
  (Hsize : Z.of_nat size = 2 ^ Z.of_nat k) (Hsize2 : (2 ≤ size)%nat).
Implicit Types (s : spmc_system T) (q : @spmc_bounded_queue T) (g : list T) (p d e : Z) (m : gmap nat (cons_pc T)).
Abbreviation sz := (Z.of_nat size).
Abbreviation short g := (Z.of_nat (length g) < 2 ^ 62).

Lemma cell_at_store_eq q pos c : length (buffer_ q) = size → cell_at size (store_cell size pos c q) pos = c.
Proof.
  intros Hl. unfold cell_at, store_cell. cbn [buffer_]. rewrite list_lookup_insert_eq; [done|].
  rewrite Hl, (cell_index_mod size k) by done. by apply (slot_lt size k).
Qed.
Lemma cell_at_store_ne q pos c p :
  p ≠ pos → Z.abs (p - pos) < sz → cell_at size (store_cell size pos c q) p = cell_at size q p.
Proof.
  intros Hne Hlt. unfold cell_at, store_cell. cbn [buffer_]. rewrite list_lookup_insert_ne; [done|].
  rewrite !(cell_index_mod size k) by done. intros Heq. apply Hne. symmetry.
  apply (mod_same_slot size k Hk); [done|done|done|lia].
Qed.
Lemma cell_at_round q p : cell_at size q (p + sz) = cell_at size q p.
Proof.
  unfold cell_at. rewrite !(cell_index_mod size k) by done.
  by rewrite <- Zplus_mod_idemp_r, Z.mod_same, Z.add_0_r by lia.
Qed.
Lemma next_pos p : 0 ≤ p < 2 ^ 63 → p +w 1 = p + 1.
Proof. intros. unfold add64. rewrite wrap_small; [done|split; lia]. Qed.
Lemma next_round_pos p : 0 ≤ p < 2 ^ 63 → p +w buffer_mask_ size +w 1 = p + sz.
Proof.
  pose proof (size_bound size k Hk Hsize Hsize2). intros.
  unfold add64, buffer_mask_. rewrite wrap_add_l, wrap_small; [lia|split; lia].
Qed.

(** The sequence numbers of the cells in the window and what they tell. *)
Lemma cell_sequence s p c :
  sys_inv size s → cell_ok size s p c → Z.of_nat (length (sys_pushed s)) - sz ≤ p < Z.of_nat (length (sys_pushed s)) →
  0 ≤ sequence_ c ≤ Z.of_nat (length (sys_pushed s)) + sz.
Proof.
  intros [_ _ [??] _ _ _ _] Hc Hp. destruct Hc; lia.
Qed.

(** What a consumer that loads the sequence number of the cell at [pos] learns. *)
Lemma consumer_load s pos :
  sys_inv size s → short (sys_pushed s) → 0 ≤ pos ≤ dequeue_pos_ (sys_queue s) →
  let d := dif (sequence_ (cell_at size (sys_queue s) pos)) (pos +w 1) in
  (d = 0 → pos < published_pos s) ∧ (d < 0 → pos = dequeue_pos_ (sys_queue s) ∧ published_pos s ≤ pos).
Proof.
  intros Hi Hs Hpos. pose proof (size_bound size k Hk Hsize Hsize2) as Hsz.
  pose proof Hi as [_ _ [Hd Hdz] _ _ _ Hcells].
  assert (published_pos s ≤ Z.of_nat (length (sys_pushed s)) ≤ published_pos s + 1) as Hpub
    by (unfold published_pos; destruct (writing _); cbn; lia).
  set (e := Z.of_nat (length (sys_pushed s))) in *.
  (* the window position of the same cell *)
  assert (∃ r, 0 ≤ r ∧ (e - sz ≤ pos + sz * r < e ∨ (r = 0 ∧ pos = e))) as (r & Hr & Hwin).
  { destruct (decide (pos = e)) as [|Hne]; [exists 0; lia|].
    exists ((e - 1 - pos) / sz). pose proof (Z.mul_div_le (e - 1 - pos) sz). pose proof (Z.mul_succ_div_gt (e - 1 - pos) sz).
    split; [apply Z.div_pos; lia|left; lia]. }
  rewrite next_pos by lia. destruct Hwin as [Hwin|[-> ->]].
  - assert (cell_at size (sys_queue s) pos = cell_at size (sys_queue s) (pos + sz * r)) as ->.
    { unfold cell_at. rewrite !(cell_index_mod size k) by done. rewrite (Z.mul_comm sz), Z_mod_plus_full. done. }
    pose proof (Hcells _ Hwin) as Hc. pose proof (cell_sequence _ _ _ Hi Hc Hwin). cbn zeta.
    rewrite dif_small by lia. destruct (decide (r = 0)) as [->|].
    + replace (pos + sz * 0) with pos in * by lia. destruct Hc; lia.
    + assert (sz * 1 ≤ sz * r) by (apply Z.mul_le_mono_nonneg_l; lia). destruct Hc; lia.
  - assert (cell_at size (sys_queue s) e = cell_at size (sys_queue s) (e - sz)) as ->.
    { rewrite <- (cell_at_round _ (e - sz)). f_equal. lia. }
    assert (e - sz ≤ e - sz < e) as Hw by lia.
    pose proof (Hcells _ Hw) as Hc. pose proof (cell_sequence _ _ _ Hi Hc Hw). cbn zeta.
    rewrite dif_small by lia. destruct Hc; lia.
Qed.

(** What the producer learns. *)
Lemma producer_load s x pos :
  sys_inv size s → short (sys_pushed s) → sys_prod s = Some (PLoadSeq x pos) →
  let d := dif (sequence_ (cell_at size (sys_queue s) pos)) pos in
  let e := Z.of_nat (length (sys_pushed s)) in
  pos = e ∧
  ((d = 0 ∧ e - sz < dequeue_pos_ (sys_queue s) ∧ ¬ claimed (sys_cons s) (e - sz)) ∨
   (d < 0 ∧ (dequeue_pos_ (sys_queue s) = e - sz ∨ claimed (sys_cons s) (e - sz)))).
Proof.
  intros Hi Hs Hp. pose proof (size_bound size k Hk Hsize Hsize2) as Hsz.
  pose proof Hi as [_ _ [Hd Hdz] Hprod _ _ Hcells]. pose proof (Hprod _ Hp) as Hpos. cbn in Hpos. cbn zeta.
  assert (published_pos s = Z.of_nat (length (sys_pushed s))) as Hpub by (unfold published_pos; rewrite Hp; cbn; lia).
  split; [done|]. set (e := Z.of_nat (length (sys_pushed s))) in *. subst pos.
  assert (e - sz ≤ e - sz < e) as Hw by lia.
  assert (cell_at size (sys_queue s) e = cell_at size (sys_queue s) (e - sz)) as ->.
  { rewrite <- (cell_at_round _ (e - sz)). f_equal. lia. }
  pose proof (Hcells _ Hw) as Hc. pose proof (cell_sequence _ _ _ Hi Hc Hw).
  rewrite dif_small by lia. destruct Hc; [lia|right|left].
  - split; [lia|]. destruct H1; [left; lia|by right].
  - split; [lia|]. split; [lia|done].
Qed.

(** *** Steps that leave the ring alone *)

Lemma inv_consumers s m' :
  sys_inv size s → (∀ c, claim_at m' c = claim_at (sys_cons s) c) → (∀ c pc, m' !! c = Some pc → cons_ok size s pc) →
  sys_inv size (mkSys (sys_queue s) (sys_prod s) m' (sys_pushed s)).
Proof.
  destruct s as [q pr m g]. intros [Hl He Hd Hp Hc Hcl Hcells] Hsame Hok; cbn in *.
  assert (∀ p, claimed m' p ↔ claimed m p) as Hclm by (intros p; split; intros [c H]; exists c; by rewrite ?Hsame, <- ?Hsame in *).
  constructor; cbn; try done.
  - intros pc Hpc. specialize (Hp pc Hpc). destruct pc; try done. cbn in *. rewrite Hclm. done.
  - intros c c' p. rewrite !Hsame. apply Hcl.
  - intros p Hp'. destruct (Hcells p Hp'); [by apply cell_writing|apply cell_full|apply cell_free]; cbn in *; rewrite ?Hclm; done.
Qed.

Lemma claim_insert m c (pc : cons_pc T) c' :
  claim_of pc = claim_at m c → claim_at (<[c := pc]> m) c' = claim_at m c'.
Proof.
  intros H. unfold claim_at in *. destruct (decide (c = c')) as [->|Hne]; [rewrite lookup_insert_eq|by rewrite lookup_insert_ne].
  cbn. by rewrite H.
Qed.

Lemma inv_consumer s c pc' :
  sys_inv size s → claim_of pc' = claim_at (sys_cons s) c → cons_ok size s pc' →
  sys_inv size (mkSys (sys_queue s) (sys_prod s) (<[c := pc']> (sys_cons s)) (sys_pushed s)).
Proof.
  intros Hi Hcl Hok. apply inv_consumers; [done|intros c'; by apply claim_insert|].
  intros c' pc. rewrite lookup_insert_Some. intros [[<- <-]|[_ H]]; [done|]. by eapply inv_cons.
Qed.

Lemma sys_inv_return s c :
  sys_inv size s → claim_at (sys_cons s) c = None →
  sys_inv size (mkSys (sys_queue s) (sys_prod s) (delete c (sys_cons s)) (sys_pushed s)).
Proof.
  intros Hi Hcl. apply inv_consumers; [done| |].
  - intros c'. unfold claim_at in *. destruct (decide (c = c')) as [->|Hne]; [by rewrite lookup_delete_eq|by rewrite lookup_delete_ne].
  - intros c' pc. rewrite lookup_delete_Some. intros [_ H]. by eapply inv_cons.
Qed.

Lemma inv_producer s pr :
  sys_inv size s → writing (sys_prod s) = false → writing pr = false → (∀ pc, pr = Some pc → prod_ok size s pc) →
  sys_inv size (mkSys (sys_queue s) pr (sys_cons s) (sys_pushed s)).
Proof.
  destruct s as [q pr0 m g]. intros [Hl He Hd Hp Hc Hcl Hcells] Hw Hw' Hok; cbn in *.
  assert (published_pos (mkSys q pr m g) = published_pos (mkSys q pr0 m g)) as Hpub by (unfold published_pos; cbn; by rewrite Hw, Hw').
  constructor; cbn; rewrite ?Hpub; try done.
  - intros c pc Hpc. specialize (Hc c pc Hpc). destruct pc; try done. cbn in *. by rewrite Hpub.
  - intros p Hp'. destruct (Hcells p Hp') as [Hpp Hlt| |]; [exfalso|apply cell_full|by apply cell_free]; cbn in *; rewrite ?Hpub; try done.
    unfold published_pos in Hpp. cbn in Hpp. rewrite Hw in Hpp. cbn in Hpp. lia.
Qed.

(** *** Steps of the producer on the ring *)

Lemma inv_store_pos s x pos :
  sys_inv size s → short (sys_pushed s) → sys_prod s = Some (PStorePos x pos) →
  sys_inv size (mkSys (set_enqueue_pos (pos +w 1) (sys_queue s)) (Some (PStoreData x pos)) (sys_cons s) (sys_pushed s ++ [x])).
Proof.
  destruct s as [q pr m g]. cbn. intros [Hl He Hd Hp Hc Hcl Hcells] Hs Hpr; cbn in *. subst pr.
  specialize (Hp _ eq_refl) as (Hpos & Hlt & Hncl). cbn in Hpos, Hlt, Hncl. subst pos.
  assert (∀ q', published_pos (mkSys q' (Some (PStoreData x (Z.of_nat (length g)))) m (g ++ [x])) = Z.of_nat (length g)) as Hpub'
    by (intros; unfold published_pos; cbn; rewrite length_app; cbn; lia).
  assert (published_pos (mkSys q (Some (PStorePos x (Z.of_nat (length g)))) m g) = Z.of_nat (length g)) as Hpub
    by (unfold published_pos; cbn; lia).
  rewrite Hpub in Hd. rewrite next_pos by lia.
  constructor; cbn; rewrite ?length_app; cbn; rewrite ?Hpub'; try done.
  - lia.
  - lia.
  - intros pc [= <-]. cbn. rewrite length_app, last_snoc. cbn. split; [lia|done].
  - intros c pc Hpc. specialize (Hc c pc Hpc).
    destruct pc as [| | |pos|pos y|]; try done; cbn in *; rewrite ?Hpub', ?Hpub in *; rewrite ?length_app; cbn.
    + done.
    + assert (pos ≠ Z.of_nat (length g) - sz); [|lia]. intros ->. apply Hncl. exists c. unfold claim_at. by rewrite Hpc.
    + destruct Hc as [Hc Hy]. rewrite lookup_app_l by (by apply lookup_lt_Some in Hy). split; [|done].
      assert (pos ≠ Z.of_nat (length g) - sz); [|lia]. intros ->. apply Hncl. exists c. unfold claim_at. by rewrite Hpc.
  - intros p Hwin. change (cell_at size (set_enqueue_pos _ q) p) with (cell_at size q p).
    destruct (decide (p = Z.of_nat (length g))) as [->|Hne].
    + apply cell_writing; cbn; rewrite ?Hpub', ?length_app; cbn; [done|lia| |done].
      rewrite <- (Z.sub_add sz (Z.of_nat (length g))) at 1. rewrite cell_at_round.
      assert (Z.of_nat (length g) - sz ≤ Z.of_nat (length g) - sz < Z.of_nat (length g)) as Hw by lia.
      destruct (Hcells _ Hw) as [? ?|? [?|?]|]; cbn in *; rewrite ?Hpub in *; try lia; done.
    + destruct (Hcells p) as [? ?|[??] ?|]; [lia| | |]; cbn in *; rewrite ?Hpub in *.
      * lia.
      * apply cell_full; cbn; rewrite ?Hpub'; [lia|done|done|]. rewrite lookup_app_l by lia. done.
      * by apply cell_free.
Qed.

Lemma inv_store_data s x pos :
  sys_inv size s → sys_prod s = Some (PStoreData x pos) →
  sys_inv size (mkSys (set_data size pos (Some x) (sys_queue s)) (Some (PStoreSeq x pos)) (sys_cons s) (sys_pushed s)).
Proof.
  destruct s as [q pr m g]. cbn. intros [Hl He Hd Hp Hc Hcl Hcells] Hpr; cbn in *. subst pr.
  specialize (Hp _ eq_refl) as (Hpos & Hx). cbn in Hpos, Hx. subst pos.
  constructor; cbn; try done.
  - by rewrite length_insert.
  - intros pc [= <-]. done.
  - intros p Hwin. unfold set_data. destruct (decide (p = Z.of_nat (length g) - 1)) as [->|Hne].
    + rewrite cell_at_store_eq by done.
      destruct (Hcells _ Hwin) as [? ? Hs|[??]|]; cbn in *; unfold published_pos in *; cbn in *; try lia.
      apply cell_writing; cbn; [by unfold published_pos|done|done|by intros ?? [= <- <-]].
    + rewrite cell_at_store_ne by lia.
      destruct (Hcells _ Hwin) as [Hpw ? Hs|[??]|]; cbn in *; [|by apply cell_full|by apply cell_free].
      unfold published_pos in Hpw; cbn in Hpw; lia.
Qed.

Lemma inv_store_seq s x pos :
  sys_inv size s → short (sys_pushed s) → sys_prod s = Some (PStoreSeq x pos) →
  sys_inv size (mkSys (set_sequence size pos (pos +w 1) (sys_queue s)) (Some (PDone x true)) (sys_cons s) (sys_pushed s)).
Proof.
  destruct s as [q pr m g]. cbn. intros [Hl He Hd Hp Hc Hcl Hcells] Hs Hpr; cbn in *. subst pr.
  specialize (Hp _ eq_refl) as (Hpos & Hx). cbn in Hpos, Hx. subst pos.
  set (e := Z.of_nat (length g)) in *.
  assert (published_pos (mkSys q (Some (PStoreSeq x (e - 1))) m g) = e - 1) as Hpub by (unfold published_pos; cbn; lia).
  assert (∀ q', published_pos (mkSys q' (Some (PDone x true)) m g) = e) as Hpub' by (intros; unfold published_pos; cbn; lia).
  rewrite Hpub in Hd. assert (1 ≤ e) by lia. rewrite next_pos by lia.
  constructor; cbn; rewrite ?Hpub'; try done.
  - by rewrite length_insert.
  - lia.
  - intros pc [= <-]. done.
  - intros c pc Hpc. specialize (Hc c pc Hpc). destruct pc; try done. cbn in *. rewrite ?Hpub', ?Hpub in *. lia.
  - intros p Hwin. unfold set_sequence. destruct (decide (p = e - 1)) as [->|Hne].
    + rewrite cell_at_store_eq by done.
      destruct (Hcells _ Hwin) as [? ? ? Hdata|[??]|]; cbn in *; rewrite ?Hpub in *; try lia.
      apply cell_full; cbn; rewrite ?Hpub'; [lia|lia|lia|].
      rewrite (Hdata _ _ eq_refl). rewrite last_lookup in Hx. rewrite <- Hx. f_equal. lia.
    + rewrite cell_at_store_ne by lia.
      destruct (Hcells _ Hwin) as [? ? ?|[??]|]; cbn in *; rewrite ?Hpub in *; [lia| |by apply cell_free].
      apply cell_full; cbn; rewrite ?Hpub'; [lia|done|done|done].
Qed.

(** *** Steps of a consumer on the ring *)

Lemma inv_exchange s c pos :
  sys_inv size s → short (sys_pushed s) → sys_cons s !! c = Some (CExchange pos) → dequeue_pos_ (sys_queue s) = pos →
  sys_inv size (mkSys (set_dequeue_pos (pos +w 1) (sys_queue s)) (sys_prod s) (<[c := CReadData pos]> (sys_cons s)) (sys_pushed s)).
Proof.
  destruct s as [q pr m g]. cbn. intros [Hl He Hd Hp Hc Hcl Hcells] Hs Hm Hpos; cbn in *.
  destruct (Hc _ _ Hm) as [Hr Hf]. cbn in Hr, Hf.
  set (f := published_pos (mkSys q pr m g)) in *. set (e := Z.of_nat (length g)) in *.
  assert (f ≤ e) as Hfe by (unfold f, published_pos; cbn; destruct (writing pr); cbn; lia).
  rewrite next_pos by lia.
  assert (∀ p, claimed (<[c := CReadData pos]> m) p ↔ p = pos ∨ claimed m p) as Hclm.
  { intros p. unfold claimed, claim_at. split.
    - intros [c' H]. destruct (decide (c = c')) as [->|Hne].
      + rewrite lookup_insert_eq in H. injection H as ->. by left.
      + rewrite lookup_insert_ne in H by done. right. by exists c'.
    - intros [->|[c' H]]; [exists c; by rewrite lookup_insert_eq|].
      exists c'. rewrite lookup_insert_ne; [done|]. intros <-. rewrite Hm in H. done. }
  assert (¬ claimed m pos) as Hnew.
  { intros [c' H]. unfold claim_at in H. destruct (m !! c') as [pc|] eqn:Hpc; [|done]. specialize (Hc _ _ Hpc).
    cbn in H. destruct pc; try done; injection H as ->; cbn in Hc; lia. }
  constructor; cbn; fold e; try done.
  - change (published_pos _) with f. lia.
  - intros pc Hpc. specialize (Hp pc Hpc). destruct pc; try done. cbn in *. fold e in Hp |- *. rewrite Hclm.
    destruct Hp as (? & ? & Hn). split; [done|]. split; [lia|]. intros [?|?]; [lia|done].
  - intros c' pc. rewrite lookup_insert_Some. intros [[<- <-]|[_ Hpc]]; cbn; fold e; [lia|].
    specialize (Hc _ _ Hpc). destruct pc; try done; cbn in *; fold e in Hc |- *; try lia.
    + change (published_pos _) with f. lia.
    + split; [lia|]. apply Hc.
  - intros c1 c2 p. unfold claim_at. rewrite !lookup_insert. repeat case_decide; subst; cbn; try done.
    + intros [= <-] Hc2. destruct Hnew. by exists c2.
    + intros Hc1 [= <-]. destruct Hnew. by exists c1.
    + apply Hcl.
  - intros p Hwin. change (cell_at size (set_dequeue_pos _ q) p) with (cell_at size q p).
    destruct (Hcells _ Hwin) as [? ? ? ?|? Hor ??|? Hn ?]; cbn in *.
    + by apply cell_writing.
    + apply cell_full; cbn; [done| |done|done]. rewrite Hclm. destruct Hor; [|tauto].
      destruct (decide (p = pos)); [tauto|left; lia].
    + apply cell_free; cbn; [lia| |done]. rewrite Hclm. intros [->|]; [lia|done].
Qed.

Lemma inv_free_cell s c pos x :
  sys_inv size s → short (sys_pushed s) → sys_cons s !! c = Some (CStoreSeq pos x) →
  sys_inv size (mkSys (set_sequence size pos (pos +w buffer_mask_ size +w 1) (sys_queue s)) (sys_prod s)
                      (<[c := CDone (Some x)]> (sys_cons s)) (sys_pushed s)).
Proof.
  destruct s as [q pr m g]. cbn. intros [Hl He Hd Hp Hc Hcl Hcells] Hs Hm; cbn in *.
  destruct (Hc _ _ Hm) as [Hr Hx]. cbn in Hr, Hx.
  set (f := published_pos (mkSys q pr m g)) in *. set (e := Z.of_nat (length g)) in *.
  assert (f ≤ e) as Hfe by (unfold f, published_pos; cbn; destruct (writing pr); cbn; lia).
  rewrite next_round_pos by lia.
  assert (claim_at m c = Some pos) as Hcm by (unfold claim_at; by rewrite Hm).
  assert (∀ p, claimed (<[c := CDone (Some x)]> m) p ↔ p ≠ pos ∧ claimed m p) as Hclm.
  { intros p. unfold claimed. split.
    - intros [c' H]. unfold claim_at in H. destruct (decide (c = c')) as [->|Hne]; [by rewrite lookup_insert_eq in H|].
      rewrite lookup_insert_ne in H by done. split; [|by exists c']. intros ->. apply Hne. by eapply Hcl.
    - intros [Hne [c' H]]. exists c'. unfold claim_at in *. rewrite lookup_insert_ne; [done|]. intros <-. congruence. }
  constructor; cbn; fold e; try done.
  - by rewrite length_insert.
  - intros pc Hpc. specialize (Hp pc Hpc). destruct pc; try done. cbn in *. fold e in Hp |- *. rewrite Hclm. tauto.
  - intros c' pc. rewrite lookup_insert_Some. intros [[<- <-]|[_ Hpc]]; [done|]. by apply (Hc c').
  - intros c1 c2 p. unfold claim_at. rewrite !lookup_insert. repeat case_decide; subst; cbn; try done. apply Hcl.
  - intros p Hwin. unfold set_sequence. destruct (decide (p = pos)) as [->|Hne].
    + rewrite cell_at_store_eq by done. apply cell_free; cbn; [lia| |done]. rewrite Hclm. tauto.
    + rewrite cell_at_store_ne by lia. destruct (Hcells _ Hwin) as [? ? ? ?|? Hor ??|? Hn ?]; cbn in *.
      * by apply cell_writing.
      * apply cell_full; cbn; [done| |done|done]. rewrite Hclm. tauto.
      * apply cell_free; cbn; [done| |done]. rewrite Hclm. tauto.
Qed.
(** *** Every step *)

Lemma inv_init : sys_inv size (sys_init (T := T) size).
Proof.
  destruct (ring_new (T := T) size k Hk Hsize2) as [Hl He Hd _ _ Hfree].
  constructor; cbn; try done; unfold published_pos; cbn; [lia|].
  intros p Hp. destruct (Hfree (p + sz)) as [y Hy]; [cbn; lia|].
  assert (cell_at size (spmc_new size) p = Cell (p + sz) y) as ->.
  { rewrite <- cell_at_round. unfold cell_at. rewrite (cell_index_mod size k) by done. by rewrite Hy. }
  apply cell_free; cbn; [lia|intros [c Hc]; unfold claim_at in Hc; by rewrite lookup_empty in Hc|lia].
Qed.

Lemma inv_prod_step s pc pc' q' g' :
  sys_inv size s → short (sys_pushed s) → sys_prod s = Some pc → prod_advance size pc (sys_queue s) = (pc', q', g') →
  sys_inv size (mkSys q' (Some pc') (sys_cons s) (sys_pushed s ++ g')).
Proof.
  intros Hi Hs Hp Ha. destruct pc as [x|x pos|x pos|x pos|x pos|x ok]; injection Ha as <- <- <-; rewrite ?app_nil_r.
  - apply inv_producer; [done|by rewrite Hp|done|]. intros pc [= <-]. exact (inv_enqueue_pos _ _ Hi).
  - destruct (producer_load _ _ _ Hi Hs Hp) as [-> Hd].
    apply inv_producer; [done|by rewrite Hp|by repeat case_match|].
    intros pc [= <-]. destruct Hd as [(-> & Hlt & Hn)|[Hd _]]; [done|].
    destruct (Z.eqb_spec (dif (sequence_ (cell_at size (sys_queue s) (Z.of_nat (length (sys_pushed s))))) (Z.of_nat (length (sys_pushed s)))) 0); [lia|].
    by case_match.
  - by apply inv_store_pos.
  - by apply inv_store_data.
  - by apply inv_store_seq.
  - destruct s; cbn in *. by rewrite <- Hp.
Qed.

Lemma inv_cons_step s spurious c pc pc' q' :
  sys_inv size s → short (sys_pushed s) → sys_cons s !! c = Some pc → cons_advance size spurious pc (sys_queue s) = Some (pc', q') →
  sys_inv size (mkSys q' (sys_prod s) (<[c := pc']> (sys_cons s)) (sys_pushed s)).
Proof.
  intros Hi Hs Hm Ha. pose proof (inv_cons _ _ Hi _ _ Hm) as Hok. pose proof (inv_dequeue_pos _ _ Hi) as Hd.
  assert (claim_of pc = claim_at (sys_cons s) c) as Hcl by (unfold claim_at; by rewrite Hm).
  destruct pc as [|pos|pos|pos|pos x|r]; cbn in Ha, Hcl, Hok.
  - injection Ha as <- <-. apply inv_consumer; [done|done|cbn; lia].
  - injection Ha as <- <-. destruct (consumer_load s pos Hi Hs Hok) as [H0 _].
    apply inv_consumer; [done|by repeat case_match|].
    destruct (Z.eqb_spec (dif (sequence_ (cell_at size (sys_queue s) pos)) (pos +w 1)) 0); [|by case_match].
    split; [done|by apply H0].
  - destruct ((_ =? _) && _) eqn:Ht; injection Ha as <- <-.
    + apply andb_prop in Ht as [Ht _]. apply Z.eqb_eq in Ht. by apply inv_exchange.
    + apply inv_consumer; [done|done|cbn; lia].
  - destruct (data_ _) as [x|] eqn:Hx; [|done]. injection Ha as <- <-.
    apply inv_consumer; [done|done|]. split; [done|]. rewrite <- Hx.
    destruct (inv_cells _ _ Hi pos) as [??|? ? ? ->|? Hn]; [|lia|done|].
    + destruct Hd as [[? ?] ?]. unfold published_pos in *. destruct (writing _); cbn in *; lia.
    + destruct Hn. by exists c.
  - injection Ha as <- <-. by apply inv_free_cell.
  - injection Ha as <- <-. by apply inv_consumer.
Qed.

Lemma inv_step a ev s s' : spmc_step size a ev s s' → sys_inv size s → short (sys_pushed s) → sys_inv size s'.
Proof.
  intros Hst Hi Hs. destruct Hst.
  - apply (inv_producer _ (Some (PLoadPos x)) Hi); [done|done|]. by intros pc [= <-].
  - by apply (inv_prod_step _ _ _ _ _ Hi Hs eq_refl).
  - by apply (inv_producer _ None Hi).
  - apply (inv_consumer _ _ _ Hi); [|done]. unfold claim_at. cbn. by rewrite H.
  - by apply (inv_cons_step _ spurious c pc _ _ Hi Hs H).
  - apply (sys_inv_return _ c Hi). unfold claim_at. cbn. by rewrite H.
Qed.

Lemma step_pushed a ev s s' : spmc_step size a ev s s' → (length (sys_pushed s) ≤ length (sys_pushed s'))%nat.
Proof. clear k Hk Hsize Hsize2. intros []; cbn; rewrite ?length_app; lia. Qed.

Lemma sys_reachable_inv s : sys_reachable size s → short (sys_pushed s) → sys_inv size s.
Proof.
  unfold sys_reachable. intros H. revert s H. apply (rtc_ind_r (λ s, short (sys_pushed s) → sys_inv size s)); [by intros; apply inv_init|].
  intros s s' _ (a & ev & Hst) IH Hs. pose proof (step_pushed _ _ _ _ Hst). eapply inv_step; [done|apply IH; lia|lia].
Qed.

(** A consumer that reads a cell finds the element of its position. *)
Lemma claimed_cell s c pos :
  sys_inv size s → sys_cons s !! c = Some (CReadData pos) →
  ∃ x, data_ (cell_at size (sys_queue s) pos) = Some x ∧ sys_pushed s !! Z.to_nat pos = Some x.
Proof.
  intros Hi Hm. pose proof (inv_cons _ _ Hi _ _ Hm) as Hok. cbn in Hok. destruct (inv_dequeue_pos _ _ Hi) as [Hd _].
  assert (published_pos s ≤ Z.of_nat (length (sys_pushed s))) by (unfold published_pos; destruct (writing _); cbn; lia).
  destruct (lookup_lt_is_Some_2 (sys_pushed s) (Z.to_nat pos)) as [x Hx]; [lia|]. exists x. split; [|done].
  destruct (inv_cells _ _ Hi pos) as [??|? ? ? ->|? Hn]; [lia|lia|done|].
  destruct Hn. exists c. unfold claim_at. by rewrite Hm.
Qed.

(** *** The simulation *)

Lemma items_length s : sys_inv size s → length (items s) = Z.to_nat (published_pos s - dequeue_pos_ (sys_queue s)).
Proof.
  intros Hi. destruct (inv_dequeue_pos _ _ Hi) as [Hd _]. unfold items. rewrite length_drop, length_take.
  assert (published_pos s ≤ Z.of_nat (length (sys_pushed s))) by (unfold published_pos; destruct (writing _); cbn; lia). lia.
Qed.

Lemma items_head s x :
  sys_inv size s → dequeue_pos_ (sys_queue s) < published_pos s →
  sys_pushed s !! Z.to_nat (dequeue_pos_ (sys_queue s)) = Some x →
  items s = x :: drop (Z.to_nat (dequeue_pos_ (sys_queue s) + 1)) (take (Z.to_nat (published_pos s)) (sys_pushed s)).
Proof.
  intros Hi Hlt Hx. destruct (inv_dequeue_pos _ _ Hi) as [Hd _]. unfold items.
  rewrite (drop_S _ x (Z.to_nat (dequeue_pos_ (sys_queue s)))); [f_equal; f_equal; lia|].
  rewrite lookup_take_lt by lia. done.
Qed.

Lemma prod_step_simulates s pc pc' q' g' :
  sys_inv size s → short (sys_pushed s) → sys_prod s = Some pc → prod_advance size pc (sys_queue s) = (pc', q', g') →
  let s' := mkSys q' (Some pc') (sys_cons s) (sys_pushed s ++ g') in
  sys_abs s' = sys_abs s ∨ atomic_step size None (sys_abs s) (sys_abs s').
Proof.
  intros Hi Hs Hp Ha. pose proof (items_length _ Hi) as Hlen. pose proof (inv_dequeue_pos _ _ Hi) as [Hd Hdz].
  pose proof (inv_prod _ _ Hi _ Hp) as Hok. pose proof (inv_cons _ _ Hi) as Hcons.
  assert (∀ x pos, pc = PLoadSeq x pos → published_pos s = Z.of_nat (length (sys_pushed s))) as Hpub
    by (intros x pos ->; unfold published_pos; rewrite Hp; cbn; lia).
  pose proof (λ x pos (E : sys_prod s = Some (PLoadSeq x pos)), producer_load s x pos Hi Hs E) as Hload.
  destruct s as [q pr m g]. cbn in *. subst pr.
  destruct pc as [x|x pos|x pos|x pos|x pos|x ok]; injection Ha as <- <- <-; rewrite ?app_nil_r; cbn [sys_abs sys_prod sys_cons sys_pushed fmap option_fmap option_map prod_call].
  - by left.
  - destruct (Hload x pos eq_refl) as [-> [(-> & _)|[Hlt Hfull]]]; [by left|]. right.
    destruct (Z.eqb_spec (dif (sequence_ (cell_at size q (Z.of_nat (length g)))) (Z.of_nat (length g))) 0); [lia|].
    destruct (Z.ltb_spec (dif (sequence_ (cell_at size q (Z.of_nat (length g)))) (Z.of_nat (length g))) 0); [|lia].
    rewrite (Hpub x _ eq_refl) in Hlen.
    unfold sys_abs. cbn [sys_prod sys_cons sys_pushed fmap option_fmap option_map prod_call].
    replace (items (mkSys q (Some (PDone x false)) m g)) with (items (mkSys q (Some (PLoadSeq x (Z.of_nat (length g)))) m g)) by done.
    apply at_enq_full. destruct Hfull as [Hfull|[c Hc]]; [left; lia|right].
    unfold claim_at in Hc. destruct (m !! c) as [pc|] eqn:Hm; [|done]. specialize (Hcons _ _ Hm). exists c. cbn in Hc.
    rewrite lookup_fmap, Hm. destruct pc as [| | |p|p y|]; try done; [|by exists y].
    destruct (claimed_cell _ _ _ Hi Hm) as (y & _ & Hy). exists y. cbn in *. by rewrite Hy.
  - left. unfold sys_abs, items, published_pos. cbn. rewrite length_app. cbn. f_equal.
    + f_equal. rewrite take_app_le by lia. f_equal. lia.
    + apply map_fmap_ext. intros c pc Hm. specialize (Hcons _ _ Hm). destruct pc; try done. cbn in *.
      rewrite lookup_app_l; [done|]. unfold published_pos in *. cbn in *. lia.
  - by left.
  - right. destruct Hok as [Hpos Hx]. cbn in Hpos, Hx. subst pos.
    assert (published_pos (mkSys q (Some (PStoreSeq x (Z.of_nat (length g) - 1))) m g) = Z.of_nat (length g) - 1) as Hpb
      by (unfold published_pos; cbn; lia).
    rewrite Hpb in Hd, Hlen. unfold sys_abs. cbn [sys_prod sys_cons sys_pushed fmap option_fmap option_map prod_call].
    assert (items (mkSys (set_sequence size (Z.of_nat (length g) - 1) (Z.of_nat (length g) - 1 +w 1) q) (Some (PDone x true)) m g) =
      items (mkSys q (Some (PStoreSeq x (Z.of_nat (length g) - 1))) m g) ++ [x]) as ->.
    { unfold items. rewrite Hpb. unfold published_pos. cbn.
      apply last_Some in Hx as [g0 ->]. rewrite length_app. cbn.
      rewrite (take_ge (g0 ++ [x])) by (rewrite length_app; cbn; lia).
      rewrite take_app_le, take_ge by lia. rewrite length_app in Hd. cbn in Hd. rewrite drop_app_le by lia. done. }
    apply at_enq. lia.
  - by left.
Qed.

Lemma cons_step_simulates s spurious c pc pc' q' :
  sys_inv size s → short (sys_pushed s) → sys_cons s !! c = Some pc → cons_advance size spurious pc (sys_queue s) = Some (pc', q') →
  let s' := mkSys q' (sys_prod s) (<[c := pc']> (sys_cons s)) (sys_pushed s) in
  sys_abs s' = sys_abs s ∨ atomic_step size None (sys_abs s) (sys_abs s').
Proof.
  intros Hi Hs Hm Ha. pose proof (inv_cons _ _ Hi _ _ Hm) as Hok.
  assert (cons_call (sys_pushed s) <$> sys_cons s !! c = Some (cons_call (sys_pushed s) pc)) as Hcall by (by rewrite Hm).
  rewrite <- lookup_fmap in Hcall.
  assert (∀ pc', cons_call (sys_pushed s) pc' = cons_call (sys_pushed s) pc →
    cons_call (sys_pushed s) <$> <[c := pc']> (sys_cons s) = cons_call (sys_pushed s) <$> sys_cons s) as Hsame.
  { intros pc1 H1. rewrite fmap_insert, H1. by apply insert_id. }
  destruct pc as [|pos|pos|pos|pos x|r]; cbn in Ha; unfold sys_abs; cbn [sys_prod sys_cons sys_pushed sys_queue].
  - injection Ha as <- <-. left. by rewrite Hsame by done.
  - injection Ha as <- <-. destruct (consumer_load s pos Hi Hs Hok) as [_ Hneg].
    destruct (Z.eqb_spec (dif (sequence_ (cell_at size (sys_queue s) pos)) (pos +w 1)) 0); [left; by rewrite Hsame by done|].
    destruct (Z.ltb_spec (dif (sequence_ (cell_at size (sys_queue s) pos)) (pos +w 1)) 0) as [Hlt|]; [right|left; by rewrite Hsame by done].
    destruct (Hneg Hlt) as [-> Hemp].
    assert (items s = []) as Hnil by (apply length_zero_iff_nil; rewrite items_length by done; lia).
    rewrite fmap_insert. change (items (mkSys _ _ (<[c := CDone None]> _) _)) with (items s). rewrite Hnil.
    by apply at_deq_empty.
  - destruct ((_ =? _) && _) eqn:Ht; injection Ha as <- <-; [right|left; by rewrite Hsame by done].
    apply andb_prop in Ht as [Ht _]. apply Z.eqb_eq in Ht. destruct Hok as [Hp Hf]. cbn in Hf, Hp.
    destruct (lookup_lt_is_Some_2 (sys_pushed s) (Z.to_nat pos)) as [x Hx].
    { unfold published_pos in Hf. destruct (writing _); cbn in Hf; lia. }
    rewrite (items_head s x) by (rewrite ?Ht; done || lia). rewrite fmap_insert. cbn [cons_call]. rewrite Hx.
    rewrite next_pos by (unfold published_pos in Hf; destruct (writing _); cbn in Hf; lia). rewrite Ht.
    by apply at_deq.
  - destruct (claimed_cell _ _ _ Hi Hm) as (x & Hx & Hg). rewrite Hx in Ha. injection Ha as <- <-.
    left. rewrite Hsame; [done|]. cbn. by rewrite Hg.
  - injection Ha as <- <-. left. by rewrite Hsame by done.
  - injection Ha as <- <-. left. by rewrite Hsame by done.
Qed.

Lemma step_simulates a ev s s' :
  sys_inv size s → short (sys_pushed s) → spmc_step size a ev s s' →
  (ev = None ∧ sys_abs s' = sys_abs s) ∨ atomic_step size ev (sys_abs s) (sys_abs s').
Proof.
  intros Hi Hs Hst. destruct Hst.
  - right. apply at_enq_call.
  - destruct (prod_step_simulates _ _ _ _ _ Hi Hs eq_refl H0); tauto.
  - right. unfold sys_abs. cbn. apply at_enq_ret.
  - right. unfold sys_abs. cbn. rewrite fmap_insert. apply at_deq_call. by rewrite lookup_fmap, H.
  - destruct (cons_step_simulates _ _ _ _ _ _ Hi Hs H H1); tauto.
  - right. unfold sys_abs. cbn. rewrite fmap_delete. apply at_deq_ret. by rewrite lookup_fmap, H.
Qed.

(** *** The producer is wait-free *)

Definition prod_weight (pr : option (prod_pc T)) : nat :=
  match pr with
  | Some (PLoadPos _) => 5 | Some (PLoadSeq _ _) => 4 | Some (PStorePos _ _) => 3
  | Some (PStoreData _ _) => 2 | Some (PStoreSeq _ _) => 1 | _ => 0
  end.

Lemma prod_step_weight s s' :
  sys_inv size s → short (sys_pushed s) → spmc_step size None None s s' →
  (prod_weight (sys_prod s') < prod_weight (sys_prod s))%nat.
Proof.
  intros Hi Hs Hst. inversion Hst as [|pc pc' q q' m g g' Hnd Ha| | | |]; subst. cbn.
  destruct pc as [x|x pos|x pos|x pos|x pos|x ok]; injection Ha as <- <- <-; cbn; try lia.
  - pose proof (producer_load _ x pos Hi Hs eq_refl) as Hl. cbn in Hl. destruct Hl as [_ [(-> & _)|[Hlt _]]]; [cbn; lia|].
    destruct (_ =? 0); [cbn; lia|]. apply Z.ltb_lt in Hlt. rewrite Hlt. cbn. lia.
  - by destruct (Hnd x ok).
Qed.
End preserved.

(** ** Properties *)

Section properties.
Context {T : Type}.

Lemma execution_reachable (size : nat) (l : list (queue_event T)) (s : spmc_system T) :
  execution (sys_visible size) (sys_init size) l s → sys_reachable size s.
Proof. induction 1 as [|l ev s1 s2 _ IH [a H]]; [apply rtc_refl|]. eapply rtc_r; [done|]. by exists a, ev. Qed.

(** C26: the ring is linearizable. In every execution with one producer and any
    number of consumers, interleaved at each access and up to 2^62 enqueues, the
    calls and returns are those of an execution of the atomic queue, in which each
    call takes effect at one point between the two; no consumer reads a cell that
    was never written. *)
Theorem spmc_queue_linearizable (size k : nat) (l : list (queue_event T)) (s : spmc_system T) :
  (1 ≤ k ≤ 32)%nat → Z.of_nat size = 2 ^ Z.of_nat k → Z.of_nat (length (sys_pushed s)) < 2 ^ 62 →
  execution (sys_visible size) (sys_init size) l s →
  execution (atomic_step size) atomic_init l (sys_abs s) ∧
  ∀ c pc b, sys_cons s !! c = Some pc → cons_advance size b pc (sys_queue s) ≠ None.
Proof.
  intros Hk Hsize Hs Ht. assert (2 ≤ size)%nat as H2 by (pose proof (Z.pow_le_mono_r 2 1 (Z.of_nat k)); lia).
  assert (k ≤ 32)%nat as Hk' by lia. split.
  - induction Ht as [|l ev s1 s2 Ht IH [a Hst]]; [apply execution_nil|].
    assert (Z.of_nat (length (sys_pushed s1)) < 2 ^ 62) as Hs1 by (pose proof (step_pushed _ _ _ _ _ Hst); lia).
    pose proof (sys_reachable_inv size k Hk' Hsize H2 s1 (execution_reachable _ _ _ Ht) Hs1) as Hi.
    destruct (step_simulates size k Hk' Hsize H2 a ev s1 s2 Hi Hs1 Hst) as [[-> ->]|Ha].
    + rewrite app_nil_r. by apply IH.
    + eapply execution_snoc; [by apply IH|done].
  - intros c pc b Hm. pose proof (sys_reachable_inv size k Hk' Hsize H2 s (execution_reachable _ _ _ Ht) Hs) as Hi.
    destruct pc as [| | |pos| |]; cbn; try done; [by case_match|].
    destruct (claimed_cell size k Hk' H2 s c pos Hi Hm) as (x & -> & _). done.
Qed.

(** [enqueue] is wait-free for its one producer. Whatever the consumers do, a
    call in progress has at most five more accesses, so its loop never goes round
    again, and until its result is known it can always take the next one. *)
Theorem spmc_enqueue_wait_free (size k n : nat) (s s' : spmc_system T) :
  (1 ≤ k ≤ 32)%nat → Z.of_nat size = 2 ^ Z.of_nat k → Z.of_nat (length (sys_pushed s')) < 2 ^ 62 →
  sys_reachable size s → during_enqueue size s n s' →
  (n ≤ 5)%nat ∧
  ∀ pc, sys_prod s' = Some pc → (∃ x ok, pc = PDone x ok) ∨ (n < 5)%nat ∧ ∃ s'', spmc_step size None None s' s''.
Proof.
  intros Hk Hsize Hs Hr Hd. assert (2 ≤ size)%nat as H2 by (pose proof (Z.pow_le_mono_r 2 1 (Z.of_nat k)); lia).
  assert (k ≤ 32)%nat as Hk' by lia.
  assert (sys_reachable size s' ∧ (n + prod_weight (sys_prod s') ≤ 5)%nat) as [_ Hw].
  { induction Hd as [|n c ev s1 s2 Hd IH Hst|n s1 s2 Hd IH Hst].
    - split; [done|]. destruct (sys_prod s) as [[]|]; cbn; lia.
    - destruct IH as [Hr1 IH]; [pose proof (step_pushed _ _ _ _ _ Hst); lia|].
      split; [eapply rtc_r; [done|by exists (Some c), ev]|]. by inversion Hst; subst.
    - assert (Z.of_nat (length (sys_pushed s1)) < 2 ^ 62) as Hs1 by (pose proof (step_pushed _ _ _ _ _ Hst); lia).
      destruct (IH Hs1) as [Hr1 IH']. split; [eapply rtc_r; [done|by exists None, None]|].
      pose proof (prod_step_weight size k Hk' Hsize H2 s1 s2 (sys_reachable_inv size k Hk' Hsize H2 s1 Hr1 Hs1) Hs1 Hst). lia. }
  split; [lia|]. intros pc Hp. rewrite Hp in Hw. destruct s' as [q pr m g]. cbn in Hp. subst pr.
  destruct pc as [x|x pos|x pos|x pos|x pos|x ok]; try (right; cbn in Hw; split; [lia|]; eexists;
    apply sys_enq; [by intros|apply surjective_pairing || reflexivity]); [..|left; by exists x, ok].
Qed.
End properties.

(** ** Executions to test on *)

(** A choice of the next step: a call, or the next access or return of the
    producer or of a consumer. *)
Inductive choice (T : Type) := CallEnq (x : T) | CallDeq (c : nat) | StepEnq | StepDeq (c : nat) (spurious : bool).
Arguments CallEnq {T}. Arguments CallDeq {T}. Arguments StepEnq {T}. Arguments StepDeq {T}.

Section schedule.
Context {T : Type} (size : nat).

Definition sys_do (x : choice T) (s : spmc_system T) : option (option (queue_event T) * spmc_system T) :=
  let '(mkSys q pr m g) := s in
  match x with
  | CallEnq x => match pr with None => Some (Some (EnqCall x), mkSys q (Some (PLoadPos x)) m g) | Some _ => None end
  | CallDeq c => match m !! c with None => Some (Some (DeqCall c), mkSys q pr (<[c := CLoadPos]> m) g) | Some _ => None end
  | StepEnq =>
      match pr with
      | None => None
      | Some (PDone _ ok) => Some (Some (EnqRet ok), mkSys q None m g)
      | Some pc => let '(pc', q', g') := prod_advance size pc q in Some (None, mkSys q' (Some pc') m (g ++ g'))
      end
  | StepDeq c spurious =>
      match m !! c with
      | None => None
      | Some (CDone r) => Some (Some (DeqRet c r), mkSys q pr (delete c m) g)
      | Some pc => '(pc', q') ← cons_advance size spurious pc q; Some (None, mkSys q' pr (<[c := pc']> m) g)
      end
  end.
Fixpoint sys_run (xs : list (choice T)) (l : list (queue_event T)) (s : spmc_system T) :
    option (list (queue_event T) * spmc_system T) :=
  match xs with
  | [] => Some (l, s)
  | x :: xs => '(ev, s) ← sys_do x s; sys_run xs (l ++ option_list ev) s
  end.

Lemma sys_do_step x s ev s' : sys_do x s = Some (ev, s') → sys_visible size ev s s'.
Proof.
  destruct s as [q pr m g]. intros H. destruct x as [x|c| |c b]; cbn in H.
  - destruct pr; [done|]. injection H as <- <-. exists None. constructor.
  - destruct (m !! c) eqn:Hm; [done|]. injection H as <- <-. exists (Some c). by constructor.
  - exists None. destruct pr as [pc|]; [|done].
    destruct pc; injection H as <- <-; first [eapply sys_enq_ret | by apply sys_enq].
  - exists (Some c). destruct (m !! c) as [pc|] eqn:Hm; [|done].
    destruct pc; try (injection H as <- <-; by apply sys_deq_ret);
      destruct (cons_advance size b _ q) as [[pc' q']|] eqn:Ha; try done; injection H as <- <-; by apply (sys_deq _ c b _ _ _ _ _ _ _ Hm).
Qed.

Lemma sys_run_execution s0 xs l s l' s' :
  execution (sys_visible size) s0 l s → sys_run xs l s = Some (l', s') → execution (sys_visible size) s0 l' s'.
Proof.
  revert l s. induction xs as [|x xs IH]; intros l s Ht H; cbn in H; [by injection H as <- <-|].
  destruct (sys_do x s) as [[ev s1]|] eqn:Hx; [|done]. cbn in H.
  eapply IH; [|done]. eapply execution_snoc; [done|by eapply sys_do_step].
Qed.
End schedule.

(** Two consumers race for an element; the winner returns it. A third enqueue is
    refused although the queue is empty, because the loser, which then won the next
    element, has not freed its cell. *)
Definition ex_enq (x : Z) : list (choice Z) := CallEnq x :: repeat StepEnq 6.
Definition ex_race : list (choice Z) :=
  ex_enq 7 ++ ex_enq 8 ++ [CallDeq 0; CallDeq 1] ++ repeat (StepDeq 0 false) 2 ++ repeat (StepDeq 1 false) 3 ++
  repeat (StepDeq 0 false) 3 ++ [CallEnq 9; StepEnq; StepEnq; StepEnq] ++ repeat (StepDeq 1 false) 3.
Definition ex_run : list (queue_event Z) * spmc_system Z := default ([], sys_init 2) (sys_run 2 ex_race [] (sys_init 2)).
Example ex_run_events :
  ex_run.1 = [EnqCall 7; EnqRet true; EnqCall 8; EnqRet true; DeqCall 0; DeqCall 1; EnqCall 9; EnqRet false; DeqRet 1 (Some 7)].
Proof. vm_compute. reflexivity. Qed.

Lemma spmc_queue_linearizable_witness :
  execution (atomic_step 2) atomic_init
    [EnqCall 7; EnqRet true; EnqCall 8; EnqRet true; DeqCall 0; DeqCall 1; EnqCall 9; EnqRet false; DeqRet 1 (Some 7)]
    (sys_abs ex_run.2) ∧
  ∀ c pc b, sys_cons ex_run.2 !! c = Some pc → cons_advance 2 b pc (sys_queue ex_run.2) ≠ None.
Proof.
  apply (spmc_queue_linearizable 2 1); [lia|reflexivity|vm_compute; reflexivity|].
  apply (sys_run_execution 2 _ ex_race [] (sys_init 2)); [apply execution_nil|vm_compute; reflexivity].
Defined.

(** The producer between two accesses, with a consumer that acts in between. *)
Definition ex_before : spmc_system Z := default (sys_init 2) (snd <$> sys_run 2 [CallDeq 0; CallEnq 7] [] (sys_init 2)).
Definition ex_middle : spmc_system Z := default (sys_init 2) (snd <$> sys_run 2 [StepEnq; StepDeq 0 false] [] ex_before).
Lemma ex_during : during_enqueue 2 ex_before 1 ex_middle.
Proof.
  eapply (during_consumer 2 _ 1 0); [eapply during_producer; [apply during_start|]|].
  - apply sys_enq; [by intros|reflexivity].
  - apply (sys_deq 2 0 false CLoadPos); [reflexivity|by intros|reflexivity].
Qed.
Lemma spmc_enqueue_wait_free_witness :
  (1 ≤ 5)%nat ∧
  ∀ pc, sys_prod ex_middle = Some pc → (∃ x ok, pc = PDone x ok) ∨ (1 < 5)%nat ∧ ∃ s'', spmc_step 2 None None ex_middle s''.
Proof.
  apply (spmc_enqueue_wait_free 2 1 1 ex_before ex_middle); [lia|reflexivity|vm_compute; reflexivity| |apply ex_during].
  apply (execution_reachable 2 [DeqCall 0%nat; EnqCall 7]).
  apply (sys_run_execution 2 _ [CallDeq 0; CallEnq 7] [] (sys_init 2)); [apply execution_nil|vm_compute; reflexivity].
Defined.
