(* ===== verification/ExtentPool.v ===== *)
(** ExtentPool: [include/extentPool.hpp], the lock-free bump allocator.

    [attempt] is one turn of the loop of [allocate]; [pool_step] interleaves any
    number of callers, a caller's load or failed exchange and its successful
    exchange being separate steps. *)
From S2P Require Import Prelude.
#[local] Open Scope word_scope.

(** ** Definitions *)

(** The members that do not change; [offset_] is in the state below. *)
Record ExtentPool := mkPool { base_ : Z; size_ : Z }.

Section pool.
Variable pool : ExtentPool.
Implicit Types (cur size alignment : Z).

(** The body of the loop: the aligned address and the next offset, or null. *)
Definition attempt size alignment cur : option (Z * Z) :=
  let start_addr := base_ pool +w cur in
  let aligned_addr :=
    if 1 <? alignment then (start_addr +w (alignment -w 1)) &w not64 (alignment -w 1) else start_addr in
  let aligned_offset := aligned_addr -w base_ pool in
  if size_ pool <? aligned_offset +w size then None
  else Some (aligned_addr, aligned_offset +w size).

(** [allocate] without interference: the address and the new [offset_]. *)
Definition allocate size alignment cur : option Z * Z :=
  match attempt size alignment cur with
  | Some (addr, next) => (Some addr, next)
  | None => (None, cur)
  end.

(** What a block was asked for and where it is. *)
Record block := mkBlock { blk_addr : Z; blk_size : Z; blk_align : Z }.

(** A caller inside [allocate] and the offset it last saw. *)
Record caller := mkCaller { cl_size : Z; cl_align : Z; cl_cur : Z }.

Record pool_state := mkState { offset_ : Z; callers : gmap nat caller; blocks : list block }.
Definition pool_init : pool_state := mkState 0 ∅ [].

(** The requests [attempt] can compute with: the comment of the source asks for
    a power of two, and the sums must not wrap around. *)
Definition request_ok size alignment : Prop :=
  0 ≤ size < 2 ^ 62 ∧ ∃ k, 0 ≤ k ≤ 62 ∧ alignment = 2 ^ k.

Inductive pool_step : pool_state → pool_state → Prop :=
  | pool_call o cs bs t size alignment :
      cs !! t = None → request_ok size alignment →
      pool_step (mkState o cs bs) (mkState o (<[t := mkCaller size alignment o]> cs) bs)
  | pool_null o cs bs t c :
      cs !! t = Some c → attempt (cl_size c) (cl_align c) (cl_cur c) = None →
      pool_step (mkState o cs bs) (mkState o (delete t cs) bs)
  | pool_retry o cs bs t c :
      (* the exchange fails, also without a reason, and loads the offset *)
      cs !! t = Some c → is_Some (attempt (cl_size c) (cl_align c) (cl_cur c)) →
      pool_step (mkState o cs bs) (mkState o (<[t := mkCaller (cl_size c) (cl_align c) o]> cs) bs)
  | pool_take o cs bs t c addr next :
      cs !! t = Some c → attempt (cl_size c) (cl_align c) (cl_cur c) = Some (addr, next) → o = cl_cur c →
      pool_step (mkState o cs bs) (mkState next (delete t cs) (mkBlock addr (cl_size c) (cl_align c) :: bs)).

Definition pool_reachable (s : pool_state) : Prop := rtc pool_step pool_init s.

(** The bytes of a block. *)
Definition block_in (b : block) (lo hi : Z) : Prop := lo ≤ blk_addr b ∧ blk_addr b + blk_size b ≤ hi.
Definition blocks_disjoint (b b' : block) : Prop :=
  blk_addr b + blk_size b ≤ blk_addr b' ∨ blk_addr b' + blk_size b' ≤ blk_addr b.

(** ** Lemmas *)

Context (pool_ok : 0 ≤ base_ pool ∧ 0 ≤ size_ pool ∧ base_ pool + size_ pool < 2 ^ 62).

Lemma round_up x k : 0 ≤ k → x ≤ 2 ^ k * ((x + (2 ^ k - 1)) / 2 ^ k) < x + 2 ^ k.
Proof.
  intros Hk. pose proof (pow2_pos k Hk). pose proof (Z.div_mod (x + (2 ^ k - 1)) (2 ^ k) ltac:(lia)).
  pose proof (Z.mod_pos_bound (x + (2 ^ k - 1)) (2 ^ k) ltac:(lia)). lia.
Qed.

(** A successful attempt gives an aligned block at or above the offset it
    started from, and the offset where it ends. *)
Lemma attempt_spec size alignment cur addr next :
  request_ok size alignment → 0 ≤ cur ≤ size_ pool → attempt size alignment cur = Some (addr, next) →
  (alignment | addr) ∧ base_ pool + cur ≤ addr ∧ next = addr + size - base_ pool ∧ next ≤ size_ pool.
Proof.
  intros [Hs (k & Hk & ->)] Hcur. destruct pool_ok as (Hb & Hsz & Hsum). unfold attempt.
  pose proof (Z.pow_le_mono_r 2 k 62 ltac:(lia) ltac:(lia)) as Hk62. pose proof (pow2_pos k ltac:(lia)).
  change (2 ^ 62) with 4611686018427387904 in *. assert (2 ^ 64 = 18446744073709551616) as H64 by done.
  assert (base_ pool +w cur = base_ pool + cur) as -> by (apply wrap_small; split; lia).
  assert (2 ^ k -w 1 = 2 ^ k - 1) as -> by (apply wrap_small; split; lia).
  set (aligned := if 1 <? 2 ^ k then _ else _).
  assert ((2 ^ k | aligned) ∧ base_ pool + cur ≤ aligned < base_ pool + cur + 2 ^ k) as [Hdiv Hal].
  { unfold aligned. destruct (Z.ltb_spec 1 (2 ^ k)).
    - assert (base_ pool + cur +w (2 ^ k - 1) = base_ pool + cur + (2 ^ k - 1)) as -> by (apply wrap_small; split; lia).
      pose proof (align_down_pow2 k (base_ pool + cur + (2 ^ k - 1)) ltac:(lia) ltac:(split; lia)) as Hdown.
      rewrite Z.ones_equiv, <- Z.sub_1_r in Hdown. rewrite Hdown.
      split; [by apply Z.divide_factor_l|]. apply round_up. lia.
    - assert (2 ^ k = 1) as -> by lia. split; [apply Z.divide_1_l|lia]. }
  clearbody aligned. assert (aligned -w base_ pool = aligned - base_ pool) as -> by (apply wrap_small; split; lia).
  assert (aligned - base_ pool +w size = aligned - base_ pool + size) as -> by (apply wrap_small; split; lia).
  destruct (Z.ltb_spec (size_ pool) (aligned - base_ pool + size)); [done|]. intros [= <- <-].
  split; [done|]. lia.
Qed.

Record pool_inv (s : pool_state) : Prop := {
  pi_offset : 0 ≤ offset_ s ≤ size_ pool;
  pi_callers t c : callers s !! t = Some c → request_ok (cl_size c) (cl_align c) ∧ 0 ≤ cl_cur c ≤ offset_ s;
  pi_blocks : Forall (λ b, block_in b (base_ pool) (base_ pool + offset_ s) ∧ (blk_align b | blk_addr b)) (blocks s);
  pi_disjoint i j b b' : blocks s !! i = Some b → blocks s !! j = Some b' → i ≠ j → blocks_disjoint b b';
}.

Lemma pool_inv_init : pool_inv pool_init.
Proof. destruct pool_ok as (? & ? & ?). constructor; cbn; [lia|by intros t c ?%lookup_empty_Some|constructor|done]. Qed.

Lemma pool_step_inv s s' : pool_step s s' → pool_inv s → pool_inv s'.
Proof.
  intros Hs [Ho Hc Hb Hd]. inversion Hs as [o cs bs t sz al Ht Hr|o cs bs t c Ht Hn|o cs bs t c Ht Hn
    |o cs bs t c addr next Ht Ha Heq]; subst; cbn [offset_ callers blocks] in *.
  - constructor; cbn [offset_ callers blocks]; [done| |done|done]. intros t' c'. rewrite lookup_insert_Some.
    intros [[<- <-]|[_ ?]]; [cbn; split; [done|lia]|by apply (Hc t')].
  - constructor; cbn [offset_ callers blocks]; [done| |done|done]. intros t' c' [_ ?]%lookup_delete_Some. by apply (Hc t').
  - constructor; cbn [offset_ callers blocks]; [done| |done|done]. intros t' c'. rewrite lookup_insert_Some.
    intros [[<- <-]|[_ ?]]; [cbn; destruct (Hc t c Ht); split; [done|lia]|by apply (Hc t')].
  - destruct (Hc t c Ht) as [Hr Hcur]. destruct (attempt_spec _ _ _ _ _ Hr Ho Ha) as (Hdiv & Hlo & -> & Hhi).
    pose proof Hr as [Hsz _]. constructor; cbn [offset_ callers blocks].
    + lia.
    + intros t' c' [_ Ht']%lookup_delete_Some. destruct (Hc t' c' Ht'). split; [done|lia].
    + constructor; cbn.
      * split; [split; cbn; lia|done].
      * eapply Forall_impl; [exact Hb|]. intros b [[H1 H2] H3]. split; [split; lia|done].
    + assert (∀ i b, bs !! i = Some b → blocks_disjoint b (mkBlock addr (cl_size c) (cl_align c))) as Hnew.
      { intros i b Hi. left. destruct (Forall_lookup_1 _ _ _ _ Hb Hi) as [[_ H2] _]. cbn. lia. }
      intros [|i] [|j] b b' Hi Hj Hne; cbn in *.
      * done.
      * injection Hi as <-. destruct (Hnew j b' Hj); [by right|by left].
      * injection Hj as <-. by apply (Hnew i).
      * apply (Hd i j); [done|done|]. congruence.
Qed.

Lemma pool_reachable_inv s : pool_reachable s → pool_inv s.
Proof.
  intros Hr. assert (pool_inv pool_init) as H0 by apply pool_inv_init. unfold pool_reachable in Hr.
  induction Hr as [s | s s1 s2 Hs _ IH]; [done|]. apply IH. by eapply pool_step_inv.
Qed.
End pool.

(** ** Properties *)

(** C35: blocks of the bump allocator never overlap. However many threads call
    [allocate] at once, with power-of-two alignments and sizes that cannot wrap
    around, every block handed out is aligned as asked and lies inside the
    buffer, and any two blocks are disjoint. *)
Theorem extent_pool_blocks_disjoint (pool : ExtentPool) (s : pool_state) :
  0 ≤ base_ pool ∧ 0 ≤ size_ pool ∧ base_ pool + size_ pool < 2 ^ 62 → pool_reachable pool s →
  (∀ b, b ∈ blocks s → block_in b (base_ pool) (base_ pool + size_ pool) ∧ (blk_align b | blk_addr b)) ∧
  (∀ i j b b', blocks s !! i = Some b → blocks s !! j = Some b' → i ≠ j → blocks_disjoint b b').
Proof.
  intros Hp Hr. destruct (pool_reachable_inv pool Hp s Hr) as [Ho _ Hb Hd]. split; [|done].
  intros b Hin. rewrite Forall_forall in Hb. destruct (Hb b Hin) as [[H1 H2] H3]. split; [split; lia|done].
Qed.

Lemma extent_pool_blocks_disjoint_witness :
  let pool := mkPool 0x1000 0x1000 in
  blocks_disjoint (mkBlock 0x1020 16 32) (mkBlock 0x1000 10 1).
Proof.
  intros pool. set (s := mkState 48 ∅ [mkBlock 0x1020 16 32; mkBlock 0x1000 10 1]).
  assert (pool_reachable pool s) as Hr.
  { eapply rtc_l; [apply (pool_call _ _ _ _ 0%nat 10 1); [reflexivity|split; [lia|exists 0; split; [lia|reflexivity]]]|].
    eapply rtc_l; [apply (pool_call _ _ _ _ 1%nat 16 32); [reflexivity|split; [lia|exists 5; split; [lia|reflexivity]]]|].
    eapply rtc_l; [eapply (pool_take _ _ _ _ 0%nat); [reflexivity|vm_compute; reflexivity|reflexivity]|].
    eapply rtc_l; [eapply (pool_retry _ _ _ _ 1%nat); [reflexivity|eexists; vm_compute; reflexivity]|].
    eapply rtc_l; [eapply (pool_take _ _ _ _ 1%nat); [reflexivity|vm_compute; reflexivity|reflexivity]|].
    match goal with |- rtc _ ?x ?y => enough (x = y) as -> by apply rtc_refl end. reflexivity. }
  destruct (extent_pool_blocks_disjoint pool s) as [_ H]; [split; [cbn; lia|split; cbn; lia]|exact Hr|].
  apply (H 0%nat 1%nat); [reflexivity|reflexivity|lia].
Defined.

(** A request close to 2^64 passes the size test, because the sum wraps around,
    and moves the offset back. *)
Theorem extent_pool_huge_request_wraps (pool : ExtentPool) (cur : Z) :
  0 ≤ base_ pool → base_ pool + size_ pool < 2 ^ 62 → 64 ≤ cur ≤ size_ pool →
  attempt pool (2 ^ 64 - 64) 1 cur = Some (base_ pool + cur, cur - 64).
Proof.
  intros Hb Hs Hc. change (2 ^ 62) with 4611686018427387904 in *. unfold attempt. change (1 <? 1) with false. cbv iota.
  assert (base_ pool +w cur = base_ pool + cur) as -> by (apply wrap_small; split; lia).
  assert (base_ pool + cur -w base_ pool = cur) as -> by (unfold sub64; rewrite wrap_small; [lia|split; lia]).
  assert (cur +w (2 ^ 64 - 64) = cur - 64) as ->.
  { unfold add64, wrap64, wrap. symmetry. apply Z.mod_unique with 1; lia. }
  by destruct (Z.ltb_spec (size_ pool) (cur - 64)); [lia|].
Qed.
