(* ===== verification/LogManager.v ===== *)
(** LogManager: [include/logManager.hpp], the per-node log of dirty lines.

    A node's producers take an empty [Log] from the free list, fill it and
    publish it at the next position of the ring [pub]; every other node's
    consumer reads positions in order through its own [head]; the garbage
    collection gives the logs that every subscriber has passed back to the free
    list. A [Log *] is an index into [buf]. The free list is any [FifoQueue]
    (the one of SpmcQueue in the code); a section under [gc_mtx] is one step.
    [step] is the system of producers and consumers that call these operations,
    with the published history kept as ghost state. *)
From S2P Require Import Prelude Config SpmcQueue.
#[local] Open Scope word_scope.

(** ** Definitions *)

Record Log := mkLog { entries : list Z; log_size : nat }.
Record PubEntry := mkPub { pe_log : nat; pe_idx : Z; pe_is_rel : bool }.
Record SubStatus := mkSub { sub_head : Z; sub_is_subbed : bool }.

(** An uninitialised array element: never read before the constructor. *)
Definition pub_null : PubEntry := mkPub 0 0 false.
Definition sub_null : SubStatus := mkSub 0 false.

Record LogManager (Q : Type) := mkLM {
  buf : list Log;
  pub : list PubEntry;
  lm_tail : Z;
  subs : list SubStatus;
  freelist : Q;
  lm_node_id : nat;
  bound : Z;
}.
Arguments mkLM {Q}.
Arguments buf {Q}.
Arguments pub {Q}.
Arguments lm_tail {Q}.
Arguments subs {Q}.
Arguments freelist {Q}.
Arguments lm_node_id {Q}.
Arguments bound {Q}.

Section logs.
Context `{cfg : Config}.

Definition log_init : Log := mkLog (replicate LOG_SIZE 0) 0.
Definition is_full (l : Log) : bool := (log_size l =? LOG_SIZE)%nat.

(** [assert(size < LOG_SIZE)]: a failed assertion is [None]. *)
Definition log_write (cl_addr : Z) (l : Log) : option Log :=
  if (log_size l <? LOG_SIZE)%nat
  then Some (mkLog (<[log_size l := cl_addr]> (entries l)) (log_size l + 1))
  else None.

(** The entries from [begin()] to [end()]. *)
Definition log_entries (l : Log) : list Z := take (log_size l) (entries l).
Definition log_clear (l : Log) : Log := mkLog (entries l) 0.

Definition next_round (idx : Z) : Z := add32 idx (Z.of_nat LOG_COUNT).
Definition prev_round (idx : Z) : Z := sub32 idx (Z.of_nat LOG_COUNT).
Definition get_idx (idx : Z) : nat := Z.to_nat (idx &w (Z.of_nat LOG_COUNT - 1)).
End logs.

Section log_manager.
Context `{cfg : Config} {Q : Type} `{FQ : !FifoQueue Q nat LOG_COUNT}.
Abbreviation LogManager := (LogManager Q).
Implicit Types (lm : LogManager) (q : Q) (nid log : nat).

Definition set_freelist q lm : LogManager :=
  mkLM (buf lm) (pub lm) (lm_tail lm) (subs lm) q (lm_node_id lm) (bound lm).
Definition set_bound b lm : LogManager :=
  mkLM (buf lm) (pub lm) (lm_tail lm) (subs lm) (freelist lm) (lm_node_id lm) b.
Definition set_tail t lm : LogManager :=
  mkLM (buf lm) (pub lm) t (subs lm) (freelist lm) (lm_node_id lm) (bound lm).
Definition set_pub p lm : LogManager :=
  mkLM (buf lm) p (lm_tail lm) (subs lm) (freelist lm) (lm_node_id lm) (bound lm).
Definition set_subs s lm : LogManager :=
  mkLM (buf lm) (pub lm) (lm_tail lm) s (freelist lm) (lm_node_id lm) (bound lm).
Definition set_buf b lm : LogManager :=
  mkLM b (pub lm) (lm_tail lm) (subs lm) (freelist lm) (lm_node_id lm) (bound lm).

Definition pub_at lm (idx : Z) : PubEntry := default pub_null (pub lm !! get_idx idx).
Definition sub_at lm nid : SubStatus := default sub_null (subs lm !! nid).
Definition is_subscribed lm nid : bool := sub_is_subbed (sub_at lm nid).
Definition head_of lm nid : Z := sub_head (sub_at lm nid).
Definition set_sub nid s lm : LogManager := set_subs (<[nid := s]> (subs lm)) lm.

(** The first loop of [perform_gc]: the new bound, and [subscribed]. *)
Definition gc_scan lm : Z * bool :=
  foldl (λ '(new_b, subscribed) i,
    if (i =? lm_node_id lm)%nat then (new_b, subscribed)
    else if negb (is_subscribed lm i) then (new_b, subscribed)
    else let h := next_round (head_of lm i) in
         (if (h <? new_b) && (bound lm <=? h) then h else new_b, true))
    (next_round (bound lm), false) (seq 0 NODE_COUNT).

(** The loop of the subscribed case; [while(!freelist.enqueue(log))] on a full
    queue does not end when no other thread dequeues: [None]. *)
Fixpoint gc_free_loop (fuel : nat) (i new_b : Z) lm : option LogManager :=
  if i =? new_b then Some lm
  else match fuel with
  | O => None
  | S fuel' =>
      let log := pe_log (pub_at lm i) in
      '(ok, q) ← q_enqueue log (freelist lm);
      if ok : bool then gc_free_loop fuel' (add32 i 1) new_b (set_freelist q lm) else None
  end.

(** The loop without subscribers, which stops at an unpublished position. *)
Fixpoint gc_unsubscribed_loop (fuel : nat) (i new_b : Z) lm : option (Z * LogManager) :=
  if i =? new_b then Some (new_b, lm)
  else match fuel with
  | O => None
  | S fuel' =>
      let entry := pub_at lm i in
      let log := pe_log entry in
      if negb (pe_idx entry =? add32 (prev_round i) 1) then Some (i, lm)
      else
        '(ok, q) ← q_enqueue log (freelist lm);
        if ok : bool then gc_unsubscribed_loop fuel' (add32 i 1) new_b (set_freelist q lm) else None
  end.

(** [perform_gc]; [None] when [assert(bound <= new_b)] fails, and when the code
    would not return: the free list refuses a log ([while (!freelist.enqueue(log))]),
    or the loop over the positions meets no end within a round. *)
Definition perform_gc lm : option LogManager :=
  let '(new_b, subscribed) := gc_scan lm in
  if new_b <? bound lm then None
  else if subscribed then
    set_bound new_b <$> gc_free_loop LOG_COUNT (bound lm) new_b lm
  else
    '(new_b, lm) ← gc_unsubscribed_loop LOG_COUNT (bound lm) new_b lm;
    Some (set_bound new_b lm).

(** The constructor: every log is free, and its address stored in [pub]. *)
Fixpoint fill_freelist (logs : list nat) q : option Q :=
  match logs with
  | [] => Some q
  | log :: logs => '(ok, q) ← q_enqueue log q; if ok : bool then fill_freelist logs q else None
  end.
Definition log_manager_new (nid : nat) : option LogManager :=
  q ← fill_freelist (seq 0 LOG_COUNT) q_new;
  Some (mkLM (replicate LOG_COUNT log_init)
             (map (λ i, mkPub i 0 false) (seq 0 LOG_COUNT)) 0
             (replicate NODE_COUNT (mkSub 0 true)) q nid (next_round 0)).

(** The wait of [add_subscriber] for a tail at most a round ahead. *)
Fixpoint add_subscriber_loop (fuel : nat) nid (t : Z) lm : option (Z * LogManager) :=
  let new_t := lm_tail lm in
  if next_round t <? new_t then
    match fuel with
    | O => None
    | S fuel' => add_subscriber_loop fuel' nid new_t (set_sub nid (mkSub new_t true) lm)
    end
  else Some (t, lm).
Definition add_subscriber (fuel : nat) nid lm : option (Z * LogManager) :=
  if is_subscribed lm nid then None
  else
    let t := lm_tail lm in
    add_subscriber_loop fuel nid t (set_sub nid (mkSub t true) lm).

Definition remove_subscriber nid lm : LogManager := set_sub nid (mkSub (head_of lm nid) false) lm.

(** A dequeued log, emptied. *)
Definition take_log log lm : LogManager :=
  set_buf (alter log_clear log (buf lm)) lm.

Definition get_new_log lm : option (option nat * LogManager) :=
  '(r, q) ← q_dequeue (freelist lm);
  let lm := set_freelist q lm in
  match r with
  | Some log => Some (Some log, take_log log lm)
  | None =>
      '(r, q) ← q_dequeue (freelist lm);
      let lm := set_freelist q lm in
      match r with
      | Some log => Some (Some log, take_log log lm)
      | None =>
          lm ← perform_gc lm;
          '(r, q) ← q_dequeue (freelist lm);
          let lm := set_freelist q lm in
          match r with
          | Some log => Some (Some log, take_log log lm)
          | None => Some (None, lm)
          end
      end
  end.

(** [produce_tail] in its two parts: the [fetch_add], and the stores. *)
Definition reserve_tail lm : Z * LogManager := (lm_tail lm, set_tail (add32 (lm_tail lm) 1) lm).
Definition publish (t : Z) log (r : bool) lm : Z * LogManager :=
  (add32 t 1, set_pub (<[get_idx t := mkPub log (add32 t 1) r]> (pub lm)) lm).
Definition produce_tail log (r : bool) lm : Z * LogManager :=
  let '(t, lm) := reserve_tail lm in publish t log r lm.

Definition take_head nid lm : option PubEntry :=
  let h := head_of lm nid in
  let entry := pub_at lm h in
  if negb (pe_idx entry =? add32 h 1) then None else Some entry.

Definition consume_head nid lm : LogManager :=
  set_sub nid (mkSub (add32 (head_of lm nid) 1) (is_subscribed lm nid)) lm.

(** The log a pointer refers to. *)
Definition log_at lm log : Log := default log_init (buf lm !! log).

(** ** The system of producers and consumers *)

(** A position of the log: who filled it and, once it is published, with what. *)
Record pub_rec := mkRec { pr_log : nat; pr_rel : bool; pr_data : option (list Z) }.

Record sys := mkSys { lm_of : LogManager; held : list nat; hist : list pub_rec }.
Implicit Types (s : sys) (p g : nat).

Definition published s p : Prop := ∃ r, hist s !! p = Some r ∧ pr_data r ≠ None.

Inductive step : sys → sys → Prop :=
  | step_get lm held hist log lm' :
      get_new_log lm = Some (Some log, lm') →
      step (mkSys lm held hist) (mkSys lm' (log :: held) hist)
  | step_get_null lm held hist lm' :
      get_new_log lm = Some (None, lm') →
      step (mkSys lm held hist) (mkSys lm' held hist)
  | step_write lm held hist log cl l :
      log ∈ held → log_write cl (log_at lm log) = Some l →
      step (mkSys lm held hist) (mkSys (set_buf (<[log := l]> (buf lm)) lm) held hist)
  | step_reserve lm held log held' hist r :
      held ≡ₚ log :: held' →
      step (mkSys lm held hist)
           (mkSys (reserve_tail lm).2 held' (hist ++ [mkRec log r None]))
  | step_publish lm held hist p log r :
      hist !! p = Some (mkRec log r None) →
      step (mkSys lm held hist)
           (mkSys (publish (Z.of_nat p) log r lm).2 held
              (<[p := mkRec log r (Some (log_entries (log_at lm log)))]> hist))
  | step_consume lm held hist nid e :
      (nid < NODE_COUNT)%nat → nid ≠ lm_node_id lm → is_subscribed lm nid = true →
      take_head nid lm = Some e →
      step (mkSys lm held hist) (mkSys (consume_head nid lm) held hist)
  | step_unsubscribe lm held hist nid :
      step (mkSys lm held hist) (mkSys (remove_subscriber nid lm) held hist)
  | step_subscribe fuel lm held hist nid t lm' :
      (nid < NODE_COUNT)%nat → Forall (λ r, pr_data r ≠ None) hist →
      add_subscriber fuel nid lm = Some (t, lm') →
      step (mkSys lm held hist) (mkSys lm' held hist).

(** Nothing has been reclaimed below this position. *)
Definition gc_pos s : nat := (Z.to_nat (bound (lm_of s)) - LOG_COUNT)%nat.

(** The invariant: [g] positions reclaimed, [F] the free logs. *)
Record inv s g (F : list nat) : Prop := {
  inv_buf : length (buf (lm_of s)) = LOG_COUNT;
  inv_logs : Forall (λ l, length (entries l) = LOG_SIZE ∧ (log_size l ≤ LOG_SIZE)%nat) (buf (lm_of s));
  inv_pub_len : length (pub (lm_of s)) = LOG_COUNT;
  inv_subs_len : length (subs (lm_of s)) = NODE_COUNT;
  inv_bound : bound (lm_of s) = Z.of_nat (LOG_COUNT + g);
  inv_tail : lm_tail (lm_of s) = Z.of_nat (length (hist s));
  inv_free : q_repr (freelist (lm_of s)) F (Z.of_nat (LOG_COUNT + g));
  inv_perm : F ++ held s ++ map pr_log (drop g (hist s)) ≡ₚ seq 0 LOG_COUNT;
  inv_gc_le : (g ≤ length (hist s))%nat;
  inv_gc_pub p : (p < g)%nat → published s p;
  inv_heads nid : (nid < NODE_COUNT)%nat → nid ≠ lm_node_id (lm_of s) →
    is_subscribed (lm_of s) nid = true →
    ∃ h : nat, head_of (lm_of s) nid = Z.of_nat h ∧ (g ≤ h ≤ length (hist s))%nat ∧
               ∀ p, (p < h)%nat → published s p;
  inv_ring p r d : (g ≤ p)%nat → hist s !! p = Some r → pr_data r = Some d →
    pub (lm_of s) !! (p mod LOG_COUNT)%nat = Some (mkPub (pr_log r) (Z.of_nat p + 1) (pr_rel r)) ∧
    log_entries (log_at (lm_of s) (pr_log r)) = d;
  inv_idx j e : pub (lm_of s) !! j = Some e →
    pe_idx e = 0 ∨ ∃ p : nat, pe_idx e = Z.of_nat p + 1 ∧ published s p;
}.

(** The initial state of a run. *)
Definition initial (nid : nat) s : Prop :=
  ∃ lm, log_manager_new nid = Some lm ∧ s = mkSys lm [] [].

Definition reachable (nid : nat) s : Prop := ∃ s0, initial nid s0 ∧ rtc step s0 s.

(** The 32-bit positions have not wrapped around. *)
Definition no_wrap s : Prop := Z.of_nat (length (hist s)) + 2 * Z.of_nat LOG_COUNT < 2 ^ 32.
End log_manager.
Arguments sys Q : clear implicits.
Arguments mkSys {Q}.
Arguments lm_of {Q}.
Arguments held {Q}.
Arguments hist {Q}.

(** ** Lemmas: positions *)

Section positions.
Context `{cfg : Config} {ok : ConfigOk cfg}.
Abbreviation N := LOG_COUNT.

Lemma log_count_range : (2 ≤ N)%nat ∧ Z.of_nat N ≤ 2 ^ 16.
Proof.
  destruct log_count_pow2 as (k & Hk & Heq). split.
  - pose proof (Z.pow_le_mono_r 2 1 (Z.of_nat k)). lia.
  - rewrite Heq. apply Z.pow_le_mono_r; lia.
Qed.

Lemma log_count_capacity : ring_capacity N.
Proof.
  split; [apply log_count_range|]. destruct log_count_pow2 as (k & Hk & Heq). exists k. split; [lia|done].
Qed.

Lemma get_idx_nat p : get_idx (Z.of_nat p) = (p mod N)%nat.
Proof.
  pose proof log_count_range. destruct log_count_pow2 as (k & Hk & Heq). unfold get_idx.
  rewrite Z.sub_1_r, Heq, <- Z.ones_equiv, Z.land_ones, <- Heq by lia.
  rewrite <- Nat2Z.inj_mod. apply Nat2Z.id.
Qed.

Lemma get_idx_round p : get_idx (Z.of_nat (N + p)) = (p mod N)%nat.
Proof.
  pose proof log_count_range. rewrite get_idx_nat.
  replace (N + p)%nat with (p + 1 * N)%nat by lia. apply Nat.Div0.mod_add.
Qed.

Lemma slot_lt_count p : (p mod N < N)%nat.
Proof. pose proof log_count_range. apply Nat.mod_upper_bound. lia. Qed.

Lemma slot_inj p p' : (p mod N = p' mod N)%nat → (p < p' + N)%nat → (p' < p + N)%nat → p = p'.
Proof.
  intros Heq H1 H2. pose proof log_count_range.
  pose proof (Nat.div_mod_eq p N). pose proof (Nat.div_mod_eq p' N).
  destruct (Nat.lt_trichotomy (p / N) (p' / N)) as [|[E|]]; [nia|congruence|nia].
Qed.

Lemma next_round_nat p : Z.of_nat (N + p) < 2 ^ 32 → next_round (Z.of_nat p) = Z.of_nat (N + p).
Proof. intros. unfold next_round, add32. rewrite wrap_small; [lia|split; lia]. Qed.

Lemma prev_round_nat p : Z.of_nat (N + p) < 2 ^ 32 → prev_round (Z.of_nat (N + p)) = Z.of_nat p.
Proof. intros. unfold prev_round, sub32. rewrite wrap_small; [lia|split; lia]. Qed.

Lemma add32_1_nat (p : nat) : Z.of_nat p + 1 < 2 ^ 32 → add32 (Z.of_nat p) 1 = Z.of_nat (S p).
Proof. intros. unfold add32. rewrite wrap_small; [lia|split; lia]. Qed.
End positions.

(** The free list the code uses. *)
#[export] Instance log_freelist {cfg : Config} {ok : ConfigOk cfg} :
  FifoQueue (@spmc_bounded_queue nat) nat LOG_COUNT := spmc_fifo LOG_COUNT log_count_capacity.

(** ** Lemmas: the garbage collection *)

Section gc.
Context `{cfg : Config} {ok : ConfigOk cfg} {Q : Type} `{FQ : !FifoQueue Q nat LOG_COUNT}.
Abbreviation N := LOG_COUNT.
Implicit Types (lm : LogManager Q) (F : list nat) (g j : nat).

(** The logs the loops free: those of the slots of positions [j, j + n). *)
Definition slot_logs lm (j n : nat) : list nat :=
  map (λ p, pe_log (pub_at lm (Z.of_nat (N + p)))) (seq j n).

Lemma gc_free_loop_spec fuel j n F lm :
  q_repr (freelist lm) F (Z.of_nat (N + j)) → (length F + n ≤ N)%nat →
  Z.of_nat (N + j + n) < 2 ^ 32 → (n ≤ fuel)%nat →
  ∃ q, gc_free_loop fuel (Z.of_nat (N + j)) (Z.of_nat (N + (j + n))) lm = Some (set_freelist q lm) ∧
       q_repr q (F ++ slot_logs lm j n) (Z.of_nat (N + (j + n))).
Proof.
  revert fuel j F lm. induction n as [|n IH]; intros fuel j F lm Hq Hlen Hmax Hfuel.
  - exists (freelist lm). rewrite Nat.add_0_r. cbn [slot_logs seq map]. rewrite app_nil_r. split; [|done].
    destruct fuel; cbn [gc_free_loop]; rewrite Z.eqb_refl; by destruct lm.
  - destruct fuel as [|fuel]; [lia|]. cbn [gc_free_loop].
    destruct (Z.eqb_spec (Z.of_nat (N + j)) (Z.of_nat (N + (j + S n)))); [lia|].
    destruct (q_enqueue_spec (freelist lm) F (Z.of_nat (N + j)) (pe_log (pub_at lm (Z.of_nat (N + j)))) Hq)
      as (q & -> & Hq'); [lia|lia|]. cbn [mbind option_bind].
    rewrite add32_1_nat by lia.
    destruct (IH fuel (S j) (F ++ [pe_log (pub_at lm (Z.of_nat (N + j)))]) (set_freelist q lm))
      as (q2 & Heq & Hq2).
    + replace (Z.of_nat (N + S j)) with (Z.of_nat (N + j) + 1) by lia. done.
    + rewrite length_app. cbn. lia.
    + lia.
    + lia.
    + exists q2. rewrite <- Nat.add_succ_r. replace (j + S n)%nat with (S j + n)%nat by lia.
      rewrite Heq. split; [done|]. rewrite <- app_assoc in Hq2. done.
Qed.

Lemma gc_unsubscribed_loop_spec fuel j n F lm :
  q_repr (freelist lm) F (Z.of_nat (N + j)) → (length F + n ≤ N)%nat →
  Z.of_nat (N + j + n) < 2 ^ 32 → (n ≤ fuel)%nat →
  ∃ q m, gc_unsubscribed_loop fuel (Z.of_nat (N + j)) (Z.of_nat (N + (j + n))) lm =
           Some (Z.of_nat (N + (j + m)), set_freelist q lm) ∧
         q_repr q (F ++ slot_logs lm j m) (Z.of_nat (N + (j + m))) ∧ (m ≤ n)%nat ∧
         (∀ p, (j ≤ p < j + m)%nat → pe_idx (pub_at lm (Z.of_nat (N + p))) = Z.of_nat p + 1) ∧
         (m = n ∨ pe_idx (pub_at lm (Z.of_nat (N + (j + m)))) ≠ Z.of_nat (j + m) + 1).
Proof.
  revert fuel j F lm. induction n as [|n IH]; intros fuel j F lm Hq Hlen Hmax Hfuel.
  - exists (freelist lm), 0%nat. rewrite Nat.add_0_r. cbn [slot_logs seq map]. rewrite app_nil_r.
    split; [|split_and!; [done|done|lia|by left]].
    destruct fuel; cbn [gc_unsubscribed_loop]; rewrite Z.eqb_refl; by destruct lm.
  - destruct fuel as [|fuel]; [lia|]. cbn [gc_unsubscribed_loop].
    destruct (Z.eqb_spec (Z.of_nat (N + j)) (Z.of_nat (N + (j + S n)))); [lia|].
    rewrite prev_round_nat, add32_1_nat by lia.
    destruct (Z.eqb_spec (pe_idx (pub_at lm (Z.of_nat (N + j)))) (Z.of_nat (S j))) as [Hi|Hi]; cbn [negb].
    + destruct (q_enqueue_spec (freelist lm) F (Z.of_nat (N + j)) (pe_log (pub_at lm (Z.of_nat (N + j)))) Hq)
        as (q & -> & Hq'); [lia|lia|]. cbn [mbind option_bind].
      rewrite add32_1_nat by lia.
      destruct (IH fuel (S j) (F ++ [pe_log (pub_at lm (Z.of_nat (N + j)))]) (set_freelist q lm))
        as (q2 & m & Heq & Hq2 & Hm & Hp & Hend).
      * replace (Z.of_nat (N + S j)) with (Z.of_nat (N + j) + 1) by lia. done.
      * rewrite length_app. cbn. lia.
      * lia.
      * lia.
      * exists q2, (S m). rewrite <- Nat.add_succ_r.
        replace (j + S n)%nat with (S j + n)%nat by lia. replace (j + S m)%nat with (S j + m)%nat by lia.
        rewrite Heq. rewrite <- app_assoc in Hq2. split_and!; [done|done|lia| |].
        { intros p Hp2. destruct (decide (p = j)) as [->|]; [rewrite Hi; lia|]. apply Hp. lia. }
        destruct Hend as [->|Hend]; [by left|by right].
    + exists (freelist lm), 0%nat. rewrite Nat.add_0_r. cbn [slot_logs seq map]. rewrite app_nil_r.
      split_and!; [by destruct lm|done|lia|intros; lia|right; lia].
Qed.

(** A node whose head limits the collection. *)
Definition subscriber lm nid : Prop :=
  (nid < NODE_COUNT)%nat ∧ nid ≠ lm_node_id lm ∧ is_subscribed lm nid = true.

Lemma gc_scan_spec lm g (h : nat → nat) :
  bound lm = Z.of_nat (N + g) →
  (∀ i, subscriber lm i → head_of lm i = Z.of_nat (h i) ∧ (g ≤ h i)%nat ∧ Z.of_nat (N + h i) < 2 ^ 32) →
  Z.of_nat (N + (N + g)) < 2 ^ 32 →
  ∃ g' b, gc_scan lm = (Z.of_nat (N + g'), b) ∧ (g ≤ g' ≤ N + g)%nat ∧
    (b = true ↔ ∃ i, subscriber lm i) ∧
    (∀ i, subscriber lm i → (g' ≤ h i)%nat) ∧
    (g' = (N + g)%nat ∨ ∃ i, subscriber lm i ∧ g' = h i).
Proof.
  intros Hb Hh Hmax. unfold gc_scan. rewrite Hb, next_round_nat by lia.
  set (f := λ '(new_b, subscribed) i, _).
  assert (∀ l g0 b0, (g ≤ g0)%nat → (∀ i, i ∈ l → (i < NODE_COUNT)%nat) →
    ∃ g' b, foldl f (Z.of_nat (N + g0), b0) l = (Z.of_nat (N + g'), b) ∧ (g ≤ g' ≤ g0)%nat ∧
      (b = true ↔ b0 = true ∨ ∃ i, i ∈ l ∧ subscriber lm i) ∧
      (∀ i, i ∈ l → subscriber lm i → (g' ≤ h i)%nat) ∧
      (g' = g0 ∨ ∃ i, subscriber lm i ∧ g' = h i)) as Hfold.
  { intros l. induction l as [|i l IH]; intros g0 b0 Hg0 Hl.
    - exists g0, b0. cbn. split_and!; try done; [naive_solver set_solver|set_solver|by left].
    - assert (∀ i, i ∈ l → (i < NODE_COUNT)%nat) as Hl' by set_solver.
      assert (i < NODE_COUNT)%nat as Hi by set_solver.
      cbn [foldl]. unfold f at 2. destruct (decide (subscriber lm i)) as [Hs|Hs].
      + destruct (Hh i Hs) as (Hhi & Hgi & Hmi). destruct Hs as (_ & Hne & Hsub).
        rewrite (proj2 (Nat.eqb_neq i _)), Hsub, Hhi, next_round_nat by done. cbn [negb].
        assert ((if (Z.of_nat (N + h i) <? Z.of_nat (N + g0)) && (Z.of_nat (N + g) <=? Z.of_nat (N + h i))
                 then Z.of_nat (N + h i) else Z.of_nat (N + g0)) = Z.of_nat (N + Nat.min g0 (h i))) as ->
          by (split_ltb).
        destruct (IH (Nat.min g0 (h i)) true) as (g' & b & -> & Hr & Hbb & Hle & Hc); [lia|done|].
        exists g', b. split_and!; [done|lia|lia| | |].
        * rewrite Hbb. split; [|naive_solver]. intros _. right. exists i. split; [by left|done].
        * intros k [->|Hk]%elem_of_cons Hsk; [lia|by apply Hle].
        * destruct Hc as [->|?]; [|by right]. destruct (Nat.min_spec g0 (h i)) as [[? ->]|[? ->]]; [by left|].
          right. exists i. done.
      + match goal with |- context [foldl f ?x l] => assert (x = (Z.of_nat (N + g0), b0)) as -> end.
        { destruct (Nat.eqb_spec i (lm_node_id lm)); [done|].
          destruct (is_subscribed lm i) eqn:E; [|done]. by destruct Hs. }
        destruct (IH g0 b0) as (g' & b & -> & Hr & Hbb & Hle & Hc); [lia|done|].
        exists g', b. split_and!; [done|lia|lia| | |done].
        * rewrite Hbb. set_solver.
        * intros k [->|Hk]%elem_of_cons Hsk; [done|by apply Hle]. }
  destruct (Hfold (seq 0 NODE_COUNT) (N + g)%nat false) as (g' & b & -> & Hr & Hbb & Hle & Hc);
    [lia|intros i; rewrite elem_of_seq; lia|].
  assert (∀ i, subscriber lm i → i ∈ seq 0 NODE_COUNT) as Hin
    by (intros i (? & _); rewrite elem_of_seq; lia).
  exists g', b. split_and!; [done|lia|lia| | |done].
  - rewrite Hbb. split; [naive_solver|]. intros (i & Hi). right. eauto.
  - eauto.
Qed.
End gc.

(** ** Lemmas: the invariant *)

Section invariant.
Context `{cfg : Config} {ok : ConfigOk cfg} {Q : Type} `{FQ : !FifoQueue Q nat LOG_COUNT}.
Abbreviation N := LOG_COUNT.
Implicit Types (lm : LogManager Q) (s : sys Q) (F : list nat) (g : nat).

Lemma fill_freelist_spec n logs q F :
  q_repr q F (Z.of_nat n) → (length F + length logs ≤ N)%nat → Z.of_nat (n + length logs) < 2 ^ 32 →
  ∃ q', fill_freelist logs q = Some q' ∧ q_repr q' (F ++ logs) (Z.of_nat (n + length logs)).
Proof.
  revert n q F. induction logs as [|log logs IH]; intros n q F Hq Hlen Hmax; cbn [fill_freelist length] in *.
  - exists q. by rewrite app_nil_r, Nat.add_0_r.
  - destruct (q_enqueue_spec q F (Z.of_nat n) log Hq) as (q1 & -> & Hq1); [lia|lia|].
    cbn [mbind option_bind]. destruct (IH (S n) q1 (F ++ [log])) as (q2 & -> & Hq2).
    + by rewrite Nat2Z.inj_succ, <- Z.add_1_r.
    + rewrite length_app. cbn. lia.
    + lia.
    + exists q2. rewrite <- app_assoc in Hq2. by rewrite Nat.add_succ_r.
Qed.

Lemma log_init_entries : log_entries log_init = [].
Proof. done. Qed.

Lemma inv_initial nid s : initial nid s → inv s 0 (seq 0 N) ∧ lm_node_id (lm_of s) = nid.
Proof.
  pose proof log_count_range. intros (lm & Hnew & ->). unfold log_manager_new in Hnew.
  destruct (fill_freelist_spec 0 (seq 0 N) q_new []) as (q & Hq & Hr);
    [apply q_new_spec|rewrite length_seq; cbn; lia|rewrite length_seq; lia|].
  rewrite Hq in Hnew. cbn [mbind option_bind] in Hnew. injection Hnew as <-.
  rewrite length_seq in Hr. cbn [app] in Hr. split; [|done].
  constructor; cbn [lm_of held hist buf pub lm_tail subs freelist bound lm_node_id length drop map].
  - by rewrite length_replicate.
  - apply Forall_replicate. cbn. rewrite length_replicate. lia.
  - by rewrite length_map, length_seq.
  - by rewrite length_replicate.
  - rewrite (next_round_nat 0) by lia. lia.
  - done.
  - by rewrite Nat.add_0_r.
  - by rewrite app_nil_r.
  - lia.
  - lia.
  - intros i Hi _ _. exists 0%nat. unfold head_of, sub_at. cbn. rewrite lookup_replicate_2 by done.
    split_and!; [done|lia|lia|]. intros p Hp. lia.
  - intros p r d _ Hp. by rewrite lookup_nil in Hp.
  - intros j e He. left. rewrite list_lookup_fmap, fmap_Some in He. by destruct He as (? & _ & ->).
Qed.

Lemma initial_exists nid : ∃ s, initial nid s.
Proof.
  pose proof log_count_range.
  destruct (fill_freelist_spec 0 (seq 0 N) q_new []) as (q & Hq & Hr);
    [apply q_new_spec|rewrite length_seq; cbn; lia|rewrite length_seq; lia|].
  eexists. eexists. split; [|done]. unfold log_manager_new. by rewrite Hq.
Qed.

Section with_inv.
Context {s : sys Q} {g : nat} {F : list nat} (I : inv s g F).

Lemma inv_counts : (length F + length (held s) + (length (hist s) - g) = N)%nat.
Proof.
  pose proof (Permutation_length (inv_perm s g F I)) as Hl.
  rewrite !length_app, length_map, length_drop, length_seq in Hl. lia.
Qed.

Lemma inv_nodup : NoDup (F ++ held s ++ map pr_log (drop g (hist s))).
Proof. rewrite (inv_perm s g F I). apply NoDup_seq. Qed.

Lemma inv_log_lt log : log ∈ F ++ held s ++ map pr_log (drop g (hist s)) → (log < N)%nat.
Proof. rewrite (inv_perm s g F I), elem_of_seq. lia. Qed.

(** The log of a position that is not reclaimed. *)
Lemma inv_outstanding p r : (g ≤ p)%nat → hist s !! p = Some r → pr_log r ∈ map pr_log (drop g (hist s)).
Proof.
  intros Hp Hr. rewrite list_elem_of_fmap. exists r. split; [done|].
  apply list_elem_of_lookup. exists (p - g)%nat. rewrite lookup_drop. by replace (g + (p - g))%nat with p by lia.
Qed.

Lemma inv_window p r : hist s !! p = Some r → (p < g + N)%nat.
Proof. intros Hr%lookup_lt_Some. pose proof inv_counts. lia. Qed.

Lemma published_dec p : published s p ∨ ¬ published s p.
Proof.
  unfold published. destruct (hist s !! p) as [r|]; [|naive_solver].
  destruct (pr_data r) eqn:E; [left; exists r; split; [done|congruence]|]. right. intros (r' & [= <-] & ?). done.
Qed.

Lemma published_lt p : published s p → (p < length (hist s))%nat.
Proof. intros (r & Hr & _). by eapply lookup_lt_Some. Qed.

(** The ring slot of a position, and what its sequence number tells. *)
Lemma pub_at_pos p lm : lm = lm_of s → ∃ e, pub lm !! (p mod N)%nat = Some e.
Proof.
  intros ->. apply lookup_lt_is_Some. rewrite (inv_pub_len s g F I). apply slot_lt_count.
Qed.

Lemma idx_published p : pe_idx (pub_at (lm_of s) (Z.of_nat p)) = Z.of_nat p + 1 → published s p.
Proof.
  unfold pub_at. rewrite get_idx_nat. destruct (pub_at_pos p _ eq_refl) as [e He]. rewrite He. cbn.
  destruct (inv_idx s g F I _ _ He) as [->|(p' & -> & Hp)]; [lia|]. intros ?. by replace p with p' by lia.
Qed.

Lemma published_idx p :
  (g ≤ p)%nat → published s p →
  ∃ r d, hist s !! p = Some r ∧ pr_data r = Some d ∧
    pub_at (lm_of s) (Z.of_nat p) = mkPub (pr_log r) (Z.of_nat p + 1) (pr_rel r) ∧
    log_entries (log_at (lm_of s) (pr_log r)) = d.
Proof.
  intros Hg (r & Hr & Hd). destruct (pr_data r) as [d|] eqn:E; [|done].
  destruct (inv_ring s g F I p r d Hg Hr E) as [Hp He]. exists r, d. split_and!; [done..| |done].
  unfold pub_at. by rewrite get_idx_nat, Hp.
Qed.

Lemma pub_at_round lm p : pub_at lm (Z.of_nat (N + p)) = pub_at lm (Z.of_nat p).
Proof. unfold pub_at. by rewrite get_idx_round, get_idx_nat. Qed.

(** The logs that a collection up to [g'] frees. *)
Lemma slot_logs_spec g' :
  (g ≤ g' ≤ length (hist s))%nat → (∀ p, (g ≤ p < g')%nat → published s p) →
  slot_logs (lm_of s) g (g' - g) = map pr_log (take (g' - g) (drop g (hist s))).
Proof.
  intros Hg Hp. apply list_eq_same_length with (g' - g)%nat.
  - rewrite length_map, length_take, length_drop. lia.
  - unfold slot_logs. by rewrite length_map, length_seq.
  - intros i x y Hi Hx Hy. unfold slot_logs in Hx.
    rewrite list_lookup_fmap, lookup_seq_lt in Hx by done. cbn in Hx. injection Hx as <-.
    rewrite list_lookup_fmap, lookup_take_lt, lookup_drop in Hy by done.
    destruct (published_idx (g + i)) as (r & d & Hr & _ & He & _); [lia|apply Hp; lia|].
    rewrite Hr in Hy. cbn in Hy. injection Hy as <-. by rewrite pub_at_round, He.
Qed.

(** What keeps a collection from freeing anything: a subscriber at the oldest
    position, or, without subscribers, that position not being published. *)
Definition gc_stuck (s : sys Q) (g : nat) : Prop :=
  (∃ i, subscriber (lm_of s) i ∧ head_of (lm_of s) i = Z.of_nat g) ∨
  ((∀ i, ¬ subscriber (lm_of s) i) ∧ ¬ published s g).

Lemma subscriber_head (i : nat) :
  subscriber (lm_of s) i →
  ∃ h : nat, head_of (lm_of s) i = Z.of_nat h ∧ (g ≤ h ≤ length (hist s))%nat ∧ ∀ p, (p < h)%nat → published s p.
Proof. intros (? & ? & ?). by apply (inv_heads s g F I). Qed.

Lemma perform_gc_spec :
  F = [] → no_wrap s →
  ∃ g' q, perform_gc (lm_of s) = Some (set_bound (Z.of_nat (N + g')) (set_freelist q (lm_of s))) ∧
    (g ≤ g' ≤ length (hist s))%nat ∧
    q_repr q (map pr_log (take (g' - g) (drop g (hist s)))) (Z.of_nat (N + g')) ∧
    (∀ p, (p < g')%nat → published s p) ∧
    (∀ i, subscriber (lm_of s) i → Z.of_nat g' ≤ head_of (lm_of s) i) ∧
    (g' = g → gc_stuck s g).
Proof.
  intros HF Hnw. unfold no_wrap in Hnw. pose proof log_count_range as HN.
  pose proof (inv_gc_le s g F I) as Hgl.
  destruct (gc_scan_spec (lm_of s) g (λ i, Z.to_nat (head_of (lm_of s) i))) as (g1 & b & Hscan & Hr & Hb & Hle & Hc).
  { apply (inv_bound s g F I). }
  { intros i Hi. destruct (subscriber_head i Hi) as (h & -> & Hh & _). rewrite Nat2Z.id. lia. }
  { lia. }
  unfold perform_gc. rewrite Hscan, (inv_bound s g F I).
  destruct (Z.ltb_spec (Z.of_nat (N + g1)) (Z.of_nat (N + g))); [lia|]. clear Hscan.
  pose proof (inv_free s g F I) as Hfree.
  destruct b.
  - destruct (proj1 Hb eq_refl) as [i0 Hi0].
    assert (g1 ≤ length (hist s))%nat as Hg1.
    { pose proof (Hle i0 Hi0) as Hl. destruct (subscriber_head i0 Hi0) as (h & Hh & ? & _).
      rewrite Hh, Nat2Z.id in Hl. lia. }
    assert (∀ p, (p < g1)%nat → published s p) as Hpub.
    { intros p Hp. pose proof (Hle i0 Hi0) as Hl. destruct (subscriber_head i0 Hi0) as (h & Hh & _ & Hph).
      rewrite Hh, Nat2Z.id in Hl. apply Hph. lia. }
    destruct (gc_free_loop_spec N g (g1 - g) F (lm_of s)) as (q & Heq & Hq); [done|subst; cbn; lia|lia|lia|].
    replace (g + (g1 - g))%nat with g1 in * by lia. rewrite Heq. cbn [fmap option_fmap option_map].
    exists g1, q. split; [done|]. rewrite (slot_logs_spec g1) in Hq by (lia || (intros; apply Hpub; lia)).
    rewrite HF in Hq. split_and!; [lia|lia|done|done| |].
    + intros i Hi. pose proof (Hle i Hi) as Hl. destruct (subscriber_head i Hi) as (h & Hh & _).
      rewrite Hh, Nat2Z.id in Hl. lia.
    + intros ->. left. destruct Hc as [Hc|(i & Hi & Hc)]; [lia|]. exists i. split; [done|].
      destruct (subscriber_head i Hi) as (h & Hh & _). rewrite Hh, Nat2Z.id in Hc. lia.
  - assert (∀ i, ¬ subscriber (lm_of s) i) as Hno by (intros i Hi; discriminate (proj2 Hb); eauto).
    destruct Hc as [->|(i & Hi & _)]; [|by destruct (Hno i)].
    destruct (gc_unsubscribed_loop_spec N g N F (lm_of s)) as (q & m & Heq & Hq & Hm & Hp & Hend);
      [done|subst; cbn; lia|lia|lia|].
    replace (N + (N + g))%nat with (N + (g + N))%nat by lia. rewrite Heq. cbn [mbind option_bind].
    assert (∀ p, (g ≤ p < g + m)%nat → published s p) as Hpub.
    { intros p Hpr. apply idx_published. rewrite <- pub_at_round. apply Hp. lia. }
    assert (∀ p, (p < g + m)%nat → published s p) as Hpub'.
    { intros p Hpr. destruct (decide (p < g)%nat); [by apply (inv_gc_pub s g F I)|apply Hpub; lia]. }
    assert (g + m ≤ length (hist s))%nat.
    { destruct m as [|m]; [lia|]. pose proof (published_lt (g + m) (Hpub' (g + m)%nat ltac:(lia))). lia. }
    exists (g + m)%nat, q. split; [done|].
    pose proof (slot_logs_spec (g + m) ltac:(lia) Hpub) as Hslots.
    replace (g + m - g)%nat with m in * by lia. rewrite Hslots, HF in Hq.
    split_and!; [lia|lia|done|done|naive_solver|].
    intros Hm0. assert (m = 0)%nat as -> by lia. right. split; [done|]. rewrite Nat.add_0_r in Hend.
    intros Hg. destruct Hend as [?|Hend]; [lia|]. apply Hend. rewrite pub_at_round.
    destruct (published_idx g) as (r & d & _ & _ & -> & _); done.
Qed.
End with_inv.

(** ** Lemmas: every step keeps the invariant *)

Ltac inv_fields := constructor; cbn [lm_of held hist buf pub lm_tail subs freelist bound lm_node_id
  set_freelist set_bound set_tail set_pub set_subs set_buf set_sub take_log reserve_tail publish
  consume_head remove_subscriber fst snd].

Lemma inv_freelist s g F q lm hd h :
  s = mkSys lm hd h → inv s g F → q_repr q F (Z.of_nat (N + g)) → inv (mkSys (set_freelist q lm) hd h) g F.
Proof. intros -> [] Hq. inv_fields; try done. Qed.

Lemma inv_gc s lm hd h g g' q :
  s = mkSys lm hd h → inv s g [] → (g ≤ g' ≤ length h)%nat →
  q_repr q (map pr_log (take (g' - g) (drop g h))) (Z.of_nat (N + g')) →
  (∀ p, (p < g')%nat → published s p) →
  (∀ i, subscriber lm i → Z.of_nat g' ≤ head_of lm i) →
  inv (mkSys (set_bound (Z.of_nat (N + g')) (set_freelist q lm)) hd h) g'
      (map pr_log (take (g' - g) (drop g h))).
Proof.
  intros -> [] Hg Hq Hpub Hheads. inv_fields; try done.
  - rewrite <- inv_perm0. cbn [app hist held]. rewrite Permutation_app_swap_app. f_equiv.
    rewrite <- map_app. f_equiv. rewrite <- (take_drop (g' - g) (drop g h)) at 2. f_equiv.
    rewrite drop_drop. by replace (g + (g' - g))%nat with g' by lia.
  - lia.
  - intros i Hi Hne Hsub. destruct (inv_heads0 i Hi Hne Hsub) as (k & Hk & Hr & Hpk).
    exists k. split_and!; [done| |apply Hr|done].
    specialize (Hheads i ltac:(done)). cbn in Hk. rewrite Hk in Hheads. lia.
  - intros p r d Hp. apply inv_ring0. lia.
Qed.

Lemma log_at_alter lm f log l : log ≠ l → log_at (set_buf (alter f log (buf lm)) lm) l = log_at lm l.
Proof. intros. unfold log_at. cbn. by rewrite list_lookup_alter_ne. Qed.
Lemma log_at_insert lm x log l : log ≠ l → log_at (set_buf (<[log := x]> (buf lm)) lm) l = log_at lm l.
Proof. intros. unfold log_at. cbn. by rewrite list_lookup_insert_ne. Qed.

Lemma inv_take s lm hd h g F q log :
  s = mkSys lm hd h → inv s g (log :: F) → q_repr q F (Z.of_nat (N + g)) →
  inv (mkSys (take_log log (set_freelist q lm)) (log :: hd) h) g F.
Proof.
  intros -> I Hq. pose proof (inv_nodup I) as Hnd. destruct I. inv_fields; try done.
  - by rewrite length_alter.
  - apply Forall_alter; [done|]. intros l Hl [??]. cbn. lia.
  - rewrite <- inv_perm0. cbn [app held hist]. by rewrite <- Permutation_middle.
  - intros p r d Hp Hr Hd. destruct (inv_ring0 p r d Hp Hr Hd) as [? Hlog]. split; [done|].
    unfold take_log. rewrite log_at_alter; [done|]. intros ->.
    apply NoDup_cons in Hnd as [Hnd _]. apply Hnd. cbn [held hist].
    rewrite elem_of_app. right. rewrite elem_of_app. right. rewrite list_elem_of_fmap. exists r. split; [done|].
    apply list_elem_of_lookup. exists (p - g)%nat. rewrite lookup_drop. cbn in Hr.
    by replace (g + (p - g))%nat with p by lia.
Qed.

Lemma inv_free_bound g (h : list pub_rec) :
  (g ≤ length h)%nat → Z.of_nat (length h) + 2 * Z.of_nat N < 2 ^ 32 → Z.of_nat (N + g) < 2 ^ 62.
Proof. lia. Qed.

(** The three outcomes of [get_new_log]. *)
Lemma get_new_log_spec s g F :
  inv s g F → no_wrap s →
  ∃ r lm', get_new_log (lm_of s) = Some (r, lm') ∧ subs lm' = subs (lm_of s) ∧
    lm_node_id lm' = lm_node_id (lm_of s) ∧
    match r with
    | Some log => ∃ g' F', (g ≤ g')%nat ∧ (F ≠ [] ∨ (g < g')%nat) ∧
                          inv (mkSys lm' (log :: held s) (hist s)) g' F'
    | None => F = [] ∧ gc_stuck s g ∧ inv (mkSys lm' (held s) (hist s)) g []
    end.
Proof.
  destruct s as [lm hd h]. intros I Hnw. pose proof (inv_gc_le _ _ _ I) as Hgl. cbn [hist] in Hgl.
  pose proof (inv_free_bound g h Hgl Hnw) as Hmax. unfold get_new_log. cbn [lm_of held hist].
  pose proof (inv_free _ _ _ I) as Hq. cbn [lm_of] in Hq.
  destruct F as [|log F].
  - rewrite (q_dequeue_empty _ _ Hq Hmax). cbn [mbind option_bind set_freelist freelist].
    rewrite (q_dequeue_empty _ _ Hq Hmax). cbn [mbind option_bind].
    assert (set_freelist (freelist lm) (set_freelist (freelist lm) lm) = lm) as -> by by destruct lm.
    destruct (perform_gc_spec I eq_refl Hnw) as (g' & q & Hgc & Hg & Hq' & Hpub & Hheads & Hstuck).
    cbn [lm_of] in Hgc. rewrite Hgc. cbn [mbind option_bind]. clear Hgc. cbn [set_bound set_freelist freelist].
    pose proof (inv_gc _ lm hd h g g' q eq_refl I Hg Hq' Hpub Hheads) as I'.
    pose proof (inv_free_bound g' h (proj2 Hg) Hnw) as Hmax'. cbn [hist] in *.
    destruct (map pr_log (take (g' - g) (drop g h))) as [|log F] eqn:E.
    + rewrite (q_dequeue_empty _ _ Hq' Hmax'). cbn [mbind option_bind].
      eexists None, _. split; [done|]. split; [done|]. split; [done|].
      apply (f_equal length) in E. rewrite length_map, length_take, length_drop in E. cbn in E.
      assert (g' = g) as -> by lia. split_and!; [done|by apply Hstuck|]. by eapply inv_freelist.
    + destruct (q_dequeue_spec _ _ _ _ Hq' Hmax') as (q2 & -> & Hq2). cbn [mbind option_bind].
      eexists (Some log), _. split; [done|]. split; [done|]. split; [done|]. exists g', F. split; [lia|].
      split; [right; destruct (decide (g' = g)) as [->|]; [|lia]; by rewrite Nat.sub_diag in E|].
      apply (inv_take _ _ _ _ _ _ q2 log eq_refl I' Hq2).
  - destruct (q_dequeue_spec _ _ _ _ Hq Hmax) as (q2 & -> & Hq2). cbn [mbind option_bind].
    eexists (Some log), _. split; [done|]. split; [done|]. split; [done|]. exists g, F. split; [lia|].
    split; [by left|]. by eapply inv_take.
Qed.

Lemma inv_log_at s g F log : inv s g F → (log < N)%nat →
  length (entries (log_at (lm_of s) log)) = LOG_SIZE ∧ (log_size (log_at (lm_of s) log) ≤ LOG_SIZE)%nat.
Proof.
  intros I Hlog. unfold log_at. destruct (lookup_lt_is_Some_2 (buf (lm_of s)) log) as [l Hl].
  { by rewrite (inv_buf s g F I). }
  rewrite Hl. cbn. by apply (Forall_lookup_1 _ _ _ _ (inv_logs s g F I) Hl).
Qed.

Lemma inv_write lm hd h g F log cl l :
  inv (mkSys lm hd h) g F → log ∈ hd → log_write cl (log_at lm log) = Some l →
  inv (mkSys (set_buf (<[log := l]> (buf lm)) lm) hd h) g F.
Proof.
  intros I Hin Hw. pose proof (inv_nodup I) as Hnd.
  assert (log < N)%nat as Hlt by (apply (inv_log_lt I); set_solver).
  destruct (inv_log_at _ _ _ _ I Hlt) as [Hlen Hsz]. cbn [lm_of] in *.
  unfold log_write in Hw. destruct (Nat.ltb_spec (log_size (log_at lm log)) LOG_SIZE); [|done].
  injection Hw as <-.
  assert (∀ p r, (g ≤ p)%nat → h !! p = Some r → log ≠ pr_log r) as Hne.
  { intros p r Hp Hr ->. apply NoDup_app in Hnd as (_ & _ & Hnd). apply NoDup_app in Hnd as (_ & Hnd & _).
    eapply Hnd; [done|]. by eapply inv_outstanding. }
  destruct I. inv_fields; try done.
  - by rewrite length_insert.
  - apply Forall_insert; [done|]. cbn. rewrite length_insert. split; [done|lia].
  - intros p r d Hp Hr Hd. destruct (inv_ring0 p r d Hp Hr Hd) as [? Hlog]. split; [done|].
    rewrite log_at_insert; [done|by eapply Hne].
Qed.

Lemma published_app lm lm' hd hd' h r p :
  published (mkSys lm hd h) p → published (mkSys lm' hd' (h ++ [r])) p.
Proof. intros (x & Hx & Hd). exists x. cbn in *. split; [by apply lookup_app_l_Some|done]. Qed.

Lemma inv_reserve lm hd log hd' h r g F :
  inv (mkSys lm hd h) g F → hd ≡ₚ log :: hd' → no_wrap (mkSys lm [] (h ++ [mkRec log r None])) →
  inv (mkSys (reserve_tail lm).2 hd' (h ++ [mkRec log r None])) g F.
Proof.
  intros I Hhd Hnw. unfold no_wrap in Hnw. cbn [hist] in Hnw. rewrite length_app in Hnw. cbn in Hnw.
  destruct I. cbn [lm_of held hist] in *.
  assert (∀ p x d, (h ++ [mkRec log r None]) !! p = Some x → pr_data x = Some d → h !! p = Some x) as Hold.
  { intros p x d Hx Hd. apply lookup_app_Some in Hx as [?|[? Hx]]; [done|].
    apply list_lookup_singleton_Some in Hx as [_ <-]. done. }
  inv_fields; rewrite ?length_app; try done.
  - rewrite inv_tail0, add32_1_nat by lia. cbn [length]. lia.
  - rewrite drop_app_le, map_app by done. rewrite <- inv_perm0, Hhd. cbn [map pr_log]. solve_Permutation.
  - lia.
  - intros p Hp. eapply published_app. by apply inv_gc_pub0.
  - intros i Hi Hne Hsub. destruct (inv_heads0 i Hi Hne Hsub) as (k & Hk & Hr & Hp).
    exists k. split_and!; [done|lia|lia|]. intros p Hpk. eapply published_app. by apply Hp.
  - intros p x d Hp Hx Hd. apply inv_ring0; [done|by eapply Hold|done].
  - intros j e He. destruct (inv_idx0 j e He) as [?|(p & ? & ?)]; [by left|right].
    exists p. split; [done|]. by eapply published_app.
Qed.

Lemma published_insert lm lm' hd h p r d p' :
  published (mkSys lm hd h) p' ∨ p' = p → (p < length h)%nat →
  published (mkSys lm' hd (<[p := mkRec (pr_log r) (pr_rel r) (Some d)]> h)) p'.
Proof.
  intros Hp Hlt. unfold published. cbn [hist]. destruct (decide (p' = p)) as [->|Hne].
  - eexists. by rewrite list_lookup_insert_eq.
  - destruct Hp as [(x & Hx & Hd)|]; [|done]. exists x. by rewrite list_lookup_insert_ne.
Qed.

Lemma inv_publish lm hd h p log r g F :
  inv (mkSys lm hd h) g F → h !! p = Some (mkRec log r None) → no_wrap (mkSys lm hd h) →
  inv (mkSys (publish (Z.of_nat p) log r lm).2 hd
        (<[p := mkRec log r (Some (log_entries (log_at lm log)))]> h)) g F.
Proof.
  intros I Hp Hnw. unfold no_wrap in Hnw. cbn [hist] in Hnw. pose proof (lookup_lt_Some _ _ _ Hp) as Hlt.
  assert (g ≤ p)%nat as Hgp.
  { destruct (decide (g ≤ p)%nat); [done|]. destruct (inv_gc_pub _ _ _ I p) as (x & Hx & Hd); [lia|].
    cbn in Hx. rewrite Hp in Hx. by injection Hx as <-. }
  assert (∀ p' x, h !! p' = Some x → (p' < g + N)%nat) as Hwin by (intros; by eapply (inv_window I)).
  pose proof (Hwin p _ Hp) as Hpw.
  assert (∀ p', published (mkSys lm hd h) p' →
    published (mkSys (publish (Z.of_nat p) log r lm).2 hd
      (<[p := mkRec log r (Some (log_entries (log_at lm log)))]> h)) p') as Hmono.
  { intros p' Hp'. apply (published_insert lm _ hd h p (mkRec log r None)); [by left|done]. }
  destruct I. cbn [lm_of held hist] in *.
  inv_fields; rewrite ?length_insert; try done.
  - rewrite <- inv_perm0. match goal with |- _ ++ _ ++ ?a ≡ₚ _ ++ _ ++ ?b => enough (a = b) as -> by done end.
    apply list_eq. intros i. rewrite !list_lookup_fmap, !lookup_drop.
    destruct (decide (p = g + i)%nat) as [<-|]; [|by rewrite list_lookup_insert_ne].
    by rewrite list_lookup_insert_eq, Hp.
  - intros p' Hp'. by apply Hmono, inv_gc_pub0.
  - intros i Hi Hne Hsub. destruct (inv_heads0 i Hi Hne Hsub) as (k & Hk & Hr & Hpk).
    exists k. split_and!; [done|lia|lia|]. intros p' Hp'. by apply Hmono, Hpk.
  - intros p' x d Hgp' Hx Hd. rewrite get_idx_nat, add32_1_nat by lia.
    destruct (decide (p' = p)) as [->|Hne].
    + rewrite list_lookup_insert_eq in Hx by done. injection Hx as <-. cbn in *. injection Hd as <-.
      rewrite list_lookup_insert_eq by (rewrite inv_pub_len0; apply slot_lt_count). split; [|done].
      do 2 f_equal. lia.
    + rewrite list_lookup_insert_ne in Hx by done. rewrite list_lookup_insert_ne; [by apply inv_ring0|].
      pose proof (Hwin p' _ Hx). intros Heq. apply Hne. symmetry. apply slot_inj; [done|lia|lia].
  - intros j e He. destruct (decide (j = get_idx (Z.of_nat p))) as [->|Hne].
    + rewrite list_lookup_insert_eq in He by (rewrite inv_pub_len0, get_idx_nat; apply slot_lt_count).
      injection He as <-. right. exists p. cbn [pe_idx]. rewrite add32_1_nat by lia. split; [lia|].
      apply (published_insert lm _ hd h p (mkRec log r None)); [by right|done].
    + rewrite list_lookup_insert_ne in He by done.
      destruct (inv_idx0 j e He) as [?|(p' & ? & ?)]; [by left|right]. exists p'. split; [done|]. by apply Hmono.
Qed.

Lemma sub_at_set nid x lm i :
  (nid < length (subs lm))%nat → sub_at (set_sub nid x lm) i = if decide (nid = i) then x else sub_at lm i.
Proof.
  intros. unfold sub_at, set_sub. cbn. case_decide; subst.
  - by rewrite list_lookup_insert_eq.
  - by rewrite list_lookup_insert_ne.
Qed.

(** The entry of one consumer changes; a live one is in the window. *)
Lemma inv_set_sub lm hd h g F nid x :
  inv (mkSys lm hd h) g F → (nid < NODE_COUNT)%nat →
  (sub_is_subbed x = true → ∃ k : nat, sub_head x = Z.of_nat k ∧ (g ≤ k ≤ length h)%nat ∧
     ∀ p, (p < k)%nat → published (mkSys lm hd h) p) →
  inv (mkSys (set_sub nid x lm) hd h) g F.
Proof.
  intros I Hn Hx. assert (nid < length (subs lm))%nat as Hlt by (pose proof (inv_subs_len _ _ _ I) as Hs; cbn in Hs; lia).
  destruct I. cbn [lm_of held hist] in *. inv_fields; try done.
  - by rewrite length_insert.
  - intros i Hi Hne. unfold is_subscribed, head_of. change (set_subs _ lm) with (set_sub nid x lm).
    rewrite sub_at_set by done. case_decide; [done|]. by apply inv_heads0.
Qed.

Lemma set_sub_out nid x lm : (length (subs lm) ≤ nid)%nat → set_sub nid x lm = lm.
Proof. intros. unfold set_sub, set_subs. rewrite list_insert_ge by done. by destruct lm. Qed.

Lemma take_head_published lm hd h g F nid e :
  inv (mkSys lm hd h) g F → no_wrap (mkSys lm hd h) → subscriber lm nid → take_head nid lm = Some e →
  ∃ k : nat, head_of lm nid = Z.of_nat k ∧ (g ≤ k < length h)%nat ∧ published (mkSys lm hd h) k ∧
             e = pub_at lm (Z.of_nat k).
Proof.
  intros I Hnw Hs Ht. destruct (subscriber_head I nid Hs) as (k & Hk & Hr & Hpk). cbn [lm_of hist] in *.
  unfold no_wrap in Hnw. cbn [hist] in Hnw. pose proof log_count_range.
  unfold take_head in Ht. rewrite Hk, add32_1_nat in Ht by lia.
  destruct (Z.eqb_spec (pe_idx (pub_at lm (Z.of_nat k))) (Z.of_nat (S k))) as [E|]; [|done].
  cbn in Ht. injection Ht as <-. assert (published (mkSys lm hd h) k) as Hpub.
  { apply (idx_published I). cbn [lm_of]. rewrite E. lia. }
  pose proof (published_lt _ Hpub) as Hlt. cbn in Hlt. exists k. split_and!; [done|lia|lia|done|done].
Qed.

Lemma step_length s s' : step s s' → (length (hist s) ≤ length (hist s'))%nat.
Proof. intros []; cbn [hist]; rewrite ?length_app, ?length_insert; lia. Qed.

Lemma no_wrap_mono s s' : step s s' → no_wrap s' → no_wrap s.
Proof. intros Hlen%step_length. unfold no_wrap. lia. Qed.

Lemma step_inv s s' g F :
  inv s g F → step s s' → no_wrap s' →
  ∃ g' F', (g ≤ g')%nat ∧ inv s' g' F' ∧ lm_node_id (lm_of s') = lm_node_id (lm_of s).
Proof.
  intros I Hstep Hnw'. pose proof (no_wrap_mono _ _ Hstep Hnw') as Hnw.
  destruct Hstep as [lm hd h log lm' Hget|lm hd h lm' Hget|lm hd h log cl l Hin Hw|lm hd log hd' h r Hhd
    |lm hd h p log r Hp|lm hd h nid e Hn Hne Hsub Ht|lm hd h nid|fuel lm hd h nid t lm' Hn Hall Hadd].
  - destruct (get_new_log_spec _ _ _ I Hnw) as (r & lm2 & Heq & _ & Hid & Hr). cbn [lm_of] in *.
    rewrite Hget in Heq. injection Heq as <- <-. destruct Hr as (g' & F' & Hg & _ & I'). by exists g', F'.
  - destruct (get_new_log_spec _ _ _ I Hnw) as (r & lm2 & Heq & _ & Hid & Hr). cbn [lm_of] in *.
    rewrite Hget in Heq. injection Heq as <- <-. destruct Hr as (_ & _ & I'). by exists g, [].
  - exists g, F. split; [lia|]. split; [by eapply inv_write|done].
  - exists g, F. split; [lia|]. split; [by eapply inv_reserve|done].
  - exists g, F. split; [lia|]. split; [by apply inv_publish|done].
  - exists g, F. split; [lia|]. split; [|done]. destruct (take_head_published _ _ _ _ _ _ _ I Hnw ltac:(done) Ht)
      as (k & Hk & Hr & Hpub & _).
    apply inv_set_sub; [done..|]. cbn [sub_is_subbed sub_head]. intros _. exists (S k).
    unfold no_wrap in Hnw. cbn [hist] in Hnw. rewrite Hk, add32_1_nat by lia. split_and!; [done|lia|lia|].
    destruct (subscriber_head I nid ltac:(done)) as (k' & Hk' & _ & Hpk). cbn [lm_of] in Hk'.
    intros p Hpl. destruct (decide (p = k)) as [->|]; [done|]. apply Hpk. lia.
  - exists g, F. split; [lia|]. split; [|done]. unfold remove_subscriber.
    destruct (decide (nid < NODE_COUNT)%nat); [by apply inv_set_sub|].
    rewrite set_sub_out; [done|]. pose proof (inv_subs_len _ _ _ I) as Hs. cbn in Hs. lia.
  - exists g, F. split; [lia|]. unfold add_subscriber in Hadd.
    destruct (is_subscribed lm nid); [done|]. pose proof (inv_tail _ _ _ I) as Htl.
    unfold no_wrap in Hnw. cbn [lm_of hist] in *.
    assert (lm' = set_sub nid (mkSub (lm_tail lm) true) lm) as ->.
    { destruct fuel; cbn [add_subscriber_loop] in Hadd; cbn [lm_tail set_sub set_subs] in Hadd;
        rewrite Htl, next_round_nat in Hadd by lia;
        destruct (Z.ltb_spec (Z.of_nat (N + length h)) (Z.of_nat (length h))); try lia; rewrite Htl; by injection Hadd. }
    split; [|done]. apply inv_set_sub; [done..|]. cbn [sub_head]. intros _. exists (length h).
    split_and!; [done|apply (inv_gc_le _ _ _ I)|lia|]. intros p [x Hx]%lookup_lt_is_Some_2.
    exists x. split; [done|]. by apply (Forall_lookup_1 _ _ _ _ Hall Hx).
Qed.

Lemma reachable_inv nid s :
  reachable nid s → no_wrap s → ∃ g F, inv s g F ∧ lm_node_id (lm_of s) = nid.
Proof.
  intros (s0 & Hinit & Hsteps). apply inv_initial in Hinit as [I0 Hid].
  revert I0 Hid. generalize 0%nat (seq 0 N). intros g F. revert g F.
  induction Hsteps as [s|s s1 s2 Hstep Hsteps IH]; intros g F I Hid Hnw; [by exists g, F|].
  assert (no_wrap s1) as Hnw1.
  { clear -Hsteps Hnw. induction Hsteps; [done|]. eapply no_wrap_mono; eauto. }
  destruct (step_inv _ _ _ _ I Hstep Hnw1) as (g' & F' & _ & I' & Hid'). eapply IH; [done|congruence|done].
Qed.
End invariant.

(** ** Lemmas: frames *)

Section frames.
Context `{cfg : Config} {Q : Type} `{FQ : !FifoQueue Q nat LOG_COUNT}.
Implicit Types (lm : LogManager Q).

(** What [get_new_log] leaves alone. *)
Lemma gc_free_loop_frame fuel i b lm lm' :
  gc_free_loop fuel i b lm = Some lm' → ∃ q, lm' = set_freelist q lm.
Proof.
  revert i lm. induction fuel as [|fuel IH]; intros i lm; cbn [gc_free_loop]; destruct (i =? b).
  1, 3: intros [= <-]; exists (freelist lm); by destruct lm.
  1: done.
  destruct (q_enqueue _ _) as [[[] q]|]; cbn [mbind option_bind]; [|done..].
  intros (q' & ->)%IH. by exists q'.
Qed.

Lemma gc_unsubscribed_loop_frame fuel i b lm b' lm' :
  gc_unsubscribed_loop fuel i b lm = Some (b', lm') → ∃ q, lm' = set_freelist q lm.
Proof.
  revert i lm. induction fuel as [|fuel IH]; intros i lm; cbn [gc_unsubscribed_loop]; destruct (i =? b).
  1, 3: intros [= <- <-]; exists (freelist lm); by destruct lm.
  1: done.
  destruct (negb _); [intros [= <- <-]; exists (freelist lm); by destruct lm|].
  destruct (q_enqueue _ _) as [[[] q]|]; cbn [mbind option_bind]; [|done..].
  intros (q' & ->)%IH. by exists q'.
Qed.

Lemma perform_gc_frame lm lm' :
  perform_gc lm = Some lm' → ∃ q b, lm' = set_bound b (set_freelist q lm).
Proof.
  unfold perform_gc. destruct (gc_scan lm) as [b sub]. destruct (b <? bound lm); [done|]. destruct sub.
  - destruct (gc_free_loop _ _ _ _) as [lm1|] eqn:E; [|done]. intros [= <-].
    apply gc_free_loop_frame in E as [q ->]. by exists q, b.
  - destruct (gc_unsubscribed_loop _ _ _ _) as [[b1 lm1]|] eqn:E; [|done]. intros [= <-].
    apply gc_unsubscribed_loop_frame in E as [q ->]. by exists q, b1.
Qed.

Lemma get_new_log_frame lm r lm' :
  get_new_log lm = Some (r, lm') →
  subs lm' = subs lm ∧ lm_node_id lm' = lm_node_id lm ∧
  buf lm' = match r with Some log => alter log_clear log (buf lm) | None => buf lm end.
Proof.
  unfold get_new_log. destruct (q_dequeue _) as [[[log|] q]|]; cbn [mbind option_bind]; [by intros [= <- <-]| |done].
  destruct (q_dequeue _) as [[[log|] q1]|]; cbn [mbind option_bind]; [by intros [= <- <-]| |done].
  destruct (perform_gc _) as [lm1|] eqn:E; cbn [mbind option_bind]; [|done].
  apply perform_gc_frame in E as (q2 & b & ->).
  destruct (q_dequeue _) as [[[log|] q3]|]; cbn [mbind option_bind]; [by intros [= <- <-]..|done].
Qed.
End frames.

(** ** Properties *)

Section properties.
Context `{cfg : Config} (ok : ConfigOk cfg) {Q : Type} `{FQ : !FifoQueue Q nat LOG_COUNT}.
Implicit Types (s : sys Q).

(** No log is ever in two places. In every state the producers and
    consumers of a node can reach (before the 32-bit positions wrap), each of
    the [LOG_COUNT] logs is exactly once either in the free list, or held by a
    producer, or at one position not yet reclaimed; reclaimed positions have
    been published and passed by every subscriber, and at most [LOG_COUNT]
    positions are outstanding. *)
Theorem logs_conserved (nid : nat) s :
  reachable nid s → no_wrap s →
  ∃ (g : nat) (F : list nat),
    bound (lm_of s) = Z.of_nat (LOG_COUNT + g) ∧
    q_repr (freelist (lm_of s)) F (Z.of_nat (LOG_COUNT + g)) ∧
    F ++ held s ++ map pr_log (drop g (hist s)) ≡ₚ seq 0 LOG_COUNT ∧
    lm_tail (lm_of s) = Z.of_nat (length (hist s)) ∧
    (g ≤ length (hist s) ≤ g + LOG_COUNT)%nat ∧
    (∀ p, (p < g)%nat → published s p) ∧
    ∀ i, subscriber (lm_of s) i → Z.of_nat g ≤ head_of (lm_of s) i.
Proof.
  intros Hr Hnw. destruct (reachable_inv nid s Hr Hnw) as (g & F & I & _). exists g, F.
  pose proof (inv_counts I). pose proof (inv_gc_le _ _ _ I).
  split_and!; [apply I|apply I|apply I|apply I|lia|lia|apply I|].
  intros i Hi. destruct (subscriber_head I i Hi) as (h & -> & ? & _). lia.
Qed.

(** C28: a published entry is never overwritten before it is read. In every
    reachable state, for a subscriber [i] at position [h], a position at or
    after [h] that is published still has in its ring slot the log, the
    sequence number and the release flag it was published with, and its log
    still holds the entries it was published with and is not held by a producer;
    [take_head] returns that slot exactly when position [h] is published, and
    null otherwise. *)
Theorem unread_entries_intact (nid : nat) s (i : nat) :
  reachable nid s → no_wrap s → subscriber (lm_of s) i →
  ∃ h : nat, head_of (lm_of s) i = Z.of_nat h ∧ (h ≤ length (hist s))%nat ∧
    (∀ p r d, (h ≤ p)%nat → hist s !! p = Some r → pr_data r = Some d →
       pub_at (lm_of s) (Z.of_nat p) = mkPub (pr_log r) (Z.of_nat p + 1) (pr_rel r) ∧
       log_entries (log_at (lm_of s) (pr_log r)) = d ∧ pr_log r ∉ held s) ∧
    (published s h → take_head i (lm_of s) = Some (pub_at (lm_of s) (Z.of_nat h))) ∧
    (¬ published s h → take_head i (lm_of s) = None).
Proof.
  intros Hr Hnw Hs. destruct (reachable_inv nid s Hr Hnw) as (g & F & I & _).
  destruct (subscriber_head I i Hs) as (h & Hh & Hgh & Hp). unfold no_wrap in Hnw.
  pose proof log_count_range. exists h. split; [done|]. split; [lia|].
  assert (add32 (Z.of_nat h) 1 = Z.of_nat h + 1) as Ha by (rewrite add32_1_nat; lia).
  split_and!.
  - intros p r d Hhp Hx Hd. destruct (published_idx I p) as (r' & d' & Hr' & Hd' & Hpa & Hlog);
      [lia|exists r; split; [done|congruence]|].
    rewrite Hx in Hr'. injection Hr' as <-. rewrite Hd in Hd'. injection Hd' as <-.
    split_and!; [done|done|]. intros Hin. pose proof (inv_nodup I) as Hnd.
    apply NoDup_app in Hnd as (_ & _ & Hnd). apply NoDup_app in Hnd as (_ & Hnd & _).
    apply (Hnd _ Hin). apply (inv_outstanding p r); [lia|done].
  - intros Hpub. destruct (published_idx I h) as (r' & d' & _ & _ & Hpa & _); [lia|done|].
    unfold take_head. by rewrite Hh, Ha, Hpa, Z.eqb_refl.
  - intros Hno. unfold take_head. rewrite Hh, Ha.
    destruct (Z.eqb_spec (pe_idx (pub_at (lm_of s) (Z.of_nat h))) (Z.of_nat h + 1)) as [E|]; [|done].
    by apply (idx_published I) in E.
Qed.

(** In every reachable state [get_new_log] returns (no loop of it hangs and
    no assertion fails), and it returns null exactly when the free list is empty
    and the oldest outstanding position cannot be reclaimed: a subscriber has
    not read it, or, when the node has no subscriber, it is not published. *)
Theorem get_new_log_total (nid : nat) s :
  reachable nid s → no_wrap s →
  ∃ r lm', get_new_log (lm_of s) = Some (r, lm') ∧
    ∃ (g : nat) (F : list nat),
      F ++ held s ++ map pr_log (drop g (hist s)) ≡ₚ seq 0 LOG_COUNT ∧
      (∀ p, (p < g)%nat → published s p) ∧
      (r = None ↔ F = [] ∧ gc_stuck s g).
Proof.
  intros Hr Hnw. destruct (reachable_inv nid s Hr Hnw) as (g & F & I & _).
  destruct (get_new_log_spec s g F I Hnw) as (r & lm' & Heq & Hsubs & Hid & Hres).
  exists r, lm'. split; [done|]. exists g, F. split_and!; [apply I|apply I|].
  destruct r as [log|]; [|naive_solver]. split; [done|]. intros [HF Hst]. exfalso.
  destruct Hres as (g' & F' & Hgg & [?|Hlt] & I'); [done|].
  destruct Hst as [(i & Hi & Hh)|[Hno Hnp]].
  - assert (subscriber lm' i ∧ head_of lm' i = Z.of_nat g) as [Hi' Hh'].
    { unfold subscriber, is_subscribed, head_of, sub_at in *. by rewrite Hsubs, Hid. }
    destruct (subscriber_head I' i Hi') as (h & Hh2 & Hr2 & _). cbn [lm_of] in Hh2. lia.
  - apply Hnp. apply (inv_gc_pub _ _ _ I' g Hlt).
Qed.

(** C40: at the last round before the positions wrap around, the garbage
    collection fails its own assertion: with [bound] at 2^32 - [LOG_COUNT] the
    new bound is 0 whatever the subscribers' heads are. *)
Theorem perform_gc_asserts_at_wrap (lm : LogManager Q) :
  bound lm = 2 ^ 32 - Z.of_nat LOG_COUNT → perform_gc lm = None.
Proof.
  intros Hb. pose proof log_count_range. unfold perform_gc.
  assert (∃ b, gc_scan lm = (0, b)) as [b ->].
  { unfold gc_scan. assert (next_round (bound lm) = 0) as ->.
    { rewrite Hb. unfold next_round, add32. rewrite Z.sub_add. done. }
    generalize (seq 0 NODE_COUNT), false. intros l. induction l as [|i l IH]; intros b; [by exists b|].
    cbn [foldl]. destruct (i =? lm_node_id lm)%nat; [done|]. destruct (negb _); [done|].
    assert (0 ≤ next_round (head_of lm i)) as Hh by apply (wrap_range 32 _ ltac:(lia)).
    destruct (Z.ltb_spec (next_round (head_of lm i)) 0); [lia|]. cbn [andb]. apply IH. }
  rewrite Hb. destruct (Z.ltb_spec 0 (2 ^ 32 - Z.of_nat LOG_COUNT)); [done|lia].
Qed.
End properties.

(** ** Examples in the small configuration *)

Section examples.
Let cfg : Config := small_config.
#[local] Existing Instance cfg.
#[local] Existing Instance small_config_ok.
Abbreviation M := (LogManager (@spmc_bounded_queue nat)).

(** The manager of node 0 after [n] releases of one entry each, not yet read. *)
Definition produce_one (cl : Z) (s : sys (@spmc_bounded_queue nat)) : option (sys (@spmc_bounded_queue nat)) :=
  '(r, lm) ← get_new_log (lm_of s);
  log ← r;
  l ← log_write cl (log_at lm log);
  let lm := set_buf (<[log := l]> (buf lm)) lm in
  let '(t, lm) := reserve_tail lm in
  Some (mkSys (publish t log true lm).2 (held s) (hist s ++ [mkRec log true (Some (log_entries l))])).

Definition example_start : option (sys (@spmc_bounded_queue nat)) :=
  lm ← log_manager_new 0; Some (mkSys lm [] []).
Definition example_state : option (sys (@spmc_bounded_queue nat)) :=
  s ← example_start; produce_one 77 s.

Lemma example_reachable s : example_state = Some s → reachable 0 s.
Proof.
  unfold example_state, example_start. destruct (log_manager_new 0) as [lm|] eqn:E; [|done]. intros H.
  exists (mkSys lm [] []). split; [by exists lm|]. vm_compute in E. injection E as <-.
  vm_compute in H. injection H as <-.
  eapply rtc_l; [eapply step_get; vm_compute; reflexivity|].
  eapply rtc_l; [eapply (step_write _ _ _ _ 77); [left|vm_compute; reflexivity]|].
  eapply rtc_l; [by apply (step_reserve _ [0%nat] 0%nat [] [] true)|].
  eapply rtc_l; [by apply (step_publish _ _ _ 0 0 true)|].
  match goal with |- rtc _ ?x ?y => enough (x = y) as -> by apply rtc_refl end.
  vm_compute. reflexivity.
Qed.

Lemma logs_conserved_witness :
  ∃ s, example_state = Some s ∧ length (hist s) = 1%nat ∧
  ∃ (g : nat) (F : list nat), bound (lm_of s) = Z.of_nat (2 + g) ∧
    F ++ held s ++ map pr_log (drop g (hist s)) ≡ₚ [0; 1]%nat.
Proof.
  destruct example_state as [s|] eqn:E; [|vm_compute in E; discriminate].
  exists s. split; [reflexivity|]. pose proof (example_reachable s E) as Hr.
  vm_compute in E. injection E as <-. split; [reflexivity|].
  destruct (logs_conserved small_config_ok 0 _ Hr) as (g & F & Hb & _ & Hp & _); [reflexivity|].
  exists g, F. split; [exact Hb|exact Hp].
Defined.

Lemma unread_entries_intact_witness :
  ∃ s, example_state = Some s ∧ ∃ e, take_head 1 (lm_of s) = Some e ∧ pe_idx e = 1 ∧
    log_entries (log_at (lm_of s) (pe_log e)) = [77].
Proof.
  destruct example_state as [s|] eqn:E; [|vm_compute in E; discriminate].
  exists s. split; [reflexivity|]. pose proof (example_reachable s E) as Hr.
  vm_compute in E. injection E as <-.
  destruct (unread_entries_intact small_config_ok 0 _ 1 Hr) as (h & Hh & _ & Hin & Ht & _);
    [reflexivity|split; [apply le_n|split; [discriminate|reflexivity]]|].
  assert (h = 0%nat) as -> by (assert (Z.of_nat h = 0) by (rewrite <- Hh; reflexivity); lia).
  destruct (Hin 0%nat (mkRec 0 true (Some [77])) [77] (le_n 0) eq_refl eq_refl) as (Hpa & Hl & _).
  eexists. split; [apply Ht; exists (mkRec 0 true (Some [77])); split; [reflexivity|discriminate]|].
  split; [reflexivity|exact Hl].
Defined.

Lemma get_new_log_total_witness :
  ∃ s, example_state = Some s ∧ ∃ r lm', get_new_log (lm_of s) = Some (r, lm').
Proof.
  destruct example_state as [s|] eqn:E; [|vm_compute in E; discriminate].
  exists s. split; [reflexivity|]. pose proof (example_reachable s E) as Hr.
  vm_compute in E. injection E as <-.
  destruct (get_new_log_total small_config_ok 0 _ Hr) as (r & lm' & H & _); [reflexivity|].
  exists r, lm'. exact H.
Defined.

Lemma perform_gc_asserts_at_wrap_witness :
  ∃ lm, log_manager_new 0 = Some lm ∧ perform_gc (set_bound (2 ^ 32 - 2) lm) = None.
Proof.
  destruct (log_manager_new 0) as [lm|] eqn:E; [|vm_compute in E; discriminate].
  exists lm. split; [reflexivity|]. apply (perform_gc_asserts_at_wrap small_config_ok). reflexivity.
Defined.

(** Node 1 leaves, a producer reserves a position, node 1 subscribes again
    before the position is published, and two more logs are taken. *)
Definition resubscribe_run : option (option nat * option nat * option nat * list nat) :=
  lm ← log_manager_new 0;
  let lm := remove_subscriber 1 lm in
  '(a, lm) ← get_new_log lm;
  let '(t, lm) := reserve_tail lm in
  '(_, lm) ← add_subscriber 1 1 lm;
  '(b, lm) ← get_new_log lm;
  '(c, lm) ← get_new_log lm;
  Some (a, b, c, map (λ e, Z.to_nat (pe_idx e)) (pub lm)).

(** Subscribing while a position is reserved and not yet published breaks
    the exclusive use of logs: the head starts at the tail, so the collection
    reclaims the position in flight and hands the log that its producer is about
    to publish to another producer ([0] is handed out twice). *)
Theorem subscribe_in_flight_duplicates_log :
  resubscribe_run = Some (Some 0%nat, Some 1%nat, Some 0%nat, [0; 0]%nat).
Proof. vm_compute. reflexivity. Qed.
End examples.
