(* ===== verification/LogSystem.v ===== *)
(** LogSystem: [include/logManager.hpp] under concurrency. The threads of a node
    that take and publish logs, its collections and the consumers of the other
    nodes act at the same time; a step is one access to the state of the manager
    ([tail], a member of a [pub] entry, a [head], [gc_mtx], the free list), in
    sequentially consistent order.

    The state is that of LogManager with a list for the free list, whose calls
    are atomic (SpmcSystem; a refused [enqueue] is tried again by the code). The
    subscriptions do not change. *)
From S2P Require Import Prelude Config SpmcQueue LogManager.

(** ** Definitions *)

(** Where a thread that produces is: in [get_new_log], in [perform_gc], with a log
    in its hands, in [produce_tail]. The caller leaves with [Refused] when there is
    no log. *)
Inductive log_pc :=
  | FirstDequeue | LockGc | SecondDequeue
  | Scan (i : nat) (new_b : Z) (subscribed : bool)
  | LoadLog (i new_b : Z) | EnqueueLog (i new_b : Z) (log : nat)
  | UnsubLoadLog (i new_b : Z) | UnsubLoadIdx (i new_b : Z) (log : nat) | UnsubEnqueue (i new_b : Z) (log : nat)
  | StoreBound (new_b : Z) | LastDequeue | UnlockGc (r : option nat)
  | Refused | Holding (log : nat)
  | FetchAdd (log : nat) (r : bool)
  | StoreRel (t : Z) (log : nat) (r : bool) | StoreLog (t : Z) (log : nat) (r : bool) | StoreIdx (t : Z) (log : nat) (r : bool)
  | Published (t : Z).

(** Where the consumer of a node is: in [take_head], at the uses of the entry it
    returns, in [consume_head]. *)
Inductive head_pc :=
  | LoadIdx (h : Z) | NoEntry
  | ReadLog (h : Z) | ReadRel (h : Z) (log : nat) | Process (h : Z) (log : nat) (r : bool)
  | StoreHead (h : Z).

Record log_system := mkLogSys {
  ls_lm : LogManager (list nat);
  ls_gc : option nat;
  ls_prods : gmap nat log_pc;
  ls_cons : gmap nat head_pc;
  ls_hist : list (nat * bool);
}.

Section system.
Context `{cfg : Config}.
Abbreviation manager := (LogManager (list nat)).
Implicit Types (lm : manager) (s : log_system) (a b log : nat) (pc : log_pc) (i t h new_b : Z).

Definition set_free (q : list nat) lm : manager := mkLM (buf lm) (pub lm) (lm_tail lm) (subs lm) q (lm_node_id lm) (bound lm).
Definition set_entry i (e : PubEntry) lm : manager :=
  mkLM (buf lm) (<[get_idx i := e]> (pub lm)) (lm_tail lm) (subs lm) (freelist lm) (lm_node_id lm) (bound lm).

Definition with_lm lm s : log_system := mkLogSys lm (ls_gc s) (ls_prods s) (ls_cons s) (ls_hist s).
Definition with_gc g s : log_system := mkLogSys (ls_lm s) g (ls_prods s) (ls_cons s) (ls_hist s).
Definition jump a pc s : log_system := mkLogSys (ls_lm s) (ls_gc s) (<[a := pc]> (ls_prods s)) (ls_cons s) (ls_hist s).
Definition with_hist x s : log_system := mkLogSys (ls_lm s) (ls_gc s) (ls_prods s) (ls_cons s) (ls_hist s ++ [x]).

(** [freelist.dequeue(log)], and what comes after it with and without a log. *)
Definition dequeue_log a (some : nat → log_pc) (none : log_pc) s : log_system :=
  match freelist (ls_lm s) with
  | log :: q => jump a (some log) (with_lm (take_log log (set_free q (ls_lm s))) s)
  | [] => jump a none s
  end.

(** The next access of thread [a] in [perform_gc]; [None] is a failed assertion. *)
Definition gc_advance a pc s : option log_system :=
  let lm := ls_lm s in
  match pc with
  | Scan i new_b subscribed =>
      if (i <? NODE_COUNT)%nat then
        if (i =? lm_node_id lm)%nat || negb (is_subscribed lm i) then Some (jump a (Scan (S i) new_b subscribed) s)
        else let h := next_round (head_of lm i) in
             Some (jump a (Scan (S i) (if (h <? new_b) && (bound lm <=? h) then h else new_b) true) s)
      else if new_b <? bound lm then None
      else Some (jump a (if subscribed : bool then LoadLog (bound lm) new_b else UnsubLoadLog (bound lm) new_b) s)
  | LoadLog i new_b =>
      Some (jump a (if i =? new_b then StoreBound new_b else EnqueueLog i new_b (pe_log (pub_at lm i))) s)
  | EnqueueLog i new_b log => Some (jump a (LoadLog (add32 i 1) new_b) (with_lm (set_free (freelist lm ++ [log]) lm) s))
  | UnsubLoadLog i new_b =>
      Some (jump a (if i =? new_b then StoreBound new_b else UnsubLoadIdx i new_b (pe_log (pub_at lm i))) s)
  | UnsubLoadIdx i new_b log =>
      Some (jump a (if pe_idx (pub_at lm i) =? add32 (prev_round i) 1 then UnsubEnqueue i new_b log else StoreBound i) s)
  | UnsubEnqueue i new_b log => Some (jump a (UnsubLoadLog (add32 i 1) new_b) (with_lm (set_free (freelist lm ++ [log]) lm) s))
  | StoreBound new_b => Some (jump a LastDequeue (with_lm (set_bound new_b lm) s))
  | _ => Some s
  end.

(** The next access of thread [a]. A thread in [Holding] fills its log; one that
    is [Refused] or has [Published] has returned. *)
Definition log_advance a pc s : option log_system :=
  let lm := ls_lm s in
  match pc with
  | FirstDequeue => Some (dequeue_log a Holding LockGc s)
  | LockGc => Some (match ls_gc s with None => jump a SecondDequeue (with_gc (Some a) s) | Some _ => s end)
  | SecondDequeue => Some (dequeue_log a (λ log, UnlockGc (Some log)) (Scan 0 (next_round (bound lm)) false) s)
  | LastDequeue => Some (dequeue_log a (λ log, UnlockGc (Some log)) (UnlockGc None) s)
  | UnlockGc r => Some (jump a (match r with Some log => Holding log | None => Refused end) (with_gc None s))
  | FetchAdd log r =>
      Some (jump a (StoreRel (lm_tail lm) log r) (with_hist (log, r) (with_lm (set_tail (add32 (lm_tail lm) 1) lm) s)))
  | StoreRel t log r =>
      let e := pub_at lm t in Some (jump a (StoreLog t log r) (with_lm (set_entry t (mkPub (pe_log e) (pe_idx e) r) lm) s))
  | StoreLog t log r =>
      let e := pub_at lm t in Some (jump a (StoreIdx t log r) (with_lm (set_entry t (mkPub log (pe_idx e) (pe_is_rel e)) lm) s))
  | StoreIdx t log r =>
      let e := pub_at lm t in Some (jump a (Published t) (with_lm (set_entry t (mkPub (pe_log e) (add32 t 1) (pe_is_rel e)) lm) s))
  | Refused | Holding _ | Published _ => Some s
  | _ => gc_advance a pc s
  end.

(** The next access of a consumer. *)
Definition head_advance (hp : head_pc) lm : head_pc :=
  match hp with
  | LoadIdx h => if negb (pe_idx (pub_at lm h) =? add32 h 1) then NoEntry else ReadLog h
  | ReadLog h => ReadRel h (pe_log (pub_at lm h))
  | ReadRel h log => Process h log (pe_is_rel (pub_at lm h))
  | Process h _ _ => StoreHead h
  | NoEntry | StoreHead _ => hp
  end.

(** The steps of the threads and of the consumers. *)
Inductive log_sys_step : log_system → log_system → Prop :=
  | lss_get_new_log a s : ls_prods s !! a = None → log_sys_step s (jump a FirstDequeue s)
  | lss_produce_tail a log r s : ls_prods s !! a = Some (Holding log) → log_sys_step s (jump a (FetchAdd log r) s)
  | lss_advance a pc s s' : ls_prods s !! a = Some pc → log_advance a pc s = Some s' → log_sys_step s s'
  | lss_return a pc lm g m c x :
      m !! a = Some pc → pc = Refused ∨ (∃ t, pc = Published t) →
      log_sys_step (mkLogSys lm g m c x) (mkLogSys lm g (delete a m) c x)
  | lss_take_head j lm g m c x :
      is_subscribed lm j = true → j ≠ lm_node_id lm → (j < NODE_COUNT)%nat → c !! j = None →
      log_sys_step (mkLogSys lm g m c x) (mkLogSys lm g m (<[j := LoadIdx (head_of lm j)]> c) x)
  | lss_consumer j (hp : head_pc) lm g m c x :
      c !! j = Some hp → log_sys_step (mkLogSys lm g m c x) (mkLogSys lm g m (<[j := head_advance hp lm]> c) x)
  | lss_no_entry j lm g m c x :
      c !! j = Some NoEntry → log_sys_step (mkLogSys lm g m c x) (mkLogSys lm g m (delete j c) x)
  | lss_consume_head j h lm g m c x :
      c !! j = Some (StoreHead h) →
      log_sys_step (mkLogSys lm g m c x)
        (mkLogSys (set_sub j (mkSub (add32 h 1) (is_subscribed lm j)) lm) g m (delete j c) x).

(** The manager of node [me] after its constructor, with the subscriptions [sub]. *)
Definition log_sys_init (me : nat) (sub : nat → bool) : log_system :=
  mkLogSys
    (mkLM (replicate LOG_COUNT log_init) (map (λ k : nat, mkPub k 0 false) (seq 0 LOG_COUNT)) 0
       (map (λ k : nat, mkSub 0 (sub k)) (seq 0 NODE_COUNT)) (seq 0 LOG_COUNT) me (next_round 0))
    None ∅ ∅ [].
Definition log_sys_reachable me sub s : Prop := rtc log_sys_step (log_sys_init me sub) s.

(** The logs threads have in their hands, and the one a position owns until its
    consumers have passed it. *)
Definition in_hand pc : option nat :=
  match pc with
  | Holding log | FetchAdd log _ | UnlockGc (Some log) => Some log
  | _ => None
  end.
Definition logs_in_hand (m : gmap nat log_pc) : list nat := omap (λ x, in_hand x.2) (map_to_list m).
(** The first position whose log has not been freed. *)
Definition gc_next pc : option Z :=
  match pc with
  | LoadLog i _ | EnqueueLog i _ _ | UnsubLoadLog i _ | UnsubLoadIdx i _ _ | UnsubEnqueue i _ _ => Some i
  | StoreBound b => Some b
  | _ => None
  end.
Definition frontier s : Z :=
  default (bound (ls_lm s)) (ls_gc s ≫= λ a, ls_prods s !! a ≫= gc_next) - Z.of_nat LOG_COUNT.
Definition all_logs s : list nat :=
  freelist (ls_lm s) ++ logs_in_hand (ls_prods s) ++ (drop (Z.to_nat (frontier s)) (ls_hist s)).*1.
Definition writes pc : option Z :=
  match pc with StoreRel t _ _ | StoreLog t _ _ | StoreIdx t _ _ => Some t | _ => None end.
Definition pub_done s (p : Z) : Prop :=
  0 ≤ p < Z.of_nat (length (ls_hist s)) ∧ ∀ a pc, ls_prods s !! a = Some pc → writes pc ≠ Some p.

(** ** The invariant *)

Definition len s : Z := Z.of_nat (length (ls_hist s)).
Abbreviation N := (Z.of_nat LOG_COUNT).
Definition logged s (p : Z) : option (nat * bool) := if 0 <=? p then ls_hist s !! Z.to_nat p else None.
Definition is_consumer s (j : nat) : Prop :=
  is_subscribed (ls_lm s) j = true ∧ j ≠ lm_node_id (ls_lm s) ∧ (j < NODE_COUNT)%nat.
Definition in_gc pc : bool :=
  match pc with
  | SecondDequeue | Scan _ _ _ | LoadLog _ _ | EnqueueLog _ _ _ | UnsubLoadLog _ _ | UnsubLoadIdx _ _ _
  | UnsubEnqueue _ _ _ | StoreBound _ | LastDequeue | UnlockGc _ => true
  | _ => false
  end.
(** The bound a collection may reach: every consumer has passed what is below. *)
Definition bound_ok s new_b : Prop := ∀ j, is_consumer s j → new_b ≤ head_of (ls_lm s) j + N.

Definition log_pc_ok s pc : Prop :=
  match pc with
  | Scan i new_b subscribed =>
      bound (ls_lm s) ≤ new_b ≤ bound (ls_lm s) + N ∧
      (∀ j, is_consumer s j → (j < i)%nat → subscribed = true ∧ new_b ≤ head_of (ls_lm s) j + N)
  | LoadLog i new_b => bound (ls_lm s) ≤ i ≤ new_b ∧ bound_ok s new_b
  | EnqueueLog i new_b log => bound (ls_lm s) ≤ i < new_b ∧ bound_ok s new_b ∧ fst <$> logged s (i - N) = Some log
  | StoreBound new_b => bound (ls_lm s) ≤ new_b ∧ bound_ok s new_b
  | UnsubLoadLog _ _ | UnsubLoadIdx _ _ _ | UnsubEnqueue _ _ _ => False
  | StoreRel t log r | StoreLog t log r | StoreIdx t log r => logged s t = Some (log, r)
  | _ => True
  end.
Definition head_ok s (j : nat) (hp : head_pc) : Prop :=
  is_consumer s j ∧
  match hp with
  | LoadIdx h => h = head_of (ls_lm s) j
  | NoEntry => True
  | ReadLog h | StoreHead h => h = head_of (ls_lm s) j ∧ pub_done s h
  | ReadRel h log => h = head_of (ls_lm s) j ∧ pub_done s h ∧ fst <$> logged s h = Some log
  | Process h log r => h = head_of (ls_lm s) j ∧ pub_done s h ∧ logged s h = Some (log, r)
  end.

(** The entry of position [p], one of the last [LOG_COUNT] ones: not yet used,
    published, or being written. *)
Inductive entry_ok s (p : Z) (e : PubEntry) : Prop :=
  | entry_unused : p < 0 → pe_idx e = 0 → entry_ok s p e
  | entry_published : pub_done s p → logged s p = Some (pe_log e, pe_is_rel e) → pe_idx e = p + 1 → entry_ok s p e
  | entry_written a pc :
      ls_prods s !! a = Some pc → writes pc = Some p → pe_idx e ≤ p →
      match pc with
      | StoreLog _ _ r => pe_is_rel e = r
      | StoreIdx _ log r => pe_log e = log ∧ pe_is_rel e = r
      | _ => True
      end → entry_ok s p e.

Record log_inv s : Prop := {
  li_pub : length (pub (ls_lm s)) = LOG_COUNT;
  li_subs : length (subs (ls_lm s)) = NODE_COUNT;
  li_tail : lm_tail (ls_lm s) = len s;
  li_bound : N ≤ bound (ls_lm s) ≤ frontier s + N;
  li_frontier : frontier s ≤ len s;
  li_logs : all_logs s ≡ₚ seq 0 LOG_COUNT;
  li_heads j : is_consumer s j → frontier s ≤ head_of (ls_lm s) j ≤ len s;
  li_unwritten j a pc t : is_consumer s j → ls_prods s !! a = Some pc → writes pc = Some t → head_of (ls_lm s) j ≤ t;
  li_gc a pc : ls_prods s !! a = Some pc → in_gc pc = true → ls_gc s = Some a;
  li_writers a b pc pc' t : ls_prods s !! a = Some pc → ls_prods s !! b = Some pc' →
    writes pc = Some t → writes pc' = Some t → a = b;
  li_prods a pc : ls_prods s !! a = Some pc → log_pc_ok s pc;
  li_cons j hp : ls_cons s !! j = Some hp → head_ok s j hp;
  li_entries p : len s - N ≤ p < len s → entry_ok s p (pub_at (ls_lm s) p);
}.
(** A [fetch_add] that does not wrap. *)
Definition fetch_step a log (r : bool) s : log_system :=
  jump a (StoreRel (len s) log r) (with_hist (log, r) (with_lm (set_tail (len s + 1) (ls_lm s)) s)).
End system.

(** ** Lemmas *)

Section facts.
Context `{cfg : Config} {ok : ConfigOk cfg}.
Abbreviation manager := (LogManager (list nat)).
Abbreviation N := (Z.of_nat LOG_COUNT).
Implicit Types (lm : manager) (s : log_system) (a b log : nat) (pc : log_pc) (i t h p new_b : Z) (m : gmap nat log_pc).

Lemma get_idx_mod p : get_idx p = Z.to_nat (p mod N).
Proof.
  destruct log_count_pow2 as (k & Hk & Heq). unfold get_idx. rewrite Heq, <- Z.land_ones, Z.ones_equiv by lia.
  by rewrite Z.sub_1_r.
Qed.
Lemma count_ge_2 : 2 ≤ N < 2 ^ 17.
Proof.
  destruct log_count_pow2 as (k & Hk & ->). pose proof (Z.pow_le_mono_r 2 1 (Z.of_nat k)).
  pose proof (Z.pow_lt_mono_r 2 (Z.of_nat k) 17). lia.
Qed.
Lemma get_idx_lt p : (get_idx p < LOG_COUNT)%nat.
Proof. pose proof count_ge_2. rewrite get_idx_mod. pose proof (Z.mod_pos_bound p N). lia. Qed.
Lemma get_idx_inj p p' : get_idx p = get_idx p' → Z.abs (p - p') < N → p = p'.
Proof.
  pose proof count_ge_2. destruct log_count_pow2 as (k & Hk & Heq). rewrite !get_idx_mod.
  apply (mod_same_slot LOG_COUNT k); [lia|done|lia].
Qed.
Lemma slot_next_round p : get_idx (p + N) = get_idx p.
Proof. pose proof count_ge_2. by rewrite !get_idx_mod, <- Zplus_mod_idemp_r, Z.mod_same, Z.add_0_r by lia. Qed.

Lemma pub_at_set_eq i e lm : length (pub lm) = LOG_COUNT → pub_at (set_entry i e lm) i = e.
Proof. intros Hl. unfold pub_at. cbn. rewrite list_lookup_insert_eq; [done|]. rewrite Hl. apply get_idx_lt. Qed.
Lemma pub_at_set_ne i e lm p : p ≠ i → Z.abs (p - i) < N → pub_at (set_entry i e lm) p = pub_at lm p.
Proof.
  intros Hne Hlt. unfold pub_at. cbn. rewrite list_lookup_insert_ne; [done|]. intros Heq. apply Hne.
  apply get_idx_inj; [done|lia].
Qed.

Lemma hand_insert m a pc : logs_in_hand (<[a := pc]> m) ≡ₚ option_list (in_hand pc) ++ logs_in_hand (delete a m).
Proof.
  unfold logs_in_hand. rewrite <- insert_delete_eq, map_to_list_insert by apply lookup_delete_eq. cbn.
  by destruct (in_hand pc).
Qed.
Lemma hand_split m a : logs_in_hand m ≡ₚ option_list (m !! a ≫= in_hand) ++ logs_in_hand (delete a m).
Proof.
  destruct (m !! a) as [pc|] eqn:Ha; cbn.
  - rewrite <- (insert_id m a pc) at 1 by done. by rewrite hand_insert.
  - by rewrite delete_id.
Qed.
Lemma hand_same m a pc : in_hand pc = m !! a ≫= in_hand → logs_in_hand (<[a := pc]> m) ≡ₚ logs_in_hand m.
Proof. intros H. by rewrite hand_insert, H, <- hand_split. Qed.

Lemma frontier_jump a pc s :
  (ls_gc s = Some a → gc_next pc = ls_prods s !! a ≫= gc_next) → frontier (jump a pc s) = frontier s.
Proof.
  intros H. unfold frontier. cbn. destruct (ls_gc s) as [b|]; cbn; [|done].
  destruct (decide (a = b)) as [->|Hne]; [rewrite lookup_insert_eq; cbn; by rewrite H|by rewrite lookup_insert_ne].
Qed.

Lemma logged_bound s p x : logged s p = Some x → 0 ≤ p < len s.
Proof.
  unfold logged, len. destruct (Z.leb_spec 0 p) as [Hp|]; [|done]. intros H%lookup_lt_Some. lia.
Qed.
Lemma logged_app s s' x p : ls_hist s' = ls_hist s ++ [x] → p ≠ len s → logged s' p = logged s p.
Proof.
  intros H Hne. unfold logged, len in *. rewrite H. destruct (Z.leb_spec 0 p) as [Hp|]; [|done].
  destruct (decide (Z.to_nat p < length (ls_hist s))%nat).
  - by rewrite lookup_app_l.
  - rewrite !lookup_ge_None_2; [done|lia|rewrite length_app; cbn; lia].
Qed.

(** How many logs there are room for. *)
Lemma all_logs_length s : log_inv s →
  Z.of_nat (length (freelist (ls_lm s)) + length (logs_in_hand (ls_prods s))) + (len s - frontier s) = N.
Proof.
  intros Hi. pose proof (Permutation_length (li_logs _ Hi)) as Hl. unfold all_logs in Hl.
  rewrite !length_app, length_fmap, length_drop, length_seq in Hl. pose proof (li_bound _ Hi). pose proof (li_frontier _ Hi).
  unfold len in *. lia.
Qed.
Lemma hand_length s a pc log : ls_prods s !! a = Some pc → in_hand pc = Some log → (0 < length (logs_in_hand (ls_prods s)))%nat.
Proof. intros Ha Hh. rewrite (hand_split _ a), Ha. cbn. rewrite Hh. cbn. lia. Qed.

(** ** Steps that leave the ring of entries alone *)

Lemma inv_ring s s' :
  log_inv s → pub (ls_lm s') = pub (ls_lm s) → lm_tail (ls_lm s') = lm_tail (ls_lm s) → subs (ls_lm s') = subs (ls_lm s) →
  lm_node_id (ls_lm s') = lm_node_id (ls_lm s) → ls_hist s' = ls_hist s → ls_cons s' = ls_cons s →
  (∀ a pc, is_Some (writes pc) → ls_prods s' !! a = Some pc ↔ ls_prods s !! a = Some pc) →
  N ≤ bound (ls_lm s') ≤ frontier s' + N → frontier s' ≤ len s →
  (∀ j, is_consumer s j → frontier s' ≤ head_of (ls_lm s) j) →
  all_logs s' ≡ₚ all_logs s →
  (∀ a pc, ls_prods s' !! a = Some pc → in_gc pc = true → ls_gc s' = Some a) →
  (∀ a pc, ls_prods s' !! a = Some pc → log_pc_ok s' pc) →
  log_inv s'.
Proof.
  destruct s as [lm g m c x], s' as [lm' g' m' c' x']; cbn. intros Hi Hpub Htail Hsubs Hid -> -> Hw Hb Hf Hhf Hl Hg Hp.
  assert (∀ j, head_of lm' j = head_of lm j) as Hhead by (intros j; unfold head_of, sub_at; by rewrite Hsubs).
  assert (∀ j, is_consumer (mkLogSys lm' g' m' c x) j ↔ is_consumer (mkLogSys lm g m c x) j) as Hcon
    by (intros j; unfold is_consumer, is_subscribed, sub_at; cbn; by rewrite Hsubs, Hid).
  assert (∀ p, pub_done (mkLogSys lm' g' m' c x) p ↔ pub_done (mkLogSys lm g m c x) p) as Hpp.
  { intros p. unfold pub_done. cbn. apply and_iff_compat_l. split; intros H a pc Ha Hwp; (eapply H; [|exact Hwp]); apply Hw; eauto. }
  destruct Hi as [Hi1 Hi2 Hi3 Hi4 Hi5 Hi6 Hi7 Hi8 Hi9 Hi10 Hi11 Hi12 Hi13]; cbn in *.
  constructor; cbn; rewrite ?Hpub, ?Htail, ?Hsubs; try done.
  - by rewrite Hl.
  - intros j Hj%Hcon. rewrite Hhead. split; [by apply Hhf|]. by apply Hi7.
  - intros j a pc t Hj%Hcon Ha Ht. rewrite Hhead. apply Hw in Ha; [|by eexists]. by eapply Hi8.
  - intros a b pc pc' t Ha Hb' Ht Ht'. apply Hw in Ha; [|by eexists]. apply Hw in Hb'; [|by eexists]. by eapply Hi10.
  - intros j hp Hj. destruct (Hi12 j hp Hj) as [Hc Hok]. split; [by apply Hcon|].
    destruct hp; cbn in *; rewrite ?Hhead, ?Hpp; done.
  - intros p Hpw. unfold pub_at. rewrite Hpub. fold (pub_at lm p).
    destruct (Hi13 p Hpw) as [? ?|? ? ?|a pc Ha Ht ? ?].
    + by apply entry_unused.
    + apply entry_published; [by apply Hpp|done|done].
    + eapply entry_written; [apply Hw; [by eexists|exact Ha]|done|done|done].
Qed.

(** A thread that goes on with nothing in the shared state changed. *)
Lemma inv_jump s a pc :
  log_inv s → in_hand pc = ls_prods s !! a ≫= in_hand → writes pc = None → ls_prods s !! a ≫= writes = None →
  frontier (jump a pc s) = frontier s →
  (in_gc pc = true → ls_gc s = Some a) → log_pc_ok s pc → log_inv (jump a pc s).
Proof.
  intros Hi Hh Hw Hw0 Hf Hg Hp. eapply (inv_ring s); try done; rewrite ?Hf; try by apply Hi.
  - intros b pc' [t Ht]. cbn. destruct (decide (a = b)) as [->|Hne]; [|by rewrite lookup_insert_ne].
    rewrite lookup_insert_eq. split; [intros [= <-]; congruence|intros Hb; rewrite Hb in Hw0; cbn in Hw0; congruence].
  - unfold all_logs. rewrite Hf. cbn. by rewrite hand_same.
  - intros b pc'. cbn. rewrite lookup_insert_Some. intros [[<- <-]|[_ Hb]] Hgc; [by apply Hg|]. by eapply li_gc.
  - intros b pc'. cbn. rewrite lookup_insert_Some. intros [[<- <-]|[_ Hb]]; [done|]. by apply (li_prods _ Hi b).
Qed.

Lemma inv_dequeue s a some none :
  log_inv s → ls_prods s !! a ≫= in_hand = None → ls_prods s !! a ≫= writes = None → ls_prods s !! a ≫= gc_next = None →
  (∀ log, in_hand (some log) = Some log ∧ writes (some log) = None ∧ gc_next (some log) = None ∧
     (in_gc (some log) = true → ls_gc s = Some a) ∧ ∀ s, log_pc_ok s (some log)) →
  in_hand none = None → writes none = None → gc_next none = None → (in_gc none = true → ls_gc s = Some a) → log_pc_ok s none →
  log_inv (dequeue_log a some none s).
Proof.
  intros Hi Hh Hw Hgp Hsome Hh' Hw' Hgp' Hg' Hp'. unfold dequeue_log. destruct (freelist (ls_lm s)) as [|log q] eqn:Hq.
  - apply inv_jump; rewrite ?Hh, ?Hw; try done. apply frontier_jump. by rewrite Hgp.
  - destruct (Hsome log) as (S1 & S2 & S3 & S4 & S5).
    assert (frontier (jump a (some log) (with_lm (take_log log (set_free q (ls_lm s))) s)) = frontier s) as Hf.
    { rewrite frontier_jump; [done|]. intros _. cbn. by rewrite Hgp. }
    eapply (inv_ring s); try done; rewrite ?Hf; try by apply Hi.
    + intros b pc' [t Ht]. cbn. destruct (decide (a = b)) as [->|Hne]; [|by rewrite lookup_insert_ne].
      rewrite lookup_insert_eq. split; [intros [= <-]; congruence|intros Hb; rewrite Hb in Hw; cbn in Hw; congruence].
    + unfold all_logs. rewrite Hf, Hq. cbn. rewrite hand_insert, S1, (hand_split (ls_prods s) a), Hh. cbn. symmetry. apply Permutation_middle.
    + intros b pc'. cbn. rewrite lookup_insert_Some. intros [[<- <-]|[_ Hb]] Hgc; [by apply S4|]. by eapply li_gc.
    + intros b pc'. cbn. rewrite lookup_insert_Some. intros [[<- <-]|[_ Hb]]; [apply S5|]. exact (li_prods _ Hi b pc' Hb).
Qed.

Lemma inv_lock s a :
  log_inv s → ls_prods s !! a = Some LockGc → ls_gc s = None → log_inv (jump a SecondDequeue (with_gc (Some a) s)).
Proof.
  intros Hi Ha Hn.
  assert (frontier (jump a SecondDequeue (with_gc (Some a) s)) = frontier s) as Hf
    by (unfold frontier; cbn; by rewrite lookup_insert_eq, Hn).
  eapply (inv_ring s); try done; rewrite ?Hf; try by apply Hi.
  - intros b pc' [t Ht]. cbn. destruct (decide (a = b)) as [->|Hne]; [|by rewrite lookup_insert_ne].
    rewrite lookup_insert_eq, Ha. split; intros [= <-]; done.
  - unfold all_logs. rewrite Hf. cbn. rewrite hand_same; [done|by rewrite Ha].
  - intros b pc'. cbn. rewrite lookup_insert_Some. intros [[<- <-]|[_ Hb]] Hgc; [done|].
    pose proof (li_gc _ Hi b pc' Hb Hgc). congruence.
  - intros b pc'. cbn. rewrite lookup_insert_Some. intros [[<- <-]|[_ Hb]]; [done|]. exact (li_prods _ Hi b pc' Hb).
Qed.

Lemma inv_unlock s a r :
  log_inv s → ls_prods s !! a = Some (UnlockGc r) →
  log_inv (jump a (match r with Some log => Holding log | None => Refused end) (with_gc None s)).
Proof.
  intros Hi Ha. pose proof (li_gc _ Hi a _ Ha eq_refl) as Hg. set (pc := match r with Some log => Holding log | None => Refused end).
  assert (frontier (jump a pc (with_gc None s)) = frontier s) as Hf by (unfold frontier; cbn; by rewrite Hg; cbn; rewrite Ha).
  eapply (inv_ring s); try done; rewrite ?Hf; try by apply Hi.
  - intros b pc' [t Ht]. cbn. destruct (decide (a = b)) as [->|Hne]; [|by rewrite lookup_insert_ne].
    rewrite lookup_insert_eq, Ha. split; intros [= <-]; [by destruct r|done].
  - unfold all_logs. rewrite Hf. cbn. rewrite hand_same; [done|rewrite Ha; by destruct r].
  - intros b pc'. cbn. rewrite lookup_insert_Some. intros [[<- <-]|[Hne Hb]] Hgc; [by destruct r|].
    pose proof (li_gc _ Hi b pc' Hb Hgc). congruence.
  - intros b pc'. cbn. rewrite lookup_insert_Some. intros [[<- <-]|[_ Hb]]; [by destruct r|]. exact (li_prods _ Hi b pc' Hb).
Qed.

Lemma gc_frontier s a pc i :
  log_inv s → ls_prods s !! a = Some pc → in_gc pc = true → gc_next pc = Some i → frontier s = i - N.
Proof. intros Hi Ha Hin Hp. unfold frontier. rewrite (li_gc _ Hi a pc Ha Hin). cbn. rewrite Ha. cbn. by rewrite Hp. Qed.

(** With a consumer, nothing above its head is freed. *)
Lemma inv_enqueue_log s a i new_b log j0 :
  log_inv s → is_consumer s j0 → len s + 2 * N < 2 ^ 32 → ls_prods s !! a = Some (EnqueueLog i new_b log) →
  log_inv (jump a (LoadLog (add32 i 1) new_b) (with_lm (set_free (freelist (ls_lm s) ++ [log]) (ls_lm s)) s)).
Proof.
  intros Hi Hj0 Hs Ha. destruct (li_prods _ Hi a _ Ha) as ([Hb Hlt] & Hbok & Hlog).
  pose proof (gc_frontier s a _ i Hi Ha eq_refl eq_refl) as Hf0. pose proof (li_bound _ Hi) as Hbd.
  pose proof (Hbok j0 Hj0). pose proof (li_heads _ Hi j0 Hj0) as Hh0. pose proof (li_gc _ Hi a _ Ha eq_refl) as Hg.
  assert (add32 i 1 = i + 1) as -> by (apply wrap_small; split; lia).
  set (s' := jump _ _ _).
  assert (frontier s' = i + 1 - N) as Hf by (unfold frontier, s'; cbn; rewrite Hg; cbn; by rewrite lookup_insert_eq).
  eapply (inv_ring s); try done; rewrite ?Hf.
  - intros b pc' [t Ht]. cbn. destruct (decide (a = b)) as [->|Hne]; [|by rewrite lookup_insert_ne].
    rewrite lookup_insert_eq, Ha. split; intros [= <-]; done.
  - cbn. lia.
  - lia.
  - intros j Hj. pose proof (Hbok j Hj). lia.
  - unfold all_logs. rewrite Hf, Hf0. cbn. rewrite hand_same by (by rewrite Ha).
    unfold logged in Hlog. destruct (Z.leb_spec 0 (i - N)) as [H0|]; [|done].
    destruct (ls_hist s !! Z.to_nat (i - N)) as [x|] eqn:Hx; [|done]. injection Hlog as <-.
    rewrite (drop_S _ x (Z.to_nat (i - N)) Hx). replace (Z.to_nat (i + 1 - N)) with (S (Z.to_nat (i - N))) by lia. cbn.
    rewrite <- !app_assoc. cbn. f_equiv. by rewrite <- Permutation_middle.
  - intros b pc'. cbn. rewrite lookup_insert_Some. intros [[<- <-]|[_ Hb']] Hgc; [done|]. by eapply li_gc.
  - intros b pc'. cbn. rewrite lookup_insert_Some. intros [[<- <-]|[_ Hb']]; [|exact (li_prods _ Hi b pc' Hb')].
    split; [cbn; lia|exact Hbok].
Qed.

Lemma inv_store_bound s a new_b :
  log_inv s → ls_prods s !! a = Some (StoreBound new_b) →
  log_inv (jump a LastDequeue (with_lm (set_bound new_b (ls_lm s)) s)).
Proof.
  intros Hi Ha. destruct (li_prods _ Hi a _ Ha) as [Hb Hbok].
  pose proof (gc_frontier s a _ new_b Hi Ha eq_refl eq_refl) as Hf0. pose proof (li_gc _ Hi a _ Ha eq_refl) as Hg.
  pose proof (li_bound _ Hi) as Hbd. set (s' := jump _ _ _).
  assert (frontier s' = frontier s) as Hf by (rewrite Hf0; unfold frontier, s'; cbn; rewrite Hg; cbn; by rewrite lookup_insert_eq).
  eapply (inv_ring s); try done; rewrite ?Hf; try by apply Hi.
  - intros b pc' [t Ht]. cbn. destruct (decide (a = b)) as [->|Hne]; [|by rewrite lookup_insert_ne].
    rewrite lookup_insert_eq, Ha. split; intros [= <-]; done.
  - cbn. lia.
  - unfold all_logs. rewrite Hf. cbn. by rewrite hand_same by (by rewrite Ha).
  - intros b pc'. cbn. rewrite lookup_insert_Some. intros [[<- <-]|[_ Hb']] Hgc; [done|]. by eapply li_gc.
  - intros b pc'. cbn. rewrite lookup_insert_Some. intros [[<- <-]|[Hne Hb']]; [done|].
    pose proof (li_prods _ Hi b pc' Hb') as Hok.
    destruct (in_gc pc') eqn:Hgc; [pose proof (li_gc _ Hi b pc' Hb' Hgc); congruence|]. by destruct pc'.
Qed.

(** ** The stores of [produce_tail] *)

(** The window holds the unfreed positions. *)
Lemma window s : log_inv s → len s - N ≤ frontier s.
Proof. intros Hi. pose proof (all_logs_length s Hi). lia. Qed.

Lemma written_window s a pc t j0 :
  log_inv s → is_consumer s j0 → ls_prods s !! a = Some pc → writes pc = Some t → len s - N ≤ t < len s ∧ 0 ≤ t.
Proof.
  intros Hi Hj0 Ha Ht. pose proof (window s Hi). pose proof (li_heads _ Hi j0 Hj0). pose proof (li_unwritten _ Hi j0 a pc t Hj0 Ha Ht).
  pose proof (li_prods _ Hi a pc Ha) as Hp. destruct pc; try done; injection Ht as <-; cbn in Hp; apply logged_bound in Hp; lia.
Qed.

Lemma written_entry s a pc t j0 :
  log_inv s → is_consumer s j0 → ls_prods s !! a = Some pc → writes pc = Some t →
  let e := pub_at (ls_lm s) t in pe_idx e ≤ t ∧
  match pc with StoreLog _ _ r => pe_is_rel e = r | StoreIdx _ log r => pe_log e = log ∧ pe_is_rel e = r | _ => True end.
Proof.
  intros Hi Hj0 Ha Ht. destruct (written_window s a pc t j0 Hi Hj0 Ha Ht) as [Hw H0].
  destruct (li_entries _ Hi t Hw) as [?|[_ Hpub] _ _|b pc' Hb Ht' Hidx Hd]; [lia|by destruct (Hpub a pc Ha)|].
  assert (a = b) as <- by (by eapply li_writers). rewrite Ha in Hb. injection Hb as <-. done.
Qed.

(** What a step of thread [a] from [pc] to [pc'] that stores to the entry of [t]
    must establish; the other members of the invariant are not concerned. *)
Lemma inv_store s a pc pc' t e' j0 :
  log_inv s → is_consumer s j0 → ls_prods s !! a = Some pc → writes pc = Some t → in_hand pc = None →
  in_hand pc' = None → gc_next pc = None → gc_next pc' = None → in_gc pc' = false → log_pc_ok s pc' →
  (writes pc' = Some t ∨ writes pc' = None) →
  let s' := jump a pc' (with_lm (set_entry t e' (ls_lm s)) s) in
  entry_ok s' t e' → log_inv s'.
Proof.
  intros Hi Hj0 Ha Ht Hh Hh' Hg Hg' Hgc Hok Hw s' He.
  destruct (written_window s a pc t j0 Hi Hj0 Ha Ht) as [Hwin H0].
  assert (frontier s' = frontier s) as Hf by (unfold s'; rewrite frontier_jump; [done|intros _; cbn; rewrite Ha; cbn; congruence]).
  assert (∀ p, pub_done s p → pub_done s' p) as Hpp.
  { intros p [Hp Hn]. split; [done|]. intros b pcb. cbn. rewrite lookup_insert_Some. intros [[<- <-]|[_ Hb]]; [|by eapply Hn].
    destruct Hw as [->| ->]; [|done]. rewrite <- Ht. by apply (Hn a). }
  assert (∀ p, p ≠ t → pub_done s' p → pub_done s p) as Hpp'.
  { intros p Hne [Hp Hn]. split; [done|]. intros b pcb Hb. destruct (decide (a = b)) as [<-|Hab].
    - rewrite Ha in Hb. injection Hb as <-. congruence.
    - apply (Hn b). cbn. by rewrite lookup_insert_ne. }
  destruct Hi as [Hi1 Hi2 Hi3 Hi4 Hi5 Hi6 Hi7 Hi8 Hi9 Hi10 Hi11 Hi12 Hi13].
  constructor; rewrite ?Hf; try done.
  - cbn. by rewrite length_insert.
  - unfold all_logs. rewrite Hf. cbn. rewrite hand_same; [done|]. rewrite Ha. cbn. congruence.
  - intros j b pcb t' Hj. cbn. rewrite lookup_insert_Some. intros [[<- <-]|[_ Hb]] Ht'; [|by eapply Hi8].
    apply (Hi8 j a pc); [done|done|]. destruct Hw; congruence.
  - intros b pcb. cbn. rewrite lookup_insert_Some. intros [[<- <-]|[_ Hb]] Hgcb; [congruence|by eapply Hi9].
  - intros b c pcb pcc t'. cbn. rewrite !lookup_insert_Some. intros [[<- <-]|[Hn1 Hb]] [[<- <-]|[Hn2 Hc]] T1 T2; [done|..].
    + apply (Hi10 a c pc pcc t'); try done. destruct Hw; congruence.
    + apply (Hi10 b a pcb pc t'); try done. destruct Hw; congruence.
    + by apply (Hi10 b c pcb pcc t').
  - intros b pcb. cbn. rewrite lookup_insert_Some. intros [[<- <-]|[_ Hb]]; [exact Hok|exact (Hi11 b pcb Hb)].
  - intros j hp Hj. destruct (Hi12 j hp Hj) as [Hc Hhp]. split; [exact Hc|].
    destruct hp; try done; (split; [by apply Hhp|]); try (split; [by apply Hpp, Hhp|by apply Hhp]); by apply Hpp, Hhp.
  - intros p Hp. change (ls_lm s') with (set_entry t e' (ls_lm s)). destruct (decide (p = t)) as [->|Hne].
    + by rewrite pub_at_set_eq.
    + rewrite pub_at_set_ne by (done || (change (len s') with (len s) in Hp; lia)).
      destruct (Hi13 p Hp) as [? ?|? ? ?|b pcb Hb Htb ? ?]; [by apply entry_unused|apply entry_published; auto|].
      eapply (entry_written s' p _ b pcb); [|done|done|done]. cbn. rewrite lookup_insert_ne; [done|]. intros <-. congruence.
Qed.

(** *** The [fetch_add]: the next position, whose slot is free *)

Lemma fetch_len a log (r : bool) s : len (fetch_step a log r s) = len s + 1.
Proof. unfold len, fetch_step. cbn. rewrite length_app. cbn. lia. Qed.
Lemma fetch_logged a log r s p x : logged s p = Some x → logged (fetch_step a log r s) p = Some x.
Proof. intros Hx. rewrite (logged_app s _ (log, r)); [done|done|]. apply logged_bound in Hx. lia. Qed.
Lemma fetch_new a log (r : bool) s : logged (fetch_step a log r s) (len s) = Some (log, r).
Proof.
  unfold logged, len. destruct (Z.leb_spec 0 (Z.of_nat (length (ls_hist s)))); [|lia]. cbn. rewrite Nat2Z.id.
  by apply list_lookup_middle.
Qed.
Lemma fetch_done a log r s p : pub_done s p → pub_done (fetch_step a log r s) p.
Proof.
  intros [Hp Hn]. split; [fold (len (fetch_step a log r s)); rewrite fetch_len; fold (len s) in Hp; lia|].
  intros b pcb. cbn. rewrite lookup_insert_Some. intros [[<- <-]|[_ Hb]]; [|by eapply Hn]. cbn. fold (len s) in Hp.
  intros [= H]. lia.
Qed.
Lemma fetch_room s a log r : log_inv s → ls_prods s !! a = Some (FetchAdd log r) → len s + 1 - N ≤ frontier s.
Proof. intros Hi Ha. pose proof (all_logs_length s Hi). pose proof (hand_length s a _ log Ha eq_refl). lia. Qed.

Lemma fetch_entries s a log r j0 p :
  log_inv s → is_consumer s j0 → ls_prods s !! a = Some (FetchAdd log r) → let s' := fetch_step a log r s in
  len s + 1 - N ≤ p < len s + 1 → entry_ok s' p (pub_at (ls_lm s) p).
Proof.
  intros Hi Hj0 Ha s' Hp. pose proof (fetch_room s a log r Hi Ha). pose proof count_ge_2. destruct (decide (p = len s)) as [->|Hne].
  - eapply (entry_written s' _ _ a (StoreRel (len s) log r)); [cbn; by rewrite lookup_insert_eq|done| |done].
    rewrite <- (Z.sub_add N (len s)) at 1. unfold pub_at. rewrite slot_next_round. fold (pub_at (ls_lm s) (len s - N)).
    assert (len s - N ≤ len s - N < len s) as Hw by lia. pose proof (li_frontier _ Hi). assert (0 ≤ len s) by (unfold len; lia).
    destruct (li_entries _ Hi _ Hw) as [? ?|? ? ?|b pcb Hb Hbt ? ?]; [lia|lia|].
    pose proof (li_heads _ Hi j0 Hj0). pose proof (li_unwritten _ Hi j0 b pcb _ Hj0 Hb Hbt). lia.
  - destruct (li_entries _ Hi p) as [? ?|? ? ?|b pcb Hb Hbt ? ?]; [lia|by apply entry_unused| |].
    + apply entry_published; [by apply fetch_done|by apply fetch_logged|done].
    + eapply (entry_written s' p _ b pcb); [|done|done|done]. cbn. rewrite lookup_insert_ne; [done|]. intros <-. naive_solver.
Qed.

Lemma inv_fetch_step s a log r j0 :
  log_inv s → is_consumer s j0 → ls_prods s !! a = Some (FetchAdd log r) → log_inv (fetch_step a log r s).
Proof.
  intros Hi Hj0 Ha. set (s' := fetch_step a log r s). pose proof (fetch_len a log r s) as Hl. fold s' in Hl.
  assert (frontier s' = frontier s) as Hf by (unfold s', fetch_step; rewrite frontier_jump; [done|intros _; cbn; by rewrite Ha]).
  pose proof (fetch_room s a log r Hi Ha).
  assert (∀ b pc t, ls_prods s !! b = Some pc → writes pc = Some t → t < len s) as Hold.
  { intros b pc t Hb Ht. destruct (written_window s b pc t j0 Hi Hj0 Hb Ht). lia. }
  pose proof (li_frontier _ Hi) as Hfr. pose proof (li_bound _ Hi) as Hbd.
  constructor; rewrite ?Hf, ?Hl; try (by apply Hi); try lia.
  - done.
  - etrans; [|apply (li_logs _ Hi)]. unfold all_logs. rewrite Hf. cbn. rewrite hand_insert. cbn.
    rewrite drop_app_le by (unfold len in *; lia). rewrite fmap_app. cbn.
    rewrite (hand_split (ls_prods s) a), Ha. cbn. f_equiv. by rewrite app_assoc, <- Permutation_cons_append.
  - intros j Hj. pose proof (li_heads _ Hi j Hj). change (head_of (ls_lm s') j) with (head_of (ls_lm s) j). lia.
  - intros j b pcb t Hj. cbn. rewrite lookup_insert_Some. intros [[<- <-]|[_ Hb]] Ht; [|by eapply (li_unwritten _ Hi)].
    injection Ht as <-. by apply (li_heads _ Hi).
  - intros b pcb. cbn. rewrite lookup_insert_Some. intros [[<- <-]|[_ Hb]] Hg; [done|by eapply (li_gc _ Hi)].
  - intros b c pcb pcc t. cbn. rewrite !lookup_insert_Some. intros [[<- <-]|[_ Hb]] [[<- <-]|[_ Hc]] T1 T2; [done|..].
    + injection T1 as <-. pose proof (Hold c pcc _ Hc T2). lia.
    + injection T2 as <-. pose proof (Hold b pcb _ Hb T1). lia.
    + by eapply (li_writers _ Hi).
  - intros b pcb. cbn. rewrite lookup_insert_Some. intros [[<- <-]|[_ Hb]]; [exact (fetch_new a log r s)|].
    pose proof (li_prods _ Hi b pcb Hb) as Hok. destruct pcb; try done; cbn in *; try by apply fetch_logged.
    destruct Hok as (? & ? & Hx). split; [done|]. split; [done|].
    destruct (logged s (i - N)) as [x|] eqn:E; [|done]. by rewrite (fetch_logged a log r s _ _ E : logged s' _ = _).
  - intros j hp Hj. destruct (li_cons _ Hi j hp Hj) as [Hc Hhp]. split; [exact Hc|].
    destruct hp as [h| |h|h lg|h lg rr|h]; try done; destruct Hhp as (H1 & H2).
    + split; [done|by apply fetch_done].
    + destruct H2 as [H2 H3]. split; [done|]. split; [by apply fetch_done|].
      destruct (logged s h) as [x|] eqn:E; [|done]. by rewrite (fetch_logged a log r s _ _ E : logged s' _ = _).
    + destruct H2 as [H2 H3]. split; [done|]. split; [by apply fetch_done|by apply fetch_logged].
    + split; [done|by apply fetch_done].
  - intros p Hp. by apply (fetch_entries s a log r j0).
Qed.

Lemma inv_fetch_add s a log r j0 :
  log_inv s → is_consumer s j0 → len s + 2 * N < 2 ^ 32 → ls_prods s !! a = Some (FetchAdd log r) →
  log_inv (jump a (StoreRel (lm_tail (ls_lm s)) log r) (with_hist (log, r) (with_lm (set_tail (add32 (lm_tail (ls_lm s)) 1) (ls_lm s)) s))).
Proof.
  intros Hi Hj0 Hs Ha. rewrite (li_tail _ Hi). pose proof count_ge_2 as HN.
  assert (add32 (len s) 1 = len s + 1) as -> by (apply wrap_small; unfold len in *; split; lia).
  by apply (inv_fetch_step s a log r j0).
Qed.

Lemma inv_store_rel s a t log r j0 :
  log_inv s → is_consumer s j0 → ls_prods s !! a = Some (StoreRel t log r) →
  let e := pub_at (ls_lm s) t in log_inv (jump a (StoreLog t log r) (with_lm (set_entry t (mkPub (pe_log e) (pe_idx e) r) (ls_lm s)) s)).
Proof.
  intros Hi Hj0 Ha e. destruct (written_entry s a _ t j0 Hi Hj0 Ha eq_refl) as [Hidx _].
  eapply inv_store; try done; [exact (li_prods _ Hi a _ Ha)|by left|].
  eapply (entry_written _ _ _ a (StoreLog t log r)); try done. cbn. by rewrite lookup_insert_eq.
Qed.

Lemma inv_store_log s a t log r j0 :
  log_inv s → is_consumer s j0 → ls_prods s !! a = Some (StoreLog t log r) →
  let e := pub_at (ls_lm s) t in log_inv (jump a (StoreIdx t log r) (with_lm (set_entry t (mkPub log (pe_idx e) (pe_is_rel e)) (ls_lm s)) s)).
Proof.
  intros Hi Hj0 Ha e. destruct (written_entry s a _ t j0 Hi Hj0 Ha eq_refl) as [Hidx Hr].
  eapply inv_store; try done; [exact (li_prods _ Hi a _ Ha)|by left|].
  eapply (entry_written _ _ _ a (StoreIdx t log r)); try done. cbn. by rewrite lookup_insert_eq.
Qed.

Lemma inv_store_idx s a t log r j0 :
  log_inv s → is_consumer s j0 → len s + 2 * N < 2 ^ 32 → ls_prods s !! a = Some (StoreIdx t log r) →
  let e := pub_at (ls_lm s) t in log_inv (jump a (Published t) (with_lm (set_entry t (mkPub (pe_log e) (add32 t 1) (pe_is_rel e)) (ls_lm s)) s)).
Proof.
  intros Hi Hj0 Hs Ha e. destruct (written_entry s a _ t j0 Hi Hj0 Ha eq_refl) as (_ & Hl & Hr).
  destruct (written_window s a _ t j0 Hi Hj0 Ha eq_refl) as [Hw H0]. pose proof count_ge_2.
  assert (add32 t 1 = t + 1) as -> by (apply wrap_small; split; lia).
  eapply inv_store; try done; [by right|]. apply entry_published; [|subst e; cbn; rewrite Hl, Hr; exact (li_prods _ Hi a _ Ha)|done].
  split; [split; [done|apply Hw]|]. intros b pcb. cbn. rewrite lookup_insert_Some. intros [[<- <-]|[Hne Hb]] Ht; [done|].
  apply Hne. by apply (li_writers _ Hi a b (StoreIdx t log r) pcb t).
Qed.

(** ** The loops of [perform_gc] *)

Lemma next_round_small s i : len s + 2 * N < 2 ^ 32 → 0 ≤ i ≤ len s + N → next_round i = i + N.
Proof. intros Hs Hb. apply wrap_small. split; lia. Qed.

Lemma inv_scan s a (i : nat) new_b sb j0 :
  log_inv s → is_consumer s j0 → len s + 2 * N < 2 ^ 32 → ls_prods s !! a = Some (Scan i new_b sb) →
  ∃ s', log_advance a (Scan i new_b sb) s = Some s' ∧ log_inv s'.
Proof.
  intros Hi Hj0 Hs Ha. pose proof (li_gc _ Hi a _ Ha eq_refl) as Hg. destruct (li_prods _ Hi a _ Ha) as [Hb Hsub].
  pose proof (li_bound _ Hi) as Hbd. pose proof count_ge_2.
  assert (∀ pc, gc_next pc = None → frontier (jump a pc s) = frontier s) as Hf
    by (intros pc Hpc; apply frontier_jump; intros _; by rewrite Ha, Hpc).
  cbn [log_advance gc_advance]. destruct (Nat.ltb_spec i NODE_COUNT) as [Hlt|Hge].
  - destruct ((i =? lm_node_id (ls_lm s))%nat || negb (is_subscribed (ls_lm s) i)) eqn:Hskip.
    + eexists. split; [done|]. apply inv_jump; try done; [by rewrite Ha|by rewrite Ha|by apply Hf|].
      split; [done|]. intros j Hj Hji. destruct (decide (j = i)) as [->|]; [|apply Hsub; [done|lia]].
      destruct Hj as (Hj & Hne & _). apply orb_true_iff in Hskip as [?%Nat.eqb_eq|Hn]; [done|]. by rewrite Hj in Hn.
    + apply orb_false_iff in Hskip as [Hne%Nat.eqb_neq Hn%negb_false_iff]. eexists. split; [done|].
      assert (is_consumer s i) as Hc by done. pose proof (li_heads _ Hi i Hc) as Hh.
      rewrite (next_round_small s) by (done || lia).
      set (n := if _ && _ then _ else _). assert (n ≤ new_b ∧ n ≤ head_of (ls_lm s) i + N ∧ bound (ls_lm s) ≤ n) as (H1 & H2 & H3).
      { unfold n. destruct (Z.ltb_spec (head_of (ls_lm s) i + N) new_b), (Z.leb_spec (bound (ls_lm s)) (head_of (ls_lm s) i + N)); cbn; lia. }
      apply inv_jump; try done; [by rewrite Ha|by rewrite Ha|by apply Hf|]. split; [lia|].
      intros j Hj Hji. split; [done|]. destruct (decide (j = i)) as [->|]; [done|]. destruct (Hsub j Hj); lia.
  - destruct (Z.ltb_spec new_b (bound (ls_lm s))) as [?|_]; [lia|]. eexists. split; [done|].
    assert (sb = true) as ->. { apply (Hsub j0 Hj0). destruct Hj0 as (_ & _ & ?). lia. }
    apply inv_jump; try done; [by rewrite Ha|by rewrite Ha| |].
    + unfold frontier. cbn. rewrite Hg. cbn. by rewrite lookup_insert_eq, Ha.
    + split; [lia|]. intros j Hj. apply Hsub; [done|]. destruct Hj as (_ & _ & ?). lia.
Qed.

Lemma inv_load_log s a i new_b j0 :
  log_inv s → is_consumer s j0 → ls_prods s !! a = Some (LoadLog i new_b) →
  log_inv (jump a (if i =? new_b then StoreBound new_b else EnqueueLog i new_b (pe_log (pub_at (ls_lm s) i))) s).
Proof.
  intros Hi Hj0 Ha. destruct (li_prods _ Hi a _ Ha) as [Hb Hbok]. pose proof (li_gc _ Hi a _ Ha eq_refl) as Hg.
  pose proof (li_bound _ Hi). pose proof (gc_frontier s a _ i Hi Ha eq_refl eq_refl) as Hf.
  destruct (Z.eqb_spec i new_b) as [<-|Hne].
  - apply inv_jump; try done; [by rewrite Ha|by rewrite Ha|apply frontier_jump; by rewrite Ha|]. split; [lia|done].
  - apply inv_jump; try done; [by rewrite Ha|by rewrite Ha|apply frontier_jump; by rewrite Ha|].
    split; [lia|]. split; [done|]. pose proof (window s Hi). pose proof (Hbok j0 Hj0). pose proof (li_heads _ Hi j0 Hj0).
    rewrite <- (Z.sub_add N i) at 2. unfold pub_at. rewrite slot_next_round. fold (pub_at (ls_lm s) (i - N)).
    destruct (li_entries _ Hi (i - N)) as [? ?|_ -> _|b pcb Hb' Ht _ _]; [lia|lia|done|].
    pose proof (li_unwritten _ Hi j0 b pcb _ Hj0 Hb' Ht). lia.
Qed.

(** ** Every step of a thread *)

Lemma advance_inv s a pc j0 :
  log_inv s → is_consumer s j0 → len s + 2 * N < 2 ^ 32 → ls_prods s !! a = Some pc →
  ∃ s', log_advance a pc s = Some s' ∧ log_inv s'.
Proof.
  intros Hi Hj0 Hs Ha. pose proof (li_gc _ Hi a pc Ha) as Hg. pose proof (li_bound _ Hi). pose proof (li_frontier _ Hi).
  destruct pc; try (by eapply inv_scan); try (by destruct (li_prods _ Hi a _ Ha)); eexists; (split; [done|]);
    try exact Hi.
  - by apply inv_dequeue; try done; rewrite Ha.
  - destruct (ls_gc s) as [b|] eqn:E; [done|]. by apply inv_lock.
  - apply inv_dequeue; try done; try (by rewrite Ha); try (by intros; auto).
    rewrite (next_round_small s) by (done || lia). split; [lia|]. lia.
  - by eapply inv_load_log.
  - by eapply inv_enqueue_log.
  - by eapply inv_store_bound.
  - apply inv_dequeue; try done; try (by rewrite Ha); intros; auto.
  - by eapply inv_unlock.
  - by eapply inv_fetch_add.
  - by eapply inv_store_rel.
  - by eapply inv_store_log.
  - by eapply inv_store_idx.
Qed.

(** ** The consumers *)

Lemma entry_of_done s p :
  log_inv s → pub_done s p → frontier s ≤ p →
  logged s p = Some (pe_log (pub_at (ls_lm s) p), pe_is_rel (pub_at (ls_lm s) p)).
Proof.
  intros Hi [Hp Hn] Hf. pose proof (window s Hi). fold (len s) in Hp.
  destruct (li_entries _ Hi p) as [? ?|? ? ?|b pcb Hb Hbt ? ?]; [lia|lia|done|]. by destruct (Hn b pcb).
Qed.

Lemma entry_frame s s' p e : ls_hist s' = ls_hist s → ls_prods s' = ls_prods s → entry_ok s p e → entry_ok s' p e.
Proof.
  destruct s, s'; cbn. intros -> -> [? ?|? ? ?|? ? ? ? ? ?]; [by apply entry_unused|by apply entry_published|by eapply entry_written].
Qed.

Lemma inv_set_cons s c :
  log_inv s → (∀ j hp, c !! j = Some hp → head_ok s j hp) →
  log_inv (mkLogSys (ls_lm s) (ls_gc s) (ls_prods s) c (ls_hist s)).
Proof. intros [] Hc. constructor; try done. intros p Hp. apply (entry_frame s); auto. Qed.

Lemma head_advance_ok s j hp :
  log_inv s → len s + 2 * N < 2 ^ 32 → head_ok s j hp → head_ok s j (head_advance hp (ls_lm s)).
Proof.
  intros Hi Hs [Hc Hhp]. pose proof (li_heads _ Hi j Hc). pose proof (li_bound _ Hi). pose proof (window s Hi). pose proof count_ge_2.
  destruct hp as [h| |h|h log|h log r|h]; cbn in Hhp |- *; try done.
  - assert (add32 h 1 = h + 1) as -> by (apply wrap_small; split; lia). subst h.
    destruct (Z.eqb_spec (pe_idx (pub_at (ls_lm s) (head_of (ls_lm s) j))) (head_of (ls_lm s) j + 1)) as [Hidx|]; [|done].
    split; [exact Hc|]. split; [done|]. destruct (decide (head_of (ls_lm s) j = len s)) as [Heq|Hne].
    + exfalso. rewrite Heq in Hidx. rewrite <- (Z.sub_add N (len s)) in Hidx at 1. unfold pub_at in Hidx. rewrite slot_next_round in Hidx.
      fold (pub_at (ls_lm s) (len s - N)) in Hidx. destruct (li_entries _ Hi (len s - N)) as [? ?|? ? ?|? ? ? ? ? ?]; lia.
    + destruct (li_entries _ Hi (head_of (ls_lm s) j)) as [? ?|? ? ?|? ? ? ? ? ?]; [lia|lia|done|lia].
  - destruct Hhp as [-> Hp]. split; [exact Hc|]. do 2 (split; [done|]). rewrite entry_of_done by (done || lia). done.
  - destruct Hhp as (-> & Hp & Hl). split; [exact Hc|]. do 2 (split; [done|]).
    rewrite entry_of_done in Hl |- * by (done || lia). by injection Hl as ->.
  - split; [exact Hc|]. by destruct Hhp as (-> & Hp & _).
Qed.

Lemma inv_consume_head s j h :
  log_inv s → len s + 2 * N < 2 ^ 32 → ls_cons s !! j = Some (StoreHead h) →
  let lm' := set_sub j (mkSub (add32 h 1) (is_subscribed (ls_lm s) j)) (ls_lm s) in
  (∀ k, is_consumer (mkLogSys lm' (ls_gc s) (ls_prods s) (delete j (ls_cons s)) (ls_hist s)) k ↔ is_consumer s k) ∧
  log_inv (mkLogSys lm' (ls_gc s) (ls_prods s) (delete j (ls_cons s)) (ls_hist s)).
Proof.
  intros Hi Hs Hj lm'. destruct (li_cons _ Hi j _ Hj) as [Hc [-> [Hlen Hn]]]. fold (len s) in Hlen. pose proof count_ge_2.
  assert (add32 (head_of (ls_lm s) j) 1 = head_of (ls_lm s) j + 1) as Hadd by (apply wrap_small; split; lia).
  assert (j < length (subs (ls_lm s)))%nat as Hjl by (rewrite (li_subs _ Hi); apply Hc).
  assert (head_of lm' j = head_of (ls_lm s) j + 1) as Hhj
    by (unfold head_of, sub_at, lm'; cbn; rewrite list_lookup_insert_eq by done; exact Hadd).
  assert (∀ k, k ≠ j → sub_at lm' k = sub_at (ls_lm s) k) as Hne
    by (intros k Hk; unfold sub_at, lm'; cbn; by rewrite list_lookup_insert_ne).
  assert (∀ k, is_subscribed lm' k = is_subscribed (ls_lm s) k) as Hsub.
  { intros k. destruct (decide (k = j)) as [->|Hk]; [|unfold is_subscribed; by rewrite Hne].
    unfold is_subscribed at 1, sub_at, lm'. cbn. by rewrite list_lookup_insert_eq. }
  assert (∀ k, head_of (ls_lm s) k ≤ head_of lm' k) as Hmono.
  { intros k. destruct (decide (k = j)) as [->|Hk]; [lia|]. unfold head_of. by rewrite Hne. }
  set (s' := mkLogSys _ _ _ _ _). assert (∀ k, is_consumer s' k ↔ is_consumer s k) as Hcon
    by (intros k; unfold is_consumer; cbn -[is_subscribed]; by rewrite Hsub).
  split; [done|]. assert (∀ b : Z, bound_ok s b → bound_ok s' b) as Hbok.
  { intros b Hb k Hk%Hcon. pose proof (Hb k Hk). pose proof (Hmono k). change (ls_lm s') with lm'. lia. }
  constructor; try (by apply Hi).
  - cbn. rewrite length_insert. apply Hi.
  - intros k Hk%Hcon. change (ls_lm s') with lm'. pose proof (li_heads _ Hi k Hk). change (frontier s') with (frontier s).
    change (len s') with (len s). destruct (decide (k = j)) as [->|Hkj]; [lia|]. unfold head_of. rewrite Hne by done. done.
  - intros k a pc t Hk%Hcon Ha Ht. change (ls_lm s') with lm'. pose proof (li_unwritten _ Hi k a pc t Hk Ha Ht).
    destruct (decide (k = j)) as [->|Hkj]; [|unfold head_of; by rewrite Hne].
    pose proof (Hn a pc Ha). assert (t ≠ head_of (ls_lm s) j) by congruence. lia.
  - intros a pc Ha. pose proof (li_prods _ Hi a pc Ha) as Hok. destruct pc; try done; cbn -[bound_ok] in *.
    + destruct Hok as [Hb Hk]. split; [done|]. intros k Hk'%Hcon Hki. destruct (Hk k Hk' Hki).
      pose proof (Hmono k). split; [done|lia].
    + split; [apply Hok|]. apply Hbok, Hok.
    + split; [apply Hok|]. split; [apply Hbok, Hok|apply Hok].
    + split; [apply Hok|]. apply Hbok, Hok.
  - intros k hp. cbn. rewrite lookup_delete_Some. intros [Hkj Hk].
    assert (head_of lm' k = head_of (ls_lm s) k) as Heq by (unfold head_of; rewrite Hne; done).
    destruct (li_cons _ Hi k hp Hk) as [Hck Hhp]. split; [by apply Hcon|]. change (ls_lm s') with lm'.
    destruct hp; rewrite ?Heq; exact Hhp.
  - intros p Hp. apply (entry_frame s); [done..|]. by apply (li_entries _ Hi).
Qed.

Lemma log_inv_return s a pc :
  log_inv s → ls_prods s !! a = Some pc → pc = Refused ∨ (∃ t, pc = Published t) →
  log_inv (mkLogSys (ls_lm s) (ls_gc s) (delete a (ls_prods s)) (ls_cons s) (ls_hist s)).
Proof.
  intros Hi Ha Hpc. set (s' := mkLogSys _ _ _ _ _).
  assert (in_hand pc = None ∧ writes pc = None ∧ gc_next pc = None ∧ in_gc pc = false) as (H1 & H2 & H3 & H4)
    by (destruct Hpc as [->|[t ->]]; done).
  assert (frontier s' = frontier s) as Hf.
  { unfold frontier, s'. cbn. destruct (ls_gc s) as [b|]; [|done]. cbn. destruct (decide (a = b)) as [<-|Hne].
    - rewrite lookup_delete_eq, Ha. cbn. by rewrite H3.
    - by rewrite lookup_delete_ne. }
  eapply (inv_ring s); try done; rewrite ?Hf; try by apply Hi.
  - intros b pc' [t Ht]. cbn. rewrite lookup_delete_Some. split; [naive_solver|]. intros Hb. split; [|done].
    intros <-. congruence.
  - unfold all_logs. rewrite Hf. cbn. by rewrite (hand_split (ls_prods s) a), Ha; cbn; rewrite H1.
  - intros b pc'. cbn. rewrite lookup_delete_Some. intros [_ Hb]. by eapply li_gc.
  - intros b pc'. cbn. rewrite lookup_delete_Some. intros [_ Hb]. exact (li_prods _ Hi b pc' Hb).
Qed.

(** ** Reachable states *)

Lemma log_inv_init me sub : log_inv (log_sys_init me sub).
Proof.
  pose proof count_ge_2.
  assert (next_round 0 = N) as Hr by (apply wrap_small; split; lia).
  assert (frontier (log_sys_init me sub) = 0) as Hf by (unfold frontier; cbn; rewrite Hr; lia).
  assert (∀ j, is_consumer (log_sys_init me sub) j → head_of (ls_lm (log_sys_init me sub)) j = 0) as Hh.
  { intros j (_ & _ & Hj). unfold head_of, sub_at. cbn. by rewrite list_lookup_fmap, lookup_seq_lt by done. }
  constructor; rewrite ?Hf; try (intros; by rewrite lookup_empty in *); try done.
  - cbn. by rewrite length_map, length_seq.
  - cbn. by rewrite length_map, length_seq.
  - cbn. rewrite Hr. lia.
  - unfold all_logs. cbn. unfold logs_in_hand. rewrite map_to_list_empty. cbn.
    rewrite drop_nil, app_nil_r. done.
  - intros j Hj. rewrite (Hh j Hj). done.
  - intros p Hp. change (len (log_sys_init me sub)) with 0 in Hp. apply entry_unused; [lia|]. unfold pub_at. cbn. rewrite list_lookup_fmap.
    rewrite lookup_seq_lt by apply get_idx_lt. done.
Qed.

Lemma advance_static a pc s s' : log_advance a pc s = Some s' →
  len s ≤ len s' ∧ subs (ls_lm s') = subs (ls_lm s) ∧ lm_node_id (ls_lm s') = lm_node_id (ls_lm s) ∧ ls_cons s' = ls_cons s.
Proof.
  destruct pc; cbn [log_advance gc_advance]; unfold dequeue_log; repeat case_match; intros [= <-]; try done.
  unfold len. cbn. rewrite length_app. split; [lia|done].
Qed.

Lemma step_len s s' : log_sys_step s s' → len s ≤ len s'.
Proof. intros [ | |? ? ? ? _ H| | | | | ]; try done. by apply advance_static in H as [? _]. Qed.

Lemma log_step_inv s s' j0 :
  log_inv s → is_consumer s j0 → len s + 2 * N < 2 ^ 32 → log_sys_step s s' → log_inv s' ∧ is_consumer s' j0.
Proof.
  intros Hi Hj0 Hs Hst. revert Hi Hj0 Hs.
  destruct Hst as [a s Ha|a log r s Ha|a pc s s' Ha Hadv|a pc lm g m c x Ha Hpc|j lm g m c x H1 H2 H3 Hj|j hp lm g m c x Hj|j lm g m c x Hj|j h lm g m c x Hj];
    intros Hi Hj0 Hs.
  - split; [|exact Hj0]. apply inv_jump; try done; [by rewrite Ha|by rewrite Ha|]. apply frontier_jump. by rewrite Ha.
  - split; [|exact Hj0]. apply inv_jump; try done; [by rewrite Ha|by rewrite Ha|]. apply frontier_jump. by rewrite Ha.
  - destruct (advance_inv s a pc j0 Hi Hj0 Hs Ha) as (s1 & Hadv1 & Hi1). rewrite Hadv in Hadv1. injection Hadv1 as <-.
    split; [done|]. apply advance_static in Hadv as (_ & Hsub & Hid & _).
    unfold is_consumer, is_subscribed, sub_at. by rewrite Hsub, Hid.
  - split; [|exact Hj0]. by eapply (log_inv_return (mkLogSys lm g m c x)).
  - split; [|exact Hj0]. apply (inv_set_cons (mkLogSys lm g m c x)); [done|]. intros k hp. rewrite lookup_insert_Some.
    intros [[<- <-]|[_ Hk]]; [done|exact (li_cons _ Hi k hp Hk)].
  - split; [|exact Hj0]. apply (inv_set_cons (mkLogSys lm g m c x)); [done|]. intros k hp'. rewrite lookup_insert_Some.
    intros [[<- <-]|[_ Hk]]; [|exact (li_cons _ Hi k hp' Hk)].
    apply (head_advance_ok (mkLogSys lm g m c x)); [done..|]. exact (li_cons _ Hi j hp Hj).
  - split; [|exact Hj0]. apply (inv_set_cons (mkLogSys lm g m c x)); [done|]. intros k hp'. rewrite lookup_delete_Some.
    intros [_ Hk]. exact (li_cons _ Hi k hp' Hk).
  - destruct (inv_consume_head (mkLogSys lm g m c x) j h Hi Hs Hj) as [Hc Hi']. split; [exact Hi'|]. by apply Hc.
Qed.

Lemma log_reachable_inv me sub s j0 :
  log_sys_reachable me sub s → sub j0 = true → j0 ≠ me → (j0 < NODE_COUNT)%nat → len s + 2 * N < 2 ^ 32 →
  log_inv s ∧ is_consumer s j0.
Proof.
  intros Hr Hs0 Hne Hlt. revert s Hr. apply (rtc_ind_r (λ s, len s + 2 * N < 2 ^ 32 → log_inv s ∧ is_consumer s j0)).
  - intros Hs. split; [apply log_inv_init|]. split; [|done]. unfold is_subscribed, sub_at. cbn.
    by rewrite list_lookup_fmap, lookup_seq_lt by done.
  - intros s1 s2 _ Hst IH Hs. pose proof (step_len _ _ Hst). destruct IH as [Hi Hc]; [lia|]. apply (log_step_inv s1); [done..|lia|done].
Qed.

(** The log of a position that is not freed is nowhere else. *)
Lemma once_logged s (q : Z) log r :
  log_inv s → frontier s ≤ q → ls_hist s !! Z.to_nat q = Some (log, r) →
  (log ∉ freelist (ls_lm s)) ∧ (∀ a pc, ls_prods s !! a = Some pc → in_hand pc ≠ Some log) ∧
  ∀ p r', frontier s ≤ p → ls_hist s !! Z.to_nat p = Some (log, r') → p = q.
Proof.
  intros Hi Hf Hq. pose proof (li_bound _ Hi). assert (NoDup (all_logs s)) as Hnd by (rewrite (li_logs _ Hi); apply NoDup_seq).
  assert (∀ p r', frontier s ≤ p → ls_hist s !! Z.to_nat p = Some (log, r') →
    (drop (Z.to_nat (frontier s)) (ls_hist s)).*1 !! (Z.to_nat p - Z.to_nat (frontier s))%nat = Some log) as Hin.
  { intros p r' Hp Hx. rewrite list_lookup_fmap, lookup_drop.
    replace (Z.to_nat (frontier s) + (Z.to_nat p - Z.to_nat (frontier s)))%nat with (Z.to_nat p) by lia. by rewrite Hx. }
  apply NoDup_app in Hnd as (_ & Hfree & Hnd). apply NoDup_app in Hnd as (_ & Hhand & Hnd).
  pose proof (Hin q r Hf Hq) as Hlq. assert (log ∈ (drop (Z.to_nat (frontier s)) (ls_hist s)).*1) as Hel by (by eapply list_elem_of_lookup_2).
  split; [|split].
  - intros Hin'. apply (Hfree log Hin'). apply elem_of_app. by right.
  - intros a pc Ha Hh. apply (Hhand log); [|done]. rewrite (hand_split _ a), Ha. cbn. rewrite Hh. left.
  - intros p r' Hp Hx. pose proof (NoDup_lookup _ _ _ _ Hnd (Hin p r' Hp Hx) Hlq). lia.
Qed.
End facts.

(** ** Properties *)

Section properties.
Context `{cfg : Config} {ok : ConfigOk cfg}.
Implicit Types (s : log_system) (a b log : nat) (pc : log_pc) (t h p : Z).

(** C27: a log goes from the thread that published it to every consumer, and to
    nobody else before they are done, for all interleavings of the accesses to
    the manager. While a node with a subscriber runs (and the positions have not
    wrapped): no thread fails an assertion; each log is exactly once in the free
    list, in the hands of a thread, or at a position not freed; a consumer that
    is at the use of the entry it took has the log and the release flag that were
    published at its position [h], and this log is not free, in nobody's hands,
    and at no other position not freed. *)
Theorem log_handover_exact (me : nat) (sub : nat → bool) s (j0 : nat) :
  log_sys_reachable me sub s → sub j0 = true → j0 ≠ me → (j0 < NODE_COUNT)%nat →
  Z.of_nat (length (ls_hist s) + 2 * LOG_COUNT) < 2 ^ 32 →
  (∀ a pc, ls_prods s !! a = Some pc → log_advance a pc s ≠ None) ∧
  all_logs s ≡ₚ seq 0 LOG_COUNT ∧
  ∀ (j : nat) h log r, ls_cons s !! j = Some (Process h log r) →
    h = head_of (ls_lm s) j ∧ ls_hist s !! Z.to_nat h = Some (log, r) ∧
    (log ∉ freelist (ls_lm s)) ∧
    (∀ a pc, ls_prods s !! a = Some pc → in_hand pc ≠ Some log) ∧
    ∀ p r', frontier s ≤ p → ls_hist s !! Z.to_nat p = Some (log, r') → p = h.
Proof.
  intros Hr Hs0 Hne Hlt Hs. assert (len s + 2 * Z.of_nat LOG_COUNT < 2 ^ 32) as Hs' by (unfold len; lia).
  destruct (log_reachable_inv me sub s j0 Hr Hs0 Hne Hlt Hs') as [Hi Hc]. split; [|split; [apply (li_logs _ Hi)|]].
  { intros a pc Ha Hn. destruct (advance_inv s a pc j0 Hi Hc Hs' Ha) as (s' & ? & _). congruence. }
  intros j h log r Hj. destruct (li_cons _ Hi j _ Hj) as [Hcj (-> & [Hp _] & Hlog)].
  pose proof (li_heads _ Hi j Hcj). pose proof (li_bound _ Hi).
  unfold logged in Hlog. destruct (Z.leb_spec 0 (head_of (ls_lm s) j)); [|done].
  split; [done|]. split; [done|]. apply (once_logged s _ log r); [done|lia|done].
Qed.
End properties.

(** ** Examples in the small configuration *)

(** A schedule: a step of a thread (its call of [get_new_log], or its next
    access), a call of [produce_tail], a step of a consumer. *)
Inductive log_choice := Step (a : nat) | Produce (a : nat) (r : bool) | Consume (j : nat).

Section run.
Context `{cfg : Config}.
Implicit Types (s : log_system).

Definition log_choose (c : log_choice) s : option log_system :=
  match c with
  | Step a => match ls_prods s !! a with None => Some (jump a FirstDequeue s) | Some pc => log_advance a pc s end
  | Produce a r => match ls_prods s !! a with Some (Holding log) => Some (jump a (FetchAdd log r) s) | _ => None end
  | Consume j =>
      let lm := ls_lm s in
      match ls_cons s !! j with
      | None =>
          if is_subscribed lm j && negb (j =? lm_node_id lm)%nat && (j <? NODE_COUNT)%nat
          then Some (mkLogSys lm (ls_gc s) (ls_prods s) (<[j := LoadIdx (head_of lm j)]> (ls_cons s)) (ls_hist s)) else None
      | Some hp => Some (mkLogSys lm (ls_gc s) (ls_prods s) (<[j := head_advance hp lm]> (ls_cons s)) (ls_hist s))
      end
  end.
Fixpoint log_run (cs : list log_choice) s : option log_system :=
  match cs with [] => Some s | c :: cs => s ← log_choose c s; log_run cs s end.

Lemma log_run_steps cs s s' : log_run cs s = Some s' → rtc log_sys_step s s'.
Proof.
  revert s. induction cs as [|c cs IH]; intros s; cbn; [by intros [= <-]|].
  destruct (log_choose c s) as [s1|] eqn:Hc; [|done]. intros Hrun%IH. eapply rtc_l; [|exact Hrun]. clear Hrun IH.
  destruct c as [a|a r|j]; cbn in Hc.
  - destruct (ls_prods s !! a) as [pc|] eqn:Ha; [by eapply lss_advance|]. injection Hc as <-. by apply lss_get_new_log.
  - destruct (ls_prods s !! a) as [[]|] eqn:Ha; try done. injection Hc as <-. by apply lss_produce_tail.
  - destruct s as [lm g m c x]; cbn in *. destruct (c !! j) as [hp|] eqn:Hj.
    + injection Hc as <-. by apply lss_consumer.
    + destruct (is_subscribed lm j && _ && _) eqn:E; [|done]. injection Hc as <-.
      apply andb_true_iff in E as [[E1 E2%negb_true_iff%Nat.eqb_neq]%andb_true_iff E3%Nat.ltb_lt]. by apply lss_take_head.
Qed.
End run.

Section examples.
Let cfg : Config := small_config.
#[local] Existing Instance cfg.
#[local] Existing Instance small_config_ok.

(** Thread 1 of node 0 publishes its log, the consumer of node 1 takes it. *)
Definition handover_run : option log_system :=
  log_run (replicate 2 (Step 1) ++ [Produce 1 true] ++ replicate 4 (Step 1) ++ replicate 4 (Consume 1)) (log_sys_init 0 (λ _, true)).

Lemma log_handover_exact_witness :
  ∃ s, handover_run = Some s ∧ ls_cons s !! 1%nat = Some (Process 0 0 true) ∧ ls_hist s !! 0%nat = Some (0%nat, true) ∧
    (0%nat ∉ freelist (ls_lm s)).
Proof.
  destruct handover_run as [s|] eqn:E; [|vm_compute in E; discriminate]. exists s. split; [reflexivity|].
  assert (log_sys_reachable 0 (λ _, true) s) as Hr by exact (log_run_steps _ _ _ E).
  vm_compute in E. injection E as <-. split; [reflexivity|].
  destruct (log_handover_exact 0 (λ _, true) _ 1 Hr) as (_ & _ & H); [reflexivity|discriminate|apply le_n|reflexivity|].
  destruct (H 1%nat 0 0%nat true) as (_ & Hh & Hf & _); [reflexivity|]. split; [exact Hh|exact Hf].
Defined.

(** The collection of a node without subscribers loads [entry.log] before it
    looks at [entry.idx]. Thread 1 holds log 0. Thread 3 collects: it loads the log
    of position 0, still the 0 of the constructor; thread 2 publishes log 1 there;
    thread 3 finds the position published and frees log 0. Then threads 1 and 3
    both hold log 0, and log 1 is lost. *)
Theorem unsubscribed_gc_duplicates_log :
  ∃ s, log_sys_reachable 0 (λ _, false) s ∧
    ls_prods s !! 1%nat = Some (Holding 0) ∧ ls_prods s !! 3%nat = Some (Holding 0) ∧
    ls_prods s !! 2%nat = Some (Published 0) ∧ ls_hist s = [(1%nat, true)].
Proof.
  destruct (log_run (replicate 2 (Step 1) ++ replicate 2 (Step 2) ++ replicate 8 (Step 3) ++
    Produce 2 true :: replicate 4 (Step 2) ++ replicate 7 (Step 3)) (log_sys_init 0 (λ _, false))) as [s|] eqn:E;
    [|vm_compute in E; discriminate].
  exists s. split; [exact (log_run_steps _ _ _ E)|]. vm_compute in E. injection E as <-. vm_compute. tauto.
Qed.
End examples.
