(* ===== verification/CacheInfo.v ===== *)
(** CacheInfo: [include/cacheInfo.hpp], what a node knows of the other nodes'
    releases: the clock of the last release it has consumed from each node, and
    (for a lazily invalidating build) the tracker of stale lines. [process_log]
    is the consumption of one log. The statistics counters and the mutexes have
    no value here; the mutex protocol is in ThreadOps. *)
From S2P Require Import Prelude Config VectorClock ClGroup FlushUtils ClTracker SpmcQueue.
From S2P Require Import LogManager.
#[local] Open Scope word_scope.

(** ** Definitions *)

Record CacheInfo := mkCache { ci_clock : vclock; inv_cls : CacheLineTracker }.

Section cache_info.
Context `{cfg : Config}.

Definition cache_info_new : CacheInfo := mkCache vc_init ∅.

(** The [EAGER_INVALIDATE] loop over a run of lines from [cl_addr]. *)
Definition invalidate_lines (cl_addr count : Z) : trace :=
  concat (map (λ i, do_invalidate (cl_addr +w wrap64 (i * CACHE_LINE_SIZE))) (seqZ 0 count)).

(** One turn of the loop of [process_log]; the flag is its early [return]. *)
Definition process_entry (entry : Z) (ci : CacheInfo) : option (trace * CacheInfo * bool) :=
  if negb LOCAL_CL_TABLE then Some (do_invalidate (entry <<w VIRTUAL_CL_SHIFT), ci, false)
  else if is_length_based entry then
    let length := wrap32 (get_length entry) in
    if WBINVD_THRESHOLD <=? length then Some (wbinvd, ci, true)
    else
      let cl_addr := get_ptr entry in
      if EAGER_INVALIDATE
      then Some (invalidate_lines cl_addr (length * GROUP_SIZE * CL_EXPAND_FACTOR), ci, false)
      else
        let mark i t := mark_dirty_with_mask (cl_addr +w i)
                          (FULL_MASK <<w get_mask16_to_64_shift cl_addr) t in
        Some ([], mkCache (ci_clock ci) (foldl (flip mark) (inv_cls ci) (seqZ 0 length)), false)
  else if EAGER_INVALIDATE then
    addrs ← mask_cl_range (get_ptr entry) (get_mask16 entry);
    Some (concat (map (λ cl_addr, invalidate_lines cl_addr CL_EXPAND_FACTOR) addrs), ci, false)
  else
    Some ([], mkCache (ci_clock ci)
      (mark_dirty_with_mask (get_ptr entry) (get_mask16 entry <<w get_mask16_to_64_shift entry)
         (inv_cls ci)), false).

Fixpoint process_entries (entries : list Z) (ci : CacheInfo) : option (trace * CacheInfo) :=
  match entries with
  | [] => Some ([], ci)
  | entry :: entries =>
      '(tr, ci, stop) ← process_entry entry ci;
      if stop : bool then Some (tr, ci)
      else '(tr', ci) ← process_entries entries ci; Some (tr ++ tr', ci)
  end.

Definition process_log (log : Log) (ci : CacheInfo) : option (trace * CacheInfo) :=
  process_entries (log_entries log) ci.

Definition update_clock (i : nat) (val : Z) (ci : CacheInfo) : CacheInfo :=
  mkCache (<[i := val]> (ci_clock ci)) (inv_cls ci).

Definition get_clock (i : nat) (ci : CacheInfo) : Z := vc_get (ci_clock ci) i.

(** [compare_exchange_weak] reloads [old] when it fails; alone it succeeds. *)
Definition update_clock_monotonic (i : nat) (val : Z) (ci : CacheInfo) : CacheInfo :=
  if val <=? get_clock i ci then ci else update_clock i val ci.

(** The hardware lines of a virtual line, by address. *)
Definition hw_addrs (l : Z) : list Z :=
  map (λ i, l * VIRTUAL_CL_SIZE + i * CACHE_LINE_SIZE) (seqZ 0 CL_EXPAND_FACTOR).

(** A trace drops the address from the cache. *)
Definition invalidates (tr : trace) (a : Z) : Prop := WbInvd ∈ tr ∨ Invalidate a ∈ tr.
Definition invalidates_line (tr : trace) (l : Z) : Prop := ∀ a, a ∈ hw_addrs l → invalidates tr a.

(** A log entry as the write path makes them. *)
Definition log_entry_wf (e : Z) : Prop := length_wf e ∨ mask_wf e.
End cache_info.

(** ** Lemmas *)

Section facts.
Context `{cfg : Config} {ok : ConfigOk cfg} (flushing : NO_FLUSH = false)
  (tabled : LOCAL_CL_TABLE = true) (eager : EAGER_INVALIDATE = true).
Implicit Types (l e : Z) (tr : trace).

Lemma expand_factor_range : 1 ≤ CL_EXPAND_FACTOR ≤ 32 ∧ VIRTUAL_CL_SIZE = 64 * CL_EXPAND_FACTOR.
Proof.
  pose proof expand_range. unfold VIRTUAL_CL_SIZE, CL_EXPAND_FACTOR, CACHE_LINE_SIZE.
  pose proof (Z.pow_le_mono_r 2 0 CL_EXPAND_SHIFT). pose proof (Z.pow_le_mono_r 2 CL_EXPAND_SHIFT 5). lia.
Qed.

(** One event for each hardware line of a run. *)
Lemma elem_of_line_run (f : Z → event) a count ev :
  0 ≤ a → 0 ≤ count → a + count * 64 ≤ 2 ^ 64 →
  ev ∈ concat (map (λ i, [f (a +w wrap64 (i * CACHE_LINE_SIZE))]) (seqZ 0 count)) ↔
    ∃ i, 0 ≤ i < count ∧ ev = f (a + i * 64).
Proof.
  intros Ha Hc Hmax. rewrite list_elem_of_In, in_concat.
  setoid_rewrite in_map_iff. setoid_rewrite <- list_elem_of_In. setoid_rewrite elem_of_seqZ.
  unfold add64, CACHE_LINE_SIZE. split.
  - intros (x & (i & <- & Hi) & Hev%list_elem_of_singleton). exists i. split; [lia|].
    rewrite Hev. rewrite (wrap_small _ (i * 64)), wrap_small by (split; lia). done.
  - intros (i & Hi & ->). eexists. split; [exists i; split; [done|lia]|].
    rewrite (wrap_small _ (i * 64)), wrap_small by (split; lia). by left.
Qed.

Lemma elem_of_invalidate_lines a count ev :
  0 ≤ a → 0 ≤ count → a + count * 64 ≤ 2 ^ 64 →
  ev ∈ invalidate_lines a count ↔ ∃ i, 0 ≤ i < count ∧ ev = Invalidate (a + i * 64).
Proof. unfold invalidate_lines, do_invalidate. rewrite flushing. apply (elem_of_line_run Invalidate). Qed.

Lemma elem_of_hw_addrs l a :
  a ∈ hw_addrs l ↔ ∃ i, 0 ≤ i < CL_EXPAND_FACTOR ∧ a = l * VIRTUAL_CL_SIZE + i * 64.
Proof.
  unfold hw_addrs, CACHE_LINE_SIZE. rewrite list_elem_of_In, in_map_iff. setoid_rewrite <- list_elem_of_In.
  setoid_rewrite elem_of_seqZ. naive_solver.
Qed.

(** The hardware lines of [n] groups from [idx], as one run. *)
Lemma group_run idx n a :
  0 ≤ n →
  (∃ i, 0 ≤ i < n * GROUP_SIZE * CL_EXPAND_FACTOR ∧ a = idx * 2 ^ GROUP_SHIFT + i * 64) ↔
  ∃ l, idx ≤ l / 16 < idx + n ∧ a ∈ hw_addrs l.
Proof.
  intros Hn. setoid_rewrite elem_of_hw_addrs. pose proof expand_factor_range as [Hf Hv].
  assert (2 ^ GROUP_SHIFT = 16 * (64 * CL_EXPAND_FACTOR)) as Hg by (rewrite group_bytes, Hv; done).
  rewrite GROUP_SIZE_eq, Hg, Hv. set (c := CL_EXPAND_FACTOR) in *. split.
  - intros (i & Hir & ->). exists (idx * 16 + i / c).
    pose proof (Z.div_mod i c ltac:(lia)). pose proof (Z.mod_pos_bound i c ltac:(lia)).
    assert (0 ≤ i / c < n * 16) by (split; [apply Z.div_pos; lia|apply Z.div_lt_upper_bound; nia]).
    split; [divlia|]. exists (i mod c). split; [lia|]. nia.
  - intros (l & Hlr & i & Hir & ->). exists ((l - idx * 16) * c + i).
    assert (0 ≤ l - idx * 16 < n * 16) by divlia. split; nia.
Qed.

(** Either the entry flushes the whole cache, or it invalidates exactly the
    hardware lines of the lines it covers. *)
Definition entry_flushes (e : Z) (tr : trace) (stop : bool) : Prop :=
  if stop then tr = [WbInvd]
  else ∀ ev, ev ∈ tr ↔ ∃ l a, covers e l = true ∧ a ∈ hw_addrs l ∧ ev = Invalidate a.

Lemma process_mask_entry e ci :
  mask_wf e → ∃ tr, process_entry e ci = Some (tr, ci, false) ∧ entry_flushes e tr false.
Proof.
  intros (idx & mask & -> & Hi & Hm & _). destruct (mask_entry_fields idx mask Hi Hm) as (Hb & _ & _).
  unfold process_entry. rewrite tabled, Hb, eager. cbn [negb]. rewrite mask_range_addrs by done.
  cbn [mbind option_bind]. eexists. split; [done|]. intros ev.
  rewrite list_elem_of_In, in_concat. setoid_rewrite in_map_iff. setoid_rewrite in_map_iff.
  setoid_rewrite <- list_elem_of_In. setoid_rewrite (set_bits_word 16); [|lia|done].
  setoid_rewrite covers_mask; [|done..]. setoid_rewrite elem_of_hw_addrs.
  pose proof expand_factor_range as [Hf Hv]. pose proof (index_bytes idx Hi) as Hib.
  rewrite group_bytes in Hib. change (2 ^ GROUP_SIZE_SHIFT) with 16 in Hib.
  assert (∀ p ev, 0 ≤ p < 16 → ev ∈ invalidate_lines ((idx * 16 + p) * VIRTUAL_CL_SIZE) CL_EXPAND_FACTOR ↔
    ∃ i, 0 ≤ i < CL_EXPAND_FACTOR ∧ ev = Invalidate ((idx * 16 + p) * VIRTUAL_CL_SIZE + i * 64)) as Hline.
  { intros p ev' Hp. destruct Hi as [Hi0 _]. apply elem_of_invalidate_lines; [nia|lia|]. nia. }
  split.
  - intros (x & (a & <- & (p & <- & Hp & Hbit)) & Hev). apply Hline in Hev as (i & Hir & ->); [|done].
    exists (idx * 16 + p), ((idx * 16 + p) * VIRTUAL_CL_SIZE + i * 64).
    destruct (proj2 (line_div_mod (idx * 16 + p) idx p Hp)) as [? ->]; [done|]. eauto 6.
  - intros (l & a & [<- Hbit] & (i & Hir & ->) & ->). pose proof (Z.mod_pos_bound l 16).
    eexists. split; [eexists; split; [done|]; exists (l mod 16); split; [done|split; [lia|done]]|].
    apply Hline; [lia|]. exists i. split; [done|]. do 3 f_equal. divlia.
Qed.

Lemma process_length_entry e ci :
  length_wf e → ∃ tr stop, process_entry e ci = Some (tr, ci, stop) ∧ entry_flushes e tr stop.
Proof.
  intros (idx & len & -> & Hi & Hl). pose proof len_max_bound.
  destruct (length_entry_fields idx len Hi ltac:(lia)) as (Hb & Hidx & Hlen).
  unfold process_entry. rewrite tabled, Hb, Hlen, eager. cbn [negb].
  rewrite wrap_small by (split; lia). destruct (Z.leb_spec WBINVD_THRESHOLD len) as [|Hth].
  { eexists _, true. split; [done|]. unfold wbinvd. by rewrite flushing. }
  eexists _, false. split; [done|]. intros ev. rewrite get_ptr_eq, Hidx by by rewrite Hidx.
  pose proof expand_factor_range as [Hf Hv]. pose proof (index_bytes idx Hi) as Hib.
  change WBINVD_THRESHOLD with (2 ^ 19) in Hth. pose proof group_bytes as Hg. rewrite Hv in Hg.
  change (2 ^ GROUP_SIZE_SHIFT) with 16 in Hg.
  rewrite elem_of_invalidate_lines by (rewrite ?GROUP_SIZE_eq; nia).
  setoid_rewrite covers_length; [|done|lia]. pose proof (group_run idx len) as Hrun. split.
  - intros (i & Hir & ->). destruct (proj1 (Hrun _ ltac:(lia)) (ex_intro _ i (conj Hir eq_refl))) as (l & ? & ?).
    by exists l, (idx * 2 ^ GROUP_SHIFT + i * 64).
  - intros (l & a & Hlr & Ha & ->). destruct (proj2 (Hrun a ltac:(lia))) as (i & ? & ->); [by exists l|]. by exists i.
Qed.

Lemma process_entry_spec e ci :
  log_entry_wf e → ∃ tr stop, process_entry e ci = Some (tr, ci, stop) ∧ entry_flushes e tr stop.
Proof.
  intros [He|He]; [by apply process_length_entry|].
  destruct (process_mask_entry e ci He) as (tr & ? & ?). by exists tr, false.
Qed.

Lemma process_entries_spec es ci :
  Forall log_entry_wf es →
  ∃ tr, process_entries es ci = Some (tr, ci) ∧
    (∀ e l, e ∈ es → covers e l = true → invalidates_line tr l) ∧
    (∀ a, Invalidate a ∈ tr → ∃ e l, e ∈ es ∧ covers e l = true ∧ a ∈ hw_addrs l).
Proof.
  induction 1 as [|e es He _ IH].
  { exists []. split; [done|]. split; [by intros e l ?%not_elem_of_nil|by intros a ?%not_elem_of_nil]. }
  destruct (process_entry_spec e ci He) as (tr & stop & Heq & Hfl). cbn [process_entries].
  rewrite Heq. cbn [mbind option_bind]. destruct stop; cbn in Hfl.
  - subst tr. exists [WbInvd]. split; [done|]. split.
    + intros e' l _ _ a _. left. by left.
    + intros a [Ha|Ha%not_elem_of_nil]%elem_of_cons; done.
  - destruct IH as (tr' & -> & Hcov & Hexact). cbn [mbind option_bind].
    exists (tr ++ tr'). split; [done|]. split.
    + intros e' l [->|He']%elem_of_cons Hc a Ha.
      * right. apply elem_of_app. left. apply Hfl. eauto.
      * destruct (Hcov e' l He' Hc a Ha); [left|right]; apply elem_of_app; by right.
    + intros a [Ha|Ha]%elem_of_app.
      * apply Hfl in Ha as (l & a' & ? & ? & [= ->]). exists e, l. split; [by left|done].
      * destruct (Hexact a Ha) as (e' & l & ? & ? & ?). exists e', l. split; [by right|done].
Qed.
End facts.

(** ** Properties *)

(** In an eagerly invalidating build, consuming a log returns and drops from
    the cache exactly the lines the log stands for: for every well-formed log,
    every hardware line of every line covered by an entry is invalidated (or the
    whole cache is, after which the rest of the log is skipped), and no single
    line is invalidated that no entry covers. *)
Theorem process_log_invalidates_its_lines `{cfg : Config} (ok : ConfigOk cfg) (log : Log)
    (ci : CacheInfo) :
  NO_FLUSH = false → LOCAL_CL_TABLE = true → EAGER_INVALIDATE = true →
  Forall log_entry_wf (log_entries log) →
  ∃ tr, process_log log ci = Some (tr, ci) ∧
    (∀ e l, e ∈ log_entries log → covers e l = true → invalidates_line tr l) ∧
    (∀ a, Invalidate a ∈ tr → ∃ e l, e ∈ log_entries log ∧ covers e l = true ∧ a ∈ hw_addrs l).
Proof. intros. by apply process_entries_spec. Qed.

Lemma process_log_invalidates_its_lines_witness :
  let cfg := default_config in
  ∃ tr, process_log (mkLog [mask_entry 3 0x5; length_entry 9 1] 2) cache_info_new = Some (tr, cache_info_new) ∧
    invalidates_line tr 50.
Proof.
  intros cfg.
  destruct (process_log_invalidates_its_lines default_config_ok (mkLog [mask_entry 3 0x5; length_entry 9 1] 2)
    cache_info_new) as (tr & H & Hc & _); [reflexivity|reflexivity|reflexivity| |].
  - apply Forall_cons; split; [|apply Forall_cons; split; [|apply Forall_nil; exact I]].
    + right. exists 3, 0x5. split; [reflexivity|]. split; [split; vm_compute; congruence|].
      split; [split; vm_compute; congruence|lia].
    + left. exists 9, 1. split; [reflexivity|]. split; split; vm_compute; congruence.
  - exists tr. split; [exact H|]. apply (Hc (mask_entry 3 0x5)); [left|vm_compute; reflexivity].
Defined.

(** In a lazily invalidating build, consuming a mask entry marks the wrong
    lines unless its group is the first of its 64-line leaf: the shift that
    places the 16-bit mask in the leaf is 0 or 8 instead of 16 times the group's
    position. A line the entry covers is not marked, so no later check
    invalidates it. *)
Theorem lazy_process_misses_lines `{cfg : Config} (ok : ConfigOk cfg) (idx mask l : Z) :
  LOCAL_CL_TABLE = true → EAGER_INVALIDATE = false →
  in_word GROUP_INDEX_SHIFT idx → in_word 16 mask → idx mod 4 ≠ 0 →
  covers (mask_entry idx mask) l = true →
  ∃ ci, process_entry (mask_entry idx mask) cache_info_new = Some ([], ci, false) ∧
        dirty (inv_cls ci) l = false.
Proof.
  intros Ht He Hi Hm Hidx Hc. destruct (mask_entry_fields idx mask Hi Hm) as (Hb & Hgi & Hmask).
  unfold process_entry. rewrite Ht, Hb, He. cbn [negb]. eexists. split; [done|]. cbn [inv_cls cache_info_new].
  apply covers_mask in Hc as [Hl Hbit]; [|done..]. rewrite Hmask.
  assert (get_mask16_to_64_shift (mask_entry idx mask) = if Z.testbit idx 1 then 8 else 0) as ->.
  { unfold get_mask16_to_64_shift, GROUP_SIZE_SHIFT.
    assert (mask_entry idx mask &w 2 = if Z.testbit idx 1 then 2 else 0) as ->; [|by destruct (Z.testbit idx 1)].
    pose proof group_index_shift_range. apply Z.bits_inj'. intros i Hi0.
    change 2 with (2 ^ 1) at 1. rewrite Z.land_spec, mask_entry_bits, testbit_pow2 by (done || lia).
    destruct (Z.eqb_spec 1 i) as [<-|].
    - rewrite (Z.testbit_neg_r mask) by lia. by destruct (Z.testbit idx 1).
    - rewrite andb_false_r. destruct (Z.testbit idx 1); [|by rewrite Z.bits_0].
      change 2 with (2 ^ 1). rewrite testbit_pow2 by lia. by destruct (Z.eqb_spec 1 i). }
  rewrite mark_with_mask_spec by (apply wrap_range; lia). rewrite dirty_empty, orb_false_l.
  apply andb_false_intro2. unfold shl64. rewrite testbit_wrap, testbit_shiftl by (pose proof (line_mod_range l); lia).
  assert (l mod 64 = 16 * (idx mod 4) + l mod 16) as -> by divlia.
  pose proof (Z.mod_pos_bound l 16). pose proof (Z.mod_pos_bound idx 4).
  rewrite (testbit_high 16 mask); [by rewrite andb_false_r|done|].
  destruct (Z.testbit idx 1) eqn:E; [|lia].
  assert (idx mod 4 ≠ 1); [|lia]. intros Hm1.
  change 4 with (2 ^ 2) in Hm1. apply (f_equal (λ z, Z.testbit z 1)) in Hm1.
  rewrite Z.mod_pow2_bits_low, E in Hm1 by lia. done.
Qed.

(** The default build without eager invalidation. *)
Definition lazy_config : Config := {|
  CL_EXPAND_SHIFT := 0; NODE_COUNT := 8; CONSUME_HELPING := true; LOCATION_CLOCK_MERGE := false;
  PROTOCOL_OFF := false; NO_FLUSH := false; EAGER_WRITEBACK := false; EAGER_INVALIDATE := false;
  LOCAL_CL_TABLE := true; DELAY_PUBLISH := false; LOCAL_CL_TABLE_BUFFER := false;
  INLINE_CACHING := true; LOCAL_CL_TABLE_SIZE := 64; LOCAL_CL_TABLE_SEARCH_ITERS := 5;
  LOG_ENTRY_TOTAL := 64 * 64; LOG_SIZE := 64
|}.

Lemma lazy_config_ok : ConfigOk lazy_config.
Proof. destruct default_config_ok. constructor; assumption. Qed.

Lemma lazy_process_misses_lines_witness :
  let cfg := lazy_config in
  ∃ ci, process_entry (mask_entry 1 1) cache_info_new = Some ([], ci, false) ∧
        dirty (inv_cls ci) 16 = false.
Proof.
  intros cfg. apply (lazy_process_misses_lines lazy_config_ok 1 1 16);
    [reflexivity|reflexivity|split; vm_compute; congruence|split; vm_compute; congruence|
     discriminate|vm_compute; reflexivity].
Defined.
