(* ===== verification/Actions.v ===== *)
(** Actions: the machine on which the operations of ThreadOps and CacheAgent run.

    A [world] is the node-local and shared state of all nodes. An [act] is one
    access of a thread to it: a call of LogManager or CacheInfo, a mutex
    operation, a flush. Operations are programs ([prog]) over these actions, in
    the order the code performs them; [exec] runs a program of one thread with
    any interleaving of the actions of the other threads between its own.

    The ghost parts of the world are the tokens (which thread holds which log,
    reserved position, or the log-head mutex) and the list of positions a node
    has processed. [act_do] is an action as the code performs it. [act_step], the
    machine of the proofs, makes it a [Crash] to act without the token it needs or
    in a way that would break the protocol; that no operation crashes is proved,
    and Pool concludes for threads on the machine without these checks. The run stops at [Limit] when the 32-bit positions of a
    log would wrap around, or a range check has used up its fuel. *)
From S2P Require Import Prelude Config VectorClock ClGroup FlushUtils ClTracker SpmcQueue.
From S2P Require Import LogManager CacheInfo.

(** ** Traces and ghost tokens *)

Inductive tevent :=
  | EvFlush (e : event)      (** a flush instruction *)
  | EvLoad (l : Z)           (** a load of the program from virtual line [l] *)
  | EvStore (l : Z)          (** a store to it *)
  | EvPublish (p : nat).     (** the own node's position [p] becomes visible *)

Inductive token :=
  | Holds (log : nat)                        (** the thread fills this log *)
  | Reserved (p log : nat) (r : bool)        (** it is publishing this position *)
  | Consumer.                                (** it holds the log-head mutex *)

#[export] Instance token_eq_dec : EqDecision token.
Proof. solve_decision. Defined.

Section entry_test.
Context `{cfg : Config}.
(** The word formats, as a test on the 64-bit word. *)
Definition log_entry_ok (e : Z) : bool :=
  bool_decide (in_word 64 e) &&
  if is_length_based e then 0 <? get_length e
  else negb (get_mask16 e =? 0) && (get_mask16 e <? 2 ^ 16).

(** The virtual lines an access touches. *)
Definition lines_of (addr size : Z) : list Z :=
  let first := shr64 addr VIRTUAL_CL_SHIFT in
  seqZ first (shr64 (addr + size - 1) VIRTUAL_CL_SHIFT - first + 1).
End entry_test.

(** ** Actions and programs *)

Inductive act : Type → Type :=
  | GetNewLog : act (option nat)               (** [get_new_log()] of the own node *)
  | LogIsFull (log : nat) : act bool           (** [log->is_full()] *)
  | LogWrite (log : nat) (entry : Z) : act unit
  | ReserveTail (log : nat) (r : bool) : act Z (** the [fetch_add] of [produce_tail] *)
  | PublishTail (t : Z) (log : nat) (r : bool) : act Z
  | IsSubscribed (x : nat) : act bool          (** [log_mgrs[x].is_subscribed(node_id)] *)
  | TryLock : act bool                         (** the own node's log-head mutex *)
  | Unlock : act unit
  | GetClock (i : nat) : act Z
  | UpdateClock (i : nat) (val : Z) : act unit
  | TakeHead (x : nat) : act (option PubEntry)
  | ProcessLog (x log : nat) : act unit
  | ConsumeHead (x : nat) : act unit
  | CheckInvalidate (addr : Z) : act bool      (** [inv_cls.invalidate_if_dirty] *)
  | CheckRange (fuel : nat) (begin stop : Z) : act bool (** [invalidate_range_if_dirty] *)
  | FlushLines (tr : trace) : act unit
  | LoadBytes (addr size : Z) : act unit       (** a load, a store of the program *)
  | StoreBytes (addr size : Z) : act unit.

(** A program: its next action and what follows, a result, a loop that has used
    up its fuel, or an access through a null pointer. *)
Inductive prog (A : Type) : Type :=
  | Ret (a : A)
  | Vis {X : Type} (a : act X) (k : X → prog A)
  | OutOfFuel
  | NullAccess.
Arguments Ret {A}.
Arguments Vis {A X}.
Arguments OutOfFuel {A}.
Arguments NullAccess {A}.

Fixpoint prog_bind {A B} (f : A → prog B) (p : prog A) : prog B :=
  match p with
  | Ret a => f a
  | Vis a k => Vis a (λ x, prog_bind f (k x))
  | OutOfFuel => OutOfFuel
  | NullAccess => NullAccess
  end.

#[export] Instance prog_mret : MRet prog := λ A a, Ret a.
#[export] Instance prog_mbind : MBind prog := λ A B f p, prog_bind f p.
#[export] Instance prog_fmap : FMap prog := λ A B f p, prog_bind (λ a, Ret (f a)) p.

Definition perform {X} (a : act X) : prog X := Vis a Ret.
Definition of_option {A} (o : option A) : prog A :=
  match o with Some a => Ret a | None => OutOfFuel end.

Lemma mret_bind {A B} (a : A) (f : A → prog B) : mret a ≫= f = f a.
Proof. done. Qed.
Lemma of_option_bind {A B} (a : A) (f : A → prog B) : of_option (Some a) ≫= f = f a.
Proof. done. Qed.
Create Rewrite HintDb prog.
#[export] Hint Rewrite @mret_bind @of_option_bind : prog.

(** ** Semantics *)

Inductive result (W X : Type) := Done (x : X) (ev : list tevent) (w : W) | Crash | Limit.
Arguments Done {W X}.
Arguments Crash {W X}.
Arguments Limit {W X}.

Inductive outcome (A : Type) := Returned (a : A) | Crashed | Stopped.
Arguments Returned {A}.
Arguments Crashed {A}.
Arguments Stopped {A}.

Section machine.
Context `{cfg : Config} {Q : Type} `{FQ : !FifoQueue Q nat LOG_COUNT}.

Record node := mkNode {
  nd_sys : sys Q;                      (** [log_mgrs[n]] and its history *)
  nd_cache : CacheInfo;                (** [cache_info] of the node *)
  nd_tok : list (nat * token);         (** tokens, with the thread that has them *)
  nd_seen : list (nat * nat * trace);  (** positions processed, with the flushes *)
}.
#[local] Abbreviation world := (list node).
Implicit Types (w : world) (n tid x log p : nat) (nd : node).

Definition nd_lm nd : LogManager Q := lm_of (nd_sys nd).
Definition set_sys s nd : node := mkNode s (nd_cache nd) (nd_tok nd) (nd_seen nd).
Definition set_cache c nd : node := mkNode (nd_sys nd) c (nd_tok nd) (nd_seen nd).
Definition set_tok t nd : node := mkNode (nd_sys nd) (nd_cache nd) t (nd_seen nd).
Definition set_seen s nd : node := mkNode (nd_sys nd) (nd_cache nd) (nd_tok nd) s.
Definition set_lm lm nd : node := set_sys (mkSys lm (held (nd_sys nd)) (hist (nd_sys nd))) nd.

Definition set_inv_cls t nd : node := set_cache (mkCache (ci_clock (nd_cache nd)) t) nd.

Definition drop_tok tid (t : token) nd : node := set_tok (filter (λ y, y ≠ (tid, t)) (nd_tok nd)) nd.
Definition add_tok tid (t : token) nd : node := set_tok ((tid, t) :: nd_tok nd) nd.

(** The mutex is free when nobody has the [Consumer] token. *)
Definition locked nd : bool := existsb (λ y, bool_decide (y.2 = Consumer)) (nd_tok nd).
(** Position [p] of node [x] has been processed here. *)
Definition seen nd x p : bool := existsb (λ y, bool_decide (y.1 = (x, p))) (nd_seen nd).

Definition require {W X} (b : bool) (r : result W X) : result W X := if b then r else Crash.
Definition from_option {W X Y} (o : option Y) (f : Y → result W X) : result W X :=
  match o with Some y => f y | None => Crash end.

(** An action of thread [tid] of node [n], as the code performs it: a [Crash] is a
    failed assertion or an index out of range. The tokens and the list of processed
    positions only record what happens; processing the log a position names counts
    as processing the position. *)
Definition act_do n tid {X} (a : act X) w : result world X :=
  from_option (w !! n) (λ nd,
  let s := nd_sys nd in
  let lm := nd_lm nd in
  match a in act X return result world X with
  | GetNewLog =>
      from_option (get_new_log lm) (λ '(r, lm'),
      match r with
      | Some log =>
          Done (Some log) [] (<[n := add_tok tid (Holds log) (set_sys (mkSys lm' (log :: held s) (hist s)) nd)]> w)
      | None => Done None [] (<[n := set_lm lm' nd]> w)
      end)
  | LogIsFull log => Done (is_full (log_at lm log)) [] w
  | LogWrite log entry =>
      from_option (log_write entry (log_at lm log)) (λ l,
        Done tt [] (<[n := set_lm (set_buf (<[log := l]> (buf lm)) lm) nd]> w))
  | ReserveTail log r =>
      let '(t, lm') := reserve_tail lm in
      let p := length (hist s) in
      if Z.of_nat p + 1 + 2 * Z.of_nat LOG_COUNT <? 2 ^ 32 then
        Done t [] (<[n := add_tok tid (Reserved p log r) (drop_tok tid (Holds log)
          (set_sys (mkSys lm' (filter (λ x, x ≠ log) (held s)) (hist s ++ [mkRec log r None])) nd))]> w)
      else Limit
  | PublishTail t log r =>
      let p := Z.to_nat t in
      let '(clk, lm') := publish (Z.of_nat p) log r lm in
      Done clk [EvPublish p] (<[n := drop_tok tid (Reserved p log r)
        (set_sys (mkSys lm' (held s)
           (<[p := mkRec log r (Some (log_entries (log_at lm log)))]> (hist s))) nd)]> w)
  | IsSubscribed x => from_option (w !! x) (λ ndx, Done (is_subscribed (nd_lm ndx) n) [] w)
  | TryLock => if locked nd then Done false [] w else Done true [] (<[n := add_tok tid Consumer nd]> w)
  | Unlock => Done tt [] (<[n := drop_tok tid Consumer nd]> w)
  | GetClock i => Done (get_clock i (nd_cache nd)) [] w
  | UpdateClock i val => Done tt [] (<[n := set_cache (update_clock i val (nd_cache nd)) nd]> w)
  | TakeHead x => from_option (w !! x) (λ ndx, Done (take_head n (nd_lm ndx)) [] w)
  | ProcessLog x log =>
      from_option (w !! x) (λ ndx,
      from_option (process_log (log_at (nd_lm ndx) log) (nd_cache nd)) (λ '(tr, ci),
      let seen := if bool_decide (pe_log <$> take_head n (nd_lm ndx) = Some log)
                  then (x, Z.to_nat (head_of (nd_lm ndx) n), tr) :: nd_seen nd else nd_seen nd in
      Done tt (map EvFlush tr) (<[n := set_seen seen (set_cache ci nd)]> w)))
  | ConsumeHead x => from_option (w !! x) (λ ndx, Done tt [] (<[x := set_lm (consume_head n (nd_lm ndx)) ndx]> w))
  | CheckInvalidate addr =>
      let '(dirty, tr, t) := invalidate_if_dirty addr (inv_cls (nd_cache nd)) in
      Done dirty (map EvFlush tr) (<[n := set_inv_cls t nd]> w)
  | CheckRange fuel begin stop =>
      match invalidate_range_if_dirty fuel begin stop (inv_cls (nd_cache nd)) with
      | Some (dirty, tr, t) => Done dirty (map EvFlush tr) (<[n := set_inv_cls t nd]> w)
      | None => Limit
      end
  | FlushLines tr => Done tt (map EvFlush tr) w
  | LoadBytes addr size => Done tt (map EvLoad (lines_of addr size)) w
  | StoreBytes addr size => Done tt (map EvStore (lines_of addr size)) w
  end).

(** The same with the checks of the protocol ([require]): it is a [Crash] to use a
    log, a position or the log-head mutex without its token, to process a log that
    is not at the head, to consume a position that was not processed, or to set the
    clock beyond what was consumed. The proofs are about this machine; that the
    threads of the program never fail a check, so that the checks can be left out,
    is [pool_adequate] of Pool. *)
Definition act_step n tid {X} (a : act X) w : result world X :=
  from_option (w !! n) (λ nd,
  let s := nd_sys nd in
  let lm := nd_lm nd in
  let owns t := bool_decide ((tid, t) ∈ nd_tok nd) in
  match a in act X return result world X with
  | GetNewLog =>
      from_option (get_new_log lm) (λ '(r, lm'),
      match r with
      | Some log =>
          Done (Some log) [] (<[n := add_tok tid (Holds log) (set_sys (mkSys lm' (log :: held s) (hist s)) nd)]> w)
      | None => Done None [] (<[n := set_lm lm' nd]> w)
      end)
  | LogIsFull log => require (owns (Holds log)) (Done (is_full (log_at lm log)) [] w)
  | LogWrite log entry =>
      require (owns (Holds log) && (negb LOCAL_CL_TABLE || log_entry_ok entry))
        (from_option (log_write entry (log_at lm log)) (λ l,
         Done tt [] (<[n := set_lm (set_buf (<[log := l]> (buf lm)) lm) nd]> w)))
  | ReserveTail log r =>
      require (owns (Holds log))
        (let '(t, lm') := reserve_tail lm in
         let p := length (hist s) in
         if Z.of_nat p + 1 + 2 * Z.of_nat LOG_COUNT <? 2 ^ 32 then
           Done t [] (<[n := add_tok tid (Reserved p log r) (drop_tok tid (Holds log)
             (set_sys (mkSys lm' (filter (λ x, x ≠ log) (held s)) (hist s ++ [mkRec log r None])) nd))]> w)
         else Limit)
  | PublishTail t log r =>
      let p := Z.to_nat t in
      require (owns (Reserved p log r))
        (let '(clk, lm') := publish (Z.of_nat p) log r lm in
         Done clk [EvPublish p] (<[n := drop_tok tid (Reserved p log r)
           (set_sys (mkSys lm' (held s)
              (<[p := mkRec log r (Some (log_entries (log_at lm log)))]> (hist s))) nd)]> w))
  | IsSubscribed x =>
      from_option (w !! x) (λ ndx, Done (is_subscribed (nd_lm ndx) n) [] w)
  | TryLock =>
      if locked nd then Done false [] w
      else Done true [] (<[n := add_tok tid Consumer nd]> w)
  | Unlock => require (owns Consumer) (Done tt [] (<[n := drop_tok tid Consumer nd]> w))
  | GetClock i => Done (get_clock i (nd_cache nd)) [] w
  | UpdateClock i val =>
      from_option (w !! i) (λ ndi,
      require (owns Consumer && (val <=? head_of (nd_lm ndi) n))
        (Done tt [] (<[n := set_cache (update_clock i val (nd_cache nd)) nd]> w)))
  | TakeHead x =>
      from_option (w !! x) (λ ndx,
      require (owns Consumer) (Done (take_head n (nd_lm ndx)) [] w))
  | ProcessLog x log =>
      from_option (w !! x) (λ ndx,
      require (owns Consumer && bool_decide (x ≠ n) && bool_decide (pe_log <$> take_head n (nd_lm ndx) = Some log))
        (from_option (process_log (log_at (nd_lm ndx) log) (nd_cache nd)) (λ '(tr, ci),
         Done tt (map EvFlush tr)
           (<[n := set_seen ((x, Z.to_nat (head_of (nd_lm ndx) n), tr) :: nd_seen nd) (set_cache ci nd)]> w))))
  | ConsumeHead x =>
      from_option (w !! x) (λ ndx,
      let h := head_of (nd_lm ndx) n in
      require (owns Consumer && bool_decide (x ≠ n) && bool_decide (is_Some (take_head n (nd_lm ndx)))
               && seen nd x (Z.to_nat h))
        (Done tt [] (<[x := set_lm (consume_head n (nd_lm ndx)) ndx]> w)))
  | CheckInvalidate addr =>
      let '(dirty, tr, t) := invalidate_if_dirty addr (inv_cls (nd_cache nd)) in
      Done dirty (map EvFlush tr) (<[n := set_inv_cls t nd]> w)
  | CheckRange fuel begin stop =>
      match invalidate_range_if_dirty fuel begin stop (inv_cls (nd_cache nd)) with
      | Some (dirty, tr, t) => Done dirty (map EvFlush tr) (<[n := set_inv_cls t nd]> w)
      | None => Limit
      end
  | FlushLines tr => Done tt (map EvFlush tr) w
  | LoadBytes addr size => Done tt (map EvLoad (lines_of addr size)) w
  | StoreBytes addr size => Done tt (map EvStore (lines_of addr size)) w
  end).

Lemma act_step_do n tid {X} (a : act X) w : act_step n tid a w ≠ Crash → act_do n tid a w = act_step n tid a w.
Proof.
  unfold act_step, act_do. destruct (w !! n) as [nd|]; [|done]. cbn [from_option].
  destruct a; unfold require; cbn beta zeta; try done;
    repeat match goal with |- context [w !! ?x] => destruct (w !! x); cbn [from_option]; try done end;
    match goal with |- context [if ?b then _ else _] => destruct b eqn:Hb end; try done.
  intros _. apply andb_prop in Hb as [_ ->]. done.
Qed.

(** An action of another thread, and any number of them. *)
Definition other tid w w' : Prop :=
  ∃ n tid' X (a : act X) (r : X) ev, tid' ≠ tid ∧ act_step n tid' a w = Done r ev w'.
Definition rely tid : world → world → Prop := rtc (other tid).

(** The executions of a program, with the events the thread itself issues: by
    recursion on the program, as an inductive relation would have it. *)
Fixpoint exec n tid {A} (pr : prog A) w (o : outcome A) (tr : list tevent) w' : Prop :=
  match pr with
  | Ret a => o = Returned a ∧ tr = [] ∧ w' = w
  | OutOfFuel => o = Stopped ∧ tr = [] ∧ w' = w
  | NullAccess => o = Crashed ∧ tr = [] ∧ w' = w
  | Vis a k =>
      ∃ w1, rely tid w w1 ∧
        match act_step n tid a w1 with
        | Done r ev w2 => ∃ tr', tr = ev ++ tr' ∧ exec n tid (k r) w2 o tr' w'
        | Crash => o = Crashed ∧ tr = [] ∧ w' = w1
        | Limit => o = Stopped ∧ tr = [] ∧ w' = w1
        end
  end.

(** The execution without interference, as a function. *)
Fixpoint run n tid {A} (p : prog A) w : outcome A * list tevent * world :=
  match p with
  | Ret a => (Returned a, [], w)
  | OutOfFuel => (Stopped, [], w)
  | NullAccess => (Crashed, [], w)
  | Vis a k =>
      match act_step n tid a w with
      | Done x ev w' => let '(o, tr, w'') := run n tid (k x) w' in (o, ev ++ tr, w'')
      | Crash => (Crashed, [], w)
      | Limit => (Stopped, [], w)
      end
  end.

Lemma run_exec n tid {A} (pr : prog A) w o tr w' : run n tid pr w = (o, tr, w') → exec n tid pr w o tr w'.
Proof.
  revert w o tr w'. induction pr as [a|X a k IH| |]; intros w o tr w'; cbn [run exec].
  - by intros [= <- <- <-].
  - intros H. exists w. split; [apply rtc_refl|]. destruct (act_step n tid a w) as [r ev w1| |].
    + destruct (run n tid (k r) w1) as [[o' tr'] w2] eqn:E2. injection H as <- <- <-.
      exists tr'. split; [done|by apply IH].
    + by injection H as <- <- <-.
    + by injection H as <- <- <-.
  - by intros [= <- <- <-].
  - by intros [= <- <- <-].
Qed.

(** A run of a bind splits. *)
Lemma exec_bind_inv n tid {A B} (pr : prog A) (f : A → prog B) w o tr w' :
  exec n tid (prog_bind f pr) w o tr w' →
  (∃ a tr1 w1 tr2, exec n tid pr w (Returned a) tr1 w1 ∧ exec n tid (f a) w1 o tr2 w' ∧ tr = tr1 ++ tr2) ∨
  (o = Crashed ∧ exec n tid pr w Crashed tr w') ∨ (o = Stopped ∧ exec n tid pr w Stopped tr w').
Proof.
  revert w o tr w'. induction pr as [a|X a k IH| |]; intros w o tr w'; cbn [prog_bind exec].
  - intros He. left. exists a, [], w, tr. done.
  - intros (w1 & Hr & He). destruct (act_step n tid a w1) as [r ev w2| |] eqn:E.
    + destruct He as (tr' & -> & He).
      apply (IH r) in He as [(x & tr1 & wm & tr2 & H1 & H2 & ->)|[[-> H1]|[-> H1]]].
      * left. exists x, (ev ++ tr1), wm, tr2. split; [|by rewrite app_assoc].
        exists w1. rewrite E. eauto.
      * right. left. split; [done|]. exists w1. rewrite E. eauto.
      * right. right. split; [done|]. exists w1. rewrite E. eauto.
    + destruct He as (-> & -> & ->). right. left. split; [done|]. exists w1. by rewrite E.
    + destruct He as (-> & -> & ->). right. right. split; [done|]. exists w1. by rewrite E.
  - intros (-> & -> & ->). right. right. done.
  - intros (-> & -> & ->). right. left. done.
Qed.
End machine.
Arguments node Q : clear implicits.
Abbreviation world Q := (list (node Q)).
