(* ===== verification/Invariant.v ===== *)
(** Invariant: what holds of the world between any two actions.

    [world_ok] ties every node's log manager, tokens, clocks and processed
    positions together; [act_inv] says that every action of every thread keeps
    it, [act_keeps] what an action of another thread leaves alone. Together they
    are the rely of a thread: the facts about its own tokens are stable. *)
From S2P Require Import Prelude Config VectorClock ClGroup FlushUtils ClTracker SpmcQueue.
From S2P Require Import LogManager CacheInfo Actions.

Section invariant.
Context `{cfg : Config} {ok : ConfigOk cfg} {Q : Type} `{FQ : !FifoQueue Q nat LOG_COUNT}.
Implicit Types (w : world Q) (nd : node Q) (n tid log p : nat).

(** ** Definitions *)

Definition log_ok (l : Log) : Prop := Forall log_entry_wf (log_entries l).

(** The log a token is about. *)
Definition tok_log (t : token) : option nat :=
  match t with Holds log => Some log | Reserved _ log _ => Some log | Consumer => None end.

(** A position published with these entries. *)
Definition published_with nd p (d : list Z) : Prop :=
  ∃ r, hist (nd_sys nd) !! p = Some r ∧ pr_data r = Some d.

Record node_ok n nd : Prop := {
  no_inv : ∃ g F, inv (nd_sys nd) g F;
  no_id : lm_node_id (nd_lm nd) = n;
  no_nowrap : no_wrap (nd_sys nd);
  no_subs i : (i < NODE_COUNT)%nat → is_subscribed (nd_lm nd) i = true;
  no_logs : Forall log_ok (buf (nd_lm nd));
  no_hist p d : published_with nd p d → Forall log_entry_wf d;
  no_tok : NoDup (nd_tok nd).*2;
  no_held log : log ∈ held (nd_sys nd) ↔ ∃ tid, (tid, Holds log) ∈ nd_tok nd;
  no_res tid p log r : (tid, Reserved p log r) ∈ nd_tok nd → hist (nd_sys nd) !! p = Some (mkRec log r None);
  no_clock : length (ci_clock (nd_cache nd)) = NODE_COUNT;
}.

(** The flushes of a processed position cover its entries. *)
Definition processed_ok nd p (tr : trace) : Prop :=
  ∃ d, published_with nd p d ∧ ∀ e l, e ∈ d → covers e l = true → invalidates_line tr l.

(** Consumer [n] and producer [x]. *)
Record pair_ok n nd x ndx : Prop := {
  pk_seen p tr : (x, p, tr) ∈ nd_seen nd → processed_ok ndx p tr;
  pk_head p : x ≠ n → Z.of_nat p < head_of (nd_lm ndx) n → ∃ tr, (x, p, tr) ∈ nd_seen nd;
  pk_clock : x ≠ n → get_clock x (nd_cache nd) ≤ head_of (nd_lm ndx) n;
}.

Record world_ok w : Prop := {
  wo_length : length w = NODE_COUNT;
  wo_node n nd : w !! n = Some nd → node_ok n nd;
  wo_pair n nd x ndx : w !! n = Some nd → w !! x = Some ndx → pair_ok n nd x ndx;
}.

(** What an action of another thread keeps for thread [tid]. *)
Record node_keeps tid nd nd' : Prop := {
  nk_tok t : (tid, t) ∈ nd_tok nd ↔ (tid, t) ∈ nd_tok nd';
  nk_pub p d : published_with nd p d → published_with nd' p d;
  nk_rec p r d : hist (nd_sys nd) !! p = Some r → pr_data r = Some d → hist (nd_sys nd') !! p = Some r;
  nk_seen y : y ∈ nd_seen nd → y ∈ nd_seen nd';
  nk_log t log : (tid, t) ∈ nd_tok nd → tok_log t = Some log → log_at (nd_lm nd') log = log_at (nd_lm nd) log;
}.

Record keeps tid w w' : Prop := {
  ks_node n nd : w !! n = Some nd → ∃ nd', w' !! n = Some nd' ∧ node_keeps tid nd nd';
  ks_head n nd x ndx ndx' : w !! n = Some nd → (tid, Consumer) ∈ nd_tok nd →
    w !! x = Some ndx → w' !! x = Some ndx' → head_of (nd_lm ndx') n = head_of (nd_lm ndx) n;
}.

(** ** Lemmas: the boolean test of an entry *)

Lemma log_entry_ok_wf e : log_entry_ok e = true → log_entry_wf e.
Proof.
  unfold log_entry_ok. rewrite andb_true_iff, bool_decide_eq_true. intros [He Hf].
  pose proof group_index_shift_range as Hg.
  assert (in_word GROUP_INDEX_SHIFT (get_index e)) as Hidx.
  { unfold get_index. rewrite GROUP_INDEX_MASK_eq, Z.land_ones by lia. apply (wrap_range GROUP_INDEX_SHIFT). lia. }
  assert (∀ i, 0 ≤ i → Z.testbit (get_index e) i = (i <? GROUP_INDEX_SHIFT) && Z.testbit e i) as Hib.
  { intros i Hi. unfold get_index. rewrite GROUP_INDEX_MASK_eq, Z.land_spec, testbit_ones_ltb by lia. btauto. }
  rewrite is_length_based_bit in Hf. destruct (Z.testbit e 63) eqn:E63.
  - left. apply Z.ltb_lt in Hf. exists (get_index e), (get_length e).
    assert (0 ≤ get_length e ≤ GROUP_LEN_MAX) as Hl.
    { rewrite GROUP_LEN_MAX_eq, Z.ones_equiv.
      enough (in_word (63 - GROUP_INDEX_SHIFT) (get_length e)) as [? ?] by lia.
      apply in_word_bits; [lia|lia|]. intros i Hi. unfold get_length, shr64, not64. rewrite TYPE_MASK_eq.
      autorewrite with bits. destruct (Z.eqb_spec 63 (i + GROUP_INDEX_SHIFT)).
      - by rewrite andb_false_r, andb_false_r.
      - by rewrite (testbit_high 64 e) by (done || lia). }
    split_and!; [|done|lia|lia]. apply Z.bits_inj'. intros i Hi.
    rewrite length_entry_bits by done. rewrite Hib by done.
    destruct (Z.lt_ge_cases i GROUP_INDEX_SHIFT).
    + rewrite (Z.testbit_neg_r (get_length e)) by lia. split_ltb. by rewrite !orb_false_r.
    + destruct (Z.ltb_spec i GROUP_INDEX_SHIFT); [lia|]. cbn [andb orb].
      unfold get_length, shr64, not64. rewrite TYPE_MASK_eq. rewrite Z.shiftr_spec by lia.
      replace (i - GROUP_INDEX_SHIFT + GROUP_INDEX_SHIFT) with i by lia. autorewrite with bits.
      destruct (Z.eqb_spec 63 i) as [<-|]; [by rewrite E63|].
      destruct (Z.ltb_spec i 64); [by rewrite andb_true_r, orb_false_r|].
      by rewrite (testbit_high 64 e) by done.
  - right. apply andb_prop in Hf as [Hne Hlt]. apply negb_true_iff, Z.eqb_neq in Hne. apply Z.ltb_lt in Hlt.
    assert (in_word 16 (get_mask16 e)) as Hm.
    { split; [|lia]. apply Z.shiftr_nonneg. destruct He; lia. }
    exists (get_index e), (get_mask16 e). split_and!; [|done..]. apply Z.bits_inj'. intros i Hi.
    rewrite mask_entry_bits by done. rewrite Hib by done. unfold get_mask16, shr64.
    destruct (Z.lt_ge_cases i GROUP_INDEX_SHIFT).
    + rewrite (Z.testbit_neg_r (Z.shiftr _ _)) by lia. split_ltb. by rewrite orb_false_r.
    + rewrite Z.shiftr_spec by lia. replace (i - GROUP_INDEX_SHIFT + GROUP_INDEX_SHIFT) with i by lia.
      by destruct (Z.ltb_spec i GROUP_INDEX_SHIFT); [lia|].
Qed.

Lemma log_entry_wf_ok e : log_entry_wf e → log_entry_ok e = true.
Proof.
  pose proof group_index_shift_range. pose proof (pow2_pos GROUP_INDEX_SHIFT).
  intros [(idx & len & -> & Hi & Hl)|(idx & mask & -> & Hi & Hm & Hne)]; unfold log_entry_ok.
  - destruct (length_entry_fields idx len) as (-> & _ & ->); [done|lia|].
    rewrite bool_decide_true; [apply Z.ltb_lt; lia|].
    unfold length_entry. repeat apply in_word_lor; try lia.
    + eapply in_word_mono; [|done]. lia.
    + apply wrap_range. lia.
    + rewrite TYPE_MASK_eq. split; lia.
  - destruct (mask_entry_fields idx mask Hi Hm) as (-> & _ & ->).
    rewrite bool_decide_true; [|unfold mask_entry; apply in_word_lor; [lia| |apply wrap_range; lia];
      by eapply in_word_mono; [|done]; lia].
    cbn [andb]. apply andb_true_intro. split; [by apply negb_true_iff, Z.eqb_neq|].
    apply Z.ltb_lt. by destruct Hm.
Qed.

(** ** Lemmas: changing one node *)

Lemma lookup_upd w n nd x nd' :
  w !! n = Some nd → <[n := nd']> w !! x = if decide (n = x) then Some nd' else w !! x.
Proof.
  intros Hn%lookup_lt_Some. case_decide; subst; [by apply list_lookup_insert_eq|by apply list_lookup_insert_ne].
Qed.

Lemma world_update w n nd nd' :
  world_ok w → w !! n = Some nd → node_ok n nd' →
  (∀ m ndm, w !! m = Some ndm → pair_ok m ndm n nd → pair_ok m ndm n nd') →
  (∀ x ndx, pair_ok n nd x ndx → w !! x = Some ndx ∨ (x = n ∧ ndx = nd') → pair_ok n nd' x ndx) →
  world_ok (<[n := nd']> w).
Proof.
  intros [Hlen Hnode Hpair] Hn Hok Hprod Hcons. constructor.
  - by rewrite length_insert.
  - intros m ndm. rewrite (lookup_upd _ _ _ _ _ Hn). case_decide; [by intros [= <-]; subst|apply Hnode].
  - intros m ndm x ndx. rewrite !(lookup_upd _ _ _ _ _ Hn).
    case_decide as Hm; [intros [= <-]; subst m|intros Hwm]; (case_decide as Hx; [intros [= <-]; subst x|intros Hwx]).
    + apply Hcons; [|by right]. apply Hprod; [done|]. by apply Hpair.
    + apply Hcons; [by apply Hpair|by left].
    + apply Hprod; [done|]. by apply Hpair.
    + by apply Hpair.
Qed.

(** An update no consumer notices. *)
Record quiet nd nd' : Prop := {
  q_pub p d : published_with nd p d → published_with nd' p d;
  q_seen : nd_seen nd' = nd_seen nd;
  q_clock : ci_clock (nd_cache nd') = ci_clock (nd_cache nd);
  q_head m : head_of (nd_lm nd') m = head_of (nd_lm nd) m;
}.

Lemma processed_mono nd nd' p tr :
  (∀ d, published_with nd p d → published_with nd' p d) → processed_ok nd p tr → processed_ok nd' p tr.
Proof. intros Hp (d & Hd & Hc). exists d. split; [by apply Hp|done]. Qed.

Lemma world_quiet w n nd nd' :
  world_ok w → w !! n = Some nd → node_ok n nd' → quiet nd nd' → world_ok (<[n := nd']> w).
Proof.
  intros Hw Hn Hok [Hp Hs Hc Hh]. eapply world_update; [done..| |].
  - intros m ndm _ [H1 H2 H3]. constructor.
    + intros p tr Hin. eapply processed_mono; [apply Hp|by apply H1].
    + intros p. rewrite Hh. apply H2.
    + rewrite Hh. apply H3.
  - intros x ndx [H1 H2 H3] _. constructor; rewrite ?Hs; [done..|].
    unfold get_clock in *. by rewrite Hc.
Qed.

Lemma quiet_hist nd nd' :
  (∀ p r d, hist (nd_sys nd) !! p = Some r → pr_data r = Some d → hist (nd_sys nd') !! p = Some r) →
  ∀ p d, published_with nd p d → published_with nd' p d.
Proof. intros Hh p d (r & Hr & Hd). exists r. split; [by eapply Hh|done]. Qed.

(** Sets of tokens. *)
Lemma elem_of_drop_tok tid t nd y : y ∈ nd_tok (drop_tok tid t nd) ↔ y ∈ nd_tok nd ∧ y ≠ (tid, t).
Proof. unfold drop_tok, set_tok. cbn. rewrite list_elem_of_filter. tauto. Qed.

Lemma elem_of_add_tok tid t nd y : y ∈ nd_tok (add_tok tid t nd) ↔ y = (tid, t) ∨ y ∈ nd_tok nd.
Proof. unfold add_tok, set_tok. cbn. apply elem_of_cons. Qed.

Lemma nodup_drop tid t nd : NoDup (nd_tok nd).*2 → NoDup (nd_tok (drop_tok tid t nd)).*2.
Proof.
  unfold drop_tok, set_tok. cbn. generalize (nd_tok nd) as l. intros l. induction l as [|y l IH]; [done|].
  rewrite fmap_cons, NoDup_cons, filter_cons. intros [Hy Hl]. case_decide; [|by apply IH].
  rewrite fmap_cons, NoDup_cons. split; [|by apply IH]. intros Hin. apply Hy.
  apply list_elem_of_fmap in Hin as (z & -> & Hz). apply list_elem_of_filter in Hz as [_ Hz].
  apply list_elem_of_fmap. by exists z.
Qed.

Lemma nodup_add tid t nd :
  NoDup (nd_tok nd).*2 → (∀ tid', (tid', t) ∉ nd_tok nd) → NoDup (nd_tok (add_tok tid t nd)).*2.
Proof.
  intros Hnd Hfresh. unfold add_tok, set_tok. cbn. apply NoDup_cons. split; [|done].
  intros ([tid' t'] & Heq & Hin)%list_elem_of_fmap. cbn in Heq. subst t'. by apply (Hfresh tid').
Qed.

Lemma owner_unique n nd tid tid' t : node_ok n nd → (tid, t) ∈ nd_tok nd → (tid', t) ∈ nd_tok nd → tid = tid'.
Proof.
  intros [_ _ _ _ _ _ Hnd _ _ _]. revert Hnd. generalize (nd_tok nd) as l. intros l.
  induction l as [|[i u] l IH]; [by intros _ ?%not_elem_of_nil|].
  rewrite fmap_cons, NoDup_cons. intros [Hu Hl] H1 H2.
  assert (∀ j, (j, u) ∉ l) as Hno by (intros j Hj; apply Hu, list_elem_of_fmap; by exists (j, u)).
  apply elem_of_cons in H1. apply elem_of_cons in H2.
  destruct H1 as [H1|H1], H2 as [H2|H2]; simplify_eq; [done|..|by apply IH]; exfalso; by eapply Hno.
Qed.

(** ** Lemmas: the effect of each action on its node *)

Lemma reserved_outstanding s g F p log r :
  inv s g F → hist s !! p = Some (mkRec log r None) → log ∈ map pr_log (drop g (hist s)).
Proof.
  intros I Hp. apply (inv_outstanding p (mkRec log r None)); [|done].
  destruct (decide (g ≤ p)%nat); [done|]. destruct (inv_gc_pub _ _ _ I p) as (x & Hx & Hd); [lia|].
  rewrite Hp in Hx. by injection Hx as <-.
Qed.

(** A log with a token is held or at an outstanding position. *)
Lemma token_log_used n nd g F tid t log :
  node_ok n nd → inv (nd_sys nd) g F → (tid, t) ∈ nd_tok nd → tok_log t = Some log →
  log ∈ held (nd_sys nd) ++ map pr_log (drop g (hist (nd_sys nd))).
Proof.
  intros Hok I Hin Ht. apply elem_of_app. destruct t as [l|p l r|]; cbn in Ht; simplify_eq.
  - left. apply (no_held _ _ Hok). by exists tid.
  - right. eapply reserved_outstanding; [done|]. by eapply (no_res _ _ Hok).
Qed.

Lemma get_log_fresh n nd tid t log log' lm' g g' F F' :
  node_ok n nd → inv (nd_sys nd) g F → (g ≤ g')%nat →
  inv (mkSys lm' (log :: held (nd_sys nd)) (hist (nd_sys nd))) g' F' →
  (tid, t) ∈ nd_tok nd → tok_log t = Some log' → log ≠ log'.
Proof.
  intros Hok I Hg I' Hin Ht ->. pose proof (inv_nodup I') as Hnd. cbn [held hist] in Hnd.
  apply NoDup_app in Hnd as (_ & _ & Hnd). rewrite <- app_comm_cons in Hnd.
  apply NoDup_cons in Hnd as [Hnd _]. apply Hnd. apply elem_of_app.
  destruct t as [l|p l r|]; cbn in Ht; simplify_eq.
  - left. apply (no_held _ _ Hok). by exists tid.
  - right. apply (reserved_outstanding _ _ _ p log' r I'). by eapply (no_res _ _ Hok).
Qed.

Lemma logs_ok_alter f log (l : list Log) :
  Forall log_ok l → (∀ x, log_ok x → log_ok (f x)) → Forall log_ok (alter f log l).
Proof. intros Hl Hf. apply Forall_alter; [done|]. intros x _ Hx. by apply Hf. Qed.

Lemma log_ok_clear x : log_ok (log_clear x).
Proof. constructor. Qed.

Lemma same_subs (lm lm' : LogManager Q) i : subs lm' = subs lm →
  is_subscribed lm' i = is_subscribed lm i ∧ head_of lm' i = head_of lm i.
Proof. intros Hs. unfold is_subscribed, head_of, sub_at. by rewrite Hs. Qed.

Lemma get_log_node n nd tid log lm' :
  node_ok n nd → get_new_log (nd_lm nd) = Some (Some log, lm') →
  let nd' := add_tok tid (Holds log) (set_sys (mkSys lm' (log :: held (nd_sys nd)) (hist (nd_sys nd))) nd) in
  node_ok n nd' ∧ quiet nd nd' ∧ (∀ tid', tid' ≠ tid → node_keeps tid' nd nd') ∧
  log_entries (log_at lm' log) = [] ∧ log_size (log_at lm' log) = 0%nat.
Proof.
  intros Hok Hget nd'. destruct (no_inv _ _ Hok) as (g & F & I).
  destruct (get_new_log_spec _ _ _ I (no_nowrap _ _ Hok)) as (r & lm2 & Heq & _ & _ & Hr).
  unfold nd_lm in *. rewrite Hget in Heq. injection Heq as <- <-. destruct Hr as (g' & F' & Hg & _ & I').
  destruct (get_new_log_frame _ _ _ Hget) as (Hsubs & Hid & Hbuf).
  assert (∀ tid t log', (tid, t) ∈ nd_tok nd → tok_log t = Some log' → log ≠ log') as Hfresh
    by (intros; by eapply get_log_fresh).
  pose proof (same_subs (lm_of (nd_sys nd)) lm') as Hss. split; [|split; [|split]].
  - destruct Hok. constructor; cbn; try done.
    + by exists g', F'.
    + by rewrite Hid.
    + intros i Hi. rewrite (proj1 (Hss i Hsubs)). by apply no_subs0.
    + unfold nd_lm. cbn. rewrite Hbuf. apply logs_ok_alter; [done|]. intros. apply log_ok_clear.
    + apply (nodup_add tid (Holds log) nd); [done|]. intros tid' Hin. by apply (Hfresh tid' (Holds log) log).
    + intros log'. rewrite elem_of_cons, no_held0. setoid_rewrite elem_of_cons. split.
      * intros [->|[i Hi]]; [exists tid; by left|exists i; by right].
      * intros [i [[= _ ->]|Hi]]; [by left|right; by exists i].
    + intros i p l r [?|Hin]%elem_of_cons; [done|by eapply no_res0].
  - constructor; [done..|]. intros m. unfold nd_lm. cbn. by apply Hss.
  - intros tid' Hne. constructor; cbn; try done.
    + intros t. rewrite elem_of_cons. split; [by right|]. intros [[= ? _]|?]; done.
    + intros t log' Hin Ht. unfold nd_lm. cbn. unfold log_at. rewrite Hbuf, list_lookup_alter_ne; [done|].
      by eapply Hfresh.
  - unfold log_at. rewrite Hbuf.
    assert (log < LOG_COUNT)%nat as Hlt.
    { apply (inv_log_lt I'). cbn. apply elem_of_app. right. by left. }
    destruct (lookup_lt_is_Some_2 (buf (lm_of (nd_sys nd))) log) as [l Hl]; [by rewrite (inv_buf _ _ _ I)|].
    by rewrite list_lookup_alter_eq, Hl.
Qed.

Lemma get_null_node n nd lm' :
  node_ok n nd → get_new_log (nd_lm nd) = Some (None, lm') →
  let nd' := set_lm lm' nd in
  node_ok n nd' ∧ quiet nd nd' ∧ ∀ tid', node_keeps tid' nd nd'.
Proof.
  intros Hok Hget nd'. destruct (no_inv _ _ Hok) as (g & F & I).
  destruct (get_new_log_spec _ _ _ I (no_nowrap _ _ Hok)) as (r & lm2 & Heq & _ & _ & Hr).
  unfold nd_lm in *. rewrite Hget in Heq. injection Heq as <- <-. destruct Hr as (_ & _ & I').
  destruct (get_new_log_frame _ _ _ Hget) as (Hsubs & Hid & Hbuf).
  pose proof (same_subs (lm_of (nd_sys nd)) lm') as Hss. split; [|split].
  - destruct Hok. constructor; cbn; try done.
    + by exists g, [].
    + by rewrite Hid.
    + intros i Hi. rewrite (proj1 (Hss i Hsubs)). by apply no_subs0.
    + unfold nd_lm. cbn. by rewrite Hbuf.
  - constructor; [done..|]. intros m. unfold nd_lm. cbn. by apply Hss.
  - intros tid'. constructor; cbn; try done.
    intros t log' Hin Ht. unfold nd_lm. cbn. unfold log_at. by rewrite Hbuf.
Qed.

Lemma log_write_entries entry l l' :
  length (entries l) = LOG_SIZE → log_write entry l = Some l' →
  log_entries l' = log_entries l ++ [entry] ∧ log_size l' = (log_size l + 1)%nat.
Proof.
  intros Hlen. unfold log_write. destruct (Nat.ltb_spec (log_size l) LOG_SIZE); [|done].
  intros [= <-]. split; [|done]. unfold log_entries. cbn. rewrite Nat.add_1_r.
  rewrite (take_S_r _ _ entry) by (apply list_lookup_insert_eq; lia). by rewrite take_insert_ge by lia.
Qed.

Lemma write_log_node n nd tid log entry l :
  node_ok n nd → (tid, Holds log) ∈ nd_tok nd → log_entry_ok entry = true →
  log_write entry (log_at (nd_lm nd) log) = Some l →
  let nd' := set_lm (set_buf (<[log := l]> (buf (nd_lm nd))) (nd_lm nd)) nd in
  node_ok n nd' ∧ quiet nd nd' ∧ (∀ tid', tid' ≠ tid → node_keeps tid' nd nd') ∧
  log_at (nd_lm nd') log = l ∧ log_entries l = log_entries (log_at (nd_lm nd) log) ++ [entry] ∧
  log_size l = (log_size (log_at (nd_lm nd) log) + 1)%nat.
Proof.
  intros Hok Htok Hentry Hw nd'. destruct (no_inv _ _ Hok) as (g & F & I).
  assert (log ∈ held (nd_sys nd)) as Hheld by (apply (no_held _ _ Hok); by exists tid).
  assert (log < LOG_COUNT)%nat as Hlt by (apply (inv_log_lt I); set_solver).
  pose proof (inv_log_at _ _ _ _ I Hlt) as [Hlen _].
  destruct (log_write_entries entry _ l Hlen Hw) as [Hes Hsz].
  assert (log_at (nd_lm nd') log = l) as Hat.
  { unfold nd', log_at, nd_lm. cbn. rewrite list_lookup_insert_eq; [done|]. pose proof (inv_buf _ _ _ I). lia. }
  split_and!; [| |intros tid' Hne|done..].
  - destruct (nd_sys nd) as [lm hd h] eqn:Es. pose proof (inv_write _ _ _ _ _ _ _ _ I Hheld ltac:(unfold nd_lm in Hw; rewrite Es in Hw; exact Hw)) as I'.
    destruct Hok. unfold nd', set_lm, set_sys, nd_lm, published_with in *. rewrite Es in *. cbn in *.
    constructor; cbn; try done.
    + by exists g, F.
    + apply Forall_insert; [done|]. unfold log_ok. rewrite Hes. apply Forall_app. split; [|by apply Forall_singleton, log_entry_ok_wf].
      destruct (lookup_lt_is_Some_2 (buf lm) log) as [x Hx]; [pose proof (inv_buf _ _ _ I) as Hb; cbn in Hb; lia|].
      unfold log_at. rewrite Hx. cbn. by apply (Forall_lookup_1 _ _ _ _ no_logs0 Hx).
  - constructor; done.
  - constructor; cbn; try done. intros t log' Hin Ht. unfold nd_lm, log_at. cbn.
    rewrite list_lookup_insert_ne; [done|]. intros ->.
    pose proof (inv_nodup I) as Hnd. apply NoDup_app in Hnd as (_ & _ & Hnd). apply NoDup_app in Hnd as (_ & Hnd & _).
    destruct t as [x|p x r|]; cbn in Ht; simplify_eq.
    + apply Hne. by eapply owner_unique.
    + apply (Hnd log' Hheld). eapply reserved_outstanding; [done|]. by eapply (no_res _ _ Hok).
Qed.

Lemma hist_app_keeps (h : list pub_rec) x p r d :
  h !! p = Some r → pr_data r = Some d → (h ++ [x]) !! p = Some r.
Proof. intros. by apply lookup_app_l_Some. Qed.

Lemma reserve_node n nd tid log r :
  node_ok n nd → (tid, Holds log) ∈ nd_tok nd →
  Z.of_nat (length (hist (nd_sys nd))) + 1 + 2 * Z.of_nat LOG_COUNT < 2 ^ 32 →
  let s := nd_sys nd in
  let p := length (hist s) in
  let nd' := add_tok tid (Reserved p log r) (drop_tok tid (Holds log)
      (set_sys (mkSys (reserve_tail (nd_lm nd)).2 (filter (λ x, x ≠ log) (held s)) (hist s ++ [mkRec log r None])) nd)) in
  node_ok n nd' ∧ quiet nd nd' ∧ (∀ tid', tid' ≠ tid → node_keeps tid' nd nd').
Proof.
  intros Hok Htok Hmax s p nd'. destruct (no_inv _ _ Hok) as (g & F & I).
  assert (log ∈ held s) as Hheld by (apply (no_held _ _ Hok); by exists tid).
  pose proof (inv_nodup I) as Hnd. apply NoDup_app in Hnd as (_ & _ & Hnd). apply NoDup_app in Hnd as (Hndh & _ & _).
  assert (held s ≡ₚ log :: filter (λ x, x ≠ log) (held s)) as Hperm.
  { apply NoDup_Permutation; [done|apply NoDup_cons; split; [rewrite list_elem_of_filter; tauto|by apply NoDup_filter]|].
    intros x. rewrite elem_of_cons, list_elem_of_filter. destruct (decide (x = log)); naive_solver. }
  assert (∀ q, (q < p)%nat ∨ q = p ↔ (q < p + 1)%nat) as Hq by lia.
  assert (∀ q x d, (hist s ++ [mkRec log r None]) !! q = Some x → pr_data x = Some d → hist s !! q = Some x) as Hold.
  { intros q x d Hx Hd. apply lookup_app_Some in Hx as [?|[_ Hx]]; [done|].
    apply list_lookup_singleton_Some in Hx as [_ <-]. done. }
  split_and!; [|constructor; cbn; try done|intros tid' Hne; constructor; cbn; try done].
  - assert (no_wrap (mkSys (reserve_tail (nd_lm nd)).2 (filter (λ x, x ≠ log) (held s)) (hist s ++ [mkRec log r None]))) as Hnw.
    { unfold no_wrap. cbn [hist]. rewrite length_app. cbn. fold s in Hmax. lia. }
    assert (inv (mkSys (reserve_tail (nd_lm nd)).2 (filter (λ x, x ≠ log) (held s)) (hist s ++ [mkRec log r None])) g F) as I'.
    { destruct (nd_sys nd) as [lm hd h] eqn:Es. unfold nd_lm. rewrite Es. subst s. cbn [lm_of held hist] in *.
      eapply inv_reserve; [done|done|]. unfold no_wrap in *. done. }
    pose proof Hok as Hok'. destruct Hok'. constructor; cbn [nd_sys nd_cache nd_tok nd_seen nd' add_tok drop_tok set_tok set_sys held hist]; try done.
    + by exists g, F.
    + intros q d (x & Hx & Hd). apply (no_hist0 q). exists x. split; [by eapply Hold|done].
    + apply (nodup_add tid (Reserved p log r) (drop_tok tid (Holds log) nd)); [by apply nodup_drop|].
      intros i [Hin _]%elem_of_drop_tok. apply no_res0 in Hin. apply lookup_lt_Some in Hin. fold s p in Hin. lia.
    + intros log'. rewrite list_elem_of_filter. fold s in no_held0. rewrite no_held0. split.
      * intros [Hne [i Hi]]. exists i. right. apply list_elem_of_filter. split; [|done]. intros [= -> ->]. done.
      * intros [i [?|[Hne Hi]%list_elem_of_filter]%elem_of_cons]; [done|]. split; [|by exists i]. intros ->.
        apply Hne. f_equal. by eapply (owner_unique n nd).
    + intros i q l b [[= -> -> -> ->]|[_ Hin]%list_elem_of_filter]%elem_of_cons.
      * by rewrite list_lookup_middle.
      * apply lookup_app_l_Some. by eapply no_res0.
  - apply quiet_hist. intros q x d. apply hist_app_keeps.
  - intros t. rewrite elem_of_cons, list_elem_of_filter. split; [|intros [[= ? _]|[_ ?]]; done].
    intros Hin. right. split; [|done]. intros [= ? _]. done.
  - apply quiet_hist. intros q x d. apply hist_app_keeps.
  - intros q x d. apply hist_app_keeps.
Qed.

Lemma publish_node n nd tid p log r :
  node_ok n nd → (tid, Reserved p log r) ∈ nd_tok nd →
  let s := nd_sys nd in
  let rec := mkRec log r (Some (log_entries (log_at (nd_lm nd) log))) in
  let nd' := drop_tok tid (Reserved p log r)
      (set_sys (mkSys (publish (Z.of_nat p) log r (nd_lm nd)).2 (held s) (<[p := rec]> (hist s))) nd) in
  node_ok n nd' ∧ quiet nd nd' ∧ (∀ tid', tid' ≠ tid → node_keeps tid' nd nd') ∧
  hist (nd_sys nd') !! p = Some rec ∧ (publish (Z.of_nat p) log r (nd_lm nd)).1 = Z.of_nat p + 1.
Proof.
  intros Hok Htok s rec nd'. destruct (no_inv _ _ Hok) as (g & F & I).
  pose proof (no_res _ _ Hok _ _ _ _ Htok) as Hp. pose proof (lookup_lt_Some _ _ _ Hp) as Hlt.
  pose proof (reserved_outstanding _ _ _ _ _ _ I Hp) as Hout.
  assert (∀ q x d, hist s !! q = Some x → pr_data x = Some d → <[p := rec]> (hist s) !! q = Some x) as Hmono.
  { intros q x d Hx Hd. destruct (decide (p = q)) as [<-|]; [|by rewrite list_lookup_insert_ne].
    fold s in Hp. rewrite Hp in Hx. by injection Hx as <-. }
  assert (Forall log_entry_wf (log_entries (log_at (nd_lm nd) log))) as Hwf.
  { assert (log < LOG_COUNT)%nat as Hlog by (apply (inv_log_lt I); rewrite !elem_of_app; by right; right).
    destruct (lookup_lt_is_Some_2 (buf (nd_lm nd)) log) as [l Hl]; [pose proof (inv_buf _ _ _ I); unfold nd_lm; lia|].
    unfold log_at. rewrite Hl. cbn. apply (Forall_lookup_1 _ _ _ _ (no_logs _ _ Hok) Hl). }
  split_and!; [|constructor; cbn; try done|intros tid' Hne; constructor; cbn; try done| |].
  - assert (inv (mkSys (publish (Z.of_nat p) log r (nd_lm nd)).2 (held s) (<[p := rec]> (hist s))) g F) as I'.
    { pose proof (no_nowrap _ _ Hok) as Hnw. unfold rec, nd_lm. subst s. destruct (nd_sys nd) as [lm hd h].
      by apply inv_publish. }
    pose proof Hok as Hok'. destruct Hok'.
    constructor; cbn [nd_sys nd_cache nd_tok nd_seen nd' drop_tok set_tok set_sys held hist]; try done.
    + by exists g, F.
    + unfold no_wrap in *. cbn [hist]. by rewrite length_insert.
    + intros q d (x & Hx & Hd). cbn in Hx. destruct (decide (p = q)) as [<-|].
      * rewrite list_lookup_insert_eq in Hx by done. injection Hx as <-. cbn in Hd. by injection Hd as <-.
      * rewrite list_lookup_insert_ne in Hx by done. apply (no_hist0 q). by exists x.
    + by apply nodup_drop.
    + intros log'. fold s in no_held0. rewrite no_held0. split; intros [i Hi]; exists i.
      * by apply list_elem_of_filter.
      * by apply list_elem_of_filter in Hi as [_ Hi].
    + intros i q l b [Hneq Hin]%list_elem_of_filter. rewrite list_lookup_insert_ne; [by eapply no_res0|].
      intros <-. apply Hneq. pose proof (no_res0 _ _ _ _ Hin) as Hq. rewrite Hp in Hq. injection Hq as <- <-.
      f_equal. by eapply (owner_unique n nd).
  - by apply quiet_hist.
  - intros t. rewrite list_elem_of_filter. split; [|by intros [_ ?]]. intros Hin. split; [|done]. intros [= ? _]. done.
  - by apply quiet_hist.
  - cbn. by apply list_lookup_insert_eq.
  - pose proof (no_nowrap _ _ Hok) as Hnw. unfold no_wrap in Hnw. cbn. pose proof log_count_range.
    rewrite add32_1_nat by lia. lia.
Qed.

(** Taking and releasing the mutex. *)
Lemma locked_false nd : locked nd = false → ∀ tid, (tid, Consumer) ∉ nd_tok nd.
Proof.
  intros Hl tid Hin. apply not_true_iff_false in Hl. apply Hl. unfold locked. apply existsb_exists.
  exists (tid, Consumer). split; [by apply list_elem_of_In|by apply bool_decide_eq_true].
Qed.

Lemma lock_node n nd tid :
  node_ok n nd → locked nd = false →
  let nd' := add_tok tid Consumer nd in
  node_ok n nd' ∧ quiet nd nd' ∧ (∀ tid', tid' ≠ tid → node_keeps tid' nd nd').
Proof.
  intros Hok Hl nd'. split_and!; [|constructor; done|intros tid' Hne; constructor; cbn; try done].
  - pose proof Hok as Hok'. destruct Hok'. constructor; cbn [nd_sys nd_cache nd_tok nd_seen nd' add_tok set_tok]; try done.
    + apply (nodup_add tid Consumer nd); [done|]. by apply locked_false.
    + intros log. rewrite no_held0. setoid_rewrite elem_of_cons. naive_solver.
    + intros i p l r [?|?]%elem_of_cons; [done|by eapply no_res0].
  - intros t. rewrite elem_of_cons. split; [by right|]. intros [[= ? _]|?]; done.
Qed.

Lemma tracker_node n nd t :
  node_ok n nd →
  let nd' := set_inv_cls t nd in
  node_ok n nd' ∧ quiet nd nd' ∧ (∀ tid, node_keeps tid nd nd').
Proof.
  intros Hok nd'. split_and!; [|constructor; done|intros tid'; constructor; cbn; done].
  destruct Hok. by constructor.
Qed.

Lemma unlock_node n nd tid :
  node_ok n nd →
  let nd' := drop_tok tid Consumer nd in
  node_ok n nd' ∧ quiet nd nd' ∧ (∀ tid', tid' ≠ tid → node_keeps tid' nd nd').
Proof.
  intros Hok nd'. split_and!; [|constructor; done|intros tid' Hne; constructor; cbn; try done].
  - pose proof Hok as Hok'. destruct Hok'. constructor; cbn [nd_sys nd_cache nd_tok nd_seen nd' drop_tok set_tok]; try done.
    + by apply nodup_drop.
    + intros log. rewrite no_held0. setoid_rewrite list_elem_of_filter. naive_solver.
    + intros i p l r [_ ?]%list_elem_of_filter. by eapply no_res0.
  - intros t. rewrite list_elem_of_filter. split; [|by intros [_ ?]]. intros Hin. split; [|done]. intros [= ? _]. done.
Qed.

(** Consuming: the clock, the processing and the head. *)
Lemma get_clock_update i val ci x :
  (i < length (ci_clock ci))%nat →
  get_clock x (update_clock i val ci) = if decide (i = x) then val else get_clock x ci.
Proof.
  intros Hi. unfold get_clock, update_clock, vc_get. cbn. case_decide; subst.
  - by rewrite list_lookup_insert_eq.
  - by rewrite list_lookup_insert_ne.
Qed.

Lemma update_clock_world w n nd i ndi val :
  world_ok w → w !! n = Some nd → w !! i = Some ndi → val ≤ head_of (nd_lm ndi) n →
  world_ok (<[n := set_cache (update_clock i val (nd_cache nd)) nd]> w).
Proof.
  intros Hw Hn Hi Hval. pose proof (wo_node _ Hw n nd Hn) as Hok.
  assert (i < length (ci_clock (nd_cache nd)))%nat as Hlt.
  { rewrite (no_clock _ _ Hok), <- (wo_length _ Hw). by eapply lookup_lt_Some. }
  eapply world_update; [done..| | |].
  - destruct Hok. constructor; try done. cbn. by rewrite length_insert.
  - intros m ndm _ [H1 H2 H3]. constructor; done.
  - intros x ndx [H1 H2 H3] Hx. constructor; [done..|]. intros Hne. cbn [nd_cache set_cache].
    rewrite get_clock_update by done. case_decide; [subst x|by apply H3].
    destruct Hx as [Hx|[? _]]; [|done]. rewrite Hi in Hx. by injection Hx as <-.
Qed.

(** The facts about the entry at a consumer's head. *)
Lemma head_entry w n nd x ndx e :
  world_ok w → w !! n = Some nd → w !! x = Some ndx → x ≠ n → take_head n (nd_lm ndx) = Some e →
  ∃ (h : nat) d, head_of (nd_lm ndx) n = Z.of_nat h ∧ Z.of_nat h + 1 < 2 ^ 32 ∧
    pe_idx e = Z.of_nat h + 1 ∧
    published_with ndx h d ∧ log_entries (log_at (nd_lm ndx) (pe_log e)) = d ∧
    (∃ g F, inv (nd_sys ndx) g F ∧ subscriber (nd_lm ndx) n).
Proof.
  intros Hw Hn Hx Hne Ht. pose proof (wo_node _ Hw x ndx Hx) as Hok. destruct (no_inv _ _ Hok) as (g & F & I).
  assert (n < NODE_COUNT)%nat as Hlt by (rewrite <- (wo_length _ Hw); by eapply lookup_lt_Some).
  assert (subscriber (nd_lm ndx) n) as Hsub.
  { split_and!; [done| |by apply (no_subs _ _ Hok)]. rewrite (no_id _ _ Hok). by intros ->. }
  pose proof (no_nowrap _ _ Hok) as Hnw. unfold nd_lm in *. destruct (nd_sys ndx) as [lm hd hs] eqn:Es.
  destruct (take_head_published _ _ _ _ _ _ _ I Hnw Hsub Ht) as (h & Hh & Hr & Hp & ->).
  destruct (published_idx I h) as (r & d & Hr1 & Hd & He & Hl); [lia|done|]. cbn [lm_of] in *.
  unfold no_wrap in Hnw. cbn in Hnw. exists h, d. rewrite He. cbn. split_and!; [done|lia|done| |done|by exists g, F].
  exists r. rewrite Es. split; done.
Qed.

Lemma consume_head_world w n nd x ndx e tr :
  world_ok w → w !! n = Some nd → w !! x = Some ndx → x ≠ n → take_head n (nd_lm ndx) = Some e →
  (x, Z.to_nat (head_of (nd_lm ndx) n), tr) ∈ nd_seen nd →
  let ndx' := set_lm (consume_head n (nd_lm ndx)) ndx in
  world_ok (<[x := ndx']> w) ∧
  (∀ m, head_of (nd_lm ndx') m = if decide (n = m) then head_of (nd_lm ndx) n + 1 else head_of (nd_lm ndx) m).
Proof.
  intros Hw Hn Hx Hne Ht Hseen ndx'. destruct (head_entry _ _ _ _ _ _ Hw Hn Hx Hne Ht)
    as (h & d & Hh & Hmax & _ & _ & _ & g & F & I & Hsub).
  pose proof (wo_node _ Hw x ndx Hx) as Hok.
  assert (n < length (subs (nd_lm ndx)))%nat as Hlt.
  { unfold nd_lm. rewrite (inv_subs_len _ _ _ I). apply Hsub. }
  assert (∀ m, head_of (nd_lm ndx') m = if decide (n = m) then head_of (nd_lm ndx) n + 1 else head_of (nd_lm ndx) m) as Hheads.
  { intros m. unfold ndx', nd_lm at 1, head_of at 1, consume_head. cbn [lm_of set_lm set_sys nd_sys].
    rewrite sub_at_set by done. case_decide; [|done]. cbn. rewrite Hh, add32_1_nat by lia. lia. }
  split; [|done]. eapply world_update; [done..| | |].
  - assert (∃ g' F', inv (nd_sys ndx') g' F') as HI.
    { destruct (step_inv (nd_sys ndx) (nd_sys ndx') g F) as (g' & F' & _ & I' & _); [done| |apply (no_nowrap _ _ Hok)|by exists g', F'].
      unfold ndx', nd_lm in *. cbn. destruct (nd_sys ndx) as [lm hd hs]. cbn in *. destruct Hsub as (? & ? & ?).
      by eapply step_consume. }
    destruct Hok. constructor; try done. intros i Hi. unfold ndx', nd_lm, is_subscribed, consume_head. cbn [lm_of set_lm set_sys nd_sys].
    rewrite sub_at_set by done. case_decide; [subst|by apply no_subs0]. cbn. by apply no_subs0.
  - intros m ndm Hm [H1 H2 H3]. constructor; [done|..].
    + intros p Hxm. rewrite Hheads. case_decide; [subst m|by apply H2]. intros Hp.
      rewrite Hn in Hm. injection Hm as <-. destruct (decide (p = h)) as [->|]; [|apply H2; [done|lia]].
      exists tr. by rewrite Hh, Nat2Z.id in Hseen.
    + intros Hxm. rewrite Hheads. specialize (H3 Hxm). case_decide; [subst; lia|done].
  - intros y ndy [H1 H2 H3] _. constructor; done.
Qed.

Lemma process_log_world `{EB : !EagerBuild cfg} w n nd x ndx log :
  world_ok w → w !! n = Some nd → w !! x = Some ndx → x ≠ n →
  pe_log <$> take_head n (nd_lm ndx) = Some log →
  ∃ tr ci, process_log (log_at (nd_lm ndx) log) (nd_cache nd) = Some (tr, ci) ∧
    world_ok (<[n := set_seen ((x, Z.to_nat (head_of (nd_lm ndx) n), tr) :: nd_seen nd) (set_cache ci nd)]> w).
Proof.
  intros Hw Hn Hx Hne Ht. destruct (take_head n (nd_lm ndx)) as [e|] eqn:E; [|done]. cbn in Ht. injection Ht as Ht.
  destruct (head_entry _ _ _ _ _ _ Hw Hn Hx Hne E) as (h & d & Hh & _ & _ & Hp & Hl & _). rewrite Ht in Hl.
  pose proof (no_hist _ _ (wo_node _ Hw x ndx Hx) _ _ Hp) as Hwf.
  destruct EB as [E1 E2 E3].
  destruct (process_entries_spec E1 E2 E3 d (nd_cache nd) Hwf) as (tr & Heq & Hcov & _).
  exists tr, (nd_cache nd). unfold process_log. rewrite Hl. split; [done|].
  rewrite Hh, Nat2Z.id. eapply world_update; [done..| | |].
  - pose proof (wo_node _ Hw n nd Hn) as []. constructor; done.
  - intros m ndm _ [H1 H2 H3]. constructor; done.
  - intros y ndy [H1 H2 H3] Hy. constructor.
    + intros p t [[= -> -> ->]|Hin]%elem_of_cons; [|by apply H1].
      destruct Hy as [Hy|[-> _]]; [|done]. rewrite Hx in Hy. injection Hy as <-. by exists d.
    + intros p Hyn Hph. destruct (H2 p Hyn Hph) as [t Htt]. exists t. by right.
    + done.
Qed.

(** ** Lemmas: every action *)

Lemma node_keeps_refl tid nd : node_keeps tid nd nd.
Proof. by constructor. Qed.

Lemma keeps_refl tid w : keeps tid w w.
Proof.
  constructor; [intros n nd Hn; exists nd; split; [done|apply node_keeps_refl]|].
  intros n nd x ndx ndx' _ _ Hx Hx'. congruence.
Qed.

Lemma keeps_trans tid w1 w2 w3 : keeps tid w1 w2 → keeps tid w2 w3 → keeps tid w1 w3.
Proof.
  intros [K1 H1] [K2 H2]. constructor.
  - intros n nd Hn. destruct (K1 n nd Hn) as (nd' & Hn' & [A1 A2 A3 A4 A5]).
    destruct (K2 n nd' Hn') as (nd'' & Hn'' & [B1 B2 B3 B4 B5]). exists nd''. split; [done|]. constructor.
    + intros t. by rewrite A1.
    + intros p d Hp. by apply B2, A2.
    + intros p r d Hr Hd. eapply B3; [|done]. by eapply A3.
    + intros y Hy. by apply B4, A4.
    + intros t log Hin Ht. rewrite (B5 t log); [by eapply A5|by apply A1|done].
  - intros n nd x ndx ndx'' Hn Htok Hx Hx''. destruct (K1 n nd Hn) as (nd' & Hn' & HA).
    destruct (K1 x ndx Hx) as (ndx' & Hx' & _).
    rewrite (H2 n nd' x ndx' ndx''); [by eapply H1|done|by apply (nk_tok _ _ _ HA)|done..].
Qed.

Lemma keeps_update tid w n nd nd' :
  w !! n = Some nd → node_keeps tid nd nd' →
  (∀ m ndm, w !! m = Some ndm → (tid, Consumer) ∈ nd_tok ndm → head_of (nd_lm nd') m = head_of (nd_lm nd) m) →
  keeps tid w (<[n := nd']> w).
Proof.
  intros Hn Hk Hh. constructor.
  - intros m ndm Hm. rewrite (lookup_upd _ _ _ _ _ Hn). case_decide; subst.
    + exists nd'. split; [done|]. congruence.
    + exists ndm. split; [done|apply node_keeps_refl].
  - intros m ndm x ndx ndx' Hm Htok Hx. rewrite (lookup_upd _ _ _ _ _ Hn). case_decide; subst.
    + intros [= <-]. rewrite Hn in Hx. injection Hx as <-. by eapply Hh.
    + intros Hx'. congruence.
Qed.

Lemma keeps_quiet tid w n nd nd' :
  w !! n = Some nd → node_keeps tid nd nd' → quiet nd nd' → keeps tid w (<[n := nd']> w).
Proof. intros Hn Hk Hq. eapply keeps_update; [done..|]. intros. apply (q_head _ _ Hq). Qed.

(** The update of a node by a quiet action of thread [tid]. *)
Lemma quiet_sound tid w n nd nd' :
  world_ok w → w !! n = Some nd →
  node_ok n nd' ∧ quiet nd nd' ∧ (∀ tid', tid' ≠ tid → node_keeps tid' nd nd') →
  world_ok (<[n := nd']> w) ∧ ∀ tid', tid' ≠ tid → keeps tid' w (<[n := nd']> w).
Proof.
  intros Hw Hn (Hok & Hq & Hk). split; [by eapply world_quiet|].
  intros tid' Hne. eapply keeps_quiet; [done|by apply Hk|done].
Qed.

(** Reading off what a successful action required. *)
Lemma from_option_done {W X Y} (o : option Y) (f : Y → result W X) r ev v :
  from_option o f = Done r ev v → ∃ y, o = Some y ∧ f y = Done r ev v.
Proof. destruct o as [y|]; [|done]. intros H. by exists y. Qed.

Lemma require_done {W X} b (res : result W X) r ev v :
  require b res = Done r ev v → b = true ∧ res = Done r ev v.
Proof. by destruct b. Qed.

Lemma consumer_keeps tid w n nd nd' :
  w !! n = Some nd → nd_tok nd' = nd_tok nd → nd_sys nd' = nd_sys nd →
  (∀ y, y ∈ nd_seen nd → y ∈ nd_seen nd') → keeps tid w (<[n := nd']> w).
Proof.
  intros Hn Ht Hs Hseen. eapply keeps_update; [done| |by unfold nd_lm; rewrite Hs].
  constructor; unfold published_with, nd_lm; rewrite ?Ht, ?Hs; done.
Qed.

Ltac done_inv H :=
  repeat match type of H with
  | from_option _ _ = Done _ _ _ => apply from_option_done in H as (? & ? & H)
  | require _ _ = Done _ _ _ => apply require_done in H as [? H]
  end.
Ltac split_bools :=
  repeat match goal with
  | H : _ && _ = true |- _ => apply andb_prop in H as [? ?]
  | H : bool_decide _ = true |- _ => apply bool_decide_eq_true in H
  end.

Lemma act_sound `{EB : !EagerBuild cfg} n tid {X} (a : act X) w r ev w' :
  world_ok w → act_step n tid a w = Done r ev w' →
  world_ok w' ∧ ∀ tid', tid' ≠ tid → keeps tid' w w'.
Proof.
  intros Hw H. unfold act_step in H. apply from_option_done in H as (nd & Hn & H).
  pose proof (wo_node _ Hw n nd Hn) as Hok.
  destruct a as [|log|log entry|log rel|t log rel|x| | |i|i val|x|x log|x|addr|fuel b e|tr|addr size|addr size]; done_inv H; split_bools.
  - destruct x as [[log|] lm']; injection H as <- <- <-.
    + destruct (get_log_node n nd tid log lm' Hok ltac:(done)) as (? & ? & ? & _). by apply (quiet_sound tid _ _ nd).
    + destruct (get_null_node n nd lm' Hok ltac:(done)) as (? & ? & Hk).
      apply (quiet_sound tid _ _ nd); [done..|]. split_and!; [done..|]. intros. apply Hk.
  - injection H as <- <- <-. split; [done|]. intros. apply keeps_refl.
  - injection H as <- <- <-. destruct (write_log_node n nd tid log entry x Hok ltac:(done) ltac:(rewrite (eb_table) in *; done) ltac:(done))
      as (? & ? & ? & _). by apply (quiet_sound tid _ _ nd).
  - unfold reserve_tail in H. destruct (Z.ltb_spec (Z.of_nat (length (hist (nd_sys nd))) + 1 + 2 * Z.of_nat LOG_COUNT) (2 ^ 32)); [|done].
    injection H as <- <- <-. by apply (quiet_sound tid _ _ nd), (reserve_node n nd tid log rel).
  - destruct (publish (Z.of_nat (Z.to_nat t)) log rel (nd_lm nd)) as [clk lm'] eqn:Ep. injection H as <- <- <-.
    destruct (publish_node n nd tid (Z.to_nat t) log rel Hok ltac:(done)) as (? & ? & ? & _).
    rewrite Ep in *. by apply (quiet_sound tid _ _ nd).
  - injection H as <- <- <-. split; [done|]. intros. apply keeps_refl.
  - destruct (locked nd) eqn:El; injection H as <- <- <-.
    + split; [done|]. intros. apply keeps_refl.
    + by apply (quiet_sound tid _ _ nd), lock_node.
  - injection H as <- <- <-. by apply (quiet_sound tid _ _ nd), unlock_node.
  - injection H as <- <- <-. split; [done|]. intros. apply keeps_refl.
  - injection H as <- <- <-. split; [eapply update_clock_world; [done..|]; by apply Z.leb_le|].
    intros tid' _. by apply (consumer_keeps _ _ _ nd).
  - injection H as <- <- <-. split; [done|]. intros. apply keeps_refl.
  - match goal with He : process_log _ _ = Some ?z |- _ => destruct z as [tr ci] end. injection H as <- <- <-.
    match goal with Hx : w !! x = Some ?ndx, He : _ <$> take_head n _ = _ |- _ =>
      destruct (process_log_world w n nd x ndx log Hw Hn Hx ltac:(done) He) as (tr' & ci' & Heq & Hw') end.
    match goal with He : process_log _ _ = Some (tr, ci) |- _ => rewrite Heq in He; injection He as -> -> end.
    split; [done|]. intros tid' _. apply (consumer_keeps _ _ _ nd); [done..|]. intros y Hy. by right.
  - injection H as <- <- <-.
    match goal with Hx : w !! x = Some ?ndx, He : is_Some (take_head n _), Hs : seen nd x _ = true |- _ =>
      destruct He as [e He]; unfold seen in Hs; apply existsb_exists in Hs as ([[x' p'] tr] & Hin%list_elem_of_In & Hp%bool_decide_eq_true);
      cbn in Hp; injection Hp as -> ->;
      destruct (consume_head_world w n nd x ndx e tr Hw Hn Hx ltac:(done) He Hin) as [Hw' Hh];
      split; [done|]; intros tid' Hne; eapply keeps_update; [done|by constructor|] end.
    intros m ndm Hm Htok. rewrite Hh. case_decide; [subst m|done]. rewrite Hn in Hm. injection Hm as <-.
    destruct Hne. by eapply owner_unique.
  - destruct (invalidate_if_dirty _ _) as [[b tr] t]. injection H as <- <- <-.
    destruct (tracker_node n nd t Hok) as (? & ? & Hk). by apply (quiet_sound tid _ _ nd).
  - destruct (invalidate_range_if_dirty _ _ _ _) as [[[c tr] t]|]; [|done]. injection H as <- <- <-.
    destruct (tracker_node n nd t Hok) as (? & ? & Hk). by apply (quiet_sound tid _ _ nd).
  - injection H as <- <- <-. split; [done|]. intros. apply keeps_refl.
  - injection H as <- <- <-. split; [done|]. intros. apply keeps_refl.
  - injection H as <- <- <-. split; [done|]. intros. apply keeps_refl.
Qed.

Lemma rely_sound `{EB : !EagerBuild cfg} tid w w' :
  world_ok w → rely tid w w' → world_ok w' ∧ keeps tid w w'.
Proof.
  intros Hw Hr. revert Hw. induction Hr as [w0 | w0 w1 w2 (n & tid' & X & a & r & ev & Hne & Hs) _ IH]; intros Hw.
  - split; [done|apply keeps_refl].
  - destruct (act_sound n tid' a w0 r ev w1 Hw Hs) as [Hw1 Hk]. destruct (IH Hw1) as [Hw2 Hk2].
    split; [done|]. eapply keeps_trans; [|done]. apply Hk. congruence.
Qed.
End invariant.
