(* ===== verification/Logic.v ===== *)
(** Logic: a program logic for the operations.

    [triple n tid P pr R]: started by thread [tid] of node [n] in a world that
    satisfies the invariant and [P], and whatever the other threads do in
    between, the program never crashes and, when it returns, its result, the
    events it issued and the final world are related by [R]. The assertions about
    the thread's own tokens are [stable] under the other threads; those about
    published and processed positions are [persistent]: nothing takes them back. *)
From S2P Require Import Prelude Config VectorClock ClGroup FlushUtils SpmcQueue LogManager.
From S2P Require Import CacheInfo Actions Invariant.

Section logic.
Context `{cfg : Config} {ok : ConfigOk cfg} {EB : EagerBuild cfg} {Q : Type} `{FQ : !FifoQueue Q nat LOG_COUNT}.
Implicit Types (w : world Q) (nd : node Q) (n tid log p : nat) (P : world Q → Prop).

(** ** Assertions *)

Definition stable tid P : Prop := ∀ w w', world_ok w' → keeps tid w w' → P w → P w'.

Definition grows w w' : Prop :=
  ∀ n nd, w !! n = Some nd → ∃ nd', w' !! n = Some nd' ∧
    (∀ p d, published_with nd p d → published_with nd' p d) ∧
    (∀ p r d, hist (nd_sys nd) !! p = Some r → pr_data r = Some d → hist (nd_sys nd') !! p = Some r) ∧
    (∀ y, y ∈ nd_seen nd → y ∈ nd_seen nd').

Definition persistent P : Prop := ∀ w w', grows w w' → P w → P w'.

(** Position [p] of node [x] is published with these entries and this flag. *)
Definition published_at x p (d : list Z) (rel : bool) w : Prop :=
  ∃ nd r, w !! x = Some nd ∧ hist (nd_sys nd) !! p = Some r ∧ pr_data r = Some d ∧ pr_rel r = rel.

(** Node [n] has processed position [p] of node [x]. *)
Definition processed_at n x p w : Prop := ∃ nd tr, w !! n = Some nd ∧ (x, p, tr) ∈ nd_seen nd.

(** The thread has this token. *)
Definition has_token n tid (t : token) w : Prop := ∃ nd, w !! n = Some nd ∧ (tid, t) ∈ nd_tok nd.

(** The thread fills [log], and has written these entries. *)
Definition my_log n tid log (es : list Z) w : Prop :=
  ∃ nd, w !! n = Some nd ∧ (tid, Holds log) ∈ nd_tok nd ∧
    log_entries (log_at (nd_lm nd) log) = es ∧ log_size (log_at (nd_lm nd) log) = length es.

(** It is about to publish [log] at position [p]. *)
Definition my_position n tid p log r (es : list Z) w : Prop :=
  ∃ nd, w !! n = Some nd ∧ (tid, Reserved p log r) ∈ nd_tok nd ∧
    log_entries (log_at (nd_lm nd) log) = es.

(** It holds the mutex of its node, whose head in the log of [x] is [h]. *)
Definition my_head n tid x (h : nat) w : Prop :=
  ∃ nd ndx, w !! n = Some nd ∧ (tid, Consumer) ∈ nd_tok nd ∧ w !! x = Some ndx ∧
    head_of (nd_lm ndx) n = Z.of_nat h.

(** It holds the mutex and looks at the entry [e] of position [h]. *)
Definition my_entry n tid x (h : nat) (e : PubEntry) w : Prop :=
  my_head n tid x h w ∧
  ∃ ndx r d, w !! x = Some ndx ∧ hist (nd_sys ndx) !! h = Some r ∧ pr_data r = Some d ∧
    e = mkPub (pr_log r) (Z.of_nat h + 1) (pr_rel r).

(** Everything of node [x] below clock [c] has been processed at [n]. *)
Definition processed_upto n x (c : Z) w : Prop := ∀ p, Z.of_nat p < c → processed_at n x p w.

Definition triple n tid {A} P (pr : prog A) (R : A → list tevent → world Q → Prop) : Prop :=
  ∀ w o tr w', world_ok w → P w → exec n tid pr w o tr w' →
    world_ok w' ∧ o ≠ Crashed ∧ ∀ a, o = Returned a → R a tr w'.

(** ** Lemmas: growth and stability *)

Lemma keeps_grows tid w w' : keeps tid w w' → grows w w'.
Proof.
  intros [K _] n nd Hn. destruct (K n nd Hn) as (nd' & Hn' & [_ H1 H2 H3 _]). exists nd'. done.
Qed.

Lemma grows_refl w : grows w w.
Proof. intros n nd Hn. by exists nd. Qed.

Lemma grows_persistent w0 : persistent (grows w0).
Proof.
  intros w w' Hg H n nd Hn. destruct (H n nd Hn) as (nd1 & Hn1 & A1 & A2 & A3).
  destruct (Hg n nd1 Hn1) as (nd2 & Hn2 & B1 & B2 & B3). exists nd2. split; [done|]. split_and!; eauto.
Qed.

Lemma act_grows n tid {X} (a : act X) w r ev w' :
  world_ok w → act_step n tid a w = Done r ev w' → grows w w'.
Proof.
  intros Hw Hs. destruct (act_sound n tid a w r ev w' Hw Hs) as [_ Hk].
  apply (keeps_grows (S tid)). apply Hk. lia.
Qed.

Lemma persistent_stable tid P : persistent P → stable tid P.
Proof. intros HP w w' _ Hk. apply HP. by eapply keeps_grows. Qed.

Lemma stable_and tid P P' : stable tid P → stable tid P' → stable tid (λ w, P w ∧ P' w).
Proof. intros H1 H2 w w' Hw Hk [? ?]. split; [by eapply H1|by eapply H2]. Qed.

Lemma stable_frame tid P F : persistent P → stable tid F → stable tid (λ w, P w ∧ F w).
Proof. intros. apply stable_and; [by apply persistent_stable|done]. Qed.

Lemma persistent_and P P' : persistent P → persistent P' → persistent (λ w, P w ∧ P' w).
Proof. intros H1 H2 w w' Hg [? ?]. split; [by eapply H1|by eapply H2]. Qed.

Lemma persistent_pure (b : Prop) : persistent (λ _, b).
Proof. by intros w w' _ Hb. Qed.

Lemma persistent_forall {A} (F : A → world Q → Prop) : (∀ a, persistent (F a)) → persistent (λ w, ∀ a, F a w).
Proof. intros H w w' Hg Hf a. by eapply H. Qed.

Lemma persistent_exists {A} (F : A → world Q → Prop) : (∀ a, persistent (F a)) → persistent (λ w, ∃ a, F a w).
Proof. intros H w w' Hg [a Hf]. exists a. by eapply H. Qed.

Lemma persistent_impl (b : Prop) P : persistent P → persistent (λ w, b → P w).
Proof. intros H w w' Hg Hf Hb. eapply H; [done|by apply Hf]. Qed.

Lemma published_persistent x p d rel : persistent (published_at x p d rel).
Proof.
  intros w w' Hg (nd & r & Hn & Hr & Hd & Hrel). destruct (Hg x nd Hn) as (nd' & Hn' & _ & Hh & _).
  exists nd', r. split; [done|]. split; [by eapply Hh|done].
Qed.

Lemma processed_persistent n x p : persistent (processed_at n x p).
Proof.
  intros w w' Hg (nd & tr & Hn & Hin). destruct (Hg n nd Hn) as (nd' & Hn' & _ & _ & Hs).
  exists nd', tr. split; [done|by apply Hs].
Qed.

Lemma processed_upto_persistent n x c : persistent (processed_upto n x c).
Proof. apply persistent_forall. intros p. apply persistent_impl, processed_persistent. Qed.

Lemma my_log_stable n tid log es : stable tid (my_log n tid log es).
Proof.
  intros w w' _ [K _] (nd & Hn & Ht & He & Hs). destruct (K n nd Hn) as (nd' & Hn' & [H1 _ _ _ H5]).
  exists nd'. rewrite (H5 (Holds log) log) by done. split_and!; [done|by apply H1|done|done].
Qed.

Lemma my_position_stable n tid p log r es : stable tid (my_position n tid p log r es).
Proof.
  intros w w' _ [K _] (nd & Hn & Ht & He). destruct (K n nd Hn) as (nd' & Hn' & [H1 _ _ _ H5]).
  exists nd'. rewrite (H5 (Reserved p log r) log) by done. split_and!; [done|by apply H1|done].
Qed.

Lemma my_head_stable n tid x h : stable tid (my_head n tid x h).
Proof.
  intros w w' _ [K H] (nd & ndx & Hn & Ht & Hx & Hh). destruct (K n nd Hn) as (nd' & Hn' & [H1 _ _ _ _]).
  destruct (K x ndx Hx) as (ndx' & Hx' & _). exists nd', ndx'.
  split_and!; [done|by apply H1|done|]. rewrite <- Hh. by eapply H.
Qed.

Lemma my_entry_stable n tid x h e : stable tid (my_entry n tid x h e).
Proof.
  apply stable_and; [apply my_head_stable|]. apply persistent_stable.
  intros w w' Hg (ndx & r & d & Hx & Hr & Hd & ->). destruct (Hg x ndx Hx) as (ndx' & Hx' & _ & Hh & _).
  exists ndx', r, d. split_and!; [done|by eapply Hh|done|done].
Qed.

Lemma has_token_stable n tid t : stable tid (has_token n tid t).
Proof.
  intros w w' _ [K _] (nd & Hn & Ht). destruct (K n nd Hn) as (nd' & Hn' & [H1 _ _ _ _]).
  exists nd'. split; [done|by apply H1].
Qed.

(** ** Lemmas: the rules *)

Lemma triple_conseq n tid {A} P P' (pr : prog A) R R' :
  triple n tid P' pr R' → (∀ w, world_ok w → P w → P' w) → (∀ a tr w, world_ok w → R' a tr w → R a tr w) →
  triple n tid P pr R.
Proof.
  intros Ht HP HR w o tr w' Hw Hp He. destruct (Ht w o tr w' Hw (HP w Hw Hp) He) as (Hw' & Ho & Hr).
  split; [done|]. split; [done|]. intros a Ha. by apply HR, Hr.
Qed.

Lemma triple_pre n tid {A} P P' (pr : prog A) R :
  (∀ w, world_ok w → P w → P' w) → triple n tid P' pr R → triple n tid P pr R.
Proof. intros HP Ht. by apply (triple_conseq n tid P P' pr R R). Qed.

Lemma triple_ret n tid {A} P (a : A) R : (∀ w, world_ok w → P w → R a [] w) → triple n tid P (mret a) R.
Proof. intros H w o tr w' Hw Hp (-> & -> & ->). split; [done|]. split; [done|]. intros b [= <-]. by apply H. Qed.

Lemma triple_fuel n tid {A} P R : triple n tid P (OutOfFuel : prog A) R.
Proof. intros w o tr w' Hw _ (-> & -> & ->). done. Qed.

Lemma triple_bind n tid {A B} P (pr : prog A) (f : A → prog B) R1 R :
  triple n tid P pr R1 →
  (∀ a tr1, triple n tid (R1 a tr1) (f a) (λ b tr2, R b (tr1 ++ tr2))) →
  triple n tid P (pr ≫= f) R.
Proof.
  intros H1 H2 w o tr w' Hw Hp He.
  apply exec_bind_inv in He as [(a & tr1 & w1 & tr2 & He1 & He2 & ->)|[[-> He]|[-> He]]].
  - destruct (H1 w _ tr1 w1 Hw Hp He1) as (Hw1 & _ & Hr1).
    by apply (H2 a tr1 w1 o tr2 w' Hw1 (Hr1 a eq_refl) He2).
  - destruct (H1 w _ tr w' Hw Hp He) as (Hw1 & ? & _). done.
  - destruct (H1 w _ tr w' Hw Hp He) as (Hw1 & _ & _). done.
Qed.

(** Binds can be reassociated. *)
Lemma prog_bind_assoc {A B C} (p : prog A) (f : A → prog B) (g : B → prog C) n tid w o tr w' :
  exec n tid ((p ≫= f) ≫= g) w o tr w' ↔ exec n tid (p ≫= λ a, f a ≫= g) w o tr w'.
Proof.
  revert w o tr w'. induction p as [a|X a k IH| |]; intros w o tr w'; cbn; [done| |done|done].
  apply exist_proper. intros w1. apply and_iff_compat_l. destruct (act_step n tid a w1) as [r ev w2| |]; [|done|done].
  apply exist_proper. intros tr1. apply and_iff_compat_l. apply IH.
Qed.

Lemma triple_assoc n tid {A B C} (p : prog A) (f : A → prog B) (g : B → prog C) P R :
  triple n tid P (p ≫= λ a, f a ≫= g) R → triple n tid P ((p ≫= f) ≫= g) R.
Proof. intros Ht w o tr w' Hw Hp He%prog_bind_assoc. by apply (Ht w o tr w'). Qed.

(** A condition that does not depend on the world can be assumed. *)
Lemma triple_pure n tid {A} (b : Prop) P (pr : prog A) R :
  (b → triple n tid P pr R) → triple n tid (λ w, b ∧ P w) pr R.
Proof. intros H w o tr w' Hw [Hb Hp]. by apply H. Qed.

Lemma triple_exists n tid {A B} (F : B → world Q → Prop) (pr : prog A) R :
  (∀ b, triple n tid (F b) pr R) → triple n tid (λ w, ∃ b, F b w) pr R.
Proof. intros H w o tr w' Hw [b Hp]. by apply (H b). Qed.

(** One action: it does not crash where [P] holds, and establishes [R]. *)
Lemma triple_act n tid {X} P (a : act X) R :
  stable tid P →
  (∀ w, world_ok w → P w → act_step n tid a w ≠ Crash ∧
     ∀ r ev w', world_ok w' → act_step n tid a w = Done r ev w' → R r ev w') →
  triple n tid P (perform a) R.
Proof.
  intros HP Ha w o tr w' Hw Hp (w1 & Hr & He). destruct (rely_sound tid w w1 Hw Hr) as [Hw1 Hk].
  destruct (Ha w1 Hw1 (HP _ _ Hw1 Hk Hp)) as [Hnc Hd].
  destruct (act_step n tid a w1) as [r ev w2| |] eqn:E; [|done|].
  - destruct (act_sound n tid a w1 r ev w2 Hw1 E) as [Hw2 _].
    destruct He as (tr' & -> & -> & -> & ->). split; [done|]. split; [done|].
    intros b [= <-]. rewrite app_nil_r. by apply Hd.
  - destruct He as (-> & -> & ->). done.
Qed.

Lemma triple_of_option n tid {A} P (o : option A) R :
  (∀ a, o = Some a → ∀ w, world_ok w → P w → R a [] w) → triple n tid P (of_option o) R.
Proof. intros H. destruct o as [a|]; [|apply triple_fuel]. apply triple_ret. by apply H. Qed.
End logic.
