(* ===== verification/ActionSpecs.v ===== *)
(** ActionSpecs: what each action of a thread does, as triples of Logic.

    The proofs use the effect lemmas of Invariant on the node the action changes;
    the frame [P] of each triple is any persistent assertion. *)
From S2P Require Import Prelude Config VectorClock ClGroup FlushUtils SpmcQueue LogManager.
From S2P Require Import CacheInfo Actions Invariant Logic.

Ltac act_open Hn := unfold act_step; rewrite Hn; cbn [from_option].

Section specs.
Context `{cfg : Config} {ok : ConfigOk cfg} {EB : EagerBuild cfg} {Q : Type} `{FQ : !FifoQueue Q nat LOG_COUNT}.
Implicit Types (w : world Q) (nd : node Q) (n tid log p : nat) (P : world Q → Prop).

(** ** Lemmas: the actions on logs *)

Lemma node_exists w n : world_ok w → (n < NODE_COUNT)%nat → ∃ nd, w !! n = Some nd.
Proof. intros Hw Hn. apply lookup_lt_is_Some. by rewrite (wo_length _ Hw). Qed.

Lemma bool_owns tid t nd : (tid, t) ∈ nd_tok nd → bool_decide ((tid, t) ∈ nd_tok nd) = true.
Proof. intros. by apply bool_decide_eq_true. Qed.

Lemma spec_get_new_log n tid P :
  (n < NODE_COUNT)%nat → persistent P →
  triple n tid P (perform GetNewLog)
    (λ r ev w, ev = [] ∧ P w ∧ match r with Some log => my_log n tid log [] w | None => True end).
Proof.
  intros Hlt HP. apply triple_act; [by apply persistent_stable|]. intros w Hw Hp.
  destruct (node_exists w n Hw Hlt) as [nd Hn]. pose proof (wo_node _ Hw n nd Hn) as Hok.
  pose proof (act_grows n tid GetNewLog w) as Hg. revert Hg. act_open Hn.
  destruct (no_inv _ _ Hok) as (g & F & I).
  destruct (get_new_log_spec _ _ _ I (no_nowrap _ _ Hok)) as (r & lm' & Heq & _). unfold nd_lm in *. rewrite Heq.
  cbn [from_option]. intros Hg. destruct r as [log|].
  - split; [done|]. intros r ev w' _ Hd. specialize (Hg r ev w' Hw Hd). injection Hd as <- <- <-.
    split; [done|]. split; [by eapply HP|].
    destruct (get_log_node n nd tid log lm' Hok Heq) as (_ & _ & _ & He & Hs).
    eexists. rewrite (lookup_upd _ _ _ _ _ Hn), decide_True by done. split; [done|]. split; [by left|]. done.
  - split; [done|]. intros r ev w' _ Hd. specialize (Hg r ev w' Hw Hd). injection Hd as <- <- <-.
    split; [done|]. split; [by eapply HP|done].
Qed.

(** Actions that only read, or only issue events. *)
Lemma spec_read n tid {X} P (a : act X) (R : X → world Q → Prop) (evs : list tevent) :
  stable tid P →
  (∀ w, world_ok w → P w → ∃ r, act_step n tid a w = Done r evs w ∧ R r w) →
  triple n tid P (perform a) (λ r ev w, ev = evs ∧ P w ∧ R r w).
Proof.
  intros HP Ha. apply triple_act; [done|]. intros w Hw Hp. destruct (Ha w Hw Hp) as (r & -> & HR).
  split; [done|]. by intros r' ev w' _ [= <- <- <-].
Qed.

Lemma spec_flush n tid P tr :
  (n < NODE_COUNT)%nat → stable tid P →
  triple n tid P (perform (FlushLines tr)) (λ _ ev w, ev = map EvFlush tr ∧ P w ∧ True).
Proof.
  intros Hlt HP. apply spec_read; [done|]. intros w Hw _. destruct (node_exists w n Hw Hlt) as [nd Hn].
  exists tt. by act_open Hn.
Qed.

Lemma spec_store n tid P addr size :
  (n < NODE_COUNT)%nat → stable tid P →
  triple n tid P (perform (StoreBytes addr size)) (λ _ ev w, ev = map EvStore (lines_of addr size) ∧ P w ∧ True).
Proof.
  intros Hlt HP. apply spec_read; [done|]. intros w Hw _. destruct (node_exists w n Hw Hlt) as [nd Hn].
  exists tt. by act_open Hn.
Qed.

Lemma spec_load n tid P addr size :
  (n < NODE_COUNT)%nat → stable tid P →
  triple n tid P (perform (LoadBytes addr size)) (λ _ ev w, ev = map EvLoad (lines_of addr size) ∧ P w ∧ True).
Proof.
  intros Hlt HP. apply spec_read; [done|]. intros w Hw _. destruct (node_exists w n Hw Hlt) as [nd Hn].
  exists tt. by act_open Hn.
Qed.

Lemma my_log_frame_stable n tid log es P : persistent P → stable tid (λ w, P w ∧ my_log n tid log es w).
Proof. intros HP. apply stable_frame; [done|apply my_log_stable]. Qed.

Lemma spec_is_full n tid P log es :
  persistent P →
  triple n tid (λ w, P w ∧ my_log n tid log es w) (perform (LogIsFull log))
    (λ r ev w, ev = [] ∧ (P w ∧ my_log n tid log es w) ∧ r = (length es =? LOG_SIZE)%nat).
Proof.
  intros HP. apply spec_read; [by apply my_log_frame_stable|]. intros w Hw [_ (nd & Hn & Ht & _ & Hs)].
  act_open Hn. rewrite bool_owns by done. cbn. unfold is_full. rewrite Hs. eauto.
Qed.

Lemma spec_log_write n tid P log es e :
  persistent P → log_entry_ok e = true → (length es < LOG_SIZE)%nat →
  triple n tid (λ w, P w ∧ my_log n tid log es w) (perform (LogWrite log e))
    (λ _ ev w, ev = [] ∧ P w ∧ my_log n tid log (es ++ [e]) w).
Proof.
  intros HP He Hlen. apply triple_act; [by apply my_log_frame_stable|].
  intros w Hw [Hp (nd & Hn & Ht & Hes & Hs)]. pose proof (act_grows n tid (LogWrite log e) w) as Hg.
  revert Hg. act_open Hn. rewrite bool_owns, He, orb_true_r by done. cbn [andb require].
  assert (∃ l, log_write e (log_at (nd_lm nd) log) = Some l) as [l Hl].
  { unfold log_write. rewrite Hs. destruct (Nat.ltb_spec (length es) LOG_SIZE); [eauto|lia]. }
  rewrite Hl. cbn [from_option]. intros Hg. split; [done|]. intros r ev w' _ Hd. specialize (Hg r ev w' Hw Hd).
  injection Hd as <- <- <-. split; [done|]. split; [by eapply HP|].
  destruct (write_log_node n nd tid log e l (wo_node _ Hw n nd Hn) Ht He Hl) as (_ & _ & _ & Hat & Hes' & Hs').
  eexists. rewrite (lookup_upd _ _ _ _ _ Hn), decide_True by done. split; [done|].
  rewrite Hat, Hes', Hs', Hes, Hs, length_app. split_and!; [done|done|cbn; lia].
Qed.

(** A world [w0] in which everything published by [n] is below [p]. *)
Definition all_below n p (w0 : world Q) : Prop := ∀ q d rel, published_at n q d rel w0 → (q < p)%nat.

Lemma spec_reserve n tid P log es r :
  persistent P →
  triple n tid (λ w, P w ∧ my_log n tid log es w) (perform (ReserveTail log r))
    (λ t ev w, ∃ (p : nat) w0, (ev = [] ∧ t = Z.of_nat p ∧ P w0 ∧ all_below n p w0) ∧
       grows w0 w ∧ my_position n tid p log r es w).
Proof.
  intros HP. apply triple_act; [by apply my_log_frame_stable|].
  intros w Hw [Hp (nd & Hn & Ht & Hes & Hs)]. pose proof (act_grows n tid (ReserveTail log r) w) as Hg.
  pose proof (wo_node _ Hw n nd Hn) as Hok. destruct (no_inv _ _ Hok) as (g & F & I).
  revert Hg. act_open Hn. rewrite bool_owns by done. cbn [andb require]. unfold reserve_tail.
  destruct (Z.ltb_spec (Z.of_nat (length (hist (nd_sys nd))) + 1 + 2 * Z.of_nat LOG_COUNT) (2 ^ 32)); [|done].
  intros Hg. split; [done|]. intros t ev w' _ Hd. specialize (Hg t ev w' Hw Hd). injection Hd as <- <- <-.
  exists (length (hist (nd_sys nd))), w. split_and!; [done|apply (inv_tail _ _ _ I)|done| |done|].
  - intros q d rel (nd' & rr & Hn' & Hq & _). rewrite Hn in Hn'. injection Hn' as <-. by eapply lookup_lt_Some.
  - eexists. rewrite (lookup_upd _ _ _ _ _ Hn), decide_True by done. split; [done|]. split; [by left|]. done.
Qed.

Lemma spec_publish n tid P p log es r :
  persistent P →
  triple n tid (λ w, P w ∧ my_position n tid p log r es w) (perform (PublishTail (Z.of_nat p) log r))
    (λ clk ev w, ev = [EvPublish p] ∧ P w ∧ clk = Z.of_nat p + 1 ∧ published_at n p es r w).
Proof.
  intros HP. apply triple_act; [apply stable_frame; [done|apply my_position_stable]|].
  intros w Hw [Hp (nd & Hn & Ht & Hes)]. pose proof (act_grows n tid (PublishTail (Z.of_nat p) log r) w) as Hg.
  pose proof (wo_node _ Hw n nd Hn) as Hok. revert Hg. act_open Hn. rewrite Nat2Z.id, bool_owns by done. cbn [require].
  destruct (publish_node n nd tid p log r Hok Ht) as (_ & _ & _ & Hh & Hc).
  destruct (publish (Z.of_nat p) log r (nd_lm nd)) as [clk lm'] eqn:Ep. cbn [fst snd] in *.
  intros Hg. split; [done|]. intros t ev w' _ Hd. specialize (Hg t ev w' Hw Hd). injection Hd as <- <- <-.
  split; [done|]. split; [by eapply HP|]. split; [done|]. rewrite <- Hes.
  eexists _, _. rewrite (lookup_upd _ _ _ _ _ Hn), decide_True by done. split; [done|]. split; [exact Hh|]. done.
Qed.

(** ** Lemmas: the actions of a consumer *)

Lemma my_entry_take n tid x h e w nd ndx :
  world_ok w → x ≠ n → w !! n = Some nd → w !! x = Some ndx → my_entry n tid x h e w →
  take_head n (nd_lm ndx) = Some e ∧ head_of (nd_lm ndx) n = Z.of_nat h.
Proof.
  intros Hw Hne Hn Hx [(nd' & ndx' & Hn' & _ & Hx' & Hh) (ndx'' & r & d & Hx'' & Hr & Hd & ->)].
  rewrite Hx in Hx', Hx''. injection Hx' as <-. injection Hx'' as <-. split; [|done].
  pose proof (wo_node _ Hw x ndx Hx) as Hok. destruct (no_inv _ _ Hok) as (g & F & I).
  assert (subscriber (nd_lm ndx) n) as Hs.
  { assert (n < NODE_COUNT)%nat by (rewrite <- (wo_length _ Hw); by eapply lookup_lt_Some).
    split_and!; [done| |by apply (no_subs _ _ Hok)]. rewrite (no_id _ _ Hok). congruence. }
  destruct (subscriber_head I n Hs) as (h' & Hh' & Hr' & _). unfold nd_lm in *. rewrite Hh in Hh'.
  assert (h' = h) as -> by lia.
  destruct (published_idx I h) as (r' & d' & Hr2 & _ & Hpa & _); [lia|exists r; split; [done|congruence]|].
  rewrite Hr in Hr2. injection Hr2 as <-. pose proof (no_nowrap _ _ Hok) as Hnw. unfold no_wrap in Hnw.
  pose proof log_count_range. unfold take_head. rewrite Hh, Hpa, add32_1_nat by lia. cbn.
  by replace (Z.of_nat (S h)) with (Z.of_nat h + 1) by lia; rewrite Z.eqb_refl.
Qed.

Lemma spec_get_clock n tid P i :
  (n < NODE_COUNT)%nat → (i < NODE_COUNT)%nat → i ≠ n → persistent P →
  triple n tid P (perform (GetClock i)) (λ c ev w, ev = [] ∧ P w ∧ processed_upto n i c w).
Proof.
  intros Hn Hi Hne HP. apply spec_read; [by apply persistent_stable|]. intros w Hw _.
  destruct (node_exists w n Hw Hn) as [nd En], (node_exists w i Hw Hi) as [ndi Ei]. act_open En.
  eexists. split; [done|]. intros p Hp. pose proof (wo_pair _ Hw n nd i ndi En Ei) as [_ H2 H3].
  destruct (H2 p) as [tr Htr]; [done|specialize (H3 Hne); lia|]. by exists nd, tr.
Qed.

(** The clock read under the mutex is not ahead of the head. *)
Lemma spec_get_clock_locked n tid P i h :
  i ≠ n → persistent P →
  triple n tid (λ w, P w ∧ my_head n tid i h w) (perform (GetClock i))
    (λ c ev w, ev = [] ∧ (P w ∧ my_head n tid i h w) ∧ c ≤ Z.of_nat h).
Proof.
  intros Hne HP. apply spec_read; [apply stable_frame; [done|apply my_head_stable]|].
  intros w Hw [_ (nd & ndi & En & _ & Ei & Hh)]. act_open En. eexists. split; [done|].
  pose proof (wo_pair _ Hw n nd i ndi En Ei) as [_ _ H3]. rewrite <- Hh. by apply H3.
Qed.

(** Under the mutex everything below the head has been processed. *)
Lemma my_head_processed n tid x h w :
  world_ok w → x ≠ n → my_head n tid x h w → processed_upto n x (Z.of_nat h) w.
Proof.
  intros Hw Hne (nd & ndx & En & _ & Ex & Hh) p Hp. pose proof (wo_pair _ Hw n nd x ndx En Ex) as [_ H2 _].
  destruct (H2 p Hne) as [tr Htr]; [lia|]. by exists nd, tr.
Qed.

Lemma spec_is_subscribed n tid P x :
  (n < NODE_COUNT)%nat → (x < NODE_COUNT)%nat → stable tid P →
  triple n tid P (perform (IsSubscribed x)) (λ b ev w, ev = [] ∧ P w ∧ b = true).
Proof.
  intros Hn Hx HP. apply spec_read; [done|]. intros w Hw _.
  destruct (node_exists w n Hw Hn) as [nd En], (node_exists w x Hw Hx) as [ndx Ex].
  act_open En. rewrite Ex. cbn [from_option]. eexists. split; [done|].
  by apply (no_subs _ _ (wo_node _ Hw x ndx Ex)).
Qed.

(** Every head is a natural number. *)
Lemma head_nat w n x ndx :
  world_ok w → (n < NODE_COUNT)%nat → x ≠ n → w !! x = Some ndx → ∃ h : nat, head_of (nd_lm ndx) n = Z.of_nat h.
Proof.
  intros Hw Hn Hne Hx. pose proof (wo_node _ Hw x ndx Hx) as Hok. destruct (no_inv _ _ Hok) as (g & F & I).
  destruct (subscriber_head I n) as (h & Hh & _); [|by exists h].
  split_and!; [done| |by apply (no_subs _ _ Hok)]. intros ->. apply Hne. symmetry. apply (no_id _ _ Hok).
Qed.

Lemma spec_try_lock n tid P :
  (n < NODE_COUNT)%nat → persistent P →
  triple n tid P (perform TryLock)
    (λ b ev w, ev = [] ∧ P w ∧ if b : bool then has_token n tid Consumer w else True).
Proof.
  intros Hlt HP. apply triple_act; [by apply persistent_stable|]. intros w Hw Hp.
  destruct (node_exists w n Hw Hlt) as [nd Hn]. pose proof (act_grows n tid TryLock w) as Hg.
  revert Hg. act_open Hn. destruct (locked nd); intros Hg; (split; [done|]); intros r ev w' _ Hd;
    specialize (Hg r ev w' Hw Hd); injection Hd as <- <- <-; (split; [done|]); (split; [by eapply HP|]); [done|].
  eexists. rewrite (lookup_upd _ _ _ _ _ Hn), decide_True by done. split; [done|]. by left.
Qed.

Lemma has_token_head n tid x w :
  world_ok w → (n < NODE_COUNT)%nat → (x < NODE_COUNT)%nat → x ≠ n → has_token n tid Consumer w →
  ∃ h, my_head n tid x h w.
Proof.
  intros Hw Hn Hx Hne (nd & En & Ht). destruct (node_exists w x Hw Hx) as [ndx Ex].
  destruct (head_nat w n x ndx Hw Hn Hne Ex) as [h Hh]. by exists h, nd, ndx.
Qed.

Lemma spec_unlock n tid P :
  persistent P →
  triple n tid (λ w, P w ∧ has_token n tid Consumer w) (perform Unlock) (λ _ ev w, ev = [] ∧ P w).
Proof.
  intros HP. apply triple_act; [apply stable_frame; [done|apply has_token_stable]|].
  intros w Hw [Hp (nd & Hn & Ht)]. pose proof (act_grows n tid Unlock w) as Hg. revert Hg.
  act_open Hn. rewrite bool_owns by done. cbn [require]. intros Hg. split; [done|]. intros r ev w' _ Hd.
  specialize (Hg r ev w' Hw Hd). injection Hd as <- <- <-. split; [done|]. by eapply HP.
Qed.

Lemma spec_take_head n tid P x h :
  x ≠ n → persistent P →
  triple n tid (λ w, P w ∧ my_head n tid x h w) (perform (TakeHead x))
    (λ r ev w, ev = [] ∧ (P w ∧ my_head n tid x h w) ∧
       match r with Some e => my_entry n tid x h e w | None => True end).
Proof.
  intros Hne HP. apply spec_read; [apply stable_frame; [done|apply my_head_stable]|].
  intros w Hw [_ Hm]. pose proof Hm as (nd & ndx & En & Ht & Ex & Hh). act_open En. rewrite Ex. cbn [from_option].
  rewrite bool_owns by done. cbn [require]. eexists. split; [done|].
  destruct (take_head n (nd_lm ndx)) as [e|] eqn:E; [|done]. split; [done|].
  pose proof (wo_node _ Hw x ndx Ex) as Hok. destruct (no_inv _ _ Hok) as (g & F & I).
  destruct (head_entry w n nd x ndx e Hw En Ex Hne E) as (h' & d & Hh' & Hmax & Hidx & (r & Hr & Hd) & _ & g' & F' & _ & Hs).
  rewrite Hh in Hh'. assert (h' = h) as -> by lia. exists ndx, r, d. split_and!; [done..|].
  destruct (published_idx I h) as (r' & d' & Hr2 & _ & Hpa & _).
  - destruct (subscriber_head I n Hs) as (k & Hk & ? & _). unfold nd_lm in *. lia.
  - exists r. split; [done|congruence].
  - rewrite Hr in Hr2. injection Hr2 as <-. unfold take_head in E. rewrite Hh in E. unfold nd_lm in E.
    rewrite Hpa in E. destruct (negb _); [done|]. by injection E as <-.
Qed.

Lemma spec_process_log n tid P x h e :
  x ≠ n → persistent P →
  triple n tid (λ w, P w ∧ my_entry n tid x h e w) (perform (ProcessLog x (pe_log e)))
    (λ _ ev w, (∃ tr, ev = map EvFlush tr) ∧ P w ∧ my_entry n tid x h e w ∧ processed_at n x h w).
Proof.
  intros Hne HP. apply triple_act; [apply stable_frame; [done|apply my_entry_stable]|].
  intros w Hw [Hp Hm]. pose proof Hm as [(nd & ndx & En & Ht & Ex & _) _].
  destruct (my_entry_take _ _ _ _ _ _ _ _ Hw Hne En Ex Hm) as [Htk Hh].
  pose proof (act_grows n tid (ProcessLog x (pe_log e)) w) as Hg. revert Hg.
  act_open En. rewrite Ex. cbn [from_option]. rewrite bool_owns, Htk by done.
  rewrite bool_decide_true by done. rewrite bool_decide_true by done. cbn [andb require].
  destruct (process_log_world w n nd x ndx (pe_log e) Hw En Ex Hne) as (tr & ci & Heq & _); [by rewrite Htk|].
  rewrite Heq. cbn [from_option]. intros Hg. split; [done|]. intros r ev w' Hw' Hd.
  specialize (Hg r ev w' Hw Hd). injection Hd as <- <- <-. split; [by exists tr|]. split; [by eapply HP|]. split.
  - destruct Hm as [(nd2 & ndx2 & En2 & _ & Ex2 & Hh2) (ndx3 & r3 & d3 & Ex3 & Hr3 & Hd3 & He3)]. split.
    + eexists _, ndx. rewrite !(lookup_upd _ _ _ _ _ En), decide_True, decide_False by done.
      split; [done|]. split; [done|]. split; done.
    + exists ndx, r3, d3. rewrite Ex in Ex3. injection Ex3 as <-.
      by rewrite (lookup_upd _ _ _ _ _ En), decide_False by done.
  - eexists _, tr. rewrite (lookup_upd _ _ _ _ _ En), decide_True by done. split; [done|].
    cbn [nd_seen set_seen]. rewrite Hh, Nat2Z.id. by left.
Qed.

Lemma spec_consume_head n tid P x h e :
  x ≠ n → persistent P →
  triple n tid (λ w, P w ∧ my_entry n tid x h e w ∧ processed_at n x h w) (perform (ConsumeHead x))
    (λ _ ev w, ev = [] ∧ P w ∧ my_head n tid x (S h) w).
Proof.
  intros Hne HP. apply triple_act.
  { apply stable_frame; [done|]. apply stable_and; [apply my_entry_stable|apply persistent_stable, processed_persistent]. }
  intros w Hw (Hp & Hm & (nd0 & tr & En0 & Hin)). pose proof Hm as [(nd & ndx & En & Ht & Ex & _) _].
  rewrite En in En0. injection En0 as <-.
  destruct (my_entry_take _ _ _ _ _ _ _ _ Hw Hne En Ex Hm) as [Htk Hh].
  pose proof (act_grows n tid (ConsumeHead x) w) as Hg. revert Hg.
  act_open En. rewrite Ex. cbn [from_option]. rewrite bool_owns, Htk, Hh, Nat2Z.id by done.
  rewrite bool_decide_true by done. rewrite bool_decide_true by by exists e.
  assert (seen nd x h = true) as ->.
  { unfold seen. apply existsb_exists. exists (x, h, tr). split; [by apply list_elem_of_In|by apply bool_decide_eq_true]. }
  cbn [andb require]. intros Hg. split; [done|]. intros r ev w' _ Hd. specialize (Hg r ev w' Hw Hd).
  injection Hd as <- <- <-. split; [done|]. split; [by eapply HP|].
  destruct (consume_head_world w n nd x ndx e tr Hw En Ex Hne Htk) as [_ Hheads]; [by rewrite Hh, Nat2Z.id|].
  eexists nd, _. rewrite !(lookup_upd _ _ _ _ _ Ex), decide_False, decide_True by done.
  split; [done|]. split; [done|]. split; [done|]. rewrite Hheads, decide_True by done. lia.
Qed.

Lemma spec_update_clock n tid P i h val :
  i ≠ n → persistent P → val ≤ Z.of_nat h →
  triple n tid (λ w, P w ∧ my_head n tid i h w) (perform (UpdateClock i val))
    (λ _ ev w, ev = [] ∧ P w ∧ has_token n tid Consumer w).
Proof.
  intros Hne HP Hval. apply triple_act; [apply stable_frame; [done|apply my_head_stable]|].
  intros w Hw [Hp (nd & ndi & En & Ht & Ei & Hh)]. pose proof (act_grows n tid (UpdateClock i val) w) as Hg. revert Hg.
  act_open En. rewrite Ei. cbn [from_option]. rewrite bool_owns, (proj2 (Z.leb_le val _)) by (done || lia). cbn [andb require].
  intros Hg. split; [done|]. intros r ev w' _ Hd. specialize (Hg r ev w' Hw Hd). injection Hd as <- <- <-.
  split; [done|]. split; [by eapply HP|]. eexists. rewrite (lookup_upd _ _ _ _ _ En), decide_True by done. done.
Qed.
End specs.
