(* ===== verification/ThreadOps.v ===== *)
(** ThreadOps: [include/threadOps.hpp], what a thread does at a store, a release
    and an acquire.

    The operations are programs over the actions of Actions. The thread-local
    members are the record [ThreadOps], passed through; [log_mgrs] and
    [cache_info] are the world. Spinning loops carry fuel. [sched_yield] does
    nothing here, and the statistics are left out. *)
From S2P Require Import Prelude Config VectorClock ClGroup LocalCLTable FlushUtils SpmcQueue.
From S2P Require Import LogManager CacheInfo Actions.
#[local] Open Scope word_scope.

(** ** Definitions *)

Record ThreadOps := mkThread {
  th_node_id : nat;
  th_thread_id : nat;
  thread_clock : vclock;
  dirty_cls : LocalCLTable;
  recent_cl : Z;
  curr_log : option nat;
}.

Definition set_clock c th := mkThread (th_node_id th) (th_thread_id th) c (dirty_cls th) (recent_cl th) (curr_log th).
Definition set_dirty t th := mkThread (th_node_id th) (th_thread_id th) (thread_clock th) t (recent_cl th) (curr_log th).
Definition set_recent r th := mkThread (th_node_id th) (th_thread_id th) (thread_clock th) (dirty_cls th) r (curr_log th).
Definition set_log l th := mkThread (th_node_id th) (th_thread_id th) (thread_clock th) (dirty_cls th) (recent_cl th) l.

Section thread_ops.
Context `{cfg : Config}.
Implicit Types (th : ThreadOps) (log fuel : nat) (cl entry clk : Z).

Definition thread_new nid tid : ThreadOps := mkThread nid tid vc_init table_init 0 None.

(** [LogManager::produce_tail]: reserve, then publish. *)
Definition prod_tail log (r : bool) : prog Z :=
  t ← perform (ReserveTail log r); perform (PublishTail t log r).

Fixpoint set_to_new_log fuel : prog nat :=
  match fuel with
  | O => OutOfFuel
  | S fuel' =>
      r ← perform GetNewLog;
      match r with Some log => mret log | None => set_to_new_log fuel' end
  end.

(** [if (!curr_log) set_to_new_log(curr_log);] *)
Definition get_curr_log fuel th : prog nat :=
  match curr_log th with Some log => mret log | None => set_to_new_log fuel end.

Definition write_cl_to_log fuel cl th : prog ThreadOps :=
  log ← get_curr_log fuel th;
  full ← perform (LogIsFull log);
  log ← (if full : bool then _ ← prod_tail log false; set_to_new_log fuel else mret log);
  _ ← perform (LogWrite log cl);
  mret (set_log (Some log) th).

(** The flushes of the range-for loops of [write_to_log]. *)
Definition writeback_lines (cl_addr count : Z) : trace :=
  concat (map (λ i, do_writeback (cl_addr +w wrap64 (i * CACHE_LINE_SIZE))) (seqZ 0 count)).
Definition entry_writebacks entry : option trace :=
  if is_length_based entry then
    addrs ← length_cl_range entry;
    Some (concat (map (λ a, writeback_lines a (GROUP_SIZE * CL_EXPAND_FACTOR)) addrs))
  else
    addrs ← mask_cl_range (get_ptr entry) (get_mask16 entry);
    Some (concat (map (λ a, writeback_lines a CL_EXPAND_FACTOR) addrs)).

(** One turn of the loop over [dirty_cls]; the state is [clk_val] and the log. *)
Definition write_entry fuel (is_release : bool) entry (st : Z * nat) : prog (Z * nat) :=
  if entry =? 0 then mret st
  else
    let '(clk_val, log) := st in
    st ← (if DELAY_PUBLISH then
            full ← perform (LogIsFull log);
            if full : bool then
              clk ← prod_tail log is_release; log ← set_to_new_log fuel; mret (clk, log)
            else mret (clk_val, log)
          else mret (clk_val, log));
    let '(clk_val, log) := st in
    _ ← perform (LogWrite log entry);
    _ ← (if EAGER_WRITEBACK then mret tt
         else tr ← of_option (entry_writebacks entry); perform (FlushLines tr));
    mret (clk_val, log).

Fixpoint write_entries fuel (is_release : bool) (es : list Z) (st : Z * nat) : prog (Z * nat) :=
  match es with
  | [] => mret st
  | e :: es => st ← write_entry fuel is_release e st; write_entries fuel is_release es st
  end.

(** [write_to_log]; the local [curr_log] of the undelayed branch shadows the
    member. *)
Definition write_to_log fuel (is_release : bool) th : prog (Z * ThreadOps) :=
  log ← (if DELAY_PUBLISH then get_curr_log fuel th else set_to_new_log fuel);
  '(clk_val, log) ← write_entries fuel is_release (table_entries (dirty_cls th)) (0, log);
  '(clk_val, member) ←
    (if DELAY_PUBLISH then
       if is_release then clk ← prod_tail log is_release; mret (clk, None)
       else mret (clk_val, Some log)
     else clk ← prod_tail log is_release; mret (clk, curr_log th));
  mret (clk_val, set_log member (set_dirty (clear_table (dirty_cls th)) th)).

(** [while(!(entry = log_mgrs[i].take_head(node_id)));] *)
Fixpoint spin_take_head fuel (i : nat) : prog PubEntry :=
  match fuel with
  | O => OutOfFuel
  | S fuel' =>
      r ← perform (TakeHead i);
      match r with Some e => mret e | None => spin_take_head fuel' i end
  end.

(** The loop [while(clk < target[i])] of [help_consume]. *)
Fixpoint consume_until fuel (i : nat) (target clk : Z) : prog Z :=
  if clk <? target then
    match fuel with
    | O => OutOfFuel
    | S fuel' =>
        entry ← spin_take_head fuel i;
        let log := pe_log entry in
        let clk := if pe_is_rel entry then pe_idx entry else clk in
        _ ← perform (ProcessLog i log);
        _ ← perform (ConsumeHead i);
        consume_until fuel' i target clk
    end
  else mret clk.

(** The part of [help_consume] under the mutex: consume up to the target, update
    the clock, unlock. *)
Definition locked_consume fuel (target : vclock) (i : nat) : prog unit :=
  clk ← perform (GetClock i);
  clk ← consume_until fuel i (vc_get target i) clk;
  _ ← perform (UpdateClock i clk);
  perform Unlock.

(** The body of the [for] loop of [help_consume]: [node_done] and [done]. *)
Definition help_node fuel (target : vclock) (me i : nat) (st : list bool * bool) : prog (list bool * bool) :=
  let '(node_done, finished) := st in
  if default false (node_done !! i) || (i =? me)%nat then mret st
  else
    c ← perform (GetClock i);
    if vc_get target i <=? c then mret (<[i := true]> node_done, finished)
    else
      sub ← perform (IsSubscribed i);
      if negb sub then mret (<[i := true]> node_done, finished)
      else
        locked ← perform TryLock;
        if negb locked then mret (node_done, false)
        else
          _ ← locked_consume fuel target i;
          mret (<[i := true]> node_done, finished).

Fixpoint help_nodes fuel (target : vclock) (me : nat) (ids : list nat) (st : list bool * bool) : prog (list bool * bool) :=
  match ids with
  | [] => mret st
  | i :: ids => st ← help_node fuel target me i st; help_nodes fuel target me ids st
  end.

(** The loop [while (!done)]. *)
Fixpoint help_loop fuel (rounds : nat) (target : vclock) (me : nat) (node_done : list bool) : prog unit :=
  match rounds with
  | O => OutOfFuel
  | S rounds' =>
      '(node_done, finished) ← help_nodes fuel target me (rev (seq 0 NODE_COUNT)) (node_done, true);
      if finished : bool then mret tt else help_loop fuel rounds' target me node_done
  end.

Definition help_consume fuel (target : vclock) th : prog unit :=
  help_loop fuel fuel target (th_node_id th) (replicate NODE_COUNT false).

(** [wait_for_consume]: each node's clock is polled until it is high enough. *)
Fixpoint wait_clock fuel (i : nat) (target : Z) : prog unit :=
  match fuel with
  | O => OutOfFuel
  | S fuel' => c ← perform (GetClock i); if c <? target then wait_clock fuel' i target else mret tt
  end.
Fixpoint wait_nodes fuel (target : vclock) (me : nat) (ids : list nat) : prog unit :=
  match ids with
  | [] => mret tt
  | i :: ids =>
      if (i =? me)%nat then wait_nodes fuel target me ids
      else
        sub ← perform (IsSubscribed i);
        _ ← (if negb sub then mret tt else wait_clock fuel i (vc_get target i));
        wait_nodes fuel target me ids
  end.
Definition wait_for_consume fuel (target : vclock) th : prog unit :=
  wait_nodes fuel target (th_node_id th) (seq 0 NODE_COUNT).

(** The [EAGER_WRITEBACK] loop over the recent line. *)
Definition writeback_recent th : prog unit :=
  perform (FlushLines (writeback_lines (recent_cl th <<w VIRTUAL_CL_SHIFT) CL_EXPAND_FACTOR)).

(** [while (dirty_cls.dump_buffer_to_table()) write_to_log(false);] *)
Fixpoint dump_buffer fuel th : prog ThreadOps :=
  match fuel with
  | O => OutOfFuel
  | S fuel' =>
      '(full, t) ← of_option (dump_buffer_to_table fuel (dirty_cls th));
      let th := set_dirty t th in
      if full : bool then '(_, th) ← write_to_log fuel false th; dump_buffer fuel' th else mret th
  end.

(** [thread_release]; in a build without the table a release without a log is
    an access through the null [curr_log]. *)
Definition thread_release fuel th : prog (bool * ThreadOps) :=
  if recent_cl th =? 0 then mret (false, th)
  else
    _ ← (if EAGER_WRITEBACK then writeback_recent th else mret tt);
    let th := set_recent 0 th in
    th ← (if LOCAL_CL_TABLE_BUFFER then dump_buffer fuel th else mret th);
    '(clk_val, th) ←
      (if LOCAL_CL_TABLE then write_to_log fuel true th
       else match curr_log th with
            | Some log => clk ← prod_tail log true; mret (clk, set_log None th)
            | None => NullAccess
            end);
    mret (true, set_clock (assign (th_node_id th) clk_val (thread_clock th)) th).

Definition thread_acquire fuel (clock : vclock) th : prog ThreadOps :=
  _ ← (if CONSUME_HELPING then help_consume fuel clock th else wait_for_consume fuel clock th);
  mret (set_clock (merge clock (thread_clock th)) th).

(** [if (dirty_cls.get_length_entry_count() != 0) write_to_log(false);] *)
Definition flush_length_entries fuel th : prog ThreadOps :=
  if LOCAL_CL_TABLE_BUFFER && negb (get_length_entry_count (dirty_cls th) =? 0)
  then '(_, th) ← write_to_log fuel false th; mret th
  else mret th.

Definition log_store fuel (addr : Z) th : prog ThreadOps :=
  let cl := addr >>w VIRTUAL_CL_SHIFT in
  if INLINE_CACHING && (cl =? recent_cl th) then mret th
  else
    _ ← (if EAGER_WRITEBACK && negb (recent_cl th =? 0) then writeback_recent th else mret tt);
    let th := set_recent cl th in
    _ ← (if negb LOCAL_CL_TABLE && negb EAGER_WRITEBACK then perform (FlushLines (do_writeback addr)) else mret tt);
    if negb LOCAL_CL_TABLE then write_cl_to_log fuel cl th
    else
      '(full, t) ← of_option (insert fuel cl (dirty_cls th));
      let th := set_dirty t th in
      th ← (if full : bool then
              '(_, th) ← write_to_log fuel false th;
              '(_, t) ← of_option (insert fuel cl (dirty_cls th));
              mret (set_dirty t th)
            else mret th);
      flush_length_entries fuel th.

(** The loop [for (cl = begin_addr; cl < end_addr; cl++)]. *)
Fixpoint write_cls fuel (n : nat) cl th : prog ThreadOps :=
  match n with
  | O => mret th
  | S n' => th ← write_cl_to_log fuel cl th; write_cls fuel n' (cl +w 1) th
  end.

(** [while (dirty_cls.range_insert(begin_addr, end_addr)) write_to_log(false);] *)
Fixpoint insert_range fuel (rounds : nat) (begin_addr end_addr : Z) th : prog ThreadOps :=
  match rounds with
  | O => OutOfFuel
  | S rounds' =>
      '(full, b, e, t) ← of_option (range_insert fuel begin_addr end_addr (dirty_cls th));
      let th := set_dirty t th in
      if full : bool then
        '(_, th) ← write_to_log fuel false th; insert_range fuel rounds' b e th
      else mret th
  end.

Definition log_range_store fuel (begin stop : Z) th : prog ThreadOps :=
  let begin_addr := begin >>w VIRTUAL_CL_SHIFT in
  let end_addr := stop >>w VIRTUAL_CL_SHIFT in
  let th := set_recent end_addr th in
  if negb LOCAL_CL_TABLE then write_cls fuel (Z.to_nat (end_addr - begin_addr)) begin_addr th
  else
    th ← insert_range fuel fuel begin_addr end_addr th;
    flush_length_entries fuel th.
End thread_ops.

(** ** Lemmas: the writebacks of an entry *)

Section writebacks.
Context `{cfg : Config} {ok : ConfigOk cfg} (flushing : NO_FLUSH = false).
Implicit Types (e l a : Z) (ev : event).

Lemma elem_of_writeback_lines a count ev :
  0 ≤ a → 0 ≤ count → a + count * 64 ≤ 2 ^ 64 →
  ev ∈ writeback_lines a count ↔ ∃ i, 0 ≤ i < count ∧ ev = Writeback (a + i * 64).
Proof. unfold writeback_lines, do_writeback. rewrite flushing. apply (elem_of_line_run Writeback). Qed.

Definition writes_back e (tr : trace) : Prop :=
  ∀ ev, ev ∈ tr ↔ ∃ l a, covers e l = true ∧ a ∈ hw_addrs l ∧ ev = Writeback a.

(** The writebacks of a mask entry: a run for each set bit. *)
Lemma mask_entry_writebacks e :
  mask_wf e → ∃ tr, entry_writebacks e = Some tr ∧ writes_back e tr.
Proof.
  intros (idx & mask & -> & Hi & Hm & _). destruct (mask_entry_fields idx mask Hi Hm) as (Hb & _ & _).
  unfold entry_writebacks. rewrite Hb, mask_range_addrs by done. cbn [mbind option_bind].
  eexists. split; [done|]. intros ev. rewrite list_elem_of_In, in_concat.
  setoid_rewrite in_map_iff. setoid_rewrite in_map_iff. setoid_rewrite <- list_elem_of_In.
  setoid_rewrite (set_bits_word 16); [|lia|done]. setoid_rewrite covers_mask; [|done..].
  pose proof expand_factor_range as [Hf Hv]. pose proof (index_bytes idx Hi) as Hib.
  rewrite group_bytes in Hib. change (2 ^ GROUP_SIZE_SHIFT) with 16 in Hib.
  assert (∀ p, 0 ≤ p < 16 → ev ∈ writeback_lines ((idx * 16 + p) * VIRTUAL_CL_SIZE) CL_EXPAND_FACTOR ↔
    ∃ a, a ∈ hw_addrs (idx * 16 + p) ∧ ev = Writeback a) as Hline.
  { intros p Hp. destruct Hi as [Hi0 _]. rewrite elem_of_writeback_lines by nia. setoid_rewrite elem_of_hw_addrs.
    split; [intros (i & ? & ->); eauto|intros (a & (i & ? & ->) & ->); eauto]. }
  split.
  - intros (x & (a & <- & (p & <- & Hp & Hbit)) & Hev). apply Hline in Hev as (a & Ha & ->); [|done].
    exists (idx * 16 + p), a. destruct (proj2 (line_div_mod (idx * 16 + p) idx p Hp)) as [? ->]; done.
  - intros (l & a & [<- Hbit] & Ha & ->). pose proof (Z.mod_pos_bound l 16).
    eexists. split; [eexists; split; [done|]; exists (l mod 16); split; [done|split; [lia|done]]|].
    apply Hline; [lia|]. exists a. by replace (l / 16 * 16 + l mod 16) with l by divlia.
Qed.

(** Those of a length entry: a run for each group. *)
Lemma length_entry_writebacks e :
  length_wf e → ∃ tr, entry_writebacks e = Some tr ∧ writes_back e tr.
Proof.
  intros (idx & len & -> & Hi & Hl). pose proof len_max_bound.
  destruct (length_entry_fields idx len Hi ltac:(lia)) as (Hb & _ & _).
  unfold entry_writebacks. rewrite Hb, length_range_addrs by (done || lia). cbn [mbind option_bind].
  eexists. split; [done|]. intros ev. rewrite list_elem_of_In, in_concat.
  setoid_rewrite in_map_iff. setoid_rewrite in_map_iff. setoid_rewrite <- list_elem_of_In.
  setoid_rewrite elem_of_seqZ. setoid_rewrite covers_length; [|done|lia].
  pose proof expand_factor_range as [Hf Hv]. pose proof group_bytes as Hgb. rewrite Hv in Hgb.
  change (2 ^ GROUP_SIZE_SHIFT) with 16 in Hgb. pose proof (index_bytes idx Hi) as Hib. destruct Hi as [Hi0 _].
  assert (∀ g, idx ≤ g < idx + len → ev ∈ writeback_lines (g * 2 ^ GROUP_SHIFT) (GROUP_SIZE * CL_EXPAND_FACTOR) ↔
    ∃ l a, l / 16 = g ∧ a ∈ hw_addrs l ∧ ev = Writeback a) as Hgrp.
  { intros g Hg. rewrite elem_of_writeback_lines by (rewrite ?GROUP_SIZE_eq; nia). split.
    - intros (i & Hir & ->). destruct (proj1 (group_run g 1 (g * 2 ^ GROUP_SHIFT + i * 64) ltac:(lia))) as (l & ? & ?).
      { exists i. split; [lia|done]. }
      exists l. eexists. split; [lia|done].
    - intros (l & a & Hlg & Ha & ->). destruct (proj2 (group_run g 1 a ltac:(lia))) as (i & ? & ->).
      { exists l. split; [lia|done]. }
      exists i. split; [lia|done]. }
  split.
  - intros (x & (a & <- & (g & <- & Hg)) & Hev). apply Hgrp in Hev as (l & a & <- & Ha & ->); [|done]. by exists l, a.
  - intros (l & a & Hlr & Ha & ->). eexists. split; [eexists; split; [done|]; by exists (l / 16)|].
    apply Hgrp; [done|]. by exists l, a.
Qed.

Lemma entry_writebacks_spec e :
  log_entry_wf e → ∃ tr, entry_writebacks e = Some tr ∧ writes_back e tr.
Proof. intros [He|He]; [by apply length_entry_writebacks|by apply mask_entry_writebacks]. Qed.
End writebacks.
