(* ===== verification/Runtime.v ===== *)
(** Runtime: [include/runtime.hpp] and [src/runtime.cpp], what an instrumented
    program calls: stores and loads, the range hooks around library calls, thread
    creation and join, subscription.

    The operations are programs of the machine of Actions over the thread's
    [ThreadOps], as in ThreadOps. [rac_init] and [rac_shutdown] are in Startup. *)
From S2P Require Import Prelude Config VectorClock ClGroup LocalCLTable FlushUtils ClTracker.
From S2P Require Import SpmcQueue LogManager CacheInfo Actions ThreadOps.
#[local] Open Scope word_scope.

(** ** Definitions *)

Section runtime.
Context `{cfg : Config}.
Implicit Types (th : ThreadOps) (fuel : nat) (addr size : Z).

Definition in_cxl_nhc_mem addr : bool := CXL_NHC_START <=? addr.

(** [RACSTORE(size)], in its three variants. *)
Definition rac_store fuel addr size th : prog ThreadOps :=
  let in_cxl_nhc := in_cxl_nhc_mem addr in
  if PROTOCOL_OFF then
    _ ← (if in_cxl_nhc then perform (FlushLines (do_invalidate addr ++ invalidate_fence)) else mret tt);
    _ ← perform (StoreBytes addr size);
    _ ← (if in_cxl_nhc then perform (FlushLines (do_writeback addr)) else mret tt);
    mret th
  else
    th ← (if in_cxl_nhc then
            _ ← (if EAGER_INVALIDATE then mret false else perform (CheckInvalidate addr));
            log_store fuel addr th
          else mret th);
    _ ← perform (StoreBytes addr size);
    mret th.

(** [RACLOAD(size)] *)
Definition rac_load addr size : prog unit :=
  _ ← (if PROTOCOL_OFF then
         if in_cxl_nhc_mem addr then perform (FlushLines (do_invalidate addr ++ invalidate_fence)) else mret tt
       else if EAGER_INVALIDATE then mret tt
       else if in_cxl_nhc_mem addr then _ ← perform (CheckInvalidate addr); mret tt
       else mret tt);
  perform (LoadBytes addr size).

Definition rac_post_writeback fuel (begin stop : Z) th : prog ThreadOps :=
  _ ← (if PROTOCOL_OFF || EAGER_WRITEBACK then
         if in_cxl_nhc_mem begin
         then tr ← of_option (do_range_writeback fuel begin (stop -w begin)); perform (FlushLines tr)
         else mret tt
       else mret tt);
  if negb PROTOCOL_OFF then
    if in_cxl_nhc_mem begin then log_range_store fuel begin stop th else mret th
  else mret th.

(** An instrumented program between two synchronisations: its accesses. *)
Inductive access := Load (addr size : Z) | Store (addr size : Z).
Definition rac_access fuel (a : access) th : prog ThreadOps :=
  match a with
  | Load addr size => _ ← rac_load addr size; mret th
  | Store addr size => rac_store fuel addr size th
  end.
Fixpoint rac_accesses fuel (l : list access) th : prog ThreadOps :=
  match l with
  | [] => mret th
  | a :: l => th ← rac_access fuel a th; rac_accesses fuel l th
  end.
(** Accesses that stay inside one virtual line of the address space. *)
Definition access_ok (a : access) : Prop :=
  match a with Load addr size | Store addr size =>
    0 ≤ addr < 2 ^ VIRTUAL_ADDRESS_BITS ∧ 0 < size ∧ addr mod VIRTUAL_CL_SIZE + size ≤ VIRTUAL_CL_SIZE end.

(** One check of [invalidate_boundaries]. *)
Definition invalidate_at addr : prog unit :=
  if PROTOCOL_OFF then perform (FlushLines (do_invalidate addr))
  else _ ← perform (CheckInvalidate addr); mret tt.

(** Without [PROTOCOL_OFF] both checks are of [begin]. *)
Definition invalidate_boundaries (begin stop : Z) : prog unit :=
  _ ← (if negb (begin &w CACHE_LINE_MASK =? 0) then invalidate_at begin else mret tt);
  if negb (stop &w CACHE_LINE_MASK =? 0) && negb (begin &w CACHE_LINE_MASK =? stop &w CACHE_LINE_MASK)
  then invalidate_at (if PROTOCOL_OFF then stop else begin)
  else mret tt.

Definition rac_store_pre_invalidate (begin stop : Z) : prog unit :=
  if PROTOCOL_OFF || negb EAGER_INVALIDATE then
    if in_cxl_nhc_mem begin then invalidate_boundaries begin stop else mret tt
  else mret tt.

Definition rac_load_pre_invalidate fuel (begin stop : Z) : prog unit :=
  _ ← (if PROTOCOL_OFF then
         if in_cxl_nhc_mem begin
         then tr ← of_option (do_range_invalidate fuel begin (stop -w begin)); perform (FlushLines tr)
         else mret tt
       else mret tt);
  if negb EAGER_INVALIDATE then
    if in_cxl_nhc_mem begin then _ ← perform (CheckRange fuel begin stop); mret tt else mret tt
  else mret tt.

(** [rac_thread_func_wrapper] of thread [tid] of node [nid]: the thread function
    takes the new thread's state. *)
Definition rac_thread_func_wrapper fuel nid tid (parent_clock : vclock) (func : ThreadOps → prog ThreadOps) :
    prog ThreadOps :=
  let th := thread_new nid tid in
  th ← (if PROTOCOL_OFF then mret th else thread_acquire fuel parent_clock th);
  th ← func th;
  if PROTOCOL_OFF then mret th else '(_, th) ← thread_release fuel th; mret th.

(** [rac_thread_create]: the parent's state and the clock handed to the child
    (a null pointer without the protocol). *)
Definition rac_thread_create fuel th : prog (ThreadOps * option vclock) :=
  if PROTOCOL_OFF then mret (th, None)
  else '(_, th) ← thread_release fuel th; mret (th, Some (thread_clock th)).

Definition rac_thread_join fuel (child : ThreadOps) th : prog ThreadOps :=
  if PROTOCOL_OFF then mret th else thread_acquire fuel (thread_clock child) th.

(** The subscription of node [me] to the log of [target]; [None] is a failed
    assertion. The first operand of the source's test is [target <= 0]. *)
Section subscription.
Context {Q : Type} `{FQ : !FifoQueue Q nat LOG_COUNT}.
Definition valid_target (target : nat) : bool :=
  (Z.of_nat target <=? 0) && (target <? NODE_COUNT)%nat.
Definition rac_subscribe_to_node fuel (target me : nat) (lm : LogManager Q) (ci : CacheInfo) :
    option (trace * LogManager Q * CacheInfo) :=
  if valid_target target then
    '(tail, lm) ← add_subscriber fuel me lm;
    Some (wbinvd, lm, update_clock_monotonic target tail ci)
  else None.
Definition rac_unsubscribe_from_node (target me : nat) (lm : LogManager Q) : option (LogManager Q) :=
  if valid_target target then Some (remove_subscriber me lm) else None.
Definition rac_is_subscribed_to_node (target me : nat) (lm : LogManager Q) : option bool :=
  if valid_target target then Some (is_subscribed lm me) else None.
End subscription.
End runtime.
