(* ===== verification/Release.v ===== *)
(** Release: what [log_store], [write_to_log] and [thread_release] guarantee.

    The triples of Logic for the producer side of ThreadOps. The trace of a
    thread says what it did, in order: a line is [committed] when, after its last
    store, all its hardware lines were written back and then a position was
    published whose log has an entry for the line. *)
From S2P Require Import Prelude Config VectorClock ClGroup LocalCLTable FlushUtils SpmcQueue.
From S2P Require Import LogManager CacheInfo Actions Invariant Logic ActionSpecs ThreadOps.
From S2P Require Import Runtime.

(** ** Definitions *)

Section release.
Context `{cfg : Config} {ok : ConfigOk cfg} {EB : EagerBuild cfg} {DB : DirectBuild cfg}
  {Q : Type} `{FQ : !FifoQueue Q nat LOG_COUNT}.
Implicit Types (w ws : world Q) (nd : node Q) (n tid log p fuel : nat) (P : world Q → Prop)
  (th : ThreadOps) (l e : Z) (ev : list tevent).

(** Only flushes. *)
Definition flush_only ev : Prop := ∃ tr, ev = map EvFlush tr.
(** Every hardware line of [l] is written back. *)
Definition written_back ev l : Prop := ∀ a, a ∈ hw_addrs l → EvFlush (Writeback a) ∈ ev.

(** The entries of a list that are not empty slots. *)
Definition nonzero (es : list Z) : list Z := filter (λ e, e ≠ 0) es.

(** What holds of a thread's state between its operations. *)
Record thread_ok n th : Prop := {
  to_node : th_node_id th = n;
  to_table : table_wf (dirty_cls th);
  to_clock : length (thread_clock th) = NODE_COUNT;
  to_recent : recent_cl th = 0 ∨ table_covers (dirty_cls th) (recent_cl th) = true;
}.

(** Line [l] is committed at position [p]: [tr] has a publication of [p] before
    which, but after the last store to [l], all of [l] is written back. [ws] is
    the world in which the account begins; [p] is a later position. *)
Definition committed n ws (tr : list tevent) l p w : Prop :=
  all_below n p ws ∧ ∃ before fl after d r, tr = before ++ fl ++ (EvPublish p :: after) ∧
    (EvStore l ∉ fl) ∧ (EvStore l ∉ after) ∧ written_back fl l ∧
    published_at n p d r w ∧ ∃ e, e ∈ d ∧ covers e l = true.

(** A line of the region without hardware coherence. *)
Definition nhc_line l : Prop := CXL_NHC_START ≤ l * VIRTUAL_CL_SIZE.

(** Every such line stored so far is in the table or committed. *)
Definition tracked n ws th (tr : list tevent) w : Prop :=
  grows ws w ∧
  ∀ l, nhc_line l → EvStore l ∈ tr → table_covers (dirty_cls th) l = true ∨ ∃ p, committed n ws tr l p w.

(** A thread's accesses up to a release. *)
Definition accesses_and_release fuel (acc : list access) th : prog (bool * ThreadOps) :=
  th ← rac_accesses fuel acc th; thread_release fuel th.

(** ** Lemmas: logs *)

Lemma spec_new_log n tid P fuel :
  (n < NODE_COUNT)%nat → persistent P →
  triple n tid P (set_to_new_log fuel) (λ log ev w, ev = [] ∧ P w ∧ my_log n tid log [] w).
Proof.
  intros Hn HP. induction fuel as [|fuel IH]; [apply triple_fuel|]. cbn [set_to_new_log].
  eapply triple_bind; [by apply spec_get_new_log|]. intros r tr. cbn beta. apply triple_pure. intros ->.
  destruct r as [log|]; [by apply triple_ret|]. eapply triple_conseq; [exact IH|by intros ? _ [??]|done].
Qed.

(** What publishing a log at the end of a pass gives: it took position [p] when
    the world was [w0]. *)
Definition published_log n p (es : list Z) (r : bool) P w : Prop :=
  published_at n p es r w ∧ ∃ w0, P w0 ∧ all_below n p w0 ∧ grows w0 w.

Lemma spec_prod_tail n tid P log es r :
  persistent P →
  triple n tid (λ w, P w ∧ my_log n tid log es w) (prod_tail log r)
    (λ clk ev w, ∃ p, clk = Z.of_nat p + 1 ∧ ev = [EvPublish p] ∧ published_log n p es r P w).
Proof.
  intros HP. eapply triple_bind; [by apply spec_reserve|]. intros t tr. cbn beta.
  apply triple_exists. intros p. apply triple_exists. intros w0. apply triple_pure. intros (-> & -> & Hp & Hb).
  eapply triple_conseq; [apply (spec_publish n tid (grows w0) p log es r), grows_persistent|done|].
  intros clk ev w _ (-> & Hg & -> & Hpub). exists p. split_and!; [done..|]. split; [done|]. by exists w0.
Qed.

(** ** Lemmas: writing the table to a log *)

Lemma flush_only_app ev1 ev2 : flush_only ev1 → flush_only ev2 → flush_only (ev1 ++ ev2).
Proof. intros [t1 ->] [t2 ->]. exists (t1 ++ t2). by rewrite map_app. Qed.

Lemma flush_only_nil : flush_only [].
Proof. by exists []. Qed.

Lemma written_back_app ev1 ev2 l : written_back ev1 l ∨ written_back ev2 l → written_back (ev1 ++ ev2) l.
Proof. intros [H|H] a Ha; apply elem_of_app; [left|right]; by apply H. Qed.

Lemma writes_back_line e tr l : writes_back e tr → covers e l = true → written_back (map EvFlush tr) l.
Proof.
  intros Hw Hc a Ha. apply list_elem_of_fmap. exists (Writeback a). split; [done|]. apply Hw. by exists l, a.
Qed.

(** The pass over one entry, and over the table. *)
Definition entries_pass (es : list Z) ev : Prop :=
  flush_only ev ∧ ∀ e l, e ∈ es → covers e l = true → written_back ev l.

Lemma spec_write_entry n tid P fuel r e log es :
  (n < NODE_COUNT)%nat → persistent P → entry_wf e → (length es < LOG_SIZE)%nat →
  triple n tid (λ w, P w ∧ my_log n tid log es w) (write_entry fuel r e (0, log))
    (λ st ev w, (st = (0, log) ∧ entries_pass [e] ev) ∧ P w ∧ my_log n tid log (es ++ nonzero [e]) w).
Proof.
  intros Hn HP He Hlen. unfold write_entry, nonzero. rewrite filter_cons, filter_nil.
  destruct (Z.eqb_spec e 0) as [->|Hne].
  { rewrite decide_False by congruence. rewrite app_nil_r. apply triple_ret. intros w _ H. split; [|done]. split; [done|].
    split; [apply flush_only_nil|]. intros e l ->%list_elem_of_singleton. by rewrite covers_0. }
  rewrite decide_True by done. rewrite db_delay, db_writeback. autorewrite with prog.
  assert (log_entry_wf e) as Hwf by (destruct He as [?|[?|?]]; [done|by left|by right]).
  eapply triple_bind; [apply spec_log_write; [done|by apply log_entry_wf_ok|done]|].
  intros a tr. cbn beta. apply triple_pure. intros ->.
  destruct (entry_writebacks_spec eb_flush e Hwf) as (fl & -> & Hfl). autorewrite with prog.
  eapply triple_bind; [apply spec_flush; [done|by apply my_log_frame_stable]|].
  intros b tr. cbn beta. apply triple_pure. intros ->. apply triple_ret. intros w _ [Hw _]. split; [|done].
  split; [done|]. rewrite app_nil_r. split; [by exists fl|]. intros e' l ->%list_elem_of_singleton.
  by apply writes_back_line.
Qed.

Lemma spec_write_entries n tid P fuel r es log done_es :
  (n < NODE_COUNT)%nat → persistent P → Forall entry_wf es → (length done_es + length es ≤ LOG_SIZE)%nat →
  triple n tid (λ w, P w ∧ my_log n tid log done_es w) (write_entries fuel r es (0, log))
    (λ st ev w, (st = (0, log) ∧ entries_pass es ev) ∧ P w ∧ my_log n tid log (done_es ++ nonzero es) w).
Proof.
  intros Hn HP Hes. revert done_es. induction Hes as [|e es He _ IH]; intros done_es Hlen; cbn [write_entries].
  { apply triple_ret. intros w _ H. unfold nonzero. rewrite filter_nil, app_nil_r. split; [|done]. split; [done|].
    split; [apply flush_only_nil|]. by intros e l ?%not_elem_of_nil. }
  cbn [length] in Hlen. eapply triple_bind; [apply spec_write_entry; [done..|lia]|].
  intros st tr. cbn beta. apply triple_pure. intros [-> [Hf1 Hw1]].
  assert (length (nonzero [e]) ≤ 1)%nat by (unfold nonzero; apply length_filter).
  eapply triple_conseq; [apply (IH (done_es ++ nonzero [e])); rewrite length_app; lia|done|].
  intros st ev w _ [[-> [Hf2 Hw2]] [Hp Hl]]. split; [split; [done|]; split|].
  - by apply flush_only_app.
  - intros e' l [->|He']%elem_of_cons Hc; apply written_back_app; [left; apply (Hw1 e); [by left|done]|right; by eapply Hw2].
  - split; [done|]. unfold nonzero in *. rewrite <- app_assoc, <- filter_app in Hl. done.
Qed.

(** One log written and published from the table: [p] is its position, and every
    line of the table has an entry in it and was written back before. *)
Record pass_done n P (t : LocalCLTable) (r : bool) (p : nat) ev w : Prop := {
  ps_trace : ∃ fl, flush_only fl ∧ ev = fl ++ [EvPublish p] ∧
    ∀ l, table_covers t l = true → written_back fl l;
  ps_published : published_log n p (nonzero (table_entries t)) r P w;
}.

Lemma spec_write_to_log n tid P fuel r th :
  (n < NODE_COUNT)%nat → persistent P → table_wf (dirty_cls th) →
  triple n tid P (write_to_log fuel r th)
    (λ res ev w, ∃ p, res = (Z.of_nat p + 1, set_dirty (clear_table (dirty_cls th)) th) ∧
       pass_done n P (dirty_cls th) r p ev w).
Proof.
  intros Hn HP [Hlen Hwf]. unfold write_to_log. rewrite db_delay.
  eapply triple_bind; [by apply spec_new_log|]. intros log tr. cbn beta. apply triple_pure. intros ->.
  eapply triple_bind; [apply spec_write_entries; [done..|]; cbn; unfold table_entries; rewrite Hlen; apply log_holds_table|].
  intros st tr. cbn beta. apply triple_pure. intros [-> [Hf Hw]]. rewrite app_nil_l.
  eapply triple_bind; [eapply triple_bind; [by apply spec_prod_tail|intros clk tr2; apply triple_ret]|].
  { intros w _ H. instantiate (1 := λ res ev w, ∃ p, res = (Z.of_nat p + 1, curr_log th) ∧ ev = [EvPublish p] ∧
      published_log n p (nonzero (table_entries (dirty_cls th))) r P w).
    destruct H as (p & -> & -> & H). by exists p. }
  intros res tr2. cbn beta. apply triple_exists. intros p. apply triple_pure. intros ->. apply triple_pure. intros ->.
  apply triple_ret. intros w _ H. exists p. split; [by destruct th|]. split; [|done].
  exists tr. split; [done|]. split; [done|].
  intros l (e & He%list_elem_of_In & Hc)%existsb_exists. by apply (Hw e).
Qed.

(** ** Lemmas: stores *)

Lemma insert_clear cl t fuel :
  line_in_range cl → table_wf t →
  ∃ t', insert fuel cl (clear_table t) = Some (false, t') ∧ table_wf t' ∧ table_covers t' cl = true.
Proof.
  intros Hcl Hwf. unfold insert. rewrite db_buffer. destruct (insert_args cl Hcl) as (Hg & Hm & Hne & Hiff).
  pose proof (insert_mask_clear _ _ t Hg Hm Hne Hwf) as Hc.
  pose proof (insert_mask_spec _ _ (clear_table t) Hg Hm Hne (mask_only_wf _ (mask_only_clear t Hwf))) as Hspec.
  destruct (insert_mask _ _ _) as [full t']. cbn in Hc. subst full. exists t'. destruct Hspec as (Hwf' & Hcov & _).
  split; [done|]. split; [done|]. apply Hcov. right. by apply Hiff.
Qed.

Lemma insert_line cl t fuel :
  line_in_range cl → table_wf t →
  ∃ full t', insert fuel cl t = Some (full, t') ∧
    if full : bool then t' = t
    else table_wf t' ∧ table_covers t' cl = true ∧ ∀ l, table_covers t l = true → table_covers t' l = true.
Proof.
  intros Hcl Hwf. unfold insert. rewrite db_buffer. destruct (insert_args cl Hcl) as (Hg & Hm & Hne & Hiff).
  pose proof (insert_mask_spec _ _ t Hg Hm Hne Hwf) as Hspec. destruct (insert_mask _ _ _) as [full t'].
  exists full, t'. split; [done|]. destruct full; [by destruct Hspec|]. destruct Hspec as (Hwf' & Hcov & _).
  split_and!; [done| |auto]. apply Hcov. right. by apply Hiff.
Qed.

(** The state of a thread after [log_store] of line [cl]. *)
Definition stored n cl th th' : Prop :=
  thread_ok n th' ∧ recent_cl th' = cl ∧ table_covers (dirty_cls th') cl = true ∧ thread_clock th' = thread_clock th.

Lemma spec_log_store n tid P fuel addr th :
  (n < NODE_COUNT)%nat → persistent P → thread_ok n th → line_in_range (shr64 addr VIRTUAL_CL_SHIFT) →
  shr64 addr VIRTUAL_CL_SHIFT ≠ 0 →
  triple n tid P (log_store fuel addr th)
    (λ th' ev w, stored n (shr64 addr VIRTUAL_CL_SHIFT) th th' ∧
       ((ev = [] ∧ P w ∧ ∀ l, table_covers (dirty_cls th) l = true → table_covers (dirty_cls th') l = true) ∨
        ∃ p, pass_done n P (dirty_cls th) false p ev w)).
Proof.
  intros Hn HP [Hid Hwf Hlen Hrec] Hcl Hne. unfold log_store. set (cl := shr64 addr VIRTUAL_CL_SHIFT) in *.
  destruct (INLINE_CACHING && (cl =? recent_cl th)) eqn:Ec.
  { apply andb_prop in Ec as [_ Ec%Z.eqb_eq]. apply triple_ret. intros w _ Hp. rewrite <- Ec in Hrec.
    destruct Hrec as [|Hrec]; [done|]. split; [|by left]. split_and!; [|done..]. constructor; [done..|]. rewrite <- Ec. by right. }
  rewrite db_writeback, eb_table. cbn [andb negb]. autorewrite with prog.
  destruct (insert_line cl (dirty_cls th) fuel Hcl Hwf) as (full & t' & Heq & Hins).
  cbn [dirty_cls set_recent]. rewrite Heq. autorewrite with prog. unfold flush_length_entries. rewrite db_buffer. cbn [andb].
  destruct full.
  - subst t'. eapply triple_bind; [eapply triple_bind; [by apply spec_write_to_log|]|].
    + intros res tr. cbn beta. apply triple_exists. intros p. apply triple_pure. intros ->. cbn [dirty_cls set_dirty].
      destruct (insert_clear cl (dirty_cls th) fuel Hcl Hwf) as (t' & -> & Hwf' & Hcov). autorewrite with prog.
      apply triple_ret. intros w _ H. rewrite app_nil_r.
      instantiate (1 := λ th' ev w, stored n cl th th' ∧ ∃ p, pass_done n P (dirty_cls th) false p ev w).
      split; [|by exists p]. split_and!; try done. constructor; [done..|]. by right.
    + intros th' tr. cbn beta. apply triple_pure. intros Hst. apply triple_ret. intros w _ H. rewrite app_nil_r.
      split; [done|]. by right.
  - destruct Hins as (Hwf' & Hcov & Hkeep). autorewrite with prog. apply triple_ret. intros w _ Hp. split; [|by left].
    split_and!; try done. constructor; [done..|]. by right.
Qed.

(** ** Lemmas: the release *)

(** The thread after releasing at position [p]. *)
Definition released p th : ThreadOps :=
  set_clock (assign (th_node_id th) (Z.of_nat p + 1) (thread_clock th))
    (set_dirty (clear_table (dirty_cls th)) (set_recent 0 th)).

Lemma spec_thread_release n tid P fuel th :
  (n < NODE_COUNT)%nat → persistent P → table_wf (dirty_cls th) →
  triple n tid P (thread_release fuel th)
    (λ res ev w, (recent_cl th = 0 ∧ res = (false, th) ∧ ev = [] ∧ P w) ∨
       (recent_cl th ≠ 0 ∧ ∃ p, res = (true, released p th) ∧ pass_done n P (dirty_cls th) true p ev w)).
Proof.
  intros Hn HP Hwf. unfold thread_release. destruct (Z.eqb_spec (recent_cl th) 0) as [H0|H0].
  { apply triple_ret. intros w _ Hp. by left. }
  rewrite db_writeback, db_buffer, eb_table. autorewrite with prog.
  eapply triple_bind; [by apply spec_write_to_log|]. intros res tr. cbn beta.
  apply triple_exists. intros p. apply triple_pure. intros ->. apply triple_ret. intros w _ H. right.
  split; [done|]. exists p. rewrite app_nil_r. split; [by destruct th|done].
Qed.

Lemma released_ok n p th : thread_ok n th → thread_ok n (released p th).
Proof.
  intros [Hid Hwf Hlen _]. constructor; [done| |cbn; unfold assign; by rewrite length_insert|by left]. by apply mask_only_wf, mask_only_clear.
Qed.

(** ** Lemmas: committed lines *)

Lemma committed_persistent n ws tr l p : persistent (committed n ws tr l p).
Proof.
  intros w w' Hg (Hb & b & fl & a & d & r & -> & H1 & H2 & H3 & H4 & H5). split; [done|]. exists b, fl, a, d, r.
  split_and!; [done..| |done]. by eapply published_persistent.
Qed.

Lemma committed_app n ws tr ev l p w : committed n ws tr l p w → EvStore l ∉ ev → committed n ws (tr ++ ev) l p w.
Proof.
  intros (Hb & b & fl & a & d & r & -> & H1 & H2 & H) Hev. split; [done|]. exists b, fl, (a ++ ev), d, r.
  split; [by rewrite <- !app_assoc|]. split; [done|]. split; [|done]. rewrite elem_of_app. tauto.
Qed.

Lemma committed_published n ws tr l p w : committed n ws tr l p w → ∃ d r, published_at n p d r w.
Proof. intros (_ & b & fl & a & d & r & _ & _ & _ & _ & H & _). by exists d, r. Qed.

Lemma tracked_persistent n ws th tr : persistent (tracked n ws th tr).
Proof.
  apply persistent_and; [apply grows_persistent|].
  apply persistent_forall. intros l. do 2 apply persistent_impl. intros w w' Hg [H|(p & H)]; [by left|right].
  exists p. by eapply committed_persistent.
Qed.

Lemma flush_only_store ev l : flush_only ev → EvStore l ∉ ev.
Proof. intros [tr ->] (x & ? & _)%list_elem_of_fmap. done. Qed.

Lemma pass_no_store n P t r p ev w l : pass_done n P t r p ev w → EvStore l ∉ ev.
Proof.
  intros [(fl & Hf & -> & _) _]. rewrite elem_of_app, list_elem_of_singleton.
  intros [?|?]; [by eapply flush_only_store|done].
Qed.

Lemma all_below_start n p ws w0 : grows ws w0 → all_below n p w0 → all_below n p ws.
Proof. intros Hg Hb q d rel Hq. eapply Hb. by eapply published_persistent. Qed.

(** A pass commits a line its table covers, at its position, and leaves one that
    was committed before. *)
Lemma pass_commits_line n ws P t r p tr ev w l :
  pass_done n P t r p ev w →
  (∀ w0, P w0 → grows ws w0 ∧ (table_covers t l = true ∨ ∃ q, committed n ws tr l q w0)) →
  ∃ q, (q ≤ p)%nat ∧ committed n ws (tr ++ ev) l q w.
Proof.
  intros Hpass HP. pose proof (pass_no_store _ _ _ _ _ _ _ l Hpass) as Hns.
  destruct Hpass as [(fl & Hf & -> & Hwb) [Hpub (w0 & Hp & Hbelow & Hg)]].
  destruct (HP w0 Hp) as [Hgs [Hcov|(q & Hq)]].
  - exists p. split; [done|]. split; [by eapply all_below_start|]. exists tr, fl, [], (nonzero (table_entries t)), r.
    split; [done|]. split; [by apply flush_only_store|]. split; [apply not_elem_of_nil|]. split; [by apply Hwb|].
    split; [done|]. unfold table_covers in Hcov. apply existsb_exists in Hcov as (e & He%list_elem_of_In & Hc).
    exists e. split; [|done]. unfold nonzero. apply list_elem_of_filter. split; [|done]. intros ->. by rewrite covers_0 in Hc.
  - exists q. destruct (committed_published _ _ _ _ _ _ Hq) as (d & rel & Hd). split; [by apply Nat.lt_le_incl, (Hbelow q d rel)|].
    apply committed_app; [|done]. by eapply committed_persistent.
Qed.

Lemma pass_commits n ws th tr r p ev w :
  pass_done n (tracked n ws th tr) (dirty_cls th) r p ev w →
  ∀ l, nhc_line l → EvStore l ∈ tr → ∃ q, (q ≤ p)%nat ∧ committed n ws (tr ++ ev) l q w.
Proof. intros Hpass l Hnl Hl. eapply pass_commits_line; [done|]. intros w0 [Hg Htr]. split; [done|by apply Htr]. Qed.

(** [log_store] keeps the account of the lines stored so far. *)
Lemma log_store_tracked n ws th th' tr ev w :
  (ev = [] ∧ tracked n ws th tr w ∧ ∀ l, table_covers (dirty_cls th) l = true → table_covers (dirty_cls th') l = true) ∨
  (∃ p, pass_done n (tracked n ws th tr) (dirty_cls th) false p ev w) →
  tracked n ws th' (tr ++ ev) w.
Proof.
  intros H. split.
  { destruct H as [(_ & [Hg _] & _)|(p & [_ [_ (w0 & [Hg _] & _ & Hg')]])]; [done|by eapply grows_persistent]. }
  destruct H as [(-> & [_ Ht] & Hk)|(p & Hp)]; intros l Hnl Hl.
  - rewrite app_nil_r in *. destruct (Ht l Hnl Hl) as [?|?]; [left; by apply Hk|by right].
  - right. assert (EvStore l ∈ tr) as Hl'.
    { apply elem_of_app in Hl as [?|?]; [done|]. by destruct (pass_no_store _ _ _ _ _ _ _ l Hp). }
    destruct (pass_commits _ _ _ _ _ _ _ _ Hp l Hnl Hl') as (q & _ & ?). by exists q.
Qed.

(** ** Lemmas: the accesses of a program *)

Lemma line_number addr : 0 ≤ addr → shr64 addr VIRTUAL_CL_SHIFT = addr / VIRTUAL_CL_SIZE.
Proof.
  intros. pose proof expand_range. unfold shr64. rewrite Z.shiftr_div_pow2, virtual_cl_size_eq; [done|].
  unfold VIRTUAL_CL_SHIFT, CACHE_LINE_SHIFT. lia.
Qed.

Lemma one_line addr size :
  0 ≤ addr → 0 < size → addr mod VIRTUAL_CL_SIZE + size ≤ VIRTUAL_CL_SIZE →
  lines_of addr size = [addr / VIRTUAL_CL_SIZE].
Proof.
  intros Ha Hs Hfit. pose proof virtual_cl_size_range. unfold lines_of. rewrite !line_number by lia.
  pose proof (Z.div_mod addr VIRTUAL_CL_SIZE) as Hd. pose proof (Z.mod_pos_bound addr VIRTUAL_CL_SIZE).
  assert ((addr + size - 1) / VIRTUAL_CL_SIZE = addr / VIRTUAL_CL_SIZE) as ->.
  { symmetry. apply Z.div_unique with (addr mod VIRTUAL_CL_SIZE + size - 1); lia. }
  by rewrite Z.sub_diag.
Qed.

(** The region starts at a line boundary. *)
Lemma nhc_line_iff addr : 0 ≤ addr → nhc_line (addr / VIRTUAL_CL_SIZE) ↔ in_cxl_nhc_mem addr = true.
Proof.
  intros Ha. unfold nhc_line, in_cxl_nhc_mem. rewrite Z.leb_le. pose proof virtual_cl_size_range.
  pose proof (Z.div_mod addr VIRTUAL_CL_SIZE) as Hd. pose proof (Z.mod_pos_bound addr VIRTUAL_CL_SIZE).
  assert (∃ k, CXL_NHC_START = k * VIRTUAL_CL_SIZE) as [k Hk].
  { pose proof expand_range. rewrite virtual_cl_size_eq. exists (3 * 2 ^ (46 - VIRTUAL_CL_SHIFT)).
    unfold VIRTUAL_CL_SHIFT, CACHE_LINE_SHIFT. rewrite <- Z.mul_assoc, <- Z.pow_add_r by lia.
    replace (46 - (6 + CL_EXPAND_SHIFT) + (6 + CL_EXPAND_SHIFT)) with 46 by lia. done. }
  rewrite Hk in *. set (v := VIRTUAL_CL_SIZE) in *. set (q := addr / v) in *.
  specialize (Hd ltac:(lia)). split; intros; [lia|]. assert (k ≤ q) by nia. nia.
Qed.

Lemma nhc_line_arg addr :
  0 ≤ addr < 2 ^ VIRTUAL_ADDRESS_BITS → in_cxl_nhc_mem addr = true →
  line_in_range (addr / VIRTUAL_CL_SIZE) ∧ addr / VIRTUAL_CL_SIZE ≠ 0.
Proof.
  intros Ha Hin. pose proof virtual_cl_size_range. pose proof expand_range. split.
  - split; [apply Z.div_pos; lia|]. apply Z.div_lt_upper_bound; [lia|]. rewrite virtual_cl_size_eq, <- Z.pow_add_r.
    + destruct Ha as [_ Ha]. eapply Z.lt_le_trans; [exact Ha|]. apply Z.pow_le_mono_r; [lia|].
      unfold GROUP_INDEX_SHIFT, GROUP_SHIFT, GROUP_SIZE_SHIFT. lia.
    + unfold VIRTUAL_CL_SHIFT, CACHE_LINE_SHIFT. lia.
    + pose proof group_index_shift_range. lia.
  - apply Z.leb_le in Hin. change CXL_NHC_START with (3 * 2 ^ 46) in Hin.
    assert (1 ≤ addr / VIRTUAL_CL_SIZE); [|lia]. apply Z.div_le_lower_bound; lia.
Qed.

(** The stores so far and the thread's recent line. *)
Definition noted th (tr : list tevent) : Prop := ∀ l, nhc_line l → EvStore l ∈ tr → recent_cl th ≠ 0.

Lemma spec_rac_access n tid fuel a th ws tr :
  (n < NODE_COUNT)%nat → thread_ok n th → access_ok a → noted th tr →
  triple n tid (tracked n ws th tr) (rac_access fuel a th)
    (λ th' ev w, (thread_ok n th' ∧ noted th' (tr ++ ev) ∧ thread_clock th' = thread_clock th) ∧ tracked n ws th' (tr ++ ev) w).
Proof.
  intros Hn Hok Ha Hnote. destruct a as [addr size|addr size]; cbn [rac_access].
  - unfold rac_load. rewrite db_protocol, eb_eager. autorewrite with prog.
    eapply triple_bind; [apply spec_load; [done|apply persistent_stable, tracked_persistent]|].
    intros u ev. cbn beta. apply triple_pure. intros ->. apply triple_ret. intros w _ [[Hg Ht] _]. rewrite app_nil_r.
    assert (∀ l, EvStore l ∉ map EvLoad (lines_of addr size)) as Hns by (intros l (? & ? & _)%list_elem_of_fmap; done).
    split; [split_and!; [done| |done]|].
    + intros l Hl [Hin|Hin]%elem_of_app; [by eapply Hnote|by destruct (Hns l)].
    + split; [done|]. intros l Hl [Hin|Hin]%elem_of_app; [|by destruct (Hns l)].
      destruct (Ht l Hl Hin) as [?|(p & ?)]; [by left|right]. exists p. by apply committed_app.
  - destruct Ha as (Har & Hs & Hfit). unfold rac_store. rewrite db_protocol, eb_eager. autorewrite with prog.
    set (R th' ev w := (thread_ok n th' ∧ noted th' (tr ++ ev) ∧ thread_clock th' = thread_clock th ∧
      (in_cxl_nhc_mem addr = true → recent_cl th' ≠ 0 ∧ table_covers (dirty_cls th') (addr / VIRTUAL_CL_SIZE) = true)) ∧
      tracked n ws th' (tr ++ ev) w).
    eapply (triple_bind _ _ _ _ _ R).
    + destruct (in_cxl_nhc_mem addr) eqn:Ein; autorewrite with prog.
      * destruct (nhc_line_arg addr Har Ein) as [Hlr Hl0].
        eapply triple_conseq; [apply (spec_log_store n tid (tracked n ws th tr) fuel addr th);
          [done|apply tracked_persistent|done|by rewrite line_number by lia..]|done|].
        rewrite line_number by lia. intros th' ev w _ [(Hok' & Hrec & Hcov & Hclk) Hcase].
        split; [|by eapply log_store_tracked]. split_and!; [done| |done|]; [intros l _ _; congruence|]. intros _. split; congruence.
      * apply triple_ret. intros w _ Ht. unfold R. rewrite app_nil_r. split; [|done]. split_and!; [done..|]. congruence.
    + intros th' ev1. unfold R. apply triple_pure. intros (Hok' & Hnote' & Hclk & Hin).
      eapply triple_bind; [apply spec_store; [done|apply persistent_stable, tracked_persistent]|].
      intros u ev2. cbn beta. apply triple_pure. intros ->. apply triple_ret. intros w _ [[Hg Ht] _]. rewrite app_nil_r.
      rewrite one_line by lia. cbn [map]. rewrite app_assoc. split; [split_and!; [done| |done]|].
      * intros l Hl [Hl1|Hl1%list_elem_of_singleton]%elem_of_app; [by eapply Hnote'|]. injection Hl1 as ->.
        apply nhc_line_iff in Hl; [|lia]. by apply Hin.
      * split; [done|]. intros l Hl Hl1. destruct (decide (l = addr / VIRTUAL_CL_SIZE)) as [->|Hne].
        { left. apply nhc_line_iff in Hl; [|lia]. by apply Hin. }
        assert (EvStore l ∉ [EvStore (addr / VIRTUAL_CL_SIZE)]) as Hns by (rewrite list_elem_of_singleton; congruence).
        apply elem_of_app in Hl1 as [Hl1|Hl1]; [|done].
        destruct (Ht l Hl Hl1) as [?|(p & ?)]; [by left|right]. exists p. by apply committed_app.
Qed.

Lemma spec_rac_accesses n tid fuel (acc : list access) th ws tr :
  (n < NODE_COUNT)%nat → thread_ok n th → Forall access_ok acc → noted th tr →
  triple n tid (tracked n ws th tr) (rac_accesses fuel acc th)
    (λ th' ev w, (thread_ok n th' ∧ noted th' (tr ++ ev) ∧ thread_clock th' = thread_clock th) ∧ tracked n ws th' (tr ++ ev) w).
Proof.
  intros Hn Hok Hl. revert th tr Hok. induction Hl as [|a acc Ha _ IH]; intros th tr Hok Hnote; cbn [rac_accesses].
  { apply triple_ret. intros w _ Ht. by rewrite app_nil_r. }
  eapply triple_bind; [by apply spec_rac_access|]. intros th1 ev1. cbn beta. apply triple_pure. intros (Hok1 & Hn1 & Hc1).
  eapply triple_conseq; [by apply IH|done|]. intros th2 ev2 w _ [(Hok2 & Hn2 & Hc2) Ht2]. rewrite !app_assoc in *.
  split; [|done]. split_and!; [done..|congruence].
Qed.

(** ** Lemmas: accesses and release *)

Lemma vc_get_released n p th :
  th_node_id th = n → length (thread_clock th) = NODE_COUNT → (n < NODE_COUNT)%nat →
  vc_get (thread_clock (released p th)) n = Z.of_nat p + 1.
Proof.
  intros <- Hlen Hn. cbn. unfold vc_get, assign. by rewrite list_lookup_insert_eq by lia.
Qed.

Lemma spec_accesses_and_release n tid fuel acc th ws :
  (n < NODE_COUNT)%nat → thread_ok n th → Forall access_ok acc →
  triple n tid (grows ws) (accesses_and_release fuel acc th)
    (λ res ev w, thread_ok n res.2 ∧ ∀ l, nhc_line l → EvStore l ∈ ev → res.1 = true ∧
       ∃ p, Z.of_nat p < vc_get (thread_clock res.2) n ∧ committed n ws ev l p w).
Proof.
  intros Hn Hok Ha. unfold accesses_and_release.
  assert (∀ w, grows ws w → tracked n ws th [] w) as H0 by (intros w Hg; split; [done|]; by intros l _ ?%not_elem_of_nil).
  assert (noted th []) as Hno by by intros l _ ?%not_elem_of_nil.
  eapply triple_bind.
  { eapply triple_conseq; [by apply (spec_rac_accesses n tid fuel acc th ws [])|by intros w _ Hg; apply H0|]. intros a tr w _ H. exact H. }
  intros th' ev. cbn beta. rewrite app_nil_l. apply triple_pure. intros (Hok' & Hnote & _).
  eapply triple_conseq; [apply (spec_thread_release n tid (tracked n ws th' ev)); [done|apply tracked_persistent|by apply (to_table n)]|done|].
  intros res ev2 w _ [(Hr & -> & -> & Ht)|(Hr & p & -> & Hpass)]; cbn [fst snd].
  - rewrite app_nil_r. split; [done|]. intros l Hl Hin. by destruct (Hnote l Hl Hin).
  - split; [by apply released_ok|]. intros l Hl Hin. split; [done|].
    assert (EvStore l ∈ ev) as Hin'.
    { apply elem_of_app in Hin as [?|?]; [done|]. by destruct (pass_no_store _ _ _ _ _ _ _ l Hpass). }
    destruct (pass_commits _ _ _ _ _ _ _ _ Hpass l Hl Hin') as (q & Hq & Hc). exists q. split; [|done].
    rewrite (vc_get_released n p th') by (done || by apply (to_node _ _ Hok') || by apply (to_clock _ _ Hok')). lia.
Qed.
End release.
