(* ===== verification/Acquire.v ===== *)
(** Acquire: what [thread_acquire] and the cache agent guarantee.

    The triples of Logic for the consumer side of ThreadOps: an acquire of a
    target clock returns only when every position the clock covers has been
    processed at the node. *)
From S2P Require Import Prelude Config VectorClock ClGroup LocalCLTable FlushUtils SpmcQueue.
From S2P Require Import LogManager CacheInfo Actions Invariant Logic ActionSpecs ThreadOps.
From S2P Require Import Release.

Section acquire.
Context `{cfg : Config} {ok : ConfigOk cfg} {EB : EagerBuild cfg} {Q : Type} `{FQ : !FifoQueue Q nat LOG_COUNT}.
Implicit Types (w : world Q) (n tid i h fuel : nat) (P : world Q → Prop) (th : ThreadOps) (target clk : Z)
  (ev : list tevent).

(** ** Definitions *)

(** Everything a target clock covers has been processed at [n]. *)
Definition caught_up n (goal : vclock) w : Prop :=
  ∀ i, (i < NODE_COUNT)%nat → i ≠ n → processed_upto n i (vc_get goal i) w.

(** The nodes marked in [node_done] are caught up with. *)
Definition done_ok n (goal : vclock) (node_done : list bool) w : Prop :=
  ∀ i, (i < NODE_COUNT)%nat → i ≠ n → node_done !! i = Some true → processed_upto n i (vc_get goal i) w.

(** ** Lemmas: consuming one node's log *)

Lemma spec_spin n tid P i h fuel :
  i ≠ n → persistent P →
  triple n tid (λ w, P w ∧ my_head n tid i h w) (spin_take_head fuel i)
    (λ e ev w, ev = [] ∧ P w ∧ my_entry n tid i h e w).
Proof.
  intros Hne HP. induction fuel as [|fuel IH]; [apply triple_fuel|]. cbn [spin_take_head].
  eapply triple_bind; [by apply spec_take_head|]. intros r ev. cbn beta. apply triple_pure. intros ->.
  destruct r as [e|].
  - apply triple_ret. by intros w _ [[Hp _] He].
  - eapply triple_conseq; [exact IH|by intros w _ [? _]|done].
Qed.

Lemma my_entry_idx n tid i h e w :
  my_entry n tid i h e w → pe_idx e = Z.of_nat h + 1.
Proof. by intros [_ (ndx & r & d & _ & _ & _ & ->)]. Qed.

Lemma spec_consume_until n tid P i fuel target h clk :
  i ≠ n → persistent P → clk ≤ Z.of_nat h →
  triple n tid (λ w, P w ∧ my_head n tid i h w) (consume_until fuel i target clk)
    (λ clk' ev w, flush_only ev ∧ ∃ h', (clk' ≤ Z.of_nat h' ∧ target ≤ clk') ∧ P w ∧ my_head n tid i h' w).
Proof.
  intros Hne HP. revert h clk. induction fuel as [|fuel IH]; intros h clk Hclk; cbn [consume_until];
    (destruct (Z.ltb_spec clk target); [|apply triple_ret; intros w _ H1; split; [apply flush_only_nil|by exists h]]).
  { apply triple_fuel. }
  eapply triple_bind; [by apply spec_spin|]. intros e ev. cbn beta. apply triple_pure. intros ->.
  set (clk1 := if pe_is_rel e then pe_idx e else clk).
  apply triple_pre with (λ w, clk1 ≤ Z.of_nat (S h) ∧ P w ∧ my_entry n tid i h e w).
  { intros w _ [Hp He]. split; [|done]. apply my_entry_idx in He. unfold clk1. destruct (pe_is_rel e); lia. }
  apply triple_pure. intros Hclk1.
  eapply triple_bind; [by apply spec_process_log|]. intros u ev1. cbn beta. apply triple_pure. intros Hev1.
  eapply triple_bind; [by apply spec_consume_head|]. intros u' ev2. cbn beta. apply triple_pure. intros ->.
  eapply triple_conseq; [by apply (IH (S h))|done|]. intros clk' ev w _ [Hfl H']. split; [|done].
  cbn [app]. by apply flush_only_app.
Qed.

(** ** Lemmas: the loops of [help_consume] *)

Lemma done_ok_persistent n goal node_done : persistent (done_ok n goal node_done).
Proof.
  apply persistent_forall. intros i. do 3 apply persistent_impl. apply processed_upto_persistent.
Qed.

Lemma processed_upto_mono n i (c c' : Z) w : c ≤ c' → processed_upto n i c' w → processed_upto n i c w.
Proof. intros Hc H p Hp. apply H. lia. Qed.

Lemma done_ok_set n goal node_done i w :
  done_ok n goal node_done w → processed_upto n i (vc_get goal i) w → done_ok n goal (<[i := true]> node_done) w.
Proof.
  intros Hd Hi j Hj Hjn Hl. destruct (decide (j = i)) as [->|Hne]; [done|].
  rewrite list_lookup_insert_ne in Hl by done. by apply Hd.
Qed.

(** The result of a visit of node [i]. *)
Definition visited n i (st st' : list bool * bool) : Prop :=
  length st'.1 = length st.1 ∧ (st'.2 = true → st.2 = true) ∧
  (∀ j, st.1 !! j = Some true → st'.1 !! j = Some true) ∧
  (st'.2 = true → i = n ∨ st'.1 !! i = Some true).

Lemma visited_set n i node_done fin :
  (i < length node_done)%nat → visited n i (node_done, fin) (<[i := true]> node_done, fin).
Proof.
  intros Hi. split; [apply length_insert|]. split; [done|]. cbn. split; [|intros _; right; by apply list_lookup_insert_eq].
  intros j Hj. destruct (decide (j = i)) as [->|]; [by apply list_lookup_insert_eq|by rewrite list_lookup_insert_ne].
Qed.

Lemma spec_locked_consume n tid P fuel goal i :
  (n < NODE_COUNT)%nat → (i < NODE_COUNT)%nat → i ≠ n → persistent P →
  triple n tid (λ w, P w ∧ has_token n tid Consumer w) (locked_consume fuel goal i)
    (λ _ ev w, flush_only ev ∧ P w ∧ processed_upto n i (vc_get goal i) w).
Proof.
  intros Hn Hi Hne HP. apply triple_pre with (λ w, ∃ h, P w ∧ my_head n tid i h w).
  { intros w Hw [Hp Ht]. destruct (has_token_head n tid i w Hw Hn Hi Hne Ht) as [h Hh]. by exists h. }
  apply triple_exists. intros h. eapply triple_bind; [by apply spec_get_clock_locked|].
  intros c ev. cbn beta. apply triple_pure. intros ->.
  apply triple_pre with (λ w, c ≤ Z.of_nat h ∧ P w ∧ my_head n tid i h w); [by intros w _ [[? ?] ?]|].
  apply triple_pure. intros Hc. eapply triple_bind; [by apply spec_consume_until|].
  intros clk ev1. cbn beta. apply triple_pure. intros Hev1. apply triple_exists. intros h'. apply triple_pure.
  intros [Hle Htgt]. set (P' w := P w ∧ processed_upto n i (vc_get goal i) w).
  assert (persistent P') as HP' by (apply persistent_and; [done|apply processed_upto_persistent]).
  apply triple_pre with (λ w, P' w ∧ my_head n tid i h' w).
  { intros w Hw [Hp Hh]. split; [split; [done|]|done]. eapply processed_upto_mono; [|by eapply my_head_processed]. lia. }
  eapply triple_bind; [by apply spec_update_clock|]. intros u ev2. cbn beta. apply triple_pure. intros ->.
  eapply triple_conseq; [by apply spec_unlock|done|]. intros u' ev w _ [-> H]. by rewrite app_nil_r.
Qed.

Lemma spec_help_node n tid fuel goal i st :
  (n < NODE_COUNT)%nat → (i < NODE_COUNT)%nat → length st.1 = NODE_COUNT →
  triple n tid (done_ok n goal st.1) (help_node fuel goal n i st)
    (λ st' ev w, (flush_only ev ∧ visited n i st st') ∧ done_ok n goal st'.1 w).
Proof.
  intros Hn Hi Hlen. destruct st as [node_done fin]. cbn [fst] in *. unfold help_node.
  pose proof (done_ok_persistent n goal node_done) as HP. pose proof flush_only_nil as Hnil.
  destruct (default false (node_done !! i) || (i =? n)%nat) eqn:Eskip.
  { apply triple_ret. intros w _ Hd. split; [|done]. split; [done|]. split; [done|]. split; [done|]. split; [done|].
    intros _. apply orb_prop in Eskip as [E|E%Nat.eqb_eq]; [right|by left]. cbn. by destruct (node_done !! i) as [[]|]. }
  apply orb_false_elim in Eskip as [_ Hne%Nat.eqb_neq].
  assert (visited n i (node_done, fin) (<[i := true]> node_done, fin)) as Hvis by (apply visited_set; lia).
  eapply triple_bind; [by apply spec_get_clock|]. intros c ev. cbn beta. apply triple_pure. intros ->.
  destruct (Z.leb_spec (vc_get goal i) c).
  { apply triple_ret. intros w _ [Hd Hup]. split; [done|]. apply done_ok_set; [done|]. by eapply processed_upto_mono. }
  eapply triple_bind; [apply spec_is_subscribed; [done..|]|].
  { apply persistent_stable, persistent_and; [done|apply processed_upto_persistent]. }
  intros sub ev. cbn beta. apply triple_pure. intros ->.
  apply triple_pre with (λ w, sub = true ∧ done_ok n goal node_done w); [by intros w _ [[? _] ?]|].
  apply triple_pure. intros ->. cbn [negb].
  eapply triple_bind; [by apply spec_try_lock|]. intros b ev. cbn beta. apply triple_pure. intros ->.
  destruct b; cbn [negb].
  - eapply triple_bind; [by apply spec_locked_consume|]. intros u ev. cbn beta. apply triple_pure. intros Hev.
    apply triple_ret. intros w _ [Hd Hup]. rewrite app_nil_r. split; [done|]. by apply done_ok_set.
  - apply triple_ret. intros w _ [Hd _]. split; [|done]. split; [done|]. by repeat split.
Qed.

(** One pass over the nodes. *)
Definition pass_visited n (ids : list nat) (st st' : list bool * bool) : Prop :=
  length st'.1 = length st.1 ∧ (st'.2 = true → st.2 = true) ∧
  (∀ j, st.1 !! j = Some true → st'.1 !! j = Some true) ∧
  (st'.2 = true → ∀ i, i ∈ ids → i = n ∨ st'.1 !! i = Some true).

Lemma pass_visited_cons n i ids st st1 st2 :
  visited n i st st1 → pass_visited n ids st1 st2 → pass_visited n (i :: ids) st st2.
Proof.
  intros (L1 & F1 & M1 & V1) (L2 & F2 & M2 & V2). split; [congruence|]. split; [auto|]. split; [auto|].
  intros Hf j [->|Hj]%elem_of_cons; [|by apply V2]. destruct (V1 (F2 Hf)) as [?|?]; [by left|right; by apply M2].
Qed.

Lemma spec_help_nodes n tid fuel goal ids st :
  (n < NODE_COUNT)%nat → Forall (λ i, (i < NODE_COUNT)%nat) ids → length st.1 = NODE_COUNT →
  triple n tid (done_ok n goal st.1) (help_nodes fuel goal n ids st)
    (λ st' ev w, (flush_only ev ∧ pass_visited n ids st st') ∧ done_ok n goal st'.1 w).
Proof.
  intros Hn Hids. revert st. induction Hids as [|i ids Hi _ IH]; intros st Hlen; cbn [help_nodes].
  { apply triple_ret. intros w _ Hd. split; [|done]. split; [apply flush_only_nil|]. split; [done|]. split; [done|].
    split; [done|]. by intros _ i ?%not_elem_of_nil. }
  eapply triple_bind; [by apply spec_help_node|]. intros st1 ev1. cbn beta. apply triple_pure. intros [Hev1 Hv1].
  eapply triple_conseq; [apply IH; destruct Hv1; congruence|done|]. intros st2 ev2 w _ [[Hev2 Hv2] Hd].
  split; [|done]. split; [by apply flush_only_app|by eapply pass_visited_cons].
Qed.

Lemma spec_help_loop n tid fuel rounds goal node_done :
  (n < NODE_COUNT)%nat → length node_done = NODE_COUNT →
  triple n tid (done_ok n goal node_done) (help_loop fuel rounds goal n node_done)
    (λ _ ev w, flush_only ev ∧ caught_up n goal w).
Proof.
  intros Hn. revert node_done. induction rounds as [|rounds IH]; intros node_done Hlen; [apply triple_fuel|].
  cbn [help_loop]. eapply triple_bind; [apply (spec_help_nodes n tid fuel goal _ (node_done, true)); [done| |done]|].
  { apply Forall_forall. intros i Hi. apply list_elem_of_In, in_rev, in_seq in Hi. lia. }
  intros [nd' fin] ev. cbn beta. apply triple_pure. intros (Hev & Hl & _ & _ & Hall). cbn [fst snd] in *.
  destruct fin.
  - apply triple_ret. intros w _ Hd. rewrite app_nil_r. split; [done|]. intros i Hi Hne.
    destruct (Hall eq_refl i) as [?|?]; [|done|by apply Hd]. apply list_elem_of_In. rewrite <- in_rev. apply in_seq. lia.
  - eapply triple_conseq; [apply IH; congruence|done|]. intros u ev2 w _ [Hev2 H]. split; [by apply flush_only_app|done].
Qed.

Lemma spec_help_consume n tid fuel goal th :
  (n < NODE_COUNT)%nat → th_node_id th = n →
  triple n tid (λ _, True) (help_consume fuel goal th) (λ _ ev w, flush_only ev ∧ caught_up n goal w).
Proof.
  intros Hn <-. unfold help_consume.
  eapply triple_pre; [|apply spec_help_loop; [done|apply length_replicate]].
  intros w _ _ i Hi _ Hl. by apply lookup_replicate in Hl as [? _].
Qed.

(** ** Lemmas: waiting for the agent instead *)

Lemma spec_wait_clock n tid P fuel i target :
  (n < NODE_COUNT)%nat → (i < NODE_COUNT)%nat → i ≠ n → persistent P →
  triple n tid P (wait_clock fuel i target) (λ _ ev w, ev = [] ∧ P w ∧ processed_upto n i target w).
Proof.
  intros Hn Hi Hne HP. induction fuel as [|fuel IH]; [apply triple_fuel|]. cbn [wait_clock].
  eapply triple_bind; [by apply spec_get_clock|]. intros c ev. cbn beta. apply triple_pure. intros ->.
  destruct (Z.ltb_spec c target); [eapply triple_pre; [|exact IH]; by intros w _ [? _]|].
  apply triple_ret. intros w _ [Hp Hup]. split; [done|]. split; [done|]. by eapply processed_upto_mono.
Qed.

Lemma spec_wait_nodes n tid P fuel goal ids :
  (n < NODE_COUNT)%nat → Forall (λ i, (i < NODE_COUNT)%nat) ids → persistent P →
  triple n tid P (wait_nodes fuel goal n ids)
    (λ _ ev w, ev = [] ∧ P w ∧ ∀ i, i ∈ ids → i ≠ n → processed_upto n i (vc_get goal i) w).
Proof.
  intros Hn Hids. revert P. induction Hids as [|i ids Hi _ IH]; intros P HP; cbn [wait_nodes].
  { apply triple_ret. intros w _ Hp. split; [done|]. split; [done|]. by intros i ?%not_elem_of_nil. }
  destruct (Nat.eqb_spec i n) as [->|Hne].
  { eapply triple_conseq; [by apply IH|done|]. intros u ev w _ (-> & Hp & H). split; [done|]. split; [done|].
    intros j [->|Hj]%elem_of_cons Hjn; [done|by apply H]. }
  eapply triple_bind; [apply spec_is_subscribed; [done|done|by apply persistent_stable]|].
  intros sub ev. cbn beta. apply triple_pure. intros ->.
  apply triple_pre with (λ w, sub = true ∧ P w); [by intros w _ [? ?]|]. apply triple_pure. intros ->. cbn [negb].
  eapply triple_bind; [by apply spec_wait_clock|]. intros u ev. cbn beta. apply triple_pure. intros ->.
  eapply triple_conseq; [apply (IH (λ w, P w ∧ processed_upto n i (vc_get goal i) w)), persistent_and; [done|apply processed_upto_persistent]|done|].
  intros u2 ev w _ (-> & [Hp Hup] & H). split; [done|]. split; [done|]. intros j [->|Hj]%elem_of_cons; [done|by apply H].
Qed.

(** ** Lemmas: the acquire *)

Definition acquired (goal : vclock) th : ThreadOps := set_clock (merge goal (thread_clock th)) th.

(** The first half of [thread_acquire]. *)
Lemma spec_acquire_wait n tid fuel goal th :
  (n < NODE_COUNT)%nat → th_node_id th = n →
  triple n tid (λ _, True) (if CONSUME_HELPING then help_consume fuel goal th else wait_for_consume fuel goal th)
    (λ _ ev w, flush_only ev ∧ caught_up n goal w).
Proof.
  intros Hn Hid. destruct CONSUME_HELPING; [by apply spec_help_consume|]. unfold wait_for_consume. rewrite Hid.
  eapply triple_conseq; [apply (spec_wait_nodes n tid (λ _, True)); [done| |by intros ???]|done|].
  - apply Forall_forall. intros i Hi. apply list_elem_of_In, in_seq in Hi. lia.
  - intros u ev w _ (-> & _ & H). split; [apply flush_only_nil|]. intros i Hi Hne. apply H; [|done].
    apply list_elem_of_In, in_seq. lia.
Qed.

Lemma spec_thread_acquire n tid fuel goal th :
  (n < NODE_COUNT)%nat → th_node_id th = n →
  triple n tid (λ _, True) (thread_acquire fuel goal th)
    (λ th' ev w, th' = acquired goal th ∧ flush_only ev ∧ caught_up n goal w).
Proof.
  intros Hn Hid. unfold thread_acquire.
  eapply triple_bind with (R1 := λ _ ev w, flush_only ev ∧ caught_up n goal w).
  - by apply spec_acquire_wait.
  - intros u ev. cbn beta. apply triple_pure. intros Hev. apply triple_ret. intros w _ H. by rewrite app_nil_r.
Qed.
End acquire.
