(* ===== verification/CacheAgent.v ===== *)
(** CacheAgent: [include/cacheAgent.hpp] and [src/cacheAgent.cpp], the thread of a
    node that consumes the other nodes' logs in the background.

    [run] is a program of the machine of Actions. The number of rounds stands for
    the reads of [complete] that find it false. In a build without
    [CONSUME_HELPING] the agent is the only consumer and takes no mutex; it then
    has the [Consumer] token from the start. [CONSUME_HELPING_IN_LOCK] is not a
    name config.hpp defines ([CONSUME_HELP_IN_LOCK] is), so it counts as 0. *)
From S2P Require Import Prelude Config VectorClock ClGroup LocalCLTable FlushUtils SpmcQueue.
From S2P Require Import LogManager CacheInfo Actions Invariant Logic ActionSpecs ThreadOps.
From S2P Require Import Release Acquire.

(** ** Definitions *)

Section agent.
Context `{cfg : Config}.
Implicit Types (i me : nat) (clk idle_rounds : Z).

Definition LOG_MAX_BATCH : nat := 100.

(** The loop over [j]: at most [n] entries of node [i]; an empty log ends it. *)
Fixpoint agent_batch (n : nat) i clk idle_rounds : prog (Z * Z) :=
  match n with
  | O => mret (clk, idle_rounds)
  | S n' =>
      r ← perform (TakeHead i);
      match r with
      | None => mret (clk, if Z.of_nat NODE_COUNT - 1 <=? idle_rounds then idle_rounds else idle_rounds + 1)
      | Some entry =>
          let log := pe_log entry in
          let clk := if pe_is_rel entry then pe_idx entry else clk in
          _ ← perform (ProcessLog i log);
          _ ← perform (ConsumeHead i);
          agent_batch n' i clk 0
      end
  end.

Definition agent_node me i idle_rounds : prog Z :=
  if (i =? me)%nat then mret idle_rounds
  else
    sub ← perform (IsSubscribed i);
    if negb sub then mret idle_rounds
    else
      locked ← (if CONSUME_HELPING then perform TryLock else mret true);
      if negb locked then mret idle_rounds
      else
        '(clk, idle_rounds) ← agent_batch LOG_MAX_BATCH i 0 idle_rounds;
        _ ← (if clk =? 0 then mret tt
             else
               _ ← (if EAGER_INVALIDATE && negb CONSUME_HELPING then perform (FlushLines invalidate_fence) else mret tt);
               perform (UpdateClock i clk));
        _ ← (if CONSUME_HELPING then perform Unlock else mret tt);
        mret idle_rounds.

Fixpoint agent_round me (ids : list nat) idle_rounds : prog Z :=
  match ids with
  | [] => mret idle_rounds
  | i :: ids => idle_rounds ← agent_node me i idle_rounds; agent_round me ids idle_rounds
  end.

Fixpoint agent_rounds (rounds : nat) me idle_rounds : prog unit :=
  match rounds with
  | O => mret tt
  | S rounds' => idle_rounds ← agent_round me (seq 0 NODE_COUNT) idle_rounds; agent_rounds rounds' me idle_rounds
  end.

Definition cache_agent_run (rounds : nat) me : prog unit := agent_rounds rounds me 0.
End agent.

(** ** Lemmas *)

Section agent_specs.
Context `{cfg : Config} {ok : ConfigOk cfg} {EB : EagerBuild cfg} {Q : Type} `{FQ : !FifoQueue Q nat LOG_COUNT}.
Implicit Types (w : world Q) (n tid i h : nat) (P : world Q → Prop) (clk idle : Z).

(** The agent's permission to consume between two visits. *)
Definition agent_token n tid w : Prop := CONSUME_HELPING = false → has_token n tid Consumer w.

Lemma agent_token_stable n tid : stable tid (agent_token n tid).
Proof. intros w w' Hw Hk H Hc. eapply has_token_stable; [done|done|by apply H]. Qed.

Lemma my_head_token n tid i h w : my_head n tid i h w → has_token n tid Consumer w.
Proof. intros (nd & ndx & Hn & Ht & _). by exists nd. Qed.

Lemma spec_agent_batch n tid i k h clk idle :
  i ≠ n → clk ≤ Z.of_nat h →
  triple n tid (my_head n tid i h) (agent_batch k i clk idle)
    (λ r ev w, flush_only ev ∧ ∃ h', r.1 ≤ Z.of_nat h' ∧ my_head n tid i h' w).
Proof.
  intros Hne. revert h clk idle. induction k as [|k IH]; intros h clk idle Hclk; cbn [agent_batch].
  { apply triple_ret. intros w _ H. split; [apply flush_only_nil|]. by exists h. }
  apply triple_pre with (λ w, True ∧ my_head n tid i h w); [done|].
  eapply triple_bind; [by apply spec_take_head|]. intros r ev. cbn beta. apply triple_pure. intros ->.
  destruct r as [e|].
  2:{ apply triple_ret. intros w _ [[_ H] _]. split; [apply flush_only_nil|]. by exists h. }
  set (clk1 := if pe_is_rel e then pe_idx e else clk).
  apply triple_pre with (λ w, clk1 ≤ Z.of_nat (S h) ∧ True ∧ my_entry n tid i h e w).
  { intros w _ [_ He]. split; [|done]. apply my_entry_idx in He. unfold clk1. destruct (pe_is_rel e); lia. }
  apply triple_pure. intros Hclk1.
  eapply triple_bind; [by apply spec_process_log|]. intros u ev1. cbn beta. apply triple_pure. intros Hev1.
  eapply triple_bind; [by apply spec_consume_head|]. intros u' ev2. cbn beta. apply triple_pure. intros ->.
  eapply triple_conseq; [by apply (IH (S h))|by intros w _ [_ ?]|]. intros clk' ev w _ [Hfl H']. split; [|done].
  cbn [app]. by apply flush_only_app.
Qed.

(** The agent's last part of a visit: the clock, then the mutex. *)
Lemma spec_agent_finish n tid i h clk idle :
  (n < NODE_COUNT)%nat → i ≠ n → clk ≤ Z.of_nat h →
  triple n tid (my_head n tid i h)
    (_ ← (if clk =? 0 then mret tt
          else
            _ ← (if EAGER_INVALIDATE && negb CONSUME_HELPING then perform (FlushLines invalidate_fence) else mret tt);
            perform (UpdateClock i clk));
     _ ← (if CONSUME_HELPING then perform Unlock else mret tt);
     mret idle : prog Z)
    (λ _ ev w, flush_only ev ∧ agent_token n tid w).
Proof.
  intros Hn Hne Hclk. eapply triple_bind with (R1 := λ _ ev w, flush_only ev ∧ True ∧ has_token n tid Consumer w).
  - destruct (clk =? 0).
    { apply triple_ret. intros w _ H. split; [apply flush_only_nil|]. split; [done|by eapply my_head_token]. }
    eapply triple_bind with (R1 := λ _ ev w, flush_only ev ∧ True ∧ my_head n tid i h w).
    + destruct (EAGER_INVALIDATE && negb CONSUME_HELPING).
      * eapply triple_conseq; [apply spec_flush; [done|apply my_head_stable]|done|].
        intros u ev w _ (-> & H & _). split; [by eexists|done].
      * apply triple_ret. intros w _ H. split; [apply flush_only_nil|done].
    + intros u ev1. cbn beta. apply triple_pure. intros Hev1.
      eapply triple_conseq; [apply (spec_update_clock n tid (λ _, True) i h clk); [done|by intros ????|done]|done|].
      intros u2 ev w _ (-> & H). by rewrite app_nil_r.
  - intros u ev1. cbn beta. apply triple_pure. intros Hev1.
    eapply triple_bind with (R1 := λ _ ev w, ev = [] ∧ agent_token n tid w).
    + unfold agent_token. destruct CONSUME_HELPING.
      * eapply triple_conseq; [apply (spec_unlock n tid (λ _, True)); by intros ????|done|]. by intros u2 ev w _ [-> _].
      * apply triple_ret. by intros w _ [_ H].
    + intros u2 ev2. cbn beta. apply triple_pure. intros ->. apply triple_ret. intros w _ H. by rewrite app_nil_r.
Qed.

Lemma spec_agent_node n tid i idle :
  (n < NODE_COUNT)%nat → (i < NODE_COUNT)%nat →
  triple n tid (agent_token n tid) (agent_node n i idle) (λ _ ev w, flush_only ev ∧ agent_token n tid w).
Proof.
  intros Hn Hi. unfold agent_node. destruct (Nat.eqb_spec i n) as [->|Hne].
  { apply triple_ret. intros w _ H. split; [apply flush_only_nil|done]. }
  eapply triple_bind; [apply spec_is_subscribed; [done|done|apply agent_token_stable]|].
  intros sub ev. cbn beta. apply triple_pure. intros ->.
  apply triple_pre with (λ w, sub = true ∧ agent_token n tid w); [by intros w _ [? ?]|]. apply triple_pure. intros ->.
  cbn [negb]. eapply triple_bind with (R1 := λ b ev w, ev = [] ∧
    if b : bool then has_token n tid Consumer w else agent_token n tid w).
  - unfold agent_token. destruct CONSUME_HELPING.
    + eapply triple_conseq; [apply (spec_try_lock n tid (λ _, True)); [done|by intros ????]|done|].
      intros b ev w _ (-> & _ & H). split; [done|]. by destruct b.
    + apply triple_ret. intros w _ H. split; [done|by apply H].
  - intros b ev. cbn beta. apply triple_pure. intros ->. destruct b; cbn [negb].
    2:{ apply triple_ret. intros w _ H. split; [apply flush_only_nil|done]. }
    apply triple_pre with (λ w, ∃ h, my_head n tid i h w).
    { intros w Hw Ht. destruct (has_token_head n tid i w Hw Hn Hi Hne Ht) as [h Hh]. by exists h. }
    apply triple_exists. intros h. eapply triple_bind; [apply (spec_agent_batch n tid i LOG_MAX_BATCH h 0); [done|lia]|].
    intros [clk idle'] ev. cbn beta. apply triple_pure. intros Hev. apply triple_exists. intros h'. apply triple_pure.
    intros Hclk. eapply triple_conseq; [by apply (spec_agent_finish n tid i h' clk idle')|done|].
    intros r ev2 w _ [Hev2 H]. split; [cbn [app]; by apply flush_only_app|done].
Qed.

Lemma spec_agent_round n tid ids idle :
  (n < NODE_COUNT)%nat → Forall (λ i, (i < NODE_COUNT)%nat) ids →
  triple n tid (agent_token n tid) (agent_round n ids idle) (λ _ ev w, flush_only ev ∧ agent_token n tid w).
Proof.
  intros Hn Hids. revert idle. induction Hids as [|i ids Hi _ IH]; intros idle; cbn [agent_round].
  { apply triple_ret. intros w _ H. split; [apply flush_only_nil|done]. }
  eapply triple_bind; [by apply spec_agent_node|]. intros r ev1. cbn beta. apply triple_pure. intros Hev1.
  eapply triple_conseq; [apply IH|done|]. intros r2 ev2 w _ [Hev2 H]. split; [by apply flush_only_app|done].
Qed.

Lemma spec_cache_agent_run n tid rounds :
  (n < NODE_COUNT)%nat →
  triple n tid (agent_token n tid) (cache_agent_run rounds n) (λ _ ev w, flush_only ev ∧ agent_token n tid w).
Proof.
  intros Hn. unfold cache_agent_run. generalize 0 as idle. induction rounds as [|rounds IH]; intros idle; cbn [agent_rounds].
  { apply triple_ret. intros w _ H. split; [apply flush_only_nil|done]. }
  eapply triple_bind; [apply spec_agent_round; [done|]|].
  { apply Forall_forall. intros i Hi. apply list_elem_of_In, in_seq in Hi. lia. }
  intros r ev1. cbn beta. apply triple_pure. intros Hev1.
  eapply triple_conseq; [apply IH|done|]. intros u ev2 w _ [Hev2 H]. split; [by apply flush_only_app|done].
Qed.
End agent_specs.
