(* ===== verification/Coherence.v ===== *)
(** Coherence: the properties of the whole protocol.

    The worlds [rac_init] builds, the worlds any interleaving of threads reaches
    from them, and what holds of the two sides together: what a thread stored
    before its release is written back and published, and a thread of another
    node whose acquire covers that release has invalidated it. *)
From S2P Require Import Prelude Config VectorClock ClGroup LocalCLTable FlushUtils SpmcQueue.
From S2P Require Import LogManager CacheInfo Actions Invariant Logic ActionSpecs ThreadOps.
From S2P Require Import Runtime Release Acquire CacheAgent.

(** ** Definitions *)

Section coherence.
Context `{cfg : Config} {Q : Type} `{FQ : !FifoQueue Q nat LOG_COUNT}.
Implicit Types (w ws : world Q) (n m tid p : nat) (l : Z) (ev : list tevent).

(** What [rac_init] of every node leaves: a log manager each, nothing cached. *)
Definition node_new n : option (node Q) :=
  lm ← log_manager_new n; Some (mkNode (mkSys lm [] []) cache_info_new [] []).
Definition rac_init_world : option (world Q) := mapM node_new (seq 0 NODE_COUNT).

(** Any number of actions of any threads. *)
Definition any_step w w' : Prop :=
  ∃ n tid X (a : act X) (r : X) ev, act_step n tid a w = Done r ev w'.
Definition world_reachable w : Prop := ∃ w0, rac_init_world = Some w0 ∧ rtc any_step w0 w.

(** Position [p] of node [n] has been processed at node [m] by a pass that
    invalidated [l]. *)
Definition invalidated_at m n p l w : Prop :=
  ∃ nd tr, w !! m = Some nd ∧ (n, p, tr) ∈ nd_seen nd ∧ invalidates_line tr l.

(** A line thread events [ev] stored to at node [n], seen from node [m]: after the
    last store to it, all its hardware lines were written back, then a position
    was published, and [m], which had not processed that position in [ws], has
    invalidated the line for it in [w]. *)
Definition made_visible n m ws ev l w : Prop :=
  ∃ before fl after p, ev = before ++ fl ++ (EvPublish p :: after) ∧
    (EvStore l ∉ fl) ∧ (EvStore l ∉ after) ∧ written_back fl l ∧
    ¬ processed_at m n p ws ∧ invalidated_at m n p l w.

(** The thread's own component counts a published position. *)
Definition own_clock_published n th w : Prop :=
  vc_get (thread_clock th) n = 0 ∨ ∃ p d r, vc_get (thread_clock th) n = Z.of_nat p + 1 ∧ published_at n p d r w.
End coherence.

(** ** Lemmas *)

Section facts.
Context `{cfg : Config} {ok : ConfigOk cfg} {Q : Type} `{FQ : !FifoQueue Q nat LOG_COUNT}.
Implicit Types (w ws : world Q) (n m tid p : nat) (l : Z) (ev : list tevent).

Lemma node_new_ok n nd : node_new n = Some nd → (n < NODE_COUNT)%nat →
  node_ok n nd ∧ nd_seen nd = [] ∧ nd_tok nd = [] ∧ ci_clock (nd_cache nd) = vc_init ∧ ∀ m, head_of (nd_lm nd) m = 0.
Proof.
  unfold node_new. destruct (log_manager_new n) as [lm|] eqn:E; [|done]. cbn. intros [= <-] Hn.
  destruct (inv_initial n (mkSys lm [] [])) as [Hinv Hid]; [by exists lm|].
  unfold log_manager_new in E. destruct (fill_freelist _ _) as [q|]; [|done]. injection E as <-.
  assert (∀ m, head_of (mkLM (replicate LOG_COUNT log_init) (map (λ i, mkPub i 0 false) (seq 0 LOG_COUNT)) 0
    (replicate NODE_COUNT (mkSub 0 true)) q n (next_round 0)) m = 0) as Hh.
  { intros m. unfold head_of, sub_at. cbn. destruct (replicate _ _ !! m) eqn:Em; [|done].
    by apply lookup_replicate in Em as [-> _]. }
  split_and!; [|done..]. constructor; cbn; try done.
  - by exists 0%nat, (seq 0 LOG_COUNT).
  - unfold no_wrap. cbn. pose proof log_count_range. lia.
  - intros i Hi. unfold is_subscribed, sub_at. cbn. by rewrite lookup_replicate_2.
  - apply Forall_replicate. unfold log_ok. rewrite log_init_entries. constructor.
  - intros p d (r & Hr & _). done.
  - constructor.
  - intros log. split; [by intros ?%not_elem_of_nil|by intros [? ?%not_elem_of_nil]].
  - by intros tid p log r ?%not_elem_of_nil.
  - apply length_replicate.
Qed.

Lemma rac_init_world_ok w : rac_init_world = Some w → world_ok w.
Proof.
  intros Hw%mapM_Some. assert (∀ n nd, w !! n = Some nd → node_new n = Some nd ∧ (n < NODE_COUNT)%nat) as Hnode.
  { intros n nd Hn. destruct (Forall2_lookup_r _ _ _ _ _ Hw Hn) as (i & Hi & Hnew).
    apply lookup_seq in Hi as [-> Hlt]. done. }
  constructor.
  - rewrite <- (Forall2_length _ _ _ Hw). apply length_seq.
  - intros n nd Hn. destruct (Hnode n nd Hn) as [Hnew Hlt]. by apply node_new_ok.
  - intros n nd x ndx Hn Hx. destruct (Hnode n nd Hn) as [Hnn Hln], (Hnode x ndx Hx) as [Hnx Hlx].
    destruct (node_new_ok n nd Hnn Hln) as (_ & Hs & _ & Hc & _), (node_new_ok x ndx Hnx Hlx) as (_ & _ & _ & _ & Hh).
    constructor.
    + rewrite Hs. by intros p tr ?%not_elem_of_nil.
    + rewrite Hh. lia.
    + intros _. rewrite Hh. unfold get_clock. rewrite Hc, vc_get_init. done.
Qed.

Lemma rac_init_world_exists : ∃ w, rac_init_world = Some w.
Proof.
  unfold rac_init_world. apply mapM_is_Some_2, Forall_forall. intros n _.
  destruct (initial_exists n) as (s & lm & Hlm & _). exists (mkNode (mkSys lm [] []) cache_info_new [] []). unfold node_new. rewrite Hlm. done.
Qed.

Context {EB : EagerBuild cfg}.

Lemma any_step_ok w w' : world_ok w → any_step w w' → world_ok w' ∧ grows w w'.
Proof.
  intros Hw (n & tid & X & a & r & ev & Hs). split; [by eapply act_sound|by eapply act_grows].
Qed.

Lemma any_steps_ok w w' : world_ok w → rtc any_step w w' → world_ok w' ∧ grows w w'.
Proof.
  intros Hw Hs. revert Hw. induction Hs as [w0 | w0 w1 w2 Hs _ IH]; intros Hw; [split; [done|apply grows_refl]|].
  destruct (any_step_ok w0 w1 Hw Hs) as [Hw1 Hg1]. destruct (IH Hw1) as [Hw2 Hg2]. split; [done|].
  by eapply grows_persistent.
Qed.

Lemma reachable_ok w : world_reachable w → world_ok w.
Proof. intros (w0 & Hi & Hs). apply (any_steps_ok w0 w); [by apply rac_init_world_ok|done]. Qed.

(** A position that has been processed was published before. *)
Lemma processed_published m n p w :
  world_ok w → (n < NODE_COUNT)%nat → processed_at m n p w → ∃ d r, published_at n p d r w.
Proof.
  intros Hw Hn (nd & tr & Hm & Hin). destruct (node_exists w n Hw Hn) as [ndn En].
  destruct (pk_seen _ _ _ _ (wo_pair _ Hw m nd n ndn Hm En) p tr Hin) as (d & (r & Hr & Hd) & _).
  exists d, (pr_rel r), ndn, r. done.
Qed.

(** Processing a position invalidates every line its entries cover. *)
Lemma processed_invalidated m n p d r l w :
  world_ok w → processed_at m n p w → published_at n p d r w → (∃ e, e ∈ d ∧ covers e l = true) →
  invalidated_at m n p l w.
Proof.
  intros Hw (nd & tr & Hm & Hin) (ndn & rr & Hn & Hr & Hd & _) (e & He & Hc).
  destruct (pk_seen _ _ _ _ (wo_pair _ Hw m nd n ndn Hm Hn) p tr Hin) as (d' & (r' & Hr' & Hd') & Hcov).
  exists nd, tr. split; [done|]. split; [done|]. apply (Hcov e l); [|done]. congruence.
Qed.

(** A node's clock for another node counts only positions that node has published
    and this node has processed, invalidating every line their entries cover. *)
Lemma world_clock_counts m n p (nd : node Q) w :
  world_ok w → w !! m = Some nd → (n < NODE_COUNT)%nat → n ≠ m → Z.of_nat p < get_clock n (nd_cache nd) →
  ∃ d r, published_at n p d r w ∧ ∀ e l, e ∈ d → covers e l = true → invalidated_at m n p l w.
Proof.
  intros H0 Em Hn Hne Hp. destruct (node_exists w n H0 Hn) as [ndn En].
  destruct (wo_pair _ H0 m nd n ndn Em En) as [_ H2 H3]. destruct (H2 p Hne) as [tr Htr]; [specialize (H3 Hne); lia|].
  assert (processed_at m n p w) as Hproc by by exists nd, tr.
  destruct (processed_published m n p w H0 Hn Hproc) as (d & r & Hpub).
  exists d, r. split; [done|]. intros e l He' Hc. eapply processed_invalidated; [done..|by exists e].
Qed.

Lemma committed_visible n m ws ev l p w0 w :
  world_ok ws → world_ok w → (n < NODE_COUNT)%nat → grows w0 w →
  committed n ws ev l p w0 → processed_at m n p w → made_visible n m ws ev l w.
Proof.
  intros Hws Hw Hn Hg (Hb & before & fl & after & d & r & -> & H1 & H2 & H3 & Hpub & Hcov) Hproc.
  exists before, fl, after, p. split_and!; [done..| |].
  - intros (d' & r' & Hp)%processed_published; [|done|done]. specialize (Hb p d' r' Hp). lia.
  - eapply processed_invalidated; [done|done| |exact Hcov]. by eapply published_persistent.
Qed.

Lemma thread_new_ok n tid : thread_ok n (thread_new n tid).
Proof.
  constructor; [done|apply mask_only_wf, mask_only_init|apply length_replicate|by left].
Qed.
End facts.

Section runs.
Context `{cfg : Config} {Q : Type} `{FQ : !FifoQueue Q nat LOG_COUNT}.
Implicit Types (w : world Q) (n tid : nat).

Lemma rely_any tid w w' : rely tid w w' → rtc any_step w w'.
Proof.
  intros Hr. induction Hr as [w0 | w0 w1 w2 (n & tid' & X & a & r & ev & _ & Hs) _ IH]; [apply rtc_refl|].
  eapply rtc_l; [|exact IH]. by exists n, tid', X, a, r, ev.
Qed.

(** A run of a program is a sequence of actions. *)
Lemma exec_any n tid {A} (pr : prog A) w o tr w' : exec n tid pr w o tr w' → rtc any_step w w'.
Proof.
  revert w o tr w'. induction pr as [a|X a k IH| |]; intros w o tr w'; cbn [exec].
  - intros (_ & _ & ->). apply rtc_refl.
  - intros (w1 & Hr & H). apply rely_any in Hr. destruct (act_step n tid a w1) as [r ev w2| |] eqn:E.
    + destruct H as (tr' & _ & H). etrans; [exact Hr|]. eapply rtc_l; [|by eapply IH].
      by exists n, tid, X, a, r, ev.
    + by destruct H as (_ & _ & ->).
    + by destruct H as (_ & _ & ->).
  - intros (_ & _ & ->). apply rtc_refl.
  - intros (_ & _ & ->). apply rtc_refl.
Qed.

(** What a node has committed becomes visible to a later acquire that covers it. *)
Lemma acquire_makes_visible {ok : ConfigOk cfg} {EB : EagerBuild cfg} n m tid fuel ws ev l p w1 w2 goal th o tr w3 :
  world_ok ws → world_ok w1 → (n < NODE_COUNT)%nat → (m < NODE_COUNT)%nat → n ≠ m → th_node_id th = m →
  committed n ws ev l p w1 → grows w1 w2 → world_ok w2 → Z.of_nat p < vc_get goal n →
  exec m tid (thread_acquire fuel goal th) w2 (Returned o) tr w3 → made_visible n m ws ev l w3.
Proof.
  intros Hws Hw1 Hn Hm Hne Hid Hc H12 Hw2 Hp He.
  destruct (spec_thread_acquire m tid fuel goal th Hm Hid w2 _ _ _ Hw2 I He) as (Hw3 & _ & Hr).
  destruct (Hr _ eq_refl) as (_ & _ & Hup).
  destruct (any_steps_ok w2 w3 Hw2 (exec_any _ _ _ _ _ _ _ He)) as [_ Hg23].
  eapply committed_visible; [done|done|done| |exact Hc|by apply (Hup n Hn Hne p)].
  by eapply grows_persistent.
Qed.
End runs.

(** ** Properties *)

(** C1: release-acquire coherence. A thread of node [n] makes any accesses and
    releases; a thread of another node [m] later acquires a clock that covers the
    release, with any actions of any threads before, between and during the two.
    Then every line of the non-coherent region the first thread stored to has been
    made visible to [m]: after its last store all its hardware lines were written
    back, a position of the log was published after that, and [m] has, since the
    start of the accesses, invalidated the line for that position. *)
Theorem release_acquire_coherence `{cfg : Config} (ok : ConfigOk cfg) (EB : EagerBuild cfg) (DB : DirectBuild cfg)
    {Q : Type} `{FQ : !FifoQueue Q nat LOG_COUNT} (w0 w1 w2 w3 : world Q) (n m tid1 tid2 fuel1 fuel2 : nat)
    (th1 th1' th2 th2' : ThreadOps) (acc : list access) (released : bool) (ev1 ev2 : list tevent)
    (goal : vclock) (l : Z) :
  world_reachable w0 → (n < NODE_COUNT)%nat → (m < NODE_COUNT)%nat → n ≠ m →
  thread_ok n th1 → th_node_id th2 = m → Forall access_ok acc →
  exec n tid1 (accesses_and_release fuel1 acc th1) w0 (Returned (released, th1')) ev1 w1 →
  rtc any_step w1 w2 →
  vc_get (thread_clock th1') n ≤ vc_get goal n →
  exec m tid2 (thread_acquire fuel2 goal th2) w2 (Returned th2') ev2 w3 →
  nhc_line l → EvStore l ∈ ev1 → made_visible n m w0 ev1 l w3.
Proof.
  intros H0 Hn Hm Hne Hth1 Hth2 Hacc He1 H12 Hgoal He2 Hl Hin. pose proof (reachable_ok w0 H0) as Hw0.
  destruct (spec_accesses_and_release n tid1 fuel1 acc th1 w0 Hn Hth1 Hacc w0 _ _ _ Hw0 (grows_refl w0) He1)
    as (Hw1 & _ & Hr1).
  destruct (Hr1 _ eq_refl) as [_ Hcom]. destruct (Hcom l Hl Hin) as (_ & p & Hp & Hc). cbn [snd] in Hp.
  destruct (any_steps_ok w1 w2 Hw1 H12) as [Hw2 Hg12].
  eapply (acquire_makes_visible n m _ _ w0 _ _ _ w1 w2); [done..| |exact He2]. lia.
Qed.

(** C2: the producer's side. From any reachable world and well-formed thread
    state, accesses followed by a release never fail an assertion or use a log
    they do not own, whatever the other threads do; if they return, the thread
    state is well formed again, and every line of the non-coherent region that
    was stored to was written back and then published, after its last store, at
    a position the thread's new clock covers. *)
Theorem release_publishes_stores `{cfg : Config} (ok : ConfigOk cfg) (EB : EagerBuild cfg) (DB : DirectBuild cfg)
    {Q : Type} `{FQ : !FifoQueue Q nat LOG_COUNT} (w w' : world Q) (n tid fuel : nat) (th : ThreadOps)
    (acc : list access) (o : outcome (bool * ThreadOps)) (ev : list tevent) :
  world_reachable w → (n < NODE_COUNT)%nat → thread_ok n th → Forall access_ok acc →
  exec n tid (accesses_and_release fuel acc th) w o ev w' →
  o ≠ Crashed ∧ ∀ b th', o = Returned (b, th') → thread_ok n th' ∧
    ∀ l, nhc_line l → EvStore l ∈ ev →
      b = true ∧ ∃ p, Z.of_nat p < vc_get (thread_clock th') n ∧ committed n w ev l p w'.
Proof.
  intros H0 Hn Hth Hacc He.
  destruct (spec_accesses_and_release n tid fuel acc th w Hn Hth Hacc w _ _ _ (reachable_ok w H0) (grows_refl w) He)
    as (_ & Ho & Hr).
  split; [done|]. intros b th' ->. exact (Hr _ eq_refl).
Qed.

(** C3: the consumer's side. From any reachable world an acquire never fails,
    whatever the other threads do, and issues only flushes; when it returns, the
    thread's clock is the merge, and every position the target clock covers, of
    every other node, has been published and processed at this node, with the
    lines of all its entries invalidated. *)
Theorem acquire_invalidates_released `{cfg : Config} (ok : ConfigOk cfg) (EB : EagerBuild cfg)
    {Q : Type} `{FQ : !FifoQueue Q nat LOG_COUNT} (w w' : world Q) (m tid fuel : nat) (th : ThreadOps)
    (goal : vclock) (o : outcome ThreadOps) (ev : list tevent) :
  world_reachable w → (m < NODE_COUNT)%nat → th_node_id th = m →
  exec m tid (thread_acquire fuel goal th) w o ev w' →
  o ≠ Crashed ∧ ∀ th', o = Returned th' → th' = set_clock (merge goal (thread_clock th)) th ∧ flush_only ev ∧
    ∀ n p, (n < NODE_COUNT)%nat → n ≠ m → Z.of_nat p < vc_get goal n →
      ∃ d r, published_at n p d r w' ∧ ∀ e l, e ∈ d → covers e l = true → invalidated_at m n p l w'.
Proof.
  intros H0 Hm Hth He.
  destruct (spec_thread_acquire m tid fuel goal th Hm Hth w _ _ _ (reachable_ok w H0) I He) as (Hw' & Ho & Hr).
  split; [done|]. intros th' ->. destruct (Hr _ eq_refl) as (-> & Hfl & Hup). split; [done|]. split; [done|].
  intros n p Hn Hne Hp. specialize (Hup n Hn Hne p Hp). destruct (processed_published m n p w' Hw' Hn Hup) as (d & r & Hpub).
  exists d, r. split; [done|]. intros e l He' Hc. eapply processed_invalidated; [done..|by exists e].
Qed.

(** C5: the cache agent, started with its permission to consume, never fails
    from any reachable world, whatever the other threads do: it processes only
    what it looked at under the mutex, consumes only what it processed, and never
    sets a clock beyond what it consumed. *)
Theorem cache_agent_safe `{cfg : Config} (ok : ConfigOk cfg) (EB : EagerBuild cfg)
    {Q : Type} `{FQ : !FifoQueue Q nat LOG_COUNT} (w w' : world Q) (n tid rounds : nat) (o : outcome unit)
    (ev : list tevent) :
  world_reachable w → (n < NODE_COUNT)%nat → (CONSUME_HELPING = false → has_token n tid Consumer w) →
  exec n tid (cache_agent_run rounds n) w o ev w' →
  o ≠ Crashed ∧ (o = Returned tt → flush_only ev ∧ world_reachable w').
Proof.
  intros H0 Hn Ht He. destruct (spec_cache_agent_run n tid rounds Hn w _ _ _ (reachable_ok w H0) Ht He) as (_ & Ho & Hr).
  split; [done|]. intros ->. destruct (Hr _ eq_refl) as [Hfl _]. split; [done|].
  destruct H0 as (w0 & Hi & Hs). exists w0. split; [done|]. etrans; [exact Hs|by eapply exec_any].
Qed.

(** Releases order the clock of a node. If a thread's own component is 0 or
    the clock of a position its node has published, then so it is after
    [thread_release], the position carries the release flag, the component has
    strictly grown when a log was published, and the others are unchanged. *)
Theorem release_advances_clock `{cfg : Config} (ok : ConfigOk cfg) (EB : EagerBuild cfg) (DB : DirectBuild cfg)
    {Q : Type} `{FQ : !FifoQueue Q nat LOG_COUNT} (w w' : world Q) (n tid fuel : nat) (th th' : ThreadOps)
    (b : bool) (ev : list tevent) :
  world_reachable w → (n < NODE_COUNT)%nat → thread_ok n th → own_clock_published n th w →
  exec n tid (thread_release fuel th) w (Returned (b, th')) ev w' →
  own_clock_published n th' w' ∧ (∀ i, i ≠ n → vc_get (thread_clock th') i = vc_get (thread_clock th) i) ∧
  (b = false → th' = th) ∧
  (b = true → vc_get (thread_clock th) n < vc_get (thread_clock th') n ∧
     ∃ p d, vc_get (thread_clock th') n = Z.of_nat p + 1 ∧ published_at n p d true w').
Proof.
  intros Hw%reachable_ok Hn Hok Hown He.
  destruct (spec_thread_release n tid (grows w) fuel th Hn (grows_persistent w) (to_table n th Hok) w _ _ _ Hw (grows_refl w) He)
    as (_ & _ & Hr).
  destruct (Hr _ eq_refl) as [(_ & [= -> ->] & _ & Hg)|(_ & p & [= -> ->] & [_ [Hpub (w0 & Hg0 & Hb & Hg)]])].
  - split; [|done]. destruct Hown as [?|(q & d & r & Hq & Hp)]; [by left|right]. exists q, d, r. split; [done|].
    by eapply published_persistent.
  - rewrite vc_get_released by (done || by apply (to_node _ _ Hok) || by apply (to_clock _ _ Hok)).
    split; [right; eexists p, _, _; split; [|exact Hpub]; apply vc_get_released; (done || by apply (to_node _ _ Hok) || by apply (to_clock _ _ Hok))|].
    split; [|split; [done|intros _; split; [|eexists p, _; split; [done|exact Hpub]]]].
    + intros i Hi. cbn. unfold vc_get, assign. rewrite list_lookup_insert_ne; [done|]. rewrite (to_node _ _ Hok). done.
    + destruct Hown as [->|(q & d & r & -> & Hp)]; [lia|].
      assert (q < p)%nat by (apply (Hb q d r); by eapply published_persistent). lia.
Qed.

(** ** Examples *)

Section examples.
Let cfg : Config := small_config.
#[local] Existing Instance cfg.
#[local] Existing Instance small_config_ok.
#[local] Existing Instance small_eager.
#[local] Existing Instance small_direct.
Abbreviation SQ := (@spmc_bounded_queue nat).

(** Three stores of node 0 and a release; node 1 acquires the released clock. *)
Definition ex_accesses : list access :=
  [Store CXL_NHC_START 8; Load CXL_NHC_START 8; Store (CXL_NHC_START + 4096) 4; Store 100 8].
Definition ex_line : Z := (CXL_NHC_START + 4096) / 64.

Definition ex_release (w : world SQ) := run 0 0 (accesses_and_release 5 ex_accesses (thread_new 0 0)) w.
Definition ex_acquire (goal : vclock) (w : world SQ) := run 1 1 (thread_acquire 5 goal (thread_new 1 1)) w.

Definition ex_runs : bool :=
  match rac_init_world (Q := SQ) with
  | Some w0 =>
      match ex_release w0 with
      | (Returned (b, th1), ev1, w1) =>
          b && (vc_get (thread_clock th1) 0 =? 1) && existsb (λ e, match e with EvStore l => l =? ex_line | _ => false end) ev1 &&
          match ex_acquire (thread_clock th1) w1 with
          | (Returned th2, ev2, w2) =>
              (vc_get (thread_clock th2) 0 =? 1) && (get_clock 0 (default cache_info_new (nd_cache <$> w2 !! 1%nat)) =? 1)
          | _ => false
          end
      | _ => false
      end
  | None => false
  end.

Example ex_runs_true : ex_runs = true.
Proof. vm_compute. reflexivity. Qed.

(** The two runs, with what the check of them says. *)
Lemma ex_runs_spec :
  ∃ w0 th1 ev1 w1 th2 ev2 w2, rac_init_world (Q := SQ) = Some w0 ∧
    ex_release w0 = (Returned (true, th1), ev1, w1) ∧ vc_get (thread_clock th1) 0 = 1 ∧ EvStore ex_line ∈ ev1 ∧
    ex_acquire (thread_clock th1) w1 = (Returned th2, ev2, w2) ∧ vc_get (thread_clock th2) 0 = 1 ∧
    ∃ nd, w2 !! 1%nat = Some nd ∧ get_clock 0 (nd_cache nd) = 1.
Proof.
  pose proof ex_runs_true as H. unfold ex_runs in H. destruct rac_init_world as [w0|] eqn:E0; [|done].
  destruct (ex_release w0) as [[[[b th1]| |] ev1] w1] eqn:E1; try done.
  apply andb_prop in H as [H H2]. apply andb_prop in H as [H Hin]. apply andb_prop in H as [Hb Hc].
  apply Z.eqb_eq in Hc. apply existsb_exists in Hin as (e & He%list_elem_of_In & Hl).
  destruct e as [|?|l|]; try done. apply Z.eqb_eq in Hl. subst l.
  destruct (ex_acquire (thread_clock th1) w1) as [[[th2| |] ev2] w2] eqn:E2; try done.
  apply andb_prop in H2 as [H2 H3]. apply Z.eqb_eq in H2, H3. destruct b; [|done].
  exists w0, th1, ev1, w1, th2, ev2, w2. split_and!; [done..|].
  destruct (w2 !! 1%nat) as [nd|]; [by exists nd|]. cbn in H3. vm_compute in H3. discriminate.
Qed.

Lemma ex_accesses_ok : Forall access_ok ex_accesses.
Proof. repeat constructor; vm_compute; congruence. Qed.

Lemma ex_reachable w0 : rac_init_world (Q := SQ) = Some w0 → world_reachable w0.
Proof. intros H. exists w0. split; [exact H|apply rtc_refl]. Qed.

Lemma release_acquire_coherence_witness :
  ∃ w0 ev1 w3, rac_init_world (Q := SQ) = Some w0 ∧ made_visible 0 1 w0 ev1 ex_line w3.
Proof.
  destruct ex_runs_spec as (w0 & th1 & ev1 & w1 & th2 & ev2 & w2 & H0 & H1 & Hc & Hin & H2 & _).
  exists w0, ev1, w2. split; [exact H0|].
  apply (release_acquire_coherence small_config_ok small_eager small_direct w0 w1 w1 w2 0 1 0 1 5 5
    (thread_new 0 0) th1 (thread_new 1 1) th2 ex_accesses true ev1 ev2 (thread_clock th1) ex_line);
    [apply ex_reachable, H0|cbn; lia|cbn; lia|lia|apply thread_new_ok|reflexivity|apply ex_accesses_ok
    |apply run_exec, H1|apply rtc_refl|lia|apply run_exec, H2|vm_compute; congruence|exact Hin].
Defined.

Lemma release_publishes_stores_witness :
  ∃ w0 th1 ev1 w1 p, rac_init_world (Q := SQ) = Some w0 ∧ Z.of_nat p < vc_get (thread_clock th1) 0 ∧
    committed 0 w0 ev1 ex_line p w1.
Proof.
  destruct ex_runs_spec as (w0 & th1 & ev1 & w1 & th2 & ev2 & w2 & H0 & H1 & Hc & Hin & _).
  destruct (release_publishes_stores small_config_ok small_eager small_direct w0 w1 0 0 5 (thread_new 0 0) ex_accesses
    _ ev1 (ex_reachable w0 H0) ltac:(cbn; lia) (thread_new_ok 0 0) ex_accesses_ok (run_exec _ _ _ _ _ _ _ H1)) as [_ Hr].
  destruct (Hr true th1 eq_refl) as [_ Hl]. destruct (Hl ex_line ltac:(vm_compute; congruence) Hin) as (_ & p & Hp & Hcom).
  exists w0, th1, ev1, w1, p. split; [exact H0|split; [exact Hp|exact Hcom]].
Defined.

Lemma acquire_invalidates_released_witness :
  ∃ w1 w2 d r, published_at (Q := SQ) 0 0 d r w2 ∧ (∀ e l, e ∈ d → covers e l = true → invalidated_at 1 0 0 l w2) ∧
    world_reachable w1.
Proof.
  destruct ex_runs_spec as (w0 & th1 & ev1 & w1 & th2 & ev2 & w2 & H0 & H1 & Hc & Hin & H2 & _).
  assert (world_reachable w1) as Hw1 by (exists w0; split; [exact H0|exact (exec_any _ _ _ _ _ _ _ (run_exec _ _ _ _ _ _ _ H1))]).
  destruct (acquire_invalidates_released small_config_ok small_eager w1 w2 1 1 5 (thread_new 1 1) (thread_clock th1)
    _ ev2 Hw1 ltac:(cbn; lia) eq_refl (run_exec _ _ _ _ _ _ _ H2)) as [_ Hr].
  destruct (Hr th2 eq_refl) as (_ & _ & Hall).
  destruct (Hall 0%nat 0%nat ltac:(cbn; lia) ltac:(lia) ltac:(rewrite Hc; lia)) as (d & r & Hd & Hcov).
  exists w1, w2, d, r. split; [exact Hd|split; [exact Hcov|exact Hw1]].
Defined.

(** The agent of node 1 after the release, alone. *)
Definition ex_agent (w : world SQ) := run 1 2 (cache_agent_run 1 1) w.
Definition ex_agent_clock : option Z :=
  w0 ← rac_init_world (Q := SQ);
  let '(_, w1) := ex_release w0 in
  match ex_agent w1 with (Returned _, _, w2) => get_clock 0 ∘ nd_cache <$> w2 !! 1%nat | _ => None end.
Example ex_agent_catches_up : ex_agent_clock = Some 1.
Proof. vm_compute. reflexivity. Qed.

Lemma cache_agent_safe_witness :
  ∃ w0 w1 w2 ev, rac_init_world (Q := SQ) = Some w0 ∧ ex_agent w1 = (Returned tt, ev, w2) ∧ flush_only ev ∧ world_reachable w2.
Proof.
  destruct ex_runs_spec as (w0 & th1 & ev1 & w1 & th2 & ev2 & w2 & H0 & H1 & _).
  assert (world_reachable w1) as Hw1 by (exists w0; split; [exact H0|exact (exec_any _ _ _ _ _ _ _ (run_exec _ _ _ _ _ _ _ H1))]).
  pose proof ex_agent_catches_up as Hag. unfold ex_agent_clock in Hag. rewrite H0 in Hag. cbn [mbind option_bind] in Hag.
  rewrite H1 in Hag. destruct (ex_agent w1) as [[[[]| |] ev] w3] eqn:E; [|discriminate Hag..].
  destruct (cache_agent_safe small_config_ok small_eager w1 w3 1 2 1 (Returned tt) ev Hw1 ltac:(cbn; lia)
    ltac:(intros Hf; discriminate Hf) (run_exec _ _ _ _ _ _ _ E)) as [_ Hr].
  destruct (Hr eq_refl) as [Hfl Hre]. exists w0, w1, w3, ev. split; [exact H0|]. split; [exact E|]. split; [exact Hfl|exact Hre].
Defined.

Lemma release_advances_clock_witness :
  ∃ w0 th ev w1 th', rac_init_world (Q := SQ) = Some w0 ∧
    run 0 0 (thread_release 1 th) w0 = (Returned (true, th'), ev, w1) ∧ 0 < vc_get (thread_clock th') 0.
Proof.
  destruct (rac_init_world (Q := SQ)) as [w0|] eqn:E0; [|vm_compute in E0; discriminate E0].
  destruct (run 0 0 (rac_accesses 5 ex_accesses (thread_new 0 0)) w0) as [[o0 ev0] w] eqn:E1.
  destruct o0 as [th| |]; [|exfalso; vm_compute in E0; injection E0 as <-; vm_compute in E1; discriminate E1..].
  destruct (run 0 0 (thread_release 1 th) w0) as [[o ev] w1] eqn:E2.
  assert (∃ th', o = Returned (true, th')) as [th' ->].
  { vm_compute in E0. injection E0 as <-. vm_compute in E1. injection E1 as <- _ _. vm_compute in E2. injection E2 as <- _ _.
    eexists. reflexivity. }
  destruct (spec_rac_accesses (cfg := cfg) 0 0 5 ex_accesses (thread_new 0 0) w0 [] (Nat.lt_0_succ 1) (thread_new_ok 0 0) ex_accesses_ok
    ltac:(intros l _ ?%not_elem_of_nil; done) w0 _ _ _ (rac_init_world_ok w0 E0)
    ltac:(split; [apply grows_refl|intros l _ ?%not_elem_of_nil; done]) (run_exec _ _ _ _ _ _ _ E1)) as (_ & _ & Hr).
  destruct (Hr th eq_refl) as [(Hok & _ & Hclk) _].
  destruct (release_advances_clock small_config_ok small_eager small_direct w0 w1 0 0 1 th th' true ev (ex_reachable w0 E0)
    ltac:(cbn; lia) Hok ltac:(left; rewrite Hclk; reflexivity) (run_exec _ _ _ _ _ _ _ E2)) as (_ & _ & _ & Hadv).
  destruct (Hadv eq_refl) as [Hlt _]. rewrite Hclk in Hlt. exists w0, th, ev, w1, th'. split; [reflexivity|]. split; [exact E2|exact Hlt].
Defined.
End examples.
