(* ===== verification/Pool.v ===== *)
(** Pool: the threads of all nodes together, on the machine without checks.

    A pool is a world and, for each thread, its node and what is left of its
    program; a step is the next action of any of them, as the code performs it
    ([act_do]). A program whose triple holds runs in a pool as it does on the
    checked machine ([pool_adequate]), so what holds of the checked worlds holds
    of those the program's threads reach. *)
From S2P Require Import Prelude Config VectorClock ClGroup LocalCLTable FlushUtils SpmcQueue.
From S2P Require Import LogManager CacheInfo Actions Invariant Logic ActionSpecs ThreadOps.
From S2P Require Import Runtime Release Acquire CacheAgent Coherence.

(** ** Definitions *)

(** What a thread of a client does: accesses, releases, and acquires of any clock
    it has been given; the other threads are cache agents. *)
Inductive client_op := ClientAccess (a : access) | ClientRelease | ClientAcquire (goal : vclock).
Inductive thread_main := ClientMain (fuel : nat) (ops : list client_op) | AgentMain (rounds : nat).

Section pool.
Context `{cfg : Config} {Q : Type} `{FQ : !FifoQueue Q nat LOG_COUNT}.
Implicit Types (w : world Q) (n tid i : nat) (th : ThreadOps) (fuel : nat).

Fixpoint client fuel (ops : list client_op) th : prog ThreadOps :=
  match ops with
  | [] => mret th
  | ClientAccess a :: ops => th ← rac_access fuel a th; client fuel ops th
  | ClientRelease :: ops => '(_, th) ← thread_release fuel th; client fuel ops th
  | ClientAcquire goal :: ops => th ← thread_acquire fuel goal th; client fuel ops th
  end.
Definition thread_prog n tid (main : thread_main) : prog unit :=
  match main with
  | ClientMain fuel ops => _ ← client fuel ops (thread_new n tid); mret tt
  | AgentMain rounds => cache_agent_run rounds n
  end.

(** The thread with id [i] is the [i]-th. *)
Definition pool : Type := world Q * list (nat * prog unit).
Definition pool_start (mains : list (nat * thread_main)) w : pool :=
  (w, imap (λ i x, (x.1, thread_prog x.1 i x.2)) mains).
Inductive threads_step : pool → pool → Prop :=
  | pool_act i n {X} (a : act X) k w ps r ev w' :
      ps !! i = Some (n, Vis a k) → act_do n i a w = Done r ev w' → threads_step (w, ps) (w', <[i := (n, k r)]> ps).

(** A thread that can fail: at a null pointer, or at an action that crashes. *)
Definition pool_faulty (x : pool) : Prop :=
  ∃ i n, x.2 !! i = Some (n, NullAccess) ∨ ∃ X (a : act X) k, x.2 !! i = Some (n, Vis a k) ∧ act_do n i a x.1 = Crash.

Definition client_op_ok (o : client_op) : Prop :=
  match o with ClientAccess a => access_ok a | ClientRelease => True | ClientAcquire goal => length goal = NODE_COUNT end.
Definition main_ok (x : nat * thread_main) : Prop :=
  (x.1 < NODE_COUNT)%nat ∧ match x.2 with ClientMain _ ops => Forall client_op_ok ops | AgentMain _ => CONSUME_HELPING = true end.
End pool.

(** ** Lemmas *)

Section adequacy.
Context `{cfg : Config} {ok : ConfigOk cfg} {EB : EagerBuild cfg} {Q : Type} `{FQ : !FifoQueue Q nat LOG_COUNT}.
Implicit Types (w : world Q) (n tid i : nat) (ps : list (nat * prog unit)).

(** Whatever the others do, the rest of the program does not crash. *)
Definition safe n tid (pr : prog unit) w : Prop := ∀ o tr w', exec n tid pr w o tr w' → o ≠ Crashed.

Lemma safe_other n tid pr w w' : safe n tid pr w → other tid w w' → safe n tid pr w'.
Proof.
  intros Hs Ho o tr w2 He. destruct pr as [x|X a k| |]; cbn [exec] in He.
  - by destruct He as (-> & _).
  - destruct He as (w1 & Hr & He). apply (Hs o tr w2). cbn [exec]. exists w1. split; [|done]. by eapply rtc_l.
  - by destruct He as (-> & _).
  - by destruct (Hs Crashed [] w).
Qed.

Lemma safe_act n tid {X} (a : act X) k w :
  safe n tid (Vis a k) w → act_do n tid a w = act_step n tid a w ∧ act_step n tid a w ≠ Crash.
Proof.
  intros Hs. assert (act_step n tid a w ≠ Crash) as Hc; [|by split; [apply act_step_do|]].
  intros E. apply (Hs Crashed [] w); [|done]. cbn [exec]. exists w. split; [apply rtc_refl|]. by rewrite E.
Qed.

Lemma safe_next n tid {X} (a : act X) k w r ev w' :
  safe n tid (Vis a k) w → act_step n tid a w = Done r ev w' → safe n tid (k r) w'.
Proof.
  intros Hs E o tr w2 He. apply (Hs o (ev ++ tr) w2). cbn [exec]. exists w. split; [apply rtc_refl|]. rewrite E. by exists tr.
Qed.

Definition pool_ok (x : pool) : Prop := world_ok x.1 ∧ ∀ i n pr, x.2 !! i = Some (n, pr) → safe n i pr x.1.

(** A step of a pool is a step of the checked machine. *)
Lemma threads_step_ok x x' : pool_ok x → threads_step x x' → pool_ok x'.
Proof.
  intros [Hw Hps] Hs. destruct Hs as [i n X a k w ps r ev w' Hi E]. cbn [fst snd] in *.
  destruct (safe_act n i a k w (Hps _ _ _ Hi)) as [Heq _]. rewrite Heq in E. split; cbn [fst snd].
  - apply (any_step_ok w); [done|]. by exists n, i, X, a, r, ev.
  - intros j m pr [(<- & [= <- <-] & _)|[Hne Hj]]%list_lookup_insert_Some.
    + by eapply safe_next; [apply Hps|].
    + eapply safe_other; [by apply Hps|]. by exists n, i, X, a, r, ev.
Qed.

Lemma pool_steps_ok x x' : rtc threads_step x x' → pool_ok x → pool_ok x'.
Proof. induction 1 as [|x x1 x' Hs _ IH]; [done|]. intros Hx. by apply IH, (threads_step_ok x). Qed.

Lemma pool_adequate x x' : pool_ok x → rtc threads_step x x' → world_ok x'.1 ∧ ¬ pool_faulty x'.
Proof.
  intros Hx Hs. destruct (pool_steps_ok x x' Hs Hx) as [Hw Hps]. split; [done|].
  intros (i & n & [Hi|(X & a & k & Hi & E)]).
  - by destruct (Hps _ _ _ Hi Crashed [] x'.1).
  - destruct (safe_act n i a k _ (Hps _ _ _ Hi)). congruence.
Qed.

Lemma triple_safe n tid (pr : prog unit) P R w : triple n tid P pr R → world_ok w → P w → safe n tid pr w.
Proof. intros Ht Hw HP o tr w' He. by apply (Ht w o tr w' Hw HP He). Qed.
End adequacy.

Section mains.
Context `{cfg : Config} {ok : ConfigOk cfg} {EB : EagerBuild cfg} {DB : DirectBuild cfg} {Q : Type} `{FQ : !FifoQueue Q nat LOG_COUNT}.
Implicit Types (w : world Q) (n tid i : nat) (th : ThreadOps).

Lemma acquired_thread_ok n goal th : length goal = NODE_COUNT → thread_ok n th → thread_ok n (acquired goal th).
Proof. intros Hg [H1 H2 H3 H4]. constructor; [done|done| |done]. cbn. rewrite length_merge; congruence. Qed.

Lemma spec_client n tid fuel ops th :
  (n < NODE_COUNT)%nat → thread_ok n th → Forall client_op_ok ops →
  triple (Q := Q) n tid (λ _, True) (client fuel ops th) (λ _ _ _, True).
Proof.
  intros Hn Hth Hops. revert th Hth. induction Hops as [|op ops Hop _ IH]; intros th Hth; cbn [client]; [by apply triple_ret|].
  destruct op as [a| |goal]; cbn in Hop.
  - intros w o tr w' Hw _. revert Hw. cut (triple n tid (λ w1, tracked n w th [] w1) (th' ← rac_access fuel a th; client fuel ops th') (λ _ _ _, True)).
    { intros Ht Hw He. apply (Ht w o tr w' Hw); [|done]. split; [apply grows_refl|]. by intros l _ ?%not_elem_of_nil. }
    eapply triple_bind; [apply (spec_rac_access n tid fuel a th w []); [done|done|done|by intros l _ ?%not_elem_of_nil]|].
    intros th1 ev. cbn beta. apply triple_pure. intros (Hth1 & _). by eapply triple_conseq; [apply IH|done|done].
  - eapply triple_bind; [apply (spec_thread_release n tid (λ _, True)); [done|by intros ?|apply (to_table _ _ Hth)]|].
    intros [b th1] ev. cbn beta. apply triple_pre with (λ w, thread_ok n th1 ∧ True).
    { intros w _ [(_ & [= _ ->] & _)|(_ & p & [= _ ->] & _)]; (split; [|done]); [done|by apply released_ok]. }
    apply triple_pure. intros Hth1. by eapply triple_conseq; [apply IH|done|done].
  - eapply triple_bind; [apply (spec_thread_acquire n tid fuel goal th Hn), (to_node _ _ Hth)|].
    intros th1 ev. cbn beta. apply triple_pure. intros ->. by eapply triple_conseq; [apply IH; by apply acquired_thread_ok|done|done].
Qed.

Lemma mains_safe mains w : world_ok w → Forall main_ok mains → pool_ok (pool_start mains w).
Proof.
  intros Hw Hm. split; [done|]. cbn [pool_start fst snd]. intros i n pr. rewrite list_lookup_imap.
  destruct (mains !! i) as [[n' main]|] eqn:E; [|done]. intros [= <- <-].
  destruct (Forall_lookup_1 _ _ _ _ Hm E) as [Hn Hmain]. cbn [fst snd] in *. destruct main as [fuel ops|rounds]; cbn [thread_prog].
  - eapply (triple_safe n' i _ (λ _, True) (λ _ _ _, True)); [|done|done].
    eapply triple_bind; [by apply spec_client; [|apply thread_new_ok|]|]. intros ? ?. by apply triple_ret.
  - eapply triple_safe; [by apply spec_cache_agent_run|done|]. intros Hc. congruence.
Qed.
End mains.

(** ** Properties *)

(** C4: the invariant of the program's threads. Any number of threads of any nodes,
    clients that make accesses within a virtual line, release and acquire, and cache
    agents (in the build with [CONSUME_HELPING]), run from [rac_init] on, their actions interleaved in any way and performed as the code
    performs them, without the checks of [act_step]. Then no thread fails; and a
    node's clock for another node counts only positions that node has published
    and this node has processed, invalidating every line their entries cover: no
    thread sets a clock, or consumes a position, before its lines are invalidated. *)
Theorem clock_counts_invalidated `{cfg : Config} (ok : ConfigOk cfg) (EB : EagerBuild cfg) (DB : DirectBuild cfg)
    {Q : Type} `{FQ : !FifoQueue Q nat LOG_COUNT} (mains : list (nat * thread_main)) (w0 : world Q) (x : pool) :
  rac_init_world = Some w0 → Forall main_ok mains → rtc threads_step (pool_start mains w0) x →
  ¬ pool_faulty x ∧
  ∀ m n p nd, x.1 !! m = Some nd → (n < NODE_COUNT)%nat → n ≠ m → Z.of_nat p < get_clock n (nd_cache nd) →
    ∃ d r, published_at n p d r x.1 ∧ ∀ e l, e ∈ d → covers e l = true → invalidated_at m n p l x.1.
Proof.
  intros H0 Hm Hs.
  destruct (pool_adequate _ x (mains_safe mains w0 (rac_init_world_ok w0 H0) Hm) Hs) as [Hw Hf].
  split; [done|]. intros m n p nd. by apply world_clock_counts.
Qed.

(** ** Examples *)

Section examples.
Let cfg : Config := small_config.
#[local] Existing Instance cfg.
#[local] Existing Instance small_config_ok.
#[local] Existing Instance small_eager.
#[local] Existing Instance small_direct.
#[local] Abbreviation SQ := (@spmc_bounded_queue nat).

(** The next action of thread [i], and of the threads of a schedule. *)
Definition pool_do i (x : pool (Q := SQ)) : option (pool (Q := SQ)) :=
  match x.2 !! i with
  | Some (n, Vis a k) => match act_do n i a x.1 with Done r _ w => Some (w, <[i := (n, k r)]> x.2) | _ => None end
  | _ => None
  end.
Definition pool_run (l : list nat) x : option (pool (Q := SQ)) := foldl (λ ox i, x ← ox; pool_do i x) (Some x) l.

Lemma pool_do_step i x x' : pool_do i x = Some x' → threads_step x x'.
Proof.
  unfold pool_do. destruct x as [w ps]. cbn [fst snd]. destruct (ps !! i) as [[n [?|X a k| |]]|] eqn:E; try done.
  destruct (act_do n i a w) as [r ev w'| |] eqn:Ea; try done. intros [= <-]. by eapply pool_act.
Qed.
Lemma pool_run_steps l x x' : pool_run l x = Some x' → rtc threads_step x x'.
Proof.
  unfold pool_run. revert x. induction l as [|i l IH]; intros x; cbn [foldl].
  - intros [= <-]. apply rtc_refl.
  - cbn [mbind option_bind]. destruct (pool_do i x) as [x1|] eqn:E.
    + intros H. eapply rtc_l; [by eapply pool_do_step|by apply IH].
    + intros H. exfalso. revert H. clear. induction l as [|j l IHl]; [done|exact IHl].
Qed.

(** Node 0 stores and releases while the agent of node 1 looks for logs. *)
Definition ex_mains : list (nat * thread_main) :=
  [(0%nat, ClientMain 5 [ClientAccess (Store (CXL_NHC_START + 4096) 4); ClientRelease]); (1%nat, AgentMain 2)].
Definition ex_schedule : list nat := [0; 1; 0; 1; 0; 0; 0; 0; 1; 1; 1; 1; 1]%nat.
Definition ex_pool_counts : bool :=
  match rac_init_world (Q := SQ) with
  | Some w0 =>
      match pool_run ex_schedule (pool_start ex_mains w0) with
      | Some x => match x.1 !! 1%nat with Some nd => get_clock 0 (nd_cache nd) =? 1 | None => false end
      | None => false
      end
  | None => false
  end.
Example ex_pool_counts_true : ex_pool_counts = true.
Proof. vm_compute. reflexivity. Qed.
Lemma ex_pool_spec :
  ∃ w0 x nd, rac_init_world (Q := SQ) = Some w0 ∧ rtc threads_step (pool_start ex_mains w0) x ∧
    x.1 !! 1%nat = Some nd ∧ get_clock 0 (nd_cache nd) = 1.
Proof.
  pose proof ex_pool_counts_true as H. unfold ex_pool_counts in H.
  destruct (rac_init_world (Q := SQ)) as [w0|] eqn:E0; [|done].
  destruct (pool_run ex_schedule (pool_start ex_mains w0)) as [x|] eqn:E1; [|done].
  destruct (x.1 !! 1%nat) as [nd|] eqn:Hnd; [|done]. apply Z.eqb_eq in H.
  exists w0, x, nd. split; [done|]. split; [by eapply pool_run_steps|done].
Qed.

Lemma ex_mains_ok : Forall main_ok ex_mains.
Proof. repeat constructor; vm_compute; try congruence; lia. Qed.

(** The agent's clock counts the position, and its lines are invalidated. *)
Lemma clock_counts_invalidated_witness :
  ∃ w0 x d r, rtc threads_step (pool_start (Q := SQ) ex_mains w0) x ∧ published_at 0 0 d r x.1 ∧
    ∀ e l, e ∈ d → covers e l = true → invalidated_at 1 0 0 l x.1.
Proof.
  destruct ex_pool_spec as (w0 & x & nd & E0 & E1 & Hnd & H).
  destruct (clock_counts_invalidated small_config_ok small_eager small_direct ex_mains w0 x E0 ex_mains_ok E1) as [_ Hc].
  destruct (Hc 1%nat 0%nat 0%nat nd Hnd ltac:(cbn; lia) ltac:(lia) ltac:(rewrite H; lia)) as (d & r & Hd & Hcov).
  exists w0, x, d, r. split; [exact E1|]. split; [exact Hd|exact Hcov].
Defined.
End examples.
