(* ===== verification/RangeStore.v ===== *)
(** RangeStore: what [log_range_store] and the range hooks of Runtime guarantee.

    The triples for the range path of ThreadOps, which the wrappers of library
    calls (memcpy and the like) use. The lines a range leaves in the table are
    those [marks] of LocalCLTable names: the lines of the last, partial group of
    a range are dropped, except the one at the end address. *)
From S2P Require Import Prelude Config VectorClock ClGroup LocalCLTable FlushUtils ClTracker.
From S2P Require Import SpmcQueue LogManager CacheInfo Actions Invariant Logic ActionSpecs.
From S2P Require Import ThreadOps Runtime Release Coherence.

Section range_store.
Context `{cfg : Config} {ok : ConfigOk cfg} {EB : EagerBuild cfg} {DB : DirectBuild cfg}
  {Q : Type} `{FQ : !FifoQueue Q nat LOG_COUNT}.
Implicit Types (w ws : world Q) (n tid p fuel : nat) (P : world Q → Prop) (th : ThreadOps) (l b e : Z)
  (ev tr : list tevent).

(** ** Definitions *)

(** Of the lines [R], those stored so far are marked by the rest of a range, in
    the table, or committed. *)
Definition owed n ws (R : Z → Prop) b e th tr w : Prop :=
  grows ws w ∧ ∀ l, R l → EvStore l ∈ tr →
    marks b e l ∨ table_covers (dirty_cls th) l = true ∨ ∃ p, committed n ws tr l p w.
Definition accounted n ws (R : Z → Prop) th tr w : Prop :=
  grows ws w ∧ ∀ l, R l → EvStore l ∈ tr →
    table_covers (dirty_cls th) l = true ∨ ∃ p, committed n ws tr l p w.

(** A store of a range, the hook after it, and a release. *)
Definition range_store_and_release fuel (begin size : Z) th : prog (bool * ThreadOps) :=
  _ ← perform (StoreBytes begin size);
  th ← rac_post_writeback fuel begin (begin + size) th;
  thread_release fuel th.

(** Two states that differ in the table only. *)
Definition same_but_table th th' : Prop :=
  th_node_id th' = th_node_id th ∧ thread_clock th' = thread_clock th ∧ recent_cl th' = recent_cl th.

(** ** Lemmas *)

#[local] Instance marks_dec b e l : Decision (marks b e l).
Proof. unfold marks. apply _. Defined.

Lemma owed_persistent n ws R b e th tr : persistent (owed n ws R b e th tr).
Proof.
  apply persistent_and; [apply grows_persistent|]. apply persistent_forall. intros l. do 2 apply persistent_impl.
  intros w w' Hg [H|[H|(p & H)]]; [by left|by right; left|right; right]. exists p. by eapply committed_persistent.
Qed.

Lemma accounted_persistent n ws R th tr : persistent (accounted n ws R th tr).
Proof.
  apply persistent_and; [apply grows_persistent|]. apply persistent_forall. intros l. do 2 apply persistent_impl.
  intros w w' Hg [H|(p & H)]; [by left|right]. exists p. by eapply committed_persistent.
Qed.

Lemma owed_pass n ws R b e th tr p ev w :
  pass_done n (owed n ws R b e th tr) (dirty_cls th) false p ev w →
  owed n ws R b e (set_dirty (clear_table (dirty_cls th)) th) (tr ++ ev) w.
Proof.
  intros Hp. split.
  { destruct Hp as [_ [_ (w0 & [Hg _] & _ & Hg')]]. by eapply grows_persistent. }
  intros l Hnl Hl. destruct (decide (marks b e l)) as [|Hm]; [by left|right; right].
  assert (EvStore l ∈ tr) as Hl'.
  { apply elem_of_app in Hl as [?|?]; [done|]. by destruct (pass_no_store _ _ _ _ _ _ _ l Hp). }
  destruct (pass_commits_line n ws _ _ _ _ tr _ _ l Hp) as (q & _ & Hq); [|by exists q].
  intros w0 [Hg H]. split; [done|]. by destruct (H l Hnl Hl') as [?|?].
Qed.

(** A call of [range_insert] turns marks into covered lines. *)
Lemma owed_insert n ws R b e b' e' full t' th tr w :
  (∀ l, table_covers t' l = true ∨ (full = true ∧ marks b' e' l) ↔ table_covers (dirty_cls th) l = true ∨ marks b e l) →
  owed n ws R b e th tr w →
  if full : bool then owed n ws R b' e' (set_dirty t' th) tr w else accounted n ws R (set_dirty t' th) tr w.
Proof.
  intros Hc [Hg H]. assert (∀ l, R l → EvStore l ∈ tr → (table_covers t' l = true ∨ full = true ∧ marks b' e' l) ∨
    ∃ p, committed n ws tr l p w) as H'.
  { intros l Hl Hin. destruct (H l Hl Hin) as [?|[?|?]]; [left; apply Hc; by right|left; apply Hc; by left|by right]. }
  destruct full; (split; [done|]); intros l Hl Hin; destruct (H' l Hl Hin) as [[?|[? ?]]|?]; try done; auto.
Qed.

Lemma spec_insert_range n tid fuel rounds b e th ws R tr :
  (n < NODE_COUNT)%nat → mask_only (dirty_cls th) → line_in_range b → line_in_range e → b ≤ e →
  (e - b) / 16 ≤ GROUP_LEN_MAX →
  triple n tid (owed n ws R b e th tr) (insert_range (S fuel) rounds b e th)
    (λ th' ev w, (same_but_table th th' ∧ table_wf (dirty_cls th')) ∧ accounted n ws R th' (tr ++ ev) w).
Proof.
  intros Hn. revert b e th tr. induction rounds as [|rounds IH]; intros b e th tr Hmo Hb He Hle Hlen; [apply triple_fuel|].
  cbn [insert_range]. destruct (range_insert_spec fuel b e (dirty_cls th) Hmo Hb He Hle Hlen)
    as (full & b' & e' & t' & -> & Hfull & Hwf & Hc). autorewrite with prog.
  pose proof (owed_insert n ws R b e b' e' full t' th tr) as Hins. destruct full.
  - destruct (Hfull eq_refl) as (Hmo' & Hb' & He' & Hbe & Hee).
    eapply triple_pre; [by intros w _ H; apply Hins|]. autorewrite with prog.
    eapply triple_bind; [apply (spec_write_to_log n tid (owed n ws R b' e' (set_dirty t' th) tr));
      [done|apply owed_persistent|done]|].
    intros res ev. cbn beta. apply triple_exists. intros p. apply triple_pure. intros ->. cbn [dirty_cls set_dirty].
    eapply triple_conseq; [apply (IH b' e' (set_dirty (clear_table t') (set_dirty t' th)) (tr ++ ev))|..].
    + cbn. by apply mask_only_clear.
    + done.
    + done.
    + lia.
    + etrans; [|exact Hlen]. apply Z.div_le_mono; lia.
    + intros w _ H. by apply owed_pass in H.
    + intros th' ev2 w _ [[Hs Hwf'] H]. rewrite <- app_assoc in H. split; [|done]. split; [|done].
      destruct Hs as (?&?&?). done.
  - apply triple_ret. intros w _ H. rewrite app_nil_r. split; [done|by apply Hins].
Qed.

Lemma spec_log_range_store n tid fuel begin stop th ws R tr :
  let b := shr64 begin VIRTUAL_CL_SHIFT in let e := shr64 stop VIRTUAL_CL_SHIFT in
  (n < NODE_COUNT)%nat → mask_only (dirty_cls th) → line_in_range b → line_in_range e → b ≤ e →
  (e - b) / 16 ≤ GROUP_LEN_MAX →
  triple n tid (owed n ws R b e th tr) (log_range_store (S fuel) begin stop th)
    (λ th' ev w, (same_but_table (set_recent e th) th' ∧ table_wf (dirty_cls th')) ∧ accounted n ws R th' (tr ++ ev) w).
Proof.
  intros b e Hn Hmo Hb He Hle Hlen. unfold log_range_store. rewrite eb_table. cbn [negb]. fold b e.
  eapply triple_bind; [by apply (spec_insert_range n tid fuel (S fuel) b e (set_recent e th) ws R tr)|].
  intros th' ev. cbn beta. unfold flush_length_entries. rewrite db_buffer. cbn [andb].
  apply triple_ret. intros w _ H. by rewrite app_nil_r.
Qed.

(** The hook after the stores [tr] of a range, and a release. *)
Lemma spec_log_range_and_release n tid fuel begin size th ws tr :
  let b := begin / VIRTUAL_CL_SIZE in let e := (begin + size) / VIRTUAL_CL_SIZE in
  (n < NODE_COUNT)%nat → th_node_id th = n → length (thread_clock th) = NODE_COUNT → mask_only (dirty_cls th) →
  CXL_NHC_START ≤ begin → 0 ≤ size → begin + size < 2 ^ VIRTUAL_ADDRESS_BITS → (e - b) / 16 ≤ GROUP_LEN_MAX →
  triple n tid (grows ws) (th ← log_range_store (S fuel) begin (begin + size) th; thread_release (S fuel) th)
    (λ res ev w, res.1 = true ∧ ∀ l, marks b e l → EvStore l ∈ tr ++ ev →
       ∃ p, Z.of_nat p < vc_get (thread_clock res.2) n ∧ committed n ws (tr ++ ev) l p w).
Proof.
  intros b e Hn Hid Hclk Hmo Hbeg Hsz Hend Hlen.
  assert (0 ≤ CXL_NHC_START) as Hpos by done. pose proof virtual_cl_size_range.
  destruct (nhc_line_arg begin) as [Hb _]; [lia|by apply Z.leb_le|].
  destruct (nhc_line_arg (begin + size)) as [He He0]; [lia|apply Z.leb_le; lia|].
  assert (b ≤ e) as Hbe by (apply Z.div_le_mono; lia).
  pose proof (spec_log_range_store n tid fuel begin (begin + size) th ws (marks b e) tr) as Hrange.
  cbn zeta in Hrange. rewrite !line_number in Hrange by lia. fold b e in Hrange.
  eapply triple_bind.
  { eapply triple_pre; [|by apply Hrange]. intros w _ Hg. split; [done|]. intros l Hl _. by left. }
  intros th' ev2. cbn beta. apply triple_pure. intros [(Hid' & Hclk' & Hrec') Hwf'].
  cbn [th_node_id thread_clock recent_cl set_recent] in *.
  eapply triple_conseq; [apply (spec_thread_release n tid (accounted n ws (marks b e) th' (tr ++ ev2)));
    [done|apply accounted_persistent|done]|done|].
  intros res ev3 w _ [(Hr & _)|(_ & p & -> & Hpass)]; [by rewrite Hrec' in Hr|]. cbn [fst snd]. split; [done|].
  intros l Hl Hin. rewrite app_assoc in *. assert (EvStore l ∈ tr ++ ev2) as Hin'.
  { apply elem_of_app in Hin as [?|?]; [done|]. by destruct (pass_no_store _ _ _ _ _ _ _ l Hpass). }
  destruct (pass_commits_line n ws _ _ _ _ (tr ++ ev2) _ _ l Hpass) as (q & Hq & Hc).
  { intros w0 [Hg H0]. split; [done|by apply H0]. }
  exists q. split; [|done]. rewrite vc_get_released by congruence. lia.
Qed.

Lemma spec_range_store_and_release n tid fuel begin size th ws :
  let b := begin / VIRTUAL_CL_SIZE in let e := (begin + size) / VIRTUAL_CL_SIZE in
  (n < NODE_COUNT)%nat → th_node_id th = n → length (thread_clock th) = NODE_COUNT → mask_only (dirty_cls th) →
  CXL_NHC_START ≤ begin → 0 ≤ size → begin + size < 2 ^ VIRTUAL_ADDRESS_BITS → (e - b) / 16 ≤ GROUP_LEN_MAX →
  triple n tid (grows ws) (range_store_and_release (S fuel) begin size th)
    (λ res ev w, res.1 = true ∧ ∀ l, marks b e l → EvStore l ∈ ev →
       ∃ p, Z.of_nat p < vc_get (thread_clock res.2) n ∧ committed n ws ev l p w).
Proof.
  intros b e Hn Hid Hclk Hmo Hbeg Hsz Hend Hlen.
  unfold range_store_and_release, rac_post_writeback, in_cxl_nhc_mem.
  rewrite db_protocol, db_writeback, (proj2 (Z.leb_le _ _) Hbeg). cbn [negb orb]. autorewrite with prog.
  eapply triple_bind; [apply spec_store; [done|apply persistent_stable, (grows_persistent ws)]|].
  intros u ev1. cbn beta. apply triple_pure. intros ->.
  eapply triple_pre; [by intros w _ [Hg _]; exact Hg|].
  by apply (spec_log_range_and_release n tid fuel begin size th ws).
Qed.
End range_store.

(** The insertion of one line into a fresh table. *)
Lemma insert_fresh `{cfg : Config} {ok : ConfigOk cfg} {DB : DirectBuild cfg} (cl : Z) (fuel : nat) :
  line_in_range cl →
  ∃ t', insert fuel cl table_init = Some (false, t') ∧ ∀ l, table_covers t' l = true ↔ l = cl.
Proof.
  intros Hcl. unfold insert. rewrite db_buffer. destruct (insert_args cl Hcl) as (Hg & Hm & Hne & Hiff).
  pose proof (insert_mask_spec _ _ table_init Hg Hm Hne (mask_only_wf _ mask_only_init)) as Hspec.
  assert (clear_table table_init = table_init) as Hc.
  { unfold clear_table, table_init. cbn. by rewrite length_replicate. }
  pose proof (insert_mask_clear _ _ table_init Hg Hm Hne (mask_only_wf _ mask_only_init)) as Hf. rewrite Hc in Hf.
  destruct (insert_mask _ _ _) as [full t']. cbn in Hf. subst full. exists t'. split; [done|].
  destruct Hspec as (_ & _ & Hex). destruct (Hex mask_only_init) as [_ Hcov]. intros l. rewrite Hcov, Hiff, table_covers_init.
  naive_solver.
Qed.

(** A program all whose events satisfy [F]. *)
Section issues.
Context `{cfg : Config} {Q : Type} `{FQ : !FifoQueue Q nat LOG_COUNT} (n tid : nat) (F : tevent → Prop).
Definition issues {A} (pr : prog A) : Prop :=
  ∀ (w : world Q) o ev w', exec n tid pr w o ev w' → Forall F ev.

Lemma issues_ret {A} (a : A) : issues (mret a).
Proof. by intros w o ev w' (_ & -> & _). Qed.

Lemma issues_bind {A B} (pr : prog A) (f : A → prog B) : issues pr → (∀ a, issues (f a)) → issues (pr ≫= f).
Proof.
  intros Hp Hf w o ev w' He. apply exec_bind_inv in He as [(a & tr1 & w1 & tr2 & H1 & H2 & ->)|[[_ H]|[_ H]]].
  - apply Forall_app. split; [by eapply Hp|by eapply Hf].
  - by eapply Hp.
  - by eapply Hp.
Qed.

Lemma issues_act {X} (a : act X) :
  (∀ (w : world Q) r ev w', act_step n tid a w = Done r ev w' → Forall F ev) → issues (perform a).
Proof.
  intros Ha w o ev w' (w1 & _ & H). destruct (act_step n tid a w1) as [r ev1 w2| |] eqn:E.
  - destruct H as (tr' & -> & _ & -> & _). rewrite app_nil_r. by eapply Ha.
  - by destruct H as (_ & -> & _).
  - by destruct H as (_ & -> & _).
Qed.
End issues.

Definition invalidates_only (addr : Z) (e : tevent) : Prop :=
  match e with EvFlush (Invalidate a) => a = addr | _ => True end.

Lemma check_invalidates_only `{cfg : Config} addr t :
  Forall (invalidates_only addr) (map EvFlush (invalidate_if_dirty addr t).1.2).
Proof.
  unfold invalidate_if_dirty, do_invalidate, invalidate_fence. destruct (split_va addr) as [[i j] line].
  destruct (t !! i) as [l2|]; [|constructor]. destruct (l2 !! j) as [leaf|]; [|constructor].
  destruct (leaf_is_dirty line leaf); [|constructor]. destruct NO_FLUSH; repeat constructor.
Qed.

(** ** Properties *)

(** C8: a range store and the hook after it, followed by a release. From any
    reachable world and a thread whose table has mask entries only, for a range of
    the non-coherent region of at most [GROUP_LEN_MAX] groups, they never fail,
    and when they return every stored line that [marks] names (the lines of whole
    groups, and the line of the end address if it is not at a group boundary) was
    written back after the store and then published at a position the thread's
    new clock covers. *)
Theorem range_store_publishes_marked `{cfg : Config} (ok : ConfigOk cfg) (EB : EagerBuild cfg) (DB : DirectBuild cfg)
    {Q : Type} `{FQ : !FifoQueue Q nat LOG_COUNT} (w w' : world Q) (n tid fuel : nat) (th : ThreadOps)
    (begin size : Z) (o : outcome (bool * ThreadOps)) (ev : list tevent) :
  let b := begin / VIRTUAL_CL_SIZE in let e := (begin + size) / VIRTUAL_CL_SIZE in
  world_reachable w → (n < NODE_COUNT)%nat → th_node_id th = n → length (thread_clock th) = NODE_COUNT →
  mask_only (dirty_cls th) → CXL_NHC_START ≤ begin → 0 ≤ size → begin + size < 2 ^ VIRTUAL_ADDRESS_BITS →
  (e - b) / GROUP_SIZE ≤ GROUP_LEN_MAX →
  exec n tid (range_store_and_release (S fuel) begin size th) w o ev w' →
  o ≠ Crashed ∧ ∀ res, o = Returned res → res.1 = true ∧
    ∀ l, marks b e l → EvStore l ∈ ev →
      ∃ p, Z.of_nat p < vc_get (thread_clock res.2) n ∧ committed n w ev l p w'.
Proof.
  intros b e H0 Hn Hid Hclk Hmo Hb Hs He Hlen Hex.
  destruct (spec_range_store_and_release n tid fuel begin size th w Hn Hid Hclk Hmo Hb Hs He Hlen w _ _ _
    (reachable_ok w H0) (grows_refl w) Hex) as (_ & Ho & Hr).
  split; [done|]. intros res ->. exact (Hr _ eq_refl).
Qed.

(** [log_range_store] hides a line from [log_store]. It records the line of
    the end address as the recent one without having put it in the table when
    that line starts a group; a [log_store] to the line right after it then
    returns at once, and the store is never logged. *)
Theorem log_range_store_hides_end_line `{cfg : Config} (ok : ConfigOk cfg) (EB : EagerBuild cfg) (DB : DirectBuild cfg)
    {Q : Type} `{FQ : !FifoQueue Q nat LOG_COUNT} (w : world Q) (n tid fuel fuel2 : nat) (th : ThreadOps)
    (begin stop b' e' : Z) (t' : LocalCLTable) :
  let b := shr64 begin VIRTUAL_CL_SHIFT in let e := shr64 stop VIRTUAL_CL_SHIFT in
  INLINE_CACHING = true → mask_only (dirty_cls th) → line_in_range b → line_in_range e → b ≤ e →
  (e - b) / GROUP_SIZE ≤ GROUP_LEN_MAX → e mod GROUP_SIZE = 0 → table_covers (dirty_cls th) e = false →
  range_insert (S fuel) b e (dirty_cls th) = Some (false, b', e', t') →
  ∃ th', run n tid (th ← log_range_store (S fuel) begin stop th; log_store fuel2 stop th) w = (Returned th', [], w) ∧
    table_covers (dirty_cls th') e = false.
Proof.
  intros b e Hic Hmo Hb He Hle Hlen Hem Hnc Heq. exists (set_dirty t' (set_recent e th)). split.
  - unfold log_range_store, insert_range. rewrite eb_table. cbn [negb]. fold b e. cbn [dirty_cls set_recent].
    rewrite Heq. autorewrite with prog. unfold flush_length_entries, log_store. rewrite db_buffer, Hic. cbn [andb].
    autorewrite with prog. cbn [recent_cl set_dirty set_recent]. fold e. by rewrite Z.eqb_refl.
  - destruct (range_insert_spec fuel b e (dirty_cls th) Hmo Hb He Hle Hlen) as (full & b2 & e2 & t2 & Heq2 & _ & _ & Hc).
    rewrite Heq in Heq2. injection Heq2 as <- <- <- <-. cbn [dirty_cls set_dirty]. apply not_true_iff_false. intros Ht.
    destruct (proj1 (Hc e)) as [?|Hm]; [by left|congruence|]. unfold marks in Hm. rewrite GROUP_SIZE_eq in Hem. divlia.
Qed.

(** A store that crosses into the next virtual line is logged for its first
    line only: after it, the second line has been stored to but is not in the
    table. *)
Theorem crossing_store_half_logged `{cfg : Config} (ok : ConfigOk cfg) (EB : EagerBuild cfg) (DB : DirectBuild cfg)
    {Q : Type} `{FQ : !FifoQueue Q nat LOG_COUNT} (w : world Q) (n tid fuel : nat) (addr size : Z) (nd : node Q) :
  let l := addr / VIRTUAL_CL_SIZE in
  w !! n = Some nd → CXL_NHC_START ≤ addr < 2 ^ VIRTUAL_ADDRESS_BITS → 0 < size →
  (l + 1) * VIRTUAL_CL_SIZE < addr + size →
  ∃ th' ev, run n tid (rac_store fuel addr size (thread_new n tid)) w = (Returned th', ev, w) ∧
    EvStore (l + 1) ∈ ev ∧ table_covers (dirty_cls th') l = true ∧ table_covers (dirty_cls th') (l + 1) = false.
Proof.
  intros l Hnd Ha Hs Hx. pose proof virtual_cl_size_range. assert (0 ≤ CXL_NHC_START) as Hpos by done.
  assert (in_cxl_nhc_mem addr = true) as Hin by (apply Z.leb_le; lia).
  destruct (nhc_line_arg addr) as [Hl Hl0]; [lia|done|]. destruct (insert_fresh l fuel Hl) as (t' & Ht' & Hcov).
  exists (set_dirty t' (set_recent l (thread_new n tid))), (map EvStore (lines_of addr size)). split_and!.
  - unfold rac_store, log_store. rewrite db_protocol, eb_eager, Hin, db_writeback, eb_table, line_number by lia. fold l.
    cbn [recent_cl thread_new]. rewrite (proj2 (Z.eqb_neq l 0)) by done. rewrite andb_false_r. cbn [andb negb].
    autorewrite with prog. cbn [dirty_cls set_recent thread_new]. rewrite Ht'. autorewrite with prog.
    unfold flush_length_entries. rewrite db_buffer. cbn [andb]. autorewrite with prog.
    cbn -[lines_of]. unfold act_step. rewrite Hnd. cbn [from_option]. by rewrite app_nil_r.
  - apply list_elem_of_fmap. exists (l + 1). split; [done|]. unfold lines_of. rewrite !line_number by lia. fold l.
    apply elem_of_seqZ. assert (l + 1 ≤ (addr + size - 1) / VIRTUAL_CL_SIZE) by (apply Z.div_le_lower_bound; lia). lia.
  - by apply Hcov.
  - apply not_true_iff_false. intros Ht. apply Hcov in Ht. lia.
Qed.

(** In a lazily invalidating build [invalidate_boundaries] never touches the
    line at the end of the range: every line it invalidates is the line of
    [begin], because the second check is given [begin] again. *)
Theorem invalidate_boundaries_skips_end `{cfg : Config} {Q : Type} `{FQ : !FifoQueue Q nat LOG_COUNT}
    (w w' : world Q) (n tid : nat) (begin stop : Z) (o : outcome unit) (ev : list tevent) :
  PROTOCOL_OFF = false →
  exec n tid (invalidate_boundaries begin stop) w o ev w' → ∀ a, EvFlush (Invalidate a) ∈ ev → a = begin.
Proof.
  intros Hoff He a Ha. assert (issues (Q := Q) n tid (invalidates_only begin) (invalidate_boundaries begin stop)) as Hi.
  { assert (issues (Q := Q) n tid (invalidates_only begin) (invalidate_at begin)) as Hat.
    { unfold invalidate_at. rewrite Hoff. apply issues_bind; [|intros; apply issues_ret]. apply issues_act.
      intros w1 r ev1 w2 Hs. unfold act_step in Hs. apply from_option_done in Hs as (nd & _ & Hs).
      pose proof (check_invalidates_only begin (inv_cls (nd_cache nd))) as Hc.
      destruct (invalidate_if_dirty _ _) as [[b tr] t]. by injection Hs as <- <- <-. }
    unfold invalidate_boundaries. rewrite Hoff. apply issues_bind; [|intros _]; case_match; try apply issues_ret; done. }
  apply Hi in He. rewrite Forall_forall in He. exact (He _ Ha).
Qed.

(** ** Examples *)

Section examples.
Let cfg : Config := small_config.
#[local] Existing Instance cfg.
#[local] Existing Instance small_config_ok.
#[local] Existing Instance small_eager.
#[local] Existing Instance small_direct.
Abbreviation SQ := (@spmc_bounded_queue nat).

Definition ex_range (w : world SQ) := run 0 0 (range_store_and_release 5 CXL_NHC_START 1024 (thread_new 0 0)) w.
Definition ex_range_ok : bool :=
  match rac_init_world (Q := SQ) with
  | Some w0 =>
      match ex_range w0 with
      | (Returned (b, th1), ev1, w1) =>
          b && existsb (λ e, match e with EvStore l => l =? CXL_NHC_START / 64 + 5 | _ => false end) ev1
      | _ => false
      end
  | None => false
  end.
Example ex_range_true : ex_range_ok = true.
Proof. vm_compute. reflexivity. Qed.

Lemma range_store_publishes_marked_witness :
  ∃ w0 w1 ev1 res p, rac_init_world (Q := SQ) = Some w0 ∧ ex_range w0 = (Returned res, ev1, w1) ∧
    committed 0 w0 ev1 (CXL_NHC_START / 64 + 5) p w1.
Proof.
  pose proof ex_range_true as H. unfold ex_range_ok in H. destruct rac_init_world as [w0|] eqn:E0; [|discriminate H].
  destruct (ex_range w0) as [[[[b th1]| |] ev1] w1] eqn:E1; try discriminate H.
  apply andb_prop in H as [Hb H]. apply existsb_exists in H as (e & He%list_elem_of_In & Hl).
  destruct e as [|?|l|]; try discriminate Hl. apply Z.eqb_eq in Hl. subst l.
  destruct (range_store_publishes_marked small_config_ok small_eager small_direct w0 w1 0 0 4 (thread_new 0 0)
    CXL_NHC_START 1024 _ ev1 (ex_reachable w0 E0) ltac:(cbn; lia) eq_refl eq_refl mask_only_init
    ltac:(lia) ltac:(lia) ltac:(vm_compute; reflexivity) ltac:(vm_compute; congruence) (run_exec _ _ _ _ _ _ _ E1)) as [_ Hr].
  destruct (Hr (b, th1) eq_refl) as [_ Hall].
  destruct (Hall (CXL_NHC_START / 64 + 5)) as (p & _ & Hc); [left; split; vm_compute; congruence|exact He|].
  exists w0, w1, ev1, (b, th1), p. split; [reflexivity|]. split; [exact E1|exact Hc].
Defined.

Lemma log_range_store_hides_end_line_witness :
  let stop := CXL_NHC_START + 1024 in
  ∃ th', run 0 0 (th ← log_range_store 5 CXL_NHC_START stop (thread_new 0 0); log_store 5 stop th) ([] : world SQ) =
      (Returned th', [], []) ∧ table_covers (dirty_cls th') (shr64 stop VIRTUAL_CL_SHIFT) = false.
Proof.
  intros stop. destruct (range_insert 5 (shr64 CXL_NHC_START VIRTUAL_CL_SHIFT) (shr64 stop VIRTUAL_CL_SHIFT) table_init)
    as [[[[full b'] e'] t']|] eqn:E; [|vm_compute in E; discriminate E].
  destruct full; [vm_compute in E; discriminate E|].
  apply (log_range_store_hides_end_line small_config_ok small_eager small_direct [] 0 0 4 5 (thread_new 0 0)
    CXL_NHC_START stop b' e' t');
    [reflexivity|apply mask_only_init|split; vm_compute; congruence|split; vm_compute; congruence|vm_compute; congruence
    |vm_compute; congruence|vm_compute; reflexivity|vm_compute; reflexivity|exact E].
Defined.

Lemma crossing_store_half_logged_witness :
  ∃ w0 th' ev, rac_init_world (Q := SQ) = Some w0 ∧
    run 0 0 (rac_store 5 (CXL_NHC_START + 60) 8 (thread_new 0 0)) w0 = (Returned th', ev, w0) ∧
    EvStore (CXL_NHC_START / 64 + 1) ∈ ev ∧ table_covers (dirty_cls th') (CXL_NHC_START / 64 + 1) = false.
Proof.
  destruct (rac_init_world (Q := SQ)) as [w0|] eqn:E0; [|vm_compute in E0; discriminate E0].
  destruct (w0 !! 0%nat) as [nd|] eqn:En; [|exfalso; apply (f_equal (λ o, (nd ← o; nd !! 0%nat) : option (node SQ))) in E0;
    cbn [mbind option_bind] in E0; rewrite En in E0; vm_compute in E0; discriminate E0].
  destruct (crossing_store_half_logged small_config_ok small_eager small_direct w0 0 0 5 (CXL_NHC_START + 60) 8 nd En)
    as (th' & ev & Hrun & Hin & _ & Hc); [split; vm_compute; congruence|lia|vm_compute; reflexivity|].
  exists w0, th', ev. split; [reflexivity|]. split; [exact Hrun|]. split; [exact Hin|exact Hc].
Defined.
End examples.

Section lazy_example.
Let cfg : Config := lazy_config.
#[local] Existing Instance cfg.
#[local] Existing Instance lazy_config_ok.
Abbreviation SQ := (@spmc_bounded_queue nat).

(** A node whose tracker has the lines of both ends of [100, 300) dirty. *)
Definition ex_lazy_world : option (world SQ) :=
  lm ← log_manager_new 0;
  Some [mkNode (mkSys lm [] []) (mkCache vc_init (mark_dirty 300 (mark_dirty 100 ∅))) [] []].

Lemma invalidate_boundaries_skips_end_witness :
  ∃ w w' ev, ex_lazy_world = Some w ∧ run 0 0 (invalidate_boundaries 100 300) w = (Returned tt, ev, w') ∧
    ∀ a, EvFlush (Invalidate a) ∈ ev → a = 100.
Proof.
  destruct ex_lazy_world as [w|] eqn:E0; [|vm_compute in E0; discriminate E0].
  destruct (run 0 0 (invalidate_boundaries 100 300) w) as [[o ev] w'] eqn:E.
  exists w, w', ev. split; [reflexivity|].
  assert (o = Returned tt) as Ho.
  { apply (f_equal (λ x, (run 0 0 (invalidate_boundaries 100 300) <$> x))) in E0. cbn [fmap option_fmap option_map] in E0.
    rewrite E in E0. apply (f_equal (fmap (λ y, y.1.1))) in E0. cbn in E0. vm_compute in E0. congruence. }
  subst o. split; [exact E|].
  apply (invalidate_boundaries_skips_end (cfg := lazy_config) w w' 0 0 100 300 (Returned tt) ev);
    [reflexivity|exact (run_exec _ _ _ _ _ _ _ E)].
Defined.
End lazy_example.
