(* ===== verification/Progress.v ===== *)
(** Progress: when the loops of the protocol end.

    The triples of Release and Acquire hold for any interleaving but say nothing
    of runs that wait for ever. Here a thread runs alone: a release returns when
    the node has a free log, an acquire when what it waits for is published. The
    fuel needed is stated. *)
From S2P Require Import Prelude Config VectorClock ClGroup LocalCLTable FlushUtils SpmcQueue.
From S2P Require Import LogManager CacheInfo Actions Invariant Logic ActionSpecs ThreadOps.
From S2P Require Import Release Acquire Coherence.

Ltac done_inv H :=
  repeat match type of H with
  | from_option _ _ = Done _ _ _ => apply from_option_done in H as (? & ? & H)
  | require _ _ = Done _ _ _ => apply require_done in H as [? H]
  end.

(** ** Definitions *)

Section progress.
Context `{cfg : Config} {ok : ConfigOk cfg} {EB : EagerBuild cfg} {Q : Type} `{FQ : !FifoQueue Q nat LOG_COUNT}.
Implicit Types (w : world Q) (nd : node Q) (n m tid i h p fuel log : nat) (P F : world Q → Prop)
  (th : ThreadOps) (ev : list tevent).

(** Alone, from a world that satisfies [P], the program returns, with [R]. *)
Definition returns n tid {A} P (pr : prog A) (R : A → world Q → Prop) : Prop :=
  ∀ w, world_ok w → P w → ∃ a ev w', run n tid pr w = (Returned a, ev, w') ∧ world_ok w' ∧ R a w'.

(** ** Lemmas: rules *)

Lemma returns_ret n tid {A} P (a : A) R : (∀ w, world_ok w → P w → R a w) → returns n tid P (mret a) R.
Proof. intros H w Hw Hp. exists a, [], w. split; [done|]. split; [done|]. by apply H. Qed.

Lemma returns_pre n tid {A} P P' (pr : prog A) R :
  (∀ w, world_ok w → P w → P' w) → returns n tid P' pr R → returns n tid P pr R.
Proof. intros HP H w Hw Hp. apply H; [done|by apply HP]. Qed.

Lemma returns_post n tid {A} P (pr : prog A) R R' :
  returns n tid P pr R → (∀ a w, world_ok w → R a w → R' a w) → returns n tid P pr R'.
Proof. intros H HR w Hw Hp. destruct (H w Hw Hp) as (a & ev & w' & Hr & Hw' & Ha). exists a, ev, w'. auto. Qed.

Lemma run_bind n tid {A B} (pr : prog A) (f : A → prog B) w a ev w' :
  run n tid pr w = (Returned a, ev, w') →
  run n tid (pr ≫= f) w = let '(o, tr, w'') := run n tid (f a) w' in (o, ev ++ tr, w'').
Proof.
  change (pr ≫= f) with (prog_bind f pr).
  revert w ev. induction pr as [x|X act k IH| |]; intros w ev; cbn [run prog_bind].
  - intros [= -> <- <-]. by destruct (run n tid (f a) w) as [[o tr] w''].
  - destruct (act_step n tid act w) as [r ev1 w1| |]; [|done..].
    destruct (run n tid (k r) w1) as [[o1 tr1] w2] eqn:E. intros [= -> <- <-]. rewrite (IH r w1 tr1 E).
    destruct (run n tid (f a) w2) as [[o tr] w'']. by rewrite app_assoc.
  - done.
  - done.
Qed.

Lemma returns_bind n tid {A B} P (pr : prog A) (f : A → prog B) R1 R :
  returns n tid P pr R1 → (∀ a, returns n tid (R1 a) (f a) R) → returns n tid P (pr ≫= f) R.
Proof.
  intros H1 H2 w Hw Hp. destruct (H1 w Hw Hp) as (a & ev & w1 & Hr1 & Hw1 & Ha).
  destruct (H2 a w1 Hw1 Ha) as (b & ev2 & w2 & Hr2 & Hw2 & Hb).
  exists b, (ev ++ ev2), w2. rewrite (run_bind _ _ _ _ _ _ _ _ Hr1), Hr2. done.
Qed.

Lemma returns_pure n tid {A} (b : Prop) P (pr : prog A) R :
  (b → returns n tid P pr R) → returns n tid (λ w, b ∧ P w) pr R.
Proof. intros H w Hw [Hb Hp]. by apply H. Qed.

Lemma returns_exists n tid {A B} (G : B → world Q → Prop) (pr : prog A) R :
  (∀ b, returns n tid (G b) pr R) → returns n tid (λ w, ∃ b, G b w) pr R.
Proof. intros H w Hw [b Hp]. by apply (H b). Qed.

(** One action: its triple, that it does not meet a limit, and what it keeps. *)
Lemma returns_act n tid {X} P F (a : act X) R (F' : X → world Q → Prop) :
  triple n tid P (perform a) R →
  (∀ w, world_ok w → P w → F w → act_step n tid a w ≠ Limit) →
  (∀ w r ev w', world_ok w → P w → F w → act_step n tid a w = Done r ev w' → F' r w') →
  returns n tid (λ w, P w ∧ F w) (perform a) (λ r w, (∃ ev, R r ev w) ∧ F' r w).
Proof.
  intros Ht Hlim Hkeep w Hw [Hp Hf]. destruct (run n tid (perform a) w) as [[o ev] w'] eqn:E.
  destruct (Ht w o ev w' Hw Hp (run_exec _ _ _ _ _ _ _ E)) as (Hw' & Ho & Hr).
  unfold perform in E. cbn [run] in E. specialize (Hlim w Hw Hp Hf). specialize (Hkeep w).
  destruct (act_step n tid a w) as [r ev1 w1| |]; [|by injection E as <- <- <-|done].
  injection E as <- <- <-. exists r, (ev1 ++ []), w1. split; [done|]. split; [done|].
  split; [by exists (ev1 ++ []); apply Hr|by eapply Hkeep].
Qed.

(** ** Lemmas: what consuming one node's log leaves alone *)

(** From [w] to [w'] nothing changed for [m]'s reading of nodes other than [i]. *)
Definition frame m i w w' : Prop :=
  (∀ j ndj, j ≠ i → j ≠ m → w !! j = Some ndj → w' !! j = Some ndj) ∧
  (∀ nd, w !! m = Some nd → ∃ nd', w' !! m = Some nd' ∧
     ∀ j, j ≠ i → get_clock j (nd_cache nd') = get_clock j (nd_cache nd)).

Lemma frame_refl m i w : frame m i w w.
Proof. split; [done|]. intros nd Hm. by exists nd. Qed.

Lemma frame_trans m i w1 w2 w3 : frame m i w1 w2 → frame m i w2 w3 → frame m i w1 w3.
Proof.
  intros [A1 B1] [A2 B2]. split; [eauto|]. intros nd Hm. destruct (B1 nd Hm) as (nd1 & H1 & C1).
  destruct (B2 nd1 H1) as (nd2 & H2 & C2). exists nd2. split; [done|]. intros j Hj. by rewrite C2, C1.
Qed.

Lemma frame_me m i w nd nd' :
  w !! m = Some nd → (∀ j, j ≠ i → get_clock j (nd_cache nd') = get_clock j (nd_cache nd)) → frame m i w (<[m := nd']> w).
Proof.
  intros Hm Hc. split.
  - intros j ndj _ Hjm Hj. by rewrite list_lookup_insert_ne.
  - intros nd0 Hm0. rewrite Hm in Hm0. injection Hm0 as <-. exists nd'. split; [|done].
    rewrite list_lookup_insert_eq; [done|by eapply lookup_lt_Some].
Qed.

Lemma process_entries_clock es ci tr ci' : process_entries es ci = Some (tr, ci') → ci_clock ci' = ci_clock ci.
Proof.
  revert ci tr ci'. induction es as [|e es IH]; intros ci tr ci'; cbn [process_entries]; [by intros [= _ <-]|].
  destruct (process_entry e ci) as [[[t1 c1] stop]|] eqn:E; [|done]. cbn [mbind option_bind].
  assert (ci_clock c1 = ci_clock ci) as Hc.
  { unfold process_entry in E. repeat case_match; try by injection E as <- <- <-.
    destruct (mask_cl_range _ _); [|done]. by injection E as <- <- <-. }
  destruct stop; [by intros [= _ <-]|]. destruct (process_entries es c1) as [[t2 c2]|] eqn:E2; [|done].
  cbn [mbind option_bind]. intros [= _ <-]. rewrite <- Hc. by eapply IH.
Qed.

(** The actions of a consumer of node [i]. *)
Definition consumes i {X} (a : act X) : Prop :=
  match a with
  | IsSubscribed _ | TryLock | Unlock | GetClock _ | TakeHead _ => True
  | UpdateClock j _ | ProcessLog j _ | ConsumeHead j => j = i
  | _ => False
  end.

Lemma act_frame m tid i {X} (a : act X) w r ev w' :
  i ≠ m → consumes i a → act_step m tid a w = Done r ev w' → frame m i w w'.
Proof.
  intros Hne Hc H. unfold act_step in H. apply from_option_done in H as (nd & Hn & H).
  destruct a as [|log|log entry|log rel|t log rel|x| | |x|x val|x|x log|x|addr|fuel b e|tr|addr size|addr size];
    try done; cbn in Hc; done_inv H.
  - injection H as <- <- <-. apply frame_refl.
  - destruct (locked nd); injection H as <- <- <-; [apply frame_refl|by eapply frame_me].
  - injection H as <- <- <-. by eapply frame_me.
  - injection H as <- <- <-. apply frame_refl.
  - subst x. injection H as <- <- <-. eapply frame_me; [done|]. intros j Hj. unfold get_clock, update_clock, vc_get. cbn.
    by rewrite list_lookup_insert_ne.
  - injection H as <- <- <-. apply frame_refl.
  - subst x. match goal with He : process_log _ _ = Some ?z |- _ => destruct z as [tr ci]; apply process_entries_clock in He as Hci end.
    injection H as <- <- <-. eapply frame_me; [done|]. intros j Hj. unfold get_clock. cbn. by rewrite Hci.
  - subst x. injection H as <- <- <-. split.
    + intros j ndj Hji Hjm Hj. by rewrite list_lookup_insert_ne.
    + intros nd0 Hm0. exists nd0. by rewrite list_lookup_insert_ne.
Qed.

Lemma consumes_no_limit m tid i {X} (a : act X) w : consumes i a → act_step m tid a w ≠ Limit.
Proof.
  intros Hc. unfold act_step. destruct (w !! m) as [nd|]; [|done]. cbn [from_option].
  destruct a; try done; cbn in Hc; unfold require, from_option; repeat case_match; done.
Qed.

(** A consumer's action, with the frame of the log it consumes. *)
Lemma returns_consumer m tid i w0 {X} P (a : act X) R :
  i ≠ m → consumes i a → triple m tid P (perform a) R →
  returns m tid (λ w, P w ∧ frame m i w0 w) (perform a) (λ r w, (∃ ev, R r ev w) ∧ frame m i w0 w).
Proof.
  intros Hne Hc Ht. apply returns_act; [done| |].
  - intros. by apply (consumes_no_limit m tid i).
  - intros w r ev w' _ _ Hf Hs. eapply frame_trans; [exact Hf|by eapply act_frame].
Qed.

(** ** Lemmas: consuming what is published *)

Lemma returns_step m tid {X} P (a : act X) R :
  (∀ w, world_ok w → P w → ∃ r ev w', act_step m tid a w = Done r ev w' ∧ (grows w w' → R r w')) →
  returns m tid P (perform a) R.
Proof.
  intros H w Hw Hp. destruct (H w Hw Hp) as (r & ev & w' & Hs & HR). exists r, (ev ++ []), w'.
  unfold perform. cbn [run]. rewrite Hs. split; [done|].
  destruct (act_sound m tid a w r ev w' Hw Hs) as [Hw' _]. split; [done|]. apply HR. by eapply act_grows.
Qed.

(** What clock [T] of node [i] counts is published, the last of it by a release. *)
Definition feed i (T : Z) w : Prop :=
  (∀ p, Z.of_nat p < T → ∃ d r, published_at i p d r w) ∧
  (∀ p, Z.of_nat p + 1 = T → ∃ d, published_at i p d true w).

Lemma feed_persistent i T : persistent (feed i T).
Proof.
  apply persistent_and; apply persistent_forall; intros p; apply persistent_impl.
  - do 2 (apply persistent_exists; intros ?). apply published_persistent.
  - apply persistent_exists. intros d. apply published_persistent.
Qed.

(** The thread holds the mutex, is at head [h] and knows that [T] is fed. *)
Definition reading m tid i (T : Z) w0 h w : Prop :=
  (feed i T w ∧ my_head m tid i h w) ∧ frame m i w0 w.

Lemma published_entry m tid i h d r w :
  i ≠ m → published_at i h d r w → my_head m tid i h w → ∃ e, my_entry m tid i h e w ∧ pe_is_rel e = r.
Proof.
  intros Hne (ndx & rc & Hx & Hr & Hd & Hrel) Hm. exists (mkPub (pr_log rc) (Z.of_nat h + 1) (pr_rel rc)).
  split; [|done]. split; [done|]. by exists ndx, rc, d.
Qed.

Lemma returns_take_head m tid i T w0 h :
  i ≠ m → Z.of_nat h < T →
  returns m tid (reading m tid i T w0 h) (perform (TakeHead i))
    (λ r w, ∃ e, r = Some e ∧ (Z.of_nat h + 1 = T → pe_is_rel e = true) ∧
       (feed i T w ∧ my_entry m tid i h e w) ∧ frame m i w0 w).
Proof.
  intros Hne Hlt. apply returns_step. intros w Hw [[Hfeed Hm] Hf].
  assert (∃ e, my_entry m tid i h e w ∧ (Z.of_nat h + 1 = T → pe_is_rel e = true)) as (e & He & Hrel).
  { destruct (Z.eq_dec (Z.of_nat h + 1) T) as [Heq|Hneq].
    - destruct (proj2 Hfeed h Heq) as [d Hd]. destruct (published_entry m tid i h d true w Hne Hd Hm) as (e & ? & ?). by exists e.
    - destruct (proj1 Hfeed h Hlt) as (d & r & Hd). destruct (published_entry m tid i h d r w Hne Hd Hm) as (e & ? & ?). by exists e. }
  pose proof Hm as (nd & ndi & Em & Ht & Ei & Hh).
  destruct (my_entry_take m tid i h e w nd ndi Hw Hne Em Ei He) as [Htk _].
  exists (Some e), [], w. split; [|intros _; by exists e].
  act_open Em. rewrite Ei. cbn [from_option]. rewrite bool_owns by done. cbn [require]. by rewrite Htk.
Qed.

Lemma returns_spin m tid i T w0 h fuel :
  i ≠ m → Z.of_nat h < T →
  returns m tid (reading m tid i T w0 h) (spin_take_head (S fuel) i)
    (λ e w, (Z.of_nat h + 1 = T → pe_is_rel e = true) ∧ (feed i T w ∧ my_entry m tid i h e w) ∧ frame m i w0 w).
Proof.
  intros Hne Hlt. cbn [spin_take_head]. eapply returns_bind; [by apply returns_take_head|].
  intros r. apply returns_exists. intros e. apply returns_pure. intros ->. by apply returns_ret.
Qed.

Lemma returns_consume_until m tid i T w0 fuel h (clk : Z) :
  i ≠ m → clk ≤ Z.of_nat h → (T ≤ Z.of_nat h → T ≤ clk) → T - Z.of_nat h ≤ Z.of_nat fuel →
  returns m tid (reading m tid i T w0 h) (consume_until fuel i T clk)
    (λ clk' w, ∃ h', (T ≤ clk' ∧ clk' ≤ Z.of_nat h') ∧ reading m tid i T w0 h' w).
Proof.
  intros Hne. revert h clk. induction fuel as [|fuel IH]; intros h clk Hclk Hend Hfuel; cbn [consume_until];
    (destruct (Z.ltb_spec clk T) as [Hlt|]; [|apply returns_ret; intros w _ H1; by exists h]); [lia|].
  eapply returns_bind; [apply returns_spin; [done|lia]|]. intros e. cbn beta.
  set (clk1 := if pe_is_rel e then pe_idx e else clk).
  apply returns_pre with (λ w, (clk1 ≤ Z.of_nat (S h) ∧ (T ≤ Z.of_nat (S h) → T ≤ clk1)) ∧
    (feed i T w ∧ my_entry m tid i h e w) ∧ frame m i w0 w).
  { intros w _ (Hrel & [Hf He] & Hfr). split; [|done]. apply my_entry_idx in He. unfold clk1.
    destruct (pe_is_rel e); [lia|]. split; [lia|]. intros HT. assert (Z.of_nat h + 1 = T) as HT2 by lia.
    specialize (Hrel HT2). done. }
  apply returns_pure. intros [Hclk1 Hend1].
  eapply returns_bind; [apply (returns_consumer m tid i w0); [done|done|by apply spec_process_log, feed_persistent]|].
  intros u. cbn beta. apply returns_pre with (λ w, (feed i T w ∧ my_entry m tid i h e w ∧ processed_at m i h w) ∧ frame m i w0 w).
  { intros w _ [(ev & _ & H) Hfr]. done. }
  eapply returns_bind; [apply (returns_consumer m tid i w0); [done|done|by apply spec_consume_head, feed_persistent]|].
  intros u2. eapply returns_pre; [|apply (IH (S h) clk1 Hclk1 Hend1); lia].
  intros w _ [(ev & _ & H) Hfr]. done.
Qed.

(** ** Lemmas: an acquire alone *)

(** The mutex of node [m] is free. *)
Definition free m w : Prop := ∃ nd, w !! m = Some nd ∧ locked nd = false.

(** The head of [m] in the log of [i] is below [T]. *)
Definition behind m i (T : Z) w : Prop :=
  ∃ ndi h, w !! i = Some ndi ∧ head_of (nd_lm ndi) m = Z.of_nat h ∧ Z.of_nat h < T.

(** Node [m] has counted [T], or is still before it: the clock is not behind
    the head by the position that [T] waits for. *)
Definition pending m i (T : Z) w : Prop :=
  ∀ nd, w !! m = Some nd → get_clock i (nd_cache nd) < T → behind m i T w.

Lemma pending_frame m i j T w w' : j ≠ i → j ≠ m → frame m i w w' → (∃ nd, w !! m = Some nd) →
  pending m j T w → pending m j T w'.
Proof.
  intros Hji Hjm [A B] [nd Hm] Hp nd' Hm' Hlt. destruct (B nd Hm) as (nd2 & Hm2 & Hc). rewrite Hm' in Hm2.
  injection Hm2 as <-. rewrite Hc in Hlt by done. destruct (Hp nd Hm Hlt) as (ndj & h & Hj & Hh).
  exists ndj, h. split; [by apply A|done].
Qed.

Lemma drop_consumer_unlocked m nd tid :
  node_ok m nd → (tid, Consumer) ∈ nd_tok nd → locked (drop_tok tid Consumer nd) = false.
Proof.
  intros Hok Ht. destruct (locked (drop_tok tid Consumer nd)) eqn:E; [|done].
  apply existsb_exists in E as ([tid' t] & Hin%list_elem_of_In & Ht'%bool_decide_eq_true). cbn in Ht'. subst t.
  apply elem_of_drop_tok in Hin as [Hin Hne]. destruct Hne.
  assert (tid' = tid) as ->; [|done]. by eapply owner_unique.
Qed.

Lemma returns_unlock m tid i w0 P :
  i ≠ m → persistent P →
  returns m tid (λ w, (P w ∧ has_token m tid Consumer w) ∧ frame m i w0 w) (perform Unlock)
    (λ _ w, P w ∧ free m w ∧ frame m i w0 w).
Proof.
  intros Hne HP. apply returns_step. intros w Hw [[Hp (nd & Em & Ht)] Hf].
  eexists _, _, _. act_open Em. rewrite bool_owns by done. cbn [require]. split; [done|]. intros Hg. split; [by eapply HP|].
  split.
  - eexists. rewrite (lookup_upd _ _ _ _ _ Em), decide_True by done. split; [done|].
    apply (drop_consumer_unlocked m); [by apply (wo_node _ Hw)|done].
  - eapply frame_trans; [exact Hf|]. by eapply frame_me.
Qed.

Lemma returns_locked_consume m tid i w0 fuel (goal : vclock) h :
  let T := vc_get goal i in
  i ≠ m → Z.of_nat h < T → T ≤ Z.of_nat fuel →
  returns m tid (reading m tid i T w0 h) (locked_consume fuel goal i)
    (λ _ w, feed i T w ∧ free m w ∧ frame m i w0 w).
Proof.
  intros T Hne Hlt Hfuel. unfold locked_consume. fold T.
  eapply returns_bind; [apply (returns_consumer m tid i w0); [done|done|apply spec_get_clock_locked; [done|apply (feed_persistent i T)]]|].
  intros c. cbn beta. apply returns_pre with (λ w, c ≤ Z.of_nat h ∧ reading m tid i T w0 h w).
  { intros w _ [(ev & _ & [H1 H2] & Hc) Hf]. done. }
  apply returns_pure. intros Hc. eapply returns_bind; [apply returns_consume_until; [done|done|lia|lia]|].
  intros clk. cbn beta. apply returns_exists. intros h'. apply returns_pure. intros [HT Hle].
  eapply returns_bind; [apply (returns_consumer m tid i w0); [done|done|by apply (spec_update_clock m tid (feed i T)), Hle; [done|apply feed_persistent]]|].
  intros u. cbn beta. eapply returns_pre; [|apply returns_unlock; [done|apply (feed_persistent i T)]].
  intros w _ [(ev & _ & H) Hf]. done.
Qed.

(** The visit of node [i] by [help_consume]. *)
Lemma returns_help_node m tid i w0 fuel (goal : vclock) st :
  let T := vc_get goal i in
  (m < NODE_COUNT)%nat → (i < NODE_COUNT)%nat → T ≤ Z.of_nat fuel →
  returns m tid (λ w, free m w ∧ frame m i w0 w ∧ (i ≠ m → feed i T w ∧ pending m i T w)) (help_node fuel goal m i st)
    (λ st' w, st'.2 = st.2 ∧ free m w ∧ frame m i w0 w).
Proof.
  intros T Hm Hi Hfuel. destruct st as [node_done fin]. unfold help_node. fold T.
  destruct (default false (node_done !! i) || (i =? m)%nat) eqn:Eskip.
  { apply returns_ret. by intros w _ (? & ? & _). }
  apply orb_false_elim in Eskip as [_ Hne%Nat.eqb_neq].
  apply returns_bind with (R1 := λ c w, free m w ∧ frame m i w0 w ∧ feed i T w ∧ (c < T → behind m i T w)).
  { apply returns_step. intros w Hw ((nd & Em & Hl) & Hf & Hp). destruct (Hp Hne) as [Hfeed Hpend].
    eexists _, _, _. act_open Em. split; [done|]. intros _. split; [by exists nd|]. split; [done|]. split; [done|].
    intros Hlt. by apply (Hpend nd). }
  intros c. destruct (Z.leb_spec T c) as [|Hlt]; [apply returns_ret; by intros w _ (? & ? & _)|].
  apply returns_bind with (R1 := λ sub w, sub = true ∧ free m w ∧ frame m i w0 w ∧ feed i T w ∧ behind m i T w).
  { apply returns_step. intros w Hw ((nd & Em & Hl) & Hf & Hfeed & Hb). destruct (node_exists w i Hw Hi) as [ndi Ei].
    eexists _, _, _. act_open Em. rewrite Ei. cbn [from_option]. split; [done|]. intros _.
    split; [by apply (no_subs _ _ (wo_node _ Hw i ndi Ei))|]. split; [by exists nd|]. auto. }
  intros sub. apply returns_pure. intros ->. cbn [negb].
  apply returns_bind with (R1 := λ b w, b = true ∧ ∃ h, Z.of_nat h < T ∧ reading m tid i T w0 h w).
  { apply returns_step. intros w Hw ((nd & Em & Hl) & Hf & Hfeed & (ndi & h & Ei & Hh & Hlt')).
    eexists _, _, _. act_open Em. rewrite Hl. split; [done|]. intros Hg. split; [done|]. exists h. split; [done|].
    split; [split; [by eapply feed_persistent|]|].
    - eexists _, ndi. rewrite (lookup_upd _ _ _ _ _ Em), decide_True by done.
      split; [done|]. split; [by left|]. rewrite (lookup_upd _ _ _ _ _ Em), decide_False by done. done.
    - eapply frame_trans; [exact Hf|]. by eapply frame_me. }
  intros b. apply returns_pure. intros ->. cbn [negb]. apply returns_exists. intros h. apply returns_pure. intros Hh.
  eapply returns_bind; [by apply returns_locked_consume|]. intros u. apply returns_ret. by intros w _ (_ & ? & ?).
Qed.

(** What the loop over the nodes needs: the mutex free, and each node's log fed. *)
Definition all_fed m (goal : vclock) (ids : list nat) w : Prop :=
  free m w ∧ ∀ i, i ∈ ids → i ≠ m → feed i (vc_get goal i) w ∧ pending m i (vc_get goal i) w.

Lemma run_grows m tid {A} (pr : prog A) w o ev w' : world_ok w → run m tid pr w = (o, ev, w') → grows w w'.
Proof. intros Hw Hr. apply (any_steps_ok w w' Hw). eapply exec_any. by apply run_exec. Qed.

Lemma returns_help_nodes m tid fuel (goal : vclock) ids st :
  (m < NODE_COUNT)%nat → NoDup ids → Forall (λ i, (i < NODE_COUNT)%nat ∧ vc_get goal i ≤ Z.of_nat fuel) ids →
  returns m tid (all_fed m goal ids) (help_nodes fuel goal m ids st) (λ st' _, st'.2 = st.2).
Proof.
  intros Hm Hnd Hids. revert st. induction Hids as [|i ids [Hi Hfuel] _ IH]; intros st; cbn [help_nodes].
  { by apply returns_ret. }
  apply NoDup_cons in Hnd as [Hni Hnd].
  apply returns_bind with (R1 := λ st1 w, st1.2 = st.2 ∧ all_fed m goal ids w).
  - intros w Hw [Hfree Hall]. destruct (returns_help_node m tid i w fuel goal st Hm Hi Hfuel w Hw) as (st1 & ev & w1 & Hr & Hw1 & Hst & Hfree1 & Hf).
    { split; [done|]. split; [apply frame_refl|]. intros Hne. apply Hall; [by left|done]. }
    exists st1, ev, w1. split; [done|]. split; [done|]. split; [done|]. split; [done|]. intros j Hj Hjm.
    destruct (Hall j ltac:(by right) Hjm) as [Hfeed Hp]. split.
    + eapply feed_persistent; [|exact Hfeed]. by eapply run_grows.
    + eapply pending_frame; [|done|exact Hf| |exact Hp]; [by intros ->|by apply node_exists].
  - intros st1. apply returns_pure. intros Hst. eapply returns_post; [by apply IH|]. intros st2 w _ H. congruence.
Qed.

Lemma returns_thread_acquire m tid fuel (goal : vclock) th :
  (m < NODE_COUNT)%nat → th_node_id th = m → CONSUME_HELPING = true →
  (∀ i, vc_get goal i ≤ Z.of_nat fuel) →
  returns m tid (all_fed m goal (seq 0 NODE_COUNT)) (thread_acquire (S fuel) goal th) (λ th' _, th' = acquired goal th).
Proof.
  intros Hm Hid Hh Hfuel. unfold thread_acquire. rewrite Hh. eapply returns_bind with (R1 := λ _ _, True);
    [|intros u; by apply returns_ret].
  unfold help_consume. rewrite Hid. cbn [help_loop].
  eapply returns_bind; [eapply returns_pre; [|apply (returns_help_nodes m tid (S fuel) goal (rev (seq 0 NODE_COUNT)) (_, true) Hm)]|].
  - intros w _ [Hf Hall]. split; [done|]. intros i Hi. apply Hall. apply list_elem_of_In, in_rev. by apply list_elem_of_In.
  - apply NoDup_ListNoDup, NoDup_rev, NoDup_ListNoDup, NoDup_seq.
  - apply Forall_forall. intros i Hi%list_elem_of_In%in_rev%in_seq. specialize (Hfuel i). lia.
  - intros [nd' fin]. cbn [snd]. apply returns_pre with (λ _, fin = true ∧ True); [by intros w _ ->|].
    apply returns_pure. intros ->. by apply returns_ret.
Qed.
End progress.

(** ** Lemmas: a release alone *)

Section release_progress.
Context `{cfg : Config} {ok : ConfigOk cfg} {EB : EagerBuild cfg} {DB : DirectBuild cfg}
  {Q : Type} `{FQ : !FifoQueue Q nat LOG_COUNT}.
Implicit Types (w : world Q) (n tid log fuel : nat) (th : ThreadOps) (e : Z).

(** The positions of the node's log are far from the wrap-around. *)
Definition room n w : Prop :=
  ∃ nd, w !! n = Some nd ∧ Z.of_nat (length (hist (nd_sys nd))) + 1 + 2 * Z.of_nat LOG_COUNT < 2 ^ 32.

(** [get_new_log] finds a log. *)
Definition log_available n w : Prop :=
  ∃ nd log lm, w !! n = Some nd ∧ get_new_log (nd_lm nd) = Some (Some log, lm).

Lemma room_upd n w nd nd' :
  w !! n = Some nd → hist (nd_sys nd') = hist (nd_sys nd) → room n w → room n (<[n := nd']> w).
Proof.
  intros Hn Hh (nd0 & Hn0 & Hlt). rewrite Hn in Hn0. injection Hn0 as <-. exists nd'.
  rewrite (lookup_upd _ _ _ _ _ Hn), decide_True, Hh by done. done.
Qed.

Lemma returns_new_log n tid fuel :
  (n < NODE_COUNT)%nat →
  returns n tid (λ w, True ∧ room n w ∧ log_available n w) (set_to_new_log (S fuel))
    (λ log w, (True ∧ my_log n tid log [] w) ∧ room n w).
Proof.
  intros Hn. cbn [set_to_new_log]. eapply returns_bind.
  - eapply (returns_act n tid (λ _, True) (λ w, room n w ∧ log_available n w) GetNewLog _ (λ r w, is_Some r ∧ room n w)).
    + by apply spec_get_new_log; [done|intros ????].
    + intros w _ _ (_ & nd & log & lm & Hnd & Hg). act_open Hnd. rewrite Hg. done.
    + intros w r ev w' _ _ (Hroom & nd & log & lm & Hnd & Hg). act_open Hnd. rewrite Hg. cbn [from_option].
      intros [= <- <- <-]. split; [by exists log|]. by eapply room_upd.
  - intros r. apply returns_pre with (λ w, is_Some r ∧ (match r with Some log => my_log n tid log [] w | None => True end) ∧ room n w).
    { intros w _ [(ev & _ & _ & Hl) [Hr Hroom]]. done. }
    apply returns_pure. intros [log ->]. apply returns_ret. by intros w _ [? ?].
Qed.

Lemma returns_log_write n tid log es e :
  log_entry_ok e = true → (length es < LOG_SIZE)%nat →
  returns n tid (λ w, (True ∧ my_log n tid log es w) ∧ room n w) (perform (LogWrite log e))
    (λ _ w, (True ∧ my_log n tid log (es ++ [e]) w) ∧ room n w).
Proof.
  intros He Hlen. eapply returns_post.
  - eapply (returns_act n tid (λ w, True ∧ my_log n tid log es w) (room n) (LogWrite log e) _ (λ _, room n)).
    + by apply (spec_log_write n tid (λ _, True)); [intros ????| |].
    + intros w _ (_ & nd & Hnd & _) _. act_open Hnd. unfold require, from_option. repeat case_match; done.
    + intros w r ev w' _ (_ & nd & Hnd & _) Hroom. act_open Hnd. intros Hs. done_inv Hs.
      injection Hs as <- <- <-. by eapply room_upd.
  - intros u w _ [(ev & _ & H) Hroom]. done.
Qed.

Lemma returns_flush n tid P tr : (n < NODE_COUNT)%nat → returns n tid P (perform (FlushLines tr)) (λ _ w, P w).
Proof.
  intros Hn. apply returns_step. intros w Hw Hp. destruct (node_exists w n Hw Hn) as [nd Hnd].
  eexists _, _, _. by act_open Hnd.
Qed.

Lemma returns_write_entries n tid fuel r es log done_es :
  (n < NODE_COUNT)%nat → Forall entry_wf es → (length done_es + length es ≤ LOG_SIZE)%nat →
  returns n tid (λ w, (True ∧ my_log n tid log done_es w) ∧ room n w) (write_entries fuel r es (0, log))
    (λ st w, st = (0, log) ∧ (True ∧ my_log n tid log (done_es ++ nonzero es) w) ∧ room n w).
Proof.
  intros Hn Hes. revert done_es. induction Hes as [|e es He _ IH]; intros done_es Hlen; cbn [write_entries].
  { apply returns_ret. intros w _ H. unfold nonzero. rewrite filter_nil, app_nil_r. done. }
  cbn [length] in Hlen. unfold write_entry, nonzero. rewrite filter_cons. destruct (Z.eqb_spec e 0) as [->|Hne].
  { rewrite decide_False by congruence. autorewrite with prog. apply IH. lia. }
  rewrite decide_True by done. rewrite db_delay, db_writeback. autorewrite with prog.
  assert (log_entry_wf e) as Hwf by (destruct He as [?|[?|?]]; [done|by left|by right]).
  destruct (entry_writebacks_spec eb_flush e Hwf) as (fl & -> & _). autorewrite with prog.
  eapply returns_bind with (R1 := λ st w, st = (0, log) ∧ (True ∧ my_log n tid log (done_es ++ [e]) w) ∧ room n w).
  - eapply returns_bind; [apply returns_log_write; [by apply log_entry_wf_ok|lia]|]. intros u. cbn beta.
    eapply returns_bind; [by apply returns_flush|]. intros u2. by apply returns_ret.
  - intros st. apply returns_pure. intros ->. eapply returns_post; [apply IH; rewrite length_app; cbn; lia|].
    intros st w _ H. rewrite <- app_assoc in H. done.
Qed.

Lemma returns_prod_tail n tid log es r :
  returns n tid (λ w, (True ∧ my_log n tid log es w) ∧ room n w) (prod_tail log r) (λ _ _, True).
Proof.
  unfold prod_tail. eapply returns_bind.
  - eapply (returns_act n tid (λ w, True ∧ my_log n tid log es w) (room n) (ReserveTail log r) _ (λ _ _, True)).
    + apply (spec_reserve n tid (λ _, True)). by intros ????.
    + intros w _ (_ & nd & Hnd & _) (nd' & Hnd' & Hlt). rewrite Hnd in Hnd'. injection Hnd' as <-. act_open Hnd.
      unfold require. case_match; [|done]. unfold reserve_tail. by rewrite (proj2 (Z.ltb_lt _ _)) by lia.
    + done.
  - intros t. apply returns_pre with (λ w, ∃ p, t = Z.of_nat p ∧ my_position n tid p log r es w).
    { intros w _ [(ev & p & w0 & (_ & -> & _) & _ & H) _]. by exists p. }
    apply returns_exists. intros p. apply returns_pure. intros ->.
    apply returns_pre with (λ w, (True ∧ my_position n tid p log r es w) ∧ True); [done|].
    eapply returns_post.
    + eapply (returns_act n tid (λ w, True ∧ my_position n tid p log r es w) (λ _, True) _ _ (λ _ _, True));
        [by apply (spec_publish n tid (λ _, True)); intros ????| |done].
      intros w _ _ _. unfold act_step, require, from_option. repeat case_match; done.
    + done.
Qed.

Lemma returns_thread_release n tid fuel th :
  (n < NODE_COUNT)%nat → table_wf (dirty_cls th) →
  returns n tid (λ w, True ∧ room n w ∧ log_available n w) (thread_release (S fuel) th) (λ _ _, True).
Proof.
  intros Hn [Hlen Hwf]. unfold thread_release. destruct (recent_cl th =? 0); [by apply returns_ret|].
  rewrite db_writeback, db_buffer, eb_table. autorewrite with prog. unfold write_to_log. rewrite db_delay.
  cbn [dirty_cls set_recent curr_log th_node_id]. eapply returns_bind with (R1 := λ _ _, True).
  - eapply returns_bind; [by apply returns_new_log|]. intros log. cbn beta.
    eapply returns_bind; [apply returns_write_entries; [done|done|cbn; unfold table_entries; rewrite Hlen; apply log_holds_table]|].
    intros st. cbn beta. apply returns_pure. intros ->. rewrite app_nil_l.
    eapply returns_bind with (R1 := λ _ _, True).
    + eapply returns_bind; [apply returns_prod_tail|]. intros clk. by apply returns_ret.
    + intros [clk member]. by apply returns_ret.
  - intros [clk th']. by apply returns_ret.
Qed.
End release_progress.

(** ** Properties *)

(** C7: a release returns. Run alone from any reachable world in which the
    positions are not about to wrap around and [get_new_log] finds a log, it ends
    after one attempt to get a log, with any positive fuel. *)
Theorem release_returns `{cfg : Config} (ok : ConfigOk cfg) (EB : EagerBuild cfg) (DB : DirectBuild cfg)
    {Q : Type} `{FQ : !FifoQueue Q nat LOG_COUNT} (w : world Q) (n tid fuel : nat) (th : ThreadOps) :
  world_reachable w → (n < NODE_COUNT)%nat → table_wf (dirty_cls th) → room n w → log_available n w →
  ∃ res ev w', run n tid (thread_release (S fuel) th) w = (Returned res, ev, w').
Proof.
  intros Hw Hn Hwf Hr Ha. destruct (returns_thread_release n tid fuel th Hn Hwf w (reachable_ok w Hw))
    as (res & ev & w' & H & _); [done|]. by exists res, ev, w'.
Qed.

(** C6: an acquire returns. Run alone from any reachable world in which the
    node's mutex is free and, for every other node, all positions the target
    clock counts are published, the last of them by a release, and the node has
    either counted that release or not yet read it, the acquire with helping
    returns, with fuel above the largest component of the target. *)
Theorem acquire_returns `{cfg : Config} (ok : ConfigOk cfg) (EB : EagerBuild cfg)
    {Q : Type} `{FQ : !FifoQueue Q nat LOG_COUNT} (w : world Q) (m tid fuel : nat) (th : ThreadOps) (goal : vclock) :
  world_reachable w → (m < NODE_COUNT)%nat → th_node_id th = m → CONSUME_HELPING = true →
  (∀ i, vc_get goal i ≤ Z.of_nat fuel) → free m w →
  (∀ i, (i < NODE_COUNT)%nat → i ≠ m → feed i (vc_get goal i) w ∧ pending m i (vc_get goal i) w) →
  ∃ ev w', run m tid (thread_acquire (S fuel) goal th) w = (Returned (set_clock (merge goal (thread_clock th)) th), ev, w').
Proof.
  intros Hw Hm Hid Hh Hfuel Hf Hall.
  destruct (returns_thread_acquire m tid fuel goal th Hm Hid Hh Hfuel w (reachable_ok w Hw)) as (th' & ev & w' & H & _ & ->).
  { split; [done|]. intros i Hi. apply Hall. apply list_elem_of_In, in_seq in Hi. lia. }
  by exists ev, w'.
Qed.

(** ** Examples *)

Section examples.
Let cfg : Config := small_config.
#[local] Existing Instance cfg.
#[local] Existing Instance small_config_ok.
#[local] Existing Instance small_eager.
#[local] Existing Instance small_direct.
Abbreviation SQ := (@spmc_bounded_queue nat).

Lemma release_returns_witness :
  ∃ w0 res ev w', rac_init_world (Q := SQ) = Some w0 ∧
    run 0 0 (thread_release 1 (set_recent 5 (thread_new 0 0))) w0 = (Returned res, ev, w').
Proof.
  destruct (rac_init_world (Q := SQ)) as [w0|] eqn:E0; [|vm_compute in E0; discriminate E0].
  destruct (release_returns small_config_ok small_eager small_direct w0 0 0 0 (set_recent 5 (thread_new 0 0)))
    as (res & ev & w' & H).
  - apply ex_reachable, E0.
  - cbn. lia.
  - apply mask_only_wf, mask_only_init.
  - vm_compute in E0. injection E0 as <-. eexists. split; [reflexivity|vm_compute; reflexivity].
  - vm_compute in E0. injection E0 as <-. eexists _, _, _. split; [reflexivity|vm_compute; reflexivity].
  - exists w0, res, ev, w'. split; [reflexivity|exact H].
Defined.

Lemma acquire_returns_witness :
  ∃ w0 w1 ev w2, rac_init_world (Q := SQ) = Some w0 ∧ (ex_release w0).2 = w1 ∧
    run 1 1 (thread_acquire 2 [1; 0] (thread_new 1 1)) w1 = (Returned (set_clock [1; 0] (thread_new 1 1)), ev, w2).
Proof.
  destruct (rac_init_world (Q := SQ)) as [w0|] eqn:E0; [|vm_compute in E0; discriminate E0].
  destruct (ex_release w0) as [[o ev1] w1] eqn:E1.
  destruct (acquire_returns small_config_ok small_eager w1 1 1 1 (thread_new 1 1) [1; 0]) as (ev & w2 & H).
  - exists w0. split; [exact E0|]. exact (exec_any _ _ _ _ _ _ _ (run_exec _ _ _ _ _ _ _ E1)).
  - cbn. lia.
  - reflexivity.
  - reflexivity.
  - intros [|[|i]]; vm_compute; congruence.
  - vm_compute in E0. injection E0 as <-. vm_compute in E1. injection E1 as <- <- <-.
    eexists. split; [reflexivity|vm_compute; reflexivity].
  - intros i Hi Hne. assert (i = 0%nat) as -> by (cbn in Hi; lia).
    vm_compute in E0. injection E0 as <-. vm_compute in E1. injection E1 as <- <- <-. split; [split|].
    + intros p Hp. assert (p = 0%nat) as -> by (change (vc_get [1; 0] 0) with 1 in Hp; lia). eexists _, _, _, _.
      split; [reflexivity|]. split; [reflexivity|]. split; reflexivity.
    + intros p Hp. assert (p = 0%nat) as -> by (change (vc_get [1; 0] 0) with 1 in Hp; lia). eexists _, _, _.
      split; [reflexivity|]. split; [reflexivity|]. split; reflexivity.
    + intros nd _ _. eexists _, 0%nat. split; [reflexivity|]. split; [reflexivity|vm_compute; reflexivity].
  - exists w0, w1, ev, w2. split; [reflexivity|]. split; [rewrite E1; reflexivity|exact H].
Defined.
End examples.
