(* ===== verification/CxlSync.v ===== *)
(** CxlSync: [include/cxlSync.hpp], the synchronisation objects a program uses:
    atomics, mutexes and the barrier.

    An object lives in hardware-coherent memory with a vector clock and a lock of
    its own. The operations are programs of the machine of Actions; what they do
    inside the critical section of the object's lock is atomic, so the object's
    state there is an argument and its new state part of the result. The locks
    are MCSLock. [CONSUME_HELP_IN_LOCK] is 0 (MCSLock has no [lock_with_help]). *)
From S2P Require Import Prelude Config VectorClock ClGroup LocalCLTable.
From S2P Require Import FlushUtils SpmcQueue LogManager CacheInfo Actions.
From S2P Require Import Invariant Logic ActionSpecs ThreadOps Runtime Release.
From S2P Require Import Acquire Coherence.
#[local] Open Scope word_scope.

(** ** Definitions *)

Inductive memory_order :=
  memory_order_relaxed | memory_order_consume | memory_order_acquire |
  memory_order_release | memory_order_acq_rel | memory_order_seq_cst.
#[export] Instance memory_order_eq_dec : EqDecision memory_order.
Proof. solve_decision. Defined.

(** The conversion of a value to [char] and back to the type of the atomic. *)
Definition to_char (v : Z) : Z := let w := wrap 8 v in if w <? 2 ^ 7 then w else w - 2 ^ 8.

(** [CXLAtomic<T>::InnerData] without its lock; values of [T] are integers. *)
Record location := mkLoc { atomic_data : Z; loc_clock : vclock }.

Section cxl_sync.
Context `{cfg : Config}.
Implicit Types (th : ThreadOps) (fuel : nat) (order : memory_order) (l : location) (c : vclock).

(** [fetch_add] on a [T] of [bits] bits, which wraps around. *)
Variable bits : Z.
Definition add_data (arg v : Z) : Z :=
  let w := wrap bits (v + arg) in if w <? 2 ^ (bits - 1) then w else w - 2 ^ bits.

(** What a release leaves in the clock of an object. *)
Definition release_clock c th : vclock :=
  if LOCATION_CLOCK_MERGE then merge (thread_clock th) c else thread_clock th.

Definition is_release order : bool :=
  bool_decide (order = memory_order_seq_cst ∨ order = memory_order_release).
Definition is_acquire order : bool :=
  bool_decide (order = memory_order_seq_cst ∨ order = memory_order_acquire).

Definition atomic_store fuel (desired : Z) order l th : prog (location * ThreadOps) :=
  if is_release order then
    if PROTOCOL_OFF then
      _ ← perform (FlushLines writeback_fence); mret (mkLoc desired (loc_clock l), th)
    else
      '(_, th) ← thread_release fuel th;
      mret (mkLoc desired (release_clock (loc_clock l) th), th)
  else mret (mkLoc desired (loc_clock l), th).

(** An acquiring load goes through [char ret]. *)
Definition atomic_load fuel order l th : prog (Z * ThreadOps) :=
  if PROTOCOL_OFF then mret (atomic_data l, th)
  else if is_acquire order then
    let ret := to_char (atomic_data l) in
    th ← thread_acquire fuel (loc_clock l) th; mret (ret, th)
  else mret (atomic_data l, th).

(** The fetch_add branches: with both a release and an acquire, either, none. *)
Definition atomic_fetch_add fuel (arg : Z) order l th : prog (Z * location * ThreadOps) :=
  let new := add_data arg (atomic_data l) in
  if PROTOCOL_OFF then
    _ ← (if is_release order || bool_decide (order = memory_order_acq_rel)
         then perform (FlushLines writeback_fence) else mret tt);
    mret (atomic_data l, mkLoc new (loc_clock l), th)
  else
    let ret := to_char (atomic_data l) in
    match order with
    | memory_order_seq_cst | memory_order_acq_rel =>
        '(_, th) ← thread_release fuel th;
        let clock := merge (thread_clock th) (loc_clock l) in
        th ← thread_acquire fuel clock th; mret (ret, mkLoc new clock, th)
    | memory_order_release =>
        '(_, th) ← thread_release fuel th;
        mret (ret, mkLoc new (merge (thread_clock th) (loc_clock l)), th)
    | memory_order_acquire =>
        th ← thread_acquire fuel (loc_clock l) th; mret (ret, mkLoc new (loc_clock l), th)
    | _ => mret (atomic_data l, mkLoc new (loc_clock l), th)
    end.

(** [CXLRelaxedMutex]: [PROTOCOL_OFF] is always defined, so [#ifndef] never
    holds and every [lock] invalidates the [n] bytes of the data. *)
Definition relaxed_mutex_lock fuel (data n : Z) : prog unit :=
  tr ← of_option (do_range_invalidate fuel data n); perform (FlushLines (tr ++ invalidate_fence)).
Definition relaxed_mutex_unlock fuel (data n : Z) : prog unit :=
  tr ← of_option (do_range_writeback fuel data n); perform (FlushLines (tr ++ writeback_fence)).

(** [CXLMutex]: [c] is its clock. *)
Definition mutex_lock fuel c th : prog ThreadOps :=
  if PROTOCOL_OFF then mret th else thread_acquire fuel c th.
Definition mutex_unlock fuel c th : prog (vclock * ThreadOps) :=
  if PROTOCOL_OFF then _ ← perform (FlushLines writeback_fence); mret (c, th)
  else '(_, th) ← thread_release fuel th; mret (release_clock c th, th).
Definition mutex_unlock_relaxed c th : prog (vclock * ThreadOps) := mret (c, th).

(** [CXLSharedMutex]: [lock] acquires under the shared lock first, with the clock
    [c_shared] it finds there, then again under the exclusive lock. *)
Definition shared_mutex_lock fuel (c_shared c : vclock) th : prog ThreadOps :=
  if PROTOCOL_OFF then mret th
  else th ← thread_acquire fuel c_shared th; thread_acquire fuel c th.
Definition shared_mutex_lock_shared fuel c th : prog ThreadOps :=
  if PROTOCOL_OFF then mret th else thread_acquire fuel c th.
Definition shared_mutex_unlock fuel c th : prog (vclock * ThreadOps) := mutex_unlock fuel c th.
Definition shared_mutex_unlock_shared fuel c th : prog (vclock * ThreadOps) := mutex_unlock fuel c th.

(** [CXLBarrier]: [target], [arrived] and [phase]. *)
Record barrier := mkBarrier { bar_target : location; bar_arrived : location; bar_phase : location }.

Definition barrier_init fuel (count : Z) (b : barrier) th : prog (barrier * ThreadOps) :=
  '(target, th) ← atomic_store fuel count memory_order_relaxed (bar_target b) th;
  '(arrived, th) ← atomic_store fuel 0 memory_order_release (bar_arrived b) th;
  '(phase, th) ← atomic_store fuel 0 memory_order_release (bar_phase b) th;
  mret (mkBarrier target arrived phase, th).

(** The parts of [wait], each with the state of the location it accesses: the
    phase read on entry, the arrival, the opening by the last arrival. *)
Definition barrier_enter fuel (phase : location) th : prog (Z * ThreadOps) :=
  atomic_load fuel memory_order_acquire phase th.
Definition barrier_arrive fuel (arrived target : location) th : prog (bool * location * ThreadOps) :=
  '(ret, arrived, th) ← atomic_fetch_add fuel 1 memory_order_acq_rel arrived th;
  '(t, th) ← atomic_load fuel memory_order_relaxed target th;
  mret (ret + 1 =? t, arrived, th).
Definition barrier_open fuel (arrived phase : location) th : prog (location * location * ThreadOps) :=
  '(arrived, th) ← atomic_store fuel 0 memory_order_relaxed arrived th;
  '(_, phase, th) ← atomic_fetch_add fuel 1 memory_order_acq_rel phase th;
  mret (arrived, phase, th).
(** The test of the waiting loop: whether to go on waiting. *)
Definition barrier_poll fuel (local_phase : Z) (phase : location) th : prog (bool * ThreadOps) :=
  '(p, th) ← atomic_load fuel memory_order_acquire phase th; mret (p =? local_phase, th).
End cxl_sync.

(** A critical section of a mutex whose clock is [c], from [lock] to [unlock]. *)
Definition critical_section `{cfg : Config} (fuel : nat) (acc : list access) (c : vclock) (th : ThreadOps) :
    prog (vclock * ThreadOps) :=
  th ← mutex_lock fuel c th;
  th ← rac_accesses fuel acc th;
  mutex_unlock fuel c th.

Section clocks.
Context `{cfg : Config} {ok : ConfigOk cfg} {EB : EagerBuild cfg} {DB : DirectBuild cfg}
  {Q : Type} `{FQ : !FifoQueue Q nat LOG_COUNT}.
Implicit Types (w ws : world Q) (n tid p i fuel : nat) (P : world Q → Prop) (th : ThreadOps) (c : vclock)
  (ev tr : list tevent) (l : Z).

(** Every component of the clock counts a published position. *)
Definition clock_valid c w : Prop :=
  length c = NODE_COUNT ∧
  ∀ i, (i < NODE_COUNT)%nat → vc_get c i = 0 ∨ ∃ p d r, vc_get c i = Z.of_nat p + 1 ∧ published_at i p d r w.
Definition clock_le c c' : Prop := ∀ i, vc_get c i ≤ vc_get c' i.

(** ** Lemmas: clocks *)

Lemma clock_valid_persistent c : persistent (clock_valid c).
Proof.
  apply persistent_and; [apply persistent_pure|]. apply persistent_forall. intros i. apply persistent_impl.
  intros w w' Hg [H|(p & d & r & H & Hp)]; [by left|right]. exists p, d, r. split; [done|]. by eapply published_persistent.
Qed.

Lemma clock_valid_merge c c' w : clock_valid c w → clock_valid c' w → clock_valid (merge c c') w.
Proof.
  intros [L1 H1] [L2 H2]. split; [by rewrite length_merge; congruence|]. intros i Hi. rewrite vc_get_merge by congruence.
  destruct (Z.max_spec (vc_get c i) (vc_get c' i)) as [[_ ->]|[_ ->]]; auto.
Qed.

Lemma clock_le_merge c c' : length c = length c' → clock_le c (merge c c') ∧ clock_le c' (merge c c').
Proof. intros Hl. split; intros i; rewrite vc_get_merge by done; lia. Qed.

Lemma clock_le_trans c1 c2 c3 : clock_le c1 c2 → clock_le c2 c3 → clock_le c1 c3.
Proof. intros H1 H2 i. etrans; [apply H1|apply H2]. Qed.

(** ** Lemmas: a release with valid clocks *)

(** The state of a thread, the account of its stores and the clock of the object
    it holds, between operations. *)
Definition in_session n ws th tr c w : Prop :=
  tracked n ws th tr w ∧ clock_valid (thread_clock th) w ∧ clock_valid c w.

Lemma in_session_persistent n ws th tr c : persistent (in_session n ws th tr c).
Proof.
  apply persistent_and; [apply tracked_persistent|]. apply persistent_and; apply clock_valid_persistent.
Qed.

Lemma released_valid n p th w d r :
  thread_ok n th → (n < NODE_COUNT)%nat → clock_valid (thread_clock th) w → published_at n p d r w →
  clock_valid (thread_clock (released p th)) w.
Proof.
  intros Hok Hn [Hl Hv] Hp. destruct Hok as [Hid _ Hlen _]. split; [cbn; unfold assign; by rewrite length_insert|].
  intros i Hi. destruct (decide (i = n)) as [->|Hne].
  - right. exists p, d, r. split; [by apply vc_get_released|done].
  - cbn. unfold assign, vc_get. rewrite list_lookup_insert_ne by congruence. by apply Hv.
Qed.

Lemma released_le n p th w0 :
  thread_ok n th → (n < NODE_COUNT)%nat → clock_valid (thread_clock th) w0 → all_below n p w0 →
  clock_le (thread_clock th) (thread_clock (released p th)).
Proof.
  intros Hok Hn [_ Hv] Hb i. destruct Hok as [Hid _ Hlen _]. destruct (decide (i = n)) as [->|Hne].
  - rewrite vc_get_released by done. destruct (Hv n Hn) as [->|(q & d & r & -> & Hq)]; [lia|]. specialize (Hb q d r Hq). lia.
  - cbn. unfold assign, vc_get. rewrite list_lookup_insert_ne by congruence. done.
Qed.

Lemma spec_session_release n tid fuel ws th tr c :
  (n < NODE_COUNT)%nat → thread_ok n th → noted th tr →
  triple n tid (in_session n ws th tr c) (thread_release fuel th)
    (λ res ev w, (thread_ok n res.2 ∧ clock_le (thread_clock th) (thread_clock res.2)) ∧
       clock_valid (thread_clock res.2) w ∧ clock_valid c w ∧
       ∀ l, nhc_line l → EvStore l ∈ tr ++ ev →
         ∃ p, Z.of_nat p < vc_get (thread_clock res.2) n ∧ committed n ws (tr ++ ev) l p w).
Proof.
  intros Hn Hok Hnote.
  eapply triple_conseq; [apply (spec_thread_release n tid (in_session n ws th tr c)); [done|apply in_session_persistent|by apply (to_table n)]|done|].
  intros res ev w _ [(H0 & -> & -> & _ & Hv & Hc)|(_ & p & -> & Hpass)]; cbn [snd].
  - rewrite app_nil_r. split; [split; [done|by intros i]|]. split; [done|]. split; [done|]. intros l Hl Hin. by destruct (Hnote l Hl Hin).
  - pose proof Hpass as [_ [Hpub (w0 & (Ht & Hv & Hc) & Hb & Hg)]].
    split; [split; [by apply released_ok|by eapply released_le]|].
    split; [eapply released_valid; [done|done| |exact Hpub]; by eapply clock_valid_persistent|].
    split; [by eapply clock_valid_persistent|]. intros l Hl Hin.
    assert (EvStore l ∈ tr) as Hin'.
    { apply elem_of_app in Hin as [?|?]; [done|]. by destruct (pass_no_store _ _ _ _ _ _ _ l Hpass). }
    destruct (pass_commits_line n ws _ _ _ _ tr _ _ l Hpass) as (q & Hq & Hcom).
    { intros w1 ([Hg1 H1] & _). split; [done|by apply H1]. }
    exists q. split; [|done]. rewrite (vc_get_released n p th) by (done || apply (to_node _ _ Hok) || apply (to_clock _ _ Hok)). lia.
Qed.

(** ** Lemmas: a critical section *)

(** What is persistent stays true over a program. *)
Lemma triple_frame n tid {A} P F (pr : prog A) R :
  persistent F → triple n tid P pr R → triple n tid (λ w, P w ∧ F w) pr (λ a ev w, R a ev w ∧ F w).
Proof.
  intros HF Ht w o ev w' Hw [Hp Hf] He. destruct (Ht w o ev w' Hw Hp He) as (Hw' & Ho & Hr).
  split; [done|]. split; [done|]. intros a Ha. split; [by apply Hr|].
  eapply HF; [|exact Hf]. apply (any_steps_ok w w' Hw). by eapply exec_any.
Qed.

Lemma acquired_ok n c th : thread_ok n th → length c = NODE_COUNT → thread_ok n (acquired c th).
Proof.
  intros [Hid Hwf Hlen Hrec] Hl. constructor; [done|done| |done]. cbn. rewrite length_merge; congruence.
Qed.

Lemma spec_mutex_lock n tid fuel ws c th :
  (n < NODE_COUNT)%nat → thread_ok n th → length c = NODE_COUNT →
  triple n tid (λ w, grows ws w ∧ clock_valid (thread_clock th) w ∧ clock_valid c w) (mutex_lock fuel c th)
    (λ th' ev w, (thread_ok n th' ∧ noted th' ev ∧ clock_le c (thread_clock th')) ∧ in_session n ws th' ev c w).
Proof.
  intros Hn Hok Hlen. unfold mutex_lock. rewrite db_protocol.
  eapply triple_conseq; [apply (triple_frame n tid (λ _, True) (λ w, grows ws w ∧ clock_valid (thread_clock th) w ∧ clock_valid c w));
    [|by apply (spec_thread_acquire n tid fuel c th); [|apply (to_node _ _ Hok)]]|done|].
  - apply persistent_and; [apply grows_persistent|]. apply persistent_and; apply clock_valid_persistent.
  - intros th' ev w _ [(-> & Hfl & _) (Hg & Hv & Hc)].
    assert (∀ l, EvStore l ∉ ev) as Hns by (intros l; by apply flush_only_store).
    split; [split_and!; [by apply acquired_ok| |]|split; [|split; [by apply clock_valid_merge|done]]].
    + intros l _ Hin. by destruct (Hns l).
    + apply clock_le_merge. destruct Hv. congruence.
    + split; [done|]. intros l _ Hin. by destruct (Hns l).
Qed.

Lemma spec_critical_section n tid fuel ws acc c th :
  (n < NODE_COUNT)%nat → thread_ok n th → length c = NODE_COUNT → Forall access_ok acc →
  triple n tid (λ w, grows ws w ∧ clock_valid (thread_clock th) w ∧ clock_valid c w) (critical_section fuel acc c th)
    (λ res ev w, (thread_ok n res.2 ∧ clock_le c res.1) ∧ clock_valid (thread_clock res.2) w ∧ clock_valid res.1 w ∧
       ∀ l, nhc_line l → EvStore l ∈ ev → ∃ p, Z.of_nat p < vc_get res.1 n ∧ committed n ws ev l p w).
Proof.
  intros Hn Hok Hlen Hacc. unfold critical_section. eapply triple_bind; [by apply spec_mutex_lock|].
  intros th1 ev1. cbn beta. apply triple_pure. intros (Hok1 & Hn1 & Hle1).
  eapply triple_bind.
  { apply (triple_frame n tid (tracked n ws th1 ev1) (λ w, clock_valid (thread_clock th1) w ∧ clock_valid c w));
      [apply persistent_and; apply clock_valid_persistent|by apply spec_rac_accesses]. }
  intros th2 ev2. cbn beta.
  apply triple_pre with (λ w, (thread_ok n th2 ∧ noted th2 (ev1 ++ ev2) ∧ thread_clock th2 = thread_clock th1) ∧
    in_session n ws th2 (ev1 ++ ev2) c w).
  { intros w _ [[(Hok2 & Hn2 & Hc2) Ht] [Hv Hc]]. split; [done|]. split; [done|]. by rewrite Hc2. }
  apply triple_pure. intros (Hok2 & Hn2 & Hc2). unfold mutex_unlock. rewrite db_protocol.
  eapply triple_bind; [by apply spec_session_release|]. intros [b th3] ev3. cbn [snd]. apply triple_pure.
  intros [Hok3 Hle3]. apply triple_ret. intros w _ (Hv3 & Hc & Hcom). cbn [fst snd]. rewrite app_nil_r, app_assoc.
  assert (clock_le c (thread_clock th3)) as Hle by (eapply clock_le_trans; [exact Hle1|by rewrite <- Hc2]).
  assert (clock_valid (release_clock c th3) w ∧ clock_le c (release_clock c th3) ∧
    clock_le (thread_clock th3) (release_clock c th3)) as (Hvr & Hler & Hle3r).
  { unfold release_clock. destruct LOCATION_CLOCK_MERGE.
    - destruct (clock_le_merge (thread_clock th3) c); [destruct Hv3, Hc; congruence|]. split; [by apply clock_valid_merge|done].
    - split; [done|]. split; [done|]. by intros i. }
  split; [done|]. split; [done|]. split; [done|]. intros l Hl Hin. destruct (Hcom l Hl Hin) as (p & Hp & Hc').
  exists p. split; [|done]. specialize (Hle3r n). lia.
Qed.

(** What happens to the mutex and the world between two critical sections of
    interest: actions of any threads, and critical sections of other threads. *)
Inductive handed : vclock * world Q → vclock * world Q → Prop :=
  | handed_step c w w' : any_step w w' → handed (c, w) (c, w')
  | handed_section c w c' w' n tid fuel acc th th' ev :
      (n < NODE_COUNT)%nat → thread_ok n th → clock_valid (thread_clock th) w → Forall access_ok acc →
      exec n tid (critical_section fuel acc c th) w (Returned (c', th')) ev w' →
      handed (c, w) (c', w').

Lemma handed_ok c w c' w' :
  rtc handed (c, w) (c', w') → world_ok w → clock_valid c w →
  world_ok w' ∧ clock_valid c' w' ∧ clock_le c c' ∧ grows w w'.
Proof.
  intros Hr. remember (c, w) as s eqn:Es. remember (c', w') as s' eqn:Es'. revert c w c' w' Es Es'.
  induction Hr as [s | s s1 s2 H12 Hr IH]; intros c w c' w' -> Es'; intros Hw Hc.
  - injection Es' as -> ->. split; [done|]. split; [done|]. split; [by intros i|apply grows_refl].
  - destruct s1 as [c1 w1]. assert (world_ok w1 ∧ clock_valid c1 w1 ∧ clock_le c c1 ∧ grows w w1) as (Hw1 & Hc1 & Hle & Hg).
    { inversion H12 as [? ? ? Hs|? ? ? ? n tid fuel acc th th' ev Hn Hok Hv Hacc He]; subst.
      - destruct (any_step_ok w w1 Hw Hs) as [Hw1 Hg]. split; [done|].
        split; [by eapply clock_valid_persistent|]. split; [by intros i|done].
      - destruct (spec_critical_section n tid fuel w acc c th Hn Hok (proj1 Hc) Hacc w _ _ _ Hw
          (conj (grows_refl w) (conj Hv Hc)) He) as (Hw1 & _ & Hres).
        destruct (Hres _ eq_refl) as ([_ Hle] & _ & Hc1 & _). split; [done|]. split; [done|]. split; [done|].
        apply (any_steps_ok w w1 Hw). by eapply exec_any. }
    destruct (IH c1 w1 c' w' eq_refl Es' Hw1 Hc1) as (Hw2 & Hc2 & Hle2 & Hg2). split; [done|]. split; [done|].
    split; [by eapply clock_le_trans|by eapply grows_persistent].
Qed.
End clocks.

(** ** Properties *)

(** C9: a mutex hands over coherence. A thread of node [n] locks a mutex, makes
    any accesses and unlocks; after any actions of any threads and any number of
    complete critical sections of the mutex by other threads, a thread of another
    node [m] locks it. Then every line of the non-coherent region the first
    thread stored to has been made visible to [m]. *)
Theorem mutex_hands_over_stores `{cfg : Config} (ok : ConfigOk cfg) (EB : EagerBuild cfg) (DB : DirectBuild cfg)
    {Q : Type} `{FQ : !FifoQueue Q nat LOG_COUNT} (w0 w1 w2 w3 : world Q) (n m tid1 tid2 fuel1 fuel2 : nat)
    (th1 th1' th2 th2' : ThreadOps) (acc : list access) (c0 c1 c2 : vclock) (ev1 ev2 : list tevent) (l : Z) :
  world_reachable w0 → (n < NODE_COUNT)%nat → (m < NODE_COUNT)%nat → n ≠ m →
  thread_ok n th1 → clock_valid (thread_clock th1) w0 → clock_valid c0 w0 → Forall access_ok acc →
  exec n tid1 (critical_section fuel1 acc c0 th1) w0 (Returned (c1, th1')) ev1 w1 →
  rtc handed (c1, w1) (c2, w2) →
  th_node_id th2 = m → exec m tid2 (mutex_lock fuel2 c2 th2) w2 (Returned th2') ev2 w3 →
  nhc_line l → EvStore l ∈ ev1 → made_visible n m w0 ev1 l w3.
Proof.
  intros H0 Hn Hm Hne Hok Hv Hc0 Hacc He1 Hh Hid He2 Hl Hin. pose proof (reachable_ok w0 H0) as Hw0.
  destruct (spec_critical_section n tid1 fuel1 w0 acc c0 th1 Hn Hok (proj1 Hc0) Hacc w0 _ _ _ Hw0
    (conj (grows_refl w0) (conj Hv Hc0)) He1) as (Hw1 & _ & Hr1).
  destruct (Hr1 _ eq_refl) as (_ & _ & Hc1 & Hcom). cbn [fst] in *. destruct (Hcom l Hl Hin) as (p & Hp & Hcp).
  destruct (handed_ok c1 w1 c2 w2 Hh Hw1 Hc1) as (Hw2 & Hc2 & Hle & Hg12).
  unfold mutex_lock in He2. rewrite db_protocol in He2.
  eapply (acquire_makes_visible n m _ _ w0 _ _ _ w1 w2); [done..| |exact He2]. specialize (Hle n). lia.
Qed.

(** An acquiring load or read-modify-write of an atomic returns the value
    through a [char]: it is the stored value exactly when that lies between -128
    and 127. *)
Theorem atomic_load_through_char `{cfg : Config} {Q : Type} `{FQ : !FifoQueue Q nat LOG_COUNT}
    (w w' : world Q) (n tid fuel : nat) (order : memory_order) (l : location) (th th' : ThreadOps) (v : Z)
    (ev : list tevent) :
  PROTOCOL_OFF = false → is_acquire order = true →
  exec n tid (atomic_load fuel order l th) w (Returned (v, th')) ev w' →
  v = to_char (atomic_data l) ∧ (v = atomic_data l ↔ -128 ≤ atomic_data l < 128).
Proof.
  intros Hoff Hacq He. assert (v = to_char (atomic_data l)) as ->.
  { unfold atomic_load in He. rewrite Hoff, Hacq in He.
    apply exec_bind_inv in He as [(th2 & t1 & w1 & t2 & _ & He & _)|[[? _]|[? _]]]; [|done..].
    destruct He as ([= -> _] & _). done. }
  split; [done|]. unfold to_char, wrap. change (2 ^ 8) with 256. change (2 ^ 7) with 128.
  pose proof (Z.mod_pos_bound (atomic_data l) 256). destruct (Z.ltb_spec (atomic_data l mod 256) 128); divlia.
Qed.

(** Which arrival at a barrier opens it. The [k]-th arrival (from 0) of
    [count] is told that it is the last one exactly when it is, as long as
    [count] is at most 128; for a larger [count] no arrival is ever told so, so
    every thread goes on waiting. *)
Theorem barrier_last_arrival `{cfg : Config} {Q : Type} `{FQ : !FifoQueue Q nat LOG_COUNT}
    (w w' : world Q) (n tid fuel : nat) (arrived target arrived' : location) (th th' : ThreadOps) (last : bool)
    (ev : list tevent) :
  let k := atomic_data arrived in let count := atomic_data target in
  PROTOCOL_OFF = false → 0 ≤ k < count → count < 2 ^ 31 →
  exec n tid (barrier_arrive 32 fuel arrived target th) w (Returned (last, arrived', th')) ev w' →
  atomic_data arrived' = k + 1 ∧ (count ≤ 128 → last = bool_decide (k = count - 1)) ∧ (128 < count → last = false).
Proof.
  intros k count Hoff Hk Hcount He.
  assert (last = (to_char k + 1 =? count) ∧ atomic_data arrived' = add_data 32 1 k) as [-> ->].
  { unfold barrier_arrive, atomic_fetch_add, atomic_load in He. rewrite Hoff in He. cbn [is_acquire] in He.
    apply exec_bind_inv in He as [([[ret l1] th1] & t1 & w1 & t2 & H1 & H2 & _)|[[? _]|[? _]]]; [|done..].
    assert (ret = to_char k ∧ l1 = mkLoc (add_data 32 1 k) (loc_clock l1)) as [-> Hl1].
    { apply exec_bind_inv in H1 as [([b th2] & t3 & w2 & t4 & _ & H1 & _)|[[? _]|[? _]]]; [|done..].
      apply exec_bind_inv in H1 as [(th3 & t5 & w3 & t6 & _ & H1 & _)|[[? _]|[? _]]]; [|done..].
      destruct H1 as ([= -> -> _] & _). done. }
    cbn in H2. destruct H2 as ([= -> -> _] & _). split; [done|]. by rewrite Hl1. }
  split; [|split].
  - unfold add_data. rewrite wrap_small by (split; lia). destruct (Z.ltb_spec (k + 1) (2 ^ (32 - 1))); [done|lia].
  - intros Hc. assert (to_char k = k) as ->.
    { unfold to_char, wrap. rewrite Z.mod_small by lia. destruct (Z.ltb_spec k (2 ^ 7)); lia. }
    destruct (Z.eqb_spec (k + 1) count), (bool_decide_reflect (k = count - 1)); lia.
  - intros Hc. apply Z.eqb_neq. unfold to_char, wrap. pose proof (Z.mod_pos_bound k (2 ^ 8)).
    destruct (Z.ltb_spec (k mod 2 ^ 8) (2 ^ 7)); lia.
Qed.

(** Readers of a shared mutex overwrite each other's releases. Without
    [LOCATION_CLOCK_MERGE], [unlock_shared] leaves the reader's own clock whatever
    the clock of the mutex was: a component in which the reader was behind is
    lost, so a later [lock] does not wait for the release it stood for. *)
Theorem unlock_shared_forgets_release `{cfg : Config} (ok : ConfigOk cfg) (EB : EagerBuild cfg) (DB : DirectBuild cfg)
    {Q : Type} `{FQ : !FifoQueue Q nat LOG_COUNT} (w w' : world Q) (n i tid fuel : nat) (th th' : ThreadOps)
    (c c' : vclock) (ev : list tevent) :
  LOCATION_CLOCK_MERGE = false → world_reachable w → (n < NODE_COUNT)%nat → thread_ok n th → i ≠ n →
  vc_get (thread_clock th) i < vc_get c i →
  exec n tid (shared_mutex_unlock_shared fuel c th) w (Returned (c', th')) ev w' →
  c' = thread_clock th' ∧ vc_get c' i < vc_get c i.
Proof.
  intros Hm Hw%reachable_ok Hn Hok Hi Hlt He. unfold shared_mutex_unlock_shared, mutex_unlock in He. rewrite db_protocol in He.
  apply exec_bind_inv in He as [([b th2] & t1 & w1 & t2 & H1 & H2 & _)|[[? _]|[? _]]]; [|done..].
  destruct H2 as ([= -> ->] & _). unfold release_clock. rewrite Hm. split; [done|].
  destruct (spec_thread_release n tid (grows w) fuel th Hn (grows_persistent w) (to_table n th Hok) w _ _ _ Hw (grows_refl w) H1)
    as (_ & _ & Hr).
  destruct (Hr _ eq_refl) as [(_ & [= _ ->] & _)|(_ & p & [= _ ->] & _)]; [done|].
  cbn. unfold vc_get, assign. rewrite (to_node _ _ Hok), list_lookup_insert_ne by congruence. done.
Qed.

(** ** Examples *)

Section examples.
Let cfg : Config := small_config.
#[local] Existing Instance cfg.
#[local] Existing Instance small_config_ok.
#[local] Existing Instance small_eager.
#[local] Existing Instance small_direct.
Abbreviation SQ := (@spmc_bounded_queue nat).

Definition ex_section (w : world SQ) := run 0 0 (critical_section 5 ex_accesses vc_init (thread_new 0 0)) w.
Definition ex_lock (c : vclock) (w : world SQ) := run 1 1 (mutex_lock 5 c (thread_new 1 1)) w.
Definition ex_mutex_ok : bool :=
  match rac_init_world (Q := SQ) with
  | Some w0 =>
      match ex_section w0 with
      | (Returned (c1, th1), ev1, w1) =>
          existsb (λ e, match e with EvStore l => l =? ex_line | _ => false end) ev1 &&
          match ex_lock c1 w1 with (Returned _, _, _) => true | _ => false end
      | _ => false
      end
  | None => false
  end.
Example ex_mutex_true : ex_mutex_ok = true.
Proof. vm_compute. reflexivity. Qed.

Lemma init_clock_valid (w : world SQ) : clock_valid vc_init w.
Proof. split; [apply length_replicate|]. intros i _. left. apply vc_get_init. Qed.

Lemma mutex_hands_over_stores_witness :
  ∃ w0 ev1 w3, rac_init_world (Q := SQ) = Some w0 ∧ made_visible 0 1 w0 ev1 ex_line w3.
Proof.
  pose proof ex_mutex_true as H. unfold ex_mutex_ok in H. destruct rac_init_world as [w0|] eqn:E0; [|discriminate H].
  destruct (ex_section w0) as [[[[c1 th1]| |] ev1] w1] eqn:E1; try discriminate H.
  apply andb_prop in H as [H H2]. apply existsb_exists in H as (e & He%list_elem_of_In & Hl).
  destruct e as [|?|l|]; try discriminate Hl. apply Z.eqb_eq in Hl. subst l.
  destruct (ex_lock c1 w1) as [[[th2| |] ev2] w3] eqn:E2; try discriminate H2.
  exists w0, ev1, w3. split; [reflexivity|].
  apply (mutex_hands_over_stores small_config_ok small_eager small_direct w0 w1 w1 w3 0 1 0 1 5 5 (thread_new 0 0) th1
    (thread_new 1 1) th2 ex_accesses vc_init c1 c1 ev1 ev2 ex_line);
    [apply ex_reachable, E0|cbn; lia|cbn; lia|lia|apply thread_new_ok|apply init_clock_valid|apply init_clock_valid
    |apply ex_accesses_ok|apply run_exec, E1|apply rtc_refl|reflexivity|apply run_exec, E2|vm_compute; congruence|exact He].
Defined.

Lemma atomic_load_through_char_witness :
  ∃ (w0 w1 : world SQ) th' ev, run 0 0 (atomic_load 5 memory_order_acquire (mkLoc 200 vc_init) (thread_new 0 0)) w0 =
    (Returned (-56, th'), ev, w1) ∧ -56 = to_char 200.
Proof.
  destruct (rac_init_world (Q := SQ)) as [w0|] eqn:E0; [|vm_compute in E0; discriminate E0].
  destruct (run 0 0 (atomic_load 5 memory_order_acquire (mkLoc 200 vc_init) (thread_new 0 0)) w0) as [[o ev] w1] eqn:E1.
  assert (∃ th', o = Returned (-56, th')) as [th' ->].
  { vm_compute in E0. injection E0 as <-. vm_compute in E1. injection E1 as <- _ _. eexists. reflexivity. }
  exists w0, w1, th', ev. split; [exact E1|].
  apply (atomic_load_through_char (cfg := cfg) w0 w1 0 0 5 memory_order_acquire (mkLoc 200 vc_init) (thread_new 0 0) th' (-56) ev
    eq_refl eq_refl (run_exec _ _ _ _ _ _ _ E1)).
Defined.

Definition ex_arrive (k count : Z) (w : world SQ) :=
  run 0 0 (barrier_arrive 32 5 (mkLoc k vc_init) (mkLoc count vc_init) (thread_new 0 0)) w.

Lemma barrier_last_arrival_witness :
  ∃ (w0 w1 : world SQ) arrived' th' ev, ex_arrive 199 200 w0 = (Returned (false, arrived', th'), ev, w1) ∧
    atomic_data arrived' = 200.
Proof.
  destruct (rac_init_world (Q := SQ)) as [w0|] eqn:E0; [|vm_compute in E0; discriminate E0].
  destruct (ex_arrive 199 200 w0) as [[o ev] w1] eqn:E1.
  assert (∃ arrived' th', o = Returned (false, arrived', th')) as (arrived' & th' & ->).
  { vm_compute in E0. injection E0 as <-. vm_compute in E1. injection E1 as <- _ _. eexists _, _. reflexivity. }
  exists w0, w1, arrived', th', ev. split; [exact E1|].
  apply (barrier_last_arrival (cfg := cfg) w0 w1 0 0 5 (mkLoc 199 vc_init) (mkLoc 200 vc_init) arrived' (thread_new 0 0) th' false ev
    eq_refl); [cbn; lia|cbn; lia|exact (run_exec _ _ _ _ _ _ _ E1)].
Defined.

Lemma unlock_shared_forgets_release_witness :
  ∃ (w0 w1 : world SQ) c' th' ev,
    run 0 0 (shared_mutex_unlock_shared 5 [0; 1] (thread_new 0 0)) w0 = (Returned (c', th'), ev, w1) ∧ vc_get c' 1 < 1.
Proof.
  destruct (rac_init_world (Q := SQ)) as [w0|] eqn:E0; [|vm_compute in E0; discriminate E0].
  destruct (run 0 0 (shared_mutex_unlock_shared 5 [0; 1] (thread_new 0 0)) w0) as [[o ev] w1] eqn:E1.
  assert (∃ c' th', o = Returned (c', th')) as (c' & th' & ->).
  { vm_compute in E0. injection E0 as <-. vm_compute in E1. injection E1 as <- _ _. eexists _, _. reflexivity. }
  exists w0, w1, c', th', ev. split; [exact E1|].
  apply (unlock_shared_forgets_release small_config_ok small_eager small_direct w0 w1 0 1 0 5 (thread_new 0 0) th' [0; 1] c' ev
    eq_refl (ex_reachable w0 E0)); [cbn; lia|apply thread_new_ok|lia|vm_compute; reflexivity|exact (run_exec _ _ _ _ _ _ _ E1)].
Defined.
End examples.
