(* ===== verification/Handover.v ===== *)
(** Handover: what the operations that synchronise two threads hand over, beyond
    the mutex of CxlSync: thread creation and join ([src/runtime.cpp]) and the
    release sequences of [CXLAtomic] ([include/cxlSync.hpp]).

    The definitions are those of Runtime and CxlSync; here are the programs around
    them, accesses before a release, and what may happen in between. *)
From S2P Require Import Prelude Config VectorClock ClGroup LocalCLTable.
From S2P Require Import FlushUtils SpmcQueue LogManager CacheInfo Actions.
From S2P Require Import Invariant Logic ActionSpecs ThreadOps Runtime Release.
From S2P Require Import Acquire Coherence CxlSync.

(** ** Definitions *)

Section programs.
Context `{cfg : Config}.

(** A parent that makes accesses and then creates a thread. *)
Definition accesses_and_create (fuel : nat) (acc : list access) (th : ThreadOps) : prog (ThreadOps * option vclock) :=
  th ← rac_accesses fuel acc th; rac_thread_create fuel th.
(** A thread that makes accesses and then stores to an atomic. *)
Definition accesses_and_store (fuel : nat) (acc : list access) (v : Z) (order : memory_order) (l : location)
    (th : ThreadOps) : prog (location * ThreadOps) :=
  th ← rac_accesses fuel acc th; atomic_store fuel v order l th.

Context {Q : Type} `{FQ : !FifoQueue Q nat LOG_COUNT}.

(** What happens to an atomic of [bits] bits and the world between a store and a
    load that continues its release sequence: actions of any threads, and
    read-modify-writes of the atomic, in any order, by any threads. *)
Inductive rmw_step (bits : Z) : location * world Q → location * world Q → Prop :=
  | rmw_other l w w' : any_step w w' → rmw_step bits (l, w) (l, w')
  | rmw_fetch_add l w l' w' n tid fuel arg order v th th' ev :
      (n < NODE_COUNT)%nat → thread_ok n th →
      exec n tid (atomic_fetch_add bits fuel arg order l th) w (Returned (v, l', th')) ev w' →
      rmw_step bits (l, w) (l', w').
End programs.

(** ** Lemmas *)

Section lemmas.
Context `{cfg : Config} {ok : ConfigOk cfg} {EB : EagerBuild cfg} {DB : DirectBuild cfg}
  {Q : Type} `{FQ : !FifoQueue Q nat LOG_COUNT}.
Implicit Types (w ws : world Q) (n m tid p fuel : nat) (th : ThreadOps) (ev : list tevent) (l : Z) (acc : list access).

(** The stores of [ev] are committed below the clock [c]. *)
Definition handed_out n ws (c : vclock) ev w : Prop :=
  ∀ l, nhc_line l → EvStore l ∈ ev → ∃ p, Z.of_nat p < vc_get c n ∧ committed n ws ev l p w.

Lemma committed_prefix n ws ev0 ev l p w : committed n ws ev l p w → committed n ws (ev0 ++ ev) l p w.
Proof.
  intros (Hb & before & fl & after & d & r & -> & H). split; [done|].
  exists (ev0 ++ before), fl, after, d, r. by rewrite app_assoc.
Qed.

(** A program that ends in a release after accesses, with the result [f] makes of
    the state. *)
Lemma spec_release_then {A} n tid fuel acc th ws (f : ThreadOps → A) (g : bool * ThreadOps → prog A) :
  (n < NODE_COUNT)%nat → thread_ok n th → Forall access_ok acc → (∀ b th', g (b, th') = mret (f th')) →
  triple n tid (grows ws) (th ← rac_accesses fuel acc th; thread_release fuel th ≫= g)
    (λ a ev w, ∃ th', a = f th' ∧ thread_ok n th' ∧ handed_out n ws (thread_clock th') ev w).
Proof.
  intros Hn Hok Hacc Hg w o tr w' Hw Hp He.
  apply (prog_bind_assoc (rac_accesses fuel acc th) (thread_release fuel) g) in He. revert w o tr w' Hw Hp He.
  change (triple n tid (grows ws) (accesses_and_release fuel acc th ≫= g)
    (λ a ev w, ∃ th', a = f th' ∧ thread_ok n th' ∧ handed_out n ws (thread_clock th') ev w)).
  eapply triple_bind; [by apply spec_accesses_and_release|]. intros [b th'] ev. cbn beta. apply triple_pure. intros Hok'.
  rewrite Hg. apply triple_ret. intros w _ Hr. exists th'. split; [done|]. split; [done|]. rewrite app_nil_r. intros l Hl Hin.
  by destruct (Hr l Hl Hin) as [_ ?].
Qed.

Lemma spec_accesses_and_create n tid fuel acc th ws :
  (n < NODE_COUNT)%nat → thread_ok n th → Forall access_ok acc →
  triple n tid (grows ws) (accesses_and_create fuel acc th)
    (λ res ev w, ∃ th', res = (th', Some (thread_clock th')) ∧ thread_ok n th' ∧ handed_out n ws (thread_clock th') ev w).
Proof.
  intros Hn Hok Hacc. unfold accesses_and_create, rac_thread_create. rewrite db_protocol.
  by apply (spec_release_then n tid fuel acc th ws (λ th', (th', Some (thread_clock th')))).
Qed.

Lemma release_clock_le c th : length (thread_clock th) = length c → clock_le (thread_clock th) (release_clock c th).
Proof. intros Hl. unfold release_clock. destruct LOCATION_CLOCK_MERGE; [by apply clock_le_merge|by intros i]. Qed.
Lemma release_clock_length c th : length (thread_clock th) = length c → length (release_clock c th) = length c.
Proof. intros Hl. unfold release_clock. destruct LOCATION_CLOCK_MERGE; [by rewrite length_merge|done]. Qed.

Lemma spec_accesses_and_store n tid fuel acc v order loc th ws :
  (n < NODE_COUNT)%nat → thread_ok n th → Forall access_ok acc → is_release order = true →
  length (loc_clock loc) = NODE_COUNT →
  triple n tid (grows ws) (accesses_and_store fuel acc v order loc th)
    (λ res ev w, atomic_data res.1 = v ∧ length (loc_clock res.1) = NODE_COUNT ∧ handed_out n ws (loc_clock res.1) ev w).
Proof.
  intros Hn Hok Hacc Hrel Hlen. unfold accesses_and_store, atomic_store. rewrite Hrel, db_protocol.
  eapply triple_conseq; [by apply (spec_release_then n tid fuel acc th ws (λ th', (mkLoc v (release_clock (loc_clock loc) th'), th')))|done|].
  intros res ev w _ (th' & -> & Hok' & Hout). cbn [fst atomic_data loc_clock].
  assert (length (thread_clock th') = length (loc_clock loc)) as Hl by (rewrite Hlen; by apply (to_clock n)).
  split; [done|]. split; [by rewrite release_clock_length|]. intros l Hl' Hin. destruct (Hout l Hl' Hin) as (p & Hp & Hc).
  exists p. split; [|done]. pose proof (release_clock_le _ _ Hl n). lia.
Qed.

(** The function of a thread that has acquired its parent's clock, and its end. *)
Lemma spec_thread_func_wrapper n tid fuel acc c ws :
  (n < NODE_COUNT)%nat → length c = NODE_COUNT → Forall access_ok acc →
  triple n tid (grows ws) (rac_thread_func_wrapper fuel n tid c (rac_accesses fuel acc))
    (λ th' ev w, thread_ok n th' ∧ handed_out n ws (thread_clock th') ev w).
Proof.
  intros Hn Hlen Hacc. unfold rac_thread_func_wrapper. rewrite db_protocol. cbv zeta.
  eapply triple_bind.
  { eapply triple_conseq; [apply (triple_frame n tid (λ _, True) (grows ws)); [apply grows_persistent|by apply (spec_thread_acquire n tid fuel c)]|done|].
    intros th' ev w _ H. exact H. }
  intros th1 ev1. cbn beta.
  apply triple_pre with (λ w, (thread_ok n th1 ∧ flush_only ev1) ∧ grows ws w).
  { intros w _ [(-> & Hf & _) Hg]. split; [|done]. split; [|done]. apply acquired_ok; [apply thread_new_ok|done]. }
  apply triple_pure. intros [Hok1 Hf].
  eapply triple_conseq; [by apply (spec_release_then n tid fuel acc th1 ws (λ th', th'))|done|].
  intros a ev w _ (th' & -> & Hok' & Hout). split; [done|]. intros l Hl Hin.
  apply elem_of_app in Hin as [Hin|Hin]; [by destruct (flush_only_store _ l Hf)|].
  destruct (Hout l Hl Hin) as (p & Hp & Hc). exists p. split; [done|]. by apply committed_prefix.
Qed.

(** *** Read-modify-writes *)

(** A release by a thread in order leaves one in order. *)
Lemma release_keeps_ok n tid fuel th w b th' ev w' :
  world_ok w → (n < NODE_COUNT)%nat → thread_ok n th → exec n tid (thread_release fuel th) w (Returned (b, th')) ev w' → thread_ok n th'.
Proof.
  intros Hw Hn Hok He.
  destruct (spec_thread_release n tid (grows w) fuel th Hn (grows_persistent w) (to_table n th Hok) w _ _ _ Hw (grows_refl w) He)
    as (_ & _ & Hr).
  destruct (Hr _ eq_refl) as [(_ & [= _ ->] & _)|(_ & p & [= _ ->] & _)]; [done|by apply released_ok].
Qed.

Lemma fetch_add_clock bits n tid fuel arg order loc th w v loc' th' ev w' :
  world_ok w → (n < NODE_COUNT)%nat → thread_ok n th → length (loc_clock loc) = NODE_COUNT →
  exec n tid (atomic_fetch_add bits fuel arg order loc th) w (Returned (v, loc', th')) ev w' →
  length (loc_clock loc') = NODE_COUNT ∧ clock_le (loc_clock loc) (loc_clock loc').
Proof.
  intros Hw Hn Hok Hlen He. unfold atomic_fetch_add in He. rewrite db_protocol in He.
  assert (∀ b th1 t1 w1, exec n tid (thread_release fuel th) w (Returned (b, th1)) t1 w1 →
    length (merge (thread_clock th1) (loc_clock loc)) = NODE_COUNT ∧ clock_le (loc_clock loc) (merge (thread_clock th1) (loc_clock loc))) as Hmerge.
  { intros b th1 t1 w1 H. pose proof (to_clock n th1 (release_keeps_ok _ _ _ _ _ _ _ _ _ Hw Hn Hok H)).
    split; [rewrite length_merge; congruence|]. apply clock_le_merge. congruence. }
  destruct order; try (destruct He as ([= _ -> _] & _); split; [done|by intros i]);
    apply exec_bind_inv in He as [(r & t1 & w1 & t2 & H1 & H2 & _)|[[? _]|[? _]]]; try done.
  - destruct H2 as ([= _ -> _] & _). split; [done|by intros i].
  - destruct r as [b th1]. destruct H2 as ([= _ -> _] & _). by eapply Hmerge.
  - destruct r as [b th1]. apply exec_bind_inv in H2 as [(th2 & t3 & w2 & t4 & _ & H3 & _)|[[? _]|[? _]]]; [|done..].
    destruct H3 as ([= _ -> _] & _). by eapply Hmerge.
  - destruct r as [b th1]. apply exec_bind_inv in H2 as [(th2 & t3 & w2 & t4 & _ & H3 & _)|[[? _]|[? _]]]; [|done..].
    destruct H3 as ([= _ -> _] & _). by eapply Hmerge.
Qed.

Lemma rmw_sequence_clock bits s s' :
  rtc (rmw_step (Q := Q) bits) s s' → world_ok s.2 → length (loc_clock s.1) = NODE_COUNT →
  world_ok s'.2 ∧ grows s.2 s'.2 ∧ clock_le (loc_clock s.1) (loc_clock s'.1).
Proof.
  induction 1 as [s|s s1 s2 H12 _ IH]; intros Hw Hlen; [split; [done|split; [apply grows_refl|by intros i]]|].
  assert (world_ok s1.2 ∧ grows s.2 s1.2 ∧ length (loc_clock s1.1) = NODE_COUNT ∧ clock_le (loc_clock s.1) (loc_clock s1.1))
    as (Hw1 & Hg & Hlen1 & Hle).
  { destruct H12 as [loc w w' Hs|loc w loc' w' n tid fuel arg order v th th' ev Hn Hok He]; cbn [fst snd] in *.
    - destruct (any_step_ok w w' Hw Hs) as [Hw1 Hg]. split; [done|]. split; [done|]. split; [done|by intros i].
    - destruct (any_steps_ok w w' Hw (exec_any _ _ _ _ _ _ _ He)) as [Hw1 Hg].
      destruct (fetch_add_clock bits n tid fuel arg order loc th w v loc' th' ev w' Hw Hn Hok Hlen He). done. }
  destruct (IH Hw1 Hlen1) as (Hw2 & Hg2 & Hle2). split; [done|]. split; [by eapply grows_persistent|by eapply clock_le_trans].
Qed.
End lemmas.

(** ** Properties *)

(** C10: thread creation hands over coherence. A thread of node [n] makes any
    accesses and creates a thread on another node [m]; that thread, started after
    any actions of any threads with a parent clock not behind the one it was given,
    runs to its end. When its function starts, every line of the non-coherent
    region the parent stored to has been made visible to [m]. *)
Theorem thread_create_hands_over `{cfg : Config} (ok : ConfigOk cfg) (EB : EagerBuild cfg) (DB : DirectBuild cfg)
    {Q : Type} `{FQ : !FifoQueue Q nat LOG_COUNT} (w0 w1 w2 w3 : world Q) (n m tid1 tid2 fuel1 fuel2 : nat)
    (th1 th1' th2' : ThreadOps) (acc : list access) (func : ThreadOps → prog ThreadOps) (parent_clock : option vclock)
    (clock : vclock) (ev1 ev2 : list tevent) :
  world_reachable w0 → (n < NODE_COUNT)%nat → (m < NODE_COUNT)%nat → n ≠ m → thread_ok n th1 → Forall access_ok acc →
  exec n tid1 (accesses_and_create fuel1 acc th1) w0 (Returned (th1', parent_clock)) ev1 w1 →
  rtc any_step w1 w2 →
  vc_get (default [] parent_clock) n ≤ vc_get clock n →
  exec m tid2 (rac_thread_func_wrapper fuel2 m tid2 clock func) w2 (Returned th2') ev2 w3 →
  ∃ th wa wb tha evb, exec m tid2 (func th) wa (Returned tha) evb wb ∧
    ∀ l, nhc_line l → EvStore l ∈ ev1 → made_visible n m w0 ev1 l wa.
Proof.
  intros H0 Hn Hm Hne Hok Hacc He1 H12 Hle He2. pose proof (reachable_ok w0 H0) as Hw0.
  destruct (spec_accesses_and_create n tid1 fuel1 acc th1 w0 Hn Hok Hacc w0 _ _ _ Hw0 (grows_refl w0) He1) as (Hw1 & _ & Hr).
  destruct (Hr _ eq_refl) as (th & [= -> ->] & Hok' & Hout). cbn in Hle.
  destruct (any_steps_ok w1 w2 Hw1 H12) as [Hw2 Hg12].
  unfold rac_thread_func_wrapper in He2. rewrite db_protocol in He2.
  apply exec_bind_inv in He2 as [(th2 & t1 & wa & t2 & Ha & He2 & _)|[[? _]|[? _]]]; [|done..].
  apply exec_bind_inv in He2 as [(th3 & t3 & wb & t4 & Hf & _ & _)|[[? _]|[? _]]]; [|done..].
  exists th2, wa, wb, th3, t3. split; [exact Hf|]. intros l Hl Hin. destruct (Hout l Hl Hin) as (p & Hp & Hc).
  eapply (acquire_makes_visible n m _ _ w0 _ _ _ w1 w2 _ (thread_new m tid2)); [done..| |exact Ha]. lia.
Qed.

(** Joining a thread hands over coherence. A thread of node [n] runs a function
    that makes any accesses; after any actions of any threads a thread of another
    node [m] joins it. Then every line of the non-coherent region the joined thread
    stored to has been made visible to [m]. *)
Theorem thread_join_hands_over `{cfg : Config} (ok : ConfigOk cfg) (EB : EagerBuild cfg) (DB : DirectBuild cfg)
    {Q : Type} `{FQ : !FifoQueue Q nat LOG_COUNT} (w0 w1 w2 w3 : world Q) (n m tid1 tid2 fuel1 fuel2 : nat)
    (child th2 th2' : ThreadOps) (acc : list access) (parent_clock : vclock) (ev1 ev2 : list tevent) (l : Z) :
  world_reachable w0 → (n < NODE_COUNT)%nat → (m < NODE_COUNT)%nat → n ≠ m → length parent_clock = NODE_COUNT →
  Forall access_ok acc →
  exec n tid1 (rac_thread_func_wrapper fuel1 n tid1 parent_clock (rac_accesses fuel1 acc)) w0 (Returned child) ev1 w1 →
  rtc any_step w1 w2 → th_node_id th2 = m →
  exec m tid2 (rac_thread_join fuel2 child th2) w2 (Returned th2') ev2 w3 →
  nhc_line l → EvStore l ∈ ev1 → made_visible n m w0 ev1 l w3.
Proof.
  intros H0 Hn Hm Hne Hlen Hacc He1 H12 Hid He2 Hl Hin. pose proof (reachable_ok w0 H0) as Hw0.
  destruct (spec_thread_func_wrapper n tid1 fuel1 acc parent_clock w0 Hn Hlen Hacc w0 _ _ _ Hw0 (grows_refl w0) He1)
    as (Hw1 & _ & Hr).
  destruct (Hr _ eq_refl) as [_ Hout]. destruct (Hout l Hl Hin) as (p & Hp & Hc).
  destruct (any_steps_ok w1 w2 Hw1 H12) as [Hw2 Hg12].
  unfold rac_thread_join in He2. rewrite db_protocol in He2.
  by eapply (acquire_makes_visible n m _ _ w0 _ _ _ w1 w2); [..|exact He2].
Qed.

(** C11: a release sequence of an atomic hands over coherence. A thread of node [n]
    makes any accesses and stores to an atomic with release order; then come any
    actions of any threads and any read-modify-writes of the atomic, relaxed ones
    included; then a thread of another node [m] loads the atomic with acquire
    order. Every line of the non-coherent region the first thread stored to has
    been made visible to [m]. *)
Theorem release_sequence_hands_over `{cfg : Config} (ok : ConfigOk cfg) (EB : EagerBuild cfg) (DB : DirectBuild cfg)
    {Q : Type} `{FQ : !FifoQueue Q nat LOG_COUNT} (bits : Z) (w0 w1 w2 w3 : world Q) (n m tid1 tid2 fuel1 fuel2 : nat)
    (th1 th1' th2 th2' : ThreadOps) (acc : list access) (v v' : Z) (o o' : memory_order) (loc0 loc1 loc2 : location)
    (ev1 ev2 : list tevent) (l : Z) :
  world_reachable w0 → (n < NODE_COUNT)%nat → (m < NODE_COUNT)%nat → n ≠ m → thread_ok n th1 → Forall access_ok acc →
  length (loc_clock loc0) = NODE_COUNT → is_release o = true → is_acquire o' = true →
  exec n tid1 (accesses_and_store fuel1 acc v o loc0 th1) w0 (Returned (loc1, th1')) ev1 w1 →
  rtc (rmw_step bits) (loc1, w1) (loc2, w2) → th_node_id th2 = m →
  exec m tid2 (atomic_load fuel2 o' loc2 th2) w2 (Returned (v', th2')) ev2 w3 →
  nhc_line l → EvStore l ∈ ev1 → made_visible n m w0 ev1 l w3.
Proof.
  intros H0 Hn Hm Hne Hok Hacc Hlen Ho Ho' He1 Hs Hid He2 Hl Hin. pose proof (reachable_ok w0 H0) as Hw0.
  destruct (spec_accesses_and_store n tid1 fuel1 acc v o loc0 th1 w0 Hn Hok Hacc Ho Hlen w0 _ _ _ Hw0 (grows_refl w0) He1)
    as (Hw1 & _ & Hr).
  destruct (Hr _ eq_refl) as (_ & Hlen1 & Hout). destruct (Hout l Hl Hin) as (p & Hp & Hc). cbn [fst] in *.
  destruct (rmw_sequence_clock bits _ _ Hs Hw1 Hlen1) as (Hw2 & Hg12 & Hle). cbn [fst snd] in *.
  unfold atomic_load in He2. rewrite db_protocol, Ho' in He2.
  apply exec_bind_inv in He2 as [(th3 & t1 & wa & t2 & Ha & He2 & _)|[[? _]|[? _]]]; [|done..].
  destruct He2 as (_ & _ & ->).
  eapply (acquire_makes_visible n m _ _ w0 _ _ _ w1 w2); [done..| |exact Ha]. specialize (Hle n). lia.
Qed.

(** ** Examples *)

Section examples.
Let cfg : Config := small_config.
#[local] Existing Instance cfg.
#[local] Existing Instance small_config_ok.
#[local] Existing Instance small_eager.
#[local] Existing Instance small_direct.
Abbreviation SQ := (@spmc_bounded_queue nat).

Definition stores_line (ev : list tevent) : bool :=
  existsb (λ e, match e with EvStore l => l =? ex_line | _ => false end) ev.
Lemma stores_line_elem ev : stores_line ev = true → EvStore ex_line ∈ ev.
Proof.
  intros (e & He%list_elem_of_In & Hl)%existsb_exists. destruct e as [|?|l|]; try done. apply Z.eqb_eq in Hl. by subst l.
Qed.

(** A run from the initial world and a second one after it. *)
Definition ex_two {A B} (n : nat) (p1 : prog A) (f : A → prog B) : bool :=
  match rac_init_world (Q := SQ) with
  | Some w0 =>
      match run n n p1 w0 with
      | (Returned a, ev1, w1) => stores_line ev1 && match run 1 1 (f a) w1 with (Returned _, _, _) => true | _ => false end
      | _ => false
      end
  | None => false
  end.
Lemma ex_two_spec {A B} (n : nat) (p1 : prog A) (f : A → prog B) :
  ex_two n p1 f = true →
  ∃ w0 a ev1 w1 b ev2 w2, rac_init_world (Q := SQ) = Some w0 ∧ exec n n p1 w0 (Returned a) ev1 w1 ∧
    EvStore ex_line ∈ ev1 ∧ exec 1 1 (f a) w1 (Returned b) ev2 w2.
Proof.
  unfold ex_two. intros H. destruct rac_init_world as [w0|] eqn:E0; [|done].
  destruct (run n n p1 w0) as [[[a| |] ev1] w1] eqn:E1; try done. apply andb_prop in H as [H1 H2].
  destruct (run 1 1 (f a) w1) as [[[b| |] ev2] w2] eqn:E2; try done.
  exists w0, a, ev1, w1, b, ev2, w2. split; [done|]. split; [by apply run_exec|]. split; [by apply stores_line_elem|by apply run_exec].
Qed.

Definition ex_child := rac_thread_func_wrapper (cfg := small_config) 5 1 1.

Lemma thread_create_hands_over_witness :
  ∃ (w0 : world SQ) ev1 th wa wb tha evb,
    exec 1 1 (rac_accesses 5 [Load CXL_NHC_START 8] th) wa (Returned tha) evb wb ∧
    (EvStore ex_line ∈ ev1) ∧ made_visible 0 1 w0 ev1 ex_line wa.
Proof.
  destruct (ex_two_spec 0 (accesses_and_create 5 ex_accesses (thread_new 0 0))
    (λ r, ex_child (default [] r.2) (rac_accesses 5 [Load CXL_NHC_START 8]))) as (w0 & [th1 pc] & ev1 & w1 & b & ev2 & w2 & E0 & H1 & Hin & H2).
  { vm_compute. reflexivity. }
  destruct (thread_create_hands_over small_config_ok small_eager small_direct w0 w1 w1 w2 0 1 0 1 5 5 (thread_new 0 0) th1 b
    ex_accesses (rac_accesses 5 [Load CXL_NHC_START 8]) pc (default [] pc) ev1 ev2) as (th & wa & wb & tha & evb & Hf & Hvis);
    [apply ex_reachable, E0|cbn; lia|cbn; lia|lia|apply thread_new_ok|apply ex_accesses_ok|exact H1|apply rtc_refl|lia|exact H2|].
  exists w0, ev1, th, wa, wb, tha, evb. split; [exact Hf|]. split; [exact Hin|]. apply Hvis; [vm_compute; congruence|exact Hin].
Defined.

Lemma thread_join_hands_over_witness :
  ∃ (w0 : world SQ) ev1 w3, (EvStore ex_line ∈ ev1) ∧ made_visible 0 1 w0 ev1 ex_line w3.
Proof.
  destruct (ex_two_spec 0 (rac_thread_func_wrapper 5 0 0 vc_init (rac_accesses 5 ex_accesses))
    (λ child, rac_thread_join 5 child (thread_new 1 1))) as (w0 & child & ev1 & w1 & b & ev2 & w2 & E0 & H1 & Hin & H2).
  { vm_compute. reflexivity. }
  exists w0, ev1, w2. split; [exact Hin|].
  apply (thread_join_hands_over small_config_ok small_eager small_direct w0 w1 w1 w2 0 1 0 1 5 5 child (thread_new 1 1) b
    ex_accesses vc_init ev1 ev2 ex_line);
    [apply ex_reachable, E0|cbn; lia|cbn; lia|lia|reflexivity|apply ex_accesses_ok|exact H1|apply rtc_refl|reflexivity|exact H2
    |vm_compute; congruence|exact Hin].
Defined.

(** A relaxed [fetch_add] of node 1 comes between the store and the load. *)
Lemma release_sequence_hands_over_witness :
  ∃ (w0 : world SQ) ev1 w3, (EvStore ex_line ∈ ev1) ∧ made_visible 0 1 w0 ev1 ex_line w3.
Proof.
  destruct (ex_two_spec 0 (accesses_and_store 5 ex_accesses 7 memory_order_release (mkLoc 0 vc_init) (thread_new 0 0))
    (λ r, atomic_load 5 memory_order_acquire (mkLoc (add_data 32 1 (atomic_data r.1)) (loc_clock r.1)) (thread_new 1 1)))
    as (w0 & [[d c] th1] & ev1 & w1 & [v th2] & ev2 & w2 & E0 & H1 & Hin & H2).
  { vm_compute. reflexivity. }
  exists w0, ev1, w2. split; [exact Hin|].
  apply (release_sequence_hands_over small_config_ok small_eager small_direct 32 w0 w1 w1 w2 0 1 0 1 5 5 (thread_new 0 0) th1
    (thread_new 1 1) th2 ex_accesses 7 v memory_order_release memory_order_acquire (mkLoc 0 vc_init) (mkLoc d c) (mkLoc (add_data 32 1 d) c) ev1 ev2 ex_line);
    [apply ex_reachable, E0|cbn; lia|cbn; lia|lia|apply thread_new_ok|apply ex_accesses_ok|reflexivity|reflexivity|reflexivity
    |exact H1| |reflexivity|exact H2|vm_compute; congruence|exact Hin].
  apply rtc_once. apply (rmw_fetch_add 32 (mkLoc d c) w1 (mkLoc (add_data 32 1 d) c) w1 1 1 5 1 memory_order_relaxed d (thread_new 1 1) (thread_new 1 1) []);
    [cbn; lia|apply thread_new_ok|]. cbn. done.
Defined.
End examples.
