(* ===== verification/AtomicOps.v ===== *)
(** AtomicOps: the operations of [CXLAtomic] ([include/cxlSync.hpp]) for threads
    that share a location. An operation is split at the critical section of the
    location's lock: what the thread does before it (a release), the access to the
    location, and what the thread does after it (an acquire of the clock it found).
    The programs of CxlSync, which take the location as it is in the critical
    section, are these three parts in a row ([atomic_op_split]). *)
From S2P Require Import Prelude Config VectorClock ClGroup LocalCLTable.
From S2P Require Import FlushUtils SpmcQueue LogManager CacheInfo Actions.
From S2P Require Import Invariant Logic ActionSpecs ThreadOps Runtime Release.
From S2P Require Import Acquire Coherence CxlSync Handover.

(** ** Definitions *)

Inductive atomic_op :=
  | OpStore (desired : Z) (order : memory_order)
  | OpLoad (order : memory_order)
  | OpFetchAdd (arg : Z) (order : memory_order).

Section ops.
Context `{cfg : Config}.
Implicit Types (th : ThreadOps) (fuel : nat) (op : atomic_op) (l : location) (c : vclock).

(** The operations that call [thread_release] first. *)
Definition op_releases op : bool :=
  match op with
  | OpStore _ order => is_release order
  | OpLoad _ => false
  | OpFetchAdd _ order => is_release order || bool_decide (order = memory_order_acq_rel)
  end.
Definition op_before fuel op th : prog ThreadOps :=
  if op_releases op then '(_, th) ← thread_release fuel th; mret th else mret th.

(** The access: the value it returns, the new state of the location, and the clock
    the thread goes on to acquire. [bits] is the width of the value's type. *)
Definition op_access (bits : Z) op l th : Z * location * option vclock :=
  match op with
  | OpStore desired order => (0, mkLoc desired (if is_release order then release_clock (loc_clock l) th else loc_clock l), None)
  | OpLoad order => if is_acquire order then (to_char (atomic_data l), l, Some (loc_clock l)) else (atomic_data l, l, None)
  | OpFetchAdd arg order =>
      let new := add_data bits arg (atomic_data l) in
      let ret := to_char (atomic_data l) in
      match order with
      | memory_order_seq_cst | memory_order_acq_rel =>
          let clock := merge (thread_clock th) (loc_clock l) in (ret, mkLoc new clock, Some clock)
      | memory_order_release => (ret, mkLoc new (merge (thread_clock th) (loc_clock l)), None)
      | memory_order_acquire => (ret, mkLoc new (loc_clock l), Some (loc_clock l))
      | _ => (atomic_data l, mkLoc new (loc_clock l), None)
      end
  end.
Definition op_after fuel (oc : option vclock) th : prog ThreadOps :=
  match oc with Some c => thread_acquire fuel c th | None => mret th end.

(** The parts in a row, and the operation of CxlSync. *)
Definition atomic_split (bits : Z) fuel op l th : prog (Z * location * ThreadOps) :=
  th ← op_before fuel op th;
  let '(v, l', oc) := op_access bits op l th in
  th ← op_after fuel oc th; mret (v, l', th).
Definition atomic_run (bits : Z) fuel op l th : prog (Z * location * ThreadOps) :=
  match op with
  | OpStore desired order => '(l, th) ← atomic_store fuel desired order l th; mret (0, l, th)
  | OpLoad order => '(v, th) ← atomic_load fuel order l th; mret (v, l, th)
  | OpFetchAdd arg order => atomic_fetch_add bits fuel arg order l th
  end.
End ops.

(** ** Lemmas: the parts *)

Section equivalence.
Context `{cfg : Config} {Q : Type} `{FQ : !FifoQueue Q nat LOG_COUNT}.
Implicit Types (w : world Q) (n tid : nat).

Definition same_runs {A} (p1 p2 : prog A) : Prop := ∀ n tid w o tr w', exec n tid p1 w o tr w' ↔ exec n tid p2 w o tr w'.

Lemma same_bind {A B} (p : prog A) (f g : A → prog B) : (∀ a, same_runs (f a) (g a)) → same_runs (p ≫= f) (p ≫= g).
Proof.
  intros Hfg n tid w o tr w'. revert w o tr w'. induction p as [a|X a k IH| |]; intros w o tr w'; cbn; [apply Hfg| |done|done].
  apply exist_proper. intros w1. apply and_iff_compat_l. destruct (act_step n tid a w1) as [r ev w2| |]; [|done|done].
  apply exist_proper. intros tr1. apply and_iff_compat_l. apply IH.
Qed.

Lemma same_assoc {A B C} (p : prog A) (f : A → prog B) (g : B → prog C) (h : A → prog C) :
  (∀ a, same_runs (f a ≫= g) (h a)) → same_runs ((p ≫= f) ≫= g) (p ≫= h).
Proof.
  intros H n tid w o tr w'. etrans; [apply prog_bind_assoc|]. by apply same_bind.
Qed.

Lemma same_sym {A} (p1 p2 : prog A) : same_runs p1 p2 → same_runs p2 p1.
Proof. intros H n tid w o tr w'. symmetry. apply H. Qed.
Lemma same_refl {A} (p : prog A) : same_runs p p.
Proof. done. Qed.

(** Both sides release first. *)
Lemma same_after_release {A B} (p : prog (bool * ThreadOps)) (f : bool * ThreadOps → prog A) (g : A → prog B) (h : ThreadOps → prog B) :
  (∀ b th, same_runs (f (b, th) ≫= g) (h th)) →
  same_runs ((p ≫= f) ≫= g) ((p ≫= λ '(_, th), mret th) ≫= h).
Proof.
  intros H n tid w o tr w'. etrans; [apply (same_assoc p f g (λ x, h x.2)); intros [b th]; apply H|]. symmetry.
  apply (same_assoc p (λ '(_, th), mret th) h (λ x, h x.2)). by intros [b th].
Qed.

Lemma same_run_split bits fuel op l th :
  PROTOCOL_OFF = false → same_runs (atomic_run bits fuel op l th) (atomic_split bits fuel op l th).
Proof.
  intros Hoff. destruct op as [v order|order|arg order]; unfold atomic_run, atomic_split, op_before; cbn [op_releases].
  - unfold atomic_store. rewrite Hoff. cbn [op_access op_after].
    destruct (is_release order); [|done]. by apply same_after_release.
  - unfold atomic_load. rewrite Hoff. cbn [op_access]. destruct (is_acquire order); [|done].
    exact (same_assoc _ _ _ (λ th', mret (to_char (atomic_data l), l, th')) (λ _, same_refl _)).
  - unfold atomic_fetch_add. rewrite Hoff. destruct order; cbn [op_access op_after]; try done.
    all: apply same_sym, same_assoc; by intros [b th'].
Qed.
End equivalence.

Section specs.
Context `{cfg : Config} {ok : ConfigOk cfg} {EB : EagerBuild cfg} {DB : DirectBuild cfg}
  {Q : Type} `{FQ : !FifoQueue Q nat LOG_COUNT}.
Implicit Types (w ws : world Q) (n m tid fuel : nat) (th : ThreadOps) (op : atomic_op) (c : vclock) (tr ev : list tevent).

(** The account of a thread's stores since [ws], with a valid clock. *)
Definition session n ws th tr w : Prop := tracked n ws th tr w ∧ clock_valid (thread_clock th) w.
Definition clocks_valid (oc : option vclock) w : Prop := ∀ c, oc = Some c → clock_valid c w.

Lemma session_persistent n ws th tr : persistent (session n ws th tr).
Proof. apply persistent_and; [apply tracked_persistent|apply clock_valid_persistent]. Qed.
Lemma handed_out_persistent n ws c tr : persistent (handed_out n ws c tr).
Proof.
  intros w w' Hg H l Hl Hin. destruct (H l Hl Hin) as (p & Hp & Hc). exists p. split; [done|]. by eapply committed_persistent.
Qed.
Lemma handed_out_le n ws c c' tr w : handed_out n ws c tr w → clock_le c c' → handed_out n ws c' tr w.
Proof. intros H Hle l Hl Hin. destruct (H l Hl Hin) as (p & Hp & Hc). exists p. specialize (Hle n). split; [lia|done]. Qed.
Lemma clock_le_refl c : clock_le c c.
Proof. by intros i. Qed.

(** A fresh account. *)
Lemma session_new n th w : clock_valid (thread_clock th) w → session n w th [] w.
Proof. intros Hc. split; [|done]. split; [apply grows_refl|]. by intros l _ ?%not_elem_of_nil. Qed.
Lemma noted_nil th : noted th [].
Proof. by intros l _ ?%not_elem_of_nil. Qed.

Lemma spec_op_before n tid fuel ws op th tr :
  (n < NODE_COUNT)%nat → thread_ok n th → noted th tr →
  triple n tid (session n ws th tr) (op_before fuel op th)
    (λ th' ev w, (thread_ok n th' ∧ clock_le (thread_clock th) (thread_clock th')) ∧
       clock_valid (thread_clock th') w ∧
       (op_releases op = true → handed_out n ws (thread_clock th') (tr ++ ev) w) ∧
       (op_releases op = false → noted th' (tr ++ ev) ∧ session n ws th' (tr ++ ev) w)).
Proof.
  intros Hn Hok Hnote. unfold op_before. destruct (op_releases op).
  - eapply triple_pre with (P' := in_session n ws th tr (thread_clock th)); [by intros w _ [??]|].
    eapply triple_bind; [by apply spec_session_release|]. intros [b th'] ev. cbn [snd]. apply triple_pure. intros [Hok' Hle].
    apply triple_ret. intros w _ (Hv & _ & Hout). rewrite app_nil_r. done.
  - apply triple_ret. intros w _ Hs. rewrite app_nil_r. split; [split; [done|apply clock_le_refl]|].
    split; [apply Hs|]. split; [done|]. intros _. split; [done|exact Hs].
Qed.

(** Flushes leave the account as it is, and so does the merge of an acquire. *)
Lemma session_flushes n ws th tr ev w :
  flush_only ev → (noted th tr → noted th (tr ++ ev)) ∧ (session n ws th tr w → session n ws th (tr ++ ev) w).
Proof.
  intros Hfl. assert (∀ l, EvStore l ∉ ev) as Hns by (intros l; by apply flush_only_store). split.
  - intros H l Hl [Hin|Hin]%elem_of_app; [by eapply H|by destruct (Hns l)].
  - intros [[Hg Ht] Hv]. split; [|done]. split; [done|]. intros l Hl [Hin|Hin]%elem_of_app; [|by destruct (Hns l)].
    destruct (Ht l Hl Hin) as [?|(p & ?)]; [by left|right]. exists p. by apply committed_app.
Qed.
Lemma session_acquired n ws th tr c w : session n ws th tr w → clock_valid c w → session n ws (acquired c th) tr w.
Proof. intros [Ht Hv] Hc. split; [exact Ht|]. by apply clock_valid_merge. Qed.

(** Accesses. *)
Lemma session_accesses n tid fuel acc ws th th' tr ev w w' :
  (n < NODE_COUNT)%nat → thread_ok n th → noted th tr → Forall access_ok acc → world_ok w → session n ws th tr w →
  exec n tid (rac_accesses fuel acc th) w (Returned th') ev w' →
  thread_ok n th' ∧ noted th' (tr ++ ev) ∧ session n ws th' (tr ++ ev) w' ∧ thread_clock th' = thread_clock th.
Proof.
  intros Hn Hok Hnote Hacc Hw [Ht Hv] He.
  destruct (triple_frame n tid _ _ _ _ (clock_valid_persistent _) (spec_rac_accesses n tid fuel acc th ws tr Hn Hok Hacc Hnote)
    w _ _ _ Hw (conj Ht Hv) He) as (_ & _ & Hr).
  destruct (Hr _ eq_refl) as [[(H1 & H2 & H3) H4] H5]. split; [done|]. split; [done|]. split; [|done]. split; [done|]. by rewrite H3.
Qed.

Lemma spec_op_after n tid fuel ws (oc : option vclock) th tr :
  (n < NODE_COUNT)%nat → thread_ok n th → noted th tr →
  triple n tid (λ w, session n ws th tr w ∧ clocks_valid oc w) (op_after fuel oc th)
    (λ th' ev w, (thread_ok n th' ∧ noted th' (tr ++ ev) ∧ clock_le (thread_clock th) (thread_clock th') ∧
       ∀ c, oc = Some c → clock_le c (thread_clock th')) ∧
       session n ws th' (tr ++ ev) w ∧ ∀ c, oc = Some c → caught_up n c w).
Proof.
  intros Hn Hok Hnote. destruct oc as [c|]; cbn [op_after].
  - apply triple_pre with (λ w, length c = NODE_COUNT ∧ session n ws th tr w ∧ clock_valid c w).
    { intros w _ [Hs Hv]. specialize (Hv c eq_refl). split; [by apply Hv|done]. }
    apply triple_pure. intros Hlen.
    eapply triple_conseq; [apply (triple_frame n tid (λ _, True) (λ w, session n ws th tr w ∧ clock_valid c w));
      [|apply (spec_thread_acquire n tid fuel c th); [done|apply (to_node _ _ Hok)]]|done|].
    + apply persistent_and; [apply session_persistent|apply clock_valid_persistent].
    + intros th' ev w _ [(-> & Hfl & Hup) [Hs Hc]].
      destruct (clock_le_merge c (thread_clock th)) as [Hle1 Hle2]; [destruct Hs as [_ []]; congruence|].
      destruct (session_flushes n ws th tr ev w Hfl) as [Hn' Hs']. split; [split_and!|split].
      * by apply acquired_ok.
      * exact (Hn' Hnote).
      * exact Hle2.
      * by intros ? [= <-].
      * apply session_acquired; auto.
      * by intros ? [= <-].
  - apply triple_ret. intros w _ [Hs _]. rewrite app_nil_r. split; [|split; [exact Hs|done]].
    split_and!; [done|done|apply clock_le_refl|done].
Qed.

(** What a thread has caught up with is visible to its node. *)
Lemma handed_out_visible n m ws c tr w1 w l :
  world_ok ws → world_ok w → (n < NODE_COUNT)%nat → n ≠ m → handed_out n ws c tr w1 → grows w1 w → caught_up m c w →
  nhc_line l → EvStore l ∈ tr → made_visible n m ws tr l w.
Proof.
  intros Hws Hw Hn Hne Hout Hg Hup Hl Hin. destruct (Hout l Hl Hin) as (p & Hp & Hc).
  eapply committed_visible; [done|done|done|exact Hg|exact Hc|by apply (Hup n Hn Hne p)].
Qed.

Lemma made_visible_persistent n m ws tr l w w' :
  made_visible n m ws tr l w → grows w w' → made_visible n m ws tr l w'.
Proof.
  intros (before & fl & after & p & H1 & H2 & H3 & H4 & H5 & nd & t & Hm & Hin & Hinv) Hg.
  destruct (Hg m nd Hm) as (nd' & Hm' & _ & _ & Hs). exists before, fl, after, p. split_and!; [done..|].
  exists nd', t. split; [done|]. split; [by apply Hs|done].
Qed.

(** The clocks of an access. *)
Lemma op_access_valid bits op loc th v loc' oc w :
  op_access bits op loc th = (v, loc', oc) → clock_valid (loc_clock loc) w → clock_valid (thread_clock th) w →
  clock_valid (loc_clock loc') w ∧ clocks_valid oc w.
Proof.
  intros He Hl Ht. assert (clock_valid (merge (thread_clock th) (loc_clock loc)) w) as Hm by by apply clock_valid_merge.
  assert (clock_valid (release_clock (loc_clock loc) th) w) as Hr by (unfold release_clock; by destruct LOCATION_CLOCK_MERGE).
  assert (∀ c, clock_valid c w → clocks_valid (Some c) w) as Hsome by (by intros c Hc ? [= <-]).
  assert (clocks_valid None w) as Hnone by done.
  destruct op as [x order|order|arg order]; cbn [op_access] in He.
  - injection He as _ <- <-. cbn. by destruct (is_release order).
  - destruct (is_acquire order); injection He as _ <- <-; auto.
  - destruct order; injection He as _ <- <-; cbn; auto.
Qed.
End specs.

(** ** Properties *)

(** The operations of [CXLAtomic] in CxlSync are their three parts in a row: a
    run of [store], [load] or [fetch_add], with any interference, is a run of the
    release before the critical section, the access, and the acquire after it,
    with the same result, events and worlds. *)
Theorem atomic_op_split `{cfg : Config} {Q : Type} `{FQ : !FifoQueue Q nat LOG_COUNT} (w w' : world Q) (n tid fuel : nat)
    (bits : Z) (op : atomic_op) (l : location) (th : ThreadOps) (o : outcome (Z * location * ThreadOps)) (ev : list tevent) :
  PROTOCOL_OFF = false →
  exec n tid (atomic_run bits fuel op l th) w o ev w' ↔ exec n tid (atomic_split bits fuel op l th) w o ev w'.
Proof. intros Hoff. by apply same_run_split. Qed.

(** ** Examples *)

Section examples.
Let cfg : Config := small_config.
#[local] Existing Instance cfg.
#[local] Existing Instance small_config_ok.
Abbreviation SQ := (@spmc_bounded_queue nat).

(** A release store of node 0, in its parts. *)
Lemma atomic_op_split_witness :
  ∃ (w w' : world SQ) l th ev, rac_init_world (Q := SQ) = Some w ∧ vc_get (loc_clock l) 0 = 0 ∧
    exec 0 0 (atomic_split 32 5 (OpStore 7 memory_order_release) (mkLoc 0 vc_init) (thread_new 0 0)) w (Returned (0, l, th)) ev w'.
Proof.
  set (p := atomic_run 32 5 (OpStore 7 memory_order_release) (mkLoc 0 vc_init) (thread_new 0 0)).
  assert (∃ w w' l th ev, rac_init_world (Q := SQ) = Some w ∧ vc_get (loc_clock l) 0 = 0 ∧ run 0 0 p w = (Returned (0, l, th), ev, w'))
    as (w & w' & l & th & ev & E0 & El & E).
  { destruct (rac_init_world (Q := SQ)) as [w0|] eqn:E0; [|vm_compute in E0; discriminate E0].
    exists w0. vm_compute in E0. injection E0 as <-. do 4 eexists. split; [reflexivity|]. split; [|vm_compute; reflexivity]. reflexivity. }
  exists w, w', l, th, ev. split; [exact E0|]. split; [exact El|].
  apply (atomic_op_split (cfg := small_config) w w' 0 0 5 32 (OpStore 7 memory_order_release) (mkLoc 0 vc_init) (thread_new 0 0) (Returned (0, l, th)) ev eq_refl).
  apply run_exec, E.
Defined.
End examples.
