(* ===== verification/SharedLock.v ===== *)
(** SharedLock: the contract of the exclusive locks, and the reader-writer lock
    built over it.

    [Lock] is what [MCSLock] and [CLHLock] promise: at most one call holds the
    lock, and it keeps it until it unlocks. [MCSSharedLock] and [CLHSharedLock]
    are the same code over the two: [shared_step], a step system over any [Lock]
    with the counter of readers. The counter is an [int] in the code; here it does
    not wrap around, so the model is that of fewer than 2^31 readers at a time. *)
From S2P Require Import Prelude.

(** ** The contract *)

(** What a call of a lock does: start [lock], [try_lock] or [unlock], or one
    access to the shared memory. *)
Inductive lock_act := DoLock | DoTryLock | DoUnlock | Progress.

Class Lock (L : Type) := {
  lock_init : L;
  lock_step : nat → lock_act → L → L → Prop;
  lock_holds : nat → L → Prop;
  lock_inv : L → Prop;
  lock_inv_init : lock_inv lock_init;
  lock_inv_step a i s s' : lock_inv s → lock_step a i s s' → lock_inv s';
  lock_excl a b s : lock_inv s → lock_holds a s → lock_holds b s → a = b;
  lock_keep a i b s s' :
    lock_inv s → lock_step a i s s' → lock_holds b s → (a = b → i ≠ DoUnlock) → lock_holds b s';
}.

(** ** The reader-writer lock *)

(** A client: a reader waiting for the inner lock, counted but still holding it,
    reading; a writer waiting for the lock or the readers, writing. *)
Inductive client := ReadLocking | ReadCounted | Reading | WriteLocking | Writing.
Definition counted (c : client) : bool := match c with ReadCounted | Reading => true | _ => false end.

Record SharedLock (L : Type) := mkShared { wlock : L; active_readers : Z; clients : gmap nat client }.
Arguments mkShared {L}.
Arguments wlock {L}.
Arguments active_readers {L}.
Arguments clients {L}.

Section shared.
Context {L : Type} `{!Lock L}.
Implicit Types (s : SharedLock L) (w : L) (r : Z) (m : gmap nat client) (a b : nat) (c : client).

Definition shared_init : SharedLock L := mkShared lock_init 0 ∅.

(** The calls of the inner lock go on by themselves ([sh_inner]); a client acts
    when its call of the inner lock has returned. *)
Inductive shared_step : SharedLock L → SharedLock L → Prop :=
  | sh_inner a w w' r m : lock_step a Progress w w' → shared_step (mkShared w r m) (mkShared w' r m)
  | sh_lock_shared a w w' r m :
      m !! a = None → lock_step a DoLock w w' →
      shared_step (mkShared w r m) (mkShared w' r (<[a := ReadLocking]> m))
  | sh_fetch_add a w r m :
      m !! a = Some ReadLocking → lock_holds a w →
      shared_step (mkShared w r m) (mkShared w (r + 1) (<[a := ReadCounted]> m))
  | sh_reading a w w' r m :
      m !! a = Some ReadCounted → lock_step a DoUnlock w w' →
      shared_step (mkShared w r m) (mkShared w' r (<[a := Reading]> m))
  | sh_unlock_shared a w r m :
      m !! a = Some Reading → shared_step (mkShared w r m) (mkShared w (r - 1) (delete a m))
  | sh_lock a w w' r m :
      m !! a = None → lock_step a DoLock w w' →
      shared_step (mkShared w r m) (mkShared w' r (<[a := WriteLocking]> m))
  | sh_writing a w r m :
      (* the loop over [active_readers.load() > 0] is over *)
      m !! a = Some WriteLocking → lock_holds a w → r ≤ 0 →
      shared_step (mkShared w r m) (mkShared w r (<[a := Writing]> m))
  | sh_unlock a w w' r m :
      m !! a = Some Writing → lock_step a DoUnlock w w' →
      shared_step (mkShared w r m) (mkShared w' r (delete a m)).

Definition shared_reachable s : Prop := rtc shared_step shared_init s.

(** *** Counting clients *)

Definition readers m : nat := size (filter (λ x, counted x.2 = true) m).

Lemma readers_fresh m a c : m !! a = None → readers (<[a := c]> m) = (Nat.b2n (counted c) + readers m)%nat.
Proof.
  intros Ha. unfold readers. destruct (counted c) eqn:Ec.
  - rewrite map_filter_insert_True by done. apply map_size_insert_None. by apply map_lookup_filter_None; left.
  - rewrite map_filter_insert_False by (cbn; congruence). by rewrite delete_id.
Qed.

Lemma readers_delete m a c : m !! a = Some c → readers m = (Nat.b2n (counted c) + readers (delete a m))%nat.
Proof. intros Ha. rewrite <- (insert_delete_id _ _ _ Ha) at 1. apply readers_fresh, lookup_delete_eq. Qed.

Lemma readers_update m a c c' :
  m !! a = Some c → (readers (<[a := c']> m) + Nat.b2n (counted c) = readers m + Nat.b2n (counted c'))%nat.
Proof.
  intros Ha. rewrite <- insert_delete_eq, readers_fresh by apply lookup_delete_eq. rewrite (readers_delete m a c Ha). lia.
Qed.

Lemma readers_zero m a c : readers m = 0%nat → m !! a = Some c → counted c = false.
Proof. intros Hz Ha. rewrite (readers_delete m a c Ha) in Hz. by destruct (counted c). Qed.

(** *** The invariant *)

Record shared_inv s : Prop := {
  si_lock : lock_inv (wlock s);
  si_readers : active_readers s = Z.of_nat (readers (clients s));
  si_holds a c : clients s !! a = Some c → c = ReadCounted ∨ c = Writing → lock_holds a (wlock s);
  si_writing a : clients s !! a = Some Writing → active_readers s = 0;
}.

(** The clients that hold the inner lock go on holding it. *)
Lemma holds_step w w' m a i :
  lock_inv w → lock_step a i w w' → (∀ b c, m !! b = Some c → c = ReadCounted ∨ c = Writing → lock_holds b w) →
  ∀ b c, m !! b = Some c → c = ReadCounted ∨ c = Writing → (a = b → i ≠ DoUnlock) → lock_holds b w'.
Proof. intros Hi Hs H b c Hb Hc Hne. eapply lock_keep; eauto. Qed.

Lemma shared_inv_init : shared_inv shared_init.
Proof. constructor; cbn; try done. apply lock_inv_init. Qed.

Lemma shared_step_inv s s' : shared_step s s' → shared_inv s → shared_inv s'.
Proof.
  intros Hs [Hi Hr Hh Hw]. inversion Hs as [a w w' r m Hl|a w w' r m Ha Hl|a w r m Ha Hl|a w w' r m Ha Hl|a w r m Ha
    |a w w' r m Ha Hl|a w r m Ha Hl Hz|a w w' r m Ha Hl]; subst; cbn [wlock active_readers clients] in *;
    (constructor; cbn [wlock active_readers clients]; [by eauto using lock_inv_step| | |]).
  - done.
  - intros b c Hb Hc. eapply holds_step; eauto.
  - done.
  - by rewrite readers_fresh.
  - intros b c. rewrite lookup_insert_Some. intros [[<- <-]|[_ Hb]] Hc; [by destruct Hc|]. eapply holds_step; eauto.
  - intros b. rewrite lookup_insert_Some. intros [[_ [=]]|[_ Hb]]. by eapply Hw.
  - pose proof (readers_update m a _ ReadCounted Ha). cbn in *. lia.
  - intros b c. rewrite lookup_insert_Some. intros [[<- <-]|[_ Hb]] Hc; [done|]. by eapply Hh.
  - intros b. rewrite lookup_insert_Some. intros [[_ [=]]|[Hne Hb]].
    destruct Hne. eapply lock_excl; [exact Hi|done|]. by apply (Hh b Writing); auto.
  - pose proof (readers_update m a _ Reading Ha). cbn in *. lia.
  - intros b c. rewrite lookup_insert_Some. intros [[<- <-]|[Hne Hb]] Hc; [by destruct Hc|]. by eapply holds_step; eauto.
  - intros b. rewrite lookup_insert_Some. intros [[_ [=]]|[_ Hb]]. by eapply Hw.
  - pose proof (readers_delete m a _ Ha). cbn in *. lia.
  - intros b c [_ Hb]%lookup_delete_Some Hc. by eapply Hh.
  - intros b [_ Hb]%lookup_delete_Some. pose proof (readers_delete m a _ Ha). pose proof (Hw b Hb). cbn in *. lia.
  - by rewrite readers_fresh.
  - intros b c. rewrite lookup_insert_Some. intros [[<- <-]|[_ Hb]] Hc; [by destruct Hc|]. eapply holds_step; eauto.
  - intros b. rewrite lookup_insert_Some. intros [[_ [=]]|[_ Hb]]. by eapply Hw.
  - pose proof (readers_update m a _ Writing Ha). cbn in *. lia.
  - intros b c. rewrite lookup_insert_Some. intros [[<- <-]|[_ Hb]] Hc; [done|]. by eapply Hh.
  - intros b _. lia.
  - pose proof (readers_delete m a _ Ha). cbn in *. lia.
  - intros b c [Hne Hb]%lookup_delete_Some Hc. by eapply holds_step; eauto.
  - intros b [_ Hb]%lookup_delete_Some. by eapply Hw.
Qed.

Lemma shared_reachable_inv s : shared_reachable s → shared_inv s.
Proof.
  intros Hr. assert (shared_inv shared_init) as H0 by apply shared_inv_init. unfold shared_reachable in Hr.
  induction Hr as [s | s s1 s2 Hs _ IH]; [done|]. apply IH. by eapply shared_step_inv.
Qed.

(** While a writer is past its wait, every other client is waiting. *)
Lemma writer_alone s a :
  shared_inv s → clients s !! a = Some Writing →
  ∀ b c, clients s !! b = Some c → b ≠ a → c = ReadLocking ∨ c = WriteLocking.
Proof.
  intros [Hi Hc Hh Hw] Ha b c Hb Hne.
  assert (readers (clients s) = 0%nat) as Hz by (specialize (Hw a Ha); lia).
  pose proof (readers_zero _ _ _ Hz Hb) as Hcnt. destruct c; try done; auto.
  destruct Hne. eapply lock_excl; [exact Hi|by apply (Hh b Writing); auto|by apply (Hh a Writing); auto].
Qed.
Lemma writer_excludes s a :
  shared_reachable s → clients s !! a = Some Writing →
  ∀ b c, clients s !! b = Some c → b ≠ a → c = ReadLocking ∨ c = WriteLocking.
Proof. intros Hr. apply writer_alone. by apply shared_reachable_inv. Qed.
End shared.

(** ** Properties *)

(** C24: the reader-writer lock. Over any lock that meets the contract, in every
    reachable state the counter [active_readers] is the number of clients between
    their [fetch_add] and [fetch_sub], a client that is counted but has not left
    the inner lock, or is past the writer's wait, holds the inner lock, and while
    a writer is past its wait the counter is 0 and every other client is still
    waiting for the lock. *)
Theorem shared_lock_excludes {L : Type} `{!Lock L} (s : SharedLock L) :
  shared_reachable s →
  active_readers s = Z.of_nat (readers (clients s)) ∧
  (∀ a c, clients s !! a = Some c → c = ReadCounted ∨ c = Writing → lock_holds a (wlock s)) ∧
  ∀ a, clients s !! a = Some Writing →
    active_readers s = 0 ∧ ∀ b c, clients s !! b = Some c → b ≠ a → c = ReadLocking ∨ c = WriteLocking.
Proof.
  intros Hr. pose proof (shared_reachable_inv s Hr) as [Hl Hc Hh Hw]. split; [done|]. split; [done|].
  intros a Ha. split; [by eapply Hw|by apply writer_excludes].
Qed.
