(* ===== verification/BarrierSystem.v ===== *)
(** BarrierSystem: the threads that share a [CXLBarrier] ([include/cxlSync.hpp]).

    [wait] is a sequence of operations of the three atomics of the barrier, each
    in the parts of AtomicOps: [wait_op] and [wait_next] are its control flow. A
    step of the system is an access to a location, an action of any thread of the
    machine, or the end of what a thread does between two accesses, which took
    place between two worlds of the run with any interference. Between its calls
    of [wait] a thread makes any accesses.

    The first part is about the control state and the values only, [bar_shape]. *)
From S2P Require Import Prelude Config VectorClock ClGroup LocalCLTable.
From S2P Require Import FlushUtils SpmcQueue LogManager CacheInfo Actions.
From S2P Require Import Invariant Logic ActionSpecs ThreadOps Runtime Release.
From S2P Require Import Acquire Coherence CxlSync Handover AtomicOps.

(** ** Definitions: [wait] *)

(** The operation a call of [wait] is about to do. *)
Inductive wait_pc :=
  | WaitPhase                               (* int local_phase = phase.load(acquire) *)
  | WaitArrive (local_phase : Z)            (* arrived.fetch_add(1, acq_rel) *)
  | WaitTarget (local_phase local_arrived : Z)  (* target.load(relaxed) *)
  | WaitReset                               (* arrived.store(0, relaxed) *)
  | WaitOpen                                (* phase.fetch_add(1, acq_rel) *)
  | WaitPoll (local_phase : Z)              (* phase.load(acquire) == local_phase *)
  | WaitDone.
Inductive bar_loc := Target | Arrived | Phase.

Definition wait_op (pc : wait_pc) : option (bar_loc * atomic_op) :=
  match pc with
  | WaitPhase | WaitPoll _ => Some (Phase, OpLoad memory_order_acquire)
  | WaitArrive _ => Some (Arrived, OpFetchAdd 1 memory_order_acq_rel)
  | WaitTarget _ _ => Some (Target, OpLoad memory_order_relaxed)
  | WaitReset => Some (Arrived, OpStore 0 memory_order_relaxed)
  | WaitOpen => Some (Phase, OpFetchAdd 1 memory_order_acq_rel)
  | WaitDone => None
  end.
(** Where it goes with the value the operation returns. *)
Definition wait_next (pc : wait_pc) (v : Z) : wait_pc :=
  match pc with
  | WaitPhase => WaitArrive v
  | WaitArrive local_phase => WaitTarget local_phase (v + 1)
  | WaitTarget local_phase local_arrived => if local_arrived =? v then WaitReset else WaitPoll local_phase
  | WaitReset => WaitOpen
  | WaitOpen | WaitDone => WaitDone
  | WaitPoll local_phase => if v =? local_phase then WaitPoll local_phase else WaitDone
  end.

(** ** The control state of the threads *)

(** A thread: its operation, or [None] outside [wait]; the calls that returned; the
    arrivals. [bar_shape]: the values of the atomics, the threads, how often the
    barrier was opened. *)
Record shape := mkShape { sh_pc : option wait_pc; sh_round : nat; sh_waits : nat }.
Record bar_shape := mkBarShape { sb_target : Z; sb_arrived : Z; sb_phase : Z; sb_threads : list shape; sb_opened : nat }.

Definition waiting (pc : wait_pc) : bool :=
  match pc with WaitTarget _ _ | WaitReset | WaitOpen | WaitPoll _ => true | _ => false end.
(** The thread has arrived in round [k]. *)
Definition arrived (k : nat) (t : shape) : bool :=
  match sh_pc t with Some pc => waiting pc && (sh_round t =? k)%nat | None => false end.
(** It is the one of [n] that opens the barrier. *)
Definition opener (n : Z) (t : shape) : bool :=
  match sh_pc t with Some (WaitTarget _ a) => a =? n | Some (WaitReset | WaitOpen) => true | _ => false end.
Definition arrivals (k : nat) (ts : list shape) : nat := length (filter (λ t, arrived k t = true) ts).

Definition shape_ok (n : Z) (k : nat) (t : shape) : Prop :=
  match sh_pc t with
  | None | Some WaitPhase => sh_round t = k ∧ sh_waits t = k
  | Some (WaitArrive lp) => sh_round t = k ∧ sh_waits t = k ∧ lp = to_char (Z.of_nat k)
  | Some (WaitTarget lp a) =>
      lp = to_char (Z.of_nat (sh_round t)) ∧ (sh_round t = k ∨ S (sh_round t) = k ∧ a ≠ n) ∧ sh_waits t = S (sh_round t)
  | Some (WaitReset | WaitOpen) => sh_round t = k ∧ sh_waits t = S k
  | Some (WaitPoll lp) =>
      lp = to_char (Z.of_nat (sh_round t)) ∧ (sh_round t = k ∨ S (sh_round t) = k) ∧ sh_waits t = S (sh_round t)
  | Some WaitDone => S (sh_round t) = k ∧ sh_waits t = k
  end.

Record shape_inv (s : bar_shape) : Prop := {
  bi_count : 1 ≤ Z.of_nat (length (sb_threads s)) ≤ 128;
  bi_target : sb_target s = Z.of_nat (length (sb_threads s));
  bi_phase : to_char (sb_phase s) = to_char (Z.of_nat (sb_opened s));
  bi_threads a t : sb_threads s !! a = Some t → shape_ok (sb_target s) (sb_opened s) t;
  bi_arrived : (∀ a t, sb_threads s !! a = Some t → sh_pc t ≠ Some WaitOpen) →
    sb_arrived s = Z.of_nat (arrivals (sb_opened s) (sb_threads s));
  bi_reset a t : sb_threads s !! a = Some t → sh_pc t = Some WaitOpen → sb_arrived s = 0;
  bi_full a t : sb_threads s !! a = Some t → opener (sb_target s) t = true →
    arrivals (sb_opened s) (sb_threads s) = length (sb_threads s);
  bi_opener : arrivals (sb_opened s) (sb_threads s) = length (sb_threads s) →
    ∃ a t, sb_threads s !! a = Some t ∧ opener (sb_target s) t = true;
  bi_one a b t u : sb_threads s !! a = Some t → sb_threads s !! b = Some u →
    opener (sb_target s) t = true → opener (sb_target s) u = true → a = b;
}.

(** The access of a thread: the value it returns, the values it leaves. *)
Definition shape_access (pc : wait_pc) (s : bar_shape) : Z * (Z * Z * nat) :=
  match pc with
  | WaitPhase | WaitPoll _ => (to_char (sb_phase s), (sb_arrived s, sb_phase s, sb_opened s))
  | WaitArrive _ => (to_char (sb_arrived s), (add_data 32 1 (sb_arrived s), sb_phase s, sb_opened s))
  | WaitTarget _ _ => (sb_target s, (sb_arrived s, sb_phase s, sb_opened s))
  | WaitReset => (0, (0, sb_phase s, sb_opened s))
  | WaitOpen => (to_char (sb_phase s), (sb_arrived s, add_data 32 1 (sb_phase s), S (sb_opened s)))
  | WaitDone => (0, (sb_arrived s, sb_phase s, sb_opened s))
  end.
Definition is_arrive (pc : wait_pc) : nat := match pc with WaitArrive _ => 1 | _ => 0 end.

Inductive shape_step : bar_shape → bar_shape → Prop :=
  | ss_call a t g r p ts k r' w' :
      ts !! a = Some t → t = mkShape None r' w' →
      shape_step (mkBarShape g r p ts k) (mkBarShape g r p (<[a := mkShape (Some WaitPhase) r' w']> ts) k)
  | ss_return a t g r p ts k r' w' :
      ts !! a = Some t → t = mkShape (Some WaitDone) r' w' →
      shape_step (mkBarShape g r p ts k) (mkBarShape g r p (<[a := mkShape None (S r') w']> ts) k)
  | ss_access a pc v r1 p1 k1 g r p ts k r' w' :
      ts !! a = Some (mkShape (Some pc) r' w') → pc ≠ WaitDone →
      shape_access pc (mkBarShape g r p ts k) = (v, (r1, p1, k1)) →
      shape_step (mkBarShape g r p ts k)
        (mkBarShape g r1 p1 (<[a := mkShape (Some (wait_next pc v)) r' (is_arrive pc + w')]> ts) k1).

(** ** The system *)

Definition bar_get (x : bar_loc) (b : barrier) : location :=
  match x with Target => bar_target b | Arrived => bar_arrived b | Phase => bar_phase b end.
Definition bar_set (x : bar_loc) (l : location) (b : barrier) : barrier :=
  match x with
  | Target => mkBarrier l (bar_arrived b) (bar_phase b)
  | Arrived => mkBarrier (bar_target b) l (bar_phase b)
  | Phase => mkBarrier (bar_target b) (bar_arrived b) l
  end.

Section system.
Context `{cfg : Config} {Q : Type} `{FQ : !FifoQueue Q nat LOG_COUNT}.
Implicit Types (w ws : world Q) (th : ThreadOps) (pc : wait_pc) (a k n fuel : nat) (ev : list tevent).

(** What a thread does: between two calls of [wait], making accesses since [ws],
    in what precedes an access since [ws], at the access, or in what follows it,
    on the way to the next one. *)
Inductive stage :=
  | Between th | Accessing ws th
  | Releasing pc ws th | Ready pc th | Acquiring pc (oc : option vclock) ws th.

(** A thread of node [bt_node]. Ghosts: its events since [bt_start], when its last
    release ended; the events of each earlier arrival, with the world they began
    in; how many calls of [wait] have returned. *)
Record bar_thread := mkBT {
  bt_node : nat;
  bt_stage : stage;
  bt_start : world Q;
  bt_events : list tevent;
  bt_waits : list (world Q * list tevent);
  bt_round : nat;
}.
Record bar_sys := mkBar { bs_world : world Q; bs_bar : barrier; bs_threads : list bar_thread; bs_opened : nat }.

Inductive bar_local a w : bar_thread → bar_thread → Prop :=
  | bl_access n th s0 ev wts r : bar_local a w (mkBT n (Between th) s0 ev wts r) (mkBT n (Accessing w th) s0 ev wts r)
  | bl_accessed n ws th th' s0 ev ev' wts r fuel acc :
      Forall access_ok acc → exec n a (rac_accesses fuel acc th) ws (Returned th') ev' w →
      bar_local a w (mkBT n (Accessing ws th) s0 ev wts r) (mkBT n (Between th') s0 (ev ++ ev') wts r)
  | bl_wait n th s0 ev wts r : bar_local a w (mkBT n (Between th) s0 ev wts r) (mkBT n (Releasing WaitPhase w th) s0 ev wts r)
  | bl_before n pc x op ws th th' s0 ev ev' wts r fuel :
      wait_op pc = Some (x, op) → exec n a (op_before fuel op th) ws (Returned th') ev' w →
      bar_local a w (mkBT n (Releasing pc ws th) s0 ev wts r) (mkBT n (Ready pc th') s0 (ev ++ ev') wts r)
  | bl_after n pc oc ws th th' s0 ev ev' wts r fuel :
      pc ≠ WaitDone → exec n a (op_after fuel oc th) ws (Returned th') ev' w →
      bar_local a w (mkBT n (Acquiring pc oc ws th) s0 ev wts r) (mkBT n (Releasing pc w th') s0 (ev ++ ev') wts r)
  | bl_return n oc ws th th' s0 ev ev' wts r fuel :
      exec n a (op_after fuel oc th) ws (Returned th') ev' w →
      bar_local a w (mkBT n (Acquiring WaitDone oc ws th) s0 ev wts r) (mkBT n (Between th') s0 (ev ++ ev') wts (S r)).

(** The thread after the access of [pc] returned [v] and the clock [oc]: a release
    before it closed the account of its stores. *)
Definition accessed w pc op (v : Z) (oc : option vclock) th (t : bar_thread) : bar_thread :=
  mkBT (bt_node t) (Acquiring (wait_next pc v) oc w th)
    (if op_releases op then w else bt_start t) (if op_releases op then [] else bt_events t)
    (match pc with WaitArrive _ => bt_waits t ++ [(bt_start t, bt_events t)] | _ => bt_waits t end) (bt_round t).

Inductive bar_step : bar_sys → bar_sys → Prop :=
  | bt_world w w' b ts k : any_step w w' → bar_step (mkBar w b ts k) (mkBar w' b ts k)
  | bt_local a t t' w b ts k :
      ts !! a = Some t → bar_local a w t t' → bar_step (mkBar w b ts k) (mkBar w b (<[a := t']> ts) k)
  | bt_access a t pc th x op v l oc w b ts k :
      ts !! a = Some t → bt_stage t = Ready pc th → wait_op pc = Some (x, op) →
      op_access 32 op (bar_get x b) th = (v, l, oc) →
      bar_step (mkBar w b ts k)
        (mkBar w (bar_set x l b) (<[a := accessed w pc op v oc th t]> ts) (match pc with WaitOpen => S k | _ => k end)).

(** The threads, each with its node and its state, and a barrier for all of them. *)
Definition bar_fresh w (x : nat * ThreadOps) : bar_thread := mkBT x.1 (Between x.2) w [] [] 0.
Definition bar_init w (b : barrier) (ths : list (nat * ThreadOps)) : bar_sys := mkBar w b (map (bar_fresh w) ths) 0.
Definition bar_start_ok w (b : barrier) (ths : list (nat * ThreadOps)) : Prop :=
  world_reachable w ∧ 1 ≤ Z.of_nat (length ths) ≤ 128 ∧
  atomic_data (bar_target b) = Z.of_nat (length ths) ∧ atomic_data (bar_arrived b) = 0 ∧ atomic_data (bar_phase b) = 0 ∧
  (∀ x, clock_valid (loc_clock (bar_get x b)) w) ∧
  Forall (λ '(n, th), (n < NODE_COUNT)%nat ∧ thread_ok n th ∧ clock_valid (thread_clock th) w) ths.
Definition bar_reachable s : Prop :=
  ∃ w b ths, bar_start_ok w b ths ∧ rtc bar_step (bar_init w b ths) s.

(** Its control state. *)
Definition stage_pc (st : stage) : option wait_pc :=
  match st with Between _ | Accessing _ _ => None | Releasing pc _ _ | Ready pc _ | Acquiring pc _ _ _ => Some pc end.
Definition shape_of (t : bar_thread) : shape := mkShape (stage_pc (bt_stage t)) (bt_round t) (length (bt_waits t)).
Definition bar_shape_of s : bar_shape :=
  let b := bs_bar s in
  mkBarShape (atomic_data (bar_target b)) (atomic_data (bar_arrived b)) (atomic_data (bar_phase b))
    (map shape_of (bs_threads s)) (bs_opened s).

(** *** The invariant of the clocks *)

(** The accounts of all arrivals, and that the [k]-th of each thread is committed
    below [c]. *)
Definition ledger (ts : list bar_thread) : list (nat * list (world Q * list tevent)) := map (λ t, (bt_node t, bt_waits t)) ts.
Definition all_handed (c : vclock) k (L : list (nat * list (world Q * list tevent))) w : Prop :=
  ∀ a n segs ws tr, L !! a = Some (n, segs) → segs !! k = Some (ws, tr) → handed_out n ws c tr w.

Definition stage_ok n (s0 : world Q) ev (L : list (nat * list (world Q * list tevent))) (opens : bool) K (st : stage) w : Prop :=
  match st with
  | Between th => thread_ok n th ∧ noted th ev ∧ session n s0 th ev w
  | Accessing ws th => world_ok ws ∧ grows ws w ∧ thread_ok n th ∧ noted th ev ∧ session n s0 th ev ws
  | Releasing pc ws th =>
      world_ok ws ∧ grows ws w ∧ thread_ok n th ∧ noted th ev ∧ session n s0 th ev ws ∧
      (opens = true → ∀ k, all_handed (thread_clock th) k L w)
  | Ready pc th =>
      thread_ok n th ∧ clock_valid (thread_clock th) w ∧
      (∀ x op, wait_op pc = Some (x, op) →
         if op_releases op then handed_out n s0 (thread_clock th) ev w else noted th ev ∧ session n s0 th ev w) ∧
      (opens = true → ∀ k, all_handed (thread_clock th) k L w)
  | Acquiring pc oc ws th =>
      world_ok ws ∧ grows ws w ∧ thread_ok n th ∧ noted th ev ∧ session n s0 th ev ws ∧ clocks_valid oc ws ∧
      (opens = true → ∀ k, all_handed (default (thread_clock th) oc) k L w) ∧
      (pc = WaitDone → ∃ c, oc = Some c ∧ ∀ k, (k < K)%nat → all_handed c k L w)
  end.

Record bar_inv s : Prop := {
  ba_world : world_ok (bs_world s);
  ba_shape : shape_inv (bar_shape_of s);
  ba_node a t : bs_threads s !! a = Some t → (bt_node t < NODE_COUNT)%nat ∧ world_ok (bt_start t) ∧ Forall (λ x, world_ok x.1) (bt_waits t);
  ba_stage a t : bs_threads s !! a = Some t →
    stage_ok (bt_node t) (bt_start t) (bt_events t) (ledger (bs_threads s))
      (opener (atomic_data (bar_target (bs_bar s))) (shape_of t)) (bs_opened s) (bt_stage t) (bs_world s);
  ba_valid x : clock_valid (loc_clock (bar_get x (bs_bar s))) (bs_world s);
  ba_arrived k : all_handed (loc_clock (bar_arrived (bs_bar s))) k (ledger (bs_threads s)) (bs_world s);
  ba_phase k : (k < bs_opened s)%nat → all_handed (loc_clock (bar_phase (bs_bar s))) k (ledger (bs_threads s)) (bs_world s);
  ba_visible a b t u k ws tr l :
    bs_threads s !! a = Some t → bs_threads s !! b = Some u → (k < bt_round u)%nat → bt_waits t !! k = Some (ws, tr) →
    bt_node t ≠ bt_node u → nhc_line l → EvStore l ∈ tr → made_visible (bt_node t) (bt_node u) ws tr l (bs_world s);
}.
End system.

(** ** Lemmas: values *)

Lemma to_char_mod x y : to_char x = to_char y ↔ x mod 256 = y mod 256.
Proof.
  unfold to_char, wrap. change (2 ^ 8) with 256. change (2 ^ 7) with 128.
  pose proof (Z.mod_pos_bound x 256). pose proof (Z.mod_pos_bound y 256).
  destruct (Z.ltb_spec (x mod 256) 128), (Z.ltb_spec (y mod 256) 128); lia.
Qed.
Lemma to_char_small x : 0 ≤ x < 128 → to_char x = x.
Proof. intros H. unfold to_char. rewrite wrap_small by (split; lia). destruct (Z.ltb_spec x (2 ^ 7)); lia. Qed.
Lemma to_char_next x y : to_char x = to_char y → to_char (add_data 32 1 x) = to_char (y + 1).
Proof.
  rewrite !to_char_mod. intros H. unfold add_data, wrap. change (2 ^ 32) with (16777216 * 256).
  destruct (Z.ltb_spec ((x + 1) mod (16777216 * 256)) (2 ^ (32 - 1))); divlia.
Qed.
Lemma to_char_succ x : to_char (x + 1) ≠ to_char x.
Proof. rewrite to_char_mod. divlia. Qed.

(** ** Lemmas: counting *)

Section counting.
Implicit Types (ts : list shape) (t : shape) (a k : nat).

Lemma arrivals_insert k ts a t t' :
  ts !! a = Some t →
  (arrivals k (<[a := t']> ts) + Nat.b2n (arrived k t) = arrivals k ts + Nat.b2n (arrived k t'))%nat.
Proof.
  intros Ha. rewrite insert_take_drop by (by eapply lookup_lt_Some). rewrite <- (take_drop_middle ts a t Ha) at 3.
  unfold arrivals. rewrite !filter_app, !filter_cons, !length_app.
  destruct (decide (arrived k t = true)) as [->|H1%not_true_is_false], (decide (arrived k t' = true)) as [->|H2%not_true_is_false];
    rewrite ?H1, ?H2; cbn; lia.
Qed.
Lemma arrivals_le k ts : (arrivals k ts ≤ length ts)%nat.
Proof. apply length_filter. Qed.
Lemma arrivals_full k ts : arrivals k ts = length ts ↔ ∀ a t, ts !! a = Some t → arrived k t = true.
Proof.
  unfold arrivals. induction ts as [|u ts IH]; [by split|]. rewrite filter_cons. split.
  - destruct (decide _) as [Hu|]; cbn; [|pose proof (arrivals_le k ts); unfold arrivals in *; lia].
    intros [= H] [|a] t; cbn; [by intros [= <-]|]. by apply IH.
  - intros H. rewrite decide_True by (by apply (H 0%nat)). cbn. f_equal. apply IH. intros a t Ha. by apply (H (S a)).
Qed.
Lemma arrivals_lt k ts a t : ts !! a = Some t → arrived k t = false → (arrivals k ts < length ts)%nat.
Proof.
  intros Ha Ht. pose proof (arrivals_le k ts). destruct (decide (arrivals k ts = length ts)) as [Hf|]; [|lia].
  rewrite arrivals_full in Hf. specialize (Hf a t Ha). congruence.
Qed.
Lemma arrivals_none k ts : (∀ a t, ts !! a = Some t → arrived k t = false) → arrivals k ts = 0%nat.
Proof.
  intros H. unfold arrivals. induction ts as [|u ts IH]; [done|]. rewrite filter_cons, decide_False by (by rewrite (H 0%nat u)).
  apply IH. intros a t Ha. by apply (H (S a)).
Qed.
Lemma arrived_round k t : arrived k t = true → sh_round t = k ∧ ∃ pc, sh_pc t = Some pc ∧ waiting pc = true.
Proof. unfold arrived. destruct (sh_pc t) as [pc|]; [|done]. intros [H1 H2%Nat.eqb_eq]%andb_prop. eauto. Qed.
End counting.

(** ** Lemmas: the control state *)

Section shapes.
Implicit Types (s : bar_shape) (t : shape) (ts : list shape) (a b k : nat) (pc : wait_pc).

(** What the other threads have when one has opened the barrier, or will. *)
Lemma opener_arrived s a t :
  shape_inv s → sb_threads s !! a = Some t → opener (sb_target s) t = true → ∀ b u, sb_threads s !! b = Some u → arrived (sb_opened s) u = true.
Proof. intros Hi Ha Ho. apply arrivals_full. by eapply bi_full. Qed.

(** A step of a thread that keeps its part in the counts. *)
Lemma shape_quiet g r p ts k a t t' :
  shape_inv (mkBarShape g r p ts k) → ts !! a = Some t → arrived k t' = arrived k t → opener g t' = opener g t →
  sh_pc t ≠ Some WaitOpen → sh_pc t' ≠ Some WaitOpen → shape_ok g k t' →
  shape_inv (mkBarShape g r p (<[a := t']> ts) k).
Proof.
  intros [H1 H2 H3 H4 H5 H6 H7 H8 H9] Ha Harr Hop Hn Hn' Hok; cbn [sb_target sb_arrived sb_phase sb_threads sb_opened] in *.
  assert (arrivals k (<[a := t']> ts) = arrivals k ts) as Hcnt.
  { pose proof (arrivals_insert k ts a t t' Ha) as H. rewrite Harr in H. lia. }
  constructor; cbn [sb_target sb_arrived sb_phase sb_threads sb_opened]; rewrite ?length_insert, ?Hcnt; try done.
  - intros b u [(<- & <- & _)|[_ Hb]]%list_lookup_insert_Some; [done|by eapply H4].
  - intros H. apply H5. intros b u Hb. destruct (decide (a = b)) as [<-|Hne]; [congruence|].
    apply (H b). by rewrite list_lookup_insert_ne.
  - intros b u [(<- & <- & _)|[_ Hb]]%list_lookup_insert_Some; [done|by eapply H6].
  - intros b u [(<- & <- & _)|[_ Hb]]%list_lookup_insert_Some; [rewrite Hop; by apply (H7 a)|by eapply H7].
  - intros Hf. destruct (H8 Hf) as (b & u & Hb & Hu). destruct (decide (a = b)) as [<-|Hne].
    + exists a, t'. rewrite list_lookup_insert_eq by (by eapply lookup_lt_Some). split; [done|]. congruence.
    + exists b, u. by rewrite list_lookup_insert_ne.
  - intros b c u v [(<- & <- & _)|[Hne Hb]]%list_lookup_insert_Some [(<- & <- & _)|[Hne' Hc]]%list_lookup_insert_Some;
      rewrite ?Hop; intros Hu Hv; [done|by eapply (H9 _ _ t v)|by eapply (H9 _ _ u t)|by eapply (H9 _ _ u v)].
Qed.

Lemma shape_arrive g r p ts k a w' lp :
  shape_inv (mkBarShape g r p ts k) → ts !! a = Some (mkShape (Some (WaitArrive lp)) k w') →
  0 ≤ r < 128 ∧ r = Z.of_nat (arrivals k ts) ∧
  shape_inv (mkBarShape g (r + 1) p (<[a := mkShape (Some (WaitTarget lp (r + 1))) k (S w')]> ts) k).
Proof.
  intros Hi Ha. set (t := mkShape (Some (WaitArrive lp)) k w') in *.
  set (t' := mkShape (Some (WaitTarget lp (r + 1))) k (S w')).
  assert (arrived k t = false) as Hna by done.
  assert (arrived k t' = true) as Har by (unfold arrived, t'; cbn; by rewrite Nat.eqb_refl).
  assert (∀ b u, ts !! b = Some u → opener g u = true → False) as Hno.
  { intros b u Hb Hu. pose proof (opener_arrived _ b u Hi Hb Hu a t Ha). cbn in *. congruence. }
  destruct (bi_threads _ Hi a t Ha) as (_ & Hw & Hlp). cbn [sh_waits t] in Hw.
  pose proof (arrivals_lt k ts a t Ha Hna). pose proof (arrivals_insert k ts a t t' Ha) as Hcnt. rewrite Hna, Har in Hcnt. cbn in Hcnt.
  destruct Hi as [H1 H2 H3 H4 H5 H6 H7 H8 H9]; cbn [sb_target sb_arrived sb_phase sb_threads sb_opened] in *.
  assert (r = Z.of_nat (arrivals k ts)) as Hr.
  { apply H5. intros b u Hb Hu. destruct (Hno b u Hb). unfold opener. by rewrite Hu. }
  split; [lia|]. split; [done|].
  assert (opener g t' = bool_decide (arrivals k ts + 1 = length ts)%nat) as Hop.
  { unfold opener, t'. cbn. destruct (Z.eqb_spec (r + 1) g), (bool_decide_reflect (arrivals k ts + 1 = length ts)%nat); lia. }
  assert (a < length ts)%nat as Hlt by (by eapply lookup_lt_Some).
  constructor; cbn [sb_target sb_arrived sb_phase sb_threads sb_opened]; rewrite ?length_insert; try done.
  - intros b u [(<- & <- & _)|[_ Hb]]%list_lookup_insert_Some; [|by eapply H4].
    split; [done|]. split; [by left|]. cbn. by rewrite Hw.
  - intros _. lia.
  - intros b u [(<- & <- & _)|[_ Hb]]%list_lookup_insert_Some Hu; [done|]. destruct (Hno b u Hb). unfold opener. by rewrite Hu.
  - intros b u [(<- & <- & _)|[_ Hb]]%list_lookup_insert_Some Hu; [|by destruct (Hno b u Hb)].
    rewrite Hop in Hu. apply bool_decide_eq_true in Hu. lia.
  - intros Hf. exists a, t'. rewrite list_lookup_insert_eq by done. split; [done|]. rewrite Hop. apply bool_decide_eq_true. lia.
  - intros b c u v [(<- & <- & _)|[_ Hb]]%list_lookup_insert_Some [(<- & <- & _)|[_ Hc]]%list_lookup_insert_Some Hu Hv;
      [done|by destruct (Hno c v Hc)|by destruct (Hno b u Hb)|by destruct (Hno b u Hb)].
Qed.

Lemma shape_reset g r p ts k a w' :
  shape_inv (mkBarShape g r p ts k) → ts !! a = Some (mkShape (Some WaitReset) k w') →
  shape_inv (mkBarShape g 0 p (<[a := mkShape (Some WaitOpen) k w']> ts) k).
Proof.
  intros Hi Ha. set (t := mkShape (Some WaitReset) k w') in *. set (t' := mkShape (Some WaitOpen) k w').
  pose proof (arrivals_insert k ts a t t' Ha) as Hcnt. unfold arrived, t, t' in Hcnt. cbn in Hcnt.
  destruct (bi_threads _ Hi a t Ha) as [_ Hw]. cbn [sh_waits t] in Hw.
  destruct Hi as [H1 H2 H3 H4 H5 H6 H7 H8 H9]; cbn [sb_target sb_arrived sb_phase sb_threads sb_opened] in *.
  assert (arrivals k (<[a := t']> ts) = length ts) as Hfull by (specialize (H7 a t Ha eq_refl); unfold t'; lia).
  assert (a < length ts)%nat as Hlt by (by eapply lookup_lt_Some).
  constructor; cbn [sb_target sb_arrived sb_phase sb_threads sb_opened]; rewrite ?length_insert; try done.
  - intros b u [(<- & <- & _)|[_ Hb]]%list_lookup_insert_Some; [done|by eapply H4].
  - intros H. destruct (H a t'); [by rewrite list_lookup_insert_eq|done].
  - intros _. exists a, t'. by rewrite list_lookup_insert_eq.
  - intros b c u v [(<- & <- & _)|[_ Hb]]%list_lookup_insert_Some [(<- & <- & _)|[_ Hc]]%list_lookup_insert_Some Hu Hv;
      [done|by apply (H9 a c t v)|by apply (H9 b a u t)|by apply (H9 b c u v)].
Qed.

Lemma shape_open g r p ts k a w' :
  shape_inv (mkBarShape g r p ts k) → ts !! a = Some (mkShape (Some WaitOpen) k w') →
  shape_inv (mkBarShape g r (add_data 32 1 p) (<[a := mkShape (Some WaitDone) k w']> ts) (S k)).
Proof.
  intros Hi Ha. set (t := mkShape (Some WaitOpen) k w') in *. set (t' := mkShape (Some WaitDone) k w').
  pose proof (opener_arrived _ a t Hi Ha eq_refl) as Harr. cbn [sb_threads sb_opened] in Harr.
  destruct (bi_threads _ Hi a t Ha) as [_ Hw]. cbn [sh_waits t] in Hw. pose proof (bi_reset _ Hi a t Ha eq_refl) as Hr0.
  destruct Hi as [H1 H2 H3 H4 H5 H6 H7 H8 H9]; cbn [sb_target sb_arrived sb_phase sb_threads sb_opened] in *.
  assert (∀ b u, <[a := t']> ts !! b = Some u → shape_ok g (S k) u ∧ arrived (S k) u = false ∧ opener g u = false) as Hnew.
  { intros b u [(<- & <- & _)|[Hne Hb]]%list_lookup_insert_Some; [done|].
    destruct (arrived_round k u (Harr b u Hb)) as (Hk & pc & Hpc & Hwt). pose proof (H4 b u Hb) as Hok.
    assert (opener g u = false) as Hno by (apply not_true_is_false; intros Hu; by destruct Hne; apply (H9 a b t u)).
    assert (arrived (S k) u = false) as -> by (unfold arrived; rewrite Hpc, Hk; destruct (Nat.eqb_spec k (S k)); [lia|apply andb_false_r]).
    split; [|done]. unfold shape_ok, opener in *. rewrite Hpc in *. destruct pc; try done.
    - destruct Hok as (? & _ & ?). split; [done|]. split; [|done]. right. split; [lia|]. by apply Z.eqb_neq.
    - destruct Hok as (? & _ & ?). split; [done|]. split; [|done]. right. lia. }
  assert (arrivals (S k) (<[a := t']> ts) = 0%nat) as H0 by (apply arrivals_none; intros b u Hb; by apply (Hnew b u Hb)).
  constructor; cbn [sb_target sb_arrived sb_phase sb_threads sb_opened]; rewrite ?length_insert, ?H0; try done.
  - rewrite Nat2Z.inj_succ. by apply to_char_next.
  - intros b u Hb. by apply (Hnew b u Hb).
  - intros b u Hb Hu. destruct (Hnew b u Hb) as (_ & _ & Hno). congruence.
  - lia.
  - intros b c u v Hb _ Hu. destruct (Hnew b u Hb) as (_ & _ & Hno). congruence.
Qed.

Lemma shape_step_inv s s' : shape_inv s → shape_step s s' → shape_inv s'.
Proof.
  intros Hi Hst. destruct Hst as [a t g r p ts k r' w' Ha ->|a t g r p ts k r' w' Ha ->|a pc v r1 p1 k1 g r p ts k r' w' Ha Hne Hacc].
  - apply (shape_quiet _ _ _ _ _ a _ _ Hi Ha); try done. exact (bi_threads _ Hi a _ Ha).
  - pose proof (bi_threads _ Hi a _ Ha) as Hok. apply (shape_quiet _ _ _ _ _ a _ _ Hi Ha); done.
  - pose proof (bi_threads _ Hi a _ Ha) as Hok. cbn [sb_target sb_opened] in Hok. pose proof (bi_phase _ Hi) as Hph. cbn in Hph.
    destruct pc as [|lp|lp la| | |lp|]; cbn in Hok, Hacc; injection Hacc as <- <- <- <-; cbn [wait_next is_arrive Nat.add]; try done.
    + apply (shape_quiet _ _ _ _ _ a _ _ Hi Ha); try done. destruct Hok as [-> ->]. done.
    + destruct Hok as (-> & -> & _). destruct (shape_arrive _ _ _ _ _ _ _ _ Hi Ha) as (Hb & Hr & Hi').
      pose proof (bi_count _ Hi) as Hc. cbn in Hc.
      assert (add_data 32 1 r = r + 1) as ->.
      { unfold add_data. rewrite wrap_small by (split; lia). destruct (Z.ltb_spec (r + 1) (2 ^ (32 - 1))); lia. }
      by rewrite to_char_small.
    + destruct Hok as (Hlp & Hr & Hw). destruct (Z.eqb_spec la g) as [->|Hg].
      * assert (r' = k) as -> by (destruct Hr as [?|[_ ?]]; done).
        apply (shape_quiet _ _ _ _ _ a _ _ Hi Ha); try done. unfold opener. cbn. by rewrite Z.eqb_refl.
      * apply (shape_quiet _ _ _ _ _ a _ _ Hi Ha); try done; [by unfold opener; cbn; apply Z.eqb_neq in Hg as ->|].
        split; [done|]. split; [|done]. cbn. naive_solver.
    + destruct Hok as [-> ->]. by eapply shape_reset.
    + destruct Hok as [-> ->]. by apply shape_open.
    + destruct Hok as (Hlp & Hr & Hw). destruct (Z.eqb_spec (to_char p) lp) as [_|Hne'].
      * by apply (shape_quiet _ _ _ _ _ a _ _ Hi Ha).
      * assert (r' ≠ k) as Hrk by (intros ->; congruence).
        apply (shape_quiet _ _ _ _ _ a _ _ Hi Ha); try done; [unfold arrived; cbn; by apply Nat.eqb_neq in Hrk as ->|].
        split; [naive_solver|]. cbn in *. lia.
Qed.
End shapes.

(** ** Lemmas: the control state of the system *)

Section simulation.
Context `{cfg : Config} {Q : Type} `{FQ : !FifoQueue Q nat LOG_COUNT}.
Implicit Types (s : bar_sys (Q := Q)) (t u : bar_thread (Q := Q)) (a b k : nat).

Lemma shape_lookup (ts : list (bar_thread (Q := Q))) a t : ts !! a = Some t → map shape_of ts !! a = Some (shape_of t).
Proof. intros H. by rewrite list_lookup_fmap, H. Qed.

Lemma local_shape a w t t' :
  bar_local a w t t' → shape_of t' = shape_of t ∨
  (∃ r wt, shape_of t = mkShape None r wt ∧ shape_of t' = mkShape (Some WaitPhase) r wt) ∨
  (∃ r wt, shape_of t = mkShape (Some WaitDone) r wt ∧ shape_of t' = mkShape None (S r) wt).
Proof. destruct 1; unfold shape_of; cbn; eauto 10. Qed.

(** The accesses of [wait]. *)
Lemma wait_access pc x op (b : barrier) th v l oc :
  wait_op pc = Some (x, op) → op_access 32 op (bar_get x b) th = (v, l, oc) →
  match pc with
  | WaitPhase | WaitPoll _ =>
      op_releases op = false ∧ v = to_char (atomic_data (bar_phase b)) ∧ bar_set x l b = b ∧ oc = Some (loc_clock (bar_phase b))
  | WaitArrive _ => let c := merge (thread_clock th) (loc_clock (bar_arrived b)) in
      op_releases op = true ∧ v = to_char (atomic_data (bar_arrived b)) ∧ oc = Some c ∧
      bar_set x l b = mkBarrier (bar_target b) (mkLoc (add_data 32 1 (atomic_data (bar_arrived b))) c) (bar_phase b)
  | WaitTarget _ _ => op_releases op = false ∧ v = atomic_data (bar_target b) ∧ bar_set x l b = b ∧ oc = None
  | WaitReset =>
      op_releases op = false ∧ v = 0 ∧ oc = None ∧
      bar_set x l b = mkBarrier (bar_target b) (mkLoc 0 (loc_clock (bar_arrived b))) (bar_phase b)
  | WaitOpen => let c := merge (thread_clock th) (loc_clock (bar_phase b)) in
      op_releases op = true ∧ v = to_char (atomic_data (bar_phase b)) ∧ oc = Some c ∧
      bar_set x l b = mkBarrier (bar_target b) (bar_arrived b) (mkLoc (add_data 32 1 (atomic_data (bar_phase b))) c)
  | WaitDone => False
  end.
Proof. destruct b as [g r p], pc; cbn; try done; intros [= <- <-] [= <- <- <-]; done. Qed.

Lemma bar_step_shape s s' : bar_step s s' → rtc shape_step (bar_shape_of s) (bar_shape_of s').
Proof.
  destruct 1 as [w w' b ts k Hs|a t t' w b ts k Ha Hl|a t pc th x op v l oc w b ts k Ha Hst Hop Hacc]; [done| |].
  - unfold bar_shape_of. cbn [bs_bar bs_threads bs_opened]. rewrite list_fmap_insert. pose proof (shape_lookup ts a t Ha) as Hsh.
    destruct (local_shape a w t t' Hl) as [->|[(r & wt & Ht & ->)|(r & wt & Ht & ->)]].
    + rewrite list_insert_id; [apply rtc_refl|done].
    + apply rtc_once. rewrite Ht in Hsh. by eapply ss_call.
    + apply rtc_once. rewrite Ht in Hsh. by eapply ss_return.
  - apply rtc_once. unfold bar_shape_of. cbn [bs_bar bs_threads bs_opened]. rewrite list_fmap_insert.
    assert (shape_of t = mkShape (Some pc) (bt_round t) (length (bt_waits t))) as Hsht by (unfold shape_of; by rewrite Hst).
    pose proof (shape_lookup ts a t Ha) as Hsh. rewrite Hsht in Hsh.
    set (g := atomic_data (bar_target b)) in *. set (r := atomic_data (bar_arrived b)) in *. set (p := atomic_data (bar_phase b)) in *.
    assert (∃ r1 p1, shape_access pc (mkBarShape g r p (map shape_of ts) k) = (v, (r1, p1, match pc with WaitOpen => S k | _ => k end)) ∧
      atomic_data (bar_target (bar_set x l b)) = g ∧ atomic_data (bar_arrived (bar_set x l b)) = r1 ∧
      atomic_data (bar_phase (bar_set x l b)) = p1) as (r1 & p1 & Hsa & -> & -> & ->).
    { pose proof (wait_access pc x op b th v l oc Hop Hacc) as Hw.
      destruct pc; try done; [destruct Hw as (_ & -> & -> & _)|destruct Hw as (_ & -> & _ & ->)|destruct Hw as (_ & -> & -> & _)
        |destruct Hw as (_ & -> & _ & ->)|destruct Hw as (_ & -> & _ & ->)|destruct Hw as (_ & -> & -> & _)]; eexists _, _; done. }
    assert (shape_of (accessed w pc op v oc th t) =
      mkShape (Some (wait_next pc v)) (bt_round t) (is_arrive pc + length (bt_waits t))) as ->.
    { unfold shape_of, accessed. cbn. f_equal. destruct pc; cbn; try done. rewrite length_app. cbn. lia. }
    eapply ss_access; [exact Hsh| |exact Hsa]. by intros ->.
Qed.

Lemma shape_steps_inv sh sh' : rtc shape_step sh sh' → shape_inv sh → shape_inv sh'.
Proof. induction 1 as [|sh sh1 sh2 Hs _ IH]; [done|]. intros Hi. apply IH. by eapply shape_step_inv. Qed.

Lemma bar_round_le s a t : shape_inv (bar_shape_of s) → bs_threads s !! a = Some t → (bt_round t ≤ bs_opened s)%nat.
Proof.
  intros Hi Ha. pose proof (bi_threads _ Hi a _ (shape_lookup _ _ _ Ha)) as Hok. unfold shape_ok in Hok.
  cbn [bar_shape_of sb_opened sh_round shape_of sh_pc] in Hok.
  destruct (stage_pc (bt_stage t)) as [[]|]; cbn in Hok; naive_solver lia.
Qed.
End simulation.

(** ** Lemmas: the clocks *)

Section clocks.
Context `{cfg : Config} {ok : ConfigOk cfg} {EB : EagerBuild cfg} {DB : DirectBuild cfg}
  {Q : Type} `{FQ : !FifoQueue Q nat LOG_COUNT}.
Implicit Types (s : bar_sys (Q := Q)) (t u : bar_thread (Q := Q)) (a b k n : nat) (w ws : world Q) (c : vclock)
  (ev tr : list tevent) (th : ThreadOps).
Abbreviation ledger_t := (list (nat * list (world Q * list tevent))).

Lemma all_handed_persistent c k (L : ledger_t) : persistent (all_handed c k L).
Proof. intros w w' Hg H a n segs ws tr H1 H2. eapply handed_out_persistent; [exact Hg|by eapply H]. Qed.
Lemma all_handed_le c c' k (L : ledger_t) w : all_handed c k L w → clock_le c c' → all_handed c' k L w.
Proof. intros H Hle a n segs ws tr H1 H2. eapply handed_out_le; [by eapply H|exact Hle]. Qed.
Lemma clocks_valid_persistent (oc : option vclock) : persistent (clocks_valid (Q := Q) oc).
Proof. intros w w' Hg H c Hc. eapply clock_valid_persistent; [exact Hg|by apply H]. Qed.

(** An arrival adds an account after the earlier ones. *)
Lemma all_handed_app c k (L : ledger_t) w a n segs x :
  L !! a = Some (n, segs) → all_handed c k L w → (k = length segs → handed_out n x.1 c x.2 w) →
  all_handed c k (<[a := (n, segs ++ [x])]> L) w.
Proof.
  intros Ha H Hx b n' segs' ws tr [(<- & [= <- <-] & _)|[Hne Hb]]%list_lookup_insert_Some Hk; [|by eapply H].
  apply lookup_snoc_Some in Hk as [[_ Hk]|[-> ->]]; [by eapply H|by apply Hx].
Qed.

Lemma stage_ok_persistent n (s0 : world Q) ev (L : ledger_t) o K st : persistent (stage_ok n s0 ev L o K st).
Proof.
  intros w w' Hg. assert (∀ c k, all_handed c k L w → all_handed c k L w') as Hah by (intros; by eapply all_handed_persistent).
  destruct st as [th|ws th|pc ws th|pc th|pc oc ws th]; cbn.
  - intros (H1 & H2 & H3). split; [done|]. split; [done|]. by eapply session_persistent.
  - intros (H1 & H2 & H3). split; [done|]. split; [by eapply grows_persistent|done].
  - intros (H1 & H2 & H3 & H4 & H5 & H6). split; [done|]. split; [by eapply grows_persistent|]. eauto 10.
  - intros (H1 & H2 & H3 & H4). split; [done|]. split; [by eapply clock_valid_persistent|]. split; [|eauto].
    intros x op Hop. specialize (H3 x op Hop). destruct (op_releases op); [by eapply handed_out_persistent|].
    split; [apply H3|]. by eapply session_persistent; [|apply H3].
  - intros (H1 & H2 & H3 & H4 & H5 & H6 & H7 & H8). split; [done|]. split; [by eapply grows_persistent|].
    do 4 (split; [done|]). split; [eauto|]. intros Hpc. destruct (H8 Hpc) as (c & Hc & Hk). exists c. eauto.
Qed.

Lemma bar_inv_world w w' (b : barrier) ts k : any_step w w' → bar_inv (mkBar w b ts k) → bar_inv (mkBar w' b ts k).
Proof.
  intros Hs [H1 H2 H3 H4 H5 H6 H7 H8]; cbn [bs_world bs_bar bs_threads bs_opened] in *. destruct (any_step_ok w w' H1 Hs) as [Hw' Hg].
  constructor; cbn [bs_world bs_bar bs_threads bs_opened]; try done.
  - intros a t Ha. eapply stage_ok_persistent; [exact Hg|by apply (H4 a)].
  - intros x. by eapply clock_valid_persistent.
  - intros i. by eapply all_handed_persistent.
  - intros i Hi. eapply all_handed_persistent; [exact Hg|by apply H7].
  - intros a c t u i ws tr l Ha Hc Hi Hk Hne Hl Hin. apply (made_visible_persistent _ _ _ _ _ w); [by eapply (H8 a c t u)|exact Hg].
Qed.

(** What a thread does by itself keeps its part of the invariant. *)
Lemma local_stage_ok a w t t' (L : ledger_t) g K :
  bar_local a w t t' → (bt_node t < NODE_COUNT)%nat → world_ok w →
  (stage_pc (bt_stage t) = Some WaitDone → S (bt_round t) = K) →
  stage_ok (bt_node t) (bt_start t) (bt_events t) L (opener g (shape_of t)) K (bt_stage t) w →
  stage_ok (bt_node t) (bt_start t) (bt_events t') L (opener g (shape_of t')) K (bt_stage t') w ∧
  bt_node t' = bt_node t ∧ bt_start t' = bt_start t ∧ bt_waits t' = bt_waits t ∧
  (bt_round t' = bt_round t ∨ bt_round t' = K ∧ ∃ c, caught_up (bt_node t) c w ∧ ∀ k, (k < K)%nat → all_handed c k L w).
Proof.
  intros Hl Hn Hw HK. destruct Hl as [n th s0 ev wts r|n ws th th' s0 ev ev' wts r fuel acc Hacc He|n th s0 ev wts r
    |n pc x op ws th th' s0 ev ev' wts r fuel Hop He|n pc oc ws th th' s0 ev ev' wts r fuel Hpc He
    |n oc ws th th' s0 ev ev' wts r fuel He];
    cbn [bt_node bt_stage bt_start bt_events bt_waits bt_round] in *; unfold shape_of; cbn [bt_stage stage_pc bt_round bt_waits stage_ok].
  - intros (H1 & H2 & H3). split; [|auto]. split; [done|]. split; [apply grows_refl|done].
  - intros (H1 & _ & H3 & H4 & H5 & H6). split; [|auto].
    by destruct (session_accesses n a fuel acc s0 th th' ev ev' ws w Hn H3 H4 Hacc H1 (conj H5 H6) He) as (H7 & H8 & H9 & _).
  - intros (H1 & H2 & H3). split; [|auto]. split; [done|]. split; [apply grows_refl|]. done.
  - intros (H1 & _ & H3 & H4 & H5 & H6). split; [|auto].
    destruct (spec_op_before n a fuel s0 op th ev Hn H3 H4 ws _ _ _ H1 H5 He) as (_ & _ & Hr).
    destruct (Hr _ eq_refl) as ((H7 & H8) & H9 & H10 & H11). split; [done|]. split; [done|]. split.
    + intros x' op' Hop'. rewrite Hop in Hop'. injection Hop' as <- <-. destruct (op_releases op); auto.
    + intros Ho k. eapply all_handed_le; [by apply H6|done].
  - intros (H1 & _ & H3 & H4 & H5 & H6 & H7 & _). split; [|auto].
    destruct (spec_op_after n a fuel s0 oc th ev Hn H3 H4 ws _ _ _ H1 (conj H5 H6) He) as (_ & _ & Hr).
    destruct (Hr _ eq_refl) as ((H8 & H9 & H10 & H11) & H12 & _). split; [done|]. split; [apply grows_refl|].
    do 3 (split; [done|]). intros Ho k. eapply all_handed_le; [by apply H7|]. destruct oc as [c|]; [by apply H11|done].
  - intros (H1 & _ & H3 & H4 & H5 & H6 & _ & H8).
    destruct (spec_op_after n a fuel s0 oc th ev Hn H3 H4 ws _ _ _ H1 (conj H5 H6) He) as (_ & _ & Hr).
    destruct (Hr _ eq_refl) as ((H9 & H10 & _) & H12 & H13). split; [done|]. do 3 (split; [done|]). right.
    split; [by apply HK|]. destruct (H8 eq_refl) as (c & Hc & Hk). exists c. split; [by apply H13|done].
Qed.

Lemma ledger_insert (ts : list (bar_thread (Q := Q))) a t t' :
  ts !! a = Some t → bt_node t' = bt_node t → bt_waits t' = bt_waits t → ledger (<[a := t']> ts) = ledger ts.
Proof.
  intros Ha H1 H2. unfold ledger. rewrite list_fmap_insert. apply list_insert_id. by rewrite list_lookup_fmap, Ha, H1, H2.
Qed.
Lemma ledger_lookup (ts : list (bar_thread (Q := Q))) a t : ts !! a = Some t → ledger ts !! a = Some (bt_node t, bt_waits t).
Proof. intros H. unfold ledger. by rewrite list_lookup_fmap, H. Qed.

Lemma bar_inv_local a t t' w (b : barrier) ts k :
  ts !! a = Some t → bar_local a w t t' → shape_inv (bar_shape_of (mkBar w b (<[a := t']> ts) k)) →
  bar_inv (mkBar w b ts k) → bar_inv (mkBar w b (<[a := t']> ts) k).
Proof.
  intros Ha Hl Hsh [H1 H2 H3 H4 H5 H6 H7 H8]; cbn [bs_world bs_bar bs_threads bs_opened] in *. destruct (H3 a t Ha) as (Hn & Hw0 & Hseg).
  assert (stage_pc (bt_stage t) = Some WaitDone → S (bt_round t) = k) as HK.
  { intros Hpc. pose proof (bi_threads _ H2 a _ (shape_lookup _ _ _ Ha)) as Hok. unfold shape_ok, shape_of in Hok. cbn in Hok.
    rewrite Hpc in Hok. apply Hok. }
  destruct (local_stage_ok a w t t' _ _ _ Hl Hn H1 HK (H4 a t Ha)) as (Hst & En & Es & Ew & Hr).
  pose proof (ledger_insert ts a t t' Ha En Ew) as HL.
  constructor; cbn [bs_world bs_bar bs_threads bs_opened]; rewrite ?HL; try done.
  - intros c u [(<- & <- & _)|[_ Hc]]%list_lookup_insert_Some; [by rewrite En, Es, Ew|by eapply H3].
  - intros c u [(<- & <- & _)|[_ Hc]]%list_lookup_insert_Some; [by rewrite En, Es|by eapply H4].
  - intros c d u v i ws tr l Hc Hd Hi Hk Hne Hnl Hin.
    assert (∃ u0, ts !! c = Some u0 ∧ bt_node u = bt_node u0 ∧ bt_waits u = bt_waits u0) as (u0 & Hc0 & Eu & Ewu).
    { apply list_lookup_insert_Some in Hc as [(<- & <- & _)|[_ Hc]]; eauto. }
    rewrite Eu, Ewu in *. apply list_lookup_insert_Some in Hd as [(<- & <- & _)|[_ Hd]]; [|by eapply (H8 c d u0 v)].
    rewrite En in *. destruct Hr as [Hr|(Hr & cl & Hup & Hcl)]; [rewrite Hr in Hi; by eapply (H8 c a u0 t)|].
    rewrite Hr in Hi. destruct (H3 c u0 Hc0) as (Hnc & _ & Hsegs). rewrite Forall_lookup in Hsegs.
    eapply (handed_out_visible _ _ ws cl tr w w); [by apply (Hsegs i (ws, tr))|done|done|done| |apply grows_refl|done|done|done].
    by eapply (Hcl i Hi); [apply ledger_lookup|].
Qed.

(** *** Accesses *)

Lemma stage_ok_ledger n (s0 : world Q) ev (L L' : ledger_t) K st w :
  (∀ c k, (k < K)%nat → all_handed c k L w → all_handed c k L' w) →
  stage_ok n s0 ev L false K st w → stage_ok n s0 ev L' false K st w.
Proof.
  intros HL. destruct st as [th|ws th|pc ws th|pc th|pc oc ws th]; cbn; naive_solver.
Qed.
Lemma stage_ok_opened n (s0 : world Q) ev (L : ledger_t) o K K' st w :
  stage_pc st ≠ Some WaitDone → stage_ok n s0 ev L o K st w → stage_ok n s0 ev L o K' st w.
Proof.
  destruct st as [th|ws th|pc ws th|pc th|pc oc ws th]; cbn; try done. intros Hne (H1 & H2 & H3 & H4 & H5 & H6 & H7 & _).
  do 6 (split; [done|]). split; [done|]. by intros ->.
Qed.

(** What an access has to establish. *)
Lemma bar_inv_put a t t' w (b b' : barrier) ts k k' :
  bar_inv (mkBar w b ts k) → ts !! a = Some t → shape_inv (bar_shape_of (mkBar w b' (<[a := t']> ts) k')) →
  bt_node t' = bt_node t → bt_round t' = bt_round t → world_ok (bt_start t') →
  (bt_waits t' = bt_waits t ∨ ∃ x, bt_waits t' = bt_waits t ++ [x] ∧ length (bt_waits t) = k ∧ world_ok x.1) →
  (∀ x, clock_valid (loc_clock (bar_get x b')) w) →
  let L := ledger (<[a := t']> ts) in let g := atomic_data (bar_target b') in
  stage_ok (bt_node t') (bt_start t') (bt_events t') L (opener g (shape_of t')) k' (bt_stage t') w →
  (∀ (d : nat) u, d ≠ a → ts !! d = Some u → stage_ok (bt_node u) (bt_start u) (bt_events u) L (opener g (shape_of u)) k' (bt_stage u) w) →
  (∀ i, all_handed (loc_clock (bar_arrived b')) i L w) →
  (∀ i, (i < k')%nat → all_handed (loc_clock (bar_phase b')) i L w) →
  bar_inv (mkBar w b' (<[a := t']> ts) k').
Proof.
  intros Hi Ha Hsh En Er Es Ewt Hv L g Hst Hoth Harr Hph. pose proof (bar_round_le (mkBar w b ts k)) as Hle. pose proof Hi as [H1 H2 H3 H4 H5 H6 H7 H8]; cbn [bs_world bs_bar bs_threads bs_opened] in *.
  constructor; cbn [bs_world bs_bar bs_threads bs_opened]; try done.
  - intros c u [(<- & <- & _)|[_ Hc]]%list_lookup_insert_Some; [|by eapply H3]. destruct (H3 a t Ha) as (Hn & _ & Hs).
    rewrite En. split; [done|]. split; [done|]. destruct Ewt as [->|(x & -> & _ & Hx)]; [done|].
    apply Forall_app. split; [done|]. by apply Forall_singleton.
  - intros c u [(<- & <- & _)|[Hne Hc]]%list_lookup_insert_Some; [done|by apply (Hoth c)].
  - intros c d u v i ws tr l Hc Hd Hi' Hk Hne Hnl Hin.
    assert (∃ v0, ts !! d = Some v0 ∧ bt_node v = bt_node v0 ∧ bt_round v = bt_round v0) as (v0 & Hd0 & Ev & Erv).
    { apply list_lookup_insert_Some in Hd as [(<- & <- & _)|[_ Hd]]; eauto. }
    rewrite Ev, Erv in *. apply list_lookup_insert_Some in Hc as [(<- & <- & _)|[_ Hc]]; [|by eapply (H8 c d u v0)].
    rewrite En in *. eapply (H8 a d t v0); [done|done|done| |done|done|done].
    destruct Ewt as [Ewt|(x & Ewt & Hlen & _)]; rewrite Ewt in Hk; [done|].
    apply lookup_snoc_Some in Hk as [[_ Hk]|[-> _]]; [done|]. specialize (Hle d v0 H2 Hd0). lia.
Qed.

Lemma ready_facts a t w (b : barrier) ts k pc th x op :
  bar_inv (mkBar w b ts k) → ts !! a = Some t → bt_stage t = Ready pc th → wait_op pc = Some (x, op) →
  thread_ok (bt_node t) th ∧ clock_valid (thread_clock th) w ∧ world_ok w ∧ world_ok (bt_start t) ∧
  shape_of t = mkShape (Some pc) (bt_round t) (length (bt_waits t)) ∧
  (if op_releases op then handed_out (bt_node t) (bt_start t) (thread_clock th) (bt_events t) w
   else noted th (bt_events t) ∧ session (bt_node t) (bt_start t) th (bt_events t) w) ∧
  (opener (atomic_data (bar_target b)) (shape_of t) = true → ∀ i, all_handed (thread_clock th) i (ledger ts) w).
Proof.
  intros Hi Ha Hst Hop. pose proof (ba_stage _ Hi a t Ha) as H. cbn [bs_world bs_bar bs_threads bs_opened] in H. rewrite Hst in H.
  destruct H as (H1 & H2 & H3 & H4). split; [done|]. split; [done|]. split; [apply (ba_world _ Hi)|]. split; [by apply (ba_node _ Hi a t Ha)|].
  split; [unfold shape_of; by rewrite Hst|]. split; [by eapply H3|done].
Qed.

(** An access without a release, that leaves the clocks of the locations. *)
Lemma bar_inv_plain a t w (b b' : barrier) ts k pc th x op v (oc : option vclock) :
  bar_inv (mkBar w b ts k) → ts !! a = Some t → bt_stage t = Ready pc th → wait_op pc = Some (x, op) → op_releases op = false →
  (match pc with WaitArrive _ | WaitOpen => False | _ => True end) →
  let t' := accessed w pc op v oc th t in
  shape_inv (bar_shape_of (mkBar w b' (<[a := t']> ts) k)) →
  (∀ x, loc_clock (bar_get x b') = loc_clock (bar_get x b)) → bar_target b' = bar_target b →
  (opener (atomic_data (bar_target b)) (shape_of t') = true → opener (atomic_data (bar_target b)) (shape_of t) = true ∧ oc = None) →
  oc = None ∨ oc = Some (loc_clock (bar_phase b)) →
  (wait_next pc v = WaitDone → oc = Some (loc_clock (bar_phase b))) →
  bar_inv (mkBar w b' (<[a := t']> ts) k).
Proof.
  intros Hi Ha Hst Hop Hrel Hpc t' Hsh Hb' Htg Hopen Hoc Hdone.
  destruct (ready_facts _ _ _ _ _ _ _ _ _ _ Hi Ha Hst Hop) as (Hok & Hv & Hw & Hw0 & Hsht & Hfact & Hall). rewrite Hrel in Hfact.
  destruct Hfact as [Hnote Hses].
  assert (bt_waits t' = bt_waits t) as Ewt by (unfold t', accessed; cbn; by destruct pc).
  assert (bt_start t' = bt_start t ∧ bt_events t' = bt_events t) as [Es Ee] by (unfold t', accessed; cbn; by rewrite Hrel).
  pose proof (ledger_insert ts a t t' Ha eq_refl Ewt) as HL. pose proof (ba_phase _ Hi) as Hph. cbn [bs_world bs_bar bs_threads bs_opened] in Hph.
  apply (bar_inv_put a t t' w b b' ts k k Hi Ha Hsh); try done; rewrite ?HL, ?Es, ?Ee, ?Htg; try done; [by left| | | | |].
  - intros y. rewrite Hb'. apply (ba_valid _ Hi).
  - cbn [t' accessed bt_stage bt_node stage_ok]. split; [done|]. split; [apply grows_refl|]. do 3 (split; [done|]).
    split; [destruct Hoc as [->| ->]; [done|]; intros c [= <-]; apply (ba_valid _ Hi Phase)|]. split.
    + intros Ho. destruct (Hopen Ho) as [Ho' ->]. by apply Hall.
    + intros Hd. exists (loc_clock (bar_phase b)). split; [by apply Hdone|done].
  - intros c u Hne Hc. exact (ba_stage _ Hi c u Hc).
  - intros i. change (bar_arrived b') with (bar_get Arrived b'). rewrite Hb'. apply (ba_arrived _ Hi).
  - intros i Hlt. change (bar_phase b') with (bar_get Phase b'). rewrite Hb'. by apply (ba_phase _ Hi).
Qed.

Lemma bar_inv_arrive a t w (b : barrier) ts k lp th v :
  let t' := accessed w (WaitArrive lp) (OpFetchAdd 1 memory_order_acq_rel) v
    (Some (merge (thread_clock th) (loc_clock (bar_arrived b)))) th t in
  let b' := mkBarrier (bar_target b) (mkLoc (add_data 32 1 (atomic_data (bar_arrived b)))
    (merge (thread_clock th) (loc_clock (bar_arrived b)))) (bar_phase b) in
  bar_inv (mkBar w b ts k) → ts !! a = Some t → bt_stage t = Ready (WaitArrive lp) th →
  shape_inv (bar_shape_of (mkBar w b' (<[a := t']> ts) k)) → bar_inv (mkBar w b' (<[a := t']> ts) k).
Proof.
  intros t' b' Hi Ha Hst Hsh. set (c := merge (thread_clock th) (loc_clock (bar_arrived b))) in *.
  destruct (ready_facts _ _ _ _ _ _ _ _ _ _ Hi Ha Hst eq_refl) as (Hok & Hv & Hw & Hw0 & Hsht & Hout & _). cbn in Hout.
  pose proof (ba_valid _ Hi) as Hval. cbn [bs_world bs_bar] in Hval.
  assert (clock_valid c w) as Hcv by (by apply clock_valid_merge; [|apply (Hval Arrived)]).
  destruct (clock_le_merge (thread_clock th) (loc_clock (bar_arrived b))) as [Hle1 Hle2]; [destruct Hv, (Hval Arrived); cbn in *; congruence|].
  assert (length (bt_waits t) = k) as Hlen.
  { pose proof (bi_threads _ (ba_shape _ Hi) a _ (shape_lookup _ _ _ Ha)) as H. rewrite Hsht in H. apply H. }
  assert (ledger (<[a := t']> ts) = <[a := (bt_node t, bt_waits t ++ [(bt_start t, bt_events t)])]> (ledger ts)) as HL
    by (unfold ledger; by rewrite list_fmap_insert).
  assert (∀ i, all_handed c i (ledger (<[a := t']> ts)) w) as Hall.
  { intros i. rewrite HL. apply all_handed_app; [by apply ledger_lookup| |].
    - eapply all_handed_le; [apply (ba_arrived _ Hi)|exact Hle2].
    - intros _. eapply handed_out_le; [exact Hout|exact Hle1]. }
  assert (∀ c i, (i < k)%nat → all_handed c i (ledger ts) w → all_handed c i (ledger (<[a := t']> ts)) w) as Hold.
  { intros c' i Hlt H. rewrite HL. apply all_handed_app; [by apply ledger_lookup|done|lia]. }
  apply (bar_inv_put a t t' w b b' ts k k Hi Ha Hsh); try done.
  - right. by exists (bt_start t, bt_events t).
  - intros [| |]; [apply (Hval Target)|done|apply (Hval Phase)].
  - cbn [t' accessed bt_stage bt_node bt_start bt_events stage_ok]. change (op_releases _) with true. cbn [stage_ok default].
    split; [done|]. split; [apply grows_refl|]. split; [done|]. split; [apply noted_nil|]. split; [by apply session_new|].
    split; [by intros ? [= <-]|]. done.
  - intros d u Hne Hd. pose proof (ba_stage _ Hi d u Hd) as H. cbn [bs_world bs_bar bs_threads bs_opened] in H.
    assert (opener (atomic_data (bar_target b)) (shape_of u) = false) as Ho.
    { apply not_true_is_false. intros Ho. pose proof (opener_arrived _ d _ (ba_shape _ Hi) (shape_lookup _ _ _ Hd) Ho a _ (shape_lookup _ _ _ Ha)) as Har.
      rewrite Hsht in Har. done. }
    cbn [b' bar_target]. rewrite Ho in *. by eapply stage_ok_ledger.
  - intros i Hlt. apply Hold; [done|]. by apply (ba_phase _ Hi).
Qed.

Lemma bar_inv_open a t w (b : barrier) ts k th v :
  let t' := accessed w WaitOpen (OpFetchAdd 1 memory_order_acq_rel) v
    (Some (merge (thread_clock th) (loc_clock (bar_phase b)))) th t in
  let b' := mkBarrier (bar_target b) (bar_arrived b) (mkLoc (add_data 32 1 (atomic_data (bar_phase b)))
    (merge (thread_clock th) (loc_clock (bar_phase b)))) in
  bar_inv (mkBar w b ts k) → ts !! a = Some t → bt_stage t = Ready WaitOpen th →
  shape_inv (bar_shape_of (mkBar w b' (<[a := t']> ts) (S k))) → bar_inv (mkBar w b' (<[a := t']> ts) (S k)).
Proof.
  intros t' b' Hi Ha Hst Hsh. set (c := merge (thread_clock th) (loc_clock (bar_phase b))) in *.
  destruct (ready_facts _ _ _ _ _ _ _ _ _ _ Hi Ha Hst eq_refl) as (Hok & Hv & Hw & Hw0 & Hsht & _ & Hopen).
  assert (opener (atomic_data (bar_target b)) (shape_of t) = true) as Hot by by rewrite Hsht.
  pose proof (ba_valid _ Hi) as Hval. cbn [bs_world bs_bar] in Hval.
  assert (clock_valid c w) as Hcv by (by apply clock_valid_merge; [|apply (Hval Phase)]).
  destruct (clock_le_merge (thread_clock th) (loc_clock (bar_phase b))) as [Hle1 _]; [destruct Hv, (Hval Phase); cbn in *; congruence|].
  pose proof (ledger_insert ts a t t' Ha eq_refl eq_refl) as HL.
  assert (∀ i, all_handed c i (ledger ts) w) as Hall by (intros i; eapply all_handed_le; [by apply Hopen|exact Hle1]).
  apply (bar_inv_put a t t' w b b' ts k (S k) Hi Ha Hsh); try done; rewrite ?HL.
  - by left.
  - intros [| |]; [apply (Hval Target)|apply (Hval Arrived)|done].
  - cbn [t' accessed bt_stage bt_node bt_start bt_events stage_ok]. change (op_releases _) with true. cbn [stage_ok default].
    split; [done|]. split; [apply grows_refl|]. split; [done|]. split; [apply noted_nil|]. split; [by apply session_new|].
    split; [by intros ? [= <-]|]. split; [done|]. intros _. by exists c.
  - intros d u Hne Hd. pose proof (ba_stage _ Hi d u Hd) as H. cbn [bs_world bs_bar bs_threads bs_opened] in H.
    eapply stage_ok_opened; [|exact H]. intros Hpc.
    pose proof (opener_arrived _ a _ (ba_shape _ Hi) (shape_lookup _ _ _ Ha) Hot d _ (shape_lookup _ _ _ Hd)) as Har.
    unfold arrived, shape_of in Har. cbn [sh_pc] in Har. by rewrite Hpc in Har.
  - apply (ba_arrived _ Hi).
  - intros i _. apply Hall.
Qed.

Lemma bar_step_inv s s' : bar_step s s' → bar_inv s → bar_inv s'.
Proof.
  intros Hs Hi. assert (shape_inv (bar_shape_of s')) as Hsh by (eapply shape_steps_inv; [by apply bar_step_shape|apply (ba_shape _ Hi)]).
  destruct Hs as [w w' b ts k Hs|a t t' w b ts k Ha Hl|a t pc th x op v l oc w b ts k Ha Hst Hop Hacc].
  - by eapply bar_inv_world.
  - by eapply bar_inv_local.
  - pose proof (wait_access pc x op b th v l oc Hop Hacc) as Hw. destruct pc as [|lp|lp la| | |lp|]; cbn in Hop; try done.
    + destruct Hw as (Hrel & _ & Hb & ->). rewrite Hb in *. eapply (bar_inv_plain a t w b b); try done; by right.
    + injection Hop as <- <-. destruct Hw as (_ & _ & -> & Hb). rewrite Hb in *. by apply bar_inv_arrive.
    + destruct Hw as (Hrel & -> & Hb & ->). rewrite Hb in *.
      eapply (bar_inv_plain a t w b b); try done; [|by left|cbn; by destruct (Z.eqb_spec la (atomic_data (bar_target b)))].
      intros Ho. split; [|done]. unfold opener, shape_of in *. rewrite Hst. cbn in *. by destruct (Z.eqb_spec la (atomic_data (bar_target b))).
    + destruct Hw as (Hrel & _ & -> & Hb). rewrite Hb in *.
      eapply (bar_inv_plain a t w b); try done; [by intros [| |]| |by left]. intros _. unfold opener, shape_of. by rewrite Hst.
    + injection Hop as <- <-. destruct Hw as (_ & _ & -> & Hb). rewrite Hb in *. by apply bar_inv_open.
    + destruct Hw as (Hrel & _ & Hb & ->). rewrite Hb in *. eapply (bar_inv_plain a t w b b); try done; [|by right].
      unfold opener, shape_of. cbn. by destruct (v =? lp).
Qed.

(** *** The initial state *)

Lemma fresh_lookup w (ths : list (nat * ThreadOps)) a t : map (bar_fresh w) ths !! a = Some t → ∃ x, ths !! a = Some x ∧ t = bar_fresh w x.
Proof. rewrite list_lookup_fmap. destruct (ths !! a) as [x|]; [|done]. intros [= <-]. eauto. Qed.
Lemma fresh_shape w (ths : list (nat * ThreadOps)) a v : map shape_of (map (bar_fresh w) ths) !! a = Some v → v = mkShape None 0 0.
Proof.
  rewrite list_lookup_fmap. destruct (map (bar_fresh w) ths !! a) as [t|] eqn:E; [|done].
  apply fresh_lookup in E as (x & _ & ->). by intros [= <-].
Qed.
Lemma shape_init_inv w (b : barrier) ths : bar_start_ok w b ths → shape_inv (bar_shape_of (bar_init w b ths)).
Proof.
  intros (_ & Hn & Ht & Ha & Hp & _ & _). unfold bar_init, bar_shape_of. cbn [bs_bar bs_threads bs_opened]. rewrite Ht, Ha, Hp.
  assert (arrivals 0 (map shape_of (map (bar_fresh w) ths)) = 0%nat) as H0.
  { apply arrivals_none. intros a t Hat. by rewrite (fresh_shape _ _ _ _ Hat). }
  constructor; cbn [sb_target sb_arrived sb_phase sb_threads sb_opened]; rewrite ?H0, ?length_map; try done.
  - intros a t ->%fresh_shape. done.
  - intros a t ->%fresh_shape. done.
  - lia.
  - intros a c t u ->%fresh_shape _. done.
Qed.
Lemma bar_init_inv w (b : barrier) ths : bar_start_ok w b ths → bar_inv (bar_init w b ths).
Proof.
  intros Hok. pose proof (shape_init_inv _ _ _ Hok) as Hsh. destruct Hok as (Hw%reachable_ok & _ & _ & _ & _ & Hv & Hth).
  rewrite Forall_lookup in Hth.
  assert (∀ c k, all_handed c k (ledger (map (bar_fresh w) ths)) w) as Hall.
  { intros c k a n segs ws tr. unfold ledger. rewrite list_lookup_fmap. destruct (map (bar_fresh w) ths !! a) as [u|] eqn:E; [|done].
    apply fresh_lookup in E as (x & _ & ->). by intros [= <- <-]. }
  constructor; unfold bar_init in *; cbn [bs_world bs_bar bs_threads bs_opened]; try done.
  - intros a t (x & Hx & ->)%fresh_lookup. specialize (Hth a x Hx). destruct x as [n th]. cbn. naive_solver.
  - intros a t (x & Hx & ->)%fresh_lookup. specialize (Hth a x Hx). destruct x as [n th], Hth as (? & ? & ?). cbn.
    split; [done|]. split; [apply noted_nil|by apply session_new].
  - intros a c t u k ws tr l (x & Hx & ->)%fresh_lookup _ _ Hk. done.
Qed.

Lemma bar_reachable_inv s : bar_reachable s → bar_inv s.
Proof.
  intros (w & b & ths & Hok & Hs). apply bar_init_inv in Hok. induction Hs as [s|s s1 s2 H1 _ IH]; [done|].
  apply IH. by eapply bar_step_inv.
Qed.
End clocks.

(** ** Lemmas: progress *)

(** The accesses a call of [wait] has left, if its poll succeeds. *)
Definition wait_left (pc : option wait_pc) : nat :=
  match pc with
  | Some WaitPhase => 5 | Some (WaitArrive _) => 4 | Some (WaitTarget _ _) => 3 | Some WaitReset => 2
  | Some (WaitOpen | WaitPoll _) => 1 | Some WaitDone | None => 0
  end.
Definition bar_work `{cfg : Config} {Q : Type} (s : bar_sys (Q := Q)) : nat :=
  sum_list_with (λ t, wait_left (stage_pc (bt_stage t))) (bs_threads s).

Lemma sum_insert {A} (f : A → nat) (l : list A) i x y :
  l !! i = Some x → (sum_list_with f (<[i := y]> l) + f x = sum_list_with f l + f y)%nat.
Proof.
  intros H. rewrite insert_take_drop by (by eapply lookup_lt_Some). rewrite <- (take_drop_middle l i x H) at 3.
  rewrite !sum_list_with_app. cbn. lia.
Qed.
Lemma wait_left_next pc v : (wait_left (Some (wait_next pc v)) ≤ wait_left (Some pc))%nat.
Proof. destruct pc; cbn [wait_next]; try destruct (_ =? _); cbn; lia. Qed.

Section progress.
Context `{cfg : Config} {Q : Type} `{FQ : !FifoQueue Q nat LOG_COUNT}.
Implicit Types (s : bar_sys (Q := Q)) (t u : bar_thread (Q := Q)) (a k : nat).

(** A thread that is past a barrier that is still closed, or on the way to it, is
    not held up: only the poll of a thread that has arrived in the open round is. *)
Lemma moving sh pc r wt (a : nat) v (z : Z * Z * nat) :
  shape_inv sh → sb_threads sh !! a = Some (mkShape (Some pc) r wt) →
  arrived (sb_opened sh) (mkShape (Some pc) r wt) = false ∨ opener (sb_target sh) (mkShape (Some pc) r wt) = true →
  pc ≠ WaitDone → shape_access pc sh = (v, z) → (wait_left (Some (wait_next pc v)) < wait_left (Some pc))%nat.
Proof.
  intros Hi Ha Hor Hne Hacc. pose proof (bi_threads _ Hi a _ Ha) as Hok. pose proof (bi_phase _ Hi) as Hph.
  destruct pc as [|lp|lp la| | |lp|]; cbn in *; try lia; try done; [by destruct (la =? v); cbn; lia|].
  injection Hacc as <- _. destruct Hor as [Hr%Nat.eqb_neq|?]; [|done]. destruct Hok as (-> & [?|Hs] & _); [done|].
  destruct (Z.eqb_spec (to_char (sb_phase sh)) (to_char (Z.of_nat r))) as [E|]; [|cbn; lia].
  rewrite Hph, <- Hs, Nat2Z.inj_succ in E. by destruct (to_char_succ (Z.of_nat r)).
Qed.

Lemma some_moves sh :
  shape_inv sh → (∀ a (t : shape), sb_threads sh !! a = Some t → sh_pc t ≠ None) →
  ∃ a (t : shape) pc, sb_threads sh !! a = Some t ∧ sh_pc t = Some pc ∧
    (arrived (sb_opened sh) t = false ∨ opener (sb_target sh) t = true).
Proof.
  intros Hi Hin. destruct (decide (Forall (λ t : shape, arrived (sb_opened sh) t = true) (sb_threads sh))) as [Hall|Hex].
  - rewrite Forall_lookup in Hall. apply arrivals_full in Hall. destruct (bi_opener _ Hi Hall) as (a & t & Ha & Ho).
    destruct (sh_pc t) as [pc|] eqn:E; [|by destruct (Hin a t Ha)]. exists a, t, pc. auto.
  - apply not_Forall_Exists in Hex; [|intros t; apply _].
    apply Exists_exists in Hex as (t & [a Ha]%list_elem_of_lookup & Hn). destruct (sh_pc t) as [pc|] eqn:E; [|by destruct (Hin a t Ha)].
    exists a, t, pc. split; [done|]. split; [done|]. left. by apply not_true_is_false.
Qed.

Lemma bar_work_step s s' :
  (∀ a t, bs_threads s !! a = Some t → stage_pc (bt_stage t) ≠ None) → bar_step s s' → (bar_work s' ≤ bar_work s)%nat.
Proof.
  intros Hin Hs. set (f := λ t : bar_thread (Q := Q), wait_left (stage_pc (bt_stage t))).
  destruct Hs as [w w' b ts k Hs|a t t' w b ts k Ha Hl|a t pc th x op v l oc w b ts k Ha Hst Hop Hacc]; [done| |];
    unfold bar_work; cbn [bs_threads] in *; change (sum_list_with _) with (sum_list_with f).
  - pose proof (sum_insert f ts a t t' Ha) as Hsum. assert (f t' = f t) as Hf; [|lia].
    specialize (Hin a t Ha). unfold f. destruct Hl; done.
  - pose proof (sum_insert f ts a t (accessed w pc op v oc th t) Ha) as Hsum.
    assert (f (accessed w pc op v oc th t) ≤ f t)%nat as Hf; [|lia]. unfold f, accessed. rewrite Hst. cbn [bt_stage stage_pc].
    apply wait_left_next.
Qed.

(** The access of the system is that of its control state. *)
Lemma access_shape pc x op s th v l oc :
  wait_op pc = Some (x, op) → op_access 32 op (bar_get x (bs_bar s)) th = (v, l, oc) →
  ∃ z, shape_access pc (bar_shape_of s) = (v, z).
Proof.
  intros Hop Hacc. pose proof (wait_access pc x op _ th v l oc Hop Hacc) as Hw.
  destruct pc; try done; cbn; eexists; f_equal; symmetry; apply Hw.
Qed.
End progress.

(** ** Properties *)

(** C13: a barrier synchronises. When a call of [wait] of a thread has returned,
    every thread of the barrier has arrived in that round, and what it stored to
    non-coherent memory before it called [wait] is visible to the thread's node:
    its writeback was published before it arrived, and the thread's node has since
    invalidated the line. For any number of rounds of at most 128 threads on any
    nodes, and any interference. *)
Theorem barrier_synchronises `{cfg : Config} (ok : ConfigOk cfg) (EB : EagerBuild cfg) (DB : DirectBuild cfg)
    {Q : Type} `{FQ : !FifoQueue Q nat LOG_COUNT} (s : bar_sys (Q := Q)) (a b k : nat) (t u : bar_thread (Q := Q)) :
  bar_reachable s → bs_threads s !! a = Some t → bs_threads s !! b = Some u → (k < bt_round u)%nat →
  ∃ ws tr, bt_waits t !! k = Some (ws, tr) ∧
    (bt_node t ≠ bt_node u → ∀ l, nhc_line l → EvStore l ∈ tr → made_visible (bt_node t) (bt_node u) ws tr l (bs_world s)).
Proof.
  intros Hi%bar_reachable_inv Ha Hb Hk. pose proof (bar_round_le s b u (ba_shape _ Hi) Hb) as Hle.
  pose proof (bi_threads _ (ba_shape _ Hi) a _ (shape_lookup _ _ _ Ha)) as Hok.
  assert (bs_opened s ≤ length (bt_waits t))%nat as Hlen.
  { unfold shape_ok, shape_of in Hok. cbn in Hok. destruct (stage_pc (bt_stage t)) as [[]|]; naive_solver lia. }
  destruct (lookup_lt_is_Some_2 (bt_waits t) k) as [[ws tr] Hw]; [lia|].
  exists ws, tr. split; [done|]. intros Hne l Hl Hin. by eapply (ba_visible _ Hi a b t u).
Qed.

(** C14: a barrier that all threads have called does not block. Then there is a
    thread whose call has nothing left to do but return, or whose next access takes
    its call further: it is not a poll of the closed barrier. No step adds to the
    accesses left, of which there are at most five per thread. *)
Theorem barrier_progress `{cfg : Config} (ok : ConfigOk cfg) (EB : EagerBuild cfg) (DB : DirectBuild cfg)
    {Q : Type} `{FQ : !FifoQueue Q nat LOG_COUNT} (s : bar_sys (Q := Q)) :
  bar_reachable s → (∀ a t, bs_threads s !! a = Some t → stage_pc (bt_stage t) ≠ None) →
  (∃ a t pc, bs_threads s !! a = Some t ∧ stage_pc (bt_stage t) = Some pc ∧
     (pc = WaitDone ∨ ∃ x op, wait_op pc = Some (x, op) ∧ ∀ th v l oc, op_access 32 op (bar_get x (bs_bar s)) th = (v, l, oc) →
        (wait_left (Some (wait_next pc v)) < wait_left (Some pc))%nat)) ∧
  (∀ s', bar_step s s' → (bar_work s' ≤ bar_work s)%nat) ∧ (bar_work s ≤ 5 * length (bs_threads s))%nat.
Proof.
  intros Hi%bar_reachable_inv Hin. split; [|split].
  - destruct (some_moves (bar_shape_of s)) as (a & sh & pc & Ha & Hpc & Hor); [apply (ba_shape _ Hi)| |].
    + intros a sh. cbn. rewrite list_lookup_fmap. destruct (bs_threads s !! a) as [t|] eqn:E; [|done]. intros [= <-]. by apply (Hin a).
    + pose proof Ha as Ha'. cbn in Ha'. rewrite list_lookup_fmap in Ha'. destruct (bs_threads s !! a) as [t|] eqn:E; [|done].
      injection Ha' as <-. exists a, t, pc. split; [done|]. split; [done|]. cbn in Hpc.
      destruct (wait_op pc) as [[x op]|] eqn:Eop; [|left; by destruct pc]. right. exists x, op. split; [done|].
      intros th v l oc Hacc. destruct (access_shape _ _ _ _ _ _ _ _ Eop Hacc) as [z Hz]. unfold shape_of in Ha, Hor. rewrite Hpc in Ha, Hor.
      eapply moving; [apply (ba_shape _ Hi)|exact Ha|exact Hor|by intros ->|exact Hz].
  - intros s'. by apply bar_work_step.
  - unfold bar_work. generalize (bs_threads s). intros ts. induction ts as [|t ts IH]; [done|]. cbn [sum_list_with length].
    assert (wait_left (stage_pc (bt_stage t)) ≤ 5)%nat by (destruct (stage_pc _) as [[]|]; cbn; lia). lia.
Qed.

(** ** Runs *)

Section runs.
Context `{cfg : Config} {Q : Type} `{FQ : !FifoQueue Q nat LOG_COUNT}.
Implicit Types (s : bar_sys (Q := Q)) (t : bar_thread (Q := Q)) (a fuel : nat) (th : ThreadOps) (w : world Q) (b : barrier).

(** What a thread does next: accesses, the start of a call of [wait], and its next
    access with what follows until the one after it; each without interference. *)
Inductive choice := ChAccess a (acc : list access) | ChWait a | ChOp a.

(** [p] run by thread [a], with the stage and the round after it. *)
Definition run_part a {A} (p : prog A) (f : world Q → A → stage) (r : nat) s : option bar_sys :=
  t ← bs_threads s !! a;
  match run (bt_node t) a p (bs_world s) with
  | (Returned x, ev, w) =>
      Some (mkBar w (bs_bar s) (<[a := mkBT (bt_node t) (f w x) (bt_start t) (bt_events t ++ ev) (bt_waits t) r]> (bs_threads s)) (bs_opened s))
  | _ => None
  end.
Definition restage a t s : bar_sys := mkBar (bs_world s) (bs_bar s) (<[a := t]> (bs_threads s)) (bs_opened s).
Definition run_before fuel a pc th r s : option bar_sys :=
  '(_, op) ← wait_op pc; run_part a (op_before fuel op th) (λ _, Ready pc) r s.
Definition bar_do fuel s (c : choice) : option bar_sys :=
  match c with
  | ChAccess a acc =>
      '(mkBT n st w0 ev wts r) ← bs_threads s !! a;
      match st with
      | Between th => run_part a (rac_accesses fuel acc th) (λ _, Between) r (restage a (mkBT n (Accessing (bs_world s) th) w0 ev wts r) s)
      | _ => None
      end
  | ChWait a =>
      '(mkBT n st w0 ev wts r) ← bs_threads s !! a;
      match st with
      | Between th => run_before fuel a WaitPhase th r (restage a (mkBT n (Releasing WaitPhase (bs_world s) th) w0 ev wts r) s)
      | _ => None
      end
  | ChOp a =>
      t ← bs_threads s !! a;
      match bt_stage t with
      | Ready pc th =>
          '(x, op) ← wait_op pc;
          let '(v, l, oc) := op_access 32 op (bar_get x (bs_bar s)) th in
          let s := mkBar (bs_world s) (bar_set x l (bs_bar s)) (<[a := accessed (bs_world s) pc op v oc th t]> (bs_threads s))
            (match pc with WaitOpen => S (bs_opened s) | _ => bs_opened s end) in
          match wait_next pc v with
          | WaitDone => run_part a (op_after fuel oc th) (λ _, Between) (S (bt_round t)) s
          | pc' =>
              s ← run_part a (op_after fuel oc th) (Releasing pc') (bt_round t) s;
              t ← bs_threads s !! a;
              match bt_stage t with Releasing _ _ th => run_before fuel a pc' th (bt_round t) s | _ => None end
          end
      | _ => None
      end
  end.
Definition bar_run fuel (cs : list choice) s : option bar_sys := foldl (λ os c, s ← os; bar_do fuel s c) (Some s) cs.

Lemma part_steps a {A} (p : prog A) (f : world Q → A → stage) r s s' t :
  bs_threads s !! a = Some t → run_part a p f r s = Some s' →
  (∀ x ev w, exec (bt_node t) a p (bs_world s) (Returned x) ev w →
     bar_local a w t (mkBT (bt_node t) (f w x) (bt_start t) (bt_events t ++ ev) (bt_waits t) r)) →
  rtc bar_step s s'.
Proof.
  intros Ha Hr Hl. destruct s as [w b ts k]. unfold run_part in Hr. cbn [bs_world bs_bar bs_threads bs_opened] in *.
  rewrite Ha in Hr. cbn in Hr.
  destruct (run (bt_node t) a p w) as [[[x| |] ev] w'] eqn:E; try done. injection Hr as <-. apply run_exec in E.
  trans (mkBar w' b ts k); [|eapply rtc_once, bt_local; [done|by apply Hl]].
  apply exec_any in E. clear Hl. induction E; [done|]. by eapply rtc_l; [apply bt_world|].
Qed.

Lemma before_steps fuel a pc th r s s' n w0 ev wts :
  bs_threads s !! a = Some (mkBT n (Releasing pc (bs_world s) th) w0 ev wts r) →
  run_before fuel a pc th r s = Some s' → rtc bar_step s s'.
Proof.
  unfold run_before. intros Ha. destruct (wait_op pc) as [[x op]|] eqn:Eop; [|done]. cbn. intros Hr.
  eapply part_steps; [exact Ha|exact Hr|]. cbn. intros th' ev' w He. by eapply bl_before.
Qed.

(** The end of an operation, and the start of the next one. *)
Lemma after_steps fuel a pc oc th r s s' n w0 ev wts :
  bs_threads s !! a = Some (mkBT n (Acquiring pc oc (bs_world s) th) w0 ev wts r) → pc ≠ WaitDone →
  (s ← run_part a (op_after fuel oc th) (Releasing pc) r s;
   t ← bs_threads s !! a;
   match bt_stage t with Releasing _ _ th => run_before fuel a pc th (bt_round t) s | _ => None end) = Some s' → rtc bar_step s s'.
Proof.
  intros Ha Hpc Hr. destruct (run_part a _ _ _ s) as [s1|] eqn:E; [|done]. cbn [mbind option_bind] in Hr.
  trans s1; [eapply part_steps; [exact Ha|exact E|]; cbn; intros th' ev' w He; by eapply bl_after|].
  unfold run_part in E. rewrite Ha in E. cbn in E. destruct (run n a _ _) as [[[x| |] ev'] w]; try done. injection E as <-.
  cbn [bs_threads] in Hr. rewrite list_lookup_insert_eq in Hr by (by eapply lookup_lt_Some). cbn [mbind option_bind bt_stage] in Hr.
  eapply before_steps; [|exact Hr]. cbn [bs_threads bs_world]. by rewrite list_lookup_insert_eq by (by eapply lookup_lt_Some).
Qed.
Lemma restage_steps a t t' s s' :
  bs_threads s !! a = Some t → bar_local a (bs_world s) t t' →
  (bs_threads (restage a t' s) !! a = Some t' → rtc bar_step (restage a t' s) s') → rtc bar_step s s'.
Proof.
  intros Ha Hl Hr. destruct s as [w b ts k]. eapply rtc_l; [by apply (bt_local a t t')|].
  apply Hr. apply list_lookup_insert_eq. by eapply lookup_lt_Some.
Qed.

Lemma bar_do_steps fuel s s' c : (match c with ChAccess _ acc => Forall access_ok acc | _ => True end) →
  bar_do fuel s c = Some s' → rtc bar_step s s'.
Proof.
  intros Hok Hr. destruct c as [a acc|a|a]; cbn [bar_do] in Hr; destruct (bs_threads s !! a) as [t|] eqn:Ha; try done;
    cbn [mbind option_bind] in Hr; destruct t as [n st w0 ev wts r], st as [th|ws th|pc ws th|pc th|pc oc ws th]; try done.
  - eapply restage_steps; [exact Ha|apply bl_access|]. intros Ha'. eapply part_steps; [exact Ha'|exact Hr|].
    cbn. intros th' ev' w He. by eapply bl_accessed.
  - eapply restage_steps; [exact Ha|apply bl_wait|]. intros Ha'. eapply before_steps; [exact Ha'|exact Hr].
  - cbn [bt_stage bt_round bt_node] in Hr. destruct (wait_op pc) as [[x op]|] eqn:Eop; [|done]. cbn [mbind option_bind] in Hr.
    destruct (op_access 32 op (bar_get x (bs_bar s)) th) as [[v l] oc] eqn:Eacc.
    set (s1 := mkBar _ _ _ _) in Hr. trans s1; [destruct s; by eapply rtc_once, bt_access|].
    assert (bs_threads s1 !! a = Some (accessed (bs_world s) pc op v oc th (mkBT n (Ready pc th) w0 ev wts r))) as Ha1
      by (apply list_lookup_insert_eq; by eapply lookup_lt_Some).
    unfold accessed in Ha1; cbn [bt_node bt_round] in *.
    destruct (wait_next pc v) eqn:Enext; try (eapply (after_steps fuel a _ _ _ _ s1); [exact Ha1|done|exact Hr]).
    eapply part_steps; [exact Ha1|exact Hr|]. cbn. intros th' ev' w He. by eapply bl_return.
Qed.
End runs.

(** ** Examples *)

Section examples.
Let cfg : Config := small_config.
#[local] Existing Instance cfg.
#[local] Existing Instance small_config_ok.
#[local] Existing Instance small_eager.
#[local] Existing Instance small_direct.
Abbreviation SQ := (@spmc_bounded_queue nat).

(** Two threads. The first one stores, calls [wait] and polls; the second one calls
    it. Then the second one opens the barrier. *)
Definition ex_barrier : barrier := mkBarrier (mkLoc 2 vc_init) (mkLoc 0 vc_init) (mkLoc 0 vc_init).
Definition ex_threads : list (nat * ThreadOps) := [(0%nat, thread_new 0 0); (1%nat, thread_new 1 1)].
Definition ex_called : list choice := [ChAccess 0 ex_accesses; ChWait 0; ChOp 0; ChOp 0; ChOp 0; ChOp 0; ChWait 1].
Definition ex_opened : list choice := ex_called ++ [ChOp 1; ChOp 1; ChOp 1; ChOp 1; ChOp 1].
Definition ex_bar (cs : list choice) : option (bar_sys (Q := SQ)) :=
  w ← rac_init_world (Q := SQ); bar_run 5 cs (bar_init w ex_barrier ex_threads).
Definition ex_check (cs : list choice) (f : bar_sys (Q := SQ) → bool) : bool := match ex_bar cs with Some s => f s | None => false end.

Definition ex_stored (s : bar_sys (Q := SQ)) : bool :=
  match bs_threads s with
  | [t; u] => (bt_node t =? 0)%nat && (bt_node u =? 1)%nat && (bt_round u =? 1)%nat && stores_line (default [] (snd <$> bt_waits t !! 0%nat))
  | _ => false
  end.
Definition ex_inside (s : bar_sys (Q := SQ)) : bool :=
  forallb (λ t, match stage_pc (bt_stage t) with Some _ => true | None => false end) (bs_threads s) && (bar_work s =? 6)%nat.

Example ex_stored_true : ex_check ex_opened ex_stored = true.
Proof. vm_compute. reflexivity. Qed.
Example ex_inside_true : ex_check ex_called ex_inside = true.
Proof. vm_compute. reflexivity. Qed.

Lemma run_steps fuel cs (s s' : bar_sys (Q := SQ)) :
  Forall (λ c, match c with ChAccess _ acc => Forall access_ok acc | _ => True end) cs → bar_run fuel cs s = Some s' → rtc bar_step s s'.
Proof.
  revert s. induction cs as [|c cs IH]; intros s Hok Hr; [injection Hr as <-; apply rtc_refl|].
  inversion Hok as [|? ? Hc Hcs]; subst. unfold bar_run in Hr. cbn [foldl mbind option_bind] in Hr.
  destruct (bar_do fuel s c) as [s1|] eqn:E.
  - trans s1; [by eapply bar_do_steps|by apply IH].
  - exfalso. clear -Hr. induction cs as [|c cs IH]; [discriminate Hr|]. apply IH, Hr.
Qed.
Lemma ex_choices_ok : Forall (λ c, match c with ChAccess _ acc => Forall access_ok acc | _ => True end) ex_opened.
Proof. unfold ex_opened, ex_called. repeat first [exact ex_accesses_ok|constructor]. Qed.

Lemma ex_check_reachable cs f :
  Forall (λ c, match c with ChAccess _ acc => Forall access_ok acc | _ => True end) cs → ex_check cs f = true →
  ∃ s, bar_reachable s ∧ f s = true.
Proof.
  intros Hok H. unfold ex_check, ex_bar in H. destruct (rac_init_world (Q := SQ)) as [w0|] eqn:E0; [|done]. cbn [mbind option_bind] in H.
  destruct (bar_run 5 cs _) as [s|] eqn:E; [|done]. exists s. split; [|done].
  exists w0, ex_barrier, ex_threads. split; [|by eapply run_steps].
  split; [by apply ex_reachable|]. do 4 (split; [done|]). split; [intros [| |]; apply init_clock_valid|].
  repeat constructor; try (apply thread_new_ok); try (apply init_clock_valid); apply vc_get_init.
Qed.

Lemma barrier_synchronises_witness :
  ∃ (s : bar_sys (Q := SQ)) ws tr, bar_reachable s ∧ EvStore ex_line ∈ tr ∧ made_visible 0 1 ws tr ex_line (bs_world s).
Proof.
  destruct (ex_check_reachable ex_opened ex_stored ex_choices_ok ex_stored_true) as (s & Hre & Hf).
  unfold ex_stored in Hf. destruct (bs_threads s) as [|t [|u []]] eqn:Ets; try done.
  apply andb_prop in Hf as [Hf Hin]. apply andb_prop in Hf as [Hf Hr%Nat.eqb_eq]. apply andb_prop in Hf as [Ht%Nat.eqb_eq Hu%Nat.eqb_eq].
  destruct (barrier_synchronises small_config_ok small_eager small_direct s 0 1 0 t u Hre) as (ws & tr & Hw & Hvis);
    [by rewrite Ets|by rewrite Ets|rewrite Hr; lia|]. rewrite Hw in Hin. apply stores_line_elem in Hin.
  exists s, ws, tr. split; [exact Hre|]. split; [exact Hin|]. rewrite Ht, Hu in Hvis. apply Hvis; [done|vm_compute; congruence|exact Hin].
Defined.

Lemma barrier_progress_witness :
  ∃ (s : bar_sys (Q := SQ)), bar_reachable s ∧ bar_work s = 6%nat ∧
    ∃ a t pc, bs_threads s !! a = Some t ∧ stage_pc (bt_stage t) = Some pc ∧
     (pc = WaitDone ∨ ∃ x op, wait_op pc = Some (x, op) ∧ ∀ th v l oc, op_access 32 op (bar_get x (bs_bar s)) th = (v, l, oc) →
        (wait_left (Some (wait_next pc v)) < wait_left (Some pc))%nat).
Proof.
  destruct (ex_check_reachable ex_called ex_inside) as (s & Hre & Hf).
  { pose proof ex_choices_ok as H. unfold ex_opened in H. apply Forall_app in H as [H _]. exact H. }
  { exact ex_inside_true. }
  unfold ex_inside in Hf. apply andb_prop in Hf as [Hin Hwork%Nat.eqb_eq]. rewrite forallb_forall in Hin.
  exists s. split; [exact Hre|]. split; [exact Hwork|].
  apply (barrier_progress small_config_ok small_eager small_direct s Hre). intros a t Ha Hn.
  specialize (Hin t). rewrite Hn in Hin. discriminate Hin. apply list_elem_of_In. by eapply list_elem_of_lookup_2.
Defined.
End examples.
