(* ===== verification/SharedMutexSystem.v ===== *)
(** SharedMutexSystem: the threads that share a [CXLSharedMutex]
    ([include/cxlSync.hpp]).

    The mutex is the reader-writer lock of SharedLock over any [Lock], and the clock
    beside it, which the code accesses one component at a time: readers read it,
    and [unlock_shared] writes it, while other readers do the same. So a step is a
    step of the lock, an access to one component, an action of any thread of the
    machine, or the end of what a thread does in between. *)
From S2P Require Import Prelude Config VectorClock ClGroup LocalCLTable.
From S2P Require Import FlushUtils SpmcQueue LogManager CacheInfo Actions.
From S2P Require Import Invariant Logic ActionSpecs ThreadOps Runtime Release.
From S2P Require Import Acquire Coherence CxlSync Handover AtomicOps SharedLock.

(** ** Definitions *)

(** Why a thread locks: [lock_shared]; [lock], which acquires under the shared lock
    first and then under the exclusive one. *)
Inductive purpose := ForRead | ForFirst | ForWrite.
Definition mode (p : purpose) : client := match p with ForWrite => Writing | _ => Reading end.
#[export] Instance client_eq_dec : EqDecision client.
Proof. solve_decision. Defined.
#[export] Instance purpose_eq_dec : EqDecision purpose.
Proof. solve_decision. Defined.
Definition held (wr : bool) : client := if wr then Writing else Reading.

Section system.
Context `{cfg : Config} {Q : Type} `{FQ : !FifoQueue Q nat LOG_COUNT} {L : Type} `{!Lock L}.
Implicit Types (w ws : world Q) (th : ThreadOps) (p : purpose) (a n i fuel : nat) (ev : list tevent) (wr : bool).

(** The first half of [thread_acquire], which reads the clock by reference. Here all
    components are read before the wait; the code reads one when its turn comes, with
    the waits for others in between. *)
Definition acquire_wait fuel (clock : vclock) th : prog unit :=
  if CONSUME_HELPING then help_consume fuel clock th else wait_for_consume fuel clock th.

(** What a thread does. [Copying] and [Merging]: the components of the clock that
    [thread_acquire] has read, for its wait and for its [merge]. [Storing]: the
    components before [i] are written; [merge] has read [r]; [acct] is the account
    of the stores of the section. *)
Inductive mx_stage :=
  | Outside th | OutAccess ws th
  | Wanting p th
  | Copying p (c : vclock) th | Waiting p (c : vclock) ws th | Merging p (c : vclock) th
  | FreeFirst th | Freeing th
  | Holding wr th | HoldAccess wr ws th | Releasing wr ws th
  | Storing wr i (r : option Z) (acct : world Q * list tevent) th.
Record mx_thread := mkMT { mt_node : nat; mt_stage : mx_stage; mt_start : world Q; mt_events : list tevent }.

(** Ghosts: the clock of the last writer that unlocked, and the accounts of all. *)
Record mx_sys := mkMX {
  mx_world : world Q;
  mx_mtx : SharedLock L;
  mx_clock : vclock;
  mx_threads : list mx_thread;
  mx_floor : vclock;
  mx_given : list (nat * (world Q * list tevent));
}.

(** The calls of the lock a thread makes at each stage, by where its client gets. *)
Definition permits (st : mx_stage) (c : option client) : Prop :=
  match st with
  | Wanting (ForRead | ForFirst) _ => c = Some ReadLocking ∨ c = Some ReadCounted ∨ c = Some Reading
  | Wanting ForWrite _ => c = Some WriteLocking ∨ c = Some Writing
  | FreeFirst _ | Freeing _ => c = None
  | _ => False
  end.

(** [c] is where the client of the thread is. *)
Inductive mx_local a w (c : option client) : mx_thread → mx_thread → Prop :=
  | ml_access n th s0 ev : mx_local a w c (mkMT n (Outside th) s0 ev) (mkMT n (OutAccess w th) s0 ev)
  | ml_accessed n ws th th' s0 ev ev' fuel acc :
      Forall access_ok acc → exec n a (rac_accesses fuel acc th) ws (Returned th') ev' w →
      mx_local a w c (mkMT n (OutAccess ws th) s0 ev) (mkMT n (Outside th') s0 (ev ++ ev'))
  | ml_lock n th s0 ev p : p ≠ ForWrite → mx_local a w c (mkMT n (Outside th) s0 ev) (mkMT n (Wanting p th) s0 ev)
  | ml_locked n p th s0 ev : c = Some (mode p) → mx_local a w c (mkMT n (Wanting p th) s0 ev) (mkMT n (Copying p [] th) s0 ev)
  | ml_wait n p cl th s0 ev : length cl = NODE_COUNT → mx_local a w c (mkMT n (Copying p cl th) s0 ev) (mkMT n (Waiting p cl w th) s0 ev)
  | ml_waited n p cl ws th s0 ev ev' fuel :
      exec n a (acquire_wait fuel cl th) ws (Returned tt) ev' w →
      mx_local a w c (mkMT n (Waiting p cl ws th) s0 ev) (mkMT n (Merging p [] th) s0 (ev ++ ev'))
  | ml_merged n p cl th s0 ev : length cl = NODE_COUNT →
      mx_local a w c (mkMT n (Merging p cl th) s0 ev)
        (mkMT n (let th := set_clock (merge cl (thread_clock th)) th in
                 match p with ForRead => Holding false th | ForFirst => FreeFirst th | ForWrite => Holding true th end) s0 ev)
  | ml_second n th s0 ev : c = None → mx_local a w c (mkMT n (FreeFirst th) s0 ev) (mkMT n (Wanting ForWrite th) s0 ev)
  | ml_freed n th s0 ev : c = None → mx_local a w c (mkMT n (Freeing th) s0 ev) (mkMT n (Outside th) s0 ev)
  | ml_hold_access n wr th s0 ev : mx_local a w c (mkMT n (Holding wr th) s0 ev) (mkMT n (HoldAccess wr w th) s0 ev)
  | ml_hold_accessed n wr ws th th' s0 ev ev' fuel acc :
      Forall access_ok acc → exec n a (rac_accesses fuel acc th) ws (Returned th') ev' w →
      mx_local a w c (mkMT n (HoldAccess wr ws th) s0 ev) (mkMT n (Holding wr th') s0 (ev ++ ev'))
  | ml_unlock n wr th s0 ev : mx_local a w c (mkMT n (Holding wr th) s0 ev) (mkMT n (Releasing wr w th) s0 ev)
  | ml_released n wr ws th th' b s0 ev ev' fuel :
      exec n a (thread_release fuel th) ws (Returned (b, th')) ev' w →
      mx_local a w c (mkMT n (Releasing wr ws th) s0 ev) (mkMT n (Storing wr 0 None (s0, ev ++ ev') th') w []).

(** An access to a component of the clock. *)
Inductive mx_touch : mx_stage → vclock → mx_stage → vclock → Prop :=
  | mc_copy p cl th c : (length cl < NODE_COUNT)%nat → mx_touch (Copying p cl th) c (Copying p (cl ++ [vc_get c (length cl)]) th) c
  | mc_merge p cl th c : (length cl < NODE_COUNT)%nat → mx_touch (Merging p cl th) c (Merging p (cl ++ [vc_get c (length cl)]) th) c
  | mc_read wr i acct th c : (i < NODE_COUNT)%nat → LOCATION_CLOCK_MERGE = true →
      mx_touch (Storing wr i None acct th) c (Storing wr i (Some (vc_get c i)) acct th) c
  | mc_max wr i r acct th c :
      mx_touch (Storing wr i (Some r) acct th) c (Storing wr (S i) None acct th) (assign i (Z.max r (vc_get (thread_clock th) i)) c)
  | mc_assign wr i acct th c : (i < NODE_COUNT)%nat → LOCATION_CLOCK_MERGE = false →
      mx_touch (Storing wr i None acct th) c (Storing wr (S i) None acct th) (assign i (vc_get (thread_clock th) i) c).

Definition restaged (t : mx_thread) (st : mx_stage) : mx_thread := mkMT (mt_node t) st (mt_start t) (mt_events t).

Inductive mx_step : mx_sys → mx_sys → Prop :=
  | mx_any w w' l c ts fl g : any_step w w' → mx_step (mkMX w l c ts fl g) (mkMX w' l c ts fl g)
  | mx_lock w l l' c ts fl g :
      shared_step l l' →
      (∀ a, clients l' !! a = clients l !! a ∨ ∃ t, ts !! a = Some t ∧ permits (mt_stage t) (clients l' !! a)) →
      mx_step (mkMX w l c ts fl g) (mkMX w l' c ts fl g)
  | mx_thread_step a t t' w l c ts fl g :
      ts !! a = Some t → mx_local a w (clients l !! a) t t' → mx_step (mkMX w l c ts fl g) (mkMX w l c (<[a := t']> ts) fl g)
  | mx_access a t st' w l c c' ts fl g :
      ts !! a = Some t → mx_touch (mt_stage t) c st' c' →
      mx_step (mkMX w l c ts fl g) (mkMX w l c' (<[a := restaged t st']> ts) fl g)
  | mx_stored a t wr acct th w l c ts fl g :
      ts !! a = Some t → mt_stage t = Storing wr NODE_COUNT None acct th →
      mx_step (mkMX w l c ts fl g)
        (mkMX w l c (<[a := restaged t (Freeing th)]> ts) (if wr then thread_clock th else fl) (if wr then g ++ [(mt_node t, acct)] else g)).

Definition mx_fresh w (x : nat * ThreadOps) : mx_thread := mkMT x.1 (Outside x.2) w [].
Definition mx_init w (ths : list (nat * ThreadOps)) : mx_sys := mkMX w shared_init vc_init (map (mx_fresh w) ths) vc_init [].
Definition mx_start_ok w (ths : list (nat * ThreadOps)) : Prop :=
  world_reachable w ∧ Forall (λ '(n, th), (n < NODE_COUNT)%nat ∧ thread_ok n th ∧ clock_valid (thread_clock th) w) ths.
Definition mx_reachable (s : mx_sys) : Prop := ∃ w ths, mx_start_ok w ths ∧ rtc mx_step (mx_init w ths) s.

(** The thread has the mutex: its [lock] or [lock_shared] has returned and its
    [unlock] or [unlock_shared] has not given it back. *)
Definition has_mutex (st : mx_stage) : option bool :=
  match st with Holding wr _ | HoldAccess wr _ _ | Releasing wr _ _ | Storing wr _ _ _ _ => Some wr | _ => None end.
End system.

(** ** The invariant *)

Section invariant.
Context `{cfg : Config} {ok : ConfigOk cfg} {EB : EagerBuild cfg} {DB : DirectBuild cfg}
  {Q : Type} `{FQ : !FifoQueue Q nat LOG_COUNT} {L : Type} `{!Lock L}.
Implicit Types (w ws : world Q) (th : ThreadOps) (p : purpose) (a b n i j fuel : nat) (ev tr : list tevent) (wr : bool)
  (V clk cl : vclock) (t : mx_thread (Q := Q)) (s : mx_sys (Q := Q) (L := L)) (st : mx_stage (Q := Q)).

Definition comp_valid i (x : Z) w : Prop := x = 0 ∨ ∃ q d r, x = Z.of_nat q + 1 ∧ published_at i q d r w.
(** The components read so far. *)
Definition prefix_ok V cl w : Prop :=
  (length cl ≤ NODE_COUNT)%nat ∧ ∀ i, (i < length cl)%nat → vc_get V i ≤ vc_get cl i ∧ comp_valid i (vc_get cl i) w.

Definition thread_inv n w0 ev th w : Prop := thread_ok n th ∧ noted th ev ∧ session n w0 th ev w.
Definition running_inv n w0 ev ws th w : Prop := world_ok ws ∧ grows ws w ∧ thread_inv n w0 ev th ws.

(** [V] is the clock of the last writer, [clk] that of the mutex. *)
Definition stage_inv n w0 ev V clk st w : Prop :=
  match st with
  | Outside th | Wanting _ th | FreeFirst th | Freeing th => thread_inv n w0 ev th w
  | OutAccess ws th => running_inv n w0 ev ws th w
  | Copying _ cl th => thread_inv n w0 ev th w ∧ prefix_ok V cl w
  | Waiting _ cl ws th => running_inv n w0 ev ws th w ∧ length cl = NODE_COUNT ∧ clock_le V cl
  | Merging _ cl th => thread_inv n w0 ev th w ∧ prefix_ok V cl w ∧ caught_up n V w
  | Holding _ th => thread_inv n w0 ev th w ∧ clock_le V (thread_clock th) ∧ caught_up n V w
  | HoldAccess _ ws th | Releasing _ ws th => running_inv n w0 ev ws th w ∧ clock_le V (thread_clock th) ∧ caught_up n V w
  | Storing wr i r acct th =>
      thread_inv n w0 ev th w ∧ clock_le V (thread_clock th) ∧ caught_up n V w ∧ (i ≤ NODE_COUNT)%nat ∧
      (∀ x, r = Some x → (i < NODE_COUNT)%nat ∧ vc_get V i ≤ x ∧ comp_valid i x w) ∧
      world_ok acct.1 ∧ handed_out n acct.1 (thread_clock th) acct.2 w ∧
      (wr = true → ∀ j, (j < i)%nat → vc_get (thread_clock th) j ≤ vc_get clk j)
  end.

Definition client_inv st (c : option client) : Prop :=
  match st with
  | Outside _ | OutAccess _ _ => c = None
  | Wanting _ _ => c = None ∨ permits st c
  | Copying p _ _ | Waiting p _ _ _ | Merging p _ _ => c = Some (mode p)
  | FreeFirst _ => c = None ∨ c = Some Reading
  | Freeing _ => c = None ∨ c = Some Reading ∨ c = Some Writing
  | Holding wr _ | HoldAccess wr _ _ | Releasing wr _ _ | Storing wr _ _ _ _ => c = Some (held wr)
  end.

Record mx_inv s : Prop := {
  xi_world : world_ok (mx_world s);
  xi_lock : shared_inv (mx_mtx s);
  xi_clock : clock_valid (mx_clock s) (mx_world s);
  xi_floor : clock_valid (mx_floor s) (mx_world s);
  xi_le : clock_le (mx_floor s) (mx_clock s);
  xi_node a t : mx_threads s !! a = Some t → (mt_node t < NODE_COUNT)%nat ∧ world_ok (mt_start t);
  xi_stage a t : mx_threads s !! a = Some t →
    stage_inv (mt_node t) (mt_start t) (mt_events t) (mx_floor s) (mx_clock s) (mt_stage t) (mx_world s);
  xi_client a t : mx_threads s !! a = Some t → client_inv (mt_stage t) (clients (mx_mtx s) !! a);
  xi_given n ws tr : (n, (ws, tr)) ∈ mx_given s → (n < NODE_COUNT)%nat ∧ world_ok ws ∧ handed_out n ws (mx_floor s) tr (mx_world s);
}.

(** *** Persistence *)

Lemma comp_valid_persistent i x : persistent (comp_valid i x).
Proof. intros w w' Hg [H|(q & d & r & H & Hp)]; [by left|right]. exists q, d, r. split; [done|]. by eapply published_persistent. Qed.
Lemma prefix_persistent V cl : persistent (prefix_ok V cl).
Proof. intros w w' Hg [H1 H2]. split; [done|]. intros i Hi. destruct (H2 i Hi). split; [done|]. by eapply comp_valid_persistent. Qed.
Lemma thread_inv_persistent n w0 ev th : persistent (thread_inv n w0 ev th).
Proof. intros w w' Hg (H1 & H2 & H3). split; [done|]. split; [done|]. by eapply session_persistent. Qed.
Lemma running_persistent n w0 ev ws th : persistent (running_inv n w0 ev ws th).
Proof. intros w w' Hg (H1 & H2 & H3). split; [done|]. split; [by eapply grows_persistent|done]. Qed.
Lemma caught_up_persistent n V : persistent (caught_up (Q := Q) n V).
Proof. intros w w' Hg H i Hi Hne. eapply processed_upto_persistent; [exact Hg|by apply H]. Qed.
Lemma caught_up_le n V cl w : caught_up n cl w → clock_le V cl → caught_up n V w.
Proof. intros H Hle i Hi Hne. eapply processed_upto_mono; [apply Hle|by apply H]. Qed.

Lemma stage_inv_persistent n w0 ev V clk st : persistent (stage_inv n w0 ev V clk st).
Proof.
  intros w w' Hg. pose proof (λ ev th, thread_inv_persistent n w0 ev th w w' Hg) as Ht.
  pose proof (λ ev ws th, running_persistent n w0 ev ws th w w' Hg) as Hr. pose proof (caught_up_persistent n V w w' Hg) as Hc.
  pose proof (λ cl, prefix_persistent V cl w w' Hg) as Hp.
  destruct st; cbn; try (by auto); try (by intros [? ?]; auto); try (by intros (? & ? & ?); auto).
  intros (H1 & H2 & H3 & H4 & H5 & H6 & H7 & H8). do 2 (split; [by auto|]). split; [by auto|]. split; [done|]. split; [|split; [done|]].
  - intros x Hx. destruct (H5 x Hx) as (? & ? & ?). split; [done|]. split; [done|]. by eapply comp_valid_persistent.
  - split; [by eapply handed_out_persistent|done].
Qed.

(** *** Clocks by component *)

Lemma clock_valid_comp cl w : clock_valid cl w ↔ length cl = NODE_COUNT ∧ ∀ i, (i < NODE_COUNT)%nat → comp_valid i (vc_get cl i) w.
Proof. done. Qed.
Lemma vc_get_out cl i : length cl = NODE_COUNT → (NODE_COUNT ≤ i)%nat → vc_get cl i = 0.
Proof. intros Hl Hi. unfold vc_get. by rewrite lookup_ge_None_2 by lia. Qed.
Lemma prefix_full V cl w : clock_valid V w → prefix_ok V cl w → length cl = NODE_COUNT → clock_valid cl w ∧ clock_le V cl.
Proof.
  intros [HV _] [_ H] Hl. split; [split; [done|]; intros i Hi; by apply H; rewrite Hl|].
  intros i. destruct (decide (i < NODE_COUNT)%nat); [apply H; lia|]. rewrite !vc_get_out by (done || lia). done.
Qed.
Lemma prefix_nil V w : prefix_ok V [] w.
Proof. split; [cbn; lia|]. intros i Hi. cbn in Hi. lia. Qed.
Lemma prefix_snoc V cl clk w :
  prefix_ok V cl w → (length cl < NODE_COUNT)%nat → clock_valid clk w → clock_le V clk → prefix_ok V (cl ++ [vc_get clk (length cl)]) w.
Proof.
  intros [_ H] Hlt [_ Hv] Hle. unfold prefix_ok. rewrite length_app. cbn [length]. split; [lia|]. intros i Hi.
  set (x := vc_get clk (length cl)). destruct (decide (i < length cl)%nat) as [Hlt'|].
  - assert (vc_get (cl ++ [x]) i = vc_get cl i) as -> by (unfold vc_get; by rewrite lookup_app_l). by apply H.
  - assert (i = length cl) as -> by lia. assert (vc_get (cl ++ [x]) (length cl) = x) as -> by (unfold vc_get; by rewrite list_lookup_middle).
    split; [apply Hle|by apply Hv].
Qed.
Lemma clock_get_assign clk i j x : (i < length clk)%nat → vc_get (assign i x clk) j = if decide (i = j) then x else vc_get clk j.
Proof.
  intros Hi. unfold vc_get, assign. destruct (decide (i = j)) as [<-|Hne]; [by rewrite list_lookup_insert_eq|].
  by rewrite list_lookup_insert_ne.
Qed.
Lemma assign_ok V clk i x w :
  clock_valid clk w → clock_le V clk → (i < NODE_COUNT)%nat → comp_valid i x w → vc_get V i ≤ x →
  clock_valid (assign i x clk) w ∧ clock_le V (assign i x clk).
Proof.
  intros [Hl Hv] Hle Hi Hx HV. split; [split; [unfold assign; by rewrite length_insert|]|]; intros j; [intros Hj|];
    rewrite clock_get_assign by lia; case_decide; subst; auto.
Qed.

(** *** What a thread does by itself *)

Lemma running_accesses n a fuel acc w0 ev ws th th' ev' w :
  (n < NODE_COUNT)%nat → Forall access_ok acc → running_inv n w0 ev ws th w → exec n a (rac_accesses fuel acc th) ws (Returned th') ev' w →
  thread_inv n w0 (ev ++ ev') th' w ∧ thread_clock th' = thread_clock th.
Proof.
  intros Hn Hacc (Hw & _ & H1 & H2 & H3) He.
  destruct (session_accesses n a fuel acc w0 th th' ev ev' ws w Hn H1 H2 Hacc Hw H3 He) as (H4 & H5 & H6 & H7). done.
Qed.
Lemma running_wait n a fuel cl w0 ev ws th ev' w :
  (n < NODE_COUNT)%nat → running_inv n w0 ev ws th w → exec n a (acquire_wait fuel cl th) ws (Returned tt) ev' w →
  thread_inv n w0 (ev ++ ev') th w ∧ caught_up n cl w.
Proof.
  intros Hn (Hw & _ & H1 & H2 & H3) He.
  destruct (triple_frame n a _ _ _ _ (session_persistent n w0 th ev) (spec_acquire_wait n a fuel cl th Hn (to_node _ _ H1))
    ws _ _ _ Hw (conj I H3) He) as (_ & _ & Hr).
  destruct (Hr _ eq_refl) as [[Hfl Hup] Hs]. destruct (session_flushes n w0 th ev ev' w Hfl) as [Hn' Hs'].
  split; [|done]. split; [done|]. split; [by apply Hn'|by apply Hs'].
Qed.
Lemma running_release n a fuel w0 ev ws th (b : bool) th' ev' w :
  (n < NODE_COUNT)%nat → running_inv n w0 ev ws th w → exec n a (thread_release fuel th) ws (Returned (b, th')) ev' w →
  world_ok w ∧ thread_inv n w [] th' w ∧ clock_le (thread_clock th) (thread_clock th') ∧ handed_out n w0 (thread_clock th') (ev ++ ev') w.
Proof.
  intros Hn (Hw & _ & H1 & H2 & [H3 H4]) He.
  destruct (spec_session_release n a fuel w0 th ev (thread_clock th) Hn H1 H2 ws _ _ _ Hw (conj H3 (conj H4 H4)) He) as (Hw' & _ & Hr).
  destruct (Hr _ eq_refl) as ((H5 & H6) & H7 & _ & H8). split; [done|]. split; [|done].
  split; [done|]. split; [apply noted_nil|by apply session_new].
Qed.
Lemma thread_acquired n w0 ev th cl w : thread_inv n w0 ev th w → clock_valid cl w → thread_inv n w0 ev (acquired cl th) w.
Proof. intros (H1 & H2 & H3) Hc. split; [apply acquired_ok; [done|apply Hc]|]. split; [exact H2|by apply session_acquired]. Qed.

Lemma local_inv a w c t t' V clk :
  mx_local a w c t t' → (mt_node t < NODE_COUNT)%nat → world_ok w → clock_valid V w →
  stage_inv (mt_node t) (mt_start t) (mt_events t) V clk (mt_stage t) w → client_inv (mt_stage t) c → world_ok (mt_start t) →
  stage_inv (mt_node t') (mt_start t') (mt_events t') V clk (mt_stage t') w ∧ client_inv (mt_stage t') c ∧
  mt_node t' = mt_node t ∧ world_ok (mt_start t').
Proof.
  intros Hl Hn Hw HV Hst Hcl Hs. destruct Hl as [n th w0 ev|n ws th th' w0 ev ev' fuel acc Hacc He|n th w0 ev p Hp|n p th w0 ev Hc|n p cl th w0 ev Hlen
    |n p cl ws th w0 ev ev' fuel He|n p cl th w0 ev Hlen|n th w0 ev Hc|n th w0 ev Hc|n wr th w0 ev|n wr ws th th' w0 ev ev' fuel acc Hacc He
    |n wr th w0 ev|n wr ws th th' b w0 ev ev' fuel He]; cbn [mt_node mt_stage mt_start mt_events stage_inv client_inv] in *.
  - split; [|done]. split; [done|]. split; [apply grows_refl|done].
  - split; [|done]. by destruct (running_accesses n a fuel acc w0 ev ws th th' ev' w Hn Hacc Hst He).
  - split; [done|]. split; [by left|done].
  - split; [|done]. split; [done|apply prefix_nil].
  - split; [|done]. destruct Hst as [H1 H2]. split; [split; [done|]; split; [apply grows_refl|done]|]. split; [done|]. by eapply prefix_full.
  - split; [|done]. destruct Hst as (H1 & H2 & H3). destruct (running_wait n a fuel cl w0 ev ws th ev' w Hn H1 He) as [H4 H5].
    split; [done|]. split; [apply prefix_nil|]. by eapply caught_up_le.
  - destruct Hst as (H1 & H2 & H3). destruct (prefix_full V cl w HV H2 Hlen) as [H4 H5]. fold (acquired cl th).
    assert (thread_inv n w0 ev (acquired cl th) w) as Hacq by (by apply thread_acquired).
    assert (clock_le V (thread_clock (acquired cl th))) as Hle.
    { eapply clock_le_trans; [exact H5|]. apply clock_le_merge. destruct H1 as [H1 _]. destruct H1. congruence. }
    destruct p; cbn [stage_inv client_inv]; auto.
  - split; [done|]. split; [by left|done].
  - done.
  - split; [|done]. destruct Hst as (H1 & H2 & H3). split; [split; [done|]; split; [apply grows_refl|done]|done].
  - split; [|done]. destruct Hst as (H1 & H2 & H3). destruct (running_accesses n a fuel acc w0 ev ws th th' ev' w Hn Hacc H1 He) as [H4 H5].
    split; [done|]. rewrite H5. done.
  - split; [|done]. destruct Hst as (H1 & H2 & H3). split; [split; [done|]; split; [apply grows_refl|done]|done].
  - destruct Hst as (H1 & H2 & H3). destruct (running_release n a fuel w0 ev ws th b th' ev' w Hn H1 He) as (H4 & H5 & H6 & H7).
    split; [|done]. split; [done|]. split; [by eapply clock_le_trans|]. split; [done|]. split; [lia|]. split; [done|].
    split; [done|]. split; [done|]. intros _ j Hj. lia.
Qed.

(** *** Exclusion *)

(** A thread that says anything of the floor holds the lock. *)
Lemma claims_hold st c n w0 ev V V' clk clk' w :
  client_inv st c → stage_inv n w0 ev V clk st w → (∀ x, c = Some x → x = ReadLocking ∨ x = WriteLocking) → stage_inv n w0 ev V' clk' st w.
Proof.
  intros Hc Hst Hx. destruct st as [th|ws th|p th|p cl th|p cl ws th|p cl th|th|th|wr th|wr ws th|wr ws th|wr i r acct th]; cbn in *; try done;
    try (by destruct (Hx _ Hc) as [|]; destruct p); by destruct (Hx _ Hc) as [|]; destruct wr.
Qed.
(** The clock of the mutex matters only to a writer that stores to it. *)
Lemma stage_inv_clock n w0 ev V clk clk' st w :
  (∀ i r acct th, st ≠ Storing true i r acct th) → stage_inv n w0 ev V clk st w → stage_inv n w0 ev V clk' st w.
Proof.
  intros Hne. destruct st as [th|ws th|p th|p cl th|p cl ws th|p cl th|th|th|wr th|wr ws th|wr ws th|wr i r acct th]; cbn; try done.
  destruct wr; [by destruct (Hne i r acct th)|]. intros (H1 & H2 & H3 & H4 & H5 & H6 & H7 & H8). by split_and!.
Qed.

(** *** Steps *)

Lemma mx_any_inv w w' l c ts fl g : any_step w w' → mx_inv (mkMX w l c ts fl g) → mx_inv (mkMX w' l c ts fl g).
Proof.
  intros Hs [H1 H2 H3 H4 H5 H6 H7 H8 H9]; cbn [mx_world mx_mtx mx_clock mx_threads mx_floor mx_given] in *. destruct (any_step_ok w w' H1 Hs) as [Hw' Hg].
  constructor; cbn [mx_world mx_mtx mx_clock mx_threads mx_floor mx_given]; try done; try (by eapply clock_valid_persistent).
  - intros a t Ha. eapply stage_inv_persistent; [exact Hg|by eapply H7].
  - intros n ws tr Hin. destruct (H9 n ws tr Hin) as (? & ? & ?). split; [done|]. split; [done|]. by eapply handed_out_persistent.
Qed.

Lemma permits_client st c c' : client_inv st c → permits st c' → client_inv st c'.
Proof. destruct st as [th|ws th|p th|p cl th|p cl ws th|p cl th|th|th|wr th|wr ws th|wr ws th|wr i r acct th]; cbn; naive_solver. Qed.
Lemma mx_lock_inv w l l' c ts fl g :
  shared_step l l' →
  (∀ a, clients l' !! a = clients l !! a ∨ ∃ t, ts !! a = Some t ∧ permits (mt_stage t) (clients l' !! a)) →
  mx_inv (mkMX w l c ts fl g) → mx_inv (mkMX w l' c ts fl g).
Proof.
  intros Hs Hp [H1 H2 H3 H4 H5 H6 H7 H8 H9]; cbn [mx_world mx_mtx mx_clock mx_threads mx_floor mx_given] in *.
  constructor; cbn [mx_world mx_mtx mx_clock mx_threads mx_floor mx_given]; try done; [by eapply shared_step_inv|].
  intros a t Ha. destruct (Hp a) as [->|(t' & Ha' & Hperm)]; [by eapply H8|]. assert (t' = t) as -> by congruence.
  eapply permits_client; [by eapply H8|done].
Qed.

Lemma mx_thread_inv a t t' w l c ts fl g :
  ts !! a = Some t → mx_local a w (clients l !! a) t t' → mx_inv (mkMX w l c ts fl g) → mx_inv (mkMX w l c (<[a := t']> ts) fl g).
Proof.
  intros Ha Hl [H1 H2 H3 H4 H5 H6 H7 H8 H9]; cbn [mx_world mx_mtx mx_clock mx_threads mx_floor mx_given] in *.
  destruct (H6 a t Ha) as [Hn Hs0].
  destruct (local_inv a w _ t t' fl c Hl Hn H1 H4 (H7 a t Ha) (H8 a t Ha) Hs0) as (Hst & Hcl & En & Hs).
  constructor; cbn [mx_world mx_mtx mx_clock mx_threads mx_floor mx_given]; try done.
  - intros b u [(<- & <- & _)|[_ Hb]]%list_lookup_insert_Some; [by rewrite En|by eapply H6].
  - intros b u [(<- & <- & _)|[_ Hb]]%list_lookup_insert_Some; [done|by eapply H7].
  - intros b u [(<- & <- & _)|[_ Hb]]%list_lookup_insert_Some; [done|by eapply H8].
Qed.

(** An access keeps the bounds of the clock and the thread's part. *)
Lemma touch_inv n w0 ev V st st' clk clk' w :
  mx_touch st clk st' clk' → clock_valid V w → clock_valid clk w → clock_le V clk → stage_inv n w0 ev V clk st w →
  stage_inv n w0 ev V clk' st' w ∧ clock_valid clk' w ∧ clock_le V clk' ∧ (∀ c, client_inv st c → client_inv st' c) ∧
  (clk' = clk ∨ ∃ wr, has_mutex st = Some wr).
Proof.
  intros Ht HV Hv Hle Hst. destruct Ht as [p cl th c Hlt|p cl th c Hlt|wr i acct th c Hi Hm|wr i r acct th c|wr i acct th c Hi Hm]; cbn [stage_inv] in Hst.
  - destruct Hst as [H1 H2]. split; [|by auto]. split; [done|]. by apply prefix_snoc.
  - destruct Hst as (H1 & H2 & H3). split; [|by auto]. split; [done|]. split; [by apply prefix_snoc|done].
  - destruct Hst as (H1 & H2 & H3 & H4 & _ & H6 & H7 & H8). split; [|by auto]. cbn [stage_inv]. split_and!; try done.
    intros x [= <-]. split; [done|]. split; [apply Hle|by apply Hv].
  - destruct Hst as (H1 & H2 & H3 & H4 & H5 & H6 & H7 & H8). destruct (H5 r eq_refl) as (Hi & Hr & Hcv).
    set (x := Z.max r (vc_get (thread_clock th) i)).
    assert (comp_valid i x w) as Hx.
    { destruct H1 as (_ & _ & _ & [_ Hc]). unfold x. destruct (Z.max_spec r (vc_get (thread_clock th) i)) as [[_ ->]|[_ ->]]; [by apply Hc|done]. }
    destruct (assign_ok V c i x w Hv Hle Hi Hx) as [Hv' Hle']; [unfold x; lia|].
    split; [|split; [done|]; split; [done|]; split; [done|]; right; by exists wr]. cbn [stage_inv]. split_and!; try done.
    intros Hwr j Hj. rewrite clock_get_assign by (destruct Hv as [-> _]; lia). case_decide; [subst; unfold x; lia|]. apply H8; [done|lia].
  - destruct Hst as (H1 & H2 & H3 & H4 & _ & H6 & H7 & H8). set (x := vc_get (thread_clock th) i).
    assert (comp_valid i x w) as Hx by (destruct H1 as (_ & _ & _ & [_ Hc]); by apply Hc).
    destruct (assign_ok V c i x w Hv Hle Hi Hx) as [Hv' Hle']; [apply H2|].
    split; [|split; [done|]; split; [done|]; split; [done|]; right; by exists wr]. cbn [stage_inv]. split_and!; try done.
    intros Hwr j Hj. rewrite clock_get_assign by (destruct Hv as [-> _]; lia). case_decide; [by subst|]. apply H8; [done|lia].
Qed.

Lemma mx_access_inv a t st' w l c c' ts fl g :
  ts !! a = Some t → mx_touch (mt_stage t) c st' c' → mx_inv (mkMX w l c ts fl g) → mx_inv (mkMX w l c' (<[a := restaged t st']> ts) fl g).
Proof.
  intros Ha Ht [H1 H2 H3 H4 H5 H6 H7 H8 H9]; cbn [mx_world mx_mtx mx_clock mx_threads mx_floor mx_given] in *.
  destruct (touch_inv _ _ _ fl _ _ _ _ w Ht H4 H3 H5 (H7 a t Ha)) as (Hst & Hv & Hle & Hcl & Hch).
  constructor; cbn [mx_world mx_mtx mx_clock mx_threads mx_floor mx_given]; try done.
  - intros b u [(<- & <- & _)|[_ Hb]]%list_lookup_insert_Some; [exact (H6 a t Ha)|by eapply H6].
  - intros b u [(<- & <- & _)|[Hne Hb]]%list_lookup_insert_Some; [done|]. destruct Hch as [->|[wr Hh]]; [by eapply H7|].
    apply (stage_inv_clock _ _ _ _ c); [|by eapply H7]. intros i r acct th E.
    pose proof (H8 b u Hb) as Hcb. rewrite E in Hcb. cbn in Hcb. pose proof (H8 a t Ha) as Hca.
    assert (clients l !! a = Some (held wr)) as Hca' by (destruct (mt_stage t); try done; cbn in Hh, Hca; congruence).
    destruct (writer_alone l b H2 Hcb a (held wr) Hca') as [|]; [done|by destruct wr..].
  - intros b u [(<- & <- & _)|[Hne Hb]]%list_lookup_insert_Some; [by apply Hcl, H8|by eapply H8].
Qed.

Lemma mx_stored_inv a t wr acct th w l c ts fl g :
  ts !! a = Some t → mt_stage t = Storing wr NODE_COUNT None acct th → mx_inv (mkMX w l c ts fl g) →
  mx_inv (mkMX w l c (<[a := restaged t (Freeing th)]> ts) (if wr then thread_clock th else fl) (if wr then g ++ [(mt_node t, acct)] else g)).
Proof.
  intros Ha Hst [H1 H2 H3 H4 H5 H6 H7 H8 H9]; cbn [mx_world mx_mtx mx_clock mx_threads mx_floor mx_given] in *.
  pose proof (H7 a t Ha) as Ht. pose proof (H8 a t Ha) as Hc. rewrite Hst in Ht, Hc. destruct Ht as (T1 & T2 & T3 & _ & _ & T6 & T7 & T8). cbn in Hc.
  assert (clock_valid (thread_clock th) w) as Hv by apply T1.
  constructor; cbn [mx_world mx_mtx mx_clock mx_threads mx_floor mx_given]; try done.
  - by destruct wr.
  - destruct wr; [|done]. intros j. destruct (decide (j < NODE_COUNT)%nat); [by apply T8|].
    rewrite !vc_get_out by (lia || apply Hv || apply H3). done.
  - intros b u [(<- & <- & _)|[_ Hb]]%list_lookup_insert_Some; [exact (H6 a t Ha)|by eapply H6].
  - intros b u [(<- & <- & _)|[Hne Hb]]%list_lookup_insert_Some; [done|]. destruct wr; [|by eapply H7].
    eapply claims_hold; [by eapply H8|by eapply H7|]. intros x Hx. by eapply writer_alone.
  - intros b u [(<- & <- & _)|[Hne Hb]]%list_lookup_insert_Some; [|by eapply H8]. cbn. rewrite Hc. destruct wr; auto.
  - destruct wr; [|done]. intros n ws tr [Hin|Hin%list_elem_of_singleton]%elem_of_app.
    + destruct (H9 n ws tr Hin) as (? & ? & ?). split; [done|]. split; [done|]. by eapply handed_out_le.
    + injection Hin as -> <-. cbn in T6, T7. split; [by apply (H6 a t)|done].
Qed.

Lemma mx_step_inv s s' : mx_step s s' → mx_inv s → mx_inv s'.
Proof. destruct 1; [by eapply mx_any_inv|by eapply mx_lock_inv|by eapply mx_thread_inv|by eapply mx_access_inv|by eapply mx_stored_inv]. Qed.

Lemma mx_init_inv w ths : mx_start_ok w ths → mx_inv (mx_init (L := L) w ths).
Proof.
  intros [Hw%reachable_ok Hth]. rewrite Forall_lookup in Hth.
  assert (clock_valid vc_init w) as H0 by (split; [apply length_replicate|]; intros i _; left; apply vc_get_init).
  assert (∀ a t, map (mx_fresh w) ths !! a = Some t → ∃ x, t = mx_fresh w x ∧ (x.1 < NODE_COUNT)%nat ∧ thread_ok x.1 x.2 ∧ clock_valid (thread_clock x.2) w) as Hf.
  { intros a t. rewrite list_lookup_fmap. destruct (ths !! a) as [[n th]|] eqn:E; [|done]. intros [= <-]. exists (n, th). split; [done|exact (Hth a _ E)]. }
  constructor; unfold mx_init; cbn [mx_world mx_mtx mx_clock mx_threads mx_floor mx_given]; try done.
  - apply shared_inv_init.
  - by intros i.
  - intros a t (x & -> & Hx & _)%Hf. done.
  - intros a t (x & -> & Hx & Hok & Hv)%Hf. split; [done|]. split; [apply noted_nil|by apply session_new].
  - by intros a t (x & -> & _)%Hf.
  - by intros n ws tr ?%not_elem_of_nil.
Qed.
Lemma mx_reachable_inv s : mx_reachable s → mx_inv s.
Proof.
  intros (w & ths & Hok & Hs). apply mx_init_inv in Hok. induction Hs as [s|s s1 s2 H1 _ IH]; [done|].
  apply IH. by eapply mx_step_inv.
Qed.
End invariant.

(** ** Properties *)

(** C12: a shared mutex hands over what its writers store. In every reachable state
    a thread that holds the mutex, reading or writing, sees the stores that any
    writer of another node made before its [unlock] gave the mutex back: they have
    been written back and published, and the node of the holder has invalidated
    their lines; and a writer holds the mutex alone. The readers may copy the clock
    and write it at the same time, component by component. Over any lock that meets
    the contract, for any threads and any interference. *)
Theorem shared_mutex_hands_over `{cfg : Config} (ok : ConfigOk cfg) (EB : EagerBuild cfg) (DB : DirectBuild cfg)
    {Q : Type} `{FQ : !FifoQueue Q nat LOG_COUNT} {L : Type} `{!Lock L}
    (s : mx_sys (Q := Q) (L := L)) (a : nat) (t : mx_thread (Q := Q)) (wr : bool) :
  mx_reachable s → mx_threads s !! a = Some t → has_mutex (mt_stage t) = Some wr →
  (∀ n ws tr l, (n, (ws, tr)) ∈ mx_given s → n ≠ mt_node t → nhc_line l → EvStore l ∈ tr →
     made_visible n (mt_node t) ws tr l (mx_world s)) ∧
  (∀ b u wr', b ≠ a → mx_threads s !! b = Some u → has_mutex (mt_stage u) = Some wr' → wr = false ∧ wr' = false).
Proof.
  intros Hi%mx_reachable_inv Ha Hh. destruct (xi_node _ Hi a t Ha) as [Hn _].
  pose proof (xi_stage _ Hi a t Ha) as Hst.
  assert (∀ b u v, mx_threads s !! b = Some u → has_mutex (mt_stage u) = Some v → clients (mx_mtx s) !! b = Some (held v)) as Hcl.
  { intros b u v Hb Hv. pose proof (xi_client _ Hi b u Hb) as H. destruct (mt_stage u); try done; cbn in Hv, H; congruence. }
  split.
  - intros n ws tr l Hin Hne Hl Hs. destruct (xi_given _ Hi n ws tr Hin) as (Hnn & Hws & Hout).
    assert (caught_up (mt_node t) (mx_floor s) (mx_world s)) as Hup by (destruct (mt_stage t); try done; apply Hst).
    eapply handed_out_visible; [exact Hws|apply (xi_world _ Hi)|exact Hnn|exact Hne|exact Hout|apply grows_refl|exact Hup|exact Hl|exact Hs].
  - intros b u wr' Hne Hb Hh'. pose proof (Hcl a t wr Ha Hh) as Hca. pose proof (Hcl b u wr' Hb Hh') as Hcb.
    pose proof (xi_lock _ Hi) as Hlk. destruct wr, wr'; [| | |done]; cbn in Hca, Hcb.
    + by destruct (writer_alone _ a Hlk Hca b Writing Hcb Hne).
    + by destruct (writer_alone _ a Hlk Hca b Reading Hcb Hne).
    + by destruct (writer_alone _ b Hlk Hcb a Reading Hca (not_eq_sym Hne)).
Qed.

(** ** Runs *)

(** A lock for the example: its holder. *)
Inductive cell_step : nat → lock_act → option nat → option nat → Prop :=
  | cell_lock a : cell_step a DoLock None (Some a)
  | cell_unlock a : cell_step a DoUnlock (Some a) None.
#[export] Program Instance cell_is_lock : Lock (option nat) := {|
  lock_init := None; lock_step := cell_step; lock_holds a s := s = Some a; lock_inv s := True;
|}.
Next Obligation. done. Qed.
Next Obligation. done. Qed.
Next Obligation. intros a b s _ -> [= ->]. done. Qed.
Next Obligation. intros a i b s s' _ Hs. destruct Hs as [c|c]; [done|]. intros [= ->] H. by destruct (H eq_refl). Qed.

Section runs.
Context `{cfg : Config} {Q : Type} `{FQ : !FifoQueue Q nat LOG_COUNT}.
Abbreviation sys := (mx_sys (Q := Q) (L := option nat)).
Implicit Types (s : sys) (a fuel : nat) (w : world Q) (th : ThreadOps) (t : mx_thread (Q := Q)).

Inductive mx_choice :=
  | DoAccess a (acc : list access) | DoCall a (p : purpose)
  | DoMtx a                             (* the next step of the call of the lock *)
  | DoNext a.                           (* the next step of the thread *)

Definition mtx_next (st : mx_stage (Q := Q)) a (l : SharedLock (option nat)) : option (SharedLock (option nat)) :=
  let '(mkShared h r m) := l in
  match st, m !! a with
  | Wanting (ForRead | ForFirst) _, None => match h with None => Some (mkShared (Some a) r (<[a := ReadLocking]> m)) | _ => None end
  | Wanting (ForRead | ForFirst) _, Some ReadLocking => if decide (h = Some a) then Some (mkShared h (r + 1) (<[a := ReadCounted]> m)) else None
  | Wanting (ForRead | ForFirst) _, Some ReadCounted => if decide (h = Some a) then Some (mkShared None r (<[a := Reading]> m)) else None
  | Wanting ForWrite _, None => match h with None => Some (mkShared (Some a) r (<[a := WriteLocking]> m)) | _ => None end
  | Wanting ForWrite _, Some WriteLocking => if decide (h = Some a ∧ r ≤ 0) then Some (mkShared h r (<[a := Writing]> m)) else None
  | (FreeFirst _ | Freeing _), Some Reading => Some (mkShared h (r - 1) (delete a m))
  | (FreeFirst _ | Freeing _), Some Writing => if decide (h = Some a) then Some (mkShared None r (delete a m)) else None
  | _, _ => None
  end.

Lemma mtx_next_step st a l l' : mtx_next st a l = Some l' →
  shared_step l l' ∧ permits st (clients l' !! a) ∧ ∀ b, b ≠ a → clients l' !! b = clients l !! b.
Proof.
  destruct l as [h r m]. unfold mtx_next. destruct (m !! a) as [c|] eqn:Ha.
  - destruct st as [| |p th| | | |th|th| | | |]; try done; [destruct p, c; try done|destruct c; try done..];
      try case_decide as Hd; try done; intros [= <-]; cbn [clients];
      (split; [|split; [rewrite ?lookup_insert_eq, ?lookup_delete_eq; cbn; auto
        |intros b Hne; rewrite ?lookup_insert_ne, ?lookup_delete_ne by done; done]]).
    all: destruct_and?; subst.
    all: first [by apply sh_fetch_add|by eapply sh_reading; [|constructor]|by apply sh_writing
      |by apply sh_unlock_shared|by eapply sh_unlock; [|constructor]].
  - destruct st as [| |p th| | | | | | | | |]; try done. destruct p, h; try done; intros [= <-]; cbn [clients];
      (split; [|split; [rewrite lookup_insert_eq; cbn; auto|intros b Hne; by rewrite lookup_insert_ne]]);
      by first [eapply sh_lock_shared; [done|constructor]|eapply sh_lock; [done|constructor]].
Qed.

Definition with_stage a t (st : mx_stage (Q := Q)) s : sys :=
  mkMX (mx_world s) (mx_mtx s) (mx_clock s) (<[a := restaged t st]> (mx_threads s)) (mx_floor s) (mx_given s).
(** [p] run by thread [a]: [f] is its stage after it, and whether its account starts anew. *)
Definition run_to a t {A} (p : prog A) (f : A → list tevent → mx_stage (Q := Q) * bool) s : option sys :=
  match run (mt_node t) a p (mx_world s) with
  | (Returned x, ev, w) =>
      let '(st, new) := f x ev in
      Some (mkMX w (mx_mtx s) (mx_clock s)
        (<[a := if new then mkMT (mt_node t) st w [] else mkMT (mt_node t) st (mt_start t) (mt_events t ++ ev)]> (mx_threads s)) (mx_floor s) (mx_given s))
  | _ => None
  end.

Definition mx_next fuel a t s : option sys :=
  let c := clients (mx_mtx s) !! a in
  match mt_stage t with
  | Wanting p th => if decide (c = Some (mode p)) then Some (with_stage a t (Copying p [] th) s) else None
  | Copying p cl th =>
      if decide (length cl = NODE_COUNT) then run_to a t (acquire_wait fuel cl th) (λ _ _, (Merging p [] th, false)) s
      else if decide (length cl < NODE_COUNT)%nat then Some (with_stage a t (Copying p (cl ++ [vc_get (mx_clock s) (length cl)]) th) s) else None
  | Merging p cl th =>
      if decide (length cl = NODE_COUNT) then
        let th := set_clock (merge cl (thread_clock th)) th in
        Some (with_stage a t (match p with ForRead => Holding false th | ForFirst => FreeFirst th | ForWrite => Holding true th end) s)
      else if decide (length cl < NODE_COUNT)%nat then Some (with_stage a t (Merging p (cl ++ [vc_get (mx_clock s) (length cl)]) th) s) else None
  | FreeFirst th => if decide (c = None) then Some (with_stage a t (Wanting ForWrite th) s) else None
  | Freeing th => if decide (c = None) then Some (with_stage a t (Outside th) s) else None
  | Holding wr th =>
      run_to a t (thread_release fuel th) (λ '(_, th'), λ ev, (Storing wr 0 None (mt_start t, mt_events t ++ ev) th', true)) s
  | Storing wr i None acct th =>
      if decide (i = NODE_COUNT) then
        Some (mkMX (mx_world s) (mx_mtx s) (mx_clock s) (<[a := restaged t (Freeing th)]> (mx_threads s))
          (if wr then thread_clock th else mx_floor s) (if wr then mx_given s ++ [(mt_node t, acct)] else mx_given s))
      else if decide ((i < NODE_COUNT)%nat ∧ LOCATION_CLOCK_MERGE = false) then
        Some (mkMX (mx_world s) (mx_mtx s) (assign i (vc_get (thread_clock th) i) (mx_clock s))
          (<[a := restaged t (Storing wr (S i) None acct th)]> (mx_threads s)) (mx_floor s) (mx_given s))
      else None
  | _ => None
  end.
Definition mx_do fuel (x : mx_choice) s : option sys :=
  match x with
  | DoAccess a acc =>
      t ← mx_threads s !! a;
      match mt_stage t with
      | Outside th => run_to a t (rac_accesses fuel acc th) (λ th _, (Outside th, false)) s
      | Holding wr th => run_to a t (rac_accesses fuel acc th) (λ th _, (Holding wr th, false)) s
      | _ => None
      end
  | DoCall a p =>
      t ← mx_threads s !! a;
      match mt_stage t with Outside th => if decide (p ≠ ForWrite) then Some (with_stage a t (Wanting p th) s) else None | _ => None end
  | DoMtx a =>
      t ← mx_threads s !! a; l ← mtx_next (mt_stage t) a (mx_mtx s);
      Some (mkMX (mx_world s) l (mx_clock s) (mx_threads s) (mx_floor s) (mx_given s))
  | DoNext a => t ← mx_threads s !! a; mx_next fuel a t s
  end.
Fixpoint mx_run fuel (xs : list mx_choice) s : option sys :=
  match xs with [] => Some s | x :: xs => s ← mx_do fuel x s; mx_run fuel xs s end.

Lemma with_stage_step a t st s :
  mx_threads s !! a = Some t → mx_local a (mx_world s) (clients (mx_mtx s) !! a) t (restaged t st) → rtc mx_step s (with_stage a t st s).
Proof. intros Ha Hl. destruct s. by eapply rtc_once, mx_thread_step. Qed.
Lemma run_to_steps a t {A} (p : prog A) f s s' st0 :
  mx_threads s !! a = Some t → run_to a t p f s = Some s' →
  mx_local a (mx_world s) (clients (mx_mtx s) !! a) t (restaged t st0) →
  (∀ x ev w, exec (mt_node t) a p (mx_world s) (Returned x) ev w →
     mx_local a w (clients (mx_mtx s) !! a) (restaged t st0)
       (let '(st, new) := f x ev in if new then mkMT (mt_node t) st w [] else mkMT (mt_node t) st (mt_start t) (mt_events t ++ ev))) →
  rtc mx_step s s'.
Proof.
  intros Ha Hr Hl1 Hl2. destruct s as [w l c ts fl g]. unfold run_to in Hr. cbn [mx_world mx_mtx mx_clock mx_threads mx_floor mx_given] in *.
  destruct (run (mt_node t) a p w) as [[[x| |] ev] w'] eqn:E; try done. apply run_exec in E. specialize (Hl2 x ev w' E).
  destruct (f x ev) as [st new]. injection Hr as <-. eapply rtc_l; [by eapply mx_thread_step|].
  trans (mkMX w' l c (<[a := restaged t st0]> ts) fl g).
  { apply exec_any in E. clear Hl1 Hl2. induction E; [done|]. by eapply rtc_l; [apply mx_any|]. }
  set (t' := if new then _ else _) in *. rewrite <- (list_insert_insert_eq ts a t' (restaged t st0)).
  eapply rtc_once, mx_thread_step; [|exact Hl2]. apply list_lookup_insert_eq. by eapply lookup_lt_Some.
Qed.

Lemma mx_next_steps fuel a t s s' : mx_threads s !! a = Some t → mx_next fuel a t s = Some s' → rtc mx_step s s'.
Proof.
  intros Ha Hr. destruct t as [n st w0 ev]. unfold mx_next in Hr. cbn [mt_stage] in Hr.
  destruct st as [th|ws th|p th|p cl th|p cl ws th|p cl th|th|th|wr th|wr ws th|wr ws th|wr i [r|] acct th]; try done.
  - case_decide as Hc; [|done]. injection Hr as <-. apply with_stage_step; [done|]. by apply ml_locked.
  - case_decide as Hlen.
    + apply (run_to_steps _ _ _ _ _ _ (Waiting p cl (mx_world s) th) Ha Hr); [by apply ml_wait|]. intros [] ev' w He. by eapply ml_waited.
    + case_decide; [|done]. injection Hr as <-. destruct s. eapply rtc_once, mx_access; [done|]. by apply mc_copy.
  - case_decide as Hlen.
    + injection Hr as <-. apply with_stage_step; [done|]. by apply ml_merged.
    + case_decide; [|done]. injection Hr as <-. destruct s. eapply rtc_once, mx_access; [done|]. by apply mc_merge.
  - case_decide as Hc; [|done]. injection Hr as <-. apply with_stage_step; [done|]. by apply ml_second.
  - case_decide as Hc; [|done]. injection Hr as <-. apply with_stage_step; [done|]. by apply ml_freed.
  - apply (run_to_steps _ _ _ _ _ _ (Releasing wr (mx_world s) th) Ha Hr); [by apply ml_unlock|]. intros [b th'] ev' w He. by eapply ml_released.
  - case_decide as Hi; [subst i|].
    + injection Hr as <-. destruct s. eapply rtc_once, mx_stored; [done|]. done.
    + case_decide as Hm; [|done]. destruct Hm. injection Hr as <-. destruct s. eapply rtc_once, mx_access; [done|]. by apply mc_assign.
Qed.
Lemma mx_do_steps fuel x s s' : (match x with DoAccess _ acc => Forall access_ok acc | _ => True end) → mx_do fuel x s = Some s' → rtc mx_step s s'.
Proof.
  intros Hok Hr. destruct x as [a acc|a p|a|a]; cbn [mx_do] in Hr; destruct (mx_threads s !! a) as [t|] eqn:Ha; try done; cbn [mbind option_bind] in Hr.
  - destruct t as [n st w0 ev], st as [th| | | | | | | |wr th| | |]; try done; cbn [mt_stage] in Hr.
    + apply (run_to_steps _ _ _ _ _ _ (OutAccess (mx_world s) th) Ha Hr); [apply ml_access|]. intros th' ev' w He. by eapply ml_accessed.
    + apply (run_to_steps _ _ _ _ _ _ (HoldAccess wr (mx_world s) th) Ha Hr); [apply ml_hold_access|]. intros th' ev' w He. by eapply ml_hold_accessed.
  - destruct t as [n st w0 ev], st as [th| | | | | | | | | | |]; try done; cbn [mt_stage] in Hr. case_decide; [|done].
    injection Hr as <-. apply with_stage_step; [done|]. by apply ml_lock.
  - destruct (mtx_next (mt_stage t) a (mx_mtx s)) as [l|] eqn:E; [|done]. injection Hr as <-.
    apply mtx_next_step in E as (H1 & H2 & H3). destruct s as [w l0 c ts fl g]. eapply rtc_once, mx_lock; [done|].
    intros b. destruct (decide (b = a)) as [->|Hne]; [right; by exists t|left; by apply H3].
  - by eapply mx_next_steps.
Qed.
Lemma mx_run_steps fuel xs s s' :
  Forall (λ x, match x with DoAccess _ acc => Forall access_ok acc | _ => True end) xs → mx_run fuel xs s = Some s' → rtc mx_step s s'.
Proof.
  revert s. induction xs as [|x xs IH]; intros s Hok Hr; [injection Hr as <-; apply rtc_refl|].
  inversion Hok as [|? ? Hx Hxs]; subst. cbn [mx_run] in Hr. destruct (mx_do fuel x s) as [s1|] eqn:E; [|done].
  trans s1; [by eapply mx_do_steps|by apply IH].
Qed.
End runs.

(** ** Examples *)

Section examples.
Let cfg : Config := small_config.
#[local] Existing Instance cfg.
#[local] Existing Instance small_config_ok.
#[local] Existing Instance small_eager.
#[local] Existing Instance small_direct.
Abbreviation SQ := (@spmc_bounded_queue nat).
Abbreviation ex_sys := (mx_sys (Q := SQ) (L := option nat)).

(** Thread 0 locks, stores and unlocks; then thread 1 locks for reading. *)
Definition nexts (a k : nat) : list mx_choice := replicate k (DoNext a).
Definition mtxs (a k : nat) : list mx_choice := replicate k (DoMtx a).
Definition ex_writer : list mx_choice :=
  DoCall 0 ForFirst :: mtxs 0 3 ++ nexts 0 7 ++ mtxs 0 1 ++ nexts 0 1 ++ mtxs 0 2 ++ nexts 0 7 ++
  DoAccess 0 ex_accesses :: nexts 0 4 ++ mtxs 0 1 ++ nexts 0 1.
Definition ex_reader : list mx_choice := DoCall 1 ForRead :: mtxs 1 3 ++ nexts 1 7.
Definition ex_handover : option ex_sys :=
  w ← rac_init_world (Q := SQ); mx_run 5 (ex_writer ++ ex_reader) (mx_init w [(0%nat, thread_new 0 0); (1%nat, thread_new 1 1)]).
Definition ex_read : bool :=
  match ex_handover with
  | Some s =>
      match mx_threads s !! 1%nat, mx_given s with
      | Some t, [(n, (_, tr))] => (mt_node t =? 1)%nat && (n =? 0)%nat && stores_line tr && match has_mutex (mt_stage t) with Some false => true | _ => false end
      | _, _ => false
      end
  | None => false
  end.
Example ex_read_true : ex_read = true.
Proof. vm_compute. reflexivity. Qed.

Lemma ex_choices_ok' : Forall (λ x, match x with DoAccess _ acc => Forall access_ok acc | _ => True end) (ex_writer ++ ex_reader).
Proof.
  assert (∀ a k, Forall (λ x, match x with DoAccess _ acc => Forall access_ok acc | _ => True end) (nexts a k)) as H1
    by (intros a k; by apply Forall_replicate).
  assert (∀ a k, Forall (λ x, match x with DoAccess _ acc => Forall access_ok acc | _ => True end) (mtxs a k)) as H2
    by (intros a k; by apply Forall_replicate).
  unfold ex_writer, ex_reader. repeat first [exact ex_accesses_ok|exact I|apply H1|apply H2|apply Forall_cons; split|apply Forall_app; split].
Qed.

Lemma shared_mutex_hands_over_witness :
  ∃ (s : ex_sys) ws tr, mx_reachable s ∧ (0%nat, (ws, tr)) ∈ mx_given s ∧ EvStore ex_line ∈ tr ∧ made_visible 0 1 ws tr ex_line (mx_world s).
Proof.
  pose proof ex_read_true as H. unfold ex_read, ex_handover in H.
  destruct (rac_init_world (Q := SQ)) as [w0|] eqn:E0; [|discriminate H]. cbn [mbind option_bind] in H.
  destruct (mx_run 5 _ _) as [s|] eqn:E; [|discriminate H]. apply mx_run_steps in E; [|exact ex_choices_ok'].
  destruct (mx_threads s !! 1%nat) as [t|] eqn:Et; [|discriminate H].
  destruct (mx_given s) as [|[n [ws tr]] [|]] eqn:Eg; try discriminate H.
  apply andb_prop in H as [H Hh]. apply andb_prop in H as [H Hin%stores_line_elem]. apply andb_prop in H as [Ht%Nat.eqb_eq Hn%Nat.eqb_eq].
  subst n. destruct (has_mutex (mt_stage t)) as [[]|] eqn:Eh; try discriminate Hh.
  assert (mx_reachable s) as Hre.
  { exists w0, [(0%nat, thread_new 0 0); (1%nat, thread_new 1 1)]. split; [|exact E]. split; [by apply ex_reachable|].
    repeat constructor; try (apply thread_new_ok); apply vc_get_init. }
  destruct (shared_mutex_hands_over small_config_ok small_eager small_direct s 1 t false Hre Et Eh) as [Hvis _].
  assert ((0%nat, (ws, tr)) ∈ mx_given s) as Hg by (rewrite Eg; by left).
  exists s, ws, tr. split; [exact Hre|]. split; [exact Hg|]. split; [exact Hin|].
  specialize (Hvis 0%nat ws tr ex_line Hg). rewrite Ht in Hvis. apply Hvis; [done|vm_compute; congruence|exact Hin].
Defined.
End examples.
