(* ===== verification/InstrumentLib.v ===== *)
(** InstrumentLib: [src/instrumentLib.cpp], the replacements of the C library's
    memory functions.

    A replacement prepares the caches, lets the library function (or its own byte
    loop, while [dlsym] has not found it) do the work on the byte memory, and logs
    the bytes written. The library functions are parameters ([libc]);
    [instrument_lib] looks them up. The macros
    [EAGER_WRITE_BACK] and [EAGER_INVALIDAE] that the file tests are defined
    nowhere: the model has the branches the preprocessor takes. *)
From S2P Require Import Prelude Config VectorClock ClGroup LocalCLTable FlushUtils ClTracker.
From S2P Require Import SpmcQueue LogManager CacheInfo Actions Invariant Logic ActionSpecs.
From S2P Require Import ThreadOps Runtime Release Coherence RangeStore.
#[local] Open Scope word_scope.

(** ** Definitions: the byte loops *)

(** The bytes of the address space. *)
Abbreviation mem := (Z → Z).
Definition put (a v : Z) (m : mem) : mem := λ x, if x =? a then v else m x.

(** [for (unsigned i = 0; i < n; i++) dst[i] = src[i];] from counter [i]. *)
Fixpoint copy_up fuel (i n dst src : Z) (m : mem) : option mem :=
  if i <? n then
    match fuel with
    | O => None
    | S fuel' => copy_up fuel' (wrap32 (i + 1)) n dst src (put (dst +w i) (m (src +w i)) m)
    end
  else Some m.

(** [for (unsigned i = n; i != 0;) { i--; dst[i] = src[i]; }] *)
Fixpoint copy_down fuel (i dst src : Z) (m : mem) : option mem :=
  if i =? 0 then Some m
  else
    match fuel with
    | O => None
    | S fuel' => let i := i - 1 in copy_down fuel' i dst src (put (dst +w i) (m (src +w i)) m)
    end.

(** The loops of [memset] and [bzero], with a counter of [bits] bits. *)
Fixpoint fill fuel (bits i n dst v : Z) (m : mem) : option mem :=
  if i <? n then
    match fuel with
    | O => None
    | S fuel' => fill fuel' bits (wrap bits (i + 1)) n dst v (put (dst +w i) v m)
    end
  else Some m.

(** The loop of [strcpy]: its [int i] is not initialised, [i] is what it holds. *)
Fixpoint copy_int fuel (i n dst src : Z) (m : mem) : option mem :=
  if wrap64 i <? n then
    match fuel with
    | O => None
    | S fuel' => copy_int fuel' (i + 1) n dst src (put (dst +w wrap64 i) (m (src +w wrap64 i)) m)
    end
  else Some m.

Fixpoint str_len fuel (src n : Z) (m : mem) : option Z :=
  match fuel with
  | O => None
  | S fuel' => if m (src +w n) =? 0 then Some n else str_len fuel' src (n + 1) m
  end.

(** The inner loop of [strcpy]: [n], and whether the terminator was found. *)
Fixpoint scan_line fuel (src n : Z) (m : mem) : option (Z * bool) :=
  if (src +w n) &w CACHE_LINE_MASK =? 0 then Some (n, false)
  else
    match fuel with
    | O => None
    | S fuel' => if m (src +w n) =? 0 then Some (n + 1, true) else scan_line fuel' src (n + 1) m
    end.

(** What the copies mean. *)
Definition copied (dst src n : Z) (m : mem) : mem := λ a, if (dst <=? a) && (a <? dst + n) then m (src + (a - dst)) else m a.
Definition filled (dst n v : Z) (m : mem) : mem := λ a, if (dst <=? a) && (a <? dst + n) then v else m a.

(** What [dlsym] found: [None] while the pointer is still null or 1. *)
Record libc := mkLibc {
  memcpy_real : option (Z → Z → Z → mem → mem);
  memmove_real : option (Z → Z → Z → mem → mem);
  memset_real : option (Z → Z → Z → mem → mem);
  bzero_real : option (Z → Z → mem → mem);
  strcpy_real : option (Z → Z → mem → mem);
  read_real : option (Z → Z → Z → mem → Z * mem);
}.

(** ** Definitions: the pointers to the library's functions *)

Inductive lib_fun := FunMemcpy | FunMemmove | FunMemset | FunStrcpy | FunBzero | FunRead.
#[export] Instance lib_fun_eq_dec : EqDecision lib_fun.
Proof. solve_decision. Defined.

(** [memcpy_real] to [read_real] as addresses. A replacement calls the pointer if it
    is at least 2. *)
Definition pointers : Type := lib_fun → Z.
Definition set_pointer (f : lib_fun) (v : Z) (ptrs : pointers) : pointers := λ g, if decide (g = f) then v else ptrs g.
Definition calls_real (ptrs : pointers) (f : lib_fun) : bool := negb (ptrs f <? 2).

(** [instrument_lib]: the final pointers, and every value of them on the way, which
    [dlsym] and the other threads may see. *)
Definition instrument_one (dlsym : pointers) (x : pointers * list pointers) (f : lib_fun) : pointers * list pointers :=
  let '(ptrs, seen) := x in
  if ptrs f =? 0 then
    let looking := set_pointer f 1 ptrs in
    let found := set_pointer f (dlsym f) looking in
    (found, seen ++ [looking; found])
  else x.
Definition instrument_lib (dlsym ptrs : pointers) : pointers * list pointers :=
  foldl (instrument_one dlsym) (ptrs, [ptrs]) [FunMemcpy; FunMemmove; FunMemset; FunStrcpy; FunBzero; FunRead].

(** ** Definitions: the replacements *)

Section instrument.
Context `{cfg : Config} (lib : libc).
Implicit Types (fuel : nat) (dst src n c : Z) (m : mem) (th : ThreadOps).

(** Before reading [n] bytes, before and after writing them. *)
Definition src_hook fuel src n : prog unit :=
  if in_cxl_nhc_mem src then
    if PROTOCOL_OFF then tr ← of_option (do_range_invalidate fuel src n); perform (FlushLines tr)
    else if negb EAGER_INVALIDATE then _ ← perform (CheckRange fuel src (src +w n)); mret tt
    else mret tt
  else mret tt.
Definition dst_hook dst n : prog unit :=
  if (PROTOCOL_OFF || negb EAGER_INVALIDATE) && in_cxl_nhc_mem dst
  then invalidate_boundaries dst (dst +w n) else mret tt.
Definition written fuel dst n th : prog ThreadOps :=
  if in_cxl_nhc_mem dst then
    if PROTOCOL_OFF then tr ← of_option (do_range_writeback fuel dst n); _ ← perform (FlushLines tr); mret th
    else log_range_store fuel dst (dst +w n) th
  else mret th.

(** The accesses of a copy, if there is anything to copy. *)
Definition touch_load src n : prog unit := if n =? 0 then mret tt else perform (LoadBytes src n).
Definition touch_store dst n : prog unit := if n =? 0 then mret tt else perform (StoreBytes dst n).

Definition memcpy_bytes fuel dst src n m : prog mem :=
  _ ← src_hook fuel src n;
  _ ← dst_hook dst n;
  m ← of_option (match memcpy_real lib with Some f => Some (f dst src n m) | None => copy_up fuel 0 n dst src m end);
  _ ← touch_load src n;
  _ ← touch_store dst n;
  mret m.
Definition memcpy fuel dst src n m th : prog (mem * ThreadOps) :=
  m ← memcpy_bytes fuel dst src n m; th ← written fuel dst n th; mret (m, th).

Definition memmove_loops fuel dst src n m : option mem :=
  if dst <? src then copy_up fuel 0 n dst src m else copy_down fuel (wrap32 n) dst src m.
Definition memmove_bytes fuel dst src n m : prog mem :=
  _ ← src_hook fuel src n;
  _ ← dst_hook dst n;
  m ← of_option (match memmove_real lib with Some f => Some (f dst src n m) | None => memmove_loops fuel dst src n m end);
  _ ← touch_load src n;
  _ ← touch_store dst n;
  mret m.
Definition memmove fuel dst src n m th : prog (mem * ThreadOps) :=
  m ← memmove_bytes fuel dst src n m; th ← written fuel dst n th; mret (m, th).

(** [memset] tests [EAGER_INVALIDAE]: it always invalidates the boundaries. *)
Definition memset_bytes fuel dst c n m : prog mem :=
  _ ← (if in_cxl_nhc_mem dst then invalidate_boundaries dst (dst +w n) else mret tt);
  m ← of_option (match memset_real lib with Some f => Some (f dst c n m) | None => fill fuel 32 0 n dst (wrap 8 c) m end);
  _ ← touch_store dst n;
  mret m.
Definition memset fuel dst c n m th : prog (mem * ThreadOps) :=
  m ← memset_bytes fuel dst c n m; th ← written fuel dst n th; mret (m, th).

Definition bzero_bytes fuel dst n m : prog mem :=
  _ ← dst_hook dst n;
  m ← of_option (match bzero_real lib with Some f => Some (f dst n m) | None => fill fuel 64 0 n dst 0 m end);
  _ ← touch_store dst n;
  mret m.
Definition bzero fuel dst n m th : prog (mem * ThreadOps) :=
  m ← bzero_bytes fuel dst n m; th ← written fuel dst n th; mret (m, th).

(** [read]: [None] is [exit(EXIT_FAILURE)]. *)
Definition read_bytes fd buf count m : prog (option (Z * mem)) :=
  _ ← dst_hook buf count;
  match read_real lib with
  | None => mret None
  | Some f => _ ← touch_store buf count; mret (Some (f fd buf count m))
  end.
Definition read fuel fd buf count m th : prog (option (Z * mem * ThreadOps)) :=
  r ← read_bytes fd buf count m;
  match r with
  | None => mret None
  | Some (ret, m) => th ← written fuel buf count th; mret (Some (ret, m, th))
  end.

(** [strcpy]: the scan for the length, a line at a time. *)
Fixpoint strcpy_scan fuel (rounds : nat) src n m : prog Z :=
  match rounds with
  | O => OutOfFuel
  | S rounds' =>
      _ ← (if in_cxl_nhc_mem src then
             if PROTOCOL_OFF then perform (FlushLines (do_invalidate (src +w n)))
             else if negb EAGER_INVALIDATE then _ ← perform (CheckInvalidate (src +w n)); mret tt
             else mret tt
           else mret tt);
      '(n, found) ← of_option (scan_line fuel src n m);
      if found : bool then mret n else strcpy_scan fuel rounds' src n m
  end.
Definition need_invalidate : bool := PROTOCOL_OFF || negb EAGER_INVALIDATE.
Definition strcpy_scans : bool := need_invalidate || match strcpy_real lib with None => true | Some _ => false end.

Definition strcpy_bytes fuel (i0 : Z) dst src m : prog (Z * mem) :=
  if strcpy_scans then
    n ← strcpy_scan fuel fuel src 0 m;
    _ ← dst_hook dst n;
    m ← of_option (copy_int fuel i0 n dst src m);
    _ ← touch_load src n;
    _ ← touch_store dst n;
    mret (n, m)
  else
    let m := match strcpy_real lib with Some f => f dst src m | None => m end in
    n ← of_option (str_len fuel src 0 m);
    _ ← touch_load src (n + 1);
    _ ← touch_store dst (n + 1);
    mret (n, m).
Definition strcpy fuel (i0 : Z) dst src m th : prog (mem * ThreadOps) :=
  '(n, m) ← strcpy_bytes fuel i0 dst src m; th ← written fuel dst n th; mret (m, th).
End instrument.

(** ** Lemmas: the byte loops *)

Section loops.
Implicit Types (i n dst src v a : Z) (m : mem).

Lemma add_u64 a i : 0 ≤ a → 0 ≤ i → a + i < 2 ^ 64 → a +w i = a + i.
Proof. intros. apply wrap_small. split; lia. Qed.

Lemma put_eq a v m : put a v m a = v.
Proof. unfold put. by rewrite Z.eqb_refl. Qed.
Lemma put_ne a b v m : b ≠ a → put a v m b = m b.
Proof. unfold put. by intros ->%Z.eqb_neq. Qed.

Lemma copied_in dst src n m a : dst ≤ a < dst + n → copied dst src n m a = m (src + (a - dst)).
Proof. intros. unfold copied. rewrite (proj2 (Z.leb_le _ _)), (proj2 (Z.ltb_lt _ _)) by lia. done. Qed.
Lemma copied_out dst src n m a : ¬ dst ≤ a < dst + n → copied dst src n m a = m a.
Proof. intros. unfold copied. destruct (Z.leb_spec dst a), (Z.ltb_spec a (dst + n)); try done. lia. Qed.

(** Copying upwards from [i] is right when the target is not ahead inside the
    source. *)
Lemma copy_up_spec fuel i n dst src m :
  0 ≤ dst → 0 ≤ src → 0 ≤ i ≤ n → n < 2 ^ 32 → dst + n ≤ 2 ^ 64 → src + n ≤ 2 ^ 64 → dst ≤ src ∨ src + n ≤ dst →
  n - i ≤ Z.of_nat fuel →
  ∃ m', copy_up fuel i n dst src m = Some m' ∧ ∀ a, m' a = copied (dst + i) (src + i) (n - i) m a.
Proof.
  revert i m. induction fuel as [|fuel IH]; intros i m Hd Hs Hi Hn Hdn Hsn Hov Hf; cbn [copy_up].
  - destruct (Z.ltb_spec i n); [lia|]. exists m. split; [done|]. intros a. rewrite copied_out; [done|lia].
  - destruct (Z.ltb_spec i n); [|exists m; split; [done|]; intros a; rewrite copied_out; [done|lia]].
    assert (wrap32 (i + 1) = i + 1) as -> by (apply wrap_small; split; lia). rewrite !add_u64 by lia.
    set (m1 := put (dst + i) (m (src + i)) m).
    destruct (IH (i + 1) m1) as (m' & Hm' & Ha); [lia..|]. exists m'. split; [done|]. intros a. rewrite Ha.
    destruct (decide (dst + i ≤ a < dst + n)) as [Hin|Hin].
    + rewrite (copied_in (dst + i)) by lia. destruct (decide (a = dst + i)) as [->|Hne].
      * rewrite copied_out by lia. unfold m1. rewrite put_eq. f_equal. lia.
      * rewrite copied_in by lia. unfold m1. rewrite put_ne by lia. f_equal. lia.
    + rewrite !copied_out by lia. unfold m1. rewrite put_ne by lia. done.
Qed.

(** Copying downwards is right when the target is not behind inside the source. *)
Lemma copy_down_spec fuel i dst src m :
  0 ≤ dst → 0 ≤ src → 0 ≤ i → dst + i ≤ 2 ^ 64 → src + i ≤ 2 ^ 64 → src ≤ dst → i ≤ Z.of_nat fuel →
  ∃ m', copy_down fuel i dst src m = Some m' ∧ ∀ a, m' a = copied dst src i m a.
Proof.
  revert i m. induction fuel as [|fuel IH]; intros i m Hd Hs Hi Hdn Hsn Hov Hf; cbn [copy_down].
  - destruct (Z.eqb_spec i 0); [|lia]. exists m. split; [done|]. intros a. rewrite copied_out; [done|lia].
  - destruct (Z.eqb_spec i 0); [exists m; split; [done|]; intros a; rewrite copied_out; [done|lia]|].
    rewrite !add_u64 by lia. set (m1 := put (dst + (i - 1)) (m (src + (i - 1))) m).
    destruct (IH (i - 1) m1) as (m' & Hm' & Ha); [lia..|]. exists m'. split; [done|]. intros a. rewrite Ha.
    destruct (decide (dst ≤ a < dst + i)) as [Hin|Hin].
    + rewrite (copied_in dst src i) by lia. destruct (decide (a = dst + (i - 1))) as [->|Hne].
      * rewrite copied_out by lia. unfold m1. rewrite put_eq. f_equal. lia.
      * rewrite copied_in by lia. unfold m1. rewrite put_ne by lia. done.
    + rewrite !copied_out by lia. unfold m1. rewrite put_ne by lia. done.
Qed.

Lemma fill_spec fuel bits i n dst v m :
  0 ≤ dst → 0 ≤ i ≤ n → n < 2 ^ bits → dst + n ≤ 2 ^ 64 → n - i ≤ Z.of_nat fuel →
  ∃ m', fill fuel bits i n dst v m = Some m' ∧ ∀ a, m' a = filled (dst + i) (n - i) v m a.
Proof.
  assert (∀ i m a, n ≤ i → filled (dst + i) (n - i) v m a = m a) as Hnil.
  { intros j m' a Hj. unfold filled. destruct (Z.leb_spec (dst + j) a), (Z.ltb_spec a (dst + j + (n - j))); try done. lia. }
  revert i m. induction fuel as [|fuel IH]; intros i m Hd Hi Hn Hdn Hf; cbn [fill].
  - destruct (Z.ltb_spec i n); [lia|]. exists m. split; [done|]. intros a. by rewrite Hnil.
  - destruct (Z.ltb_spec i n); [|exists m; split; [done|]; intros a; by rewrite Hnil].
    assert (wrap bits (i + 1) = i + 1) as -> by (apply wrap_small; split; lia). rewrite add_u64 by lia.
    destruct (IH (i + 1) (put (dst + i) v m)) as (m' & Hm' & Ha); [lia..|]. exists m'. split; [done|]. intros a.
    rewrite Ha. unfold filled. destruct (decide (a = dst + i)) as [->|Hne].
    1: rewrite put_eq. 2: rewrite put_ne by done.
    all: repeat match goal with |- context [?x <=? ?y] => destruct (Z.leb_spec x y)
        | |- context [?x <? ?y] => destruct (Z.ltb_spec x y) end; cbn; try done; lia.
Qed.

(** With a 32-bit counter the loop never ends for a size the counter cannot
    reach. *)
Lemma copy_up_stuck fuel i n dst src m : 2 ^ 32 ≤ n → i < 2 ^ 32 → copy_up fuel i n dst src m = None.
Proof.
  intros Hn. revert i m. induction fuel as [|fuel IH]; intros i m Hi; cbn [copy_up];
    (destruct (Z.ltb_spec i n); [|lia]); [done|]. apply IH. by apply Z.mod_pos_bound.
Qed.
End loops.

(** ** Lemmas: the hooks *)

Section hooks.
Context `{cfg : Config} {ok : ConfigOk cfg} {EB : EagerBuild cfg} {DB : DirectBuild cfg}
  {Q : Type} `{FQ : !FifoQueue Q nat LOG_COUNT} (n tid : nat) (Hn : (n < NODE_COUNT)%nat).
Implicit Types (w ws : world Q) (P : world Q → Prop) (fuel : nat) (dst src size : Z) (m : mem) (th : ThreadOps).

(** A program that cannot fail and changes nothing the assertions speak of. *)
Definition harmless {A} (pr : prog A) : Prop := ∀ P, persistent P → triple n tid P pr (λ _ _ w, P w).

Lemma harmless_ret {A} (a : A) : harmless (mret a).
Proof. intros P _. by apply triple_ret. Qed.

Lemma harmless_bind {A B} (pr : prog A) (f : A → prog B) : harmless pr → (∀ a, harmless (f a)) → harmless (pr ≫= f).
Proof. intros Hp Hf P HP. eapply triple_bind; [by apply Hp|]. intros a tr. cbn beta. by apply Hf. Qed.

Lemma harmless_option {A} (o : option A) : harmless (of_option o).
Proof. intros P _. by apply triple_of_option. Qed.

Lemma harmless_act {X} (a : act X) :
  (∀ w, world_ok w → act_step n tid a w ≠ Crash) → harmless (perform a).
Proof.
  intros Ha P HP. apply triple_act; [by apply persistent_stable|]. intros w Hw Hp. split; [by apply Ha|].
  intros r ev w' _ Hd. eapply HP; [by eapply act_grows|done].
Qed.

Lemma harmless_check addr : harmless (perform (CheckInvalidate addr)).
Proof.
  apply harmless_act. intros w Hw. destruct (node_exists w n Hw Hn) as [nd Hnd]. unfold act_step. rewrite Hnd.
  cbn [from_option]. by destruct (invalidate_if_dirty _ _) as [[? ?] ?].
Qed.
Lemma harmless_touch_load src size : harmless (touch_load src size).
Proof.
  unfold touch_load. case_match; [apply harmless_ret|]. apply harmless_act. intros w Hw.
  destruct (node_exists w n Hw Hn) as [nd Hnd]. unfold act_step. by rewrite Hnd.
Qed.
Lemma harmless_touch_store dst size : harmless (touch_store dst size).
Proof.
  unfold touch_store. case_match; [apply harmless_ret|]. apply harmless_act. intros w Hw.
  destruct (node_exists w n Hw Hn) as [nd Hnd]. unfold act_step. by rewrite Hnd.
Qed.

Lemma harmless_boundaries begin stop : harmless (invalidate_boundaries begin stop).
Proof.
  assert (∀ a, harmless (invalidate_at a)) as Hat.
  { intros a. unfold invalidate_at. rewrite db_protocol. apply harmless_bind; [apply harmless_check|intros; apply harmless_ret]. }
  unfold invalidate_boundaries. apply harmless_bind; intros; case_match; try apply harmless_ret; apply Hat.
Qed.

Lemma src_hook_eager fuel src size : src_hook fuel src size = mret tt.
Proof. unfold src_hook. rewrite db_protocol, eb_eager. by case_match. Qed.
Lemma dst_hook_eager dst size : dst_hook dst size = mret tt.
Proof. unfold dst_hook. by rewrite db_protocol, eb_eager. Qed.

Lemma harmless_memcpy lib fuel dst src size m : harmless (memcpy_bytes lib fuel dst src size m).
Proof.
  unfold memcpy_bytes. rewrite src_hook_eager, dst_hook_eager. autorewrite with prog.
  repeat (apply harmless_bind; intros); auto using harmless_option, harmless_touch_load, harmless_touch_store, harmless_ret.
Qed.
Lemma harmless_memmove lib fuel dst src size m : harmless (memmove_bytes lib fuel dst src size m).
Proof.
  unfold memmove_bytes. rewrite src_hook_eager, dst_hook_eager. autorewrite with prog.
  repeat (apply harmless_bind; intros); auto using harmless_option, harmless_touch_load, harmless_touch_store, harmless_ret.
Qed.
Lemma harmless_memset lib fuel dst c size m : harmless (memset_bytes lib fuel dst c size m).
Proof.
  unfold memset_bytes. repeat (apply harmless_bind; intros); [case_match; [apply harmless_boundaries|apply harmless_ret]|..];
    auto using harmless_option, harmless_touch_store, harmless_ret.
Qed.
Lemma harmless_bzero lib fuel dst size m : harmless (bzero_bytes lib fuel dst size m).
Proof.
  unfold bzero_bytes. rewrite dst_hook_eager. autorewrite with prog.
  repeat (apply harmless_bind; intros); auto using harmless_option, harmless_touch_store, harmless_ret.
Qed.
End hooks.

(** ** Calls followed by a release *)

(** The calls that write a range known in advance. *)
Inductive libcall :=
  | Memcpy (dst src n : Z) | Memmove (dst src n : Z) | Memset (dst c n : Z) | Bzero (dst n : Z).
Definition call_dst (c : libcall) : Z := match c with Memcpy d _ _ | Memmove d _ _ | Memset d _ _ | Bzero d _ => d end.
Definition call_size (c : libcall) : Z := match c with Memcpy _ _ n | Memmove _ _ n | Memset _ _ n | Bzero _ n => n end.

Section calls.
Context `{cfg : Config}.
Definition lib_bytes (lib : libc) (fuel : nat) (c : libcall) (m : mem) : prog mem :=
  match c with
  | Memcpy dst src n => memcpy_bytes lib fuel dst src n m
  | Memmove dst src n => memmove_bytes lib fuel dst src n m
  | Memset dst v n => memset_bytes lib fuel dst v n m
  | Bzero dst n => bzero_bytes lib fuel dst n m
  end.
Definition lib_call (lib : libc) (fuel : nat) (c : libcall) (m : mem) (th : ThreadOps) : prog (mem * ThreadOps) :=
  match c with
  | Memcpy dst src n => memcpy lib fuel dst src n m th
  | Memmove dst src n => memmove lib fuel dst src n m th
  | Memset dst v n => memset lib fuel dst v n m th
  | Bzero dst n => bzero lib fuel dst n m th
  end.
Definition lib_call_and_release (lib : libc) (fuel : nat) (c : libcall) (m : mem) (th : ThreadOps) : prog (bool * ThreadOps) :=
  '(_, th) ← lib_call lib fuel c m th; thread_release fuel th.

Lemma lib_call_parts lib fuel c m th :
  lib_call lib fuel c m th = (m ← lib_bytes lib fuel c m; th ← written fuel (call_dst c) (call_size c) th; mret (m, th)).
Proof. by destruct c. Qed.
End calls.

Section call_specs.
Context `{cfg : Config} {ok : ConfigOk cfg} {EB : EagerBuild cfg} {DB : DirectBuild cfg}
  {Q : Type} `{FQ : !FifoQueue Q nat LOG_COUNT}.
Implicit Types (w ws : world Q) (n tid fuel : nat) (m : mem) (th : ThreadOps).

Lemma harmless_lib_bytes lib fuel c m n tid : (n < NODE_COUNT)%nat → harmless n tid (lib_bytes lib fuel c m).
Proof.
  intros Hn. destruct c; cbn [lib_bytes]; auto using harmless_memcpy, harmless_memmove, harmless_memset, harmless_bzero.
Qed.

Lemma spec_lib_call_and_release lib n tid fuel c m th ws :
  let b := call_dst c / VIRTUAL_CL_SIZE in let e := (call_dst c + call_size c) / VIRTUAL_CL_SIZE in
  (n < NODE_COUNT)%nat → th_node_id th = n → length (thread_clock th) = NODE_COUNT → mask_only (dirty_cls th) →
  CXL_NHC_START ≤ call_dst c → 0 ≤ call_size c → call_dst c + call_size c < 2 ^ VIRTUAL_ADDRESS_BITS →
  (e - b) / 16 ≤ GROUP_LEN_MAX →
  triple n tid (grows ws) (lib_call_and_release lib (S fuel) c m th)
    (λ res ev w, res.1 = true ∧ ∀ l, marks b e l → EvStore l ∈ ev →
       ∃ p, Z.of_nat p < vc_get (thread_clock res.2) n ∧ committed n ws ev l p w).
Proof.
  intros b e Hn Hid Hclk Hmo Hbeg Hsz Hend Hlen. unfold lib_call_and_release. rewrite lib_call_parts.
  apply triple_assoc. eapply triple_bind; [apply harmless_lib_bytes; [done|apply grows_persistent]|].
  intros m' tr. cbn beta. unfold written, in_cxl_nhc_mem. rewrite db_protocol, (proj2 (Z.leb_le _ _) Hbeg).
  rewrite add_u64; [|assert (0 ≤ CXL_NHC_START) by done; lia|done|].
  - apply triple_assoc. autorewrite with prog. by apply (spec_log_range_and_release n tid fuel _ _ th ws tr).
  - assert (2 ^ VIRTUAL_ADDRESS_BITS ≤ 2 ^ 64) by done. lia.
Qed.
End call_specs.

(** ** Properties *)

(** A call of [memcpy], [memmove], [memset] or [bzero] on non-coherent memory,
    followed by a release. From any reachable world, whatever the library
    functions are, the call and the release never fail; when they return, every
    line the call has stored to and that [marks] names was written back after the
    stores and then published at a position the thread's new clock covers. *)
Theorem lib_call_publishes_marked `{cfg : Config} (ok : ConfigOk cfg) (EB : EagerBuild cfg) (DB : DirectBuild cfg)
    {Q : Type} `{FQ : !FifoQueue Q nat LOG_COUNT} (lib : libc) (w w' : world Q) (n tid fuel : nat) (c : libcall)
    (m : mem) (th : ThreadOps) (o : outcome (bool * ThreadOps)) (ev : list tevent) :
  let b := call_dst c / VIRTUAL_CL_SIZE in let e := (call_dst c + call_size c) / VIRTUAL_CL_SIZE in
  world_reachable w → (n < NODE_COUNT)%nat → th_node_id th = n → length (thread_clock th) = NODE_COUNT →
  mask_only (dirty_cls th) → CXL_NHC_START ≤ call_dst c → 0 ≤ call_size c →
  call_dst c + call_size c < 2 ^ VIRTUAL_ADDRESS_BITS → (e - b) / GROUP_SIZE ≤ GROUP_LEN_MAX →
  exec n tid (lib_call_and_release lib (S fuel) c m th) w o ev w' →
  o ≠ Crashed ∧ ∀ res, o = Returned res → res.1 = true ∧
    ∀ l, marks b e l → EvStore l ∈ ev →
      ∃ p, Z.of_nat p < vc_get (thread_clock res.2) n ∧ committed n w ev l p w'.
Proof.
  intros b e H0 Hn Hid Hclk Hmo Hb Hs He Hlen Hex.
  destruct (spec_lib_call_and_release lib n tid fuel c m th w Hn Hid Hclk Hmo Hb Hs He Hlen w _ _ _
    (reachable_ok w H0) (grows_refl w) Hex) as (_ & Ho & Hr).
  split; [done|]. intros res ->. exact (Hr _ eq_refl).
Qed.

(** C38: the byte loops of [memmove] mean a move. For sizes below 2^32 inside the
    address space, overlapping or not, the loop the addresses select ends and
    leaves in the target what the source held before, and every other byte as it
    was. *)
Theorem memmove_loops_move (dst src n : Z) (m : mem) :
  0 ≤ dst → 0 ≤ src → 0 ≤ n < 2 ^ 32 → dst + n ≤ 2 ^ 64 → src + n ≤ 2 ^ 64 →
  ∃ m', memmove_loops (Z.to_nat n) dst src n m = Some m' ∧ ∀ a, m' a = copied dst src n m a.
Proof.
  intros Hd Hs Hn Hdn Hsn. unfold memmove_loops. destruct (Z.ltb_spec dst src).
  - destruct (copy_up_spec (Z.to_nat n) 0 n dst src m) as (m' & Hm & Ha); [lia..|].
    exists m'. split; [done|]. intros a. rewrite Ha. by rewrite !Z.add_0_r, Z.sub_0_r.
  - assert (wrap32 n = n) as -> by (apply wrap_small; split; lia). apply copy_down_spec; lia.
Qed.

(** The scan reaches a line boundary it never leaves. *)
Section strcpy_scan.
Context `{cfg : Config} {Q : Type} `{FQ : !FifoQueue Q nat LOG_COUNT}.
Implicit Types (fuel : nat) (src n k : Z) (m : mem).

Definition at_boundary src k : Prop := (src +w k) &w CACHE_LINE_MASK = 0.

Lemma scan_line_boundary fuel src n k m :
  at_boundary src k → n ≤ k → (∀ j, n ≤ j < k → m (src +w j) ≠ 0) →
  scan_line fuel src n m = None ∨ ∃ k', scan_line fuel src n m = Some (k', false) ∧ at_boundary src k' ∧ k' ≤ k.
Proof.
  intros Hk. revert n. induction fuel as [|fuel IH]; intros n Hn Hm; cbn [scan_line];
    (destruct (Z.eqb_spec ((src +w n) &w CACHE_LINE_MASK) 0) as [Hz|Hz]; [right; by exists n|]); [by left|].
  assert (n < k) as Hlt by (destruct (decide (n = k)) as [->|]; [done|lia]).
  rewrite (proj2 (Z.eqb_neq _ _)) by (apply Hm; lia). apply IH; [lia|]. intros j Hj. apply Hm. lia.
Qed.

Lemma scan_line_at fuel src n m : at_boundary src n → scan_line fuel src n m = Some (n, false).
Proof. unfold at_boundary. intros H. destruct fuel; cbn [scan_line]; by rewrite H. Qed.

(** An execution of a bind returns only if its first part does. *)
Lemma bind_returns (nid tid : nat) {A B} (p : prog A) (f : A → prog B) (w : world Q) b tr w' :
  exec nid tid (p ≫= f) w (Returned b) tr w' →
  ∃ a tr1 w1 tr2, exec nid tid p w (Returned a) tr1 w1 ∧ exec nid tid (f a) w1 (Returned b) tr2 w'.
Proof.
  intros [(a & tr1 & w1 & tr2 & H1 & H2 & _)|[[? _]|[? _]]]%exec_bind_inv; [by exists a, tr1, w1, tr2|done|done].
Qed.

Lemma strcpy_scan_stuck nid tid fuel rounds src n m (w : world Q) r tr w' :
  at_boundary src n → ¬ exec nid tid (strcpy_scan fuel rounds src n m) w (Returned r) tr w'.
Proof.
  intros Hn. revert w tr w'. induction rounds as [|rounds IH]; intros w tr w'; cbn [strcpy_scan]; [by intros [? _]|].
  intros (u & tr1 & w1 & tr2 & _ & He)%bind_returns. rewrite scan_line_at in He by done.
  autorewrite with prog in He. by eapply IH.
Qed.

Lemma strcpy_scan_never nid tid fuel rounds src k m (w : world Q) r tr w' :
  at_boundary src k → 0 ≤ k → (∀ j, 0 ≤ j < k → m (src +w j) ≠ 0) →
  ¬ exec nid tid (strcpy_scan fuel rounds src 0 m) w (Returned r) tr w'.
Proof.
  intros Hk Hk0 Hm. destruct rounds as [|rounds]; cbn [strcpy_scan]; [by intros [? _]|].
  intros (u & tr1 & w1 & tr2 & _ & He)%bind_returns.
  destruct (scan_line_boundary fuel src 0 k m Hk Hk0 Hm) as [Hs|(k' & Hs & Hk' & _)]; rewrite Hs in He.
  - by destruct He as [? _].
  - autorewrite with prog in He. by eapply strcpy_scan_stuck.
Qed.
End strcpy_scan.

(** C39: [strcpy] never returns when the string reaches a cache line boundary. In
    a build that invalidates lazily, or before [dlsym] has found [strcpy], if no
    byte of the source before its next line boundary is the terminator (as for
    any source that starts at a boundary), no execution returns: at the boundary
    the inner loop does not move and the outer one repeats. *)
Theorem strcpy_hangs_at_line_boundary `{cfg : Config} {Q : Type} `{FQ : !FifoQueue Q nat LOG_COUNT} (lib : libc)
    (w w' : world Q) (n tid fuel : nat) (i0 dst src k : Z) (m : mem) (th : ThreadOps)
    (o : outcome (mem * ThreadOps)) (ev : list tevent) :
  strcpy_scans lib = true → 0 ≤ k → (src +w k) &w CACHE_LINE_MASK = 0 → (∀ j, 0 ≤ j < k → m (src +w j) ≠ 0) →
  exec n tid (strcpy lib fuel i0 dst src m th) w o ev w' → ∀ r, o ≠ Returned r.
Proof.
  intros Hs Hk Hb Hm He r ->. apply bind_returns in He as ([len m'] & tr1 & w1 & _ & He & _).
  unfold strcpy_bytes in He. rewrite Hs in He. apply bind_returns in He as (len' & tr2 & w2 & _ & He & _).
  by eapply strcpy_scan_never in He.
Qed.

(** The 32-bit counters of the byte loops. For a size of 2^32 or more the
    loop of [memcpy], which is also that of [memmove] to a lower address, never
    ends, and [memmove] to a higher address copies only the size modulo 2^32. *)
Theorem byte_loops_32_bit_counter (fuel : nat) (dst src n : Z) (m : mem) :
  2 ^ 32 ≤ n →
  copy_up fuel 0 n dst src m = None ∧
  (dst < src → memmove_loops fuel dst src n m = None) ∧
  (0 ≤ src ≤ dst → dst + n ≤ 2 ^ 64 →
   ∃ m', memmove_loops (Z.to_nat (n mod 2 ^ 32)) dst src n m = Some m' ∧ ∀ a, m' a = copied dst src (n mod 2 ^ 32) m a).
Proof.
  intros Hn. split; [by apply copy_up_stuck|]. split.
  - intros Hlt. unfold memmove_loops. rewrite (proj2 (Z.ltb_lt _ _) Hlt). by apply copy_up_stuck.
  - intros Hs Hd. unfold memmove_loops. rewrite (proj2 (Z.ltb_ge _ _)) by lia.
    pose proof (Z.mod_pos_bound n (2 ^ 32) ltac:(lia)). pose proof (Z.mod_le n (2 ^ 32) ltac:(lia) ltac:(lia)).
    apply copy_down_spec; unfold wrap32, wrap; lia.
Qed.

(** ** Lemmas: an eagerly writing build *)

Section eager_writeback.
Context `{cfg : Config} {Q : Type} `{FQ : !FifoQueue Q nat LOG_COUNT}
  (EW : EAGER_WRITEBACK = true) (TAB : LOCAL_CL_TABLE = true) (nid tid : nat) (F : tevent → Prop).
Implicit Types (fuel : nat) (th : ThreadOps).

(** All events of the program satisfy [F], and its results satisfy [R]. *)
Definition emits {A} (R : A → Prop) (pr : prog A) : Prop :=
  ∀ (w : world Q) o ev w', exec nid tid pr w o ev w' → Forall F ev ∧ ∀ a, o = Returned a → R a.

Lemma emits_ret {A} (R : A → Prop) a : R a → emits R (mret a).
Proof. intros Ha w o ev w' (-> & -> & _). split; [constructor|]. by intros b [= <-]. Qed.
Lemma emits_fuel {A} (R : A → Prop) : emits R OutOfFuel.
Proof. intros w o ev w' (-> & -> & _). split; [constructor|done]. Qed.
Lemma emits_null {A} (R : A → Prop) : emits R NullAccess.
Proof. intros w o ev w' (-> & -> & _). split; [constructor|done]. Qed.
Lemma emits_option {A} (R : A → Prop) (o : option A) : (∀ a, o = Some a → R a) → emits R (of_option o).
Proof. intros Ho. destruct o; [by apply emits_ret, Ho|apply emits_fuel]. Qed.
Lemma emits_bind {A B} (S : A → Prop) (R : B → Prop) (pr : prog A) (f : A → prog B) :
  emits S pr → (∀ a, S a → emits R (f a)) → emits R (pr ≫= f).
Proof.
  intros Hp Hf w o ev w' He. apply exec_bind_inv in He as [(a & tr1 & w1 & tr2 & H1 & H2 & ->)|[[-> H]|[-> H]]].
  - destruct (Hp _ _ _ _ H1) as [H1' Ha]. destruct (Hf a (Ha a eq_refl) _ _ _ _ H2). by rewrite Forall_app.
  - by destruct (Hp _ _ _ _ H).
  - by destruct (Hp _ _ _ _ H).
Qed.
Lemma emits_act {X} (a : act X) :
  (∀ (w : world Q) r ev w', act_step nid tid a w = Done r ev w' → Forall F ev) → emits (λ _, True) (perform a).
Proof. intros Ha w o ev w' He. split; [|done]. by apply (issues_act nid tid F a Ha w o ev w'). Qed.

(** Neither the publication of a position nor a call of the program is a flush. *)
Context (HF : ∀ e, (∀ f, e ≠ EvFlush f) → F e).
Definition flushless {X} (a : act X) : Prop :=
  match a with FlushLines _ | ProcessLog _ _ | CheckInvalidate _ | CheckRange _ _ _ => False | _ => True end.

Lemma emits_flushless {X} (a : act X) : flushless a → emits (λ _, True) (perform a).
Proof.
  intros Hq. apply emits_act. intros w r ev w' H. unfold act_step in H. apply from_option_done in H as (nd & _ & H).
  destruct a; try done; repeat match type of H with
    | from_option _ _ = Done _ _ _ => apply from_option_done in H as (? & _ & H)
    | require _ _ = Done _ _ _ => apply require_done in H as [_ H]
    | (let '(_, _) := ?x in _) = _ => destruct x
    | (if ?b then _ else _) = _ => destruct b
    | match ?x with Some _ => _ | None => _ end = _ => destruct x
    end; try done; injection H as <- <- <-; try constructor; try (by apply HF); try constructor.
  all: apply Forall_forall; intros e (x & -> & _)%list_elem_of_fmap; by apply HF.
Qed.

Lemma emits_prod_tail log r : emits (λ _, True) (prod_tail log r).
Proof. unfold prod_tail. eapply emits_bind; [by apply emits_flushless|]. intros t _. by apply emits_flushless. Qed.

Lemma emits_new_log fuel : emits (λ _, True) (set_to_new_log fuel).
Proof.
  induction fuel as [|fuel IH]; cbn [set_to_new_log]; [apply emits_fuel|].
  eapply emits_bind; [by apply emits_flushless|]. intros [log|] _; [by apply emits_ret|done].
Qed.

Lemma emits_write_entry fuel r e st : emits (λ _, True) (write_entry fuel r e st).
Proof.
  unfold write_entry. case_match; [by apply emits_ret|]. destruct st as [clk log].
  eapply (emits_bind (λ _, True)); [|intros [clk' log'] _; eapply emits_bind; [by apply emits_flushless|]].
  - destruct DELAY_PUBLISH; [|by apply emits_ret]. eapply emits_bind; [by apply emits_flushless|].
    intros [] _; [|by apply emits_ret]. eapply emits_bind; [apply emits_prod_tail|]. intros c _.
    eapply emits_bind; [apply emits_new_log|]. intros l _. by apply emits_ret.
  - intros _ _. rewrite EW. autorewrite with prog. by apply emits_ret.
Qed.

Lemma emits_write_entries fuel r es st : emits (λ _, True) (write_entries fuel r es st).
Proof.
  revert st. induction es as [|e es IH]; intros st; cbn [write_entries]; [by apply emits_ret|].
  eapply emits_bind; [apply emits_write_entry|]. intros st' _. apply IH.
Qed.

(** A pass over the table issues no flush and keeps the recent line. *)
Lemma emits_write_to_log fuel r th : emits (λ res, recent_cl res.2 = recent_cl th) (write_to_log fuel r th).
Proof.
  unfold write_to_log. eapply (emits_bind (λ _, True)).
  { destruct DELAY_PUBLISH; [|apply emits_new_log]. unfold get_curr_log. destruct (curr_log th); [by apply emits_ret|apply emits_new_log]. }
  intros log _. eapply (emits_bind (λ _, True)); [apply emits_write_entries|]. intros [clk log'] _.
  eapply (emits_bind (λ _, True)); [|intros [c member] _; by apply emits_ret].
  destruct DELAY_PUBLISH; [destruct r; [|by apply emits_ret]|]; (eapply emits_bind; [apply emits_prod_tail|intros ? _; by apply emits_ret]).
Qed.

Lemma emits_insert_range fuel rounds b e th : emits (λ th', recent_cl th' = recent_cl th) (insert_range fuel rounds b e th).
Proof.
  revert b e th. induction rounds as [|rounds IH]; intros b e th; cbn [insert_range]; [apply emits_fuel|].
  eapply (emits_bind (λ _, True)); [by apply emits_option|]. intros [[[full b'] e'] t] _. destruct full; [|by apply emits_ret].
  eapply emits_bind; [apply emits_write_to_log|]. intros [c th'] Hth. cbn in Hth. rewrite <- Hth. apply IH.
Qed.

Lemma emits_log_range_store fuel begin stop th :
  emits (λ th', recent_cl th' = shr64 stop VIRTUAL_CL_SHIFT) (log_range_store fuel begin stop th).
Proof.
  unfold log_range_store. rewrite TAB. cbn [negb]. eapply emits_bind; [apply emits_insert_range|]. intros th' Hth.
  unfold flush_length_entries. case_match; [|by apply emits_ret].
  eapply emits_bind; [apply emits_write_to_log|]. intros [c th2] Hth2. apply emits_ret. cbn in *. congruence.
Qed.

Lemma emits_dump fuel th : emits (λ _, True) (dump_buffer fuel th).
Proof.
  revert th. induction fuel as [|fuel IH]; intros th; cbn [dump_buffer]; [apply emits_fuel|].
  eapply (emits_bind (λ _, True)); [by apply emits_option|]. intros [full t] _. destruct full; [|by apply emits_ret].
  eapply emits_bind; [apply emits_write_to_log|]. intros [c th'] _. apply IH.
Qed.

(** A release writes back the recent line only. *)
Lemma emits_release fuel th :
  (∀ ev, ev ∈ writeback_lines (recent_cl th <<w VIRTUAL_CL_SHIFT) CL_EXPAND_FACTOR → F (EvFlush ev)) →
  emits (λ _, True) (thread_release fuel th).
Proof.
  intros Hr. unfold thread_release. case_match; [by apply emits_ret|]. rewrite EW, TAB.
  eapply (emits_bind (λ _, True)).
  { apply emits_act. intros w r ev w' H0. unfold act_step in H0. apply from_option_done in H0 as (nd & _ & H0).
    injection H0 as <- <- <-. apply Forall_forall. intros e (f & -> & Hf)%list_elem_of_fmap. by apply Hr. }
  intros u _. eapply (emits_bind (λ _, True)); [destruct LOCAL_CL_TABLE_BUFFER; [apply emits_dump|by apply emits_ret]|].
  intros th1 _. eapply emits_bind; [apply emits_write_to_log|]. intros [c th2] _. by apply emits_ret.
Qed.
End eager_writeback.

(** The address of a line. *)
Lemma line_address `{cfg : Config} {ok : ConfigOk cfg} l :
  0 ≤ l * VIRTUAL_CL_SIZE < 2 ^ VIRTUAL_ADDRESS_BITS → l <<w VIRTUAL_CL_SHIFT = l * VIRTUAL_CL_SIZE.
Proof.
  intros Hl. pose proof virtual_cl_size_range. pose proof expand_range.
  assert (0 ≤ VIRTUAL_CL_SHIFT ≤ 11) as Hsh by (unfold VIRTUAL_CL_SHIFT, CACHE_LINE_SHIFT; lia).
  change (2 ^ VIRTUAL_ADDRESS_BITS) with 281474976710656 in *.
  rewrite (shl64_fits l VIRTUAL_CL_SHIFT 48); [|lia|split; [|change (2 ^ 48) with 281474976710656]; nia|lia].
  rewrite Z.shiftl_mul_pow2, virtual_cl_size_eq by lia. done.
Qed.

(** In a build with [EAGER_WRITEBACK] a [memcpy] to non-coherent memory is not
    written back. The macro the file tests for it has another name, so of all the
    lines written only the one at the end address, which the release takes for
    the most recent store, is ever written back before the release returns. *)
Theorem eager_writeback_misses_copied_lines `{cfg : Config} (ok : ConfigOk cfg)
    {Q : Type} `{FQ : !FifoQueue Q nat LOG_COUNT} (lib : libc) (w w' : world Q) (nid tid fuel : nat) (dst src n : Z)
    (m : mem) (th : ThreadOps) (o : outcome (bool * ThreadOps)) (ev : list tevent) :
  EAGER_WRITEBACK = true → LOCAL_CL_TABLE = true → EAGER_INVALIDATE = true → PROTOCOL_OFF = false → NO_FLUSH = false →
  CXL_NHC_START ≤ dst → 0 ≤ n → dst + n < 2 ^ VIRTUAL_ADDRESS_BITS →
  exec nid tid (lib_call_and_release lib fuel (Memcpy dst src n) m th) w o ev w' →
  ∀ a, EvFlush (Writeback a) ∈ ev → a / VIRTUAL_CL_SIZE = (dst + n) / VIRTUAL_CL_SIZE.
Proof.
  intros EW TAB EI PO NF Hd Hn He Hex a Ha. assert (0 ≤ CXL_NHC_START) as Hpos by done.
  set (F := λ e, match e with EvFlush (Writeback a) => a / VIRTUAL_CL_SIZE = (dst + n) / VIRTUAL_CL_SIZE | _ => True end).
  assert (∀ e, (∀ f, e ≠ EvFlush f) → F e) as HF by (intros [f|l|l|p] H; [by destruct (H f)|done..]).
  assert (emits (Q := Q) nid tid F (λ _, True) (lib_call_and_release lib fuel (Memcpy dst src n) m th)) as Hem.
  { unfold lib_call_and_release. cbn [lib_call]. unfold memcpy.
    eapply (emits_bind _ _ _ (λ res, recent_cl res.2 = shr64 (dst + n) VIRTUAL_CL_SHIFT)).
    - eapply (emits_bind _ _ _ (λ _, True)).
      + unfold memcpy_bytes, src_hook, dst_hook. rewrite PO, EI. cbn [negb orb andb].
        assert ((if in_cxl_nhc_mem src then mret tt else mret tt : prog unit) = mret tt) as -> by by case_match.
        autorewrite with prog. eapply (emits_bind _ _ _ (λ _, True)); [by apply emits_option|]. intros m' _.
        unfold touch_load, touch_store.
        eapply (emits_bind _ _ _ (λ _, True)); [case_match; [by apply emits_ret|by apply emits_flushless]|]. intros _ _.
        eapply (emits_bind _ _ _ (λ _, True)); [case_match; [by apply emits_ret|by apply emits_flushless]|]. intros _ _.
        by apply emits_ret.
      + intros m' _. unfold written, in_cxl_nhc_mem. rewrite PO, (proj2 (Z.leb_le _ _) Hd).
        assert (2 ^ VIRTUAL_ADDRESS_BITS ≤ 2 ^ 64) by done. rewrite add_u64 by lia.
        eapply emits_bind; [by apply emits_log_range_store|]. intros th' Hth. by apply emits_ret.
    - intros [m' th'] Hth. cbn in Hth. apply emits_release; [done..|].
      rewrite Hth, line_number by lia. pose proof expand_factor_range as [Hf Hv]. pose proof virtual_cl_size_range.
      set (l := (dst + n) / VIRTUAL_CL_SIZE). assert (l * VIRTUAL_CL_SIZE ≤ dst + n) as Hl by (unfold l; divlia).
      assert (0 ≤ l) by (apply Z.div_pos; lia).
      assert (l <<w VIRTUAL_CL_SHIFT = l * VIRTUAL_CL_SIZE) as ->.
      { apply line_address. lia. }
      intros e Hin. apply elem_of_writeback_lines in Hin as (i & Hi & ->); [|done|lia|lia|].
      + cbn. symmetry. apply Z.div_unique with (i * 64); lia.
      + change (2 ^ 64) with 18446744073709551616. change (2 ^ VIRTUAL_ADDRESS_BITS) with 281474976710656 in *. lia. }
  destruct (Hem _ _ _ _ Hex) as [Hall _]. rewrite Forall_forall in Hall. exact (Hall _ Ha).
Qed.

Lemma instrument_found dlsym l (ptrs : pointers) seen :
  (∀ f, ptrs f ≠ 0) → foldl (instrument_one dlsym) (ptrs, seen) l = (ptrs, seen).
Proof.
  intros H. induction l as [|f l IH]; cbn [foldl]; [done|]. unfold instrument_one at 2.
  by rewrite (proj2 (Z.eqb_neq _ _) (H f)).
Qed.

(** The look-up of the real functions. From null pointers, [instrument_lib] ends
    with what [dlsym] gives; at every moment on the way a replacement, called by
    [dlsym] itself or by another thread, calls a function that [dlsym] gave or takes
    its own loop, never the mark 1; and a second call changes nothing. *)
Theorem instrument_lib_publishes_found (dlsym : pointers) :
  let '(final, seen) := instrument_lib dlsym (λ _, 0) in
  (∀ f, final f = dlsym f) ∧
  (∀ ptrs f, ptrs ∈ seen → calls_real ptrs f = true → ptrs f = dlsym f) ∧
  ((∀ f, dlsym f ≠ 0) → instrument_lib dlsym final = (final, [final])).
Proof.
  destruct (instrument_lib dlsym (λ _, 0)) as [final seen] eqn:E.
  assert (∀ f, final f = dlsym f) as Hfinal by (cbn in E; injection E as <- <-; by intros []).
  split_and!; [done| |intros Hne; apply instrument_found; intros f; rewrite Hfinal; apply Hne].
  clear Hfinal. cbn in E. injection E as <- <-. intros ptrs f H. unfold calls_real, set_pointer in *.
  repeat (apply elem_of_cons in H as [->|H]; [by destruct f; cbn|]). by apply not_elem_of_nil in H.
Qed.

(** ** Examples *)

(** Nothing found by [dlsym]; byte [a] holds [a mod 256]. *)
Definition no_libc : libc := mkLibc None None None None None None.
Definition ex_mem : mem := λ a, a mod 256.
(** The functions of the C library, as documented, for sources that end. *)
Definition std_libc : libc := mkLibc
  (Some (λ dst src n m, copied dst src n m)) (Some (λ dst src n m, copied dst src n m))
  (Some (λ dst c n m, filled dst n (wrap 8 c) m)) (Some (λ dst n m, filled dst n 0 m))
  (Some (λ dst src m, match str_len 4096 src 0 m with Some n => copied dst src (n + 1) m | None => m end))
  (Some (λ fd buf n m, (n, filled buf n 1 m))).

(** An overlapping move of four bytes up by two. *)
Example ex_memmove : (λ m, map m (seqZ 8 8)) <$> memmove_loops 4 10 8 4 ex_mem = Some [8; 9; 8; 9; 10; 11; 14; 15].
Proof. vm_compute. reflexivity. Qed.

Lemma memmove_loops_move_witness :
  ∃ m', memmove_loops 4 10 8 4 ex_mem = Some m' ∧ m' 13 = 11.
Proof.
  destruct (memmove_loops_move 10 8 4 ex_mem) as (m' & Hm & Ha); [lia|lia|lia|lia|lia|].
  exists m'. split; [exact Hm|]. rewrite Ha. reflexivity.
Defined.

Lemma byte_loops_32_bit_counter_witness :
  copy_up 5 0 4294967296 0 0 ex_mem = None.
Proof.
  destruct (byte_loops_32_bit_counter 5 0 0 4294967296 ex_mem (Z.le_refl 4294967296)) as [H _]. exact H.
Defined.

Section examples.
Let cfg : Config := small_config.
#[local] Existing Instance cfg.
#[local] Existing Instance small_config_ok.
#[local] Existing Instance small_eager.
#[local] Existing Instance small_direct.
Abbreviation SQ := (@spmc_bounded_queue nat).

(** A copy of two lines into the non-coherent region. *)
Definition ex_copy (w : world SQ) :=
  run 0 0 (lib_call_and_release std_libc 5 (Memcpy CXL_NHC_START 0 1024) ex_mem (thread_new 0 0)) w.
Definition ex_copy_ok : bool :=
  match rac_init_world (Q := SQ) with
  | Some w0 =>
      match ex_copy w0 with
      | (Returned (b, th1), ev1, w1) =>
          b && existsb (λ e, match e with EvStore l => l =? CXL_NHC_START / 64 + 5 | _ => false end) ev1
      | _ => false
      end
  | None => false
  end.
Example ex_copy_true : ex_copy_ok = true.
Proof. vm_compute. reflexivity. Qed.

Lemma lib_call_publishes_marked_witness :
  ∃ w0 w1 ev1 res p, rac_init_world (Q := SQ) = Some w0 ∧ ex_copy w0 = (Returned res, ev1, w1) ∧
    committed 0 w0 ev1 (CXL_NHC_START / 64 + 5) p w1.
Proof.
  pose proof ex_copy_true as H. unfold ex_copy_ok in H. destruct rac_init_world as [w0|] eqn:E0; [|discriminate H].
  destruct (ex_copy w0) as [[[[b th1]| |] ev1] w1] eqn:E1; try discriminate H.
  apply andb_prop in H as [Hb H]. apply existsb_exists in H as (e & He%list_elem_of_In & Hl).
  destruct e as [|?|l|]; try discriminate Hl. apply Z.eqb_eq in Hl. subst l.
  destruct (lib_call_publishes_marked small_config_ok small_eager small_direct std_libc w0 w1 0 0 4
    (Memcpy CXL_NHC_START 0 1024) ex_mem (thread_new 0 0) _ ev1 (ex_reachable w0 E0) ltac:(cbn; lia) eq_refl eq_refl
    mask_only_init ltac:(cbn; lia) ltac:(cbn; lia) ltac:(vm_compute; reflexivity) ltac:(vm_compute; congruence)
    (run_exec _ _ _ _ _ _ _ E1)) as [_ Hr].
  destruct (Hr (b, th1) eq_refl) as [_ Hall].
  destruct (Hall (CXL_NHC_START / 64 + 5)) as (p & _ & Hc); [left; split; vm_compute; congruence|exact He|].
  exists w0, w1, ev1, (b, th1), p. split; [reflexivity|]. split; [exact E1|exact Hc].
Defined.
End examples.

(** The small build with eager writebacks. *)
Definition eager_config : Config := {|
  CL_EXPAND_SHIFT := 0; NODE_COUNT := 2; CONSUME_HELPING := true; LOCATION_CLOCK_MERGE := false;
  PROTOCOL_OFF := false; NO_FLUSH := false; EAGER_WRITEBACK := true; EAGER_INVALIDATE := true;
  LOCAL_CL_TABLE := true; DELAY_PUBLISH := false; LOCAL_CL_TABLE_BUFFER := false;
  INLINE_CACHING := true; LOCAL_CL_TABLE_SIZE := 2; LOCAL_CL_TABLE_SEARCH_ITERS := 2;
  LOG_ENTRY_TOTAL := 4; LOG_SIZE := 2
|}.
Lemma eager_config_ok : ConfigOk eager_config.
Proof. destruct small_config_ok. constructor; assumption. Qed.

Section eager_example.
Let cfg : Config := eager_config.
#[local] Existing Instance cfg.
#[local] Existing Instance eager_config_ok.
Abbreviation SQ := (@spmc_bounded_queue nat).

Definition ex_eager (w : world SQ) :=
  run 0 0 (lib_call_and_release std_libc 5 (Memcpy CXL_NHC_START 0 1024) ex_mem (thread_new 0 0)) w.
Definition ex_eager_ok : bool :=
  match rac_init_world (Q := SQ) with
  | Some w0 => match ex_eager w0 with (Returned (b, _), _, _) => b | _ => false end
  | None => false
  end.
Example ex_eager_true : ex_eager_ok = true.
Proof. vm_compute. reflexivity. Qed.

(** The release has published the copy, and no writeback was of its first line. *)
Lemma eager_writeback_misses_copied_lines_witness :
  ∃ w0 th1 ev1 w1, rac_init_world (Q := SQ) = Some w0 ∧ ex_eager w0 = (Returned (true, th1), ev1, w1) ∧
    EvFlush (Writeback CXL_NHC_START) ∉ ev1.
Proof.
  pose proof ex_eager_true as H. unfold ex_eager_ok in H. destruct rac_init_world as [w0|] eqn:E0; [|discriminate H].
  destruct (ex_eager w0) as [[[[b th1]| |] ev1] w1] eqn:E1; try discriminate H. destruct b; [|discriminate H].
  exists w0, th1, ev1, w1. split; [reflexivity|]. split; [exact E1|]. intros Hin.
  pose proof (eager_writeback_misses_copied_lines eager_config_ok std_libc w0 w1 0 0 5 CXL_NHC_START 0 1024 ex_mem
    (thread_new 0 0) _ ev1 eq_refl eq_refl eq_refl eq_refl eq_refl ltac:(lia) ltac:(lia) ltac:(vm_compute; reflexivity)
    (run_exec _ _ _ _ _ _ _ E1) CXL_NHC_START Hin) as Heq.
  vm_compute in Heq. discriminate Heq.
Defined.
End eager_example.

Section lazy_example.
Let cfg : Config := lazy_config.
#[local] Existing Instance cfg.
#[local] Existing Instance lazy_config_ok.
Abbreviation SQ := (@spmc_bounded_queue nat).

(** A source at a line boundary: the run stops for lack of fuel. *)
Lemma strcpy_hangs_at_line_boundary_witness :
  ∃ ev w', run 0 0 (strcpy no_libc 50 0 1000 640 ex_mem (thread_new 0 0)) ([] : world SQ) = (Stopped, ev, w') ∧
    ∀ r, (Stopped : outcome (mem * ThreadOps)) ≠ Returned r.
Proof.
  destruct (run 0 0 (strcpy no_libc 50 0 1000 640 ex_mem (thread_new 0 0)) ([] : world SQ)) as [[o ev] w'] eqn:E.
  assert (o = Stopped) as Ho.
  { apply (f_equal (λ x, match x.1.1 with Stopped => true | _ => false end)) in E. vm_compute in E.
    destruct o; [discriminate E|discriminate E|reflexivity]. }
  subst o. exists ev, w'. split; [reflexivity|].
  apply (strcpy_hangs_at_line_boundary (cfg := lazy_config) no_libc ([] : world SQ) w' 0 0 50 0 1000 640 0 ex_mem (thread_new 0 0) Stopped ev);
    [reflexivity|lia|reflexivity|intros j Hj; lia|exact (run_exec _ _ _ _ _ _ _ E)].
Defined.
End lazy_example.
