(* ===== verification/CxlMalloc.v ===== *)
(** CxlMalloc: [include/cxlMalloc.hpp], [src/cxlMalloc.cpp] and the address layout
    that [rac_init] and [alloc_cxl_memory] of [src/runtime.cpp] set up.

    mimalloc and jemalloc are parameters: what the model has is which memory the
    program gives them, and the extent hooks it answers them with. The two
    allocator configurations of [cxl_alloc_process_init] are two definitions. *)
From S2P Require Import Prelude Config ExtentPool Runtime.
#[local] Open Scope word_scope.

(** ** Definitions: regions *)

Record region := mkRegion { rg_start : Z; rg_size : Z }.
Definition in_region (r : region) (a : Z) : Prop := rg_start r ≤ a < rg_start r + rg_size r.
Definition apart (r r' : region) : Prop :=
  rg_start r + rg_size r ≤ rg_start r' ∨ rg_start r' + rg_size r' ≤ rg_start r.

(** ** Definitions: with mimalloc *)

Section mimalloc.
(** The library's size of the metadata of a region, and whether it accepts a
    metadata and a data region. *)
Context (mi_cxl_meta_region_size : Z → Z) (mi_manage_os_memory : region → region → bool).

Record arenas := mkArenas { hc_meta : region; hc_data : region; nhc_meta : region; nhc_data : region }.

(** [cxl_alloc_process_init] with [USE_GLOBAL_MIMALLOC]; [None] is the failed
    assertion or an exit. *)
Definition process_init_mimalloc (hc_buf hc_range nhc_buf nhc_range : Z) : option arenas :=
  let nhc_meta_size := mi_cxl_meta_region_size nhc_range in
  let hc_meta_size := mi_cxl_meta_region_size (hc_range -w nhc_meta_size) in
  if nhc_meta_size +w hc_meta_size <? hc_range then
    let a := mkArenas
      (mkRegion hc_buf hc_meta_size)
      (mkRegion (hc_buf +w hc_meta_size) (hc_range -w hc_meta_size -w nhc_meta_size))
      (mkRegion (hc_buf +w hc_range -w nhc_meta_size) nhc_meta_size)
      (mkRegion nhc_buf nhc_range) in
    if mi_manage_os_memory (hc_meta a) (hc_data a) then
      if mi_manage_os_memory (nhc_meta a) (nhc_data a) then Some a else None
    else None
  else None.

(** The layout of the shared memory after [rac_init] on node 0: the two mappings
    of [alloc_cxl_memory], then [GlobalMeta], the user's root and the arenas. *)
Record layout := mkLayout { global_meta : region; user_root : region; lay_arenas : arenas }.

Definition alloc_cxl_memory (hc_range nhc_range : Z) : option (region * region) :=
  if CXL_HC_START +w hc_range <? CXL_NHC_START
  then Some (mkRegion CXL_HC_START hc_range, mkRegion CXL_NHC_START nhc_range) else None.

Definition rac_init_layout (sizeof_GlobalMeta hc_range nhc_range root_size : Z) : option layout :=
  '(hc, nhc) ← alloc_cxl_memory hc_range nhc_range;
  let cxl_hc_off := sizeof_GlobalMeta +w root_size in
  if cxl_hc_off <? hc_range then
    a ← process_init_mimalloc (rg_start hc +w cxl_hc_off) (hc_range -w cxl_hc_off) (rg_start nhc) nhc_range;
    Some (mkLayout (mkRegion (rg_start hc) sizeof_GlobalMeta)
                   (mkRegion (rg_start hc +w sizeof_GlobalMeta) root_size) a)
  else None.
End mimalloc.

(** ** Definitions: with jemalloc *)

(** [AllocMeta]: each pool with its offset. *)
Record AllocMeta := mkMeta { cxlhc_pool : ExtentPool * Z; cxlnhc_pool : ExtentPool * Z }.

(** The distance to the next line; [-] binds tighter than [&]. *)
Definition padding (hc_buf : Z) : Z := (CACHE_LINE_SIZE -w hc_buf) &w (CACHE_LINE_SIZE -w 1).

(** The pools of [cxl_alloc_process_init]; only the first process makes them. *)
Definition process_init_pools (hc_buf hc_range nhc_buf nhc_range : Z) (is_first : bool) (meta : AllocMeta) : AllocMeta :=
  let p := padding hc_buf in
  let '(hc_buf, hc_range) := if p =? 0 then (hc_buf, hc_range) else (hc_buf +w p, hc_range -w p) in
  if is_first then mkMeta (mkPool hc_buf hc_range, 0) (mkPool nhc_buf nhc_range, 0) else meta.

(** What a hook returns: the extent, [*zero] and [*commit], and whether it cleared
    the bytes. *)
Record hook_result := mkHook { hk_addr : option Z; hk_zero : option bool; hk_commit : option bool; hk_cleared : bool }.

Definition pool_extent_alloc (pool : ExtentPool * Z) (size alignment : Z) (zero commit : option bool) :
    hook_result * (ExtentPool * Z) :=
  match allocate pool.1 size alignment pool.2 with
  | (None, off) => (mkHook None zero commit false, (pool.1, off))
  | (Some p, off) =>
      let clear := match zero with Some true => true | _ => false end in
      (mkHook (Some p) (if clear then Some false else zero) (match commit with Some _ => Some true | None => None end) clear,
       (pool.1, off))
  end.

(** The two [alloc] hooks, before and after [alloc_meta] is set. *)
Definition cxlhc_extent_alloc (meta : option AllocMeta) (size alignment : Z) (zero commit : option bool) :
    hook_result * option AllocMeta :=
  match meta with
  | None => (mkHook None zero commit false, None)
  | Some m =>
      let '(r, pool) := pool_extent_alloc (cxlhc_pool m) size alignment zero commit in
      (r, Some (mkMeta pool (cxlnhc_pool m)))
  end.
Definition cxlnhc_extent_alloc (meta : option AllocMeta) (size alignment : Z) (zero commit : option bool) :
    hook_result * option AllocMeta :=
  match meta with
  | None => (mkHook None zero commit false, None)
  | Some m =>
      let '(r, pool) := pool_extent_alloc (cxlnhc_pool m) size alignment zero commit in
      (r, Some (mkMeta (cxlhc_pool m) pool))
  end.

(** The other hooks: an extent is kept, splits and merges succeed. *)
Definition extent_dalloc : bool := true.
Definition extent_split : bool := false.
Definition extent_merge : bool := false.

(** ** Lemmas *)

Lemma sub64_small a b : 0 ≤ b ≤ a → a < 2 ^ 64 → a -w b = a - b.
Proof. intros. apply wrap_small. split; lia. Qed.
Lemma add64_small a b : 0 ≤ a → 0 ≤ b → a + b < 2 ^ 64 → a +w b = a + b.
Proof. intros. apply wrap_small. split; lia. Qed.

(** The arenas cut the hardware-coherent buffer in three. *)
Lemma process_init_mimalloc_spec f mng hc_buf hc_range nhc_buf nhc_range a :
  (∀ n, 0 ≤ f n < 2 ^ 63) → 0 ≤ hc_buf → 0 ≤ hc_range → hc_buf + hc_range < 2 ^ 64 →
  process_init_mimalloc f mng hc_buf hc_range nhc_buf nhc_range = Some a →
  rg_start (hc_meta a) = hc_buf ∧ rg_start (hc_data a) = hc_buf + rg_size (hc_meta a) ∧
  rg_start (nhc_meta a) = rg_start (hc_data a) + rg_size (hc_data a) ∧
  rg_start (nhc_meta a) + rg_size (nhc_meta a) = hc_buf + hc_range ∧
  nhc_data a = mkRegion nhc_buf nhc_range ∧
  0 ≤ rg_size (hc_meta a) ∧ 0 < rg_size (hc_data a) ∧ 0 ≤ rg_size (nhc_meta a).
Proof.
  intros Hf Hb Hr Hs. unfold process_init_mimalloc. set (x := f nhc_range). set (y := f (hc_range -w x)).
  assert (0 ≤ x < 2 ^ 63) by apply Hf. assert (0 ≤ y < 2 ^ 63) by apply Hf. clearbody x y.
  change (2 ^ 63) with 9223372036854775808 in *. change (2 ^ 64) with 18446744073709551616 in *.
  rewrite (add64_small x y) by (change (2 ^ 64) with 18446744073709551616; lia).
  destruct (Z.ltb_spec (x + y) hc_range); [|done].
  rewrite (add64_small hc_buf), (add64_small hc_buf), (sub64_small hc_range y), (sub64_small (hc_range - y)),
    (sub64_small (hc_buf + hc_range)) by (change (2 ^ 64) with 18446744073709551616; lia).
  cbn [hc_meta hc_data nhc_meta nhc_data]. repeat case_match; try done. intros [= <-]. cbn. repeat split; lia.
Qed.

(** ** Properties *)

Definition layout_regions (l : layout) : list region :=
  [global_meta l; user_root l; hc_meta (lay_arenas l); hc_data (lay_arenas l); nhc_meta (lay_arenas l); nhc_data (lay_arenas l)].


Lemma padding_spec hc_buf : 0 ≤ padding hc_buf < 64 ∧ (64 | hc_buf + padding hc_buf).
Proof.
  unfold padding. assert (CACHE_LINE_SIZE -w 1 = Z.ones 6) as -> by done. rewrite Z.land_ones by lia.
  unfold sub64, wrap64, wrap, CACHE_LINE_SIZE. change (2 ^ 6) with 64.
  rewrite Z.mod_mod_divide by by exists (2 ^ 58).
  pose proof (Z.mod_pos_bound (64 - hc_buf) 64 ltac:(lia)). split; [lia|].
  exists ((hc_buf + (64 - hc_buf) `mod` 64) / 64). divlia.
Qed.

(** The pools of the jemalloc configuration. The padding never reaches a whole
    line, and if it fits, the hardware-coherent pool starts at a cache line and
    ends where the buffer ends; if the buffer is smaller than the padding, the
    size wraps around to almost 2^64 and the pool accepts requests far beyond the
    buffer. *)
Theorem hc_pool_padding (hc_buf hc_range nhc_buf nhc_range : Z) (meta : AllocMeta) :
  0 ≤ hc_buf → 0 ≤ hc_range → hc_buf + hc_range + 64 < 2 ^ 64 →
  let pool := (cxlhc_pool (process_init_pools hc_buf hc_range nhc_buf nhc_range true meta)).1 in
  0 ≤ padding hc_buf < CACHE_LINE_SIZE ∧
  (padding hc_buf ≤ hc_range →
   (CACHE_LINE_SIZE | base_ pool) ∧ hc_buf ≤ base_ pool ∧ base_ pool + size_ pool = hc_buf + hc_range) ∧
  (hc_range < padding hc_buf → 2 ^ 64 - CACHE_LINE_SIZE < size_ pool).
Proof.
  intros Hb Hr Hs. destruct (padding_spec hc_buf) as [Hp Hdiv]. unfold process_init_pools. set (p := padding hc_buf) in *.
  clearbody p. unfold CACHE_LINE_SIZE. assert (2 ^ 64 = 18446744073709551616) as H64 by done.
  destruct (Z.eqb_spec p 0) as [->|Hne]; cbn [cxlhc_pool fst base_ size_].
  - rewrite Z.add_0_r in Hdiv. split; [done|]. split; [done|lia].
  - rewrite add64_small by lia. split; [done|]. split; intros.
    + rewrite sub64_small by lia. split; [done|lia].
    + assert (hc_range -w p = hc_range - p + 2 ^ 64) as ->; [|lia].
      unfold sub64, wrap64, wrap. symmetry. apply Z.mod_unique with (-1); lia.
Qed.

(** ** Examples *)

(** A library that wants a page and a byte for every KiB. *)
Definition ex_meta_size (n : Z) : Z := (4096 + n / 1024) mod 2 ^ 63.
Definition ex_manage (m d : region) : bool := true.


Lemma hc_pool_padding_witness :
  let meta := mkMeta (mkPool 0 0, 0) (mkPool 0 0, 0) in
  base_ (cxlhc_pool (process_init_pools 100 1000 4096 4096 true meta)).1 = 128 ∧ padding 100 < CACHE_LINE_SIZE.
Proof.
  intros meta. split; [reflexivity|]. apply (hc_pool_padding 100 1000 4096 4096 meta); [lia|lia|lia].
Defined.
