(* ===== verification/Microbench.v ===== *)
(** Microbench: [include/microbench.hpp], [src/microbench.cpp] and the argument
    check of [src/benchMain.cpp], the benchmark that drives the library.

    A workload gives the operation of an index; [bench_loop] is the loop of
    [Microbench::run] and returns the calls it makes, with the state
    [locked_offset] that [use_locks] keeps. *)
From Stdlib Require Import Permutation.
From S2P Require Import Prelude Config.

(** ** Definitions *)

Definition CXL_NHC_RANGE : Z := 2 ^ 34.
Definition CXL_SYNC_RANGE : Z := 2 ^ 4.
Definition CXL_POOL_DATA_SIZE : Z := Z.shiftr CXL_NHC_RANGE 4.
Definition TOTAL_OPS : Z := 2 ^ 25.
Definition SEQ_OP_FACTOR : Z := 3.
Definition PLAIN_ACQ_RLS_RATIO : Z := 2 ^ 8.
Definition OP_BUFFER_MAX : Z := 2 ^ 15.

Inductive OpType := OP_STORE | OP_STORE_RLS | OP_LOAD | OP_LOAD_ACQ | OP_END | OP_LOCK | OP_UNLOCK.
Record UserOp := mkOp { op_type : OpType; op_offset : Z }.
#[export] Instance OpType_eq_dec : EqDecision OpType.
Proof. solve_decision. Defined.

(** [SeqWorkLoad::getNextOp] *)
Definition seq_op (index : Z) : UserOp :=
  let is_acq_rel := Z.land index (PLAIN_ACQ_RLS_RATIO - 1) =? 0 in
  let is_load := (index mod SEQ_OP_FACTOR) mod 2 =? 0 in
  let range := if is_acq_rel then CXL_SYNC_RANGE else CXL_POOL_DATA_SIZE in
  let offset := Z.land index (range - 1) in
  mkOp (if is_acq_rel then (if is_load then OP_LOAD_ACQ else OP_STORE_RLS)
        else (if is_load then OP_LOAD else OP_STORE)) offset.

(** [RandWorkLoad]: the shuffle of [n] operations, [step] apart, with the values
    of [rand()]; a slot not yet written holds a zero operation. *)
Definition op_zero : UserOp := mkOp OP_STORE 0.
Definition rand_step : Z := let step := CXL_POOL_DATA_SIZE / OP_BUFFER_MAX in if step =? 0 then 1 else step.
Definition shuffle_at (rand : nat → Z) (buffer : list UserOp) (i : nat) : list UserOp :=
  let op := seq_op (Z.of_nat i * rand_step) in
  let j := Z.to_nat (rand i mod (Z.of_nat i + 1)) in
  <[j := op]> (<[i := nth j buffer op_zero]> buffer).
Definition rand_fill (rand : nat → Z) (size n : nat) : list UserOp :=
  foldl (shuffle_at rand) (replicate size op_zero) (seq 0 n).
Definition rand_op (buffer : list UserOp) (index : Z) : option UserOp :=
  if index <? TOTAL_OPS then Some (nth (Z.to_nat (Z.land index (OP_BUFFER_MAX - 1))) buffer op_zero) else None.

(** [Microbench::use_locks] *)
Definition use_locks (op : UserOp) (locked_offset : Z) : UserOp * Z :=
  if decide (op_type op ≠ OP_STORE_RLS ∧ op_type op ≠ OP_LOAD_ACQ) then (op, locked_offset)
  else if locked_offset =? CXL_SYNC_RANGE then (mkOp OP_LOCK (op_offset op), op_offset op)
  else (mkOp OP_UNLOCK locked_offset, CXL_SYNC_RANGE).

(** The calls of one turn of [run] on the pool. *)
Inductive bench_call :=
  | AtomicStore (off : Z) | RacStore (off : Z) | AtomicLoad (off : Z) | RacLoad (off : Z)
  | MutexLock (off : Z) | MutexUnlock (off : Z).
Definition perform_op (op : UserOp) : list bench_call :=
  match op_type op with
  | OP_STORE_RLS => [AtomicStore (op_offset op)]
  | OP_STORE => [RacStore (op_offset op)]
  | OP_LOAD_ACQ => [AtomicLoad (op_offset op)]
  | OP_LOAD => [RacLoad (op_offset op)]
  | OP_LOCK => [MutexLock (op_offset op)]
  | OP_UNLOCK => [MutexUnlock (op_offset op)]
  | OP_END => []
  end.

(** The loop from index [i], [n] turns, and the unlock after it; [with_locks] is
    [WORKLOAD_USE_LOCKS]. *)
Fixpoint bench_loop (with_locks : bool) (workload : Z → UserOp) (n : nat) (i locked_offset : Z) : list bench_call * Z :=
  match n with
  | O => ([], locked_offset)
  | S n' =>
      let op := workload i in
      let '(op, locked) := if with_locks then use_locks op locked_offset else (op, locked_offset) in
      let '(calls, locked') := bench_loop with_locks workload n' (i + 1) locked in
      (perform_op op ++ calls, locked')
  end.
Definition bench_run (with_locks : bool) (workload : Z → UserOp) (total : nat) : list bench_call :=
  let '(calls, locked) := bench_loop with_locks workload total 0 CXL_SYNC_RANGE in
  calls ++ (if negb (locked =? CXL_SYNC_RANGE) then [MutexUnlock locked] else []).

(** The test of [RAC_SERVER_IDX] in [main]. *)
Definition valid_server_idx `{cfg : Config} (server_idx : Z) : bool :=
  negb ((server_idx <? 0) || (Z.of_nat NODE_COUNT <? server_idx)).

(** ** The lock discipline *)

(** The mutex a thread holds after its calls; [None] is a lock while it holds one,
    or an unlock of another mutex. *)
Definition lock_step (held : option Z) (c : bench_call) : option (option Z) :=
  match c, held with
  | MutexLock off, None => Some (Some off)
  | MutexLock _, Some _ => None
  | MutexUnlock off, Some off' => if off =? off' then Some None else None
  | MutexUnlock _, None => None
  | _, _ => Some held
  end.
Fixpoint lock_run (held : option Z) (l : list bench_call) : option (option Z) :=
  match l with [] => Some held | c :: l => h ← lock_step held c; lock_run h l end.

(** Offsets inside the arrays of [CXLPool]. *)
Definition call_in_bounds (c : bench_call) : Prop :=
  match c with
  | AtomicStore off | AtomicLoad off | MutexLock off | MutexUnlock off => 0 ≤ off < CXL_SYNC_RANGE
  | RacStore off | RacLoad off => 0 ≤ off < CXL_POOL_DATA_SIZE
  end.
Definition op_in_bounds (op : UserOp) : Prop :=
  match op_type op with
  | OP_STORE_RLS | OP_LOAD_ACQ => 0 ≤ op_offset op < CXL_SYNC_RANGE
  | OP_STORE | OP_LOAD => 0 ≤ op_offset op < CXL_POOL_DATA_SIZE
  | _ => False
  end.

Lemma lock_run_app h l1 l2 : lock_run h (l1 ++ l2) = (h' ← lock_run h l1; lock_run h' l2).
Proof. revert h. induction l1 as [|c l1 IH]; intros h; [done|]. cbn. destruct (lock_step h c); [|done]. apply IH. Qed.

Definition held_of (locked : Z) : option Z := if locked =? CXL_SYNC_RANGE then None else Some locked.

Lemma bench_loop_spec with_locks workload n i locked :
  (∀ i, op_in_bounds (workload i)) → 0 ≤ locked ≤ CXL_SYNC_RANGE →
  let '(calls, locked') := bench_loop with_locks workload n i locked in
  0 ≤ locked' ≤ CXL_SYNC_RANGE ∧ Forall call_in_bounds calls ∧ lock_run (held_of locked) calls = Some (held_of locked').
Proof.
  intros Hw. revert i locked. induction n as [|n IH]; intros i locked Hl; cbn [bench_loop]; [done|].
  specialize (Hw i) as Hb. destruct (workload i) as [t off]. unfold op_in_bounds in Hb. cbn [op_type op_offset] in Hb.
  assert (∃ op locked1, (if with_locks then use_locks (mkOp t off) locked else (mkOp t off, locked)) = (op, locked1) ∧
    0 ≤ locked1 ≤ CXL_SYNC_RANGE ∧ Forall call_in_bounds (perform_op op) ∧
    lock_run (held_of locked) (perform_op op) = Some (held_of locked1)) as (op & locked1 & -> & H1 & H2 & H3).
  { eexists _, _. split; [apply surjective_pairing|]. unfold use_locks, held_of. cbn [op_type op_offset].
    assert ((CXL_SYNC_RANGE =? CXL_SYNC_RANGE) = true) as Hself by apply Z.eqb_refl.
    assert (off ≠ CXL_SYNC_RANGE → (off =? CXL_SYNC_RANGE) = false) as Hoff by apply Z.eqb_neq.
    destruct with_locks; [destruct (decide _) as [[? ?]|Hd]|]; destruct t; try done; try (destruct Hd; split; congruence);
      try destruct (Z.eqb_spec locked CXL_SYNC_RANGE) as [->|Hne]; cbn [fst snd perform_op op_type op_offset];
      rewrite ?Hself, ?Hoff by lia; (split; [lia|split; [apply Forall_singleton; cbn; lia|]]);
      cbn; rewrite ?Z.eqb_refl; try done; by rewrite (proj2 (Z.eqb_neq locked CXL_SYNC_RANGE)). }
  specialize (IH (i + 1) locked1 H1). destruct (bench_loop with_locks workload n (i + 1) locked1) as [calls locked'].
  destruct IH as (IH1 & IH2 & IH3). split; [done|]. split; [by apply Forall_app|]. rewrite lock_run_app, H3. done.
Qed.

Lemma land_mask_bounds x k : 0 ≤ k → 0 ≤ Z.land x (2 ^ k - 1) < 2 ^ k.
Proof. intros Hk. replace (2 ^ k - 1) with (Z.ones k) by (rewrite Z.ones_equiv; lia). rewrite Z.land_ones by done. by apply Z.mod_pos_bound, Z.pow_pos_nonneg. Qed.

Lemma seq_op_bounds i : op_in_bounds (seq_op i).
Proof.
  unfold seq_op, op_in_bounds. pose proof (land_mask_bounds i 4 ltac:(lia)). pose proof (land_mask_bounds i 30 ltac:(lia)).
  destruct (Z.land i _ =? 0), (_ =? 0); cbn [op_type op_offset]; done.
Qed.

(** ** The shuffle *)

Lemma shuffle_at_perm rand buffer i :
  (i < length buffer)%nat →
  length (shuffle_at rand buffer i) = length buffer ∧
  Permutation (take (S i) (shuffle_at rand buffer i)) (take i buffer ++ [seq_op (Z.of_nat i * rand_step)]).
Proof.
  intros Hi. unfold shuffle_at. set (op := seq_op _).
  set (j := Z.to_nat (rand i `mod` (Z.of_nat i + 1))).
  assert (j ≤ i)%nat as Hj by (unfold j; pose proof (Z.mod_pos_bound (rand i) (Z.of_nat i + 1)); lia). clearbody j op.
  split; [by rewrite !length_insert|].
  assert (∀ l : list UserOp, (i < length l)%nat → take (S i) l = take i l ++ [nth i l op_zero]) as Htake.
  { intros l Hl. destruct (lookup_lt_is_Some_2 l i Hl) as [x Hx]. rewrite nth_lookup, Hx. cbn [default]. by apply take_S_r. }
  destruct (lookup_lt_is_Some_2 buffer j ltac:(lia)) as [y Hy].
  assert (nth j buffer op_zero = y) as -> by (by rewrite nth_lookup, Hy).
  rewrite Htake by (by rewrite !length_insert). rewrite nth_lookup. destruct (decide (j = i)) as [->|Hne].
  - rewrite list_insert_insert_eq, list_lookup_insert_eq, take_insert_ge by (done || lia). done.
  - rewrite list_lookup_insert_ne, list_lookup_insert_eq by done. cbn [default].
    rewrite take_insert_lt, take_insert_ge by lia.
    assert (take i buffer !! j = Some y) as Hty by (rewrite lookup_take_lt; [done|lia]).
    rewrite <- (take_drop_middle _ j y Hty) at 2. rewrite insert_take_drop by (rewrite length_take; lia).
    rewrite <- !app_assoc. apply Permutation_app_head. cbn. rewrite <- !Permutation_middle, !app_nil_r. apply perm_swap.
Qed.

Lemma rand_fill_perm rand size n :
  (n ≤ size)%nat →
  length (rand_fill rand size n) = size ∧
  Permutation (take n (rand_fill rand size n)) (map (λ i, seq_op (Z.of_nat i * rand_step)) (seq 0 n)).
Proof.
  induction n as [|n IH]; intros Hn; [unfold rand_fill; cbn [seq foldl map]; by rewrite length_replicate, take_0|].
  destruct IH as [Hlen IH]; [lia|].
  unfold rand_fill in *. rewrite seq_S, foldl_app, map_app. cbn [foldl map Nat.add]. set (b := foldl _ _ _) in *.
  destruct (shuffle_at_perm rand b n) as [Hl Hp]; [lia|]. split; [by rewrite Hl|]. rewrite Hp, IH. done.
Qed.

Lemma seq_op_aligned i : op_type (seq_op (i * rand_step)) = OP_LOAD_ACQ ∨ op_type (seq_op (i * rand_step)) = OP_STORE_RLS.
Proof.
  unfold seq_op. assert (Z.land (i * rand_step) (PLAIN_ACQ_RLS_RATIO - 1) = 0) as ->.
  { change (PLAIN_ACQ_RLS_RATIO - 1) with (Z.ones 8). rewrite Z.land_ones by lia.
    replace (i * rand_step) with (i * 128 * 2 ^ 8) by (change rand_step with 32768; lia). by apply Z.mod_mul. }
  cbn [Z.eqb op_type]. destruct (_ =? 0); auto.
Qed.

(** ** Properties *)

(** A thread of the benchmark uses the pool within its bounds and its mutexes
    in turn. For any workload whose operations stay inside the arrays, with or
    without [WORKLOAD_USE_LOCKS], every call's offset is inside its array, a thread
    locks a mutex only when it holds none, unlocks exactly the one it holds, and
    holds none when [run] returns. *)
Theorem bench_run_lock_discipline (with_locks : bool) (workload : Z → UserOp) (total : nat) :
  (∀ i, op_in_bounds (workload i)) →
  Forall call_in_bounds (bench_run with_locks workload total) ∧
  lock_run None (bench_run with_locks workload total) = Some None.
Proof.
  intros Hw. unfold bench_run.
  pose proof (bench_loop_spec with_locks workload total 0 CXL_SYNC_RANGE Hw ltac:(done)) as H.
  destruct (bench_loop _ _ _ _ _) as [calls locked]. destruct H as (Hl & Hb & Hr).
  unfold held_of in Hr. rewrite Z.eqb_refl in Hr. rewrite lock_run_app, Hr. cbn [mbind option_bind]. split.
  - apply Forall_app. split; [done|]. destruct (Z.eqb_spec locked CXL_SYNC_RANGE); repeat constructor; cbn; lia.
  - destruct (Z.eqb_spec locked CXL_SYNC_RANGE); [done|]. cbn. by rewrite Z.eqb_refl.
Qed.

(** The random workload has no plain operations. Its buffer is, for any values
    of [rand()], a permutation of the operations of the sequential workload at the
    multiples of the step; the step being a multiple of [PLAIN_ACQ_RLS_RATIO],
    every one of them is an acquire or a release. *)
Theorem rand_workload_all_acq_rel (rand : nat → Z) (size : nat) :
  Permutation (rand_fill rand size size) (map (λ i, seq_op (Z.of_nat i * rand_step)) (seq 0 size)) ∧
  ∀ op, op ∈ rand_fill rand size size → op_type op = OP_LOAD_ACQ ∨ op_type op = OP_STORE_RLS.
Proof.
  destruct (rand_fill_perm rand size size) as [Hlen Hp]; [lia|]. rewrite take_ge in Hp by lia. split; [done|].
  intros op Hop. rewrite Hp in Hop. apply list_elem_of_fmap in Hop as (i & -> & _). apply seq_op_aligned.
Qed.

Lemma bench_run_lock_discipline_witness :
  lock_run None (bench_run true seq_op 300) = Some None ∧ length (bench_run true seq_op 300) = 300%nat.
Proof. split; [apply (bench_run_lock_discipline true seq_op 300 seq_op_bounds)|vm_compute; reflexivity]. Defined.
