(* ===== verification/NumaUtils.v ===== *)
(** NumaUtils: [include/numaUtils.hpp], the search for a CPU of a NUMA node, and
    how [rac_init] and [run_cache_agent] of [src/runtime.cpp] use it to pin the cache
    agent.

    [numa_node_of_cpu] of libnuma is a parameter: the node of a CPU, or -1; so is
    the result of [pthread_setaffinity_np] for a set of CPUs. *)
From S2P Require Import Prelude.

(** ** Definitions *)

Section numa.
Variable numa_node_of_cpu : Z → Z.

(** The loop from [numa_id]: the return value and [cpu_id] (an [unsigned]). *)
Fixpoint find_loop (fuel : nat) (numa_id target_numa_id cpu_id : Z) : option (Z * Z) :=
  if numa_id =? target_numa_id then Some (0, cpu_id)
  else
    match fuel with
    | O => None
    | S fuel' =>
        let numa_id := numa_node_of_cpu cpu_id in
        if numa_id =? -1 then Some (-1, cpu_id)
        else find_loop fuel' numa_id target_numa_id (wrap32 (cpu_id + 1))
    end.
Definition find_cpu_on_numa (fuel : nat) (cpu_id target_numa_id : Z) : option (Z * Z) :=
  if target_numa_id =? -1 then Some (0, cpu_id) else find_loop fuel (-1) target_numa_id cpu_id.

(** The set after [CPU_ZERO] and [CPU_SET], which ignores a CPU beyond its size. *)
Definition CPU_SETSIZE : Z := 1024.
Definition cpu_set (core_id : Z) : gset Z := if (0 <=? core_id) && (core_id <? CPU_SETSIZE) then {[core_id]} else ∅.
(** The result, and the set that was asked for. *)
Definition pin_to_core (setaffinity : gset Z → Z) (core_id : Z) : Z * gset Z :=
  let cpuset := cpu_set core_id in
  let ret := setaffinity cpuset in
  (if negb (ret =? 0) then ret else 0, cpuset).

(** With [CACHE_AGENT_AFFINITY]: [rac_init] looks for a CPU from the number of the
    node on, and the cache agent is pinned to it; [None] is the failed assertion. *)
Definition agent_affinity (setaffinity : gset Z → Z) (fuel : nat) (node_id LOCAL_NUMA_NODE_ID : Z) : option (Z * gset Z) :=
  '(ret, cpu_id) ← find_cpu_on_numa fuel node_id LOCAL_NUMA_NODE_ID;
  if ret =? 0 then Some (pin_to_core setaffinity cpu_id) else None.

(** ** Lemmas *)

(** From CPU [c], the first CPU [c + k] on the target, all before it being known. *)
Lemma find_loop_found fuel numa_id target c k :
  target ≠ -1 → numa_id ≠ target → 0 ≤ c → c + k + 1 < 2 ^ 32 → 0 ≤ k < Z.of_nat fuel →
  numa_node_of_cpu (c + k) = target → (∀ j, 0 ≤ j < k → numa_node_of_cpu (c + j) ≠ target ∧ numa_node_of_cpu (c + j) ≠ -1) →
  find_loop fuel numa_id target c = Some (0, c + k + 1).
Proof.
  intros Ht. revert numa_id c k. induction fuel as [|fuel IH]; intros numa_id c k Hne Hc Hk Hf Hfound Hall; [lia|].
  cbn [find_loop]. rewrite (proj2 (Z.eqb_neq _ _) Hne). assert (wrap32 (c + 1) = c + 1) as -> by (apply wrap_small; split; lia).
  destruct (decide (k = 0)) as [->|Hk0].
  - rewrite Z.add_0_r in *. rewrite Hfound, (proj2 (Z.eqb_neq _ _) Ht). destruct fuel; cbn [find_loop]; by rewrite Z.eqb_refl.
  - destruct (Hall 0 ltac:(lia)) as [H1 H2]. rewrite Z.add_0_r in *. rewrite (proj2 (Z.eqb_neq _ _) H2).
    replace (c + k + 1) with (c + 1 + (k - 1) + 1) by lia.
    apply IH; [done|lia|lia|lia|by replace (c + 1 + (k - 1)) with (c + k) by lia|].
    intros j Hj. replace (c + 1 + j) with (c + (j + 1)) by lia. apply Hall. lia.
Qed.
End numa.

(** ** Properties *)

(** [find_cpu_on_numa] returns the CPU after the one it found. When the first
    CPU from [cpu_id] on the target node is [cpu_id + k], the call succeeds and
    leaves [cpu_id + k + 1], because the [for] loop increments it once more. *)
Theorem find_cpu_on_numa_off_by_one (numa_node_of_cpu : Z → Z) (fuel : nat) (cpu_id target k : Z) :
  0 ≤ target → 0 ≤ cpu_id → cpu_id + k + 1 < 2 ^ 32 → 0 ≤ k < Z.of_nat fuel →
  numa_node_of_cpu (cpu_id + k) = target →
  (∀ j, 0 ≤ j < k → numa_node_of_cpu (cpu_id + j) ≠ target ∧ numa_node_of_cpu (cpu_id + j) ≠ -1) →
  find_cpu_on_numa numa_node_of_cpu fuel cpu_id target = Some (0, cpu_id + k + 1).
Proof.
  intros Ht Hc Hk Hf Hfound Hall. unfold find_cpu_on_numa. rewrite (proj2 (Z.eqb_neq _ _)) by lia.
  apply find_loop_found; [lia|lia|done..].
Qed.

(** CPUs 0 to 3 are on node 0, the others on node 1: a search from 2 for node 0
    ends at 3, and one from 3 at 4, which is on node 1. *)
Lemma find_cpu_on_numa_off_by_one_witness :
  let node c := if c <? 4 then 0 else 1 in
  find_cpu_on_numa node 10 3 0 = Some (0, 4) ∧ node 4 ≠ 0.
Proof.
  intros node. split; [|discriminate].
  apply (find_cpu_on_numa_off_by_one node 10 3 0 0); [lia|lia|lia|lia|reflexivity|intros j Hj; lia].
Defined.

(** The cache agent is pinned to one CPU, the one after the first CPU of the local
    NUMA node: to another NUMA node whenever that CPU was the last of a block. *)
Theorem cache_agent_pinned_next (numa_node_of_cpu : Z → Z) (setaffinity : gset Z → Z) (fuel : nat) (node_id target k : Z) :
  0 ≤ target → 0 ≤ node_id → node_id + k + 1 < CPU_SETSIZE → 0 ≤ k < Z.of_nat fuel →
  numa_node_of_cpu (node_id + k) = target →
  (∀ j, 0 ≤ j < k → numa_node_of_cpu (node_id + j) ≠ target ∧ numa_node_of_cpu (node_id + j) ≠ -1) →
  snd <$> agent_affinity numa_node_of_cpu setaffinity fuel node_id target = Some {[node_id + k + 1]}.
Proof.
  unfold CPU_SETSIZE. intros Ht Hc Hk Hf Hfound Hall. unfold agent_affinity, find_cpu_on_numa. rewrite (proj2 (Z.eqb_neq _ _)) by lia.
  rewrite (find_loop_found numa_node_of_cpu fuel (-1) target node_id k) by (lia || done). cbn. unfold cpu_set, CPU_SETSIZE.
  by rewrite (proj2 (Z.leb_le _ _)), (proj2 (Z.ltb_lt _ _)) by lia.
Qed.

(** CPUs 0 to 3 on node 0, the others on node 1: the agent of node 3 is pinned to
    CPU 4, on the other NUMA node. *)
Lemma cache_agent_pinned_next_witness :
  let node c := if c <? 4 then 0 else 1 in
  snd <$> agent_affinity node (λ _, 0) 10 3 0 = Some {[4]} ∧ node 4 ≠ 0.
Proof.
  intros node. split; [|discriminate].
  apply (cache_agent_pinned_next node (λ _, 0) 10 3 0 0); [lia|lia|by vm_compute|lia|reflexivity|intros j Hj; lia].
Defined.
