(* ===== verification/Startup.v ===== *)
(** Startup: the processes of the nodes, from [rac_init] to [rac_shutdown]
    ([src/runtime.cpp], [include/globalMeta.hpp]) around a user program.

    A step is a system call, an access to the shared object or a call that touches
    only its own process. Whether a system call succeeds is a choice of the step;
    the name, the size and the zero-filled bytes of the shared-memory object are
    state. The user program of a node starts threads, calls [wait] of the root
    barrier, makes the allocator take extents and shuts down, in any order.
    The operations of the barrier are the [wait_pc] of BarrierSystem. *)
From S2P Require Import Prelude Config ExtentPool Runtime CxlMalloc AtomicOps BarrierSystem Microbench.
#[local] Open Scope word_scope.

(** ** Definitions: the shared object *)

(** An object that placement new makes in the region and its destructor ends. *)
Inductive lifetime := Unmade | Made | Destroyed.

(** The root barrier: the values of its atomics; how often it was opened is a ghost. *)
Record RootBarrier := mkRoot { rb_life : lifetime; rb_target : Z; rb_arrived : Z; rb_phase : Z; rb_opened : nat }.

Record GlobalMeta := mkGlobal {
  started : bool;
  curr_tid : Z;
  log_mgrs : list lifetime;
  user_root_ptr : option Z;
  root_barrier : RootBarrier;
  alloc_meta : AllocMeta;
}.

(** The object behind [SHM_PATH]: whether the name exists, its size and contents.
    Ghosts: the thread ids handed out, with the node; the extents of each pool. *)
Record shared := mkShared {
  linked : bool;
  object_size : Z;
  meta : GlobalMeta;
  tids : list (nat * Z);
  hc_extents : list block;
  nhc_extents : list block;
}.

Definition set_object (l : bool) (size : Z) (g : shared) : shared :=
  mkShared l size (meta g) (tids g) (hc_extents g) (nhc_extents g).
Definition set_meta (m : GlobalMeta) (g : shared) : shared :=
  mkShared (linked g) (object_size g) m (tids g) (hc_extents g) (nhc_extents g).
Definition with_started (m : GlobalMeta) : GlobalMeta :=
  mkGlobal true (curr_tid m) (log_mgrs m) (user_root_ptr m) (root_barrier m) (alloc_meta m).
Definition with_tid (t : Z) (m : GlobalMeta) : GlobalMeta :=
  mkGlobal (started m) t (log_mgrs m) (user_root_ptr m) (root_barrier m) (alloc_meta m).
Definition with_log (me : nat) (l : lifetime) (m : GlobalMeta) : GlobalMeta :=
  mkGlobal (started m) (curr_tid m) (<[me := l]> (log_mgrs m)) (user_root_ptr m) (root_barrier m) (alloc_meta m).
Definition with_root (r : option Z) (m : GlobalMeta) : GlobalMeta :=
  mkGlobal (started m) (curr_tid m) (log_mgrs m) r (root_barrier m) (alloc_meta m).
Definition with_barrier (b : RootBarrier) (m : GlobalMeta) : GlobalMeta :=
  mkGlobal (started m) (curr_tid m) (log_mgrs m) (user_root_ptr m) b (alloc_meta m).
Definition with_pools (a : AllocMeta) (m : GlobalMeta) : GlobalMeta :=
  mkGlobal (started m) (curr_tid m) (log_mgrs m) (user_root_ptr m) (root_barrier m) a.

(** [meta->curr_tid.fetch_add(1)] of a thread of node [me]. *)
Definition take_tid (me : nat) (g : shared) : shared :=
  let t := curr_tid (meta g) in
  mkShared (linked g) (object_size g) (with_tid (wrap32 (t + 1)) (meta g)) (tids g ++ [(me, t)]) (hc_extents g) (nhc_extents g).

(** ** Definitions: a process *)

(** What a process does next. [Exited] is [exit(EXIT_FAILURE)] or a failed
    assertion, [Faulted] a use of memory that is not there or of an object after
    its destructor. *)
Inductive proc_pc :=
  | ShmOpen | Ftruncate | MapHc | MapNhc | MbindNhc | MbindHc      (* alloc_cxl_memory *)
  | RunOnNode | CheckOffset | UserRoot | WaitStarted | ProcessInit | ThreadInit
  | MakeLog | ResetTid | TakeTid | MakeBarrier | SetStarted | Instrument | StartAgent
  | Running | InWait (w : wait_pc)
  | SetComplete | JoinAgent | DeleteThread | DestroyLog | DestroyBarrier | Unlink | Done
  | Exited | Faulted.

#[global] Instance wait_pc_eq_dec : EqDecision wait_pc.
Proof. solve_decision. Defined.
#[global] Instance proc_pc_eq_dec : EqDecision proc_pc.
Proof. solve_decision. Defined.

(** A process; how often its main thread has arrived at the root barrier and how
    often it has left it are ghosts. *)
Record proc := mkProc { pr_pc : proc_pc; pr_arrived : nat; pr_left : nat }.

(** The build and the arguments of [rac_init], the same in all processes, with
    the allocator library as in CxlMalloc. *)
Class Setup := {
  CXL_NUMA_MODE : bool;
  USE_GLOBAL_MIMALLOC : bool;
  sizeof_GlobalMeta : Z;
  cxl_hc_range : Z;
  cxl_nhc_range : Z;
  root_size : Z;
  mi_meta_size : Z → Z;
  mi_manage : region → region → bool;
}.

Section startup.
Context `{cfg : Config} `{su : Setup}.
Implicit Types (me a : nat) (ok : bool) (g : shared) (p : proc) (pc : proc_pc).

Definition cxl_hc_off : Z := sizeof_GlobalMeta +w root_size.
Definition total_size : Z := cxl_hc_range +w cxl_nhc_range.

(** The call of [cxl_alloc_process_init] in [rac_init]: the metadata it leaves and
    whether it returns; [ok] is the result of the [je_mallctl] calls. *)
Definition alloc_process_init ok (is_first : bool) (m : AllocMeta) : AllocMeta * bool :=
  let hc_buf := CXL_HC_START +w cxl_hc_off in
  let hc_range := cxl_hc_range -w cxl_hc_off in
  if USE_GLOBAL_MIMALLOC
  then (m, match process_init_mimalloc mi_meta_size mi_manage hc_buf hc_range CXL_NHC_START cxl_nhc_range with
           | Some _ => true | None => false end)
  else (process_init_pools hc_buf hc_range CXL_NHC_START cxl_nhc_range is_first m, ok).

(** An access to [meta] that may be beyond the end of the object. *)
Definition touch_meta g (next : proc_pc * shared) : proc_pc * shared :=
  if object_size g <? sizeof_GlobalMeta then (Faulted, g) else next.
Definition if_ok ok pc g : proc_pc * shared := (if ok then pc else Exited, g).

(** The next action of [rac_init] or [rac_shutdown] of node [me]; [ok] is what its
    system call returns. *)
Definition call_step ok me pc g : proc_pc * shared :=
  match pc with
  | ShmOpen =>
      if (me =? 0)%nat then
        if ok && negb (linked g) then (Ftruncate, set_object true 0 g) else (Exited, g)
      else if ok then (if linked g then MapHc else ShmOpen, g) else (Exited, g)
  | Ftruncate => if ok then (MapHc, set_object (linked g) total_size g) else (Exited, g)
  | MapHc => match alloc_cxl_memory cxl_hc_range cxl_nhc_range with Some _ => if_ok ok MapNhc g | None => (Exited, g) end
  | MapNhc => if_ok ok (if CXL_NUMA_MODE then MbindNhc else RunOnNode) g
  | MbindNhc => if_ok ok MbindHc g
  | MbindHc => if_ok ok RunOnNode g
  | RunOnNode => if_ok ok CheckOffset g
  | CheckOffset => if_ok (cxl_hc_off <? cxl_hc_range) (if (me =? 0)%nat then UserRoot else WaitStarted) g
  | UserRoot => touch_meta g (ProcessInit, set_meta (with_root (Some (CXL_HC_START +w sizeof_GlobalMeta)) (meta g)) g)
  | WaitStarted => touch_meta g (if started (meta g) then ProcessInit else WaitStarted, g)
  | ProcessInit =>
      let '(a, returns) := alloc_process_init ok (me =? 0)%nat (alloc_meta (meta g)) in
      if_ok returns ThreadInit (set_meta (with_pools a (meta g)) g)
  | ThreadInit => (MakeLog, g)
  | MakeLog =>
      if (me <? NODE_COUNT)%nat
      then (if (me =? 0)%nat then ResetTid else TakeTid, set_meta (with_log me Made (meta g)) g)
      else (Faulted, g)
  | ResetTid => (TakeTid, set_meta (with_tid 0 (meta g)) g)
  | TakeTid => (if (me =? 0)%nat then MakeBarrier else Instrument, take_tid me g)
  | MakeBarrier => (SetStarted, set_meta (with_barrier (mkRoot Made (Z.of_nat NODE_COUNT) 0 0 0) (meta g)) g)
  | SetStarted => (Instrument, set_meta (with_started (meta g)) g)
  | Instrument => (if PROTOCOL_OFF then Running else StartAgent, g)
  | StartAgent => if_ok ok Running g
  | SetComplete => (JoinAgent, g)
  | JoinAgent => if_ok ok DeleteThread g
  | DeleteThread => (DestroyLog, g)
  | DestroyLog => (if (me =? 0)%nat then DestroyBarrier else Done, set_meta (with_log me Destroyed (meta g)) g)
  | DestroyBarrier =>
      let b := root_barrier (meta g) in
      (Unlink, set_meta (with_barrier (mkRoot Destroyed (rb_target b) (rb_arrived b) (rb_phase b) (rb_opened b)) (meta g)) g)
  | Unlink => (Done, set_object false (object_size g) g)
  | Running | InWait _ | Done | Exited | Faulted => (pc, g)
  end.

(** One access of [rac_get_root_barrier()->wait()], or its return. *)
Definition wait_step (w : wait_pc) p g : proc * shared :=
  match w with
  | WaitDone => (mkProc Running (pr_arrived p) (S (pr_left p)), g)
  | _ =>
      let b := root_barrier (meta g) in
      match rb_life b with
      | Made =>
          let '(v, (r, ph, k)) := shape_access w (mkBarShape (rb_target b) (rb_arrived b) (rb_phase b) [] (rb_opened b)) in
          (mkProc (InWait (wait_next w v)) (is_arrive w + pr_arrived p) (pr_left p),
           set_meta (with_barrier (mkRoot Made (rb_target b) r ph k) (meta g)) g)
      | _ => (mkProc Faulted (pr_arrived p) (pr_left p), g)
      end
  end.

(** The allocator of a process takes an extent from one of the two pools. *)
Definition take_extent (hc : bool) (size alignment : Z) g : shared :=
  let m := alloc_meta (meta g) in
  let '(r, m') := (if hc then cxlhc_extent_alloc else cxlnhc_extent_alloc) (Some m) size alignment None None in
  let bs := match hk_addr r with Some addr => [mkBlock addr size alignment] | None => [] end in
  mkShared (linked g) (object_size g) (with_pools (default m m') (meta g)) (tids g)
    (if hc then bs ++ hc_extents g else hc_extents g) (if hc then nhc_extents g else bs ++ nhc_extents g).

(** The allocator of the process is set up. *)
Definition may_alloc pc : bool :=
  match pc with
  | MakeLog | ResetTid | TakeTid | MakeBarrier | SetStarted | Instrument | StartAgent | Running | InWait _
  | SetComplete | JoinAgent | DeleteThread | DestroyLog | DestroyBarrier => true
  | _ => false
  end.

Inductive choice := ChNext (ok : bool) | ChThread | ChWait | ChShutdown | ChExtent (hc : bool) (size alignment : Z).

Definition proc_do me (c : choice) p g : option (proc * shared) :=
  match c, pr_pc p with
  | ChNext _, Running => None
  | ChNext _, InWait w => Some (wait_step w p g)
  | ChNext ok, pc => let '(pc', g') := call_step ok me pc g in Some (mkProc pc' (pr_arrived p) (pr_left p), g')
  | ChThread, Running => Some (p, take_tid me g)      (* rac_thread_func_wrapper of a new thread *)
  | ChWait, Running => Some (mkProc (InWait WaitPhase) (pr_arrived p) (pr_left p), g)
  | ChShutdown, Running => Some (mkProc (if PROTOCOL_OFF then DeleteThread else SetComplete) (pr_arrived p) (pr_left p), g)
  | ChExtent hc size alignment, pc =>
      if negb USE_GLOBAL_MIMALLOC && may_alloc pc then Some (p, take_extent hc size alignment g) else None
  | _, _ => None
  end.

(** ** Definitions: the system *)

Record system := mkSys { sys_shared : shared; sys_procs : list proc }.

Definition procs_do (x : nat * choice) (s : system) : option system :=
  p ← sys_procs s !! x.1;
  '(p', g') ← proc_do x.1 x.2 p (sys_shared s);
  Some (mkSys g' (<[x.1 := p']> (sys_procs s))).
Definition choice_ok (c : choice) : Prop :=
  match c with ChExtent _ size alignment => request_ok size alignment | _ => True end.
Definition procs_step (s s' : system) : Prop := ∃ x, choice_ok x.2 ∧ procs_do x s = Some s'.
Definition procs_run (xs : list (nat * choice)) (s : system) : option system := foldl (λ os x, s ← os; procs_do x s) (Some s) xs.

(** No process has started and the name does not exist; a new object is zero-filled. *)
Definition zero_meta : GlobalMeta :=
  mkGlobal false 0 (replicate NODE_COUNT Unmade) None (mkRoot Unmade 0 0 0 0) (mkMeta (mkPool 0 0, 0) (mkPool 0 0, 0)).
Definition procs_init : system :=
  mkSys (mkShared false 0 zero_meta [] [] []) (replicate NODE_COUNT (mkProc ShmOpen 0 0)).
Definition procs_reachable (s : system) : Prop := rtc procs_step procs_init s.

(** [rac_init] of the process has returned. *)
Definition in_program pc : bool := match pc with Running | InWait _ => true | _ => false end.
(** [rac_shutdown] of the process has begun. *)
Definition shutting_down pc : bool :=
  match pc with SetComplete | JoinAgent | DeleteThread | DestroyLog | DestroyBarrier | Unlink | Done => true | _ => false end.
Definition zero_only pc : bool :=
  match pc with Ftruncate | UserRoot | ResetTid | MakeBarrier | SetStarted | DestroyBarrier | Unlink => true | _ => false end.
Definition dead pc : bool := match pc with Exited | Faulted => true | _ => false end.

(** ** The invariant *)

(** The actions of [rac_init] left, at most. *)
Definition init_left pc : nat :=
  match pc with
  | ShmOpen => 18 | Ftruncate => 17 | MapHc => 16 | MapNhc => 15 | MbindNhc => 14 | MbindHc => 13 | RunOnNode => 12
  | CheckOffset => 11 | UserRoot | WaitStarted => 10 | ProcessInit => 9 | ThreadInit => 8 | MakeLog => 7 | ResetTid => 6
  | TakeTid => 5 | MakeBarrier => 4 | SetStarted => 3 | Instrument => 2 | StartAgent => 1
  | _ => 0
  end.

(** The pools that node 0 makes, and the extents taken from them so far. *)
Definition first_pools : AllocMeta :=
  process_init_pools (CXL_HC_START +w cxl_hc_off) (cxl_hc_range -w cxl_hc_off) CXL_NHC_START cxl_nhc_range true (alloc_meta zero_meta).
Definition pool_ok (first now : ExtentPool * Z) (bs : list block) : Prop :=
  now.1 = first.1 ∧ pool_reachable now.1 (mkState now.2 ∅ bs).
Definition pools_ok g : Prop :=
  USE_GLOBAL_MIMALLOC = false →
  pool_ok (cxlhc_pool first_pools) (cxlhc_pool (alloc_meta (meta g))) (hc_extents g) ∧
  pool_ok (cxlnhc_pool first_pools) (cxlnhc_pool (alloc_meta (meta g))) (nhc_extents g).

(** What node 0 has put into the shared memory when it sets [started]. *)
Record published g : Prop := {
  pu_size : object_size g = total_size;
  pu_root : user_root_ptr (meta g) = Some (CXL_HC_START +w sizeof_GlobalMeta);
  pu_pools : pools_ok g;
  pu_log : log_mgrs (meta g) !! 0%nat ≠ Some Unmade;
  pu_barrier : rb_life (root_barrier (meta g)) ≠ Unmade;
  pu_tid : head (tids g) = Some (0%nat, 0);
}.

(** The memory by what node 0 does next, up to [started]... *)
Record zero_init (k : nat) g : Prop := {
  zi_started : started (meta g) = false;
  zi_tids : (5 ≤ k)%nat → tids g = [];
  zi_extents : (9 ≤ k)%nat → hc_extents g = [] ∧ nhc_extents g = [];
  zi_unmade : (4 ≤ k)%nat → rb_life (root_barrier (meta g)) = Unmade;
  zi_unlinked : k = 18%nat → linked g = false;
  zi_linked : (k < 18)%nat → linked g = true;
  zi_size : (k < 17)%nat → object_size g = total_size;
  zi_root : (k < 10)%nat → user_root_ptr (meta g) = Some (CXL_HC_START +w sizeof_GlobalMeta);
  zi_pools : (k < 9)%nat → pools_ok g;
  zi_log : (k < 7)%nat → log_mgrs (meta g) !! 0%nat = Some Made;
  zi_tid : (k < 5)%nat → head (tids g) = Some (0%nat, 0);
  zi_barrier : (k < 4)%nat → rb_life (root_barrier (meta g)) = Made;
}.
(** ... and after it. *)
Record zero_up pc g : Prop := {
  zu_started : started (meta g) = true;
  zu_linked : pc ≠ Done → linked g = true;
  zu_log : shutting_down pc = false → log_mgrs (meta g) !! 0%nat = Some Made;
  zu_barrier : pc ≠ Unlink → pc ≠ Done → rb_life (root_barrier (meta g)) = Made;
}.
Definition zero_inv pc g : Prop :=
  if dead pc then True else if (3 <=? init_left pc)%nat then zero_init (init_left pc) g else zero_up pc g.

(** Every process: past [started], with its log manager and its thread id. *)
Record own_inv me p g : Prop := {
  ow_role : me ≠ 0%nat → zero_only (pr_pc p) = false;
  ow_attached : me ≠ 0%nat → dead (pr_pc p) = false → (init_left (pr_pc p) < 10)%nat → started (meta g) = true;
  ow_log : dead (pr_pc p) = false → shutting_down (pr_pc p) = false → (init_left (pr_pc p) < 7)%nat →
    log_mgrs (meta g) !! me = Some Made;
  ow_tid : dead (pr_pc p) = false → (init_left (pr_pc p) < 5)%nat → me ∈ (tids g).*1;
  ow_arrived : (0 < pr_arrived p)%nat → log_mgrs (meta g) !! me ≠ Some Unmade ∧ me ∈ (tids g).*1;
}.

(** The ids handed out are those of the counter. *)
Definition tids_ok g : Prop :=
  curr_tid (meta g) = wrap32 (Z.of_nat (length (tids g))) ∧
  (tids g).*2 = (λ i, wrap32 (Z.of_nat i)) <$> seq 0 (length (tids g)).

(** The root barrier as a barrier of the main threads. *)
Definition proc_shape p : shape :=
  mkShape (match pr_pc p with InWait w => Some w | _ => None end) (pr_left p) (pr_arrived p).
Definition root_shape (s : system) : bar_shape :=
  let b := root_barrier (meta (sys_shared s)) in
  mkBarShape (rb_target b) (rb_arrived b) (rb_phase b) (proc_shape <$> sys_procs s) (rb_opened b).
Definition leaving p : nat := match pr_pc p with InWait WaitDone => S (pr_left p) | _ => pr_left p end.

Record procs_inv (s : system) : Prop := {
  si_procs : length (sys_procs s) = NODE_COUNT;
  si_logs : length (log_mgrs (meta (sys_shared s))) = NODE_COUNT;
  si_zero p : sys_procs s !! 0%nat = Some p → zero_inv (pr_pc p) (sys_shared s);
  si_started : started (meta (sys_shared s)) = true → published (sys_shared s);
  si_own a p : sys_procs s !! a = Some p → own_inv a p (sys_shared s);
  si_tids : tids_ok (sys_shared s);
  si_shape : rb_life (root_barrier (meta (sys_shared s))) = Made → shape_inv (root_shape s);
  si_unmade a p : rb_life (root_barrier (meta (sys_shared s))) = Unmade → sys_procs s !! a = Some p → proc_shape p = mkShape None 0 0;
  si_leaving a b p q : sys_procs s !! a = Some p → sys_procs s !! b = Some q → (leaving p ≤ pr_arrived q)%nat;
}.
End startup.

(** ** Lemmas: memory *)

Section memory.
Context `{cfg : Config} `{su : Setup}.
Implicit Types (me a : nat) (ok : bool) (g : shared) (p : proc) (pc : proc_pc).

(** An extent taken by one process is a call of [allocate] with nobody in between. *)
Lemma pool_extent_step first now bs size alignment r now' :
  request_ok size alignment → pool_ok first now bs →
  pool_extent_alloc now size alignment None None = (r, now') →
  pool_ok first now' (match hk_addr r with Some addr => [mkBlock addr size alignment] | None => [] end ++ bs).
Proof.
  intros Hok [Hf Hr]. unfold pool_extent_alloc, allocate. destruct now as [pool off]. cbn [fst snd] in *.
  destruct (attempt pool size alignment off) as [[addr next]|] eqn:E; intros [= <- <-]; [|by split].
  split; [done|]. cbn. unfold pool_reachable in *. etrans; [exact Hr|].
  eapply rtc_l; [by apply (pool_call _ _ _ _ 0%nat size alignment)|].
  eapply rtc_l; [by eapply (pool_take _ _ _ _ 0%nat); [apply lookup_insert_eq|exact E|]|].
  by rewrite delete_insert_id.
Qed.

Lemma take_extent_frame hc size alignment g :
  ∃ (m : AllocMeta) bs cs, take_extent hc size alignment g =
    mkShared (linked g) (object_size g) (with_pools m (meta g)) (tids g) bs cs.
Proof. unfold take_extent. destruct ((if hc then _ else _) _ _ _ _ _) as [r m']. by eexists _, _, _. Qed.

Lemma take_extent_pools hc size alignment g :
  request_ok size alignment → pools_ok g → pools_ok (take_extent hc size alignment g).
Proof.
  intros Hr Hp Hmi. destruct (Hp Hmi) as [H1 H2]. unfold take_extent.
  destruct hc; cbn [cxlhc_extent_alloc cxlnhc_extent_alloc];
    destruct (pool_extent_alloc _ _ _ _ _) as [r now'] eqn:E;
    cbn; (split; [first [exact H1|by eapply pool_extent_step]|first [exact H2|by eapply pool_extent_step]]).
Qed.

Lemma tids_take me g : tids_ok g → tids_ok (take_tid me g).
Proof.
  intros [H1 H2]. unfold tids_ok, take_tid. cbn. rewrite fmap_app, length_app, H2, H1, seq_app, fmap_app. cbn. split; [|done].
  rewrite wrap_add_l. f_equal. lia.
Qed.

(** *** What a step changes for the others *)

Record frame me g g' : Prop := {
  fr_started : started (meta g) = true → started (meta g') = true;
  fr_log a : a ≠ me → log_mgrs (meta g') !! a = log_mgrs (meta g) !! a;
  fr_logs : length (log_mgrs (meta g')) = length (log_mgrs (meta g));
  fr_unmade a : log_mgrs (meta g) !! a ≠ Some Unmade → log_mgrs (meta g') !! a ≠ Some Unmade;
  fr_tids : tids g `prefix_of` tids g';
}.
(** Nodes other than 0 only add to what node 0 has published. *)
Record frame_other g g' : Prop := {
  fo_linked : linked g' = linked g;
  fo_size : object_size g' = object_size g;
  fo_started : started (meta g') = started (meta g);
  fo_root : user_root_ptr (meta g') = user_root_ptr (meta g);
  fo_life : rb_life (root_barrier (meta g')) = rb_life (root_barrier (meta g));
  fo_pools : pools_ok g → pools_ok g';
}.

Lemma keeps_frame me g : frame me g g.
Proof. by constructor. Qed.
Lemma frame_other_refl g : frame_other g g.
Proof. by constructor. Qed.
Hint Resolve keeps_frame frame_other_refl : core.

Lemma frame_tid me g : frame me g (take_tid me g).
Proof. constructor; try done. by eexists. Qed.
Lemma frame_log me l g : l ≠ Unmade → frame me g (set_meta (with_log me l (meta g)) g).
Proof.
  intros Hl. constructor; cbn; try done.
  - intros a Ha. by rewrite list_lookup_insert_ne.
  - apply length_insert.
  - intros a Hn [(? & ? & ?)|[? ?]]%list_lookup_insert_Some; congruence.
Qed.
Lemma frame_extent me hc size alignment g : frame me g (take_extent hc size alignment g).
Proof. destruct (take_extent_frame hc size alignment g) as (m & bs & cs & ->). by constructor. Qed.
(** The three ways of a step in [wait]. *)
Lemma wait_cases w p g p' g' : wait_step w p g = (p', g') →
  let b := root_barrier (meta g) in
  (w = WaitDone ∧ p' = mkProc Running (pr_arrived p) (S (pr_left p)) ∧ g' = g) ∨
  (w ≠ WaitDone ∧ rb_life b ≠ Made ∧ p' = mkProc Faulted (pr_arrived p) (pr_left p) ∧ g' = g) ∨
  (w ≠ WaitDone ∧ rb_life b = Made ∧ ∃ v r ph k,
     shape_access w (mkBarShape (rb_target b) (rb_arrived b) (rb_phase b) [] (rb_opened b)) = (v, (r, ph, k)) ∧
     p' = mkProc (InWait (wait_next w v)) (is_arrive w + pr_arrived p) (pr_left p) ∧
     g' = set_meta (with_barrier (mkRoot Made (rb_target b) r ph k) (meta g)) g).
Proof.
  cbn zeta. set (sh := mkBarShape _ _ _ _ _). destruct (decide (w = WaitDone)) as [->|Hw]; [intros [= <- <-]; by left|].
  intros H. right. assert (∃ v r ph k, shape_access w sh = (v, (r, ph, k))) as (v & r & ph & k & E).
  { destruct (shape_access w sh) as [v [[r ph] k]]. by eexists _, _, _, _. }
  unfold wait_step in H. fold sh in H. rewrite E in H. destruct (rb_life (root_barrier (meta g))).
  - left. destruct w; injection H as <- <-; done.
  - right. split; [done|]. split; [done|]. exists v, r, ph, k. destruct w; injection H as <- <-; done.
  - left. destruct w; injection H as <- <-; done.
Qed.
Lemma frame_wait me w p p' g g' : wait_step w p g = (p', g') → frame me g g' ∧ frame_other g g'.
Proof.
  intros [(-> & -> & ->)|[(_ & _ & -> & ->)|(_ & Hl & v & r & ph & k & _ & -> & ->)]]%wait_cases; by split; constructor.
Qed.

Lemma call_frame ok me pc pc' g g' : call_step ok me pc g = (pc', g') → frame me g g'.
Proof.
  destruct pc; cbn [call_step]; unfold touch_meta, if_ok; try (intros [= <- <-]; done); intros H;
    repeat case_match; simplify_eq; try done; first [by apply frame_tid|by apply frame_log].
Qed.

(** The cases of [proc_do]. *)
Inductive do_case me g : choice → proc → proc → shared → Prop :=
  | dc_call ok pc pc' i k g' : (∀ w, pc ≠ InWait w) → pc ≠ Running → call_step ok me pc g = (pc', g') →
      do_case me g (ChNext ok) (mkProc pc i k) (mkProc pc' i k) g'
  | dc_wait ok w i k p' g' : wait_step w (mkProc (InWait w) i k) g = (p', g') → do_case me g (ChNext ok) (mkProc (InWait w) i k) p' g'
  | dc_thread i k : do_case me g ChThread (mkProc Running i k) (mkProc Running i k) (take_tid me g)
  | dc_enter i k : do_case me g ChWait (mkProc Running i k) (mkProc (InWait WaitPhase) i k) g
  | dc_shutdown i k : do_case me g ChShutdown (mkProc Running i k) (mkProc (if PROTOCOL_OFF then DeleteThread else SetComplete) i k) g
  | dc_extent pc i k hc size alignment : may_alloc pc = true →
      do_case me g (ChExtent hc size alignment) (mkProc pc i k) (mkProc pc i k) (take_extent hc size alignment g).
Lemma do_cases me c p p' g g' : proc_do me c p g = Some (p', g') → do_case me g c p p' g'.
Proof.
  destruct p as [pc i k]. destruct c as [ok| | | |hc size alignment]; cbn [proc_do pr_pc].
  - destruct pc; try done; try (destruct (call_step _ _ _ _) as [pc' g1] eqn:E; intros [= <- <-]; by constructor).
    intros [= H]. by constructor.
  - destruct pc; try done. intros [= <- <-]. constructor.
  - destruct pc; try done. intros [= <- <-]. constructor.
  - destruct pc; try done. intros [= <- <-]. constructor.
  - destruct (negb USE_GLOBAL_MIMALLOC), (may_alloc pc) eqn:Em; intros [= <- <-]; by constructor.
Qed.

Lemma do_frame me c p p' g g' : proc_do me c p g = Some (p', g') → frame me g g'.
Proof.
  intros [ok pc pc' i k g1 _ _ E|ok w i k p1 g1 E|i k|i k|i k|pc i k hc size alignment _]%do_cases; try done.
  - by eapply call_frame.
  - by eapply frame_wait.
  - apply frame_tid.
  - apply frame_extent.
Qed.

(** Only the first process makes the pools. *)
Lemma later_process_init ok m : ∃ b, alloc_process_init ok false m = (m, b).
Proof.
  unfold alloc_process_init, process_init_pools. destruct USE_GLOBAL_MIMALLOC; [by eexists|]. case_match. by eexists.
Qed.
Lemma same_pools g : set_meta (with_pools (alloc_meta (meta g)) (meta g)) g = g.
Proof. by destruct g as [? ? [] ? ? ?]. Qed.

(** A node other than 0 leaves alone what node 0 publishes, changes nothing before
    it has seen [started], and gets past that only if it is set. *)
Lemma call_other ok me pc pc' g g' :
  me ≠ 0%nat → zero_only pc = false → call_step ok me pc g = (pc', g') →
  frame_other g g' ∧ zero_only pc' = false ∧ ((10 ≤ init_left pc)%nat → g' = g) ∧
  (dead pc' = false → (init_left pc' < 10)%nat → (init_left pc < 10)%nat ∨ started (meta g) = true).
Proof.
  intros Hme Hz H. assert ((me =? 0)%nat = false) as E0 by by apply Nat.eqb_neq.
  destruct (later_process_init ok (alloc_meta (meta g))) as [b Eb].
  destruct pc; try done; cbn [call_step] in H; unfold touch_meta, if_ok in H; rewrite ?E0, ?Eb, ?same_pools in H;
    repeat case_match; simplify_eq; cbn [init_left dead]; (split; [first [done|by constructor]|]); (split; [done|]); split; try lia;
    try done; by auto with lia.
Qed.

Lemma other_extent hc size alignment g : request_ok size alignment → frame_other g (take_extent hc size alignment g).
Proof.
  intros Hc. pose proof (take_extent_pools hc size alignment g Hc) as Hp.
  destruct (take_extent_frame hc size alignment g) as (m & bs & cs & E). rewrite E in *. by constructor.
Qed.

Lemma do_other me c p p' g g' :
  me ≠ 0%nat → choice_ok c → own_inv me p g → proc_do me c p g = Some (p', g') →
  frame_other g g' ∧ zero_only (pr_pc p') = false ∧ (started (meta g) = false → g' = g) ∧
  (dead (pr_pc p') = false → (init_left (pr_pc p') < 10)%nat → started (meta g) = true).
Proof.
  intros Hme Hc [Hrole Hatt _ _ _] H. specialize (Hrole Hme). specialize (Hatt Hme).
  apply do_cases in H. inversion H as [ok pc pc' i k g1 _ _ E|ok w i k p1 g1 E|i k|i k|i k|pc i k hc size alignment Em]; subst; clear H; cbn [pr_pc] in *.
  - destruct (dead pc) eqn:Hd; [destruct pc; try done; by injection E as <- <-|]. specialize (Hatt eq_refl).
    destruct (call_other _ _ _ _ _ _ Hme Hrole E) as (H1 & H2 & H3 & H4). split; [done|]. split; [done|]. split; [|naive_solver].
    intros Hs. apply H3. destruct (decide (init_left pc < 10)%nat); [|lia]. by rewrite Hatt in Hs.
  - pose proof E as [_ Hf]%(frame_wait me). rewrite Hatt by (cbn; lia || done).
    by apply wait_cases in E as [(_ & -> & _)|[(_ & _ & -> & _)|(_ & _ & v & r & ph & k' & _ & -> & _)]].
  - rewrite Hatt by (cbn; lia || done). split; [by constructor|done].
  - by rewrite Hatt by (cbn; lia || done).
  - rewrite Hatt by (cbn; lia || done). by destruct PROTOCOL_OFF.
  - rewrite Hatt by (destruct pc; cbn in *; try lia; done). by split; [apply other_extent|].
Qed.

(** *** A process *)

Lemma own_frame me a p g g' : a ≠ me → frame me g g' → own_inv a p g → own_inv a p g'.
Proof.
  intros Ha [F1 F2 F3 F4 F5] [H1 H2 H3 H4 H5].
  assert (∀ x, x ∈ (tids g).*1 → x ∈ (tids g').*1) as Hsub.
  { intros x. destruct F5 as [l ->]. rewrite fmap_app, elem_of_app. auto. }
  constructor; [done|auto|rewrite F2 by done; auto|auto|]. intros H. destruct (H5 H). split; [by apply F4|auto].
Qed.

Lemma mem_take me g : me ∈ (tids (take_tid me g)).*1.
Proof. cbn. rewrite fmap_app, elem_of_app. right. by apply list_elem_of_here. Qed.

(** [call_step] keeps the log manager of the process, and hands out its id. *)
Lemma call_own ok me pc pc' g g' :
  (me < length (log_mgrs (meta g)))%nat → call_step ok me pc g = (pc', g') → dead pc' = false → shutting_down pc' = false →
  (∀ i, (i = 7 ∨ i = 5)%nat → (init_left pc' < i)%nat → (init_left pc < i)%nat ∨ (i = 7%nat ∧ log_mgrs (meta g') !! me = Some Made) ∨ (i = 5%nat ∧ me ∈ (tids g').*1)) ∧
  ((init_left pc < 7)%nat → log_mgrs (meta g') !! me = log_mgrs (meta g) !! me ∧ shutting_down pc = false).
Proof.
  intros Hme H Hd Hsd.
  destruct pc; cbn [call_step] in H; unfold touch_meta, if_ok in H; repeat case_match; simplify_eq; cbn [init_left]; try done;
    (split; [intros i [-> | ->] ?; try (left; lia)|intros ?; first [done|lia]]); cbn [init_left] in *; try lia.
  all: try (right; right; split; [done|by apply mem_take]).
  all: right; left; split; [done|]; cbn; by apply list_lookup_insert_eq.
Qed.

Lemma do_own me c p p' g g' :
  (me < length (log_mgrs (meta g)))%nat → choice_ok c → own_inv me p g → proc_do me c p g = Some (p', g') → own_inv me p' g'.
Proof.
  intros Hlen Hc Hi H. pose proof (do_frame _ _ _ _ _ _ H) as [F1 F2 F3 F4 F5].
  assert (∀ x, x ∈ (tids g).*1 → x ∈ (tids g').*1) as Hsub.
  { intros x. destruct F5 as [l ->]. rewrite fmap_app, elem_of_app. auto. }
  assert ((0 < pr_arrived p)%nat → log_mgrs (meta g') !! me ≠ Some Unmade ∧ me ∈ (tids g').*1) as Harr.
  { intros H0. destruct (ow_arrived _ _ _ Hi H0). split; [by apply F4|auto]. }
  assert (me ≠ 0%nat → zero_only (pr_pc p') = false ∧ (dead (pr_pc p') = false → (init_left (pr_pc p') < 10)%nat → started (meta g') = true)) as Hother.
  { intros Hme. destruct (do_other _ _ _ _ _ _ Hme Hc Hi H) as (_ & ? & _ & ?). split; [done|auto]. }
  destruct Hi as [_ _ Hlog Htid _].
  apply do_cases in H. inversion H as [ok pc pc' i k g1 _ _ E|ok w i k p1 g1 E|i k|i k|i k|pc i k hc size alignment Em]; subst; clear H; cbn [pr_pc pr_arrived] in *.
  - constructor; cbn [pr_pc pr_arrived]; [naive_solver|naive_solver| | |done].
    + intros Hd Hsd H7. destruct (call_own _ _ _ _ _ _ Hlen E Hd Hsd) as [H1 H2].
      destruct (H1 7%nat) as [Hk|[[_ ?]|[? _]]]; [auto|done| |done|done]. destruct (H2 Hk) as [-> Hs]. apply Hlog; [|done|done].
      destruct pc; try done; cbn in E; injection E as <- _; done.
    + intros Hd H5. destruct (shutting_down pc') eqn:Hsd.
      * apply Hsub, Htid; destruct pc; try done; cbn [init_left] in *; try lia;
          cbn [call_step] in E; unfold touch_meta, if_ok in E; repeat case_match; by simplify_eq.
      * destruct (call_own _ _ _ _ _ _ Hlen E Hd Hsd) as [H1 H2].
        destruct (H1 5%nat) as [Hk|[[? _]|[_ ?]]]; [auto|done| |done|done]. apply Hsub, Htid; [|done].
        destruct pc; try done; cbn in E; injection E as <- _; done.
  - apply wait_cases in E as [(-> & -> & ->)|[(_ & _ & -> & ->)|(_ & _ & v & r & ph & k' & _ & -> & ->)]]; cbn [pr_pc pr_arrived] in *.
    + constructor; cbn; naive_solver.
    + constructor; cbn; naive_solver.
    + constructor; cbn [pr_pc pr_arrived]; [naive_solver|naive_solver|auto|auto|].
      intros _. cbn. split; [rewrite Hlog; [done..|cbn; lia]|apply Htid; [done|cbn; lia]].
  - constructor; cbn [pr_pc]; [naive_solver|naive_solver|auto|auto|done].
  - constructor; cbn [pr_pc pr_arrived]; [naive_solver|naive_solver|auto|auto|done].
  - constructor; cbn [pr_pc pr_arrived]; [naive_solver|naive_solver|by destruct PROTOCOL_OFF| |done].
    intros _ _. apply Htid; [done|cbn; lia].
  - destruct (take_extent_frame hc size alignment g) as (m & bs & cs & E). rewrite E in *.
    constructor; cbn [pr_pc pr_arrived] in *; [naive_solver|naive_solver|auto|auto|done].
Qed.

(** *** Node 0 *)

Lemma first_process_init ok m m' b :
  alloc_process_init ok true m = (m', b) → USE_GLOBAL_MIMALLOC = false → m' = first_pools.
Proof.
  unfold alloc_process_init, first_pools, process_init_pools. intros H Hmi. rewrite Hmi in H.
  destruct (if padding _ =? 0 then _ else _) as [hc_buf hc_range]. by injection H as <- _.
Qed.
Lemma first_pools_ok :
  pool_ok (cxlhc_pool first_pools) (cxlhc_pool first_pools) [] ∧ pool_ok (cxlnhc_pool first_pools) (cxlnhc_pool first_pools) [].
Proof.
  unfold first_pools, process_init_pools. destruct (if padding _ =? 0 then _ else _) as [hc_buf hc_range].
  cbn. split; (split; [done|apply rtc_refl]).
Qed.

(** An action of node 0 that moves on to [pc'] before [started] is set. *)
Lemma zero_next pc' g' : dead pc' = false → (3 ≤ init_left pc')%nat → zero_init (init_left pc') g' →
  zero_inv pc' g' ∧ (started (meta g') = true → published g').
Proof.
  intros Hd Hk Hz. unfold zero_inv. rewrite Hd. apply Nat.leb_le in Hk. rewrite Hk. split; [done|].
  destruct Hz as [Hs]. by rewrite Hs.
Qed.
Lemma zero_dead pc' g : dead pc' = true → started (meta g) = false → zero_inv pc' g ∧ (started (meta g) = true → published g).
Proof. intros Hd Hs. unfold zero_inv. by rewrite Hd, Hs. Qed.

Ltac zero_fields Hz := pose proof Hz as []; constructor; cbn in *; intros; first [lia|assumption|eauto 2 with lia].

Lemma call_zero_init ok pc pc' g g' :
  call_step ok 0 pc g = (pc', g') → (0 < length (log_mgrs (meta g)))%nat → (0 < NODE_COUNT)%nat → tids_ok g →
  dead pc = false → (3 ≤ init_left pc)%nat → zero_init (init_left pc) g → pc ≠ SetStarted →
  zero_inv pc' g' ∧ (started (meta g') = true → published g').
Proof.
  intros H Hlen Hn Ht Hd Hk Hz Hne. pose proof (zi_started _ _ Hz) as Hs.
  destruct pc; try done; try (cbn in Hk; lia); cbn [call_step Nat.eqb] in H; unfold touch_meta, if_ok in H; cbn [init_left] in Hz.
  all: try (destruct ok; cbn [andb] in H; simplify_eq; [|by apply zero_dead]).
  all: try rewrite Hs in H.
  all: lazymatch goal with _ : context [alloc_process_init] |- _ => idtac | _ => repeat case_match; simplify_eq; try (by apply zero_dead) end.
  all: try (apply zero_next; [done|cbn; lia|zero_fields Hz]).
  - destruct (alloc_process_init ok true (alloc_meta (meta g))) as [m b] eqn:E. injection H as <- <-. destruct b; [|by apply zero_dead].
    apply zero_next; [done|cbn; lia|]. pose proof (zi_extents _ _ Hz (le_n _)) as [H1 H2]. zero_fields Hz.
    intros Hmi. cbn. rewrite H1, H2, (first_process_init _ _ _ _ E Hmi). apply first_pools_ok.
  - by apply list_lookup_insert_eq.
  - destruct Ht as [Hc _]. rewrite Hc. by rewrite (zi_tids _ _ Hz (le_n _)).
Qed.

(** What stays published: anything but a store over it. *)
Lemma published_keep me g g' :
  frame me g g' → frame_other g g' → published g → published g'.
Proof.
  intros [_ _ _ F4 [l Hl]] [_ O2 _ O4 O5 O6] [P1 P2 P3 P4 P5 P6].
  constructor; [congruence|congruence|auto|auto|congruence|]. rewrite Hl. by destruct (tids g).
Qed.
Lemma published_set m g :
  published g → user_root_ptr m = user_root_ptr (meta g) → alloc_meta m = alloc_meta (meta g) →
  log_mgrs m !! 0%nat ≠ Some Unmade → rb_life (root_barrier m) ≠ Unmade → published (set_meta m g).
Proof.
  intros [P1 P2 P3 P4 P5 P6] Hr Ha Hl Hb. constructor; cbn; [done|by rewrite Hr| |done|done|done].
  intros Hmi. unfold pool_ok. cbn. rewrite Ha. by apply P3.
Qed.

Lemma call_zero_started ok g g' pc' :
  call_step ok 0 SetStarted g = (pc', g') → zero_init 3 g → zero_inv pc' g' ∧ (started (meta g') = true → published g').
Proof.
  cbn. intros [= <- <-] [Z1 Z2 Z3 Z4 Z5 Z6 Z7 Z8 Z9 Z10 Z11 Z12]. specialize (Z10 ltac:(lia)). specialize (Z12 ltac:(lia)).
  split; [by constructor; auto with lia|]. intros _. constructor; cbn; rewrite ?Z10, ?Z12; auto with lia.
Qed.

Lemma call_zero_up ok pc pc' g g' :
  call_step ok 0 pc g = (pc', g') → (0 < length (log_mgrs (meta g)))%nat → dead pc = false → (init_left pc < 3)%nat → zero_up pc g →
  published g → zero_inv pc' g' ∧ (started (meta g') = true → published g').
Proof.
  intros H Hlen Hd Hk [Z1 Z2 Z3 Z4] Hp.
  assert (∀ m, <[0%nat := Destroyed]> (log_mgrs m) !! 0%nat ≠ Some Unmade) as Hdes.
  { intros m [(_ & ? & _)|[? _]]%list_lookup_insert_Some; done. }
  pose proof (pu_log _ Hp) as Hlog. pose proof (pu_barrier _ Hp) as Hbar.
  destruct pc; try done; try (cbn in Hk; lia); cbn [call_step Nat.eqb] in H; unfold if_ok in H; repeat case_match; simplify_eq;
    (split; [try done; constructor; cbn; intros; first [done|by auto]|intros _; first [done|apply published_set; first [done|exact (Hdes (meta g))|by auto]|by destruct Hp; constructor]]).
Qed.

(** Steps that only add to what is published. *)
Lemma zero_init_keep k g g' :
  (k < 9)%nat → frame_other g g' → tids g' = tids g → log_mgrs (meta g') !! 0%nat = log_mgrs (meta g) !! 0%nat →
  zero_init k g → zero_init k g'.
Proof.
  intros Hk [O1 O2 O3 O4 O5 O6] Ht Hl []. constructor; rewrite ?O1, ?O2, ?O3, ?O4, ?O5, ?Ht, ?Hl; auto; lia.
Qed.
Lemma zero_up_keep pc pc' g g' :
  frame_other g g' → log_mgrs (meta g') !! 0%nat = log_mgrs (meta g) !! 0%nat →
  (shutting_down pc' = false → shutting_down pc = false) → shutting_down pc = false ∨ pc' = pc →
  zero_up pc g → zero_up pc' g'.
Proof.
  intros [O1 O2 O3 O4 O5 O6] Hl Hs Hpc [Z1 Z2 Z3 Z4]. constructor; rewrite ?O1, ?O3, ?O5, ?Hl; [done| |auto|].
  - intros Hne. apply Z2. intros ->. destruct Hpc as [?| ->]; done.
  - intros H1 H2. apply Z4; intros ->; destruct Hpc as [?| ->]; done.
Qed.
Lemma zero_inv_up pc pc' g g' :
  dead pc = false → (init_left pc < 3)%nat → shutting_down pc = false → (init_left pc' < 3)%nat →
  frame_other g g' → log_mgrs (meta g') !! 0%nat = log_mgrs (meta g) !! 0%nat → zero_inv pc g → zero_inv pc' g'.
Proof.
  intros Hd H3 Hs H3' Hf Hl Hz. unfold zero_inv in *. rewrite Hd in Hz. apply Nat.leb_gt in H3, H3'. rewrite H3 in Hz. rewrite H3'.
  destruct (dead pc'); [done|]. apply (zero_up_keep pc pc' g); [done|done|by rewrite Hs|by left|done].
Qed.

Lemma wait_log w p p' g g' : wait_step w p g = (p', g') → log_mgrs (meta g') = log_mgrs (meta g) ∧ init_left (pr_pc p') = 0%nat.
Proof. by intros [(-> & -> & ->)|[(_ & _ & -> & ->)|(_ & Hl & v & r & ph & k & _ & -> & ->)]]%wait_cases. Qed.

Lemma do_zero c p p' g g' :
  choice_ok c → (0 < length (log_mgrs (meta g)))%nat → (0 < NODE_COUNT)%nat → tids_ok g → zero_inv (pr_pc p) g →
  (started (meta g) = true → published g) → proc_do 0 c p g = Some (p', g') →
  zero_inv (pr_pc p') g' ∧ (started (meta g') = true → published g').
Proof.
  intros Hc Hlen Hn Ht Hz Hp H. pose proof (do_frame _ _ _ _ _ _ H) as Hfr.
  assert (frame_other g g' → started (meta g') = true → published g') as Hkeep.
  { intros Hf Hs. apply (published_keep 0 g); [done|done|]. apply Hp. by rewrite <- (fo_started _ _ Hf). }
  apply do_cases in H. inversion H as [ok pc pc' i k g1 _ _ E|ok w i k p1 g1 E|i k|i k|i k|pc i k hc size alignment Em]; subst; clear H; cbn [pr_pc] in *.
  - destruct (dead pc) eqn:Hd; [by destruct pc; try done; injection E as <- <-|].
    unfold zero_inv in Hz. rewrite Hd in Hz. destruct (Nat.leb_spec 3 (init_left pc)) as [H3|H3].
    + destruct (decide (pc = SetStarted)) as [->|]; [by eapply call_zero_started|by eapply call_zero_init].
    + eapply call_zero_up; [done|done|done|done|done|]. apply Hp. apply Hz.
  - pose proof (wait_log _ _ _ _ _ E) as [Hl Hk]. apply (frame_wait 0) in E as [_ Hf]. split; [|by apply Hkeep].
    apply (zero_inv_up (InWait w) _ g); [done|cbn; lia|done|lia|done|by rewrite Hl|done].
  - assert (frame_other g (take_tid 0 g)) as Hf by by constructor. split; [|by apply Hkeep].
    apply (zero_inv_up Running _ g); [done|cbn; lia|done|cbn; lia|done|done|done].
  - split; [|done]. apply (zero_inv_up Running _ g'); [done|cbn; lia|done|cbn; lia|done|done|done].
  - split; [|done]. apply (zero_inv_up Running _ g'); [done|cbn; lia|done|by destruct PROTOCOL_OFF; cbn; lia|done|done|done].
  - pose proof (other_extent hc size alignment g Hc) as Hf. split; [|by apply Hkeep].
    destruct (take_extent_frame hc size alignment g) as (m & bs & cs & E). rewrite E in *. unfold zero_inv in *.
    destruct (dead pc); [done|]. destruct (Nat.leb_spec 3 (init_left pc)).
    + apply (zero_init_keep _ g); [by destruct pc; cbn in *; try done; lia|done..].
    + apply (zero_up_keep pc pc g); [done|done|done|by right|done].
Qed.
End memory.


(** ** Lemmas: the root barrier *)

Section barrier.
Context `{cfg : Config} `{su : Setup}.
Implicit Types (me a : nat) (ok : bool) (g : shared) (p : proc) (pc : proc_pc) (w : wait_pc) (b : RootBarrier) (ts : list shape).

Definition shape_with b ts : bar_shape := mkBarShape (rb_target b) (rb_arrived b) (rb_phase b) ts (rb_opened b).

Lemma shape_access_threads w b ts : shape_access w (shape_with b ts) = shape_access w (shape_with b []).
Proof. by destruct w. Qed.

Lemma wait_shape me w p p' g g' ts :
  pr_pc p = InWait w → wait_step w p g = (p', g') → rb_life (root_barrier (meta g)) = Made → ts !! me = Some (proc_shape p) →
  shape_step (shape_with (root_barrier (meta g)) ts) (shape_with (root_barrier (meta g')) (<[me := proc_shape p']> ts)).
Proof.
  intros Hpc H Hl Ht. unfold proc_shape at 1 in Ht. rewrite Hpc in Ht.
  apply wait_cases in H as [(-> & -> & ->)|[(_ & ? & _)|(Hne & _ & v & r & ph & k & E & -> & ->)]]; [|done|].
  - by eapply ss_return.
  - apply ss_access; [done|done|]. pose proof (shape_access_threads w (root_barrier (meta g)) ts) as Hs. unfold shape_with in Hs. by rewrite E in Hs.
Qed.

(** The other actions: only two of node 0 concern the barrier. *)
Lemma call_barrier ok me pc pc' g g' :
  pc ≠ MakeBarrier → pc ≠ DestroyBarrier → (∀ w, pc ≠ InWait w) → call_step ok me pc g = (pc', g') →
  root_barrier (meta g') = root_barrier (meta g) ∧ (∀ w, pc' ≠ InWait w).
Proof.
  intros H1 H2 H3 H. destruct pc; try done; cbn [call_step] in H; unfold touch_meta, if_ok in H; repeat case_match; simplify_eq; try done.
Qed.
Lemma proc_shape_none pc i k : (∀ w, pc ≠ InWait w) → proc_shape (mkProc pc i k) = mkShape None k i.
Proof. unfold proc_shape. cbn. destruct pc; try done. intros H. by destruct (H w). Qed.

Lemma do_shape me c p p' g g' ts :
  proc_do me c p g = Some (p', g') → pr_pc p ≠ MakeBarrier → rb_life (root_barrier (meta g')) = Made →
  rb_life (root_barrier (meta g)) = Made → ts !! me = Some (proc_shape p) →
  rtc shape_step (shape_with (root_barrier (meta g)) ts) (shape_with (root_barrier (meta g')) (<[me := proc_shape p']> ts)).
Proof.
  intros H H1 H2 Hl Ht.
  assert (root_barrier (meta g') = root_barrier (meta g) → proc_shape p' = proc_shape p →
    rtc shape_step (shape_with (root_barrier (meta g)) ts) (shape_with (root_barrier (meta g')) (<[me := proc_shape p']> ts))) as Hsame.
  { intros -> ->. by rewrite list_insert_id. }
  apply do_cases in H. inversion H as [ok pc pc' i k g1 Hw _ E|ok w i k p1 g1 E|i k|i k|i k|pc i k hc size alignment Em]; subst; clear H; cbn [pr_pc] in *.
  - assert (pc ≠ DestroyBarrier) as H3 by (intros ->; injection E as <- <-; discriminate H2).
    destruct (call_barrier _ _ _ _ _ _ H1 H3 Hw E) as [Hb Hpc']. apply Hsame; [done|]. by rewrite !proc_shape_none.
  - eapply rtc_once, wait_shape; [|exact E|done|done]. done.
  - by apply Hsame.
  - apply rtc_once. by eapply ss_call.
  - apply Hsame; [done|]. by destruct PROTOCOL_OFF.
  - apply Hsame; [|done]. by destruct (take_extent_frame hc size alignment g) as (m & bs & cs & ->).
Qed.
End barrier.

(** ** Lemmas: the system *)

Section system.
Context `{cfg : Config} `{su : Setup}.
Context (nodes : 1 ≤ Z.of_nat NODE_COUNT ≤ 128).
Implicit Types (s : system) (me a b : nat) (g : shared) (p q : proc) (ts : list shape).

Lemma shape_leaving sh a b t u r w :
  shape_inv sh → sb_threads sh !! a = Some t → t = mkShape (Some WaitDone) r w → sb_threads sh !! b = Some u → (S r ≤ sh_waits u)%nat.
Proof.
  intros Hi Ha -> Hb. pose proof (bi_threads _ Hi a _ Ha) as [H1 _]. pose proof (bi_threads _ Hi b _ Hb) as H2.
  cbn [sh_round] in H1. unfold shape_ok in H2. destruct (sh_pc u) as [[]|]; naive_solver lia.
Qed.

(** The barrier as [MakeBarrier] leaves it. *)
Lemma made_shape ts :
  length ts = NODE_COUNT → (∀ a t, ts !! a = Some t → t = mkShape None 0 0) →
  shape_inv (shape_with (mkRoot Made (Z.of_nat NODE_COUNT) 0 0 0) ts).
Proof.
  intros Hn Ht. assert (∀ k, arrivals k ts = 0%nat) as Harr.
  { intros k. apply arrivals_none. by intros a t ->%Ht. }
  constructor; cbn [shape_with rb_target rb_arrived rb_phase rb_opened sb_target sb_arrived sb_phase sb_threads sb_opened];
    rewrite ?Harr, ?Hn; try done; try (intros a t H; apply Ht in H as ->; done).
  - lia.
  - intros a b t u Ha _ Ho. apply Ht in Ha as ->. done.
Qed.

Lemma procs_init_inv : procs_inv procs_init.
Proof.
  assert (∀ a p, replicate NODE_COUNT (mkProc ShmOpen 0 0) !! a = Some p → p = mkProc ShmOpen 0 0) as Hr.
  { intros a p H. by apply lookup_replicate in H as [-> _]. }
  constructor; cbn.
  - apply length_replicate.
  - apply length_replicate.
  - intros p ->%Hr. constructor; cbn; try done; lia.
  - done.
  - intros a p ->%Hr. constructor; cbn; try done; lia.
  - done.
  - done.
  - by intros a p _ ->%Hr.
  - intros a b p q ->%Hr ->%Hr. cbn. lia.
Qed.

(** How the counters of a process move. *)
Lemma do_counts me c p p' g g' : proc_do me c p g = Some (p', g') →
  (pr_arrived p ≤ pr_arrived p')%nat ∧
  (leaving p' = leaving p ∨ rb_life (root_barrier (meta g')) = Made ∧ ∃ r w, proc_shape p' = mkShape (Some WaitDone) r w ∧ leaving p' = S r).
Proof.
  intros H. apply do_cases in H.
  inversion H as [ok pc pc' i k g1 Hw Hr E|ok w i k p1 g1 E|i k|i k|i k|pc i k hc size alignment Em]; subst; clear H; cbn [pr_arrived].
  - split; [done|]. left. destruct pc, pc'; try done; cbn in E; unfold touch_meta, if_ok in E; repeat case_match; by simplify_eq.
  - apply wait_cases in E as [(-> & -> & ->)|[(? & _ & -> & ->)|(Hne & _ & v & r & ph & k' & _ & -> & ->)]]; cbn [pr_arrived pr_left].
    + split; [done|]. by left.
    + split; [done|]. left. by destruct w.
    + split; [lia|]. unfold leaving, proc_shape. cbn [pr_pc pr_left].
      destruct (decide (wait_next w v = WaitDone)) as [->|Hd]; [right; split; [done|]; by eexists _, _|].
      left. by destruct (wait_next w v), w.
  - split; [done|by left].
  - split; [done|by left].
  - split; [done|]. left. cbn. by destruct PROTOCOL_OFF.
  - split; [done|by left].
Qed.

Lemma do_life me c p p' g g' : proc_do me c p g = Some (p', g') →
  (rb_life (root_barrier (meta g')) = Unmade → rb_life (root_barrier (meta g)) = Unmade) ∧
  (rb_life (root_barrier (meta g')) = Made → rb_life (root_barrier (meta g)) = Made ∨
     pr_pc p = MakeBarrier ∧ root_barrier (meta g') = mkRoot Made (Z.of_nat NODE_COUNT) 0 0 0 ∧ p' = mkProc SetStarted (pr_arrived p) (pr_left p)).
Proof.
  intros H. apply do_cases in H.
  inversion H as [ok pc pc' i k g1 Hw Hr E|ok w i k p1 g1 E|i k|i k|i k|pc i k hc size alignment Em]; subst; clear H; cbn [pr_pc]; try by auto.
  - destruct pc; cbn [call_step] in E; unfold touch_meta, if_ok in E; repeat case_match; simplify_eq; cbn; split; auto; done.
  - apply (frame_wait me) in E as [_ Hf]. rewrite (fo_life _ _ Hf). auto.
  - destruct (take_extent_frame hc size alignment g) as (m & bs & cs & ->). auto.
Qed.

Lemma do_tids me c p p' g g' :
  proc_do me c p g = Some (p', g') → (pr_pc p = ResetTid → tids g = []) → tids_ok g → tids_ok g'.
Proof.
  intros H Hr [H1 H2]. apply do_cases in H.
  inversion H as [ok pc pc' i k g1 Hw Hne E|ok w i k p1 g1 E|i k|i k|i k|pc i k hc size alignment Em]; subst; clear H; cbn [pr_pc] in *; try done.
  - destruct pc; cbn [call_step] in E; unfold touch_meta, if_ok in E; repeat case_match; simplify_eq; try done.
    + unfold tids_ok. cbn. by rewrite Hr.
    + by apply tids_take.
    + by apply tids_take.
  - by apply wait_cases in E as [(_ & _ & ->)|[(_ & _ & _ & ->)|(_ & _ & v & r & ph & k' & _ & _ & ->)]].
  - by apply tids_take.
  - by destruct (take_extent_frame hc size alignment g) as (m & bs & cs & ->).
Qed.

Lemma tids_distinct g : tids_ok g → Z.of_nat (length (tids g)) ≤ 2 ^ 32 → NoDup (tids g).*2.
Proof.
  intros [_ ->] Hl. apply NoDup_fmap_2_strong; [|apply NoDup_seq].
  intros i j Hi%elem_of_seq Hj%elem_of_seq. rewrite !wrap_small by (split; lia). lia.
Qed.

(** The pools lie in the two buffers. *)
Lemma first_pools_in : 0 ≤ cxl_hc_off → cxl_hc_off + CACHE_LINE_SIZE ≤ cxl_hc_range < 2 ^ 47 →
  CXL_HC_START + cxl_hc_off ≤ base_ (cxlhc_pool first_pools).1 ∧
  (0 ≤ size_ (cxlhc_pool first_pools).1 ∧
   base_ (cxlhc_pool first_pools).1 + size_ (cxlhc_pool first_pools).1 = CXL_HC_START + cxl_hc_range) ∧
  (cxlnhc_pool first_pools).1 = mkPool CXL_NHC_START cxl_nhc_range.
Proof.
  change (2 ^ 47) with 140737488355328. unfold first_pools, process_init_pools. change CXL_HC_START with 140737488355328.
  unfold CACHE_LINE_SIZE. intros H0 Hr.
  assert (2 ^ 64 = 18446744073709551616) as H64 by done. rewrite (add64_small 140737488355328), (sub64_small cxl_hc_range) by lia.
  destruct (padding_spec (140737488355328 + cxl_hc_off)) as [Hp _]. set (q := padding _) in *. clearbody q.
  destruct (Z.eqb_spec q 0) as [_|_]; cbn; [split; [lia|split; [lia|done]]|].
  rewrite add64_small, sub64_small by lia. split; [lia|]. split; [lia|done].
Qed.

(** A process in its program or with a barrier operation has seen [started]. *)
Lemma running_started s a p :
  procs_inv s → sys_procs s !! a = Some p → dead (pr_pc p) = false → (init_left (pr_pc p) < 3)%nat → published (sys_shared s).
Proof.
  intros Hi Ha Hd Hk. apply (si_started _ Hi). destruct a as [|a].
  - pose proof (si_zero _ Hi p Ha) as Hz. unfold zero_inv in Hz. rewrite Hd in Hz. apply Nat.leb_gt in Hk. rewrite Hk in Hz. apply Hz.
  - apply (ow_attached _ _ _ (si_own _ Hi _ p Ha)); [lia|done|lia].
Qed.

Lemma zero_inv_other pc g g' :
  frame_other g g' → log_mgrs (meta g') !! 0%nat = log_mgrs (meta g) !! 0%nat → (started (meta g) = false → g' = g) →
  zero_inv pc g → zero_inv pc g'.
Proof.
  intros Hf Hl Hs Hz. unfold zero_inv in *. destruct (dead pc); [done|]. destruct (Nat.leb_spec 3 (init_left pc)).
  - by rewrite Hs by apply Hz.
  - apply (zero_up_keep pc pc g); [done|done|done|by right|done].
Qed.

(** Only node 0 has the actions of node 0, and at [MakeBarrier] nobody waits. *)
Lemma make_barrier_zero s a p :
  procs_inv s → sys_procs s !! a = Some p → (pr_pc p = MakeBarrier → rb_life (root_barrier (meta (sys_shared s))) = Unmade) ∧
  (pr_pc p = ResetTid → tids (sys_shared s) = []).
Proof.
  intros Hi Ha. destruct (decide (a = 0%nat)) as [->|Hne].
  - pose proof (si_zero _ Hi p Ha) as Hz. split; intros Hpc; rewrite Hpc in Hz; [by apply (zi_unmade _ _ Hz)|apply (zi_tids _ _ Hz); cbn; lia].
  - pose proof (ow_role _ _ _ (si_own _ Hi _ _ Ha) Hne) as Hr. by split; intros Hpc; rewrite Hpc in Hr.
Qed.

(** The shapes after a step that may make the barrier. *)
Lemma step_shape s a c p p' g' :
  procs_inv s → sys_procs s !! a = Some p → proc_do a c p (sys_shared s) = Some (p', g') →
  rb_life (root_barrier (meta g')) = Made → shape_inv (root_shape (mkSys g' (<[a := p']> (sys_procs s)))).
Proof.
  intros Hi Ha H Hl. unfold root_shape. cbn [sys_shared sys_procs]. rewrite list_fmap_insert.
  destruct (do_life _ _ _ _ _ _ H) as [_ Hm]. destruct (make_barrier_zero _ _ _ Hi Ha) as [Hzero _].
  destruct (Hm Hl) as [Hold|(Hpc & Hb & ->)].
  - eapply shape_steps_inv; [|by apply (si_shape _ Hi)]. eapply do_shape; [exact H| |done|done|].
    + intros Hpc. by rewrite Hzero in Hold.
    + cbn. by rewrite list_lookup_fmap, Ha.
  - rewrite Hb. pose proof (si_unmade _ Hi) as Hun. specialize (Hzero Hpc). apply made_shape.
    + rewrite length_insert, length_fmap. apply (si_procs _ Hi).
    + pose proof (Hun _ _ Hzero Ha) as Hp. unfold proc_shape in Hp. rewrite Hpc in Hp. injection Hp as Hp1 Hp2.
      intros b t [(_ & <- & _)|[_ Hb']]%list_lookup_insert_Some; [unfold proc_shape; cbn; congruence|].
      rewrite list_lookup_fmap in Hb'. destruct (sys_procs s !! b) as [q|] eqn:Eq; [|done]. injection Hb' as <-. by apply (Hun b).
Qed.

Lemma step_unmade s a c p p' g' :
  procs_inv s → sys_procs s !! a = Some p → proc_do a c p (sys_shared s) = Some (p', g') →
  rb_life (root_barrier (meta g')) = Unmade → proc_shape p' = mkShape None 0 0.
Proof.
  intros Hi Ha H Hl. destruct (do_life _ _ _ _ _ _ H) as [Hu _]. specialize (Hu Hl). pose proof (si_unmade _ Hi _ _ Hu Ha) as Hp.
  pose proof (running_started _ _ _ Hi Ha) as Hrun.
  assert (published (sys_shared s) → False) as Hno by (intros [_ _ _ _ Hb _]; by rewrite Hu in Hb).
  apply do_cases in H.
  inversion H as [ok pc pc' i k g1 Hw Hne E|ok w i k p1 g1 E|i k|i k|i k|pc i k hc size alignment Em]; subst; clear H; cbn [pr_pc] in *; try done.
  - rewrite proc_shape_none in Hp by done. injection Hp as -> ->. destruct pc'; try done.
    destruct pc; try (by destruct (Hw _ eq_refl)); cbn [call_step] in E; unfold touch_meta, if_ok in E; repeat case_match; by simplify_eq.
  - destruct Hno. apply Hrun; cbn; [done|lia].
  - by destruct PROTOCOL_OFF.
Qed.

Lemma step_leaving s a c p p' g' :
  procs_inv s → sys_procs s !! a = Some p → proc_do a c p (sys_shared s) = Some (p', g') →
  ∀ b d q r, <[a := p']> (sys_procs s) !! b = Some q → <[a := p']> (sys_procs s) !! d = Some r → (leaving q ≤ pr_arrived r)%nat.
Proof.
  intros Hi Ha H. destruct (do_counts _ _ _ _ _ _ H) as [Harr Hleave]. pose proof (si_leaving _ Hi) as Hold.
  pose proof (lookup_lt_Some _ _ _ Ha) as Hlt.
  assert (∀ d r, <[a := p']> (sys_procs s) !! d = Some r → ∃ r', sys_procs s !! d = Some r' ∧ (pr_arrived r' ≤ pr_arrived r)%nat) as Hback.
  { intros d r [(-> & <- & _)|[_ Hd]]%list_lookup_insert_Some; [by exists p|by exists r]. }
  intros b d q r Hb Hd. destruct (Hback d r Hd) as (r' & Hr' & Hle).
  apply list_lookup_insert_Some in Hb as [(<- & <- & _)|[_ Hb]]; [|specialize (Hold b d q r' Hb Hr'); lia].
  destruct Hleave as [Heq|(Hm & i & w & Hsh & Heq)]; [specialize (Hold a d p r' Ha Hr'); lia|].
  rewrite Heq. pose proof (step_shape _ _ _ _ _ _ Hi Ha H Hm) as Hs.
  apply (shape_leaving _ a d (proc_shape p') (proc_shape r) i w Hs); [|done|].
  - cbn. by rewrite list_lookup_fmap, list_lookup_insert_eq.
  - cbn. by rewrite list_lookup_fmap, Hd.
Qed.

Lemma procs_step_inv s s' : procs_step s s' → procs_inv s → procs_inv s'.
Proof.
  intros ([a c] & Hc & H) Hi. unfold procs_do in H. cbn [fst snd] in *. destruct (sys_procs s !! a) as [p|] eqn:Ha; [|done]. cbn in H.
  destruct (proc_do a c p (sys_shared s)) as [[p' g']|] eqn:Hd; [|done]. injection H as <-.
  pose proof (do_frame _ _ _ _ _ _ Hd) as Hfr. pose proof (lookup_lt_Some _ _ _ Ha) as Hlt. rewrite (si_procs _ Hi) in Hlt.
  pose proof (si_own _ Hi _ _ Ha) as Hown. pose proof (si_logs _ Hi) as Hlogs.
  assert (zero_inv (pr_pc p) (sys_shared s) → a = 0%nat → zero_inv (pr_pc p') g' ∧ (started (meta g') = true → published g')) as Hzero.
  { intros Hz ->. apply (do_zero _ _ _ _ _ Hc) in Hd; [done|lia|lia|apply (si_tids _ Hi)|done|apply (si_started _ Hi)]. }
  constructor; cbn [sys_shared sys_procs].
  - rewrite length_insert. apply (si_procs _ Hi).
  - by rewrite (fr_logs _ _ _ Hfr).
  - intros q [(-> & <- & _)|[Hne Hq]]%list_lookup_insert_Some; [by apply Hzero; [apply (si_zero _ Hi)|]|].
    destruct (do_other _ _ _ _ _ _ Hne Hc Hown Hd) as (Hf & _ & Hs & _).
    apply (zero_inv_other _ (sys_shared s)); [done|by apply (fr_log _ _ _ Hfr)|done|by apply (si_zero _ Hi)].
  - intros Hs. destruct (decide (a = 0%nat)) as [->|Hne]; [by apply Hzero; [apply (si_zero _ Hi)| |]|].
    destruct (do_other _ _ _ _ _ _ Hne Hc Hown Hd) as (Hf & _ & _ & _).
    apply (published_keep a (sys_shared s)); [done|done|]. apply (si_started _ Hi). by rewrite <- (fo_started _ _ Hf).
  - intros b q [(<- & <- & _)|[Hne Hq]]%list_lookup_insert_Some.
    + apply (do_own _ _ _ _ _ _ ltac:(by rewrite Hlogs) Hc Hown Hd).
    + apply (own_frame a _ _ (sys_shared s)); [done|done|by apply (si_own _ Hi)].
  - eapply do_tids; [exact Hd|by apply (make_barrier_zero _ _ _ Hi Ha)|apply (si_tids _ Hi)].
  - by apply (step_shape _ _ _ _ _ _ Hi Ha Hd).
  - intros b q Hu [(_ & <- & _)|[_ Hq]]%list_lookup_insert_Some; [by eapply step_unmade|].
    apply (si_unmade _ Hi b); [by apply (do_life _ _ _ _ _ _ Hd)|done].
  - intros b d q r. by eapply step_leaving.
Qed.

Lemma procs_reachable_inv s : procs_reachable s → procs_inv s.
Proof.
  unfold procs_reachable. pose proof procs_init_inv as H0. induction 1 as [|s s1 s2 Hs _ IH]; [done|]. by apply IH, (procs_step_inv s).
Qed.
End system.


(** ** Lemmas: progress *)

(** Arguments for which the assertions of [rac_init] hold and the allocator
    accepts the memory. *)
Definition setup_ok `{su : Setup} : Prop :=
  is_Some (alloc_cxl_memory cxl_hc_range cxl_nhc_range) ∧ cxl_hc_off < cxl_hc_range ∧ sizeof_GlobalMeta ≤ total_size ∧
  (USE_GLOBAL_MIMALLOC = true → is_Some (process_init_mimalloc mi_meta_size mi_manage (CXL_HC_START +w cxl_hc_off)
     (cxl_hc_range -w cxl_hc_off) CXL_NHC_START cxl_nhc_range)).

Definition init_work (s : system) : nat := sum_list_with (λ p, init_left (pr_pc p)) (sys_procs s).

Section progress.
Context `{cfg : Config} `{su : Setup}.
Implicit Types (s : system) (me a b : nat) (g : shared) (p q : proc) (ts : list shape).

Lemma do_init_left me c p p' g g' : proc_do me c p g = Some (p', g') → (init_left (pr_pc p') ≤ init_left (pr_pc p))%nat.
Proof.
  intros H. apply do_cases in H.
  inversion H as [ok pc pc' i k g1 Hw Hr E|ok w i k p1 g1 E|i k|i k|i k|pc i k hc size alignment Em]; subst; clear H; cbn [pr_pc]; try done.
  - destruct pc; cbn [call_step] in E; unfold touch_meta, if_ok in E; repeat case_match; simplify_eq; cbn; lia.
  - apply wait_log in E as [_ ->]. lia.
  - by destruct PROTOCOL_OFF.
Qed.
Lemma init_work_step s s' : procs_step s s' → (init_work s' ≤ init_work s)%nat.
Proof.
  intros ([a c] & _ & H). unfold procs_do in H. cbn [fst snd] in H. destruct (sys_procs s !! a) as [p|] eqn:Ha; [|done]. cbn in H.
  destruct (proc_do a c p (sys_shared s)) as [[p' g']|] eqn:Hd; [|done]. injection H as <-. apply do_init_left in Hd.
  unfold init_work. cbn [sys_procs]. rewrite <- (take_drop_middle _ _ _ Ha) at 2. rewrite insert_take_drop by (by eapply lookup_lt_Some).
  rewrite !sum_list_with_app. cbn. lia.
Qed.

Lemma alloc_returns (first : bool) m m' r : alloc_process_init true first m = (m', r) → setup_ok → r = true.
Proof.
  unfold alloc_process_init. intros H (_ & _ & _ & Hmi). destruct USE_GLOBAL_MIMALLOC.
  - destruct (Hmi eq_refl) as [x Hx]. rewrite Hx in H. by injection H as _ <-.
  - by injection H as _ <-.
Qed.
Lemma sum_pos s : (0 < init_work s)%nat → ∃ a p, sys_procs s !! a = Some p ∧ (0 < init_left (pr_pc p))%nat.
Proof.
  unfold init_work. induction (sys_procs s) as [|p ps IH]; cbn [sum_list_with]; [lia|]. intros H.
  destruct (decide (0 < init_left (pr_pc p))%nat); [by exists 0%nat, p|]. destruct IH as (a & q & Ha & Hq); [lia|]. by exists (S a), q.
Qed.

(** An action of [rac_init] whose system call succeeds, when the memory is there. *)
Lemma call_progress me pc g :
  setup_ok → (0 < init_left pc)%nat → (me < NODE_COUNT)%nat →
  (pc = ShmOpen → linked g = negb (me =? 0)%nat) →
  (pc = UserRoot ∨ pc = WaitStarted → object_size g = total_size) → (pc = WaitStarted → started (meta g) = true) →
  ∃ pc' g', call_step true me pc g = (pc', g') ∧ dead pc' = false ∧ (init_left pc' < init_left pc)%nat.
Proof.
  intros Hset Hk Hme Hlink Hsize Hst. pose proof Hset as ([r Hr] & Hoff & Hsz & _). apply Z.ltb_lt in Hoff. apply Nat.ltb_lt in Hme.
  destruct pc; try (cbn in Hk; lia); cbn [call_step]; unfold touch_meta, if_ok; rewrite ?Hr, ?Hoff, ?Hme, ?Hlink by done;
    try (rewrite Hsize by auto; apply Z.ltb_ge in Hsz as ->); try rewrite Hst by done;
    try (destruct (me =? 0)%nat eqn:E0); try destruct CXL_NUMA_MODE; try destruct PROTOCOL_OFF; cbn [andb negb];
    try (eexists _, _; split; [done|]; cbn; split; [done|lia]).
  all: destruct (alloc_process_init _ _ _) as [m r'] eqn:E; apply alloc_returns in E as ->; [|done];
    eexists _, _; split; [done|]; cbn; split; [done|lia].
Qed.

Lemma zero_never_waits s z : procs_reachable s → sys_procs s !! 0%nat = Some z → pr_pc z ≠ WaitStarted.
Proof.
  intros Hr. revert z. assert (∀ z, sys_procs procs_init !! 0%nat = Some z → pr_pc z ≠ WaitStarted) as H0
    by (by intros z [-> _]%lookup_replicate).
  unfold procs_reachable in Hr. induction Hr as [|s s1 s2 ([a c] & _ & H) _ IH]; [done|]. apply IH. clear IH s2.
  unfold procs_do in H. cbn [fst snd] in H. destruct (sys_procs s !! a) as [p|] eqn:Ha; [|done]. cbn in H.
  destruct (proc_do a c p (sys_shared s)) as [[p' g']|] eqn:Hd; [|done]. injection H as <-.
  intros z [(-> & <- & _)|[_ Hz]]%list_lookup_insert_Some; [|by apply H0]. specialize (H0 p Ha). apply do_cases in Hd.
  inversion Hd as [ok pc pc' i k g1 Hw Hr E|ok w i k p1 g1 E|i k|i k|i k|pc i k hc size alignment Em]; subst; clear Hd; cbn [pr_pc] in *; try done.
  - destruct pc; cbn [call_step Nat.eqb] in E; unfold touch_meta, if_ok in E; repeat case_match; by simplify_eq.
  - apply wait_log in E as [_ E]. intros Hp. by rewrite Hp in E.
  - by destruct PROTOCOL_OFF.
Qed.

(** The next process to move: node 0 until it has set [started], then any other. *)
Lemma someone_moves s z :
  procs_inv s → setup_ok → sys_procs s !! 0%nat = Some z → pr_pc z ≠ WaitStarted → shutting_down (pr_pc z) = false →
  (∀ a p, sys_procs s !! a = Some p → dead (pr_pc p) = false) → (0 < init_work s)%nat →
  ∃ a p p' g', sys_procs s !! a = Some p ∧ proc_do a (ChNext true) p (sys_shared s) = Some (p', g') ∧
    dead (pr_pc p') = false ∧ (init_left (pr_pc p') < init_left (pr_pc p))%nat.
Proof.
  intros Hi Hok Hz Hnw Hsd Hd Hw. pose proof (si_zero _ Hi z Hz) as Hzi. unfold zero_inv in Hzi. rewrite (Hd _ _ Hz) in Hzi.
  assert (∃ a p, sys_procs s !! a = Some p ∧ (0 < init_left (pr_pc p))%nat ∧ (a = 0%nat ∨ init_left (pr_pc z) < 3)%nat) as (a & p & Ha & Hk & Hor).
  { destruct (decide (init_left (pr_pc z) < 3)%nat) as [|Hge]; [|exists 0%nat, z; split; [done|lia]].
    destruct (sum_pos _ Hw) as (a & p & Ha & Hk). by exists a, p; auto. }
  pose proof (si_procs _ Hi) as Hlen. pose proof (lookup_lt_Some _ _ _ Ha) as Hlt. rewrite Hlen in Hlt.
  destruct (call_progress a (pr_pc p) (sys_shared s)) as (pc' & g' & E & Hd' & Hlt'); [done|done|done| | | |].
  - intros Hpc. destruct (decide (a = 0%nat)) as [->|Hne].
    + simplify_eq. rewrite Hpc in Hzi. by apply Hzi.
    + destruct Hor as [|H3]; [done|]. apply Nat.leb_gt in H3. rewrite H3 in Hzi. apply Nat.eqb_neq in Hne as ->. apply Hzi.
      intros E. by rewrite E in Hsd.
  - intros Hpc. destruct (Nat.leb_spec 3 (init_left (pr_pc z))) as [H3|H3].
    + destruct Hor as [->|?]; [|lia]. simplify_eq. apply (zi_size _ _ Hzi). destruct Hpc as [-> | ->]; cbn; lia.
    + apply pu_size, (si_started _ Hi), Hzi.
  - intros Hpc. destruct (Nat.leb_spec 3 (init_left (pr_pc z))) as [H3|H3]; [|apply Hzi].
    destruct Hor as [->|?]; [|lia]. by simplify_eq.
  - exists a, p, (mkProc pc' (pr_arrived p) (pr_left p)), g'. split; [done|]. split; [|done].
    destruct p as [pc i k]. cbn [proc_do pr_pc pr_arrived pr_left] in *. destruct pc; try (cbn in Hk; lia); by rewrite E.
Qed.
End progress.

(** ** Properties *)

(** C15: what a process finds when [rac_init] returns. Until node 0 begins to shut
    down or dies, every process in its program has the whole object mapped, the
    user's root set, its own log manager, the one of node 0 and the root barrier
    constructed, and a thread id of its own; the main thread of node 0 has id 0, and
    no two of the first 2^32 threads of the system have the same id. For any number
    of processes up to 128, any interleaving and any failing system calls. *)
Theorem startup_publishes `{cfg : Config} `{su : Setup} (s : system) (a : nat) (p z : proc) :
  1 ≤ Z.of_nat NODE_COUNT ≤ 128 → procs_reachable s →
  sys_procs s !! a = Some p → in_program (pr_pc p) = true → sys_procs s !! 0%nat = Some z →
  shutting_down (pr_pc z) = false → dead (pr_pc z) = false →
  let g := sys_shared s in
  started (meta g) = true ∧ object_size g = total_size ∧
  user_root_ptr (meta g) = Some (CXL_HC_START +w sizeof_GlobalMeta) ∧
  log_mgrs (meta g) !! a = Some Made ∧ log_mgrs (meta g) !! 0%nat = Some Made ∧ rb_life (root_barrier (meta g)) = Made ∧
  (∃ t, (a, t) ∈ tids g) ∧ head (tids g) = Some (0%nat, 0) ∧
  (Z.of_nat (length (tids g)) ≤ 2 ^ 32 → NoDup (tids g).*2).
Proof.
  intros Hn Hr Ha Hp Hz Hsd Hd. pose proof (procs_reachable_inv Hn s Hr) as Hi. cbn zeta.
  assert (dead (pr_pc p) = false ∧ shutting_down (pr_pc p) = false ∧ init_left (pr_pc p) = 0%nat) as (Hpd & Hps & Hpk)
    by by destruct (pr_pc p).
  destruct (running_started s a p Hi Ha Hpd ltac:(lia)) as [P1 P2 P3 P4 P5 P6].
  pose proof (si_own _ Hi a p Ha) as Hown.
  assert (started (meta (sys_shared s)) = true) as Hst.
  { destruct (decide (a = 0%nat)) as [->|Hne]; [|apply (ow_attached _ _ _ Hown); [done|done|lia]].
    pose proof (si_zero _ Hi p Ha) as Hzi. unfold zero_inv in Hzi. rewrite Hpd, Hpk in Hzi. apply Hzi. }
  assert (zero_up (pr_pc z) (sys_shared s)) as [_ _ Z3 Z4].
  { pose proof (si_zero _ Hi z Hz) as Hzi. unfold zero_inv in Hzi. rewrite Hd in Hzi.
    destruct (3 <=? init_left (pr_pc z))%nat; [|done]. by rewrite (zi_started _ _ Hzi) in Hst. }
  split; [done|]. split; [done|]. split; [done|]. split; [apply (ow_log _ _ _ Hown); [done|done|lia]|].
  split; [by apply Z3|]. split; [by apply Z4; intros E; rewrite E in Hsd|].
  split; [|split; [done|by apply tids_distinct, si_tids]].
  pose proof (ow_tid _ _ _ Hown Hpd ltac:(lia)) as Hin. apply list_elem_of_fmap in Hin as ([b t] & -> & Hin). by exists t.
Qed.

(** C16: the root barrier as the start-up barrier. When a main thread has left
    [wait] of the root barrier [k + 1] times, the main threads of all nodes have
    arrived there [k + 1] times; so all have returned from [rac_init], and the log
    managers of all nodes have been constructed. *)
Theorem root_barrier_waits_for_all `{cfg : Config} `{su : Setup} (s : system) (a b k : nat) (p q : proc) :
  1 ≤ Z.of_nat NODE_COUNT ≤ 128 → procs_reachable s →
  sys_procs s !! a = Some p → sys_procs s !! b = Some q → (k < pr_left p)%nat →
  (k < pr_arrived q)%nat ∧ (∃ l, log_mgrs (meta (sys_shared s)) !! b = Some l ∧ l ≠ Unmade) ∧ (∃ t, (b, t) ∈ tids (sys_shared s)).
Proof.
  intros Hn Hr Ha Hb Hk. pose proof (procs_reachable_inv Hn s Hr) as Hi.
  assert (k < pr_arrived q)%nat as Hq.
  { pose proof (si_leaving _ Hi a b p q Ha Hb) as Hl. unfold leaving in Hl. destruct (pr_pc p) as [| | | | | | | | | | | | | | | | | | | |[]| | | | | | | | |]; lia. }
  destruct (ow_arrived _ _ _ (si_own _ Hi b q Hb) ltac:(lia)) as [Hlog Hin]. split; [done|]. split.
  - destruct (lookup_lt_is_Some_2 (log_mgrs (meta (sys_shared s))) b) as [l El].
    { rewrite (si_logs _ Hi), <- (si_procs _ Hi). by eapply lookup_lt_Some. }
    exists l. split; [done|]. by intros ->.
  - apply list_elem_of_fmap in Hin as ([c t] & -> & Hin). by exists t.
Qed.

(** C17: start-up completes, for arguments that the assertions of [rac_init] let
    through and, with mimalloc, memory that the allocator accepts ([setup_ok]), and
    up to 128 nodes. In any reachable state in which no process has failed
    and node 0 is not shutting down, as long as some process is inside [rac_init],
    there is one whose next action, if its system call succeeds, takes it further
    without failing. No step of the system adds to the actions left, of which
    there are at most 18 per process. *)
Theorem startup_completes `{cfg : Config} `{su : Setup} (s : system) (z : proc) :
  1 ≤ Z.of_nat NODE_COUNT ≤ 128 → setup_ok → procs_reachable s → sys_procs s !! 0%nat = Some z → shutting_down (pr_pc z) = false →
  (∀ a p, sys_procs s !! a = Some p → dead (pr_pc p) = false) →
  ((0 < init_work s)%nat → ∃ a p p' g', sys_procs s !! a = Some p ∧ proc_do a (ChNext true) p (sys_shared s) = Some (p', g') ∧
     dead (pr_pc p') = false ∧ (init_left (pr_pc p') < init_left (pr_pc p))%nat) ∧
  (∀ s', procs_step s s' → (init_work s' ≤ init_work s)%nat) ∧ (init_work s ≤ 18 * NODE_COUNT)%nat.
Proof.
  intros Hn Hset Hr Hz Hsd Hd. pose proof (procs_reachable_inv Hn s Hr) as Hi. split; [|split].
  - intros Hw. apply (someone_moves s z); [done|done|done|by apply (zero_never_waits s)|done|done|done].
  - intros s'. apply init_work_step.
  - rewrite <- (si_procs _ Hi). unfold init_work. generalize (sys_procs s). intros ps. induction ps as [|p ps IH]; [done|]. cbn [sum_list_with length].
    assert (init_left (pr_pc p) ≤ 18)%nat by (destruct (pr_pc p); cbn; lia). lia.
Qed.

(** The extents of the two pools. With jemalloc, whichever processes take them and
    however often, once [started] is set the extents of a pool are disjoint, and
    those of the hardware-coherent one lie behind the global metadata and the
    user's root: a process that attaches does not make the pools again. *)
Theorem startup_extents_disjoint `{cfg : Config} `{su : Setup} (s : system) :
  1 ≤ Z.of_nat NODE_COUNT ≤ 128 → procs_reachable s → started (meta (sys_shared s)) = true → USE_GLOBAL_MIMALLOC = false →
  0 ≤ cxl_hc_off → cxl_hc_off + CACHE_LINE_SIZE ≤ cxl_hc_range < 2 ^ 47 → 0 ≤ cxl_nhc_range < 2 ^ 61 →
  (∀ bs, bs = hc_extents (sys_shared s) ∨ bs = nhc_extents (sys_shared s) →
     ∀ i j b b', bs !! i = Some b → bs !! j = Some b' → i ≠ j → blocks_disjoint b b') ∧
  (∀ b, b ∈ hc_extents (sys_shared s) → block_in b (CXL_HC_START + cxl_hc_off) (CXL_HC_START + cxl_hc_range)) ∧
  (∀ b, b ∈ nhc_extents (sys_shared s) → block_in b CXL_NHC_START (CXL_NHC_START + cxl_nhc_range)).
Proof.
  intros Hn Hr Hst Hmi H0 Hhc Hnhc. pose proof (procs_reachable_inv Hn s Hr) as Hi.
  destruct (pu_pools _ (si_started _ Hi Hst) Hmi) as [[E1 R1] [E2 R2]]. rewrite E1 in R1. rewrite E2 in R2.
  destruct (first_pools_in H0 Hhc) as (B1 & B2 & B3). rewrite B3 in R2.
  change (2 ^ 47) with 140737488355328 in *. change (2 ^ 61) with 2305843009213693952 in *.
  change CXL_HC_START with 140737488355328 in *. change CXL_NHC_START with 211106232532992 in *. unfold CACHE_LINE_SIZE in *.
  apply pool_reachable_inv in R1 as [O1 _ L1 D1]; [|split; lia]. apply pool_reachable_inv in R2 as [O2 _ L2 D2]; [|cbn; lia].
  cbn in *. split; [|split].
  - intros bs [-> | ->]; [apply D1|apply D2].
  - intros b Hb. rewrite Forall_forall in L1. destruct (L1 b Hb) as [[? ?] _]. split; lia.
  - intros b Hb. rewrite Forall_forall in L2. destruct (L2 b Hb) as [[? ?] _]. split; lia.
Qed.

(** ** Examples *)

Definition small_setup : Setup := {| CXL_NUMA_MODE := true; USE_GLOBAL_MIMALLOC := false; sizeof_GlobalMeta := 8192;
  cxl_hc_range := 2 ^ 26; cxl_nhc_range := 2 ^ 34; root_size := 64; mi_meta_size := ex_meta_size; mi_manage := ex_manage |}.

Section examples.
#[local] Existing Instance small_config.
#[local] Existing Instance small_setup.

Lemma procs_run_steps xs s s' : Forall (λ x, choice_ok x.2) xs → procs_run xs s = Some s' → rtc procs_step s s'.
Proof.
  revert s. induction xs as [|x xs IH]; intros s Hok Hr; [injection Hr as <-; apply rtc_refl|].
  inversion Hok as [|? ? Hc Hcs]; subst. unfold procs_run in Hr. cbn [foldl mbind option_bind] in Hr.
  destruct (procs_do x s) as [s1|] eqn:E.
  - eapply rtc_l; [by exists x|by apply IH].
  - exfalso. clear -Hr. induction xs as [|y xs IH]; [discriminate Hr|]. apply IH, Hr.
Qed.

(** The next [n] actions of a process; all system calls succeed. *)
Definition next (n a : nat) : list (nat * choice) := replicate n (a, ChNext true).
Definition ex_init : list (nat * choice) := next 18 0 ++ next 14 1.
(** A first round of the root barrier, and the second one up to its opening. *)
Definition ex_round : list (nat * choice) := (0%nat, ChWait) :: next 3 0 ++ (1%nat, ChWait) :: next 6 1 ++ next 2 0.
Definition ex_last : list (nat * choice) := (1%nat, ChWait) :: next 3 1 ++ (0%nat, ChWait) :: next 6 0.
Definition ex_shutdown : list (nat * choice) := (0%nat, ChShutdown) :: next 5 0 ++ next 1 1.
(** Threads of both nodes and extents of both pools. *)
Definition ex_program : list (nat * choice) :=
  [(0%nat, ChThread); (1%nat, ChThread); (0%nat, ChExtent true 100 64); (1%nat, ChExtent true 100 64); (1%nat, ChExtent false 64 64)].

Definition plain (x : nat * choice) : bool := match x.2 with ChNext ok => ok | ChExtent _ _ _ => false | _ => true end.
Lemma plain_ok xs : forallb plain xs = true → Forall (λ x, choice_ok x.2) xs.
Proof. intros H. apply Forall_forall. intros [a c] Hin. rewrite forallb_forall in H. apply list_elem_of_In, H in Hin. by destruct c. Qed.

(** All that is asked of a run, evaluated. *)
Definition run_check (xs : list (nat * choice)) (s : system) (f : system → bool) : bool :=
  match procs_run xs s with Some s' => f s' | None => false end.
Lemma run_check_steps xs s f : Forall (λ x, choice_ok x.2) xs → run_check xs s f = true → ∃ s', rtc procs_step s s' ∧ f s' = true.
Proof. unfold run_check. intros Hok H. destruct (procs_run xs s) as [s'|] eqn:E; [|done]. exists s'. split; [by eapply procs_run_steps|done]. Qed.

Definition proc_is (a : nat) (p : proc) (s : system) : bool :=
  match sys_procs s !! a with Some q => bool_decide (pr_pc q = pr_pc p) && (pr_arrived q =? pr_arrived p)%nat && (pr_left q =? pr_left p)%nat | None => false end.
Lemma proc_is_lookup a p s : proc_is a p s = true → sys_procs s !! a = Some p.
Proof.
  unfold proc_is. destruct (sys_procs s !! a) as [[pc i k]|]; [|done]. destruct p as [pc' i' k']. cbn.
  intros [[H1%bool_decide_eq_true H2%Nat.eqb_eq]%andb_prop H3%Nat.eqb_eq]%andb_prop. by subst.
Qed.

(** *** What the code does not do *)

(** Attaching before the object has a size. [shm_open] of another node succeeds as
    soon as node 0 has created the name, and [mmap] of an empty object does, too.
    If that node then reads [meta->started] before the [ftruncate] of node 0, it
    reads beyond the end of the object and dies of SIGBUS. *)
Theorem attach_before_truncate_faults :
  ∃ s, procs_reachable s ∧ sys_procs s !! 1%nat = Some (mkProc Faulted 0 0) ∧ sys_procs s !! 0%nat = Some (mkProc Ftruncate 0 0).
Proof.
  destruct (run_check_steps (next 1 0 ++ next 8 1) procs_init (λ s, proc_is 1 (mkProc Faulted 0 0) s && proc_is 0 (mkProc Ftruncate 0 0) s))
    as (s & Hr & [H1%proc_is_lookup H0%proc_is_lookup]%andb_prop); [by apply plain_ok|reflexivity|].
  by exists s.
Qed.

(** Shutting down while others are in the barrier. [main] of the benchmark ends with
    [wait] of the root barrier and [rac_shutdown]. Node 0 may leave the barrier and
    destroy it while node 1, which is still waiting for the phase to change, has
    to read it once more. *)
Theorem root_barrier_destroyed_in_use :
  ∃ s, procs_reachable s ∧ sys_procs s !! 0%nat = Some (mkProc Unlink 2 2) ∧ sys_procs s !! 1%nat = Some (mkProc Faulted 2 1).
Proof.
  destruct (run_check_steps (ex_init ++ ex_round ++ ex_last ++ ex_shutdown) procs_init
    (λ s, proc_is 0 (mkProc Unlink 2 2) s && proc_is 1 (mkProc Faulted 2 1) s))
    as (s & Hr & [H0%proc_is_lookup H1%proc_is_lookup]%andb_prop); [by apply plain_ok|vm_compute; reflexivity|].
  by exists s.
Qed.

(** A name left by a run that did not reach [shm_unlink]. Node 0 of the next run
    exits, because [O_EXCL] finds the name; node 1 finds [started] set and runs its
    program on the metadata of the dead run. *)
Theorem stale_object_attaches :
  ∃ s0 s, procs_reachable s0 ∧ rtc procs_step (mkSys (sys_shared s0) (replicate NODE_COUNT (mkProc ShmOpen 0 0))) s ∧
    sys_procs s !! 0%nat = Some (mkProc Exited 0 0) ∧ sys_procs s !! 1%nat = Some (mkProc Running 0 0).
Proof.
  set (again s0 := mkSys (sys_shared s0) (replicate NODE_COUNT (mkProc ShmOpen 0 0))).
  destruct (run_check_steps ex_init procs_init (λ s0, run_check ex_init (again s0)
    (λ s, proc_is 0 (mkProc Exited 0 0) s && proc_is 1 (mkProc Running 0 0) s)))
    as (s0 & Hr0 & Hagain); [by apply plain_ok|vm_compute; reflexivity|].
  apply run_check_steps in Hagain as (s & Hr & [H0%proc_is_lookup H1%proc_is_lookup]%andb_prop); [|by apply plain_ok].
  by exists s0, s.
Qed.

(** *** Witnesses *)

Lemma startup_publishes_witness :
  ∃ s p z, procs_reachable s ∧ sys_procs s !! 1%nat = Some p ∧ sys_procs s !! 0%nat = Some z ∧ length (tids s.(sys_shared)) = 4%nat ∧
    log_mgrs (meta (sys_shared s)) !! 1%nat = Some Made ∧ NoDup (tids (sys_shared s)).*2.
Proof.
  destruct (run_check_steps (ex_init ++ ex_round ++ [(0%nat, ChThread); (1%nat, ChThread)]) procs_init
    (λ s, proc_is 0 (mkProc Running 1 1) s && proc_is 1 (mkProc Running 1 1) s && (length (tids (sys_shared s)) =? 4)%nat))
    as (s & Hr & [[H0%proc_is_lookup H1%proc_is_lookup]%andb_prop Hl%Nat.eqb_eq]%andb_prop); [by apply plain_ok|vm_compute; reflexivity|].
  destruct (startup_publishes s 1 (mkProc Running 1 1) (mkProc Running 1 1)) as (_ & _ & _ & Hlog & _ & _ & _ & _ & Hnd);
    [cbn; lia|exact Hr|exact H1|reflexivity|exact H0|reflexivity|reflexivity|].
  exists s, (mkProc Running 1 1), (mkProc Running 1 1). repeat (split; [assumption|]). apply Hnd. rewrite Hl. lia.
Defined.

Lemma root_barrier_waits_for_all_witness :
  ∃ s q, procs_reachable s ∧ sys_procs s !! 1%nat = Some (mkProc Running 1 1) ∧ sys_procs s !! 0%nat = Some q ∧ (0 < pr_arrived q)%nat.
Proof.
  destruct (run_check_steps (ex_init ++ take 11 ex_round) procs_init
    (λ s, proc_is 0 (mkProc (InWait (WaitPoll 0)) 1 0) s && proc_is 1 (mkProc Running 1 1) s))
    as (s & Hr & [H0%proc_is_lookup H1%proc_is_lookup]%andb_prop); [by apply plain_ok|vm_compute; reflexivity|].
  exists s, (mkProc (InWait (WaitPoll 0)) 1 0). split; [exact Hr|]. split; [exact H1|]. split; [exact H0|].
  apply (root_barrier_waits_for_all s 1 0 0 (mkProc Running 1 1) (mkProc (InWait (WaitPoll 0)) 1 0)); [cbn; lia|exact Hr|exact H1|exact H0|cbn; lia].
Defined.

Lemma ex_setup_ok : setup_ok.
Proof. split; [by eexists|]. split; [reflexivity|]. split; [vm_compute; discriminate|discriminate]. Qed.

Lemma startup_completes_witness :
  ∃ s, procs_reachable s ∧ init_work s = 10%nat ∧
    ∃ a p p' g', sys_procs s !! a = Some p ∧ proc_do a (ChNext true) p (sys_shared s) = Some (p', g') ∧
      dead (pr_pc p') = false ∧ (init_left (pr_pc p') < init_left (pr_pc p))%nat.
Proof.
  destruct (run_check_steps (next 18 0 ++ next 7 1) procs_init
    (λ s, proc_is 0 (mkProc Running 0 0) s && proc_is 1 (mkProc WaitStarted 0 0) s && (init_work s =? 10)%nat && (length (sys_procs s) =? 2)%nat))
    as (s & Hr & [[[H0%proc_is_lookup H1%proc_is_lookup]%andb_prop Hw%Nat.eqb_eq]%andb_prop Hl%Nat.eqb_eq]%andb_prop);
    [by apply plain_ok|vm_compute; reflexivity|].
  exists s. split; [exact Hr|]. split; [exact Hw|].
  apply (startup_completes s (mkProc Running 0 0)); [cbn; lia|apply ex_setup_ok|exact Hr|exact H0|reflexivity| |rewrite Hw; lia].
  intros a p Ha. destruct a as [|[|a]]; [rewrite H0 in Ha; by injection Ha as <-|rewrite H1 in Ha; by injection Ha as <-|].
  apply lookup_lt_Some in Ha. lia.
Defined.

Lemma startup_extents_disjoint_witness :
  ∃ s b b', procs_reachable s ∧ hc_extents (sys_shared s) = [b; b'] ∧ blocks_disjoint b b'.
Proof.
  destruct (run_check_steps (ex_init ++ ex_program) procs_init (λ s, started (meta (sys_shared s)) && (length (hc_extents (sys_shared s)) =? 2)%nat))
    as (s & Hr & [Hs Hl%Nat.eqb_eq]%andb_prop).
  - apply Forall_app. split; [by apply plain_ok|].
    repeat constructor; try (cbn; lia); exists 6; split; [lia|reflexivity|lia|reflexivity|lia|reflexivity].
  - vm_compute. reflexivity.
  - destruct (hc_extents (sys_shared s)) as [|b [|b' [|]]] eqn:E; try discriminate Hl. exists s, b, b'. split; [exact Hr|]. split; [exact E|].
    destruct (startup_extents_disjoint s) as [H _];
      [cbn; lia|exact Hr|exact Hs|reflexivity|vm_compute; discriminate
      |vm_compute; split; [discriminate|reflexivity]|vm_compute; split; [discriminate|reflexivity]|].
    rewrite E in H. apply (H [b; b'] (or_introl eq_refl) 0%nat 1%nat); [reflexivity|reflexivity|lia].
Defined.
End examples.
