(* ===== verification/BenchMain.v ===== *)
(** BenchMain: [main] of [src/benchMain.cpp], the benchmark, as the user program of
    the processes of Startup.

    The main thread of a process calls [rac_init], makes the pool if it is node 0,
    waits at the root barrier, starts and joins its workers, waits again and shuts
    down. A worker runs the calls of [Microbench::run], each of which uses the pool.
    A step is an action of a process in Startup, of a main thread or of a worker. *)
From S2P Require Import Prelude Config ExtentPool Runtime CxlMalloc AtomicOps BarrierSystem Microbench Startup.

(** ** Definitions: the arguments of [main] *)

(** What [main] makes of [RAC_SERVER_IDX]; [strtol] gives the number and how many
    characters it has used. [ArgCrash] is [strtol] of a null pointer. *)
Inductive main_arg := ArgIdx (server_idx : Z) | ArgError | ArgCrash.
Definition main_server_idx `{cfg : Config} {S : Type} (strtol : S → Z * nat) (env : option S) : main_arg :=
  match env with
  | None => ArgCrash
  | Some server_idx_ch =>
      let '(server_idx, used) := strtol server_idx_ch in
      if (used =? 0)%nat || negb (valid_server_idx server_idx) then ArgError else ArgIdx server_idx
  end.

(** ** Definitions: the threads *)

Definition WORKER_PER_NODE : nat := 4.

(** A thread of [run_microbench]: created, with its calls on the pool left, or
    finished. *)
Inductive worker := Created | Working (calls : list bench_call) | Finished.

(** Where the main thread is. *)
Inductive main_pc :=
  | MainInit | MainPool | MainWait1 | MainIn1 | MainSpawn (i : nat) | MainJoin (i : nat)
  | MainWait2 | MainIn2 | MainDestroy | MainShutdown | MainDone.
Record main_thread := mkMain { mn_pc : main_pc; mn_workers : list worker }.
Record bench := mkBench { be_sys : system; be_pool : lifetime; be_mains : list main_thread }.

Section bench.
Context `{cfg : Config} `{su : Setup}.
(** [WORKLOAD_USE_LOCKS], the operation of an index and the number of operations. *)
Context (with_locks : bool) (workload : Z → UserOp) (total_ops : nat).
Implicit Types (s : system) (a i : nat) (m : main_thread) (b : bench).

(** Whether the main thread of the process is back from a call of the library. *)
Definition returned a s : bool :=
  match sys_procs s !! a with Some p => bool_decide (pr_pc p = Running) | None => false end.
Definition goto_main pc m : main_thread := mkMain pc (mn_workers m).

(** The next statement of [main] of process [a]. *)
Definition main_do a m s (pool : lifetime) : option (main_thread * system * lifetime) :=
  match mn_pc m with
  | MainInit => if returned a s then Some (goto_main (if (a =? 0)%nat then MainPool else MainWait1) m, s, pool) else None
  | MainPool => Some (goto_main MainWait1 m, s, Made)
  | MainWait1 => s' ← procs_do (a, ChWait) s; Some (goto_main MainIn1 m, s', pool)
  | MainIn1 => if returned a s then Some (goto_main (MainSpawn 0) m, s, pool) else None
  | MainSpawn i =>
      if (i <? WORKER_PER_NODE)%nat then Some (mkMain (MainSpawn (S i)) (mn_workers m ++ [Created]), s, pool)
      else Some (goto_main (MainJoin 0) m, s, pool)
  | MainJoin i =>
      if (i <? WORKER_PER_NODE)%nat then
        match mn_workers m !! i with Some Finished => Some (goto_main (MainJoin (S i)) m, s, pool) | _ => None end
      else Some (goto_main MainWait2 m, s, pool)
  | MainWait2 => s' ← procs_do (a, ChWait) s; Some (goto_main MainIn2 m, s', pool)
  | MainIn2 => if returned a s then Some (goto_main (if (a =? 0)%nat then MainDestroy else MainShutdown) m, s, pool) else None
  | MainDestroy => Some (goto_main MainShutdown m, s, Destroyed)
  | MainShutdown => s' ← procs_do (a, ChShutdown) s; Some (goto_main MainDone m, s', pool)
  | MainDone => None
  end.

(** The next action of a worker: its id, then its calls one by one. *)
Definition worker_do a (w : worker) s : option (worker * system) :=
  match w with
  | Created => s' ← procs_do (a, ChThread) s; Some (Working (bench_run with_locks workload total_ops), s')
  | Working (_ :: calls) => Some (Working calls, s)
  | Working [] => Some (Finished, s)
  | Finished => None
  end.

Inductive bench_choice := BeProc (c : choice) | BeMain | BeWorker (i : nat).
Definition bench_do (x : nat * bench_choice) b : option bench :=
  let '(a, c) := x in
  match c with
  | BeProc c =>
      match c with
      | ChNext _ | ChExtent _ _ _ => s' ← procs_do (a, c) (be_sys b); Some (mkBench s' (be_pool b) (be_mains b))
      | _ => None
      end
  | BeMain =>
      m ← be_mains b !! a;
      '(m', s', pool') ← main_do a m (be_sys b) (be_pool b);
      Some (mkBench s' pool' (<[a := m']> (be_mains b)))
  | BeWorker i =>
      m ← be_mains b !! a;
      w ← mn_workers m !! i;
      '(w', s') ← worker_do a w (be_sys b);
      Some (mkBench s' (be_pool b) (<[a := mkMain (mn_pc m) (<[i := w']> (mn_workers m))]> (be_mains b)))
  end.
Definition bench_choice_ok (c : bench_choice) : Prop := match c with BeProc c => choice_ok c | _ => True end.
Definition bench_step b b' : Prop := ∃ x, bench_choice_ok x.2 ∧ bench_do x b = Some b'.
Definition bench_init : bench := mkBench procs_init Unmade (replicate NODE_COUNT (mkMain MainInit [])).
Definition bench_reachable b : Prop := rtc bench_step bench_init b.
Definition bench_exec (xs : list (nat * bench_choice)) b : option bench := foldl (λ ob x, b ← ob; bench_do x b) (Some b) xs.

(** ** The invariant *)

(** How often a process has arrived at the barrier, by how often it has left it. *)
Definition counts_ok (p : proc) : Prop :=
  match pr_pc p with
  | InWait (WaitPhase | WaitArrive _) => pr_arrived p = pr_left p
  | InWait _ => pr_arrived p = S (pr_left p)
  | Faulted => (pr_arrived p ≤ S (pr_left p))%nat
  | _ => pr_arrived p = pr_left p
  end.
Definition in_wait (pc : proc_pc) : bool := match pc with InWait _ => true | _ => false end.

(** Between the calls of [main] a process is in its program; in a call of [wait] it
    is on its way, back or dead. *)
Definition waiting_round (k : nat) (p : proc) : Prop :=
  (in_wait (pr_pc p) = true ∨ pr_pc p = Faulted) ∧ pr_left p = k ∨ pr_pc p = Running ∧ pr_left p = S k.
Definition main_ok (pc : main_pc) (p : proc) : Prop :=
  match pc with
  | MainInit => in_wait (pr_pc p) = false ∧ shutting_down (pr_pc p) = false ∧ pr_left p = 0%nat ∧ pr_arrived p = 0%nat
  | MainPool | MainWait1 => pr_pc p = Running ∧ pr_left p = 0%nat
  | MainIn1 => waiting_round 0 p
  | MainSpawn _ | MainJoin _ | MainWait2 => pr_pc p = Running ∧ pr_left p = 1%nat
  | MainIn2 => waiting_round 1 p
  | MainDestroy | MainShutdown => pr_pc p = Running ∧ pr_left p = 2%nat
  | MainDone => (shutting_down (pr_pc p) || dead (pr_pc p)) = true ∧ pr_left p = 2%nat
  end.
(** The workers live while the main thread starts and joins them. *)
Definition workers_ok m : Prop :=
  (∀ i calls, mn_workers m !! i = Some (Working calls) → Forall call_in_bounds calls) ∧
  match mn_pc m with
  | MainSpawn i => length (mn_workers m) = i ∧ (i ≤ WORKER_PER_NODE)%nat
  | MainJoin i => length (mn_workers m) = WORKER_PER_NODE ∧ ∀ j, (j < i)%nat → mn_workers m !! j = Some Finished ∨ (WORKER_PER_NODE ≤ j)%nat
  | MainInit | MainPool | MainWait1 | MainIn1 => mn_workers m = []
  | _ => ∀ w, w ∈ mn_workers m → w = Finished
  end.
(** The pool, by where the main thread of node 0 is. *)
Definition pool_at (pc : main_pc) : lifetime :=
  match pc with MainInit | MainPool => Unmade | MainShutdown | MainDone => Destroyed | _ => Made end.

Record bench_inv b : Prop := {
  bn_sys : procs_reachable (be_sys b);
  bn_mains : length (be_mains b) = NODE_COUNT;
  bn_counts a p : sys_procs (be_sys b) !! a = Some p → counts_ok p;
  bn_main a m p : be_mains b !! a = Some m → sys_procs (be_sys b) !! a = Some p → main_ok (mn_pc m) p;
  bn_workers a m : be_mains b !! a = Some m → workers_ok m;
  bn_role a m : be_mains b !! a = Some m → a ≠ 0%nat → mn_pc m ≠ MainPool ∧ mn_pc m ≠ MainDestroy;
  bn_pool m : be_mains b !! 0%nat = Some m → be_pool b = pool_at (mn_pc m);
}.
End bench.

(** ** Lemmas *)

Section lemmas.
Context `{cfg : Config} `{su : Setup}.
Context (with_locks : bool) (workload : Z → UserOp) (total_ops : nat).
Context (nodes : 1 ≤ Z.of_nat NODE_COUNT ≤ 128) (bounds : ∀ i, op_in_bounds (workload i)).
Implicit Types (s : system) (a i : nat) (m : main_thread) (b : bench) (p : proc).

Lemma procs_do_inv a c s s' : procs_do (a, c) s = Some s' →
  ∃ p p' g', sys_procs s !! a = Some p ∧ proc_do a c p (sys_shared s) = Some (p', g') ∧ s' = mkSys g' (<[a := p']> (sys_procs s)).
Proof.
  unfold procs_do. cbn [fst snd]. destruct (sys_procs s !! a) as [p|]; [|done]. cbn.
  destruct (proc_do a c p (sys_shared s)) as [[p' g']|] eqn:E; [|done]. intros [= <-]. by exists p, p', g'.
Qed.

Lemma call_quiet ok a pc pc' g g' : call_step ok a pc g = (pc', g') → in_wait pc = false → pc ≠ Running →
  in_wait pc' = false ∧ (shutting_down pc = false → shutting_down pc' = false) ∧
  ((shutting_down pc || dead pc) = true → (shutting_down pc' || dead pc') = true) ∧ (pc = Faulted → pc' = Faulted).
Proof.
  intros H Hw Hr. destruct pc; try done; cbn [call_step] in H; unfold touch_meta, if_ok in H; repeat case_match; by simplify_eq.
Qed.

Lemma counts_step a c p p' g g' : proc_do a c p g = Some (p', g') → counts_ok p → counts_ok p'.
Proof.
  intros H Hp. apply do_cases in H.
  inversion H as [ok pc pc' i k g1 Hw Hr E|ok w i k p1 g1 E|i k|i k|i k|pc i k hc size alignment Em]; subst; clear H; try done.
  - assert (in_wait pc = false) as Hw' by (destruct pc; try done; by destruct (Hw w)).
    destruct (call_quiet _ _ _ _ _ _ E Hw' Hr) as (H1 & _ & _ & H2). unfold counts_ok in *. cbn in *.
    destruct pc, pc'; try done; try (by specialize (H2 eq_refl)); lia.
  - apply wait_cases in E as [(-> & -> & ->)|[(? & _ & -> & ->)|(Hne & _ & v & r & ph & k' & _ & -> & ->)]]; unfold counts_ok in *; cbn in *.
    + done.
    + destruct w; lia.
    + destruct w; cbn in *; try done; try lia; match goal with |- context [if ?c then _ else _] => destruct c end; lia.
  - by destruct PROTOCOL_OFF.
Qed.

(** The actions of a process between two statements of its [main]. *)
Definition internal (c : choice) : bool := match c with ChNext _ | ChExtent _ _ _ => true | _ => false end.
Lemma waiting_internal k a c p p' g g' : internal c = true → proc_do a c p g = Some (p', g') → waiting_round k p → waiting_round k p'.
Proof.
  intros Hc H Hp. apply do_cases in H.
  inversion H as [ok pc pc' i j g1 Hw Hr E|ok w i j p1 g1 E|i j|i j|i j|pc i j hc size alignment Em]; subst; clear H; try done; unfold waiting_round in *; cbn [pr_pc pr_left] in *.
  - destruct Hp as [[[Hp|Hp] ->]|[? _]]; [destruct pc; try done; by destruct (Hw w)| |done]. subst pc. injection E as <- <-. auto.
  - destruct Hp as [[_ Hk]|[? _]]; [|done].
    apply wait_cases in E as [(-> & -> & ->)|[(_ & _ & -> & ->)|(_ & _ & v & r & ph & k' & _ & -> & ->)]]; cbn; [right|left|left]; auto.
Qed.
Lemma main_internal pc a c p p' g g' : internal c = true → proc_do a c p g = Some (p', g') → main_ok pc p → main_ok pc p'.
Proof.
  intros Hc H Hp. assert (pr_pc p = Running → p' = p) as Hrun.
  { intros Hr. apply do_cases in H. by inversion H; subst. }
  destruct pc; cbn [main_ok] in *; try (destruct Hp as [Hr Hk]; rewrite Hrun by done; done); try (by eapply waiting_internal).
  - destruct Hp as (H1 & H2 & H3 & H4). apply do_cases in H. inversion H; subst; try done. cbn in *.
    match goal with E : call_step _ _ _ _ = _ |- _ => destruct (call_quiet _ _ _ _ _ _ E) as (? & ? & _); auto end.
  - destruct Hp as [H1 H2]. apply do_cases in H. inversion H; subst; try done. cbn in *.
    match goal with E : call_step _ _ _ _ = _ |- _ => destruct (call_quiet _ _ _ _ _ _ E) as (? & ? & ? & _); auto; by destruct pc end.
Qed.

(** At most one step of process [a]. *)
Definition moves a s s' : Prop := s' = s ∨ ∃ c, choice_ok c ∧ procs_do (a, c) s = Some s'.
Lemma moves_reachable a s s' : moves a s s' → procs_reachable s → procs_reachable s'.
Proof. intros [->|(c & Hc & Hs)] Hr; [done|]. eapply rtc_r; [exact Hr|]. by exists (a, c). Qed.
Lemma moves_counts a s s' : moves a s s' →
  (∀ d p, sys_procs s !! d = Some p → counts_ok p) → ∀ d p, sys_procs s' !! d = Some p → counts_ok p.
Proof.
  intros [->|(c & _ & (p & p' & g' & Hp & Hdo & ->)%procs_do_inv)] Hc d q; [apply Hc|].
  intros [(<- & <- & _)|[_ Hq]]%list_lookup_insert_Some; [by eapply counts_step, Hc|by eapply Hc].
Qed.
Lemma moves_others a s s' d : moves a s s' → a ≠ d → sys_procs s' !! d = sys_procs s !! d.
Proof. intros [->|(c & _ & (p & p' & g' & _ & _ & ->)%procs_do_inv)] Hne; [done|by apply list_lookup_insert_ne]. Qed.

Lemma returned_running a s : returned a s = true → ∃ p, sys_procs s !! a = Some p ∧ pr_pc p = Running.
Proof. unfold returned. destruct (sys_procs s !! a) as [p|]; [|done]. intros ?%bool_decide_eq_true. by exists p. Qed.

Lemma enter_wait k a s s' p : procs_do (a, ChWait) s = Some s' → sys_procs s !! a = Some p → pr_pc p = Running ∧ pr_left p = k →
  ∀ p', sys_procs s' !! a = Some p' → waiting_round k p'.
Proof.
  intros (q & q' & g' & Hq & Hdo & ->)%procs_do_inv Hp [H1 H2]. assert (q = p) as -> by congruence.
  destruct p as [pc i j]; cbn in *; subst. injection Hdo as <- <-.
  intros p' [(_ & <- & _)|[? _]]%list_lookup_insert_Some; [|done]. left. by split; [left|].
Qed.

(** What a statement of [main] does to the process, the pool and the workers. *)
Lemma main_step a m m' s s' pool pool' p :
  main_do a m s pool = Some (m', s', pool') → main_ok (mn_pc m) p → sys_procs s !! a = Some p → workers_ok m →
  moves a s s' ∧
  (∀ p', sys_procs s' !! a = Some p' → main_ok (mn_pc m') p') ∧ workers_ok m'.
Proof.
  intros H Hm Hp [Hw1 Hw2]. unfold main_do in H.
  assert (returned a s = true → pr_pc p = Running) as Hret.
  { intros (q & Hq & ?)%returned_running. by simplify_eq. }
  destruct (mn_pc m) as [| | | |i|i| | | | |] eqn:Em; cbn [main_ok] in Hm.
  - destruct (returned a s); [|done]. injection H as <- <- <-. split; [by left|]. split.
    + intros p' Hp'. simplify_eq. specialize (Hret eq_refl). destruct Hm as (_ & _ & Hl & _). cbn. by destruct (a =? 0)%nat.
    + split; [done|]. cbn. by destruct (a =? 0)%nat.
  - injection H as <- <- <-. split; [by left|]. split; [intros p' Hp'; by simplify_eq|by split].
  - destruct (procs_do (a, ChWait) s) as [s1|] eqn:E; [|done]. injection H as <- <- <-. split; [right; by eexists; split; [|done]|]. split; [by eapply enter_wait|by split].
  - destruct (returned a s); [|done]. injection H as <- <- <-. split; [by left|]. split; [|by split; [|split; [cbn; by rewrite Hw2|lia]]].
    intros p' Hp'. simplify_eq. specialize (Hret eq_refl). destruct Hm as [[[Hm|Hm] _]|Hm]; [by rewrite Hret in Hm|congruence|done].
  - destruct (Nat.ltb_spec i WORKER_PER_NODE) as [Hi|Hi]; injection H as <- <- <-; (split; [by left|]); (split; [intros p' Hp'; by simplify_eq|]).
    + destruct Hw2 as [Hl Hb]. split; cbn.
      * intros j calls [Hj|[_ Hj]]%lookup_app_Some; [by eapply Hw1|]. by destruct (j - length (mn_workers m))%nat.
      * rewrite length_app. cbn. lia.
    + destruct Hw2 as [Hl Hb]. split; [done|]. cbn. split; [lia|]. intros j Hj. lia.
  - destruct (Nat.ltb_spec i WORKER_PER_NODE) as [Hi|Hi].
    + destruct (mn_workers m !! i) as [[|calls|]|] eqn:Ei; try done. injection H as <- <- <-. split; [by left|].
      split; [intros p' Hp'; by simplify_eq|]. destruct Hw2 as [Hl Hj]. split; [done|]. cbn. split; [done|].
      intros j Hj'. destruct (decide (j = i)) as [->|]; [by left|]. apply Hj. lia.
    + injection H as <- <- <-. split; [by left|]. split; [intros p' Hp'; by simplify_eq|]. destruct Hw2 as [Hl Hj]. split; [done|].
      cbn. intros w (j & Hw)%list_elem_of_lookup. pose proof (lookup_lt_Some _ _ _ Hw). destruct (Hj j) as [?|?]; [lia|congruence|lia].
  - destruct (procs_do (a, ChWait) s) as [s1|] eqn:E; [|done]. injection H as <- <- <-. split; [right; by eexists; split; [|done]|]. split; [by eapply enter_wait|by split].
  - destruct (returned a s); [|done]. injection H as <- <- <-. split; [by left|]. split.
    + intros p' Hp'. simplify_eq. specialize (Hret eq_refl). cbn.
      assert (pr_left p = 2%nat) by (destruct Hm as [[[Hm|Hm] _]|[_ Hm]]; [by rewrite Hret in Hm|congruence|done]). by destruct (a =? 0)%nat.
    + split; [done|]. cbn. by destruct (a =? 0)%nat.
  - injection H as <- <- <-. split; [by left|]. split; [intros p' Hp'; by simplify_eq|by split].
  - destruct (procs_do (a, ChShutdown) s) as [s1|] eqn:E; [|done]. injection H as <- <- <-. split; [right; by eexists; split; [|done]|]. split; [|by split].
    apply procs_do_inv in E as (q & q' & g' & Hq & Hdo & ->). assert (q = p) as -> by congruence. destruct p as [pc i k]; cbn in Hm. destruct Hm as [-> ->].
    injection Hdo as <- <-. intros p' [(_ & <- & _)|[? _]]%list_lookup_insert_Some; [|done]. cbn. by destruct PROTOCOL_OFF.
  - done.
Qed.

(** The pool and the roles. *)
Lemma main_pool a m m' s s' pool pool' :
  main_do a m s pool = Some (m', s', pool') → (a ≠ 0%nat → mn_pc m ≠ MainPool ∧ mn_pc m ≠ MainDestroy) →
  (a ≠ 0%nat → (mn_pc m' ≠ MainPool ∧ mn_pc m' ≠ MainDestroy) ∧ pool' = pool) ∧
  (a = 0%nat → pool = pool_at (mn_pc m) → pool' = pool_at (mn_pc m')).
Proof.
  intros H Hr. unfold main_do in H.
  split; intros Ha; [specialize (Hr Ha); apply Nat.eqb_neq in Ha as E0|subst a];
    destruct (mn_pc m) as [| | | |i|i| | | | |]; repeat case_match; simplify_eq; try (by destruct Hr);
    try (destruct (procs_do _ _); [|done]; simplify_eq/=; done); try done; by rewrite ?E0.
Qed.

(** A worker leaves the processes' states alone. *)
Lemma worker_step a w w' s s' : worker_do with_locks workload total_ops a w s = Some (w', s') →
  moves a s s' ∧ sys_procs s' = sys_procs s ∧ w ≠ Finished ∧
  ((∀ calls, w = Working calls → Forall call_in_bounds calls) → ∀ calls, w' = Working calls → Forall call_in_bounds calls).
Proof.
  unfold worker_do. destruct w as [|[|c calls]|]; [| | |done].
  - destruct (procs_do (a, ChThread) s) as [s1|] eqn:E; [|done]. intros [= <- <-]. split; [right; by eexists; split; [|done]|].
    apply procs_do_inv in E as (p & p' & g' & Hp & Hdo & ->). apply do_cases in Hdo. inversion Hdo; subst. cbn.
    split; [by apply list_insert_id|]. split; [done|]. intros _ calls [= <-]. unfold bench_run.
    pose proof (bench_loop_spec with_locks workload total_ops 0 CXL_SYNC_RANGE bounds ltac:(done)) as Hb.
    destruct (bench_loop _ _ _ _ _) as [cs locked]. destruct Hb as (Hl & Hb & _). apply Forall_app. split; [done|].
    destruct (Z.eqb_spec locked CXL_SYNC_RANGE); repeat constructor; cbn; lia.
  - intros [= <- <-]. split; [by left|]. done.
  - intros [= <- <-]. split; [by left|]. split; [done|]. split; [done|]. intros Hc cs [= <-]. specialize (Hc _ eq_refl). by inversion Hc.
Qed.

Lemma worker_keeps m i w w' :
  workers_ok m → mn_workers m !! i = Some w → w ≠ Finished → (∀ calls, w' = Working calls → Forall call_in_bounds calls) →
  workers_ok (mkMain (mn_pc m) (<[i := w']> (mn_workers m))).
Proof.
  intros [H1 H2] Hw Hnf Hc. split; cbn [mn_workers mn_pc].
  - intros j calls [(_ & Hw' & _)|[_ Hj]]%list_lookup_insert_Some; [by apply Hc|by eapply H1].
  - assert ((∀ w, w ∈ mn_workers m → w = Finished) → False) as Hno by (intros Hall; by eapply Hnf, Hall, list_elem_of_lookup_2).
    destruct (mn_pc m); try (by destruct (Hno H2)); try (by rewrite H2 in Hw); rewrite length_insert; [done|].
    destruct H2 as [H2 H3]. split; [done|]. intros j Hj. destruct (H3 j Hj) as [Hf|?]; [left|by right].
    rewrite list_lookup_insert_ne; [done|]. intros ->. congruence.
Qed.

Lemma leaving_ge p : (pr_left p ≤ leaving p)%nat.
Proof. unfold leaving. destruct (pr_pc p); try lia. destruct w; lia. Qed.

Lemma bench_init_inv : bench_inv bench_init.
Proof.
  assert (∀ a p, sys_procs procs_init !! a = Some p → p = mkProc ShmOpen 0 0) as Hp by by intros a p [-> _]%lookup_replicate.
  assert (∀ a m, be_mains bench_init !! a = Some m → m = mkMain MainInit []) as Hm by by intros a m [-> _]%lookup_replicate.
  constructor.
  - apply rtc_refl.
  - apply length_replicate.
  - by intros a p ->%Hp.
  - by intros a m p ->%Hm ->%Hp.
  - by intros a m ->%Hm.
  - by intros a m ->%Hm.
  - by intros m ->%Hm.
Qed.

Lemma bench_step_inv b b' : bench_step with_locks workload total_ops b b' → bench_inv b → bench_inv b'.
Proof.
  intros ([a c] & Hc & H) [I1 I2 I3 I4 I5 I6 I7]. cbn in Hc. destruct c as [c| |i]; cbn [bench_do] in H.
  - assert (internal c = true ∧ ∃ s', procs_do (a, c) (be_sys b) = Some s' ∧ b' = mkBench s' (be_pool b) (be_mains b)) as (Hin & s' & E & ->).
    { destruct c; try done; destruct (procs_do _ _) as [s'|]; try done; injection H as <-; (split; [done|]); by exists s'. }
    assert (moves a (be_sys b) s') as Hs by (right; by exists c).
    constructor; cbn [be_sys be_pool be_mains]; try done; [by eapply moves_reachable|by eapply moves_counts|].
    intros d m p Hm Hp. destruct (decide (a = d)) as [<-|Hne]; [|rewrite (moves_others _ _ _ _ Hs Hne) in Hp; by eapply I4].
    apply procs_do_inv in E as (q & q' & g' & Hq & Hdo & ->). apply list_lookup_insert_Some in Hp as [(_ & <- & _)|[? _]]; [|done].
    eapply main_internal; [done|exact Hdo|by eapply I4].
  - destruct (be_mains b !! a) as [m|] eqn:Em; [|done]. cbn in H.
    destruct (main_do a m (be_sys b) (be_pool b)) as [[[m' s'] pool']|] eqn:E; [|done]. injection H as <-.
    destruct (lookup_lt_is_Some_2 (sys_procs (be_sys b)) a) as [p Hp].
    { rewrite (si_procs _ (procs_reachable_inv nodes _ I1)), <- I2. by eapply lookup_lt_Some. }
    destruct (main_step _ _ _ _ _ _ _ _ E (I4 _ _ _ Em Hp) Hp (I5 _ _ Em)) as (Hs & Hm' & Hw').
    destruct (main_pool _ _ _ _ _ _ _ E (I6 a m Em)) as [Hother Hzero].
    constructor; cbn [be_sys be_pool be_mains].
    + by eapply moves_reachable.
    + by rewrite length_insert.
    + by eapply moves_counts.
    + intros d q r [(<- & <- & _)|[Hne Hq]]%list_lookup_insert_Some Hr; [by apply Hm'|].
      rewrite (moves_others _ _ _ _ Hs Hne) in Hr. by eapply I4.
    + intros d q [(<- & <- & _)|[_ Hq]]%list_lookup_insert_Some; [done|by eapply I5].
    + intros d q [(<- & <- & _)|[_ Hq]]%list_lookup_insert_Some; [intros Ha; by apply Hother|by eapply I6].
    + intros q [(-> & <- & _)|[Hne Hq]]%list_lookup_insert_Some; [by apply Hzero; [|apply I7]|].
      destruct (Hother Hne) as [_ ->]. by apply I7.
  - destruct (be_mains b !! a) as [m|] eqn:Em; [|done]. cbn in H. destruct (mn_workers m !! i) as [w|] eqn:Ew; [|done]. cbn in H.
    destruct (worker_do _ _ _ a w (be_sys b)) as [[w' s']|] eqn:E; [|done]. injection H as <-.
    destruct (worker_step _ _ _ _ _ E) as (Hs & Hp & Hnf & Hcalls). pose proof (I5 _ _ Em) as Hw.
    constructor; cbn [be_sys be_pool be_mains].
    + by eapply moves_reachable.
    + by rewrite length_insert.
    + by rewrite Hp.
    + rewrite Hp. intros d q r [(<- & <- & _)|[_ Hq]]%list_lookup_insert_Some Hr; [by eapply (I4 a m)|by eapply I4].
    + intros d q [(<- & <- & _)|[_ Hq]]%list_lookup_insert_Some; [|by eapply I5].
      eapply worker_keeps; [done|done|done|]. apply Hcalls. intros calls ->. by eapply Hw.
    + intros d q [(<- & <- & _)|[_ Hq]]%list_lookup_insert_Some; [by apply (I6 a m)|by eapply I6].
    + intros q [(-> & <- & _)|[Hne Hq]]%list_lookup_insert_Some; [by apply (I7 m)|by apply I7].
Qed.

Lemma bench_reachable_inv b : bench_reachable with_locks workload total_ops b → bench_inv b.
Proof.
  unfold bench_reachable. pose proof bench_init_inv as H0. induction 1 as [|b b1 b2 Hs _ IH]; [done|]. by apply IH, (bench_step_inv b).
Qed.
End lemmas.

(** ** Properties *)

(** C18: the benchmark uses its pool only while it exists. Whenever a worker of any
    node is about to make a call on the pool, node 0 has constructed the pool and
    not destroyed it, the offset of the call is inside its array, and the log
    managers of all nodes have been constructed. This is the work of the two
    calls of [wait] in [main]. For up to 128 nodes, any workload that stays inside
    the arrays, and any interleaving. *)
Theorem bench_pool_alive `{cfg : Config} `{su : Setup} (with_locks : bool) (workload : Z → UserOp) (total_ops : nat)
    (b : bench) (a i : nat) (m : main_thread) (c : bench_call) (calls : list bench_call) :
  1 ≤ Z.of_nat NODE_COUNT ≤ 128 → (∀ j, op_in_bounds (workload j)) → bench_reachable with_locks workload total_ops b →
  be_mains b !! a = Some m → mn_workers m !! i = Some (Working (c :: calls)) →
  be_pool b = Made ∧ call_in_bounds c ∧
  ∀ d, (d < NODE_COUNT)%nat → log_mgrs (meta (sys_shared (be_sys b))) !! d ≠ Some Unmade.
Proof.
  intros Hn Hb Hr Ha Hw. destruct (bench_reachable_inv _ _ _ Hn Hb b Hr) as [I1 I2 I3 I4 I5 I6 I7].
  pose proof (procs_reachable_inv Hn _ I1) as Hi. pose proof (si_procs _ Hi) as Hlen.
  destruct (lookup_lt_is_Some_2 (sys_procs (be_sys b)) a) as [p Hp]; [rewrite Hlen, <- I2; by eapply lookup_lt_Some|].
  destruct (I5 _ _ Ha) as [Hcalls Hwk]. pose proof (I4 _ _ _ Ha Hp) as Hm.
  assert (pr_pc p = Running ∧ pr_left p = 1%nat) as [Hrun Hleft].
  { destruct (mn_pc m) eqn:Em; cbn in Hm; try done; try (by rewrite Hwk in Hw);
      by specialize (Hwk _ (list_elem_of_lookup_2 _ _ _ Hw)). }
  assert (pr_arrived p = 1%nat) as Harr by (pose proof (I3 _ _ Hp) as Hc; unfold counts_ok in Hc; rewrite Hrun in Hc; lia).
  assert (∀ d q, sys_procs (be_sys b) !! d = Some q → (0 < pr_arrived q)%nat ∧ (leaving q ≤ 1)%nat) as Hall.
  { intros d q Hq. pose proof (si_leaving _ Hi a d p q Hp Hq) as H1. pose proof (si_leaving _ Hi d a q p Hq Hp) as H2.
    unfold leaving in H1. rewrite Hrun in H1. lia. }
  split; [|split].
  - destruct (lookup_lt_is_Some_2 (be_mains b) 0%nat) as [z Hz]; [lia|]. rewrite (I7 z Hz).
    destruct (lookup_lt_is_Some_2 (sys_procs (be_sys b)) 0%nat) as [q Hq]; [lia|].
    pose proof (I4 _ _ _ Hz Hq) as Hmz. pose proof (I3 _ _ Hq) as Hcz. destruct (Hall _ _ Hq) as [H1 H2].
    pose proof (leaving_ge q) as H3.
    unfold counts_ok in Hcz.
    destruct (mn_pc z); cbn in Hmz |- *; try done; [by destruct Hmz as (_ & _ & _ & ?); lia|destruct Hmz as [Hpc Hl]; rewrite Hpc in Hcz; lia|destruct Hmz; lia|destruct Hmz; lia].
  - specialize (Hcalls _ _ Hw). by inversion Hcalls.
  - intros d Hd. destruct (lookup_lt_is_Some_2 (sys_procs (be_sys b)) d) as [q Hq]; [by rewrite Hlen|].
    apply (ow_arrived _ _ _ (si_own _ Hi d q Hq)), (Hall d q Hq).
Qed.

(** [main] takes [NODE_COUNT] for the index of a node: it accepts exactly the
    numbers from 0 to [NODE_COUNT], and the process of index [NODE_COUNT] constructs
    its log manager behind the end of the array. *)
Theorem main_accepts_node_count `{cfg : Config} `{su : Setup} {T : Type} (strtol : T → Z * nat) (server_idx_ch : T) (i : Z) (used : nat) :
  strtol server_idx_ch = (i, S used) →
  (main_server_idx strtol (Some server_idx_ch) = ArgIdx i ↔ 0 ≤ i ≤ Z.of_nat NODE_COUNT) ∧
  ∀ ok g, call_step ok NODE_COUNT MakeLog g = (Faulted, g).
Proof.
  intros H. split.
  - unfold main_server_idx, valid_server_idx. rewrite H. cbn.
    destruct (Z.ltb_spec i 0), (Z.ltb_spec (Z.of_nat NODE_COUNT) i); cbn; split; try done; lia.
  - intros ok g. unfold call_step. by rewrite Nat.ltb_irrefl.
Qed.

(** ** Examples *)

Section examples.
#[local] Existing Instance small_config.
#[local] Existing Instance small_setup.

Definition next_main (n a : nat) : list (nat * bench_choice) := replicate n (a, BeMain).
Definition next_proc (n a : nat) : list (nat * bench_choice) := replicate n (a, BeProc (ChNext true)).
(** Both processes start, node 0 makes the pool, both pass the barrier; node 1
    starts a worker, which makes all its calls but one. *)
Definition ex_bench : list (nat * bench_choice) :=
  next_proc 18 0 ++ next_proc 14 1 ++ next_main 3 0 ++ next_proc 3 0 ++ next_main 2 1 ++ next_proc 6 1 ++
  next_main 2 1 ++ replicate 5 (1%nat, BeWorker 0).
Definition bench_plain (x : nat * bench_choice) : bool := match x.2 with BeProc (ChExtent _ _ _) => false | _ => true end.

Lemma bench_exec_steps wl f n xs b b' :
  forallb bench_plain xs = true → bench_exec wl f n xs b = Some b' → rtc (bench_step wl f n) b b'.
Proof.
  revert b. induction xs as [|x xs IH]; intros b Hok Hr; [injection Hr as <-; apply rtc_refl|].
  apply andb_prop in Hok as [Hx Hok]. unfold bench_exec in Hr. cbn [foldl mbind option_bind] in Hr.
  destruct (bench_do wl f n x b) as [b1|] eqn:E.
  - eapply rtc_l; [exists x; split; [|exact E]|by apply IH]. by destruct x as [a [[]| |]].
  - exfalso. clear -Hr. induction xs as [|y xs IH]; [discriminate Hr|]. apply IH, Hr.
Qed.

Lemma bench_pool_alive_witness :
  ∃ b m c, bench_reachable true seq_op 4 b ∧ be_mains b !! 1%nat = Some m ∧ mn_workers m !! 0%nat = Some (Working [c]) ∧
    be_pool b = Made ∧ call_in_bounds c.
Proof.
  destruct (bench_exec true seq_op 4 ex_bench bench_init) as [b|] eqn:E; [|vm_compute in E; discriminate E].
  assert (match be_mains b !! 1%nat with Some (mkMain _ [Working [_]]) => True | _ => False end) as Hm
    by (vm_compute in E; injection E as <-; exact I).
  destruct (be_mains b !! 1%nat) as [[pc [|[|[|c []]|] []]]|] eqn:Em; try destruct Hm.
  assert (bench_reachable true seq_op 4 b) as Hr by (apply (bench_exec_steps _ _ _ ex_bench); [reflexivity|exact E]).
  exists b, (mkMain pc [Working [c]]), c. split; [exact Hr|]. split; [exact Em|]. split; [reflexivity|].
  destruct (bench_pool_alive true seq_op 4 b 1 0 (mkMain pc [Working [c]]) c []) as (H1 & H2 & _);
    [cbn; lia|apply seq_op_bounds|exact Hr|exact Em|reflexivity|]. split; [exact H1|exact H2].
Defined.

Lemma main_accepts_node_count_witness :
  main_server_idx (λ n : nat, (Z.of_nat n, 1%nat)) (Some 2%nat) = ArgIdx 2.
Proof. apply (main_accepts_node_count (λ n : nat, (Z.of_nat n, 1%nat)) 2%nat 2 0); [reflexivity|vm_compute; split; discriminate]. Defined.
End examples.
