(* ===== verification/CxlObjects.v ===== *)
(** CxlObjects: where the synchronisation objects of [include/cxlSync.hpp] live. The
    allocation functions of [src/cxlMalloc.cpp], the allocator template of
    [include/cxlMalloc.hpp], the constructors and destructors of the classes, and
    the operations of [CXLRelaxedAtomic].

    mimalloc and jemalloc are the class [AllocLib]: blocks lie in the region of
    their arena, do not overlap, and are released by their address; a call that does
    not rule it out may be served from the cache of the thread, with a block of
    whatever arena it holds. Which call with which arena, alignment and flags the
    program makes is in the definitions. *)
From S2P Require Import Prelude Config VectorClock ThreadOps Runtime ExtentPool CxlMalloc CxlSync AtomicOps.
#[local] Open Scope word_scope.

(** ** Definitions: the allocation functions *)

Inductive arena := HcArena | NhcArena.
#[export] Instance arena_eq_dec : EqDecision arena.
Proof. solve_decision. Defined.

(** The flags of [je_mallocx]: [MALLOCX_ARENA], [MALLOCX_ALIGN], [MALLOCX_TCACHE_NONE]. *)
Record je_flags := mkFlags { fl_arena : arena; fl_align : Z; fl_tcache_none : bool }.
Inductive alloc_call :=
  | MiHeapMalloc (heap : arena) (size : Z) | MiHeapMallocAligned (heap : arena) (size alignment : Z) | MiFree (ptr : Z)
  | JeMallocx (size : Z) (flags : je_flags) | JeDallocx (ptr : Z) (flags : je_flags).

(** The build: [USE_GLOBAL_MIMALLOC] or jemalloc. *)
Section wrappers.
Context (mimalloc : bool).
Implicit Types (ptr size : Z).
Definition cxlhc_malloc size : alloc_call :=
  if mimalloc then MiHeapMalloc HcArena size else JeMallocx size (mkFlags HcArena 1 false).
Definition cxlhc_free ptr : alloc_call :=
  if mimalloc then MiFree ptr else JeDallocx ptr (mkFlags HcArena 1 false).
Definition cxlnhc_malloc size : alloc_call :=
  if mimalloc then MiHeapMalloc NhcArena size else JeMallocx size (mkFlags NhcArena 1 true).
Definition cxlnhc_cl_aligned_malloc size : alloc_call :=
  if mimalloc then MiHeapMallocAligned NhcArena size CACHE_LINE_SIZE
  else JeMallocx size (mkFlags NhcArena CACHE_LINE_SIZE true).
Definition cxlnhc_free ptr : alloc_call :=
  if mimalloc then MiFree ptr else JeDallocx ptr (mkFlags NhcArena 1 true).
End wrappers.

(** ** The library *)

Definition block_apart (p size q size' : Z) : Prop := p + size ≤ q ∨ q + size' ≤ p.

(** The regions it was given, its state, the blocks handed out and not released with
    their size, which may exceed the request, and the arenas of the blocks that the
    cache of a thread holds. The boolean is whether the cache may be used: a block
    from it has the arena it had when it was put there, by a release or with other
    blocks of the arena of an allocation. *)
Class AllocLib (H : Type) := {
  lib_region : arena → region;
  lib_ok : H → Prop;
  lib_live : H → gmap Z (arena * Z);
  lib_cached : H → nat → arena → Prop;
  lib_alloc : nat → arena → Z → Z → bool → H → option Z * H;
  lib_free : nat → Z → bool → H → H;
  lib_live_ok h p ar size :
    lib_ok h → lib_live h !! p = Some (ar, size) →
    0 < size ∧ rg_start (lib_region ar) ≤ p ∧ p + size ≤ rg_start (lib_region ar) + rg_size (lib_region ar);
  lib_live_apart h p q ar ar' size size' :
    lib_ok h → lib_live h !! p = Some (ar, size) → lib_live h !! q = Some (ar', size') → p ≠ q → block_apart p size q size';
  lib_alloc_some t ar size al tcache h p h' :
    lib_ok h → 0 < size → 0 < al → lib_alloc t ar size al tcache h = (Some p, h') →
    lib_ok h' ∧ lib_live h !! p = None ∧ (al | p) ∧
    ∃ ar' size', lib_live h' = <[p := (ar', size')]> (lib_live h) ∧ size ≤ size' ∧
      (ar' = ar ∨ tcache = true ∧ lib_cached h t ar');
  lib_alloc_none t ar size al tcache h h' :
    lib_ok h → lib_alloc t ar size al tcache h = (None, h') → lib_ok h' ∧ lib_live h' = lib_live h;
  lib_alloc_cached t ar size al tcache h r h' u a :
    lib_ok h → lib_alloc t ar size al tcache h = (r, h') → lib_cached h' u a →
    lib_cached h u a ∨ tcache = true ∧ u = t ∧ a = ar;
  lib_free_live t p tcache b h :
    lib_ok h → lib_live h !! p = Some b →
    lib_ok (lib_free t p tcache h) ∧ lib_live (lib_free t p tcache h) = delete p (lib_live h);
  lib_free_cached t p tcache b h u a :
    lib_ok h → lib_live h !! p = Some b → lib_cached (lib_free t p tcache h) u a →
    lib_cached h u a ∨ tcache = true ∧ u = t ∧ a = b.1;
}.

(** A call by thread [t]. *)
Definition lib_do {H} `{L : !AllocLib H} (t : nat) (c : alloc_call) (h : H) : option Z * H :=
  match c with
  | MiHeapMalloc heap size => lib_alloc t heap size 1 false h
  | MiHeapMallocAligned heap size alignment => lib_alloc t heap size alignment false h
  | JeMallocx size flags => lib_alloc t (fl_arena flags) size (fl_align flags) (negb (fl_tcache_none flags)) h
  | MiFree ptr => (None, lib_free t ptr false h)
  | JeDallocx ptr flags => (None, lib_free t ptr (negb (fl_tcache_none flags)) h)
  end.

(** The calls of the program, by any thread; a block goes back through the function
    of its kind. *)
Inductive program_call := HcMalloc (size : Z) | NhcMalloc (size : Z) | NhcAlignedMalloc (size : Z) | HcFree (ptr : Z) | NhcFree (ptr : Z).
Definition program_alloc_call (mimalloc : bool) (c : program_call) : alloc_call :=
  match c with
  | HcMalloc size => cxlhc_malloc mimalloc size
  | NhcMalloc size => cxlnhc_malloc mimalloc size
  | NhcAlignedMalloc size => cxlnhc_cl_aligned_malloc mimalloc size
  | HcFree ptr => cxlhc_free mimalloc ptr
  | NhcFree ptr => cxlnhc_free mimalloc ptr
  end.
Definition program_call_ok {H} `{L : !AllocLib H} (c : program_call) (h : H) : Prop :=
  match c with
  | HcMalloc size | NhcMalloc size | NhcAlignedMalloc size => 0 < size
  | HcFree ptr => ∃ size, lib_live h !! ptr = Some (HcArena, size)
  | NhcFree ptr => ∃ size, lib_live h !! ptr = Some (NhcArena, size)
  end.
Inductive heap_step {H} `{L : !AllocLib H} (mimalloc : bool) : H → H → Prop :=
  | hs_call t c h r h' :
      program_call_ok c h → lib_do t (program_alloc_call mimalloc c) h = (r, h') → heap_step mimalloc h h'.

(** The caches hold blocks of the coherent arena only: so after [thread.tcache.flush]
    in [cxl_alloc_thread_init], which leaves them empty. *)
Definition caches_hc {H} `{L : !AllocLib H} (h : H) : Prop := ∀ t a, lib_cached h t a → a = HcArena.

(** ** Definitions: the objects *)

(** [CXLRelaxedAtomic], [CXLAtomic], [CXLRelaxedMutex], [CXLMutex], [CXLSharedMutex]:
    each has one member [inner], a pointer to its [InnerData]. *)
Inductive cxl_class := RelaxedAtomic | Atomic | RelaxedMutex | PlainMutex | SharedMutexClass.
#[export] Instance cxl_class_eq_dec : EqDecision cxl_class.
Proof. solve_decision. Defined.

Section objects.
Context {H : Type} `{L : !AllocLib H} (mimalloc : bool) (sizeof_InnerData : cxl_class → Z).

(** The objects with their [inner], the addresses where an [InnerData] lives, and
    the state of the library. An action without a next state is undefined. *)
Record objects := mkObjects { ob_inner : gmap nat (cxl_class * Z); ob_made : gset Z; ob_heap : H }.
Implicit Types (s : objects) (t id : nat) (k : cxl_class) (p : Z).

(** [inner(new(ptr) InnerData())] *)
Definition place id k (ptr : option Z) s : option objects :=
  p ← ptr; Some (mkObjects (<[id := (k, p)]> (ob_inner s)) ({[p]} ∪ ob_made s) (ob_heap s)).
(** The constructor that allocates, and the one that is given memory. *)
Definition construct t id k s : option objects :=
  let '(ptr, h) := lib_do t (cxlhc_malloc mimalloc (sizeof_InnerData k)) (ob_heap s) in
  place id k ptr (mkObjects (ob_inner s) (ob_made s) h).
Definition construct_at id k p s : option objects := place id k (Some p) s.
(** The destructor: [inner->~InnerData(); cxlhc_free(inner, sizeof(InnerData));] *)
Definition destruct_object t id s : option objects :=
  '(k, p) ← ob_inner s !! id;
  if decide (p ∈ ob_made s) then
    let s := mkObjects (delete id (ob_inner s)) (ob_made s ∖ {[p]}) (ob_heap s) in
    match lib_live (ob_heap s) !! p with
    | Some _ => Some (mkObjects (ob_inner s) (ob_made s) (lib_do t (cxlhc_free mimalloc p) (ob_heap s)).2)
    | None => None
    end
  else None.

(** Memory for the constructor that is given some, apart from the other objects:
    a block of [cxlhc_malloc] that is handed over to the object; or memory that is
    not a block of the library, outside its regions or within a block, behind its
    start, that the program keeps. *)
Context (kept : gmap Z (arena * Z)).
Definition handed_over k p s : Prop :=
  kept !! p = None ∧ ∃ size, lib_live (ob_heap s) !! p = Some (HcArena, size) ∧ sizeof_InnerData k ≤ size.
Definition foreign k p : Prop :=
  (∀ ar, block_apart p (sizeof_InnerData k) (rg_start (lib_region (H := H) ar)) (rg_size (lib_region (H := H) ar))) ∨
  ∃ q ar size, kept !! q = Some (ar, size) ∧ q < p ∧ p + sizeof_InnerData k ≤ q + size.
Definition usable k p s : Prop :=
  (handed_over k p s ∨ foreign k p) ∧
  ∀ id' k' p', ob_inner s !! id' = Some (k', p') → block_apart p (sizeof_InnerData k) p' (sizeof_InnerData k').

Inductive object_step : objects → objects → Prop :=
  | os_construct t id k s s' : ob_inner s !! id = None → construct t id k s = Some s' → object_step s s'
  | os_construct_at id k p s s' : ob_inner s !! id = None → usable k p s → construct_at id k p s = Some s' → object_step s s'
  | os_destruct t id s s' : destruct_object t id s = Some s' → object_step s s'.

(** [CXLHCAllocator<T>]: [allocate] throws [std::bad_alloc] on null ([None]). *)
Definition hc_allocate t (sizeof_T n : Z) (h : H) : option Z * H := lib_do t (cxlhc_malloc mimalloc (wrap64 (n * sizeof_T))) h.
Definition hc_deallocate t p (h : H) : H := (lib_do t (cxlhc_free mimalloc p) h).2.
End objects.
Arguments mkObjects {H}.
Arguments ob_inner {H}.
Arguments ob_made {H}.
Arguments ob_heap {H}.

(** ** Definitions: the regions of the arenas *)

(** What [rac_init] gives to the library of the build, for each arena. *)
Definition arena_regions (mimalloc : bool) (mi_cxl_meta_region_size : Z → Z) (mi_manage_os_memory : region → region → bool)
    (sizeof_GlobalMeta hc_range nhc_range root_size : Z) : option (arena → region) :=
  if mimalloc then
    l ← rac_init_layout mi_cxl_meta_region_size mi_manage_os_memory sizeof_GlobalMeta hc_range nhc_range root_size;
    Some (λ ar, match ar with HcArena => hc_data (lay_arenas l) | NhcArena => nhc_data (lay_arenas l) end)
  else
    '(hc, nhc) ← alloc_cxl_memory hc_range nhc_range;
    let cxl_hc_off := sizeof_GlobalMeta +w root_size in
    if cxl_hc_off <? hc_range then
      let meta := process_init_pools (rg_start hc +w cxl_hc_off) (hc_range -w cxl_hc_off) (rg_start nhc) (rg_size nhc)
                    true (mkMeta (mkPool 0 0, 0) (mkPool 0 0, 0)) in
      let pool_region (pool : ExtentPool * Z) := mkRegion (base_ pool.1) (size_ pool.1) in
      Some (λ ar, pool_region match ar with HcArena => cxlhc_pool meta | NhcArena => cxlnhc_pool meta end)
    else None.

(** ** Definitions: [CXLRelaxedAtomic] *)

(** The operations on the value: what they return and what they leave. The type of
    the value has [bits] bits. *)
Definition relaxed_store (desired v : Z) : Z := desired.
Definition relaxed_load (v : Z) : Z := v.
Definition relaxed_fetch_add (bits arg v : Z) : Z * Z := (v, add_data bits arg v).
Definition relaxed_exchange (arg v : Z) : Z * Z := (v, arg).
(** [compare_exchange_strong] returns a [T]; [expected] is a reference. *)
Definition relaxed_compare_exchange (expected desired v : Z) : Z * Z * Z :=
  if v =? expected then (1, expected, desired) else (0, v, v).

(** ** Lemmas: the allocation functions *)

Section alloc_facts.
Context {H : Type} `{L : !AllocLib H} (mimalloc : bool).
Implicit Types (h : H) (t : nat) (size p : Z) (ar : arena).

Lemma cxlhc_malloc_do t size h : lib_do t (cxlhc_malloc mimalloc size) h = lib_alloc t HcArena size 1 (negb mimalloc) h.
Proof. by destruct mimalloc. Qed.
Lemma cxlhc_free_do t p h : lib_do t (cxlhc_free mimalloc p) h = (None, lib_free t p (negb mimalloc) h).
Proof. by destruct mimalloc. Qed.
Lemma cxlnhc_malloc_do t size h : lib_do t (cxlnhc_malloc mimalloc size) h = lib_alloc t NhcArena size 1 false h.
Proof. by destruct mimalloc. Qed.
Lemma cxlnhc_aligned_do t size h :
  lib_do t (cxlnhc_cl_aligned_malloc mimalloc size) h = lib_alloc t NhcArena size CACHE_LINE_SIZE false h.
Proof. by destruct mimalloc. Qed.
Lemma cxlnhc_free_do t p h : lib_do t (cxlnhc_free mimalloc p) h = (None, lib_free t p false h).
Proof. by destruct mimalloc. Qed.

Lemma block_apart_sym p size q size' : block_apart p size q size' ↔ block_apart q size' p size.
Proof. unfold block_apart. tauto. Qed.

(** An allocation that cannot meet a block of the other arena. *)
Lemma lib_alloc_arena t ar size al tcache h p h' :
  lib_ok h → 0 < size → 0 < al → (tcache = true → ∀ a, lib_cached h t a → a = ar) →
  lib_alloc t ar size al tcache h = (Some p, h') →
  lib_ok h' ∧ lib_live h !! p = None ∧ (al | p) ∧
  ∃ size', lib_live h' = <[p := (ar, size')]> (lib_live h) ∧ size ≤ size'.
Proof.
  intros Hok Hs Ha Hc E. destruct (lib_alloc_some _ _ _ _ _ _ _ _ Hok Hs Ha E) as (? & ? & ? & ar' & size' & Hl & ? & Har).
  assert (ar' = ar) as -> by (destruct Har as [?|[? ?]]; [done|by apply Hc]). split_and!; try done. by exists size'.
Qed.

(** The block lies in the region of its arena. *)
Lemma lib_alloc_in_region t ar size al tcache h p h' a :
  lib_ok h → 0 < size → 0 < al → (tcache = true → ∀ a, lib_cached h t a → a = ar) →
  lib_alloc t ar size al tcache h = (Some p, h') → p ≤ a < p + size →
  in_region (lib_region (H := H) ar) a ∧ (al | p).
Proof.
  intros Hok Hs Ha Hc E Hin. destruct (lib_alloc_arena _ _ _ _ _ _ _ _ Hok Hs Ha Hc E) as (Hok' & _ & Hd & size' & Hl & Hsz).
  destruct (lib_live_ok h' p ar size' Hok') as (_ & ? & ?); [by rewrite Hl, lookup_insert_eq|].
  unfold in_region. split; [lia|done].
Qed.

Lemma alloc_caches_hc t ar size al tcache h r h' :
  lib_ok h → caches_hc h → tcache = false ∨ ar = HcArena → lib_alloc t ar size al tcache h = (r, h') → caches_hc h'.
Proof.
  intros Hok Hc Htc E u a Hu. destruct (lib_alloc_cached _ _ _ _ _ _ _ _ _ _ Hok E Hu) as [?|(? & _ & ->)]; [by eapply Hc|].
  by destruct Htc; simplify_eq.
Qed.
Lemma free_caches_hc t p size tcache h :
  lib_ok h → lib_live h !! p = Some (HcArena, size) → caches_hc h → caches_hc (lib_free t p tcache h).
Proof. intros Hok Hp Hc u a Hu. destruct (lib_free_cached _ _ _ _ _ _ _ Hok Hp Hu) as [?|(_ & _ & ->)]; [by eapply Hc|done]. Qed.

(** The calls of the program keep the non-coherent blocks out of the caches. *)
Lemma heap_step_ok h h' : heap_step mimalloc h h' → lib_ok h ∧ caches_hc h → lib_ok h' ∧ caches_hc h'.
Proof.
  intros [t c h1 r h2 Hc E] [Hok Hh].
  assert (∀ ar size al tcache, 0 < size → 0 < al → tcache = false ∨ ar = HcArena → lib_alloc t ar size al tcache h1 = (r, h2) →
    lib_ok h2 ∧ caches_hc h2) as Halloc.
  { intros ar size al tcache Hs Ha Htc E'. split; [|by eapply alloc_caches_hc].
    destruct r as [p|]; [by destruct (lib_alloc_some _ _ _ _ _ _ _ _ Hok Hs Ha E')|by destruct (lib_alloc_none _ _ _ _ _ _ _ Hok E')]. }
  destruct c as [size|size|size|p|p]; cbn [program_alloc_call program_call_ok] in *.
  - rewrite cxlhc_malloc_do in E. apply (Halloc HcArena size 1 (negb mimalloc)); [exact Hc|lia|by right|exact E].
  - rewrite cxlnhc_malloc_do in E. apply (Halloc NhcArena size 1 false); [exact Hc|lia|by left|exact E].
  - rewrite cxlnhc_aligned_do in E. apply (Halloc NhcArena size CACHE_LINE_SIZE false); [exact Hc|unfold CACHE_LINE_SIZE; lia|by left|exact E].
  - rewrite cxlhc_free_do in E. injection E as _ <-. destruct Hc as [size Hp].
    split; [by destruct (lib_free_live t p (negb mimalloc) _ _ Hok Hp)|by eapply free_caches_hc].
  - rewrite cxlnhc_free_do in E. injection E as _ <-. destruct Hc as [size Hp].
    split; [by destruct (lib_free_live t p false _ _ Hok Hp)|].
    intros u a Hu. destruct (lib_free_cached _ _ _ _ _ _ _ Hok Hp Hu) as [?|[? _]]; [by eapply Hh|done].
Qed.
Lemma heap_steps_ok h h' : rtc (heap_step mimalloc) h h' → lib_ok h ∧ caches_hc h → lib_ok h' ∧ caches_hc h'.
Proof. induction 1 as [|h h1 h' Hs _ IH]; [done|]. intros Hh. by eapply IH, heap_step_ok. Qed.
End alloc_facts.

(** ** Lemmas: the objects *)

Section object_facts.
Context {H : Type} `{L : !AllocLib H} (mimalloc : bool) (sizeof_InnerData : cxl_class → Z) (kept : gmap Z (arena * Z)).
Hypothesis sizeof_pos : ∀ k, 0 < sizeof_InnerData k.
Implicit Types (s : objects (H := H)) (t id : nat) (k : cxl_class) (p : Z) (start : gmap Z (arena * Z)).
#[local] Abbreviation sizeof := sizeof_InnerData.
#[local] Abbreviation has_block := (handed_over sizeof_InnerData kept).
#[local] Abbreviation is_foreign := (foreign (H := H) sizeof_InnerData kept).

(** The objects are in blocks of their own or in foreign memory; what the library
    has handed out is what it had at the start and the blocks of objects. *)
Record owned start s : Prop := {
  ow_ok : lib_ok (ob_heap s);
  ow_caches : caches_hc (ob_heap s);
  ow_inner id k p : ob_inner s !! id = Some (k, p) → p ∈ ob_made s ∧ (has_block k p s ∨ is_foreign k p);
  ow_live p b : lib_live (ob_heap s) !! p = Some b → start !! p = Some b ∨ ∃ id k, ob_inner s !! id = Some (k, p);
  ow_kept : kept ⊆ lib_live (ob_heap s);
  ow_apart id id' k k' p p' : id ≠ id' → ob_inner s !! id = Some (k, p) → ob_inner s !! id' = Some (k', p') →
    block_apart p (sizeof k) p' (sizeof k');
}.

Lemma owned_start s :
  lib_ok (ob_heap s) → caches_hc (ob_heap s) → ob_inner s = ∅ → kept ⊆ lib_live (ob_heap s) → owned (lib_live (ob_heap s)) s.
Proof. intros Hok Hc He Hk. split; try done; rewrite ?He; intros; [by simplify_map_eq|by left|by simplify_map_eq]. Qed.

(** Foreign memory is not the start of a block. *)
Lemma foreign_not_live h k p : lib_ok h → kept ⊆ lib_live h → is_foreign k p → lib_live h !! p = None.
Proof.
  intros Hok Hk Hf. destruct (lib_live h !! p) as [[ar size]|] eqn:E; [|done]. pose proof (sizeof_pos k).
  destruct (lib_live_ok _ _ _ _ Hok E) as (? & ? & ?). destruct Hf as [Hf|(q & ar' & size' & Hq & ? & ?)].
  - specialize (Hf ar). unfold block_apart in Hf. lia.
  - eapply lookup_weaken in Hq; [|exact Hk]. pose proof (lib_live_apart _ _ _ _ _ _ _ Hok E Hq ltac:(lia)) as Hap.
    unfold block_apart in Hap. lia.
Qed.
Lemma block_in_region k p s : lib_ok (ob_heap s) → has_block k p s →
  rg_start (lib_region (H := H) HcArena) ≤ p ∧
  p + sizeof k ≤ rg_start (lib_region (H := H) HcArena) + rg_size (lib_region (H := H) HcArena).
Proof. intros Hok (_ & size & Hl & Hs). destruct (lib_live_ok _ _ _ _ Hok Hl) as (? & ? & ?). lia. Qed.

(** The block of an object is apart from that of any other and from foreign memory. *)
Lemma block_apart_object s k p k' p' :
  lib_ok (ob_heap s) → kept ⊆ lib_live (ob_heap s) → has_block k p s → has_block k' p' s ∨ is_foreign k' p' → p ≠ p' →
  block_apart p (sizeof k) p' (sizeof k').
Proof.
  intros Hok Hk Hb Hb' Hne. pose proof (block_in_region _ _ _ Hok Hb) as Hr. destruct Hb as (Hpk & size & Hl & Hs). unfold block_apart.
  destruct Hb' as [(_ & size' & Hl' & Hs')|[Hf|(q & ar & size' & Hq & ? & ?)]].
  - pose proof (lib_live_apart _ _ _ _ _ _ _ Hok Hl Hl' Hne) as Hap. unfold block_apart in Hap. lia.
  - specialize (Hf HcArena). unfold block_apart in Hf. lia.
  - assert (p ≠ q) as Hpq by congruence. eapply lookup_weaken in Hq; [|exact Hk].
    pose proof (lib_live_apart _ _ _ _ _ _ _ Hok Hl Hq Hpq) as Hap. unfold block_apart in Hap. lia.
Qed.

(** A new object. *)
Lemma owned_place start id k p s s1 s' :
  owned start s → ob_inner s !! id = None → ob_inner s1 = ob_inner s → ob_made s1 = ob_made s →
  lib_ok (ob_heap s1) → caches_hc (ob_heap s1) → lib_live (ob_heap s) ⊆ lib_live (ob_heap s1) →
  (∀ q b, lib_live (ob_heap s1) !! q = Some b → q = p ∨ lib_live (ob_heap s) !! q = Some b) →
  has_block k p s1 ∨ is_foreign k p →
  (∀ id' k' p', ob_inner s !! id' = Some (k', p') → block_apart p (sizeof k) p' (sizeof k')) →
  place id k (Some p) s1 = Some s' → owned start s'.
Proof.
  intros Ho Hid Hi Hm Hok Hc Hsub Hnew Hb Hap [= <-]. split; cbn [ob_inner ob_made ob_heap]; rewrite ?Hi, ?Hm; [done|done| | | |].
  - intros id' k' p' [[<- [= <- <-]]|[_ Hp']]%lookup_insert_Some.
    + split; [by apply elem_of_union_l, elem_of_singleton_2|exact Hb].
    + destruct (ow_inner _ _ Ho _ _ _ Hp') as [? [(? & size & Hl & ?)|?]]; (split; [by apply elem_of_union_r|]); [left|by right].
      split; [done|]. exists size. split; [|done]. by eapply lookup_weaken.
  - intros q b Hq. destruct (decide (q = p)) as [->|Hne]; [right; exists id, k; by rewrite lookup_insert_eq|].
    destruct (Hnew _ _ Hq) as [?|Hq']; [done|].
    destruct (ow_live _ _ Ho _ _ Hq') as [?|(id' & k' & ?)]; [by left|right]. exists id', k'. rewrite lookup_insert_ne by congruence. done.
  - etransitivity; [apply (ow_kept _ _ Ho)|done].
  - intros i i' k1 k2 p1 p2 Hne [[<- [= <- <-]]|[_ H1]]%lookup_insert_Some [[<- [= <- <-]]|[_ H2]]%lookup_insert_Some.
    + done.
    + by apply (Hap i').
    + apply block_apart_sym. by apply (Hap i).
    + by eapply (ow_apart _ _ Ho i i').
Qed.

Lemma owned_construct start t id k s s' :
  owned start s → ob_inner s !! id = None → construct mimalloc sizeof t id k s = Some s' → owned start s'.
Proof.
  intros Ho Hid. unfold construct. rewrite cxlhc_malloc_do.
  destruct (lib_alloc t HcArena (sizeof k) 1 (negb mimalloc) (ob_heap s)) as [[p|] h] eqn:E; [|done].
  pose proof (ow_ok _ _ Ho) as Hok. pose proof (ow_caches _ _ Ho) as Hc.
  destruct (lib_alloc_arena _ _ _ _ _ _ _ _ Hok (sizeof_pos k) Z.lt_0_1 (λ _, Hc t) E) as (Hok' & Hfr & _ & size & Hl & Hs).
  assert (lib_live (ob_heap s) ⊆ lib_live h) as Hsub by (rewrite Hl; by apply insert_subseteq).
  set (s1 := mkObjects _ _ _). assert (has_block k p s1) as Hb.
  { split; [|exists size; cbn; by rewrite Hl, lookup_insert_eq]. destruct (kept !! p) eqn:Ek; [|done].
    eapply lookup_weaken in Ek; [|apply (ow_kept _ _ Ho)]. congruence. }
  apply (owned_place _ _ _ _ s s1); try done.
  - by eapply (alloc_caches_hc t HcArena); [exact Hok|exact Hc|right|].
  - intros q b. cbn. rewrite Hl. intros [[<- _]|[_ ?]]%lookup_insert_Some; auto.
  - by left.
  - intros id' k' p' Hp'. destruct (ow_inner _ _ Ho _ _ _ Hp') as [_ Hb']. apply (block_apart_object s1); [done| |done| |].
    + etransitivity; [apply (ow_kept _ _ Ho)|done].
    + destruct Hb' as [(? & sz & ? & ?)|?]; [left|by right]. split; [done|]. exists sz. split; [by eapply lookup_weaken|done].
    + intros <-. destruct Hb' as [(_ & sz & ? & _)|Hf]; [congruence|].
      pose proof (foreign_not_live h k' p Hok' ltac:(by etransitivity; [apply (ow_kept _ _ Ho)|]) Hf) as Hn.
      rewrite Hl, lookup_insert_eq in Hn. done.
Qed.

(** The block of a new object is not foreign memory. *)
Lemma construct_not_foreign start t id k p s s' :
  owned start s → construct mimalloc sizeof t id k s = Some s' → ob_inner s' !! id = Some (k, p) → ¬ is_foreign k p.
Proof.
  intros Ho E Hp Hf. unfold construct in E. rewrite cxlhc_malloc_do in E.
  destruct (lib_alloc t HcArena (sizeof k) 1 (negb mimalloc) (ob_heap s)) as [[q|] h] eqn:El; [|done].
  injection E as <-. cbn in Hp. rewrite lookup_insert_eq in Hp. injection Hp as ->.
  destruct (lib_alloc_some _ _ _ _ _ _ _ _ (ow_ok _ _ Ho) (sizeof_pos k) Z.lt_0_1 El) as (Hok' & Hfr & _ & ar & size & Hl & _).
  assert (lib_live h !! p = None) as Hn; [|by rewrite Hl, lookup_insert_eq in Hn].
  apply (foreign_not_live h k p Hok'); [|done]. rewrite Hl. etransitivity; [apply (ow_kept _ _ Ho)|by apply insert_subseteq].
Qed.

Lemma owned_construct_at start id k p s s' :
  owned start s → ob_inner s !! id = None → usable sizeof kept k p s → construct_at id k p s = Some s' → owned start s'.
Proof.
  intros Ho Hid [Hb Hap]. apply (owned_place _ _ _ _ s s); try done; [apply (ow_ok _ _ Ho)|apply (ow_caches _ _ Ho)|]. by right.
Qed.

Lemma owned_destructs start t id k p s :
  owned start s → ob_inner s !! id = Some (k, p) → has_block k p s →
  ∃ h, destruct_object mimalloc t id s = Some (mkObjects (delete id (ob_inner s)) (ob_made s ∖ {[p]}) h) ∧
    lib_ok h ∧ caches_hc h ∧ lib_live h = delete p (lib_live (ob_heap s)).
Proof.
  intros Ho Hid (_ & size & Hl & _). destruct (ow_inner _ _ Ho _ _ _ Hid) as [Hm _]. unfold destruct_object.
  rewrite Hid. cbn. rewrite decide_True by done. rewrite Hl, cxlhc_free_do. eexists. split; [done|].
  pose proof (free_caches_hc t p size (negb mimalloc) _ (ow_ok _ _ Ho) Hl (ow_caches _ _ Ho)) as Hc.
  apply (lib_free_live t _ (negb mimalloc) _ _ (ow_ok _ _ Ho)) in Hl as [??]. done.
Qed.
Lemma foreign_no_destruct start t id k p s :
  owned start s → ob_inner s !! id = Some (k, p) → is_foreign k p → destruct_object mimalloc t id s = None.
Proof.
  intros Ho Hid Hf. unfold destruct_object. rewrite Hid. cbn. case_decide; [|done].
  by rewrite (foreign_not_live _ _ _ (ow_ok _ _ Ho) (ow_kept _ _ Ho) Hf).
Qed.

Lemma owned_destruct start t id s s' : owned start s → destruct_object mimalloc t id s = Some s' → owned start s'.
Proof.
  intros Ho E. destruct (ob_inner s !! id) as [[k p]|] eqn:Hid; [|unfold destruct_object in E; by rewrite Hid in E].
  destruct (ow_inner _ _ Ho _ _ _ Hid) as [_ [Hb|Hf]]; [|by rewrite (foreign_no_destruct _ _ _ _ _ _ Ho Hid Hf) in E].
  destruct (owned_destructs _ t _ _ _ _ Ho Hid Hb) as (h & E' & Hok & Hc & Hl). rewrite E in E'. injection E' as ->.
  assert (∀ id' k' p', delete id (ob_inner s) !! id' = Some (k', p') → id ≠ id' ∧ ob_inner s !! id' = Some (k', p') ∧ p ≠ p') as Hother.
  { intros id' k' p' [Hne Hp']%lookup_delete_Some. split_and!; [done|done|]. pose proof (ow_apart _ _ Ho _ _ _ _ _ _ Hne Hid Hp') as Hap.
    pose proof (sizeof_pos k). pose proof (sizeof_pos k'). unfold block_apart in Hap. lia. }
  split; cbn [ob_inner ob_made ob_heap]; rewrite ?Hl; [done|done| | | |].
  - intros id' k' p' (_ & Hp' & Hne)%Hother. destruct (ow_inner _ _ Ho _ _ _ Hp') as [Hm Hb'].
    split; [apply elem_of_difference; by rewrite elem_of_singleton|]. destruct Hb' as [(Hk & size & Hl' & ?)|?]; [left|by right].
    split; [done|]. exists size. cbn. by rewrite Hl, lookup_delete_ne.
  - intros p' b [Hne [?|(id' & k' & Hp')]%(ow_live _ _ Ho)]%lookup_delete_Some; [by left|right].
    exists id', k'. rewrite lookup_delete_ne; [done|]. congruence.
  - apply map_subseteq_spec. intros q b Hq. destruct Hb as [Hk _].
    rewrite lookup_delete_ne by congruence. eapply lookup_weaken; [exact Hq|apply (ow_kept _ _ Ho)].
  - intros i i' k1 k2 p1 p2 Hne (_ & H1 & _)%Hother (_ & H2 & _)%Hother. by eapply (ow_apart _ _ Ho i i').
Qed.

Lemma owned_steps start s s' : owned start s → rtc (object_step mimalloc sizeof kept) s s' → owned start s'.
Proof.
  intros Ho Hs. induction Hs as [|s s1 s' Hst _ IH]; [done|]. apply IH. destruct Hst as [t id k s s1 Hid E|id k p s s1 Hid Hu E|t id s s1 E].
  - by eapply owned_construct.
  - by eapply owned_construct_at.
  - by eapply owned_destruct.
Qed.
End object_facts.

(** ** Lemmas: the regions *)

(** The coherent arena is below the non-coherent mapping, the other one is in it. *)
Lemma arena_regions_spec mimalloc f mng sizeof_GlobalMeta hc_range nhc_range root_size (reg : arena → region) :
  (∀ n, 0 ≤ f n < 2 ^ 63) → 0 ≤ sizeof_GlobalMeta < 2 ^ 32 → 0 ≤ root_size < 2 ^ 32 →
  0 ≤ hc_range < 2 ^ 63 → (mimalloc = false → sizeof_GlobalMeta + root_size + CACHE_LINE_SIZE ≤ hc_range) →
  arena_regions mimalloc f mng sizeof_GlobalMeta hc_range nhc_range root_size = Some reg →
  rg_start (reg HcArena) + rg_size (reg HcArena) ≤ CXL_NHC_START ∧ CXL_NHC_START ≤ rg_start (reg NhcArena).
Proof.
  intros Hf Hg Hroot Hhc Hfits. unfold arena_regions, rac_init_layout, alloc_cxl_memory, CACHE_LINE_SIZE in *.
  change CXL_HC_START with 140737488355328. change CXL_NHC_START with 211106232532992.
  change (2 ^ 32) with 4294967296 in *. change (2 ^ 63) with 9223372036854775808 in *.
  assert (2 ^ 64 = 18446744073709551616) as H64 by done.
  rewrite (add64_small 140737488355328) by lia.
  destruct (Z.ltb_spec (140737488355328 + hc_range) 211106232532992); [|by destruct mimalloc].
  cbn [mbind option_bind]. rewrite (add64_small sizeof_GlobalMeta) by lia.
  destruct (Z.ltb_spec (sizeof_GlobalMeta + root_size) hc_range); [|by destruct mimalloc]. cbn [rg_start rg_size].
  rewrite !add64_small, sub64_small by lia. destruct mimalloc; [clear Hfits|specialize (Hfits eq_refl)].
  - destruct (process_init_mimalloc f mng _ _ _ _) as [a|] eqn:E; [|done]. cbn. intros [= <-].
    apply process_init_mimalloc_spec in E as (H1 & H2 & H3 & H4 & H5 & H6 & H7 & H8); [|done|lia..].
    rewrite H5. cbn. lia.
  - intros [= <-]. unfold process_init_pools. set (buf := 140737488355328 + _).
    pose proof (padding_spec buf) as [Hp _]. destruct (Z.eqb_spec (padding buf) 0); cbn; [lia|].
    rewrite add64_small, sub64_small by lia. lia.
Qed.

(** ** Properties *)

(** C20: where allocated memory lies. After any calls of the allocation functions by
    any threads, each block released by the function of its kind, from a start whose
    thread caches hold no non-coherent block: a block of [cxlhc_malloc] has no byte
    that the instrumentation takes for non-coherent memory, so the runtime's own data
    is never tracked, written back or invalidated; every byte of a block of
    [cxlnhc_malloc] or [cxlnhc_cl_aligned_malloc] is instrumented, and the block of
    the latter starts at a cache line. With jemalloc this needs [MALLOCX_TCACHE_NONE]
    in the non-coherent calls, see [tcache_none_needed]. The layout is one that the
    assertions of [rac_init] and [cxl_alloc_process_init] let through; for jemalloc
    there must also be a cache line of room behind the global metadata and the root,
    which no assertion tests and without which the coherent pool can wrap around, see
    [hc_pool_padding]. *)
Theorem allocations_by_region {H : Type} {L : AllocLib H} (mimalloc : bool) (f : Z → Z)
    (mng : region → region → bool) (sizeof_GlobalMeta hc_range nhc_range root_size : Z)
    (reg : arena → region) (t : nat) (size p a : Z) (h0 h h' : H) :
  (∀ n, 0 ≤ f n < 2 ^ 63) → 0 ≤ sizeof_GlobalMeta < 2 ^ 32 → 0 ≤ root_size < 2 ^ 32 →
  0 ≤ hc_range < 2 ^ 63 → (mimalloc = false → sizeof_GlobalMeta + root_size + CACHE_LINE_SIZE ≤ hc_range) →
  arena_regions mimalloc f mng sizeof_GlobalMeta hc_range nhc_range root_size = Some reg →
  (∀ ar, lib_region ar = reg ar) → lib_ok h0 → caches_hc h0 → rtc (heap_step mimalloc) h0 h →
  0 < size → p ≤ a < p + size →
  (lib_do t (cxlhc_malloc mimalloc size) h = (Some p, h') → in_cxl_nhc_mem a = false) ∧
  (lib_do t (cxlnhc_malloc mimalloc size) h = (Some p, h') → in_cxl_nhc_mem a = true) ∧
  (lib_do t (cxlnhc_cl_aligned_malloc mimalloc size) h = (Some p, h') →
   in_cxl_nhc_mem a = true ∧ (CACHE_LINE_SIZE | p)).
Proof.
  intros Hf Hg Hroot Hhc Hfits Hreg Hlib Hok0 Hc0 Hrun Hsize Ha.
  destruct (heap_steps_ok _ _ _ Hrun (conj Hok0 Hc0)) as [Hok Hc].
  destruct (arena_regions_spec _ _ _ _ _ _ _ _ Hf Hg Hroot Hhc Hfits Hreg) as [Hlow Hhigh].
  rewrite cxlhc_malloc_do, cxlnhc_malloc_do, cxlnhc_aligned_do. unfold in_cxl_nhc_mem.
  assert (0 < CACHE_LINE_SIZE) as Hline by reflexivity.
  pose proof (λ ar al tc Hal Htc, lib_alloc_in_region t ar size al tc h p h' a Hok Hsize Hal Htc) as Hblock.
  split_and!; intros E;
    [destruct (Hblock _ _ _ Z.lt_0_1 (λ _, Hc t) E Ha) as [Hin Hdiv]
    |destruct (Hblock _ _ false Z.lt_0_1 ltac:(done) E Ha) as [Hin Hdiv]
    |destruct (Hblock _ _ false Hline ltac:(done) E Ha) as [Hin Hdiv]].
  all: rewrite Hlib in Hin; unfold in_region in Hin; rewrite ?Z.leb_le, ?Z.leb_gt; try split; try done; lia.
Qed.

(** C19: the objects of [cxlSync.hpp] and their memory. From a start without
    objects, whatever constructions and destructions follow, by any threads and also
    with memory the program gives to the constructor: each object either lives in a
    block of its own inside the hardware-coherent arena (all objects of the
    constructors that allocate, and those in a block that was handed over to them),
    and then it can be destroyed, which gives that block back to the library; or it
    was put into memory that is not a block ([foreign]), which the constructors that
    allocate never do, and then its destructor is undefined behaviour. The memory of different objects does not overlap; the
    blocks the program keeps, in which it may have put objects, stay live; and when
    no object with a block of its own is left, the library has got back every block
    it gave for one. *)
Theorem cxl_objects_conserved {H : Type} {L : AllocLib H} (mimalloc : bool) (sizeof_InnerData : cxl_class → Z)
    (kept : gmap Z (arena * Z)) (s s' : objects (H := H)) :
  (∀ k, 0 < sizeof_InnerData k) → lib_ok (ob_heap s) → caches_hc (ob_heap s) → ob_inner s = ∅ →
  kept ⊆ lib_live (ob_heap s) → rtc (object_step mimalloc sizeof_InnerData kept) s s' →
  (∀ id k p, ob_inner s' !! id = Some (k, p) →
    (∀ a, p ≤ a < p + sizeof_InnerData k → in_region (lib_region (H := H) HcArena) a) ∧
    (∀ t, ∃ s2, destruct_object mimalloc t id s' = Some s2 ∧ lib_live (ob_heap s2) = delete p (lib_live (ob_heap s')) ∧
       is_Some (lib_live (ob_heap s') !! p)) ∨
    foreign (H := H) sizeof_InnerData kept k p ∧ ∀ t, destruct_object mimalloc t id s' = None) ∧
  (∀ t id k p s2, construct mimalloc sizeof_InnerData t id k s' = Some s2 → ob_inner s2 !! id = Some (k, p) →
    ¬ foreign (H := H) sizeof_InnerData kept k p) ∧
  (∀ id id' k k' p p', id ≠ id' → ob_inner s' !! id = Some (k, p) → ob_inner s' !! id' = Some (k', p') →
    block_apart p (sizeof_InnerData k) p' (sizeof_InnerData k')) ∧
  kept ⊆ lib_live (ob_heap s') ∧
  ((∀ id k p, ob_inner s' !! id = Some (k, p) → foreign (H := H) sizeof_InnerData kept k p) →
   lib_live (ob_heap s') ⊆ lib_live (ob_heap s)).
Proof.
  intros Hpos Hok Hc He Hk Hs. pose proof (owned_steps _ _ _ Hpos _ _ _ (owned_start _ _ _ Hok Hc He Hk) Hs) as Ho.
  pose proof (ow_ok _ _ _ _ Ho) as Hok'. split_and!.
  - intros id k p Hid. destruct (ow_inner _ _ _ _ Ho _ _ _ Hid) as [_ [Hb|Hf]]; [left|right].
    + pose proof (block_in_region _ _ k p s' Hok' Hb) as Hr. split; [intros a Ha; unfold in_region; lia|]. intros t.
      destruct (owned_destructs mimalloc _ _ _ t _ _ _ _ Ho Hid Hb) as (h & -> & _ & _ & Hl).
      eexists. split; [done|]. split; [exact Hl|]. destruct Hb as (_ & size & -> & _). by eexists.
    + split; [done|]. intros t. by eapply (foreign_no_destruct mimalloc _ _ Hpos).
  - intros t id k p s2. by apply (construct_not_foreign mimalloc _ _ Hpos _ _ _ _ _ _ _ Ho).
  - apply (ow_apart _ _ _ _ Ho).
  - apply (ow_kept _ _ _ _ Ho).
  - intros Hnone. apply map_subseteq_spec. intros p b Hb. destruct (ow_live _ _ _ _ Ho _ _ Hb) as [?|(id & k & Hid)]; [done|].
    pose proof (foreign_not_live _ _ Hpos _ _ _ Hok' (ow_kept _ _ _ _ Ho) (Hnone _ _ _ Hid)). congruence.
Qed.

(** An object that was given its memory cannot be destroyed: unless the memory is
    itself a block of the library, the destructor frees what was not allocated. *)
Theorem in_place_destructor_frees_foreign {H : Type} {L : AllocLib H} (mimalloc : bool) (t id : nat) (k : cxl_class)
    (p : Z) (s s' : objects (H := H)) :
  lib_live (ob_heap s) !! p = None → construct_at id k p s = Some s' → destruct_object mimalloc t id s' = None.
Proof.
  intros Hp [= <-]. unfold destruct_object. cbn. rewrite lookup_insert_eq. cbn. case_decide; [|done]. by rewrite Hp.
Qed.

(** The constructors do not test the result of [cxlhc_malloc]: when the library has
    no memory left, the placement new is on a null pointer. *)
Theorem constructor_out_of_memory {H : Type} {L : AllocLib H} (mimalloc : bool) (sizeof_InnerData : cxl_class → Z)
    (t id : nat) (k : cxl_class) (s : objects (H := H)) :
  construct mimalloc sizeof_InnerData t id k s = None ↔
  (lib_alloc t HcArena (sizeof_InnerData k) 1 (negb mimalloc) (ob_heap s)).1 = None.
Proof.
  unfold construct. rewrite cxlhc_malloc_do.
  by destruct (lib_alloc t HcArena (sizeof_InnerData k) 1 (negb mimalloc) (ob_heap s)) as [[p|] h].
Qed.

(** [allocate] and then [deallocate] leave the library with the blocks it had, and
    while the block is out it has room for [n] objects if their size fits 64 bits. *)
Theorem hc_allocate_deallocate {H : Type} {L : AllocLib H} (mimalloc : bool) (t t' : nat) (sizeof_T n p : Z) (h h' : H) :
  lib_ok h → 0 < sizeof_T → 0 < n → n * sizeof_T < 2 ^ 64 → hc_allocate mimalloc t sizeof_T n h = (Some p, h') →
  (∃ ar size, lib_live h' !! p = Some (ar, size) ∧ n * sizeof_T ≤ size) ∧
  lib_ok (hc_deallocate mimalloc t' p h') ∧ lib_live (hc_deallocate mimalloc t' p h') = lib_live h.
Proof.
  intros Hok Ht Hn Hfit. unfold hc_allocate, hc_deallocate. rewrite cxlhc_malloc_do, cxlhc_free_do.
  assert (0 < n * sizeof_T) as Hsize by nia.
  replace (wrap64 (n * sizeof_T)) with (n * sizeof_T) by (symmetry; apply wrap_small; split; lia). intros E. cbn [snd].
  destruct (lib_alloc_some _ _ _ _ _ _ _ _ Hok Hsize Z.lt_0_1 E) as (Hok' & Hfr & _ & ar & size & Hl & Hle & _).
  assert (lib_live h' !! p = Some (ar, size)) as Hp by by rewrite Hl, lookup_insert_eq.
  destruct (lib_free_live t' _ (negb mimalloc) _ _ Hok' Hp) as [? ->]. split; [by exists ar, size|]. split; [done|].
  by rewrite Hl, delete_insert_id.
Qed.

(** A [CXLRelaxedAtomic] is the atomic of [CXLAtomic] under [memory_order_relaxed],
    except that its results are of the value's type: an operation of [CXLAtomic]
    with that order has this effect, leaves the clock alone and makes the thread
    acquire nothing. *)
Theorem relaxed_atomic_agrees `{cfg : Config} (bits d : Z) (l : location) (th : ThreadOps) :
  op_access bits (OpStore d memory_order_relaxed) l th =
    (0, mkLoc (relaxed_store d (atomic_data l)) (loc_clock l), None) ∧
  op_access bits (OpLoad memory_order_relaxed) l th =
    (relaxed_load (atomic_data l), mkLoc (atomic_data l) (loc_clock l), None) ∧
  op_access bits (OpFetchAdd d memory_order_relaxed) l th =
    ((relaxed_fetch_add bits d (atomic_data l)).1, mkLoc (relaxed_fetch_add bits d (atomic_data l)).2 (loc_clock l), None).
Proof. by destruct l. Qed.

(** ** Examples *)

(** A library that hands out each arena from the bottom, with a cache for each thread
    that keeps what the thread releases and serves its calls whatever their arena.
    The blocks are live, or in the cache of a thread. *)
Record bump := mkBump { hc_next : Z; nhc_next : Z; bp_blocks : gmap Z ((arena * Z) * option nat) }.
Definition next_of (ar : arena) (b : bump) : Z := match ar with HcArena => hc_next b | NhcArena => nhc_next b end.
Definition bp_live (b : bump) : gmap Z (arena * Z) :=
  omap (λ '(x, cache), match cache with None => Some x | Some _ => None end) (bp_blocks b).
Definition set_blocks (m : gmap Z ((arena * Z) * option nat)) (b : bump) : bump := mkBump (hc_next b) (nhc_next b) m.

Section bump.
Context (reg : arena → region) (Hreg : apart (reg HcArena) (reg NhcArena)).
Implicit Types (t u : nat) (ar : arena) (p q size : Z) (b : bump).
#[local] Abbreviation stop ar := (rg_start (reg ar) + rg_size (reg ar)).

Definition bump_ok b : Prop :=
  (∀ ar, rg_start (reg ar) ≤ next_of ar b) ∧
  (∀ p ar size c, bp_blocks b !! p = Some ((ar, size), c) →
    0 < size ∧ rg_start (reg ar) ≤ p ∧ p + size ≤ next_of ar b ∧ p + size ≤ stop ar) ∧
  (∀ p q ar ar' size size' c c', bp_blocks b !! p = Some ((ar, size), c) → bp_blocks b !! q = Some ((ar', size'), c') →
    p ≠ q → block_apart p size q size').
Definition bump_cached b t ar : Prop := ∃ p size, bp_blocks b !! p = Some ((ar, size), Some t).
(** A block of the thread's cache that will do. *)
Definition cache_hit t size (al : Z) b : option (Z * (arena * Z)) :=
  head (omap (λ '(p, (x, c)), if bool_decide (c = Some t) && (size <=? x.2) && (p mod al =? 0) then Some (p, x) else None)
             (map_to_list (bp_blocks b))).
Definition bump_extend ar size (al : Z) b : option Z * bump :=
  let p := (next_of ar b + al - 1) / al * al in
  if p + size <=? stop ar then
    (Some p, let m := <[p := ((ar, size), None)]> (bp_blocks b) in
             match ar with HcArena => mkBump (p + size) (nhc_next b) m | NhcArena => mkBump (hc_next b) (p + size) m end)
  else (None, b).
Definition bump_alloc t ar size (al : Z) (tcache : bool) b : option Z * bump :=
  match (if tcache then cache_hit t size al b else None) with
  | Some (p, x) => (Some p, set_blocks (<[p := (x, None)]> (bp_blocks b)) b)
  | None => bump_extend ar size al b
  end.
Definition bump_free t p (tcache : bool) b : bump :=
  match bp_blocks b !! p with
  | Some (x, None) => set_blocks (if tcache then <[p := (x, Some t)]> (bp_blocks b) else delete p (bp_blocks b)) b
  | _ => b
  end.

Lemma bp_live_Some b p x : bp_live b !! p = Some x ↔ bp_blocks b !! p = Some (x, None).
Proof.
  unfold bp_live. rewrite lookup_omap. destruct (bp_blocks b !! p) as [[y [t|]]|]; cbn; try done.
  all: split; congruence.
Qed.
Lemma bp_live_insert b b' p x :
  bp_blocks b' = <[p := (x, None)]> (bp_blocks b) → bp_live b' = <[p := x]> (bp_live b).
Proof. unfold bp_live. intros ->. by apply omap_insert_Some. Qed.
Lemma bump_live_ok b p ar size :
  bump_ok b → bp_live b !! p = Some (ar, size) → 0 < size ∧ rg_start (reg ar) ≤ p ∧ p + size ≤ stop ar.
Proof. intros (_ & Hb & _) Hp%bp_live_Some. by destruct (Hb _ _ _ _ Hp) as (? & ? & _ & ?). Qed.
Lemma bump_live_apart b p q ar ar' size size' :
  bump_ok b → bp_live b !! p = Some (ar, size) → bp_live b !! q = Some (ar', size') → p ≠ q → block_apart p size q size'.
Proof. intros (_ & _ & Ha) Hp%bp_live_Some Hq%bp_live_Some. by eapply Ha. Qed.
(** Blocks that change hands or go away. *)
Lemma bump_set_ok b m :
  bump_ok b → (∀ p x c, m !! p = Some (x, c) → ∃ c', bp_blocks b !! p = Some (x, c')) → bump_ok (set_blocks m b).
Proof.
  intros (Hn & Hb & Ha) Hm. split_and!; [exact Hn| |]; cbn.
  - intros p ar size c [c' Hp]%Hm. by eapply Hb.
  - intros p q ar ar' size size' c c' [c1 Hp]%Hm [c2 Hq]%Hm. by eapply Ha.
Qed.

Lemma cache_hit_spec t size al b p x :
  cache_hit t size al b = Some (p, x) → 0 < al → bp_blocks b !! p = Some (x, Some t) ∧ size ≤ x.2 ∧ (al | p).
Proof.
  unfold cache_hit. intros Hh%head_Some_elem_of Hal. apply list_elem_of_omap in Hh as ([q [y c]] & Hq & Hc).
  apply elem_of_map_to_list in Hq. destruct (bool_decide_reflect (c = Some t)) as [->|]; [|done]. cbn in Hc.
  destruct (Z.leb_spec size y.2); [|done]. destruct (Z.eqb_spec (q mod al) 0); [|done]. cbn in Hc. injection Hc as <- <-.
  split_and!; [done|done|]. apply Z.mod_divide; [lia|done].
Qed.

Lemma bump_extend_some ar size al b p b' :
  bump_ok b → 0 < size → 0 < al → bump_extend ar size al b = (Some p, b') →
  bump_ok b' ∧ bp_blocks b !! p = None ∧ (al | p) ∧ bp_blocks b' = <[p := ((ar, size), None)]> (bp_blocks b).
Proof.
  intros (Hn & Hl & Hap) Hs Ha. unfold bump_extend. set (x := (next_of ar b + al - 1) / al * al).
  assert (next_of ar b ≤ x ∧ (al | x)) as [Hx Hd].
  { split; [|by apply Z.divide_factor_r]. unfold x. pose proof (Z.mul_succ_div_gt (next_of ar b + al - 1) al Ha). lia. }
  destruct (Z.leb_spec (x + size) (stop ar)) as [Hle|]; [|done]. intros [= <- Eb]. clearbody x.
  assert (∀ q ar' size' c, bp_blocks b !! q = Some ((ar', size'), c) → block_apart x size q size') as Hsep.
  { intros q ar' size' c Hq. destruct (Hl _ _ _ _ Hq) as (? & ? & ? & ?). specialize (Hn ar). unfold block_apart, apart in *.
    destruct ar, ar'; lia. }
  assert (∀ ar', next_of ar' b ≤ next_of ar' b' ∧ (ar' = ar → next_of ar' b' = x + size)) as Hn'.
  { intros ar'. subst b'. destruct ar, ar'; cbn in *; split; try done; lia. }
  assert (bp_blocks b' = <[x := ((ar, size), None)]> (bp_blocks b)) as El by (subst b'; by destruct ar).
  pose proof (Hn ar) as Har. split_and!; try done.
  - split_and!; [intros ar'; specialize (Hn ar'); destruct (Hn' ar'); lia| |]; rewrite El.
    + intros q ar' size' c [[<- [= <- <- <-]]|[_ Hq]]%lookup_insert_Some; [rewrite (proj2 (Hn' ar) eq_refl); lia|].
      destruct (Hl _ _ _ _ Hq) as (? & ? & ? & ?), (Hn' ar'). lia.
    + intros q q' ar1 ar2 s1 s2 c1 c2 [[<- [= <- <- <-]]|[_ Hq]]%lookup_insert_Some [[<- [= <- <- <-]]|[_ Hq']]%lookup_insert_Some Hne.
      * done.
      * by eapply Hsep.
      * apply block_apart_sym. by eapply Hsep.
      * by eapply Hap.
  - destruct (bp_blocks b !! x) as [[[ar' size'] c]|] eqn:E; [|done]. pose proof (Hl _ _ _ _ E). apply Hsep in E.
    unfold block_apart in E. lia.
Qed.

Lemma bump_alloc_some t ar size al tcache b p b' :
  bump_ok b → 0 < size → 0 < al → bump_alloc t ar size al tcache b = (Some p, b') →
  bump_ok b' ∧ bp_live b !! p = None ∧ (al | p) ∧
  ∃ ar' size', bp_live b' = <[p := (ar', size')]> (bp_live b) ∧ size ≤ size' ∧ (ar' = ar ∨ tcache = true ∧ bump_cached b t ar').
Proof.
  intros Hok Hs Ha. unfold bump_alloc.
  destruct (if tcache then cache_hit t size al b else None) as [[q [ar' size']]|] eqn:Eh.
  - destruct tcache; [|done]. apply cache_hit_spec in Eh as (Hq & Hsz & Hd); [|done]. intros [= <- <-]. split_and!.
    + apply bump_set_ok; [done|]. intros p' x c [[<- [= <- <-]]|[_ ?]]%lookup_insert_Some; eauto.
    + apply eq_None_not_Some. intros [x Hx%bp_live_Some]. congruence.
    + done.
    + exists ar', size'. split; [by apply bp_live_insert|]. split; [done|]. right. split; [done|]. by exists q, size'.
  - intros E. destruct (bump_extend_some _ _ _ _ _ _ Hok Hs Ha E) as (Hok' & Hn & Hd & Hb). split_and!; [done| |done|].
    + apply eq_None_not_Some. intros [x Hx%bp_live_Some]. congruence.
    + exists ar, size. split; [by apply bp_live_insert|]. split; [lia|by left].
Qed.
Lemma bump_alloc_none t ar size al tcache b b' :
  bump_ok b → bump_alloc t ar size al tcache b = (None, b') → bump_ok b' ∧ bp_live b' = bp_live b.
Proof. intros Hok. unfold bump_alloc, bump_extend. repeat case_match; try done; by intros [= <-]. Qed.
Lemma bump_alloc_cached t ar size al tcache b r b' u a :
  bump_ok b → bump_alloc t ar size al tcache b = (r, b') → bump_cached b' u a →
  bump_cached b u a ∨ tcache = true ∧ u = t ∧ a = ar.
Proof.
  intros _ E Hc. left. unfold bump_alloc, bump_extend in E. destruct Hc as (q & size' & Hq).
  exists q, size'. destruct (if tcache then cache_hit t size al b else None) as [[p [ar' sz]]|].
  - injection E as <- <-. cbn in Hq. by apply lookup_insert_Some in Hq as [[_ ?]|[_ ?]].
  - case_match; [|by injection E as <- <-]. injection E as <- <-. destruct ar; cbn in Hq; by apply lookup_insert_Some in Hq as [[_ ?]|[_ ?]].
Qed.
Lemma bump_free_live t p tcache x b :
  bump_ok b → bp_live b !! p = Some x → bump_ok (bump_free t p tcache b) ∧ bp_live (bump_free t p tcache b) = delete p (bp_live b).
Proof.
  intros Hok Hp%bp_live_Some. unfold bump_free. rewrite Hp. split.
  - apply bump_set_ok; [done|]. intros q y c. destruct tcache.
    + intros [[<- [= <- <-]]|[_ ?]]%lookup_insert_Some; eauto.
    + intros [_ ?]%lookup_delete_Some. eauto.
  - unfold bp_live. destruct tcache; cbn; [by apply omap_insert_None|by apply omap_delete].
Qed.
Lemma bump_free_cached t p tcache x b u a :
  bump_ok b → bp_live b !! p = Some x → bump_cached (bump_free t p tcache b) u a →
  bump_cached b u a ∨ tcache = true ∧ u = t ∧ a = x.1.
Proof.
  intros _ Hp%bp_live_Some (q & size & Hq). unfold bump_free in Hq. rewrite Hp in Hq. cbn in Hq. destruct tcache; cbn in Hq.
  - apply lookup_insert_Some in Hq as [[_ [= -> ->]]|[_ Hq]]; [by right|left]. by exists q, size.
  - apply lookup_delete_Some in Hq as [_ Hq]. left. by exists q, size.
Qed.

Definition bump_lib : AllocLib bump := {|
  lib_region := reg; lib_ok := bump_ok; lib_live := bp_live; lib_cached := bump_cached; lib_alloc := bump_alloc; lib_free := bump_free;
  lib_live_ok := bump_live_ok; lib_live_apart := bump_live_apart; lib_alloc_some := bump_alloc_some;
  lib_alloc_none := bump_alloc_none; lib_alloc_cached := bump_alloc_cached;
  lib_free_live := bump_free_live; lib_free_cached := bump_free_cached |}.
End bump.

Definition ex_regions (ar : arena) : region :=
  match ar with HcArena => mkRegion (CXL_HC_START + 8448) 67100416 | NhcArena => mkRegion CXL_NHC_START (2 ^ 34) end.
Lemma ex_regions_apart : apart (ex_regions HcArena) (ex_regions NhcArena).
Proof. left. by vm_compute. Qed.
Definition ex_lib : AllocLib bump := bump_lib ex_regions ex_regions_apart.
Definition ex_heap : bump := mkBump (CXL_HC_START + 8448) CXL_NHC_START ∅.
Lemma ex_heap_ok : bump_ok ex_regions ex_heap.
Proof. split_and!; [by intros []|done|done]. Qed.
Lemma ex_heap_caches : caches_hc (L := ex_lib) ex_heap.
Proof. intros t a (p & size & Hp). cbn in Hp. by rewrite lookup_empty in Hp. Qed.
Definition ex_sizeof (k : cxl_class) : Z :=
  match k with RelaxedAtomic => 4 | Atomic => 56 | RelaxedMutex => 16 | PlainMutex => 48 | SharedMutexClass => 72 end.

(** A thread allocates 64 coherent bytes and releases them into its cache. *)
Definition ex_block : Z := CXL_HC_START + 8448.
Definition ex_allocated : bump := (lib_do (L := ex_lib) 0 (cxlhc_malloc false 64) ex_heap).2.
Definition ex_cached : bump := (lib_do (L := ex_lib) 0 (cxlhc_free false ex_block) ex_allocated).2.
Lemma ex_cached_run : rtc (heap_step (L := ex_lib) false) ex_heap ex_cached.
Proof.
  eapply rtc_l; [apply (hs_call (L := ex_lib) false 0 (HcMalloc 64) _ (Some ex_block) ex_allocated); vm_compute; reflexivity|].
  eapply rtc_l; [apply (hs_call (L := ex_lib) false 0 (HcFree ex_block) _ None ex_cached)|apply rtc_refl].
  - exists 64. vm_compute. reflexivity.
  - vm_compute. reflexivity.
Qed.

(** Why the non-coherent calls pass [MALLOCX_TCACHE_NONE]: without it, in the same
    state, the library may serve them from the cache, with a coherent block. *)
Theorem tcache_none_needed :
  let no_cache := lib_do (L := ex_lib) 0 (cxlnhc_malloc false 48) ex_cached in
  let cache := lib_do (L := ex_lib) 0 (JeMallocx 48 (mkFlags NhcArena 1 false)) ex_cached in
  no_cache.1 = Some CXL_NHC_START ∧ cache.1 = Some ex_block ∧
  in_cxl_nhc_mem CXL_NHC_START = true ∧ in_cxl_nhc_mem ex_block = false.
Proof. vm_compute. done. Qed.

(** With jemalloc, and the sizes of a build. *)
Lemma allocations_by_region_witness :
  ∃ reg p h', arena_regions false ex_meta_size ex_manage 8384 (2 ^ 26) (2 ^ 34) 64 = Some reg ∧
    lib_do (L := ex_lib) 0 (cxlnhc_cl_aligned_malloc false 48) ex_cached = (Some p, h') ∧
    in_cxl_nhc_mem (p + 47) = true ∧ (CACHE_LINE_SIZE | p).
Proof.
  destruct (arena_regions false ex_meta_size ex_manage 8384 (2 ^ 26) (2 ^ 34) 64) as [reg|] eqn:E; [|vm_compute in E; discriminate E].
  exists reg, CXL_NHC_START, (lib_do (L := ex_lib) 0 (cxlnhc_cl_aligned_malloc false 48) ex_cached).2.
  split; [reflexivity|]. split; [vm_compute; reflexivity|].
  assert (∀ n, 0 ≤ ex_meta_size n < 2 ^ 63) as Hf by (intros n; apply Z.mod_pos_bound; reflexivity).
  apply (allocations_by_region (L := ex_lib) false ex_meta_size ex_manage 8384 (2 ^ 26) (2 ^ 34) 64 reg 0 48
    CXL_NHC_START (CXL_NHC_START + 47) ex_heap ex_cached
    (lib_do (L := ex_lib) 0 (cxlnhc_cl_aligned_malloc false 48) ex_cached).2 Hf ltac:(lia) ltac:(lia) ltac:(lia)
    ltac:(unfold CACHE_LINE_SIZE; lia) E);
    [|exact ex_heap_ok|exact ex_heap_caches|exact ex_cached_run|lia|vm_compute; split; [discriminate|reflexivity]|vm_compute; reflexivity].
  intros ar. vm_compute in E. injection E as <-. destruct ar; vm_compute; reflexivity.
Defined.

(** Two objects are constructed, one more is put in front of the arena, the first one
    is destroyed. *)
Definition ex_objects0 : objects := mkObjects ∅ ∅ ex_heap.
Definition ex_objects1 : option objects := construct (L := ex_lib) true ex_sizeof 0 1 RelaxedAtomic ex_objects0.
Definition ex_objects2 : option objects := s ← ex_objects1; construct (L := ex_lib) true ex_sizeof 1 2 Atomic s.
Definition ex_objects3 : option objects := s ← ex_objects2; construct_at 3 RelaxedMutex CXL_HC_START s.
Definition ex_objects4 : option objects := s ← ex_objects3; destruct_object (L := ex_lib) true 1 1 s.
Lemma ex_foreign : foreign (L := ex_lib) ex_sizeof ∅ RelaxedMutex CXL_HC_START.
Proof. left. intros []; left; vm_compute; discriminate. Qed.
Definition ex_two : gmap nat (cxl_class * Z) :=
  <[2%nat := (Atomic, CXL_HC_START + 8452)]> {[1%nat := (RelaxedAtomic, CXL_HC_START + 8448)]}.
Definition ex_checks : bool :=
  match ex_objects1, ex_objects2, ex_objects4 with
  | Some s1, Some s2, Some s =>
      bool_decide (ob_inner s1 !! 2%nat = None) && bool_decide (ob_inner s2 = ex_two) &&
      bool_decide (ob_inner s !! 2%nat = Some (Atomic, CXL_HC_START + 8452)) &&
      bool_decide (ob_inner s !! 3%nat = Some (RelaxedMutex, CXL_HC_START))
  | _, _, _ => false
  end.
Lemma ex_checks_true : ex_checks = true.
Proof. vm_compute. reflexivity. Qed.
Lemma ex_usable (s : objects) : ob_inner s = ex_two → usable (L := ex_lib) ex_sizeof ∅ RelaxedMutex CXL_HC_START s.
Proof.
  intros Hs. split; [right; exact ex_foreign|]. intros id k p. rewrite Hs. unfold ex_two.
  intros [[_ [= <- <-]]|[_ [_ [= <- <-]]%lookup_singleton_Some]]%lookup_insert_Some; left; vm_compute; discriminate.
Qed.
Lemma ex_objects_run :
  ∃ s, rtc (object_step (L := ex_lib) true ex_sizeof ∅) ex_objects0 s ∧
    ob_inner s !! 2%nat = Some (Atomic, CXL_HC_START + 8452) ∧ ob_inner s !! 3%nat = Some (RelaxedMutex, CXL_HC_START).
Proof.
  pose proof ex_checks_true as Hc. unfold ex_checks, ex_objects4, ex_objects3, ex_objects2 in Hc.
  destruct ex_objects1 as [s1|] eqn:E1; [|done]. cbn [mbind option_bind] in Hc.
  destruct (construct true ex_sizeof 1 2 Atomic s1) as [s2|] eqn:E2; [|done]. cbn [mbind option_bind] in Hc.
  destruct (construct_at 3 RelaxedMutex CXL_HC_START s2) as [s3|] eqn:E3; [|done]. cbn [mbind option_bind] in Hc.
  destruct (destruct_object true 1 1 s3) as [s4|] eqn:E4; [|done].
  apply andb_prop in Hc as [Hc H3%bool_decide_eq_true]. apply andb_prop in Hc as [Hc H2%bool_decide_eq_true].
  apply andb_prop in Hc as [Hn2%bool_decide_eq_true Htwo%bool_decide_eq_true]. exists s4. split; [|done].
  pose proof (ex_usable s2 Htwo) as Hu. assert (ob_inner s2 !! 3%nat = None) as Hn3 by (rewrite Htwo; reflexivity).
  eapply rtc_l; [by apply (os_construct (L := ex_lib) true ex_sizeof ∅ 0 1 RelaxedAtomic ex_objects0 s1)|].
  eapply rtc_l; [by apply (os_construct (L := ex_lib) true ex_sizeof ∅ 1 2 Atomic s1 s2)|].
  eapply rtc_l; [by apply (os_construct_at (L := ex_lib) true ex_sizeof ∅ 3 RelaxedMutex CXL_HC_START s2 s3)|].
  eapply rtc_l; [by apply (os_destruct (L := ex_lib) true ex_sizeof ∅ 1 1 s3 s4)|apply rtc_refl].
Qed.

Lemma ex_not_foreign : ¬ foreign (L := ex_lib) ex_sizeof ∅ Atomic (CXL_HC_START + 8452).
Proof.
  intros [H|(q & ar & size & Hq & _)]; [|by rewrite lookup_empty in Hq].
  destruct (H HcArena) as [Hf|Hf]; vm_compute in Hf; by apply Hf.
Qed.
Lemma cxl_objects_conserved_witness :
  ∃ s', rtc (object_step (L := ex_lib) true ex_sizeof ∅) ex_objects0 s' ∧
    ob_inner s' !! 2%nat = Some (Atomic, CXL_HC_START + 8452) ∧ ob_inner s' !! 3%nat = Some (RelaxedMutex, CXL_HC_START) ∧
    (∃ s2, destruct_object (L := ex_lib) true 0 2 s' = Some s2) ∧
    block_apart (CXL_HC_START + 8452) (ex_sizeof Atomic) CXL_HC_START (ex_sizeof RelaxedMutex).
Proof.
  destruct ex_objects_run as (s & Hrun & H2 & H3). exists s. split; [exact Hrun|]. split; [exact H2|]. split; [exact H3|].
  destruct (cxl_objects_conserved (L := ex_lib) true ex_sizeof ∅ ex_objects0 s) as (Hin & _ & Hap & _);
    [intros []; vm_compute; reflexivity|exact ex_heap_ok|exact ex_heap_caches|reflexivity|apply map_empty_subseteq|exact Hrun|].
  split; [|apply (Hap 2%nat 3%nat); [discriminate|exact H2|exact H3]].
  destruct (Hin 2%nat Atomic _ H2) as [[_ Hd]|[Hf _]]; [|destruct (ex_not_foreign Hf)].
  destruct (Hd 0%nat) as (s2 & Hs2 & _). exists s2. exact Hs2.
Defined.
