(* ===== verification/McsLock.v ===== *)
(** McsLock: [include/mcsLock.hpp], the queue lock under every synchronisation
    object.

    [advance] is one access of a call of the lock to the shared memory;
    [mcs_step] interleaves any number of calls, each with its node. Nodes are
    identified by numbers; the node of a call is allocated when the call starts
    and freed when it ends, and an access to a freed node has no successor
    state. [queue] is a ghost: the nodes in the order of their exchanges of the
    tail. *)
From S2P Require Import Prelude SharedLock.

(** ** Definitions *)

Record MCSNode := mkMCSNode { next : option nat; node_locked : bool }.

(** Where a call is: in [lock_with_node], between the two operations, in
    [unlock_with_node] or in [try_lock_with_node]. *)
Inductive mcs_pc :=
  | ResetNext | ResetLocked | Exchange | Link (predecessor : nat) | Spin | SetOwner
  | Locked
  | LoadNext | ResetTail | AwaitNext | Signal (next : nat)
  | TryLoad | TryResetNext | TryResetLocked | TryExchange.

(** [MCSLock], the nodes, the calls and the ghost queue. *)
Record MCSLock := mkMCS {
  mcs_tail : option nat;
  mcs_owner : option nat;
  mcs_nodes : gmap nat MCSNode;
  mcs_calls : gmap nat mcs_pc;
  mcs_queue : list nat;
}.
Definition mcs_init : MCSLock := mkMCS None None ∅ ∅ [].

Section operations.
Implicit Types (s : MCSLock) (a b : nat) (p : mcs_pc).

Definition set_tail t s : MCSLock := mkMCS t (mcs_owner s) (mcs_nodes s) (mcs_calls s) (mcs_queue s).
Definition set_owner o s : MCSLock := mkMCS (mcs_tail s) o (mcs_nodes s) (mcs_calls s) (mcs_queue s).
Definition set_queue q s : MCSLock := mkMCS (mcs_tail s) (mcs_owner s) (mcs_nodes s) (mcs_calls s) q.
Definition set_node a n s : MCSLock := mkMCS (mcs_tail s) (mcs_owner s) (<[a := n]> (mcs_nodes s)) (mcs_calls s) (mcs_queue s).
Definition goto a p s : MCSLock := mkMCS (mcs_tail s) (mcs_owner s) (mcs_nodes s) (<[a := p]> (mcs_calls s)) (mcs_queue s).
(** The call is over and its node is freed. *)
Definition finish a s : MCSLock :=
  mkMCS (mcs_tail s) (mcs_owner s) (delete a (mcs_nodes s)) (delete a (mcs_calls s)) (mcs_queue s).

Definition store_next a v s : option MCSLock :=
  n ← mcs_nodes s !! a; Some (set_node a (mkMCSNode v (node_locked n)) s).
Definition store_locked a v s : option MCSLock :=
  n ← mcs_nodes s !! a; Some (set_node a (mkMCSNode (next n) v) s).

(** The next access of the call with node [a]. *)
Definition advance a p s : option MCSLock :=
  match p with
  | ResetNext => goto a ResetLocked <$> (store_next a None s)
  | ResetLocked => goto a Exchange <$> (store_locked a true s)
  | Exchange =>
      let s' := set_queue (mcs_queue s ++ [a]) (set_tail (Some a) s) in
      Some (goto a (match mcs_tail s with Some predecessor => Link predecessor | None => SetOwner end) s')
  | Link predecessor => goto a Spin <$> (store_next predecessor (Some a) s)
  | Spin => n ← mcs_nodes s !! a; Some (if node_locked n then s else goto a SetOwner s)
  | SetOwner => Some (goto a Locked (set_owner (Some a) s))
  | Locked => Some s
  | LoadNext =>
      n ← mcs_nodes s !! a;
      Some (goto a (match next n with Some b => Signal b | None => ResetTail end) s)
  | ResetTail =>
      Some (if decide (mcs_tail s = Some a) then finish a (set_queue [] (set_tail None s)) else goto a AwaitNext s)
  | AwaitNext =>
      n ← mcs_nodes s !! a;
      Some (match next n with Some b => goto a (Signal b) s | None => s end)
  | Signal b => (λ s', finish a (set_queue (tail (mcs_queue s)) s')) <$> (store_locked b false s)
  | TryLoad => Some (match mcs_tail s with Some _ => finish a s | None => goto a TryResetNext s end)
  | TryResetNext => goto a TryResetLocked <$> (store_next a None s)
  | TryResetLocked => goto a TryExchange <$> (store_locked a true s)
  | TryExchange =>
      Some (match mcs_tail s with
            | Some _ => finish a s
            | None => goto a SetOwner (set_queue (mcs_queue s ++ [a]) (set_tail (Some a) s))
            end)
  end.

(** The node [unlock] passes on, [owner], is that of the caller: a property. *)
Inductive mcs_step : nat → lock_act → MCSLock → MCSLock → Prop :=
  | mcs_lock a n s :
      mcs_nodes s !! a = None → mcs_calls s !! a = None →
      mcs_step a DoLock s (goto a ResetNext (set_node a n s))
  | mcs_try_lock a n s :
      mcs_nodes s !! a = None → mcs_calls s !! a = None →
      mcs_step a DoTryLock s (goto a TryLoad (set_node a n s))
  | mcs_unlock a s :
      mcs_calls s !! a = Some Locked → mcs_step a DoUnlock s (goto a LoadNext s)
  | mcs_progress a p s s' :
      mcs_calls s !! a = Some p → p ≠ Locked → advance a p s = Some s' → mcs_step a Progress s s'.

Definition mcs_next s s' : Prop := ∃ a l, mcs_step a l s s'.
Definition mcs_reachable s : Prop := rtc mcs_next mcs_init s.
Definition mcs_holds a s : Prop := mcs_calls s !! a = Some Locked.
(** A call accesses a node that has been freed. *)
Definition mcs_faulty s : Prop := ∃ a p, mcs_calls s !! a = Some p ∧ advance a p s = None.
End operations.

(** ** The invariant *)

Section invariant.
Implicit Types (s : MCSLock) (a b : nat) (p : mcs_pc) (q : list nat) (n : MCSNode).

Definition next_of s a : option (option nat) := next <$> (mcs_nodes s !! a).

(** What holds at each point of a call. *)
Definition call_ok s q a p : Prop :=
  ∃ n, mcs_nodes s !! a = Some n ∧
  match p with
  | ResetNext | TryLoad | TryResetNext => a ∉ q
  | ResetLocked | TryResetLocked => (a ∉ q) ∧ next n = None
  | Exchange | TryExchange => (a ∉ q) ∧ next n = None ∧ node_locked n = true
  | Link b => node_locked n = true ∧ follows q b a ∧ is_Some (next_of s b)
  | Spin => (node_locked n = true ∧ ∃ b, follows q b a ∧ next_of s b = Some (Some a)) ∨
            (node_locked n = false ∧ head q = Some a)
  | SetOwner => head q = Some a
  | Locked | LoadNext | ResetTail => head q = Some a ∧ mcs_owner s = Some a
  | AwaitNext => head q = Some a ∧ mcs_owner s = Some a ∧ last q ≠ Some a
  | Signal b => head q = Some a ∧ mcs_owner s = Some a ∧ next n = Some b
  end.

Record mcs_inv s : Prop := {
  mi_tail : mcs_tail s = last (mcs_queue s);
  mi_nodup : NoDup (mcs_queue s);
  mi_queue a : a ∈ mcs_queue s → is_Some (mcs_calls s !! a);
  mi_call a p : mcs_calls s !! a = Some p → call_ok s (mcs_queue s) a p;
  mi_next a b : a ∈ mcs_queue s → next_of s a = Some (Some b) → follows (mcs_queue s) a b ∧ mcs_calls s !! b = Some Spin;
}.

(** *** Preservation *)

Lemma call_ok_frame s s' q q' a p :
  (∀ n, mcs_nodes s !! a = Some n → ∃ n', mcs_nodes s' !! a = Some n' ∧ node_locked n' = node_locked n ∧
     (next n' = next n ∨ (a ∈ q ∧ ∀ b, p ≠ Signal b))) →
  (∀ c, follows q c a → follows q' c a ∧ next_of s' c = next_of s c) →
  (a ∉ q → a ∉ q') →
  (head q = Some a → head q' = Some a ∧ mcs_owner s' = mcs_owner s ∧ (last q ≠ Some a → last q' ≠ Some a)) →
  call_ok s q a p → call_ok s' q' a p.
Proof.
  intros Hn Hf Hq Hh (n & Hna & H). destruct (Hn n Hna) as (n' & Hna' & El & En). exists n'. split; [done|].
  destruct p; rewrite ?El; try (by apply Hq); try (by destruct (Hh H));
    try (destruct En as [-> |[Ha _]]; [|by destruct H]; by destruct H; split; auto).
  - destruct H as (? & Hfo & ?). destruct (Hf _ Hfo) as [? ->]. done.
  - destruct H as [(? & b & Hfo & ?)|[? Hhd]]; [left|right; by destruct (Hh Hhd)].
    split; [done|]. exists b. destruct (Hf _ Hfo) as [? ->]. done.
  - destruct H as [Hhd H]. by destruct (Hh Hhd) as (? & -> & _).
  - destruct H as [Hhd H]. by destruct (Hh Hhd) as (? & -> & _).
  - destruct H as [Hhd H]. by destruct (Hh Hhd) as (? & -> & _).
  - destruct H as (Hhd & H & Hl). destruct (Hh Hhd) as (? & -> & ?). auto.
  - destruct H as (Hhd & H & Hx). destruct (Hh Hhd) as (? & -> & _). destruct En as [-> |[_ []%(λ f, f next0)]]; done.
Qed.

(** The common case: the node of the call is untouched. *)
Lemma call_ok_same s s' q q' a p :
  mcs_nodes s' !! a = mcs_nodes s !! a →
  (∀ c, follows q c a → follows q' c a ∧ next_of s' c = next_of s c) →
  (a ∉ q → a ∉ q') →
  (head q = Some a → head q' = Some a ∧ mcs_owner s' = mcs_owner s ∧ (last q ≠ Some a → last q' ≠ Some a)) →
  call_ok s q a p → call_ok s' q' a p.
Proof. intros En. apply call_ok_frame. intros n Hn. exists n. rewrite En. auto. Qed.

(** A step that keeps the queue: it changes the state of its own call, and of
    its own node only as long as that is not in the queue. *)
Lemma inv_local s s' a p' :
  mcs_inv s → mcs_tail s' = mcs_tail s → mcs_queue s' = mcs_queue s → mcs_calls s' = <[a := p']> (mcs_calls s) →
  (∀ b, b ≠ a ∨ b ∈ mcs_queue s → mcs_nodes s' !! b = mcs_nodes s !! b) →
  mcs_owner s' = mcs_owner s ∨ head (mcs_queue s) = Some a →
  mcs_calls s !! a ≠ Some Spin ∨ head (mcs_queue s) = Some a →
  call_ok s' (mcs_queue s) a p' → mcs_inv s'.
Proof.
  intros [Ht Hnd Hq Hc Hx] Et Eq Ec En Eo Esp Hok.
  assert (∀ c, c ∈ mcs_queue s → next_of s' c = next_of s c) as Enext.
  { intros c ?. unfold next_of. rewrite En by auto. done. }
  constructor; rewrite ?Et, ?Eq, ?Ec; try done.
  - intros b Hb. rewrite lookup_insert_is_Some. destruct (decide (a = b)); auto.
  - intros b p. rewrite lookup_insert_Some. intros [[<- <-]|[Hne Hb]]; [done|].
    apply (call_ok_same s s' (mcs_queue s) (mcs_queue s)); [by auto| | |intros Hh|by apply Hc].
    + intros c Hf. split; [done|]. apply Enext. by apply follows_elem in Hf as [? ?].
    + done.
    + split; [done|]. split; [|done]. destruct Eo as [|Eo]; [done|congruence].
  - intros b c Hb. rewrite (Enext b Hb). intros Hn. destruct (Hx b c Hb Hn) as [Hf Hs]. split; [done|].
    rewrite lookup_insert_ne; [done|]. intros <-. destruct Esp as [|Hh]; [done|].
    by destruct (follows_not_head _ _ _ Hnd Hf).
Qed.

(** A new node at the end of the queue. *)
Lemma inv_enqueue s a p' :
  mcs_inv s → is_Some (mcs_calls s !! a) → call_ok s (mcs_queue s) a Exchange →
  p' = match mcs_tail s with Some b => Link b | None => SetOwner end →
  mcs_inv (goto a p' (set_queue (mcs_queue s ++ [a]) (set_tail (Some a) s))).
Proof.
  intros [Ht Hnd Hq Hc Hx] Ha (n & Hn & Hna & Hnext & Hl) ->. set (q := mcs_queue s) in *.
  constructor; cbn [mcs_tail mcs_queue mcs_calls goto set_queue set_tail].
  - by rewrite last_snoc.
  - apply NoDup_app. split; [done|]. split; [|apply NoDup_singleton]. intros b Hb ->%list_elem_of_singleton. done.
  - intros b. rewrite elem_of_app, list_elem_of_singleton, lookup_insert_is_Some.
    destruct (decide (a = b)); [by left|]. intros [Hb| ->]; [|done]. by auto.
  - intros b p. rewrite lookup_insert_Some. intros [[<- <-]|[Hne Hb]].
    + exists n. split; [done|]. rewrite Ht. destruct (last q) as [b|] eqn:El.
      * split; [done|]. split; [rewrite follows_snoc; by right|]. unfold next_of. cbn.
        apply fmap_is_Some. assert (b ∈ q) as Hb by (apply last_Some in El as [? ->]; set_solver).
        destruct (Hq b Hb) as [pb Hpb]. by destruct (Hc b pb Hpb) as (nb & -> & _).
      * apply last_None in El as ->. done.
    + apply (call_ok_same s _ q _); [done| | |intros Hh|by apply Hc].
      * intros c Hf. split; [|done]. rewrite follows_snoc. by left.
      * intros Hb'. rewrite elem_of_app, list_elem_of_singleton. naive_solver.
      * split; [by destruct q; [|injection Hh as ->]|]. split; [done|]. rewrite last_snoc. congruence.
  - intros b c. rewrite elem_of_app, list_elem_of_singleton, follows_snoc. change (next_of _ b) with (next_of s b).
    intros [Hb| ->].
    + intros Hn'. destruct (Hx b c Hb Hn') as [Hf Hs]. split; [by left|]. rewrite lookup_insert_ne; [done|].
      intros <-. by apply follows_elem in Hf as [_ ?].
    + unfold next_of. rewrite Hn. cbn. congruence.
Qed.
(** A call outside the queue ends. *)
Lemma inv_finish s a : mcs_inv s → a ∉ mcs_queue s → mcs_inv (finish a s).
Proof.
  intros [Ht Hnd Hq Hc Hx] Ha.
  assert (∀ c, c ∈ mcs_queue s → next_of (finish a s) c = next_of s c) as Enext.
  { intros c Hc'. unfold next_of. cbn. rewrite lookup_delete_ne; [done|]. by intros <-. }
  constructor; cbn [mcs_tail mcs_queue mcs_calls finish]; try done.
  - intros b Hb. rewrite lookup_delete_ne; [by auto|]. by intros <-.
  - intros b p [Hne Hb]%lookup_delete_Some.
    apply (call_ok_same s _ (mcs_queue s) (mcs_queue s)); [cbn; by rewrite lookup_delete_ne| |done|done|by apply Hc].
    intros c Hf. split; [done|]. apply Enext. by apply follows_elem in Hf as [? ?].
  - intros b c Hb. rewrite (Enext b Hb). intros Hn. destruct (Hx b c Hb Hn) as [Hf Hs]. split; [done|].
    rewrite lookup_delete_ne; [done|]. intros <-. by apply follows_elem in Hf as [_ ?].
Qed.

(** A waiter makes itself known to its predecessor. *)
Lemma inv_link s a b nb :
  mcs_inv s → mcs_calls s !! a = Some (Link b) → mcs_nodes s !! b = Some nb →
  mcs_inv (goto a Spin (set_node b (mkMCSNode (Some a) (node_locked nb)) s)).
Proof.
  intros [Ht Hnd Hq Hc Hx] Ha Hb. destruct (Hc a _ Ha) as (n & Hn & Hl & Hf & _).
  assert (a ≠ b) as Hab by (intros ->; by destruct (follows_irrefl _ _ Hnd Hf)).
  destruct (follows_elem _ _ _ Hf) as [Hbq Haq].
  constructor; cbn [mcs_tail mcs_queue mcs_calls goto set_node]; try done.
  - intros c Hc'. rewrite lookup_insert_is_Some. destruct (decide (a = c)); auto.
  - intros c p. rewrite lookup_insert_Some. intros [[<- <-]|[Hne Hc']].
    + exists n. cbn. rewrite lookup_insert_ne by done. split; [done|]. left. split; [done|]. exists b.
      split; [done|]. unfold next_of. cbn. by rewrite lookup_insert_eq.
    + apply (call_ok_frame s _ (mcs_queue s) (mcs_queue s)); [|intros d Hd|done|done|by apply Hc].
      * cbn. intros nc Hnc. destruct (decide (b = c)) as [<-|]; [|rewrite lookup_insert_ne by done; by eauto].
        rewrite lookup_insert_eq. eexists. split; [done|]. cbn. split; [congruence|]. right. split; [done|].
        intros d ->. destruct (Hc b _ Hc') as (nb' & Hnb' & _ & _ & Hd).
        destruct (Hx b d Hbq) as [Hfd Hsp]; [unfold next_of; rewrite Hnb'; cbn; congruence|].
        rewrite (follows_inj_r _ _ _ _ Hnd Hfd Hf) in Hsp. congruence.
      * split; [done|]. unfold next_of. cbn. rewrite lookup_insert_ne; [done|].
        intros <-. destruct Hne. by eapply follows_inj_r.
  - intros c d Hc'. unfold next_of. cbn. destruct (decide (b = c)) as [<-|].
    + rewrite lookup_insert_eq. intros [= <-]. by rewrite lookup_insert_eq.
    + rewrite lookup_insert_ne by done. intros Hn'. destruct (Hx c d Hc' Hn') as [? ?]. split; [done|].
      destruct (decide (a = d)) as [<-|]; [by rewrite lookup_insert_eq|by rewrite lookup_insert_ne].
Qed.

(** The last owner leaves. *)
Lemma inv_empty s a :
  mcs_inv s → mcs_calls s !! a = Some ResetTail → mcs_tail s = Some a →
  mcs_inv (finish a (set_queue [] (set_tail None s))).
Proof.
  intros [Ht Hnd Hq Hc Hx] Ha Ht'. destruct (Hc a _ Ha) as (_ & _ & Hh & _).
  assert (mcs_queue s = [a]) as Eq.
  { destruct (mcs_queue s) as [|h [|b q]] eqn:E; [done|by injection Hh as ->|].
    injection Hh as ->. destruct (follows_not_last (a :: b :: q) a b); [done|by exists [], q|]. by rewrite <- Ht. }
  constructor; cbn [mcs_tail mcs_queue mcs_calls goto set_tail set_queue finish]; try done.
  - constructor.
  - by intros b ?%elem_of_nil.
  - intros b p [Hne Hb]%lookup_delete_Some.
    apply (call_ok_same s _ (mcs_queue s) []); [cbn; by rewrite lookup_delete_ne| | |rewrite Eq; cbn; congruence|by apply Hc].
    + rewrite Eq. intros c Hf. apply follows_cons in Hf as [[_ [=]]|[]%follows_nil].
    + intros _. apply not_elem_of_nil.
  - by intros b c ?%elem_of_nil.
Qed.

(** The owner hands the lock to the waiter behind it. *)
Lemma inv_signal s a b nb :
  mcs_inv s → mcs_calls s !! a = Some (Signal b) → mcs_nodes s !! b = Some nb →
  mcs_inv (finish a (set_queue (tail (mcs_queue s)) (set_node b (mkMCSNode (next nb) false) s))).
Proof.
  intros [Ht Hnd Hq Hc Hx] Ha Hb. destruct (Hc a _ Ha) as (n & Hn & Hh & Ho & Hnx).
  assert (a ∈ mcs_queue s) as Haq by by apply head_elem.
  destruct (Hx a b Haq) as [Hf Hsp]; [unfold next_of; by rewrite Hn; cbn; rewrite Hnx|].
  destruct (mcs_queue s) as [|a' q] eqn:Eq; [done|]. injection Hh as ->. cbn [tail].
  pose proof Hnd as [Haq' Hnd']%NoDup_cons. apply follows_cons in Hf as [[_ Hhb]|Hf]; [|by apply follows_elem in Hf as [? ?]].
  set (s' := finish a _).
  assert (∀ c, c ≠ a → next_of s' c = next_of s c) as Enext.
  { intros c Hne. unfold next_of, s'. cbn. rewrite lookup_delete_ne by done. destruct (decide (b = c)) as [<-|].
    - rewrite lookup_insert_eq, Hb. done.
    - by rewrite lookup_insert_ne. }
  assert (∀ c d, follows (a :: q) c d → d ≠ b → follows q c d) as Hpop.
  { intros c d [[-> Hd]|?]%follows_cons ?; [congruence|done]. }
  constructor; unfold s'; cbn [mcs_tail mcs_queue mcs_calls goto set_node set_queue finish].
  - rewrite Ht. destruct q; [done|]. by rewrite last_cons_cons.
  - done.
  - intros c Hc'. rewrite lookup_delete_ne; [apply Hq; by right|]. by intros <-.
  - fold s'. intros c p [Hne Hc']%lookup_delete_Some. destruct (decide (c = b)) as [-> |Hcb].
    + assert (p = Spin) as -> by congruence. exists (mkMCSNode (next nb) false). unfold s'. cbn.
      rewrite lookup_delete_ne, lookup_insert_eq by done. split; [done|]. by right.
    + apply (call_ok_same s _ (a :: q) q); [|intros d Hd|intros Hcq|cbn; congruence|by apply Hc].
      * unfold s'. cbn. by rewrite lookup_delete_ne, lookup_insert_ne.
      * split; [by apply Hpop|]. apply Enext. intros ->. apply follows_cons in Hd as [[_ Hd]|[Hd _]%follows_elem]; congruence.
      * intros ?. destruct Hcq. by right.
  - fold s'. intros c d Hcq. assert (c ≠ a) as Hca by (by intros ->). rewrite Enext by done. intros Hn'.
    destruct (Hx c d ltac:(by right) Hn') as [Hfd Hd].
    assert (d ≠ b) as Hdb by (intros ->; apply Hca; apply (follows_inj_l (a :: q) c a b Hnd Hfd); apply follows_cons; auto).
    split; [by apply Hpop|]. rewrite lookup_delete_ne; [done|]. intros <-. by destruct (follows_not_head _ _ _ Hnd Hfd).
Qed.
(** A call whose start is not in the queue stays out of it. *)
Lemma not_queued s a : mcs_inv s → mcs_calls s !! a = None → a ∉ mcs_queue s.
Proof. intros Hi Ha Hin. destruct (mi_queue s Hi a Hin) as [p ?]. congruence. Qed.

(** The start of a call: its node is fresh. *)
Lemma inv_start s a n p :
  mcs_inv s → mcs_nodes s !! a = None → mcs_calls s !! a = None → p = ResetNext ∨ p = TryLoad →
  mcs_inv (goto a p (set_node a n s)).
Proof.
  intros Hi Hn Hc Hp. pose proof (not_queued s a Hi Hc) as Hq.
  apply (inv_local s _ a p); cbn; try done; [|by left|rewrite Hc; by left|].
  - intros b Hb. rewrite lookup_insert_ne; [done|]. intros <-. by destruct Hb.
  - exists n. cbn. rewrite lookup_insert_eq. by destruct Hp as [-> | ->].
Qed.

(** A store to the node of a call that is not queued yet. *)
Lemma inv_own_store s a p n n' p' :
  mcs_inv s → mcs_calls s !! a = Some p → p ≠ Spin → a ∉ mcs_queue s → mcs_nodes s !! a = Some n →
  match p' with
  | TryResetNext => True
  | ResetLocked | TryResetLocked => next n' = None
  | Exchange | TryExchange => next n' = None ∧ node_locked n' = true
  | _ => False end →
  mcs_inv (goto a p' (set_node a n' s)).
Proof.
  intros Hi Hp Hsp Hq Hn Hok. apply (inv_local s _ a p'); cbn; try done; [|by left|left; congruence|].
  - intros b Hb. rewrite lookup_insert_ne; [done|]. intros <-. by destruct Hb.
  - exists n'. cbn. rewrite lookup_insert_eq. split; [done|]. by destruct p'.
Qed.

(** A step inside the call at the head of the queue. *)
Lemma inv_head s a p p' o :
  mcs_inv s → mcs_calls s !! a = Some p → head (mcs_queue s) = Some a →
  call_ok (goto a p' (set_owner o s)) (mcs_queue s) a p' → mcs_inv (goto a p' (set_owner o s)).
Proof. intros Hi Hp Hh Hok. apply (inv_local s _ a p'); cbn; auto. Qed.

Lemma head_call s a p :
  mcs_inv s → mcs_calls s !! a = Some p → p = SetOwner ∨ p = Locked ∨ p = LoadNext ∨ p = ResetTail ∨ p = AwaitNext →
  head (mcs_queue s) = Some a ∧ (p ≠ SetOwner → mcs_owner s = Some a) ∧
  (p = AwaitNext → last (mcs_queue s) ≠ Some a) ∧ ∃ n, mcs_nodes s !! a = Some n.
Proof.
  intros Hi Hp H. destruct (mi_call s Hi a p Hp) as (n & Hn & Hok).
  destruct H as [-> |[-> |[-> |[-> | ->]]]]; naive_solver.
Qed.

Lemma set_owner_same s : set_owner (mcs_owner s) s = s.
Proof. by destruct s. Qed.

(** A step of a call that is past its exchange and owns the lock or gets it. *)
Lemma inv_advance_head s s' a p :
  mcs_inv s → mcs_calls s !! a = Some p → p = SetOwner ∨ p = LoadNext ∨ p = ResetTail ∨ p = AwaitNext →
  advance a p s = Some s' → mcs_inv s'.
Proof.
  intros Hi Hp H. destruct (head_call s a p Hi Hp) as (Hh & Ho & Hl & n & Hn); [tauto|].
  assert (∀ p', (∃ n, mcs_nodes s !! a = Some n ∧ match p' with
      | ResetTail => True | AwaitNext => last (mcs_queue s) ≠ Some a | Signal b => next n = Some b | _ => False end) →
      mcs_owner s = Some a → mcs_inv (goto a p' s)) as Hgo.
  { intros p' (n' & Hn' & Hok) Ho'. rewrite <- (set_owner_same s). apply (inv_head s a p); [done|done|done|].
    rewrite set_owner_same. exists n'. split; [done|]. by destruct p'. }
  destruct H as [-> |[-> |[-> | ->]]]; cbn.
  - intros [= <-]. apply (inv_head s a SetOwner); [done|done|done|]. by exists n.
  - rewrite Hn. cbn. intros [= <-]. specialize (Ho ltac:(done)). apply Hgo; [|done]. exists n. split; [done|]. by destruct (next n).
  - intros [= <-]. specialize (Ho ltac:(done)). destruct (decide _) as [Ht|Ht]; [by apply inv_empty|].
    apply Hgo; [|done]. exists n. split; [done|]. by rewrite <- (mi_tail s Hi).
  - rewrite Hn. cbn. intros [= <-]. specialize (Ho ltac:(done)). destruct (next n) as [b|] eqn:En; [|done].
    apply Hgo; [|done]. by exists n.
Qed.

Lemma inv_advance s s' a p : mcs_inv s → mcs_calls s !! a = Some p → advance a p s = Some s' → mcs_inv s'.
Proof.
  intros Hi Hp. destruct (mi_call s Hi a p Hp) as (n & Hn & Hok). destruct p.
  1,2,13,14: cbn; unfold store_next, store_locked; rewrite Hn; cbn; intros [= <-];
    eapply inv_own_store; try done; destruct Hok; by try split.
  1: { cbn. intros [= <-]. apply inv_enqueue; [done|by eexists|by exists n|done]. }
  1: { cbn. unfold store_next. destruct (mcs_nodes s !! predecessor) as [nb|] eqn:Eb; [|done]. cbn. intros [= <-].
       by apply inv_link. }
  1: { cbn. rewrite Hn. cbn. destruct (node_locked n) eqn:El; intros [= <-]; [done|].
       destruct Hok as [[? _]|[_ Hh]]; [congruence|]. rewrite <- (set_owner_same s) at 1.
       apply (inv_head s a Spin); [done|done|done|]. by exists n. }
  1: by eapply inv_advance_head; eauto.
  1: by intros [= <-].
  1,2,3: by eapply inv_advance_head; eauto 6.
  1: { cbn. unfold store_locked. destruct (mcs_nodes s !! next0) as [nb|] eqn:Eb; [|done]. cbn. intros [= <-].
       by apply (inv_signal s a next0 nb). }
  all: cbn; intros [= <-].
  - destruct (mcs_tail s); [by apply inv_finish|].
    pose proof (inv_own_store s a TryLoad n n TryResetNext Hi Hp ltac:(done) Hok Hn I) as H.
    unfold set_node in H. rewrite (insert_id _ _ _ Hn) in H. by destruct s.
  - destruct Hok as [Hq Hok]. destruct (mcs_tail s) eqn:Et; [by apply inv_finish|].
    apply inv_enqueue; [done|by eexists|by exists n|by rewrite Et].
Qed.

Lemma mcs_inv_init : mcs_inv mcs_init.
Proof. constructor; cbn; try done; try apply NoDup_nil_2; by intros a ?%elem_of_nil. Qed.

Lemma mcs_step_inv s s' a l : mcs_step a l s s' → mcs_inv s → mcs_inv s'.
Proof.
  intros Hs Hi. inversion Hs; subst; [by apply inv_start; auto|by apply inv_start; auto| |by eapply inv_advance].
  destruct (head_call s a Locked Hi) as (Hh & Ho & _ & n & Hn); [done|tauto|].
  rewrite <- (set_owner_same s) at 1. apply (inv_head s a Locked); [done|done|done|]. rewrite set_owner_same.
  exists n. split; [done|]. split; [done|]. by apply Ho.
Qed.

Lemma mcs_reachable_inv s : mcs_reachable s → mcs_inv s.
Proof.
  intros Hr. assert (mcs_inv mcs_init) as H0 by apply mcs_inv_init. unfold mcs_reachable in Hr.
  induction Hr as [s | s s1 s2 (a & l & Hs) _ IH]; [done|]. apply IH. by eapply mcs_step_inv.
Qed.

(** Every access of a call is to a node that is allocated. *)
Lemma inv_no_fault s : mcs_inv s → ¬ mcs_faulty s.
Proof.
  intros Hi (a & p & Hp & Hf). destruct (mi_call s Hi a p Hp) as (n & Hn & Hok).
  destruct p; cbn in Hf; unfold store_next, store_locked in Hf; rewrite ?Hn in Hf; try done.
  - destruct Hok as (_ & _ & [m Hm]). unfold next_of in Hm. by destruct (mcs_nodes s !! predecessor).
  - destruct Hok as (Hh & _ & Hx). destruct (mi_next s Hi a next0) as [Hfo Hs].
    + by apply head_elem.
    + unfold next_of. rewrite Hn. cbn. by rewrite Hx.
    + destruct (mi_call s Hi _ _ Hs) as (nb & Hnb & _). by rewrite Hnb in Hf.
Qed.
End invariant.

(** ** The contract *)

Lemma mcs_holds_head s a : mcs_inv s → mcs_holds a s → head (mcs_queue s) = Some a.
Proof. intros Hi Ha. by destruct (mi_call s Hi a Locked Ha) as (_ & _ & Hh & _). Qed.

Lemma mcs_excl a b s : mcs_inv s → mcs_holds a s → mcs_holds b s → a = b.
Proof. intros Hi Ha%mcs_holds_head Hb%mcs_holds_head; [congruence|done|done]. Qed.

(** Only the own call of a step changes its place. *)
Lemma advance_calls a p s s' b : advance a p s = Some s' → b ≠ a → mcs_calls s' !! b = mcs_calls s !! b.
Proof.
  intros H Hne. destruct p; cbn in H; unfold store_next, store_locked in H;
    repeat match type of H with context [mcs_nodes s !! ?x] => destruct (mcs_nodes s !! x); cbn in H; try done end;
    injection H as <-; repeat case_match; cbn; rewrite ?lookup_insert_ne, ?lookup_delete_ne by done; done.
Qed.

Lemma mcs_keep a i b s s' :
  mcs_inv s → mcs_step a i s s' → mcs_holds b s → (a = b → i ≠ DoUnlock) → mcs_holds b s'.
Proof.
  unfold mcs_holds. intros Hi Hs Hb Hne. destruct (decide (b = a)) as [-> |Hab].
  - inversion Hs; subst; try congruence. by destruct Hne.
  - inversion Hs; subst; cbn; rewrite ?lookup_insert_ne by done; try done. by rewrite (advance_calls a p s s' b).
Qed.

#[export] Instance mcs_is_lock : Lock MCSLock := {|
  lock_init := mcs_init; lock_step := mcs_step; lock_holds := mcs_holds; lock_inv := mcs_inv;
  lock_inv_init := mcs_inv_init;
  lock_inv_step a i s s' Hi Hs := mcs_step_inv s s' a i Hs Hi;
  lock_excl := mcs_excl;
  lock_keep := mcs_keep;
|}.

(** ** The abstract lock *)

(** A queue of calls of which the first may own the lock. *)
Record fifo_lock := mkFifo { fl_queue : list nat; fl_held : bool }.
Inductive fifo_step : fifo_lock → fifo_lock → Prop :=
  | fl_enqueue a q h : a ∉ q → fifo_step (mkFifo q h) (mkFifo (q ++ [a]) h)
  | fl_grant a q : fifo_step (mkFifo (a :: q) false) (mkFifo (a :: q) true)
  | fl_release a q : fifo_step (mkFifo (a :: q) true) (mkFifo q false).

Definition owns (p : mcs_pc) : bool :=
  match p with Locked | LoadNext | ResetTail | AwaitNext | Signal _ => true | _ => false end.
Definition mcs_abs s : fifo_lock :=
  mkFifo (mcs_queue s)
    (match head (mcs_queue s) with
     | Some a => match mcs_calls s !! a with Some p => owns p | None => false end
     | None => false
     end).

(** *** Work ahead of a waiter *)

Section progress.
Implicit Types (s : MCSLock) (a b x : nat) (p : mcs_pc) (q : list nat).

(** The accesses left to a call until it has passed the lock on. *)
Definition weight p : nat :=
  match p with
  | Link _ => 8 | Spin => 7 | SetOwner => 6 | Locked => 5
  | LoadNext => 4 | ResetTail => 3 | AwaitNext => 2 | Signal _ => 1 | _ => 0
  end.
Fixpoint upto x q : list nat :=
  match q with [] => [] | y :: q => y :: (if decide (y = x) then [] else upto x q) end.
Definition weight_at (m : gmap nat mcs_pc) a : nat := match m !! a with Some p => weight p | None => 0 end.
(** The accesses left to [x] and to the calls ahead of it. *)
Definition work x s : nat := sum_list_with (weight_at (mcs_calls s)) (upto x (mcs_queue s)).

(** The call waits for the lock. *)
Definition waiting x s : Prop :=
  match mcs_calls s !! x with Some (Link _) | Some Spin | Some SetOwner => True | _ => False end.

Lemma upto_subset x y q : y ∈ upto x q → y ∈ q.
Proof.
  induction q as [|z q IH]; [done|]. cbn. rewrite !elem_of_cons. destruct (decide (z = x)); [|naive_solver].
  rewrite elem_of_nil. tauto.
Qed.
Lemma upto_head x q h : head q = Some h → h ∈ upto x q.
Proof. destruct q; [done|]. intros [= ->]. by left. Qed.
Lemma upto_snoc x q z : x ∈ q → upto x (q ++ [z]) = upto x q.
Proof.
  induction q as [|y q IH]; [by intros ?%elem_of_nil|]. cbn. intros [-> |Hx]%elem_of_cons; [by destruct (decide _)|].
  by rewrite IH.
Qed.
Lemma upto_nodup x q : NoDup q → NoDup (upto x q).
Proof.
  induction q as [|y q IH]; [done|]. intros [Hy Hq]%NoDup_cons. cbn. apply NoDup_cons. destruct (decide (y = x)).
  - split; [apply not_elem_of_nil|apply NoDup_nil_2].
  - split; [by intros ?%upto_subset|by apply IH].
Qed.
Lemma upto_second x q h b : follows q h b → head q = Some h → NoDup q → h ≠ x → b ∈ upto x q.
Proof.
  destruct q as [|h' q]; intros Hf [= ->] [Hh Hnd]%NoDup_cons Hx.
  apply follows_cons in Hf as [[_ Hb]|[Hf _]%follows_elem]; [|done].
  cbn. rewrite decide_False by done. right. by apply upto_head.
Qed.

Lemma sum_update m a p p' l :
  m !! a = Some p → NoDup l →
  (sum_list_with (weight_at (<[a := p']> m)) l + (if decide (a ∈ l) then weight p else 0) =
   sum_list_with (weight_at m) l + (if decide (a ∈ l) then weight p' else 0))%nat.
Proof.
  intros Ha. induction l as [|c l IH]; intros Hnd; [by rewrite !decide_False by apply not_elem_of_nil|].
  apply NoDup_cons in Hnd as [Hc Hnd]. specialize (IH Hnd). cbn [sum_list_with].
  unfold weight_at at 1 3. destruct (decide (c = a)) as [-> |Hne].
  - rewrite lookup_insert_eq, Ha. rewrite (decide_False (P := a ∈ l)) in IH by done.
    rewrite !(decide_True (P := a ∈ a :: l)) by by left. rewrite (decide_False (P := a ∈ l)) in IH by done. lia.
  - rewrite lookup_insert_ne by done. destruct (decide (a ∈ l)); destruct (decide (a ∈ c :: l)) as [H|H]; try lia.
    + destruct H. by right.
    + apply elem_of_cons in H as [|]; congruence.
Qed.

Lemma sum_same m m' l : (∀ c, c ∈ l → m' !! c = m !! c) → sum_list_with (weight_at m') l = sum_list_with (weight_at m) l.
Proof.
  induction l as [|c l IH]; intros H; [done|]. cbn. unfold weight_at at 1 3. rewrite (H c) by by left. f_equal.
  apply IH. intros d Hd. apply H. by right.
Qed.

(** *** What a step does *)

(** A call moves on, acts outside the queue, joins it, or passes the lock on. *)
Inductive effect a s s' : Prop :=
  | ef_move p p' :
      mcs_calls s !! a = Some p → mcs_calls s' = <[a := p']> (mcs_calls s) → mcs_queue s' = mcs_queue s →
      (weight p' ≤ weight p)%nat → owns p' = owns p ∨ (p = SetOwner ∧ p' = Locked) → effect a s s'
  | ef_out :
      a ∉ mcs_queue s → mcs_queue s' = mcs_queue s → (∀ c, c ≠ a → mcs_calls s' !! c = mcs_calls s !! c) → effect a s s'
  | ef_enqueue p :
      a ∉ mcs_queue s → mcs_queue s' = mcs_queue s ++ [a] → mcs_calls s' !! a = Some p → owns p = false →
      (∀ c, c ≠ a → mcs_calls s' !! c = mcs_calls s !! c) → effect a s s'
  | ef_pop p q :
      mcs_calls s !! a = Some p → owns p = true → mcs_queue s = a :: q → mcs_queue s' = q →
      (∀ c, c ≠ a → mcs_calls s' !! c = mcs_calls s !! c) →
      (∀ b, head q = Some b → mcs_calls s !! b = Some Spin) → effect a s s'.

Lemma effect_stutter a s p : mcs_calls s !! a = Some p → effect a s s.
Proof. intros H. apply (ef_move a s s p p); auto. by rewrite insert_id. Qed.

Lemma advance_effect a p s s' :
  mcs_inv s → mcs_calls s !! a = Some p → p ≠ Locked → advance a p s = Some s' → effect a s s'.
Proof.
  intros Hi Hp Hl H. pose proof (λ c, advance_calls a p s s' c H) as Hsame.
  destruct (mi_call s Hi a p Hp) as (n & Hn & Hok).
  destruct p; cbn in H; unfold store_next, store_locked in H; rewrite ?Hn in H; cbn in H.
  1,2,13,14: injection H as <-; apply ef_out; [first [exact Hok|exact (proj1 Hok)]|done|by auto].
  2: destruct (mcs_nodes s !! predecessor) eqn:Eb; cbn in H; [|done].
  9: destruct (mcs_nodes s !! next0) eqn:Eb; cbn in H; [|done].
  all: injection H as <-.
  - eapply ef_enqueue; [by destruct Hok|done|cbn; by rewrite lookup_insert_eq|by case_match|by auto].
  - eapply ef_move; [done|done|done|cbn; lia|by left].
  - destruct (node_locked n); [by eapply effect_stutter|]. eapply ef_move; [done|done|done|cbn; lia|by left].
  - eapply ef_move; [done|done|done|cbn; lia|by right].
  - done.
  - eapply ef_move; [done|done|done|case_match; cbn; lia|left; by case_match].
  - destruct (decide _) as [Ht|Ht]; [|eapply ef_move; [done|done|done|cbn; lia|by left]].
    destruct Hok as [Hh _]. destruct (mcs_queue s) as [|h q] eqn:Eq; [done|]. injection Hh as ->.
    assert (q = []) as ->.
    { rewrite (mi_tail s Hi), Eq in Ht. destruct q as [|b q]; [done|].
      pose proof (mi_nodup s Hi) as Hnd. rewrite Eq in Hnd.
      destruct (follows_not_last (a :: b :: q) a b); [done|by exists [], q|done]. }
    by apply (ef_pop a s _ ResetTail []).
  - destruct (next n); [|by eapply effect_stutter]. eapply ef_move; [done|done|done|cbn; lia|by left].
  - destruct Hok as (Hh & _ & Hx). destruct (mcs_queue s) as [|h q] eqn:Eq; [done|]. injection Hh as ->.
    apply (ef_pop a s _ (Signal next0) q); [done|done|done|done|by auto|]. intros b Hb.
    destruct (mi_next s Hi a next0) as [Hf Hs]; [rewrite Eq; by left|unfold next_of; rewrite Hn; cbn; by rewrite Hx|].
    pose proof (mi_nodup s Hi) as Hnd. rewrite Eq in Hnd, Hf.
    by rewrite (follows_inj_r _ a b next0 Hnd); [|apply follows_cons; left|].
  - destruct (mcs_tail s); apply ef_out; auto.
  - destruct (mcs_tail s); [apply ef_out; [exact (proj1 Hok)|done|by auto]|].
    eapply ef_enqueue; [by destruct Hok|done|cbn; by rewrite lookup_insert_eq|done|by auto].
Qed.

Lemma step_effect a i s s' : mcs_inv s → mcs_step a i s s' → effect a s s'.
Proof.
  intros Hi Hs. inversion Hs; subst; [| | |by eapply advance_effect].
  - apply ef_out; [by apply not_queued|done|]. intros c Hc. cbn. by rewrite lookup_insert_ne.
  - apply ef_out; [by apply not_queued|done|]. intros c Hc. cbn. by rewrite lookup_insert_ne.
  - eapply ef_move; [done|done|done|cbn; lia|by left].
Qed.
(** *** Progress *)

Lemma waiting_queued x s : mcs_inv s → waiting x s → x ∈ mcs_queue s.
Proof.
  unfold waiting. intros Hi Hw. destruct (mcs_calls s !! x) as [p|] eqn:Hp; [|done].
  destruct (mi_call s Hi x p Hp) as (n & Hn & Hok). destruct p; try done; [| |by apply head_elem].
  - destruct Hok as (_ & [_ ?]%follows_elem & _). done.
  - destruct Hok as [(_ & b & [_ ?]%follows_elem & _)|[_ ?]]; [done|by apply head_elem].
Qed.

Lemma work_effect x a s s' :
  mcs_inv s → waiting x s → effect a s s' →
  (work x s' ≤ work x s)%nat ∧
  (a ∈ upto x (mcs_queue s) → (weight_at (mcs_calls s') a < weight_at (mcs_calls s) a)%nat → (work x s' < work x s)%nat).
Proof.
  intros Hi Hw He. pose proof (waiting_queued x s Hi Hw) as Hx. unfold work.
  destruct He as [p p' Hp Hc Hq Hle _|Ha Hq Hc|p Ha Hq _ _ Hc|p q Hp Ho Hq Hq' Hc _].
  - rewrite Hc, Hq. pose proof (sum_update _ a p p' (upto x (mcs_queue s)) Hp (upto_nodup x _ (mi_nodup s Hi))) as Hsum.
    unfold weight_at at 3 4. rewrite lookup_insert_eq, Hp. destruct (decide _); split; intros; try done; lia.
  - rewrite Hq. rewrite (sum_same (mcs_calls s) (mcs_calls s')).
    + split; [done|]. by intros ?%upto_subset.
    + intros c Hc'. apply Hc. intros ->. by apply upto_subset in Hc'.
  - rewrite Hq, upto_snoc by done. rewrite (sum_same (mcs_calls s) (mcs_calls s')).
    + split; [done|]. by intros ?%upto_subset.
    + intros c Hc'. apply Hc. intros ->. by apply upto_subset in Hc'.
  - assert (a ≠ x) as Hax by (intros ->; unfold waiting in Hw; rewrite Hp in Hw; by destruct p).
    pose proof (mi_nodup s Hi) as Hnd. rewrite Hq in Hnd |- *. apply NoDup_cons in Hnd as [Haq _]. rewrite Hq'.
    cbn [upto sum_list_with]. rewrite decide_False by done. rewrite (sum_same (mcs_calls s) (mcs_calls s')).
    + split; [lia|]. intros _ ?. lia.
    + intros c Hc'. apply Hc. intros ->. by apply upto_subset in Hc'.
Qed.

(** A waiting call keeps waiting until it has the lock. *)
Lemma waiting_step x a i s s' : mcs_step a i s s' → waiting x s → waiting x s' ∨ mcs_holds x s'.
Proof.
  unfold waiting, mcs_holds. intros Hs Hw. destruct (decide (x = a)) as [-> |Hne].
  - inversion Hs as [? n ? Hn Hc|? n ? Hn Hc|? ? Hc|? p ? ? Hp Hl Ha]; subst; rewrite ?Hc in Hw; try done.
    rewrite Hp in Hw. destruct p; try done; cbn in Ha.
    + unfold store_next in Ha. destruct (mcs_nodes s !! predecessor); [|done]. injection Ha as <-. cbn.
      rewrite lookup_insert_eq. by left.
    + destruct (mcs_nodes s !! a) as [n|]; [|done]. injection Ha as <-. destruct (node_locked n); cbn;
        rewrite ?lookup_insert_eq, ?Hp; by left.
    + injection Ha as <-. cbn. rewrite lookup_insert_eq. by right.
  - left. inversion Hs; subst; cbn; rewrite ?lookup_insert_ne by done; try done. by rewrite (advance_calls a p s s' x).
Qed.

(** Some call at or ahead of a waiter can make a step towards its turn. *)
Lemma waiting_progress x s :
  mcs_inv s → waiting x s →
  ∃ a i s', mcs_step a i s s' ∧ a ∈ upto x (mcs_queue s) ∧ (weight_at (mcs_calls s') a < weight_at (mcs_calls s) a)%nat.
Proof.
  intros Hi Hw. pose proof (waiting_queued x s Hi Hw) as Hx. pose proof (mi_nodup s Hi) as Hnd.
  destruct (head (mcs_queue s)) as [h|] eqn:Hh; [|by destruct (mcs_queue s); [apply elem_of_nil in Hx|]].
  pose proof (head_elem _ _ Hh) as Hhq. destruct (mi_queue s Hi h Hhq) as [p Hp].
  assert (∀ s', advance h p s = Some s' → p ≠ Locked →
    (weight_at (mcs_calls s') h < weight p)%nat → ∃ a i s', mcs_step a i s s' ∧ a ∈ upto x (mcs_queue s) ∧
    (weight_at (mcs_calls s') a < weight_at (mcs_calls s) a)%nat) as Hgo.
  { intros s' Ha Hl Hlt. exists h, Progress, s'. split; [by econstructor|]. split; [by apply upto_head|].
    unfold weight_at at 2. by rewrite Hp. }
  destruct (mi_call s Hi h p Hp) as (n & Hn & Hok). destruct p; cbn [advance] in Hgo; rewrite ?Hn in Hgo.
  - done.
  - by destruct Hok.
  - by destruct Hok.
  - destruct Hok as (_ & Hf & _). by destruct (follows_not_head _ _ _ Hnd Hf).
  - destruct Hok as [(_ & b & Hf & _)|[Hl _]]; [by destruct (follows_not_head _ _ _ Hnd Hf)|].
    cbn in Hgo. rewrite Hl in Hgo. eapply Hgo; [done|done|]. unfold weight_at. cbn. rewrite lookup_insert_eq. cbn. lia.
  - eapply Hgo; [done|done|]. unfold weight_at. cbn. rewrite lookup_insert_eq. cbn. lia.
  - exists h, DoUnlock, (goto h LoadNext s). split; [by constructor|]. split; [by apply upto_head|].
    unfold weight_at. cbn. rewrite lookup_insert_eq, Hp. cbn. lia.
  - eapply Hgo; [done|done|]. unfold weight_at. cbn. rewrite lookup_insert_eq. destruct (next n); cbn; lia.
  - eapply Hgo; [done|done|]. unfold weight_at. destruct (decide _); cbn; rewrite ?lookup_delete_eq, ?lookup_insert_eq; cbn; lia.
  - destruct Hok as (_ & _ & Hl). destruct (head_not_last _ _ Hh Hl) as [b Hf].
    destruct (next n) as [c|] eqn:Enx.
    { eapply Hgo; [done|done|]. rewrite Enx. unfold weight_at. cbn. rewrite lookup_insert_eq. cbn. lia. }
    assert (h ≠ x) as Hhx by (intros ->; unfold waiting in Hw; by rewrite Hp in Hw).
    pose proof (upto_second x _ h b Hf Hh Hnd Hhx) as Hb. destruct (follows_elem _ _ _ Hf) as [_ Hbq].
    destruct (mi_queue s Hi b Hbq) as [pb Hpb]. destruct (mi_call s Hi b pb Hpb) as (nb & Hnb & Hokb).
    assert (head (mcs_queue s) ≠ Some b) as Hnh by by eapply follows_not_head.
    destruct pb; try (by destruct Hokb).
    + destruct Hokb as (_ & Hf' & [m Hm]). pose proof (follows_inj_l _ _ _ _ Hnd Hf Hf') as <-.
      eexists b, Progress, _. split; [econstructor; [done|done|cbn; unfold store_next; rewrite Hn; done]|].
      split; [done|]. unfold weight_at. cbn. rewrite lookup_insert_eq, Hpb. cbn. lia.
    + destruct Hokb as [(_ & d & Hf' & Hd)|[_ ?]]; [|done]. pose proof (follows_inj_l _ _ _ _ Hnd Hf Hf') as <-.
      unfold next_of in Hd. rewrite Hn in Hd. cbn in Hd. congruence.
  - pose proof (inv_no_fault s Hi) as Hnf.
    destruct (advance h (Signal next0) s) as [s'|] eqn:Ea; [|by destruct Hnf; exists h, (Signal next0)].
    cbn [advance] in Ea. eapply Hgo; [exact Ea|done|]. unfold store_locked in Ea. destruct (mcs_nodes s !! next0); [|done].
    injection Ea as <-. unfold weight_at. cbn. rewrite lookup_delete_eq. cbn. lia.
  - done.
  - done.
  - by destruct Hok.
  - by destruct Hok.
Qed.

Lemma waiting_reaches x s : mcs_inv s → waiting x s → ∃ s', rtc mcs_next s s' ∧ mcs_holds x s'.
Proof.
  remember (work x s) as k eqn:Ek. revert s Ek. induction (lt_wf k) as [k _ IH]. intros s -> Hi Hw.
  destruct (waiting_progress x s Hi Hw) as (a & i & s' & Hs & Ha & Hlt).
  destruct (work_effect x a s s' Hi Hw (step_effect a i s s' Hi Hs)) as [_ Hwk].
  assert (mcs_next s s') as Hn by by exists a, i. destruct (waiting_step x a i s s' Hs Hw) as [Hw'|Hh].
  - destruct (IH (work x s') (Hwk Ha Hlt) s' eq_refl) as (s2 & Hr & Hh); [by eapply mcs_step_inv|done|].
    exists s2. split; [by eapply rtc_l|done].
  - exists s'. split; [by apply rtc_once|done].
Qed.

(** *** The abstract lock *)

Lemma effect_refines a s s' : mcs_inv s → effect a s s' → mcs_abs s' = mcs_abs s ∨ fifo_step (mcs_abs s) (mcs_abs s').
Proof.
  intros Hi He. unfold mcs_abs. destruct He as [p p' Hp Hc Hq Hle Ho|Ha Hq Hc|p Ha Hq Hp Ho Hc|p q Hp Ho Hq Hq' Hc Hn].
  - rewrite Hq, Hc. destruct Ho as [Ho|[-> ->]].
    + left. f_equal. destruct (head (mcs_queue s)) as [h|]; [|done].
      destruct (decide (h = a)) as [-> |]; [by rewrite lookup_insert_eq, Hp|by rewrite lookup_insert_ne].
    + right. destruct (head_call s a SetOwner Hi Hp ltac:(tauto)) as [Hh _].
      destruct (mcs_queue s) as [|h q]; [done|]. injection Hh as ->. cbn. rewrite lookup_insert_eq, Hp. constructor.
  - left. rewrite Hq. f_equal. destruct (head (mcs_queue s)) as [h|] eqn:Hh; [|done]. rewrite Hc; [done|].
    intros ->. by apply head_elem in Hh.
  - right. rewrite Hq. assert (∀ h, h = (match head (mcs_queue s ++ [a]) with
        | Some b => match mcs_calls s' !! b with Some p => owns p | None => false end | None => false end) →
      h = (match head (mcs_queue s) with
        | Some b => match mcs_calls s !! b with Some p => owns p | None => false end | None => false end) →
      fifo_step (mkFifo (mcs_queue s) h) (mkFifo (mcs_queue s ++ [a]) h)) as H by by constructor.
    destruct (mcs_queue s) as [|h q] eqn:Eq; cbn [app head] in *.
    + rewrite Hp in *. rewrite Ho in *. by apply H.
    + rewrite (Hc h) in *; [by apply H|intros ->; destruct Ha; by left|intros ->; destruct Ha; by left].
  - right. rewrite Hq, Hq'. cbn. rewrite Hp, Ho. destruct (head q) as [b|] eqn:Hb; [|constructor].
    rewrite (Hc b), (Hn b eq_refl); [constructor|]. intros ->. pose proof (mi_nodup s Hi) as Hnd. rewrite Hq in Hnd.
    apply NoDup_cons in Hnd as [[] _]. by apply head_elem.
Qed.
End progress.

(** ** Properties *)

(** C21: [MCSLock] is mutually exclusive and accesses no freed node. In every
    reachable state at most one call is between [lock] and [unlock]; it is the
    first of the queue of exchanges, and the member [owner] names its node, so
    that [unlock] releases the right one; and no call, waiting, unlocking or
    trying, is about to access a node that its owner has freed. *)
Theorem mcs_lock_mutual_exclusion (s : MCSLock) :
  mcs_reachable s →
  (∀ a b, mcs_holds a s → mcs_holds b s → a = b) ∧
  (∀ a, mcs_holds a s → head (mcs_queue s) = Some a ∧ mcs_owner s = Some a) ∧
  ¬ mcs_faulty s.
Proof.
  intros Hi%mcs_reachable_inv. split; [intros a b Ha Hb; by eapply mcs_excl|]. split; [|by apply inv_no_fault].
  intros a Ha. by destruct (mi_call s Hi a Locked Ha) as (_ & _ & Hh & Ho).
Qed.

(** C22: [MCSLock] implements a first-come-first-served lock. Every step of a
    reachable state is, on the queue of exchanges and whether its first call owns
    the lock, a step of the abstract lock (a call joins the end, the first call
    gets the free lock, the owner leaves and frees it) or no change. *)
Theorem mcs_lock_refines_fifo_lock (s s' : MCSLock) (a : nat) (i : lock_act) :
  mcs_reachable s → mcs_step a i s s' → mcs_abs s' = mcs_abs s ∨ fifo_step (mcs_abs s) (mcs_abs s').
Proof. intros Hi%mcs_reachable_inv Hs. eapply effect_refines; [done|by eapply step_effect]. Qed.

(** C23: no call of [lock] starves. Once it has exchanged the tail, a call waits
    until it has the lock, no step of any call increases the work ahead of it,
    there is always a call at or ahead of it with a step that decreases this
    work, and some continuation gives it the lock. *)
Theorem mcs_lock_starvation_free (s : MCSLock) (x : nat) :
  mcs_reachable s → waiting x s →
  (∀ a i s', mcs_step a i s s' → (waiting x s' ∨ mcs_holds x s') ∧ (work x s' ≤ work x s)%nat) ∧
  (∃ a i s', mcs_step a i s s' ∧ a ∈ upto x (mcs_queue s) ∧ (work x s' < work x s)%nat) ∧
  (∃ s', rtc mcs_next s s' ∧ mcs_holds x s').
Proof.
  intros Hi%mcs_reachable_inv Hw. split; [|split; [|by apply waiting_reaches]].
  - intros a i s' Hs. split; [by eapply waiting_step|]. by destruct (work_effect x a s s' Hi Hw (step_effect a i s s' Hi Hs)).
  - destruct (waiting_progress x s Hi Hw) as (a & i & s' & Hs & Ha & Hlt). exists a, i, s'. split; [done|]. split; [done|].
    by apply (work_effect x a s s' Hi Hw (step_effect a i s s' Hi Hs)).
Qed.

(** ** Witnesses *)

(** One step as a function, and a schedule of steps. *)
Definition mcs_do (x : nat * lock_act) (s : MCSLock) : option MCSLock :=
  let '(a, i) := x in
  match i, mcs_calls s !! a with
  | DoLock, None => match mcs_nodes s !! a with None => Some (goto a ResetNext (set_node a (mkMCSNode None false) s)) | _ => None end
  | DoTryLock, None => match mcs_nodes s !! a with None => Some (goto a TryLoad (set_node a (mkMCSNode None false) s)) | _ => None end
  | DoUnlock, Some Locked => Some (goto a LoadNext s)
  | Progress, Some Locked => None
  | Progress, Some p => advance a p s
  | _, _ => None
  end.
Fixpoint mcs_run (l : list (nat * lock_act)) (s : MCSLock) : option MCSLock :=
  match l with [] => Some s | x :: l => s ← mcs_do x s; mcs_run l s end.

Lemma mcs_do_step a i s s' : mcs_do (a, i) s = Some s' → mcs_step a i s s'.
Proof.
  unfold mcs_do. destruct i, (mcs_calls s !! a) as [p|] eqn:Hc; try done.
  - destruct (mcs_nodes s !! a) eqn:Hn; [done|]. intros [= <-]. by constructor.
  - destruct (mcs_nodes s !! a) eqn:Hn; [done|]. intros [= <-]. by constructor.
  - destruct p; try done. intros [= <-]. by constructor.
  - intros H. apply (mcs_progress a p); [done|by intros ->|by destruct p].
Qed.

Lemma mcs_run_reachable l s s' : mcs_reachable s → mcs_run l s = Some s' → mcs_reachable s'.
Proof.
  revert s. induction l as [|[a i] l IH]; intros s Hr; cbn [mcs_run]; [by intros [= <-]|].
  destruct (mcs_do (a, i) s) as [s1|] eqn:E; [|done]. cbn. apply IH. eapply rtc_r; [exact Hr|].
  exists a, i. by apply mcs_do_step.
Qed.

(** Call 1 takes the lock and call 2 waits behind it. *)
Definition ex_schedule : list (nat * lock_act) :=
  (1%nat, DoLock) :: replicate 4 (1%nat, Progress) ++ (2%nat, DoLock) :: replicate 5 (2%nat, Progress).
Definition ex_contended : MCSLock := default mcs_init (mcs_run ex_schedule mcs_init).

Lemma ex_contended_reachable : mcs_reachable ex_contended.
Proof. apply (mcs_run_reachable ex_schedule mcs_init); [apply rtc_refl|vm_compute; reflexivity]. Qed.

Lemma mcs_lock_mutual_exclusion_witness :
  mcs_holds 1 ex_contended ∧ mcs_owner ex_contended = Some 1%nat ∧ ¬ mcs_holds 2 ex_contended.
Proof.
  assert (mcs_holds 1 ex_contended) as H1 by (vm_compute; reflexivity).
  destruct (mcs_lock_mutual_exclusion ex_contended ex_contended_reachable) as (Hex & Hown & _).
  split; [exact H1|]. split; [apply (Hown 1%nat H1)|]. intros H2. discriminate (Hex _ _ H1 H2).
Defined.

Lemma mcs_lock_refines_fifo_lock_witness :
  ∃ s', mcs_step 2 Progress ex_contended s' ∧
    (mcs_abs s' = mcs_abs ex_contended ∨ fifo_step (mcs_abs ex_contended) (mcs_abs s')).
Proof.
  exists (default mcs_init (mcs_do (2%nat, Progress) ex_contended)).
  assert (mcs_step 2 Progress ex_contended (default mcs_init (mcs_do (2%nat, Progress) ex_contended))) as Hs.
  { apply mcs_do_step. vm_compute. reflexivity. }
  split; [exact Hs|]. apply (mcs_lock_refines_fifo_lock _ _ 2%nat Progress ex_contended_reachable Hs).
Defined.

Lemma mcs_lock_starvation_free_witness :
  waiting 2 ex_contended ∧ ∃ s', rtc mcs_next ex_contended s' ∧ mcs_holds 2 s'.
Proof.
  assert (waiting 2 ex_contended) as Hw by (vm_compute; exact I). split; [exact Hw|].
  apply (mcs_lock_starvation_free ex_contended 2%nat ex_contended_reachable Hw).
Defined.

Lemma shared_lock_excludes_witness :
  ∃ s : SharedLock MCSLock, clients s !! 1%nat = Some Writing ∧ active_readers s = Z.of_nat (readers (clients s)).
Proof.
  set (w := default mcs_init (mcs_run (firstn 5 ex_schedule) mcs_init)).
  assert (shared_reachable (mkShared w 0 (<[1%nat := Writing]> (<[1%nat := WriteLocking]> ∅)))) as Hr.
  { eapply rtc_l; [apply (sh_lock 1); [reflexivity|eapply (mcs_do_step 1 DoLock); vm_compute; reflexivity]|].
    do 4 (eapply rtc_l; [eapply (sh_inner 1); eapply (mcs_do_step 1 Progress); vm_compute; reflexivity|]).
    eapply rtc_l; [apply (sh_writing 1); [reflexivity|vm_compute; reflexivity|lia]|].
    match goal with |- rtc _ ?x ?y => enough (x = y) as -> by apply rtc_refl end. vm_compute. reflexivity. }
  eexists. split; [|apply (shared_lock_excludes _ Hr)]; vm_compute; reflexivity.
Defined.
