(* ===== verification/UniqueLock.v ===== *)
(** UniqueLock: [UniqueLock] of [include/mcsLock.hpp], the scoped owner of an
    [MCSLock], over the calls of McsLock. An object is identified by its node. *)
From S2P Require Import Prelude SharedLock McsLock.

(** ** Definitions *)

(** Where the thread of an object is: in none of its calls, in one, or past the
    destructor. *)
Inductive unique_pc := Outside | InLock | InTryLock | InUnlock | InDestructor | Destructed.
Record UniqueLock := mkUnique { ul_locked : bool; ul_pc : unique_pc }.
Record unique_sys := mkUniqueSys { lk : MCSLock; uniques : gmap nat UniqueLock }.
Definition unique_init : unique_sys := mkUniqueSys mcs_init ∅.

Section steps.
Implicit Types (s : MCSLock) (u : UniqueLock) (m : gmap nat UniqueLock) (a b : nat).

(** The calls of [lk] go on by themselves. An object calls [lock] and [try_lock]
    when it does not have the lock, and [unlock] when it has it. *)
Inductive unique_step : unique_sys → unique_sys → Prop :=
  | ul_inner a s s' m : mcs_step a Progress s s' → unique_step (mkUniqueSys s m) (mkUniqueSys s' m)
  | ul_construct a s s' m :
      m !! a = None → mcs_step a DoLock s s' →
      unique_step (mkUniqueSys s m) (mkUniqueSys s' (<[a := mkUnique true InLock]> m))
  | ul_construct_defer a s m :
      m !! a = None → mcs_calls s !! a = None →
      unique_step (mkUniqueSys s m) (mkUniqueSys s (<[a := mkUnique false Outside]> m))
  | ul_lock a s s' m :
      m !! a = Some (mkUnique false Outside) → mcs_step a DoLock s s' →
      unique_step (mkUniqueSys s m) (mkUniqueSys s' (<[a := mkUnique false InLock]> m))
  | ul_lock_returns a l s m :
      m !! a = Some (mkUnique l InLock) → mcs_holds a s →
      unique_step (mkUniqueSys s m) (mkUniqueSys s (<[a := mkUnique true Outside]> m))
  | ul_try_lock a s s' m :
      m !! a = Some (mkUnique false Outside) → mcs_step a DoTryLock s s' →
      unique_step (mkUniqueSys s m) (mkUniqueSys s' (<[a := mkUnique false InTryLock]> m))
  | ul_try_lock_returns a l s m (ret : bool) :
      m !! a = Some (mkUnique l InTryLock) → (if ret then mcs_holds a s else mcs_calls s !! a = None) →
      unique_step (mkUniqueSys s m) (mkUniqueSys s (<[a := mkUnique ret Outside]> m))
  | ul_unlock a s s' m :
      m !! a = Some (mkUnique true Outside) → mcs_step a DoUnlock s s' →
      unique_step (mkUniqueSys s m) (mkUniqueSys s' (<[a := mkUnique true InUnlock]> m))
  | ul_unlock_returns a l s m :
      m !! a = Some (mkUnique l InUnlock) → mcs_calls s !! a = None →
      unique_step (mkUniqueSys s m) (mkUniqueSys s (<[a := mkUnique false Outside]> m))
  | ul_destroy a s s' m :
      m !! a = Some (mkUnique true Outside) → mcs_step a DoUnlock s s' →
      unique_step (mkUniqueSys s m) (mkUniqueSys s' (<[a := mkUnique true InDestructor]> m))
  | ul_destroy_unlocked a s m :
      m !! a = Some (mkUnique false Outside) →
      unique_step (mkUniqueSys s m) (mkUniqueSys s (<[a := mkUnique false Destructed]> m))
  | ul_destroyed a l s m :
      m !! a = Some (mkUnique l InDestructor) → mcs_calls s !! a = None →
      unique_step (mkUniqueSys s m) (mkUniqueSys s (<[a := mkUnique l Destructed]> m)).

(** ** The invariant *)

Definition in_lock p : bool :=
  match p with ResetNext | ResetLocked | Exchange | Link _ | Spin | SetOwner | Locked => true | _ => false end.
Definition in_try p : bool :=
  match p with TryLoad | TryResetNext | TryResetLocked | TryExchange | SetOwner | Locked => true | _ => false end.
Definition in_unlock p : bool :=
  match p with LoadNext | ResetTail | AwaitNext | Signal _ => true | _ => false end.

(** The call of [lk] that an object's thread is in. *)
Definition call_at u (c : option mcs_pc) : Prop :=
  match ul_pc u, c with
  | Outside, Some p => ul_locked u = true ∧ p = Locked
  | Outside, None => ul_locked u = false
  | InLock, Some p => in_lock p = true
  | InLock, None => False
  | InTryLock, Some p => in_try p = true
  | (InUnlock | InDestructor), Some p => in_unlock p = true
  | Destructed, Some _ => False
  | _, None => True
  end.
Record unique_inv (x : unique_sys) : Prop := {
  ui_lock : mcs_inv (lk x);
  ui_calls a u : uniques x !! a = Some u → call_at u (mcs_calls (lk x) !! a);
}.

(** What an access leaves of the call. *)
Lemma advance_phase a p s s' : advance a p s = Some s' → mcs_calls s !! a = Some p → p ≠ Locked →
  match mcs_calls s' !! a with
  | Some p' => (in_lock p = true → in_lock p' = true) ∧ (in_try p = true → in_try p' = true) ∧ (in_unlock p = true → in_unlock p' = true)
  | None => in_lock p = false
  end.
Proof.
  intros H Ha Hp. destruct p; cbn in H; unfold store_next, store_locked in H;
    repeat match type of H with context [mcs_nodes s !! ?x] => destruct (mcs_nodes s !! x); cbn in H; try done end;
    injection H as <-; repeat case_match; cbn in *; rewrite ?lookup_insert_eq, ?lookup_delete_eq in *; simplify_eq; try done.
Qed.

Lemma mcs_step_other a i b s s' : mcs_step a i s s' → b ≠ a → mcs_calls s' !! b = mcs_calls s !! b.
Proof.
  intros Hs Hne. inversion Hs; subst; cbn; rewrite ?lookup_insert_ne by done; try done. by eapply advance_calls.
Qed.

Lemma call_at_progress u a s s' : mcs_step a Progress s s' → call_at u (mcs_calls s !! a) → call_at u (mcs_calls s' !! a).
Proof.
  intros Hs. inversion Hs as [| | |? p ? ? Ha Hp E]; subst. rewrite Ha. pose proof (advance_phase a p s s' E Ha Hp) as H.
  unfold call_at. intros Hu. destruct (ul_pc u), (mcs_calls s' !! a); try done; try (by destruct Hu); try (by apply H); congruence.
Qed.

(** A step of the object [a]: its own call, and its new state. *)
Lemma unique_inv_object a i s s' m u :
  unique_inv (mkUniqueSys s m) → mcs_step a i s s' → call_at u (mcs_calls s' !! a) → unique_inv (mkUniqueSys s' (<[a := u]> m)).
Proof.
  intros [Hl Hc] Hs Hu. split; cbn in *; [by eapply mcs_step_inv|]. intros b v.
  rewrite lookup_insert_Some. intros [[<- <-]|[Hne Hv]]; [done|]. rewrite (mcs_step_other a i b s s' Hs) by done. by apply Hc.
Qed.
Lemma unique_inv_return a s m u :
  unique_inv (mkUniqueSys s m) → call_at u (mcs_calls s !! a) → unique_inv (mkUniqueSys s (<[a := u]> m)).
Proof.
  intros [Hl Hc] Hu. split; cbn in *; [done|]. intros b v.
  rewrite lookup_insert_Some. intros [[<- <-]|[Hne Hv]]; [done|]. by apply Hc.
Qed.

Lemma mcs_started a i s s' : mcs_step a i s s' → i ≠ Progress →
  mcs_calls s' !! a = Some match i with DoLock => ResetNext | DoTryLock => TryLoad | _ => LoadNext end.
Proof. intros Hs Hi. inversion Hs; subst; cbn; rewrite ?lookup_insert_eq; done. Qed.

Lemma unique_step_inv x x' : unique_step x x' → unique_inv x → unique_inv x'.
Proof.
  intros Hs Hx. inversion Hs; subst.
  1: { destruct Hx as [Hl Hc]. split; cbn in *; [by eapply mcs_step_inv|]. intros b u Hb. destruct (decide (b = a)) as [->|Hne].
       - eapply call_at_progress; [done|by apply Hc].
       - rewrite (mcs_step_other a Progress b s s') by done. by apply Hc. }
  all: try (eapply unique_inv_object; [done..|]; match goal with H : mcs_step _ _ _ _ |- _ => by rewrite (mcs_started _ _ _ _ H) end).
  all: apply unique_inv_return; [done|].
  all: unfold mcs_holds in *; try match goal with H : if ?r then _ else _ |- _ => destruct r end.
  all: try match goal with H : mcs_calls _ !! _ = _ |- _ => by rewrite H end.
  - destruct Hx as [_ Hc]. cbn in Hc. pose proof (Hc _ _ H) as Hu. unfold call_at in *. cbn in *.
    destruct (mcs_calls s !! a); [by destruct Hu|done].
Qed.

Lemma unique_reachable_inv x : rtc unique_step unique_init x → unique_inv x.
Proof.
  intros H. assert (unique_inv unique_init) as Hi by (split; cbn; [exact mcs_inv_init|done]). revert Hi.
  induction H as [|? ? ? Hs _ IH]; [done|]. intros Hi. by apply IH, (unique_step_inv _ _ Hs).
Qed.
End steps.

(** ** Properties *)

(** A [UniqueLock] knows whether it has the lock. However the calls of the objects
    interleave, outside its calls an object has [locked] set exactly when it holds
    the lock, at most one object has it set there, and after its destructor the
    lock has no call and no place in the queue for its node, which is on the stack
    and may go; no call is about to access a node that is gone. *)
Theorem unique_lock_owns (x : unique_sys) :
  rtc unique_step unique_init x →
  (∀ a l, uniques x !! a = Some (mkUnique l Outside) → (l = true ↔ mcs_holds a (lk x))) ∧
  (∀ a b, uniques x !! a = Some (mkUnique true Outside) → uniques x !! b = Some (mkUnique true Outside) → a = b) ∧
  (∀ a l, uniques x !! a = Some (mkUnique l Destructed) → mcs_calls (lk x) !! a = None ∧ a ∉ mcs_queue (lk x)) ∧
  ¬ mcs_faulty (lk x).
Proof.
  intros [Hl Hc]%unique_reachable_inv.
  assert (∀ a l, uniques x !! a = Some (mkUnique l Outside) → (l = true ↔ mcs_holds a (lk x))) as Hown.
  { intros a l Ha. pose proof (Hc _ _ Ha) as Hu. unfold mcs_holds, call_at in *. cbn in Hu.
    destruct (mcs_calls (lk x) !! a); [destruct Hu as [-> ->]; done|subst; done]. }
  split; [done|]. split; [intros a b Ha%Hown Hb%Hown; apply (mcs_excl a b (lk x)); [done|by apply Ha|by apply Hb]|].
  split; [|by apply inv_no_fault].
  intros a l Ha. pose proof (Hc _ _ Ha) as Hu. unfold call_at in Hu. cbn in Hu.
  destruct (mcs_calls (lk x) !! a) eqn:E; [done|]. split; [done|by apply not_queued].
Qed.

(** [try_lock] of an object that has the lock: the first access of
    [try_lock_with_node] finds the tail set, so that the call returns [false]
    and [locked] becomes [false], while the lock is still held; neither [unlock]'s
    caller nor the destructor will release it. *)
Theorem try_lock_of_owner_loses_lock (s : MCSLock) (a : nat) :
  mcs_reachable s → mcs_holds a s → is_Some (mcs_tail s).
Proof.
  intros Hi%mcs_reachable_inv Ha. rewrite (mi_tail _ Hi). apply mcs_holds_head in Ha; [|done].
  destruct (mcs_queue s) as [|b q]; [done|]. rewrite last_cons. by destruct (last q).
Qed.

(** ** Examples *)

(** An object takes the lock in its constructor and is destroyed. *)
Lemma unique_lock_owns_witness :
  ∃ x, rtc unique_step unique_init x ∧ uniques x !! 1%nat = Some (mkUnique true Destructed) ∧ mcs_calls (lk x) !! 1%nat = None.
Proof.
  pose (s k := default mcs_init (mcs_run (take k ((1%nat, DoLock) :: replicate 4 (1%nat, Progress) ++ (1%nat, DoUnlock) ::
                 replicate 2 (1%nat, Progress))) mcs_init)).
  assert (∀ k i, (k < 8)%nat → mcs_do (1%nat, i) (s k) = Some (s (S k)) → mcs_step 1 i (s k) (s (S k))) as Hs by (intros; by apply mcs_do_step).
  assert (∃ m, m !! 1%nat = Some (mkUnique true Destructed) ∧ rtc unique_step unique_init (mkUniqueSys (s 8%nat) m))
    as (m & Hm & Hx); [|exists (mkUniqueSys (s 8%nat) m); split; [exact Hx|split; [exact Hm|]];
      destruct (unique_lock_owns _ Hx) as (_ & _ & H & _); by apply (H 1%nat true)].
  eexists. split; [|
    eapply rtc_l; [apply (ul_construct 1 _ (s 1%nat)); [reflexivity|by apply (Hs 0%nat); [lia|vm_compute; reflexivity]]|];
    eapply rtc_l; [apply (ul_inner 1 (s 1%nat) (s 2%nat)), Hs; [lia|vm_compute; reflexivity]|];
    eapply rtc_l; [apply (ul_inner 1 (s 2%nat) (s 3%nat)), Hs; [lia|vm_compute; reflexivity]|];
    eapply rtc_l; [apply (ul_inner 1 (s 3%nat) (s 4%nat)), Hs; [lia|vm_compute; reflexivity]|];
    eapply rtc_l; [apply (ul_inner 1 (s 4%nat) (s 5%nat)), Hs; [lia|vm_compute; reflexivity]|];
    eapply rtc_l; [apply (ul_lock_returns 1 true); [reflexivity|vm_compute; reflexivity]|];
    eapply rtc_l; [apply (ul_destroy 1 _ (s 6%nat)); [reflexivity|by apply (Hs 5%nat); [lia|vm_compute; reflexivity]]|];
    eapply rtc_l; [apply (ul_inner 1 (s 6%nat) (s 7%nat)), Hs; [lia|vm_compute; reflexivity]|];
    eapply rtc_l; [apply (ul_inner 1 (s 7%nat) (s 8%nat)), Hs; [lia|vm_compute; reflexivity]|];
    eapply rtc_l; [apply (ul_destroyed 1 true); [reflexivity|vm_compute; reflexivity]|apply rtc_refl]].
  reflexivity.
Defined.
