(* ===== verification/ClhLock.v ===== *)
(** ClhLock: [include/clhLock.hpp], the queue lock that spins on its
    predecessor's node.

    [advance] is one access of a call to the shared memory, [clh_step] interleaves
    any number of calls. Nodes are addresses that the allocator never hands out
    twice; a freed node stays in the heap without a value, and a call that
    accesses it has no successor state. [clh_queue] is a ghost: the calls that
    have exchanged the tail, with their nodes, and [clh_free] the node the first
    of them waits on. *)
From S2P Require Import Prelude SharedLock.

(** ** Definitions *)

(** Where a call is: in [lock], between the operations, in [unlock], at the check
    of [try_lock]. *)
Inductive clh_pc :=
  | AllocNode | ExchangeTail (node : nat) | FirstLoad (node prev : nat) | SpinPrev (node prev : nat)
  | FreePrev (node prev : nat) | SetMynode (node : nat)
  | Holding (node : nat)
  | ReadMynode (node : nat) | StoreFalse (node mynode : nat)
  | TryLoadTail | TryLoadPrev (prev : nat).

(** [CLHLock], the values of [succ_must_wait], the calls and the ghosts. *)
Record CLHLock := mkCLH {
  clh_mynode : nat;
  clh_tail : nat;
  clh_heap : gmap nat (option bool);
  clh_calls : gmap nat clh_pc;
  clh_free : nat;
  clh_queue : list (nat * nat);
}.
(** The constructor: one node, of address 0, that nobody waits for. *)
Definition clh_init : CLHLock := mkCLH 0 0 {[0%nat := Some false]} ∅ 0 [].

Section operations.
Implicit Types (s : CLHLock) (a n m : nat) (p : clh_pc).

Definition set_mynode n s := mkCLH n (clh_tail s) (clh_heap s) (clh_calls s) (clh_free s) (clh_queue s).
Definition set_value n v s := mkCLH (clh_mynode s) (clh_tail s) (<[n := v]> (clh_heap s)) (clh_calls s) (clh_free s) (clh_queue s).
Definition goto a p s := mkCLH (clh_mynode s) (clh_tail s) (clh_heap s) (<[a := p]> (clh_calls s)) (clh_free s) (clh_queue s).
Definition return_ a s := mkCLH (clh_mynode s) (clh_tail s) (clh_heap s) (delete a (clh_calls s)) (clh_free s) (clh_queue s).
Definition enqueue a n s := mkCLH (clh_mynode s) n (clh_heap s) (clh_calls s) (clh_free s) (clh_queue s ++ [(a, n)]).
Definition dequeue n s := mkCLH (clh_mynode s) (clh_tail s) (clh_heap s) (clh_calls s) n (tail (clh_queue s)).

(** The value of a node that has not been freed. *)
Definition load n s : option bool := mjoin (clh_heap s !! n).

(** The next access of call [a]; [fresh] is the address the allocator returns. *)
Definition advance a fresh p s : option CLHLock :=
  match p with
  | AllocNode =>
      if decide (clh_heap s !! fresh = None)
      then Some (goto a (ExchangeTail fresh) (set_value fresh (Some true) s)) else Some s
  | ExchangeTail node => Some (goto a (FirstLoad node (clh_tail s)) (enqueue a node s))
  | FirstLoad node prev | SpinPrev node prev =>
      v ← load prev s;
      Some (goto a (if (v : bool) then SpinPrev node prev else FreePrev node prev) s)
  | FreePrev node prev => _ ← load prev s; Some (goto a (SetMynode node) (set_value prev None s))
  | SetMynode node => Some (goto a (Holding node) (set_mynode node s))
  | Holding _ => Some s
  | ReadMynode node => Some (goto a (StoreFalse node (clh_mynode s)) s)
  | StoreFalse node mynode =>
      _ ← load mynode s; Some (return_ a (dequeue node (set_value mynode (Some false) s)))
  | TryLoadTail => Some (goto a (TryLoadPrev (clh_tail s)) s)
  | TryLoadPrev prev => v ← load prev s; Some (if (v : bool) then return_ a s else goto a AllocNode s)
  end.

Inductive clh_step : nat → lock_act → CLHLock → CLHLock → Prop :=
  | clh_lock a s : clh_calls s !! a = None → clh_step a DoLock s (goto a AllocNode s)
  | clh_try_lock a s : clh_calls s !! a = None → clh_step a DoTryLock s (goto a TryLoadTail s)
  | clh_unlock a n s : clh_calls s !! a = Some (Holding n) → clh_step a DoUnlock s (goto a (ReadMynode n) s)
  | clh_progress a fresh p s s' :
      clh_calls s !! a = Some p → (∀ n, p ≠ Holding n) → advance a fresh p s = Some s' → clh_step a Progress s s'.

Definition clh_next s s' : Prop := ∃ a i, clh_step a i s s'.
Definition clh_reachable s : Prop := rtc clh_next clh_init s.
Definition clh_holds a s : Prop := ∃ n, clh_calls s !! a = Some (Holding n).
(** Call [a] is about to access a node that has been freed. *)
Definition clh_faults a s : Prop := ∃ p, clh_calls s !! a = Some p ∧ ∀ fresh, advance a fresh p s = None.
End operations.

(** ** The invariant *)

Section invariant.
Implicit Types (s : CLHLock) (a b n m : nat) (p : clh_pc) (q : list (nat * nat)).

(** The node of a call in the queue. *)
Definition queued_node p : option nat :=
  match p with
  | FirstLoad n _ | SpinPrev n _ | FreePrev n _ | SetMynode n | Holding n | ReadMynode n | StoreFalse n _ => Some n
  | _ => None
  end.
(** The call has freed the node it waited on. *)
Definition past_free p : bool :=
  match p with SetMynode _ | Holding _ | ReadMynode _ | StoreFalse _ _ => true | _ => false end.
Definition chain s : list nat := clh_free s :: (clh_queue s).*2.

Definition call_ok s a p : Prop :=
  match p with
  | AllocNode | TryLoadTail => True
  | TryLoadPrev m => is_Some (clh_heap s !! m)
  | ExchangeTail n => clh_heap s !! n = Some (Some true) ∧ (n ∉ chain s) ∧
      ∀ b, clh_calls s !! b = Some (ExchangeTail n) → b = a
  | FirstLoad n m | SpinPrev n m => (a, n) ∈ clh_queue s ∧ follows (chain s) m n
  | FreePrev n m => head (clh_queue s) = Some (a, n) ∧ m = clh_free s
  | SetMynode n => head (clh_queue s) = Some (a, n)
  | Holding n | ReadMynode n => head (clh_queue s) = Some (a, n) ∧ clh_mynode s = n
  | StoreFalse n m => head (clh_queue s) = Some (a, n) ∧ m = n
  end.

Record clh_inv s : Prop := {
  ci_tail : last (chain s) = Some (clh_tail s);
  ci_agents : NoDup (clh_queue s).*1;
  ci_nodes : NoDup (chain s);
  ci_queue a n : (a, n) ∈ clh_queue s →
    clh_heap s !! n = Some (Some true) ∧ ∃ p, clh_calls s !! a = Some p ∧ queued_node p = Some n;
  ci_free : is_Some (clh_heap s !! clh_free s) ∧
    (clh_heap s !! clh_free s = Some (Some false) ∨
     ∃ a n p, head (clh_queue s) = Some (a, n) ∧ clh_calls s !! a = Some p ∧ past_free p = true);
  ci_call a p : clh_calls s !! a = Some p → call_ok s a p;
}.

Lemma chain_allocated s n : clh_inv s → n ∈ chain s → is_Some (clh_heap s !! n).
Proof.
  intros Hi [-> |Hn]%elem_of_cons; [apply (ci_free s Hi)|]. apply list_elem_of_fmap in Hn as ([a m] & -> & Hin).
  destruct (ci_queue s Hi a m Hin) as [Hm _]. cbn. rewrite Hm. by eexists.
Qed.

(** A call that is not in the queue has no place there. *)
Lemma clh_not_queued s a p : clh_inv s → clh_calls s !! a = Some p → queued_node p = None → ∀ n, (a, n) ∉ clh_queue s.
Proof. intros Hi Hp Hq n Hin. destruct (ci_queue s Hi a n Hin) as (_ & p' & Hp' & Hn). congruence. Qed.

(** The value of the node a call in the queue waits on. *)
Lemma wait_value s a n m :
  clh_inv s → clh_calls s !! a = Some (FirstLoad n m) ∨ clh_calls s !! a = Some (SpinPrev n m) →
  load m s = Some true ∨ (load m s = Some false ∧ m = clh_free s ∧ head (clh_queue s) = Some (a, n)).
Proof.
  intros Hi Hp. assert ((a, n) ∈ clh_queue s ∧ follows (chain s) m n) as [Hin Hf].
  { by destruct Hp as [Hp|Hp]; apply (ci_call s Hi) in Hp. }
  unfold load. apply follows_cons in Hf as [[-> Hh]|[Hm _]%follows_elem].
  - right. assert (head (clh_queue s) = Some (a, n)) as Hh'.
    { destruct (clh_queue s) as [|[a' n'] q] eqn:Eq; [done|]. injection Hh as ->.
      apply elem_of_cons in Hin as [[= ->]|Hin]; [done|]. pose proof (ci_nodes s Hi) as Hnd. unfold chain in Hnd.
      rewrite Eq in Hnd. apply NoDup_cons in Hnd as [_ [[] _]%NoDup_cons]. by apply (list_elem_of_fmap_2 snd _ (a, n)). }
    split; [|done]. destruct (ci_free s Hi) as [_ [-> |(b & k & p & Hb & Hpb & Hpast)]]; [done|].
    rewrite Hh' in Hb. injection Hb as <- <-. destruct Hp as [Hp|Hp]; rewrite Hp in Hpb; by injection Hpb as <-.
  - left. apply list_elem_of_fmap in Hm as ([b k] & -> & Hb). cbn.
    by destruct (ci_queue s Hi b k Hb) as [-> _].
Qed.

(** *** Preservation *)

(** A call moves, the queue and the heap stay. *)
Lemma inv_goto s a p' v :
  clh_inv s →
  (∀ n, (a, n) ∈ clh_queue s → queued_node p' = Some n ∧
     ∀ p, clh_calls s !! a = Some p → past_free p = true → past_free p' = true) →
  v = clh_mynode s ∨ (∃ n, head (clh_queue s) = Some (a, n)) →
  (∀ n b, p' = ExchangeTail n → clh_calls s !! b ≠ Some (ExchangeTail n)) →
  call_ok (goto a p' (set_mynode v s)) a p' → clh_inv (goto a p' (set_mynode v s)).
Proof.
  intros [Ht Ha Hn Hq Hf Hc] Hqa Hv Hex Hok. constructor; cbn; try done.
  - intros b n Hin. destruct (Hq b n Hin) as [Hh (p & Hp & Hpn)]. split; [done|].
    destruct (decide (a = b)) as [<-|]; [|rewrite lookup_insert_ne by done; by exists p].
    rewrite lookup_insert_eq. exists p'. by destruct (Hqa n Hin).
  - destruct Hf as [? [?|(b & n & p & Hb & Hp & Hpast)]]; (split; [done|]); [by left|right].
    exists b, n. destruct (decide (a = b)) as [<-|]; [|rewrite lookup_insert_ne by done; by exists p].
    rewrite lookup_insert_eq. exists p'. split; [done|]. split; [done|]. eapply Hqa; [by apply head_elem|done|done].
  - intros b p. rewrite lookup_insert_Some. intros [[<- <-]|[Hne Hb]]; [done|]. specialize (Hc b p Hb).
    assert (∀ n, head (clh_queue s) = Some (b, n) → v = clh_mynode s) as Hvb.
    { intros n Hh. destruct Hv as [|[k Hk]]; [done|]. congruence. }
    destruct p; cbn in *; try done.
    + destruct Hc as (? & ? & Hu). split; [done|]. split; [done|]. intros c. rewrite lookup_insert_Some.
      intros [[<- Hp]|[_ Hcc]]; [by destruct (Hex _ b Hp)|by apply Hu].
    + destruct Hc as [Hh <-]. split; [done|]. by eapply Hvb.
    + destruct Hc as [Hh <-]. split; [done|]. by eapply Hvb.
Qed.

Lemma set_mynode_same s : set_mynode (clh_mynode s) s = s.
Proof. by destruct s. Qed.

(** A call outside the queue moves. *)
Lemma inv_outside s a p' :
  clh_inv s → (∀ n, (a, n) ∉ clh_queue s) → queued_node p' = None →
  (∀ n b, p' = ExchangeTail n → clh_calls s !! b ≠ Some (ExchangeTail n)) →
  call_ok (goto a p' s) a p' → clh_inv (goto a p' s).
Proof.
  intros Hi Hq Hp Hex Hok. rewrite <- (set_mynode_same s) at 1.
  apply inv_goto; [done|intros n Hin; by destruct (Hq n)|by left|done|by rewrite set_mynode_same].
Qed.

(** A call in the queue moves and keeps its node. *)
Lemma inv_inside s a p p' n :
  clh_inv s → clh_calls s !! a = Some p → queued_node p = Some n → queued_node p' = Some n →
  (past_free p = true → past_free p' = true) → call_ok (goto a p' s) a p' → clh_inv (goto a p' s).
Proof.
  intros Hi Hp Hn Hn' Hpast Hok. rewrite <- (set_mynode_same s) at 1.
  apply inv_goto; [done| |by left|by intros k b ->|by rewrite set_mynode_same].
  intros m Hin. destruct (ci_queue s Hi a m Hin) as (_ & q & Hq & Hm). split; [congruence|].
  intros r Hr. by replace r with p by congruence.
Qed.

(** A call that is not in the queue returns. *)
Lemma inv_return s a : clh_inv s → (∀ n, (a, n) ∉ clh_queue s) → clh_inv (return_ a s).
Proof.
  intros [Ht Ha Hn Hq Hf Hc] Hout. constructor; cbn; try done.
  - intros b n Hin. rewrite lookup_delete_ne; [by apply Hq|]. intros ->. by destruct (Hout n).
  - destruct Hf as [? [?|(b & n & p & Hb & Hp & Hpast)]]; (split; [done|]); [by left|right].
    exists b, n, p. rewrite lookup_delete_ne; [done|]. intros ->. by destruct (Hout n); apply head_elem.
  - intros b p [Hne Hb]%lookup_delete_Some. specialize (Hc b p Hb). destruct p; cbn in *; try done.
    destruct Hc as (? & ? & Hu). split; [done|]. split; [done|]. by intros c [_ ?]%lookup_delete_Some; apply Hu.
Qed.

(** The allocator returns a new node. *)
Lemma inv_alloc s n v : clh_inv s → clh_heap s !! n = None → clh_inv (set_value n v s).
Proof.
  intros Hi Hn. pose proof (λ m, chain_allocated s m Hi) as Hch. destruct Hi as [Ht Ha Hnd Hq Hf Hc].
  assert (∀ m, is_Some (clh_heap s !! m) → <[n := v]> (clh_heap s) !! m = clh_heap s !! m) as Hsame.
  { intros m [x Hm]. apply lookup_insert_ne. by intros ->; rewrite Hn in Hm. }
  constructor; cbn; try done.
  - intros a k Hin. destruct (Hq a k Hin) as [Hk ?]. split; [|done]. rewrite Hsame; [done|by rewrite Hk].
  - by rewrite Hsame by apply Hf.
  - intros a p Hp. specialize (Hc a p Hp). destruct p; cbn in *; try done.
    + destruct Hc as (Hk & ?). split; [|done]. rewrite Hsame; [done|by rewrite Hk].
    + by rewrite Hsame.
Qed.

(** A call joins the queue. *)
Lemma clh_inv_enqueue s a n :
  clh_inv s → clh_calls s !! a = Some (ExchangeTail n) → clh_inv (goto a (FirstLoad n (clh_tail s)) (enqueue a n s)).
Proof.
  intros Hi Hp. pose proof (clh_not_queued s a _ Hi Hp eq_refl) as Hout. destruct Hi as [Ht Ha Hnd Hq Hf Hc].
  destruct (Hc a _ Hp) as (Hh & Hnc & Hu).
  set (s' := goto a _ _). assert (chain s' = chain s ++ [n]) as Hch by (unfold chain; cbn; by rewrite fmap_app).
  assert ((clh_queue s').*1 = (clh_queue s).*1 ++ [a]) as Hag by (cbn; by rewrite fmap_app).
  constructor; rewrite ?Hch, ?Hag; unfold s'; cbn [clh_tail clh_queue clh_free clh_heap clh_calls goto enqueue].
  - by rewrite last_snoc.
  - apply NoDup_app. split; [done|]. split; [|apply NoDup_singleton]. intros b Hb ->%list_elem_of_singleton.
    apply list_elem_of_fmap in Hb as ([c k] & -> & Hin). by destruct (Hout k).
  - apply NoDup_app. split; [done|]. split; [|apply NoDup_singleton]. by intros b Hb ->%list_elem_of_singleton.
  - intros b k. rewrite elem_of_app, list_elem_of_singleton. intros [Hin|[= -> ->]].
    + destruct (Hq b k Hin) as [? ?]. split; [done|]. rewrite lookup_insert_ne; [done|]. intros ->. by destruct (Hout k).
    + split; [done|]. rewrite lookup_insert_eq. eauto.
  - destruct Hf as [? [?|(b & k & p & Hb & Hpb & Hpast)]]; (split; [done|]); [by left|right]. exists b, k, p.
    split; [destruct (clh_queue s); [done|by injection Hb as ->]|]. rewrite lookup_insert_ne; [done|].
    intros ->. by destruct (Hout k); apply head_elem.
  - intros b p. rewrite lookup_insert_Some. intros [[<- <-]|[Hne Hb]].
    + unfold call_ok. fold s'. rewrite Hch, follows_snoc. split; [|by right]. cbn. rewrite elem_of_app. right. by left.
    + assert (∀ x, head (clh_queue s) = Some x → head (clh_queue s ++ [(a, n)]) = Some x) as Hhd by (by destruct (clh_queue s)).
      specialize (Hc b p Hb). fold s'. destruct p; unfold call_ok in *; rewrite ?Hch, ?follows_snoc; cbn; rewrite ?elem_of_app; try done;
        try (by apply Hhd); try (by destruct Hc; split; [by left|by left]); try (by destruct Hc; split; [by apply Hhd|]).
      destruct Hc as (? & Hk & Hub). split; [done|]. split.
      * change (node ∉ chain s ++ [n]). intros [?| ->%list_elem_of_singleton]%elem_of_app; [done|].
        by destruct Hne; rewrite (Hu b).
      * intros c. rewrite lookup_insert_Some. intros [[<- [=]]|[_ Hcc]]. by apply Hub.
Qed.

(** The first call frees the node it waited on. *)
Lemma inv_free_prev s a n m :
  clh_inv s → clh_calls s !! a = Some (FreePrev n m) → clh_inv (goto a (SetMynode n) (set_value m None s)).
Proof.
  intros [Ht Ha Hnd Hq Hf Hc] Hp. destruct (Hc a _ Hp) as [Hh ->]. set (m := clh_free s) in *.
  assert (∀ k, k ∈ (clh_queue s).*2 → k ≠ m) as Hne.
  { intros k Hk ->. by apply NoDup_cons in Hnd as [[] _]. }
  constructor; cbn; try done.
  - intros b k Hin. destruct (Hq b k Hin) as [Hk (p & Hb & Hpk)]. split.
    { rewrite lookup_insert_ne; [done|]. intros <-. by destruct (Hne m); [apply (list_elem_of_fmap_2 snd _ (b, m))|]. }
    destruct (decide (a = b)) as [<-|]; [|rewrite lookup_insert_ne by done; by exists p].
    rewrite lookup_insert_eq. exists (SetMynode n). split; [done|]. rewrite Hp in Hb. by injection Hb as <-.
  - fold m. rewrite lookup_insert_eq. split; [done|]. right. exists a, n, (SetMynode n). by rewrite lookup_insert_eq.
  - intros b p. rewrite lookup_insert_Some. intros [[<- <-]|[Hab Hb]]; [done|]. specialize (Hc b p Hb).
    destruct p; cbn in *; try done.
    + destruct Hc as (Hk & Hkc & Hu). split; [|split; [done|]].
      * rewrite lookup_insert_ne; [done|]. intros <-. destruct Hkc. by left.
      * intros c. rewrite lookup_insert_Some. intros [[<- [=]]|[_ Hcc]]. by apply Hu.
    + rewrite lookup_insert_is_Some. destruct (decide (m = prev)); auto.
Qed.

(** The holder releases: its node becomes the one the next call waits on. *)
Lemma inv_release s a n :
  clh_inv s → clh_calls s !! a = Some (StoreFalse n n) → clh_inv (return_ a (dequeue n (set_value n (Some false) s))).
Proof.
  intros [Ht Ha Hnd Hq Hf Hc] Hp. destruct (Hc a _ Hp) as [Hh _]. unfold chain in *.
  destruct (clh_queue s) as [|x q] eqn:Eq; [done|]. injection Hh as ->. cbn [fmap list_fmap fst snd] in *.
  pose proof Ha as [Haq _]%NoDup_cons. pose proof Hnd as [Hfn Hnd']%NoDup_cons. pose proof Hnd' as [Hnq _]%NoDup_cons.
  assert (∀ b k, (b, k) ∈ q → b ≠ a ∧ k ≠ n) as Hne.
  { intros b k Hin. split; intros ->; [destruct Haq; by apply (list_elem_of_fmap_2 fst _ (a, k))|].
    destruct Hnq. by apply (list_elem_of_fmap_2 snd _ (b, n)). }
  constructor; unfold chain; cbn [clh_tail clh_queue clh_free clh_heap clh_calls return_ dequeue set_value tail];
    rewrite ?Eq; cbn [tail]; try done.
  - by apply NoDup_cons in Ha as [_ ?].
  - intros b k Hin. destruct (Hq b k) as [Hk (p & Hb & Hpk)]; [by right|]. destruct (Hne b k Hin).
    rewrite !lookup_insert_ne, lookup_delete_ne by done. split; [done|]. by exists p.
  - rewrite lookup_insert_eq. split; [done|by left].
  - intros b p [Hab Hb]%lookup_delete_Some. specialize (Hc b p Hb). unfold call_ok, chain in *. rewrite Eq in *.
    assert (∀ k m, (b, k) ∈ (a, n) :: q ∧ follows (clh_free s :: n :: q.*2) m k → (b, k) ∈ q ∧ follows (n :: q.*2) m k) as Hw.
    { intros k m [[[= -> ->]|Hin]%elem_of_cons Hfo]; [done|]. split; [done|].
      apply follows_cons in Hfo as [[_ [= ->]]|?]; [|done]. by destruct (Hne b k Hin). }
    destruct p; cbn [clh_tail clh_queue clh_free clh_heap clh_calls return_ dequeue set_value fmap list_fmap fst snd head tail] in *;
      rewrite ?Eq; cbn [tail]; try done; try (by apply Hw); try (destruct Hc; congruence); try congruence.
    + destruct Hc as (Hk & Hkc & Hu). split; [|split].
      * rewrite lookup_insert_ne; [done|]. intros <-. destruct Hkc. right. by left.
      * intros Hk'. destruct Hkc. by right.
      * intros c [_ ?]%lookup_delete_Some. by apply Hu.
    + rewrite lookup_insert_is_Some. destruct (decide (n = prev)); auto.
Qed.

Lemma clh_inv_advance s s' a fresh p : clh_inv s → clh_calls s !! a = Some p → advance a fresh p s = Some s' → clh_inv s'.
Proof.
  intros Hi Hp. pose proof (ci_call s Hi a p Hp) as Hok.
  assert (queued_node p = None → ∀ n, (a, n) ∉ clh_queue s) as Hout by (intros Hn; by eapply clh_not_queued).
  destruct p; cbn [advance]; cbn in Hok.
  - destruct (decide _) as [Hfr|]; intros [= <-]; [|done]. apply inv_outside; [by apply inv_alloc|by apply Hout|done| |].
    + intros n b [= <-] Hb. cbn in Hb. destruct (ci_call s Hi b _ Hb) as [Hh _]. congruence.
    + cbn. rewrite lookup_insert_eq. split; [done|]. split.
      * intros Hin. destruct (chain_allocated s fresh Hi Hin) as [x Hx]. congruence.
      * intros b. rewrite lookup_insert_Some. intros [[? _]|[_ Hb]]; [done|].
        destruct (ci_call s Hi b _ Hb) as [Hh _]. congruence.
  - intros [= <-]. by apply clh_inv_enqueue.
  - destruct (wait_value s a node prev Hi) as [-> |[-> [-> Hh]]]; [by left| |]; cbn; intros [= <-];
      by eapply (inv_inside s a (FirstLoad node _)).
  - destruct (wait_value s a node prev Hi) as [-> |[-> [-> Hh]]]; [by right| |]; cbn; intros [= <-];
      by eapply (inv_inside s a (SpinPrev node _)).
  - destruct (load prev s); [|done]. cbn. intros [= <-]. by apply inv_free_prev.
  - intros [= <-]. apply inv_goto; [done| |right; by exists node|done|done].
    intros m Hin. destruct (ci_queue s Hi a m Hin) as (_ & q & Hq & Hm). rewrite Hp in Hq. by injection Hq as <-.
  - by intros [= <-].
  - intros [= <-]. destruct Hok as [Hh Hm]. eapply (inv_inside s a (ReadMynode node)); first [done|cbn; by rewrite Hm].
  - destruct Hok as [Hh ->]. destruct (load node s); [|done]. cbn. intros [= <-]. by apply inv_release.
  - intros [= <-]. apply inv_outside; [done|by apply Hout|done|done|]. cbn. apply chain_allocated; [done|].
    pose proof (ci_tail s Hi) as Ht. apply last_Some in Ht as [l Hl]. rewrite Hl, elem_of_app. right. by left.
  - destruct (load prev s) as [[]|]; cbn; [| |done]; intros [= <-]; [by apply inv_return; auto|].
    by apply inv_outside; auto.
Qed.

Lemma clh_inv_init : clh_inv clh_init.
Proof.
  constructor; cbn; try done.
  - apply NoDup_nil_2.
  - unfold chain. cbn. apply NoDup_singleton.
  - intros a n ?%elem_of_nil. done.
  - rewrite lookup_singleton_eq. split; [done|by left].
Qed.

Lemma clh_step_inv s s' a i : clh_inv s → clh_step a i s s' → clh_inv s'.
Proof.
  intros Hi Hs. inversion Hs as [? ? Hc|? ? Hc|? n ? Hp|? fresh p ? ? Hp _ Ha]; subst.
  1,2: apply inv_outside; try done; intros n Hin; destruct (ci_queue s Hi a n Hin) as (_ & p & Hp & _); congruence.
  - eapply (inv_inside s a (Holding n)); try done. by apply (ci_call s Hi a (Holding n)).
  - by eapply clh_inv_advance.
Qed.

Lemma clh_reachable_inv s : clh_reachable s → clh_inv s.
Proof.
  intros Hr. assert (clh_inv clh_init) as H0 by apply clh_inv_init. unfold clh_reachable in Hr.
  induction Hr as [s | s s1 s2 (a & i & Hs) _ IH]; [done|]. apply IH. by eapply clh_step_inv.
Qed.
End invariant.

(** ** The contract *)

Section contract.
Implicit Types (s : CLHLock) (a b : nat) (p : clh_pc).

Lemma clh_holds_head s a : clh_inv s → clh_holds a s → ∃ n, head (clh_queue s) = Some (a, n) ∧ clh_mynode s = n.
Proof. intros Hi [n Hp]. exists n. by apply (ci_call s Hi) in Hp. Qed.

Lemma clh_excl a b s : clh_inv s → clh_holds a s → clh_holds b s → a = b.
Proof.
  intros Hi Ha Hb. destruct (clh_holds_head s a Hi Ha) as (n & Hn & _). destruct (clh_holds_head s b Hi Hb) as (m & Hm & _).
  congruence.
Qed.

(** Only the own call of a step changes its place. *)
Lemma clh_advance_calls a fresh p s s' b : advance a fresh p s = Some s' → b ≠ a → clh_calls s' !! b = clh_calls s !! b.
Proof.
  intros H Hne. destruct p; cbn in H;
    repeat match type of H with
      | context [load ?x s] => destruct (load x s); cbn in H; try done
      | context [decide ?P] => destruct (decide P)
      end;
    injection H as <-; repeat case_match; cbn; rewrite ?lookup_insert_ne, ?lookup_delete_ne by done; done.
Qed.

Lemma clh_keep a i b s s' :
  clh_inv s → clh_step a i s s' → clh_holds b s → (a = b → i ≠ DoUnlock) → clh_holds b s'.
Proof.
  intros Hi Hs [n Hb] Hne. destruct (decide (b = a)) as [-> |Hab].
  - inversion Hs as [? ? Hc|? ? Hc|? m ? Hp|? fresh p ? ? Hp Hnh _]; subst; [congruence|congruence|by destruct Hne|].
    rewrite Hb in Hp. injection Hp as <-. by destruct (Hnh n).
  - exists n. inversion Hs; subst; cbn; rewrite ?lookup_insert_ne by done; try done. by rewrite (clh_advance_calls a fresh p s s' b).
Qed.

#[export] Instance clh_is_lock : Lock CLHLock := {|
  lock_init := clh_init; lock_step := clh_step; lock_holds := clh_holds; lock_inv := clh_inv;
  lock_inv_init := clh_inv_init;
  lock_inv_step a i s s' Hi Hs := clh_step_inv s s' a i Hi Hs;
  lock_excl := clh_excl;
  lock_keep := clh_keep;
|}.

(** [CLHSharedLock]: the code of [MCSSharedLock] over [CLHLock]. *)
Definition CLHSharedLock : Type := SharedLock CLHLock.
Definition clh_shared_step : CLHSharedLock → CLHSharedLock → Prop := shared_step.

Lemma clh_writer_excludes (s : CLHSharedLock) a :
  rtc clh_shared_step shared_init s → clients s !! a = Some Writing →
  ∀ b c, clients s !! b = Some c → b ≠ a → c = ReadLocking ∨ c = WriteLocking.
Proof. apply writer_excludes. Qed.

(** In the queue every access is to a node that is allocated. *)
Lemma inv_faults s a : clh_inv s → clh_faults a s → ∃ m, clh_calls s !! a = Some (TryLoadPrev m) ∧ load m s = None.
Proof.
  intros Hi (p & Hp & Hf). specialize (Hf 0%nat). destruct p; cbn [advance] in Hf; try done.
  - by destruct (decide _).
  - by destruct (wait_value s a node prev Hi (or_introl Hp)) as [E|[E _]]; rewrite E in Hf.
  - by destruct (wait_value s a node prev Hi (or_intror Hp)) as [E|[E _]]; rewrite E in Hf.
  - destruct (ci_call s Hi a _ Hp) as [Hh ->]. exfalso.
    destruct (ci_free s Hi) as [_ [Hv|(b & n & q & Hb & Hq & Hpast)]].
    + unfold load in Hf. by rewrite Hv in Hf.
    + rewrite Hh in Hb. injection Hb as <- <-. rewrite Hp in Hq. by injection Hq as <-.
  - destruct (ci_call s Hi a _ Hp) as [Hh ->]. destruct (ci_queue s Hi a node (head_elem _ _ Hh)) as [Hv _].
    unfold load in Hf. by rewrite Hv in Hf.
  - exists prev. split; [done|]. by destruct (load prev s).
Qed.
End contract.

(** ** Properties *)

(** C25: [CLHLock] is mutually exclusive, and [lock] and [unlock] access no freed
    node. In every reachable state at most one call is between [lock] and
    [unlock], [mynode] is the node it must release, and only the check of
    [try_lock] can be about to access a node that has been freed. *)
Theorem clh_lock_mutual_exclusion (s : CLHLock) :
  clh_reachable s →
  (∀ a b, clh_holds a s → clh_holds b s → a = b) ∧
  (∀ a n, clh_calls s !! a = Some (Holding n) → clh_mynode s = n ∧ load n s = Some true) ∧
  (∀ a, clh_faults a s → ∃ m, clh_calls s !! a = Some (TryLoadPrev m)).
Proof.
  intros Hi%clh_reachable_inv. split; [intros a b Ha Hb; by eapply clh_excl|]. split.
  - intros a n Ha. destruct (ci_call s Hi a _ Ha) as [Hh Hm]. split; [done|].
    destruct (ci_queue s Hi a n (head_elem _ _ Hh)) as [Hv _]. unfold load. by rewrite Hv.
  - intros a Hf. destruct (inv_faults s a Hi Hf) as (m & Hm & _). by exists m.
Qed.

(** ** Examples *)

(** One step as a function, and a schedule of steps. *)
Definition clh_do (x : nat * lock_act * nat) (s : CLHLock) : option CLHLock :=
  let '(a, i, fresh) := x in
  match i, clh_calls s !! a with
  | DoLock, None => Some (goto a AllocNode s)
  | DoTryLock, None => Some (goto a TryLoadTail s)
  | DoUnlock, Some (Holding n) => Some (goto a (ReadMynode n) s)
  | Progress, Some (Holding _) => None
  | Progress, Some p => advance a fresh p s
  | _, _ => None
  end.
Fixpoint clh_run (l : list (nat * lock_act * nat)) (s : CLHLock) : option CLHLock :=
  match l with [] => Some s | x :: l => s ← clh_do x s; clh_run l s end.

Lemma clh_do_step a i fresh s s' : clh_do (a, i, fresh) s = Some s' → clh_step a i s s'.
Proof.
  unfold clh_do. destruct i, (clh_calls s !! a) as [p|] eqn:Hc; try done.
  - intros [= <-]. by constructor.
  - intros [= <-]. by constructor.
  - destruct p; try done. intros [= <-]. by econstructor.
  - intros H. apply (clh_progress a fresh p); [done|by intros n ->|by destruct p].
Qed.

Lemma clh_run_reachable l s s' : clh_reachable s → clh_run l s = Some s' → clh_reachable s'.
Proof.
  revert s. induction l as [|[[a i] fresh] l IH]; intros s Hr; cbn [clh_run]; [by intros [= <-]|].
  destruct (clh_do (a, i, fresh) s) as [s1|] eqn:E; [|done]. cbn. apply IH. eapply rtc_r; [exact Hr|].
  exists a, i. by eapply clh_do_step.
Qed.

(** Call 1 takes the lock and call 2 waits behind it; call 2 frees the node that
    a call 3 of [try_lock] has just read from the tail. *)
Definition ex_contended : list (nat * lock_act * nat) :=
  (1%nat, DoLock, 0%nat) :: replicate 5 (1%nat, Progress, 1%nat) ++
  (2%nat, DoLock, 0%nat) :: replicate 4 (2%nat, Progress, 2%nat).
Definition ex_try : list (nat * lock_act * nat) :=
  [(3%nat, DoTryLock, 0%nat); (3%nat, Progress, 0%nat); (1%nat, DoLock, 0%nat)] ++ replicate 4 (1%nat, Progress, 1%nat).

Lemma clh_lock_mutual_exclusion_witness :
  ∃ s, clh_holds 1 s ∧ ¬ clh_holds 2 s ∧ load 1 s = Some true.
Proof.
  set (s := default clh_init (clh_run ex_contended clh_init)).
  assert (clh_reachable s) as Hr by (apply (clh_run_reachable ex_contended clh_init); [apply rtc_refl|vm_compute; reflexivity]).
  assert (clh_calls s !! 1%nat = Some (Holding 1)) as H1 by (vm_compute; reflexivity).
  destruct (clh_lock_mutual_exclusion s Hr) as (Hex & Hm & _).
  exists s. split; [by exists 1%nat|]. split; [|apply (Hm 1%nat 1%nat H1)].
  intros H2. discriminate (Hex 1%nat 2%nat); [by exists 1%nat|exact H2].
Defined.

(** The check of [CLHLock::try_lock] can read freed memory. A call that has
    loaded the tail is overtaken by a call of [lock], which gets the lock at once
    and frees the node the first call is about to read. *)
Theorem clh_try_lock_reads_freed_node :
  ∃ s m, clh_reachable s ∧ clh_calls s !! 3%nat = Some (TryLoadPrev m) ∧ clh_heap s !! m = Some None ∧ clh_faults 3 s.
Proof.
  exists (default clh_init (clh_run ex_try clh_init)), 0%nat. split; [|split; [|split]].
  - apply (clh_run_reachable ex_try clh_init); [apply rtc_refl|vm_compute; reflexivity].
  - vm_compute. reflexivity.
  - vm_compute. reflexivity.
  - exists (TryLoadPrev 0). split; [vm_compute; reflexivity|]. intros fresh. vm_compute. reflexivity.
Qed.
